(* ===== verification/_CoqProject ===== *)
-Q . S2P
Prelude.v
RustStr.v
Range.v
Codec.v
SliceCodec.v
Index.v
Validators.v
Readahead.v
Guard.v
Resolver.v
Client.v
Filler.v
Domains.v
Refresh.v
Sni.v
Units.v
Key.v
Config.v
Reference.v
Headers.v
Logs.v
Orchestrator.v
Store.v
Recovery.v
ObjectFill.v
Admin.v
Limits.v
Server.v
EndToEnd.v
Stream.v
Progress.v
Metrics.v
Accept.v
Process.v
Spike.v
Content.v
MockCdn.v
Differ.v
Differential.v
Soak.v
MockDns.v
LoadGen.v
Measure.v
