(* ===== verification/Prelude.v ===== *)
(** * cachic: a verification library

    cachic is a caching HTTP proxy for game and operating-system update CDNs.
    A client on the local network sends a request for a CDN host; the proxy
    finds the service the host belongs to, normalises the request to a cache
    key, and serves the object in fixed-size slices that come from a slice store
    or are fetched from the origin by range requests.  This library models the
    program's own logic, crate [src/crates/cachic], and the test kit it is
    tested with, crate [src/crates/cachic-testkit], as executable definitions
    and proves what makes them correct.

    ** How the program is put together, and where each part is modelled

    - A request enters [proxy/server.rs] ([Server.v]: [handle], [serve],
      [route]).  Its host is matched by [services/matcher.rs] against the list
      parsed by [services/domains.rs] ([Domains.v]), loaded from a directory or
      the bundled files and kept fresh by [services/refresh.rs] ([Refresh.v]);
      rules and the cache key come from [services/key.rs],
      [services/defaults.rs] and [config/rules.rs] ([Key.v]); headers are
      filtered by [proxy/headers.rs] ([Headers.v]); access log lines and records
      are [telemetry/logs.rs] ([Logs.v]).
    - [orchestrator/mod.rs] ([Orchestrator.v]) decides what to send: it keeps a
      cell per object so that one probe learns the object's metadata, plans a
      response, fetches missing slices with a check of their validators
      ([orchestrator/validators.rs], [Validators.v]) and gives an object a new
      generation when they change.  [orchestrator/readahead.rs] ([Readahead.v])
      decides what to prefetch and [orchestrator/filler.rs] ([Filler.v])
      coalesces the download of an object whose origin ignores ranges; the
      theorems about the whole fill are in [ObjectFill.v].
    - [proxy/range.rs] ([Range.v]) is the arithmetic of ranges and slices.
    - [store/slice.rs] ([SliceCodec.v]) encodes slices for the store, and
      [store/index.rs] ([Index.v]) keeps object metadata in a database;
      [Codec.v] holds the byte readers and writers both use.
      [store/hybrid.rs] ([Store.v]) opens and wraps the cache engine.
      [Recovery.v] is what a crash leaves of both and what the next process does
      with it; [EndToEnd.v] composes server, orchestrator and restarts into what a
      client receives.
    - The body of a response, one detached task per slice behind a window
      ([serve] of [proxy/server.rs]), is a machine of its own ([Stream.v]);
      [Progress.v] composes it with the request path into what a client is sure
      to receive.
    - [upstream/client.rs] ([Client.v]) fetches from origins, through
      [upstream/resolver.rs] ([Resolver.v]) and the address guard
      [upstream/guard.rs] ([Guard.v]).
    - [sni/clienthello.rs] and [sni/proxy.rs] ([Sni.v]) pass TLS through.
    - [proxy/limits.rs], [proxy/shutdown.rs], [proxy/heartbeat.rs] ([Limits.v])
      bound connections and drain on shutdown; the accept loops of both ports and
      the tasks they spawn ([Server::bind], [SniProxy::bind]) are [Accept.v].
    - [admin/mod.rs], [admin/api.rs] ([Admin.v]) are the operator's endpoints.
    - [config/units.rs] and [config/guard.rs] ([Units.v]), [config/mod.rs],
      [store/space.rs] and the parameters of [store/hybrid.rs] ([Config.v]); the
      settings and [config/reference.rs], which documents them ([Reference.v]).
    - [telemetry/metrics.rs], [telemetry/sampler.rs] and every place that
      records a metric ([Metrics.v]).
    - [main.rs] ([Process.v]) starts all of it in order, publishes readiness and
      shuts down; the same file has the admin router.
    - [spike/proxy.rs] ([Spike.v]) is the prototype the orchestrator grew out of;
      its codec is in the same file, its store ([spike/store.rs]) in [Store.v].
    - The test kit: deterministic content ([content.rs], [Content.v]), the mock
      origin ([mockcdn.rs], [MockCdn.v]), the tester that compares responses
      ([differ.rs], [Differ.v]), the mock DNS responder ([mockdns.rs],
      [MockDns.v]) and the report of the load generator with the load test
      ([loadgen.rs], [examples/loadtest.rs], [LoadGen.v], with binary64 from the
      Standard Library's [SpecFloat]); [Differential.v] composes origin, client, fill, orchestrator
      and tester, and [Soak.v] the soak test ([examples/soak.rs]) with the whole
      request path.  The benchmark and measurement programs ([examples/bench.rs],
      [examples/measure.rs]) are [Measure.v].

    This file holds what all share: Rust's [Result] as a monad, integers of a
    given width with their wrapping, saturating and checked operations, bytes,
    and [slice] of a list.  [RustStr.v] is the part of Rust's [str] and integer
    parsing that the sources use.

    ** How the code is modelled

    A [uN] is a [Z]; operations that the source leaves unchecked wrap, as in the
    release profile.  Strings are their UTF-8 bytes.  State is passed
    explicitly, [Result] is [result], a panic that matters is [None] or a
    constructor of its own.  HashMaps are [gmap]s.  Where tasks interleave, the
    model is a step relation whose steps are the source's atomic actions, and
    theorems quantify over all interleavings: the orchestrator ([step]), the
    upstream permits ([permit_step]), fills ([fill_step]), connections
    ([limit_step]), the drain ([drain_step]), the two listening ports ([act],
    [net_step]), the stream of a body ([stream_act]) and the spike
    ([lifetime_step]).
    Start-up is a program in a small monad of state, trace and fatal errors.

    Code of other crates is a parameter.  The cache engine foyer is the class
    [Foyer] with [FoyerLaws] (a lookup returns what was last inserted or
    nothing; entries may vanish at any time), the database redb is [Redb] with
    [RedbLaws], the metrics registry is [Prometheus] with [PrometheusLaws], the
    command line's own value parsers are [Clap] with [ClapLaws]; [gmap_foyer],
    [gmap_table], [ToyRegistry] and [toy_clap] are implementations that show the
    laws can hold.  The hash of object identifiers, the checksum of slices,
    DNS lookups, regular expressions, JSON and TOML parsing, URL parsing and the
    sending of a request are function parameters.

    Loops become [Fixpoint]s.  Where the recursion is not structural there is
    fuel, always the length of the input that shrinks: the walk over parent
    domains ([walk_parents], one step per byte), cutting a stream into slices
    ([cut_full], one per byte), TLS extensions and names ([sni_extension],
    [host_name], at least three bytes per round; [sni_extension_fuel] and
    [host_name_fuel] show that more fuel changes nothing), the filling of a buffer
    with content and the chunks of the mock origin's body (one per byte), the
    labels of a DNS question (one per byte), decimal digits.  The
    theorems about these functions are about the results, so a body that ran
    out of fuel would not satisfy them.

    ** What the theorems show

    - Serving the right bytes.  The windows of the planned slices tile the
      requested range ([windows_tile_the_range]); under every interleaving of
      plans, probes, fetches, generation bumps and evictions, what is assembled
      for a response is the requested bytes of one version of the object
      ([response_never_mixes_versions]); the response head announces exactly
      the body, and a truncated body is always short ([response_head_matches_body]).
      The hypotheses of the second are needed: [racing_probes_mix_versions],
      [purge_mixes_versions] and [forced_slice_size_serves_wrong_bytes] are
      executions of the model in which the code serves a mixture when probes
      race, an object is purged, or the slice size is changed by force.
      [client_receives_one_version] composes all of it: whatever the process has
      been through and whatever goes on meanwhile, status, headers and bytes of a
      streamed response are those of one version of the object the request names,
      and [serve_is_answered] shows that the request handler, run alone, is one of
      the executions covered.  [stream_refines_body] shows that the stream of a
      body is bounded, in order, never stuck and finite whatever the interleaving;
      with it [steady_origin_completes] shows that the client gets everything while
      the origin keeps its version, and [changed_origin_replanned] that a change
      costs one response and the next is planned from the new version.
      [differential_test_passes] closes the loop: with the mock origin as the
      origin, everything assembled under every interleaving passes the tester's
      comparison; [soak_passes] does the same over HTTP for the soak test.
    - Persistence.  Slices and index entries decode to what was encoded, torn
      and corrupted ones are refused ([slice_value_decode_iff],
      [torn_write_refused], [corrupt_payload_detected], [object_meta_codec]);
      the index refines a map of metadata ([index_refines]).  Over any number of
      crashes and restarts, with whatever the disk kept of what the store was
      given, responses are still the bytes of one version
      ([crash_never_mixes_versions]), unless the process dies between the two
      writes of a probe ([crash_between_writes_mixes_versions]).  The engine is
      opened so that slices fit its blocks ([store_suits_slices]).
    - Not being an open proxy.  The address guard refuses exactly the listed
      IPv4 blocks, sees through IPv4 addresses embedded in IPv6, and every
      address dialled has passed it; the TLS splice connects only to guarded
      addresses of listed names; credentials are not forwarded.
      [host_header_escapes_allow_list] shows that the Host header is not
      confined in the same way.
    - Matching and keys.  The longest matching pattern wins, refreshes keep a
      usable list, keys identify requests and paths are canonical.
    - Resources.  Upstream permits, connections, tracked objects and prefetches
      stay within their limits; over both ports together connections are
      bounded, counted and released whatever happens ([ports_sound], which
      refines [connection_limits_hold]), though a busy port does not notice its
      shutdown flag ([busy_port_ignores_shutdown]); the drain loses no wake-up; an object is
      filled once at a time, and a fill stores and returns exactly the slices of
      what it streamed and always releases its waiters ([fill_serves_object]).
    - Operators.  Only authorised requests change anything, a purge removes
      exactly what it says, a configuration that starts is usable, the generated
      reference documents the configuration that is parsed
      ([reference_matches_configuration]), timestamps follow the calendar, log
      lines cannot be forged.
    - The process. A process is ready only after the admin port, the store, the
      index and both data ports are up, a start that fails was never ready, and
      a shutdown fails readiness before it drains ([startup_order]); what a
      started process runs with has the properties the components' theorems ask
      for ([startup_establishes]). The list in use is never unsafe, whatever the
      network returns ([live_list_always_safe], [fetch_all_or_nothing]); a
      service that appears by a refresh, though, has no rule
      ([refreshed_service_loses_rule]).
    - Telemetry.  Recording and sampling use every metric with its own labels, so
      they never panic and never create series beyond the closed sets
      ([metrics_typed_and_closed]); a sample publishes what the components count
      ([sample_publishes]); [error_kind_is_always_other] shows that one label is
      the same for every upstream error.
    - The test kit.  Content does not depend on where reading starts and its loop
      ends ([content_position_independent]); cases are ranges of the object, the
      comparison is exact, and DNS queries are answered; reported percentiles are
      order statistics ([percentiles_exact], for p50 and p99 of up to 256
      samples, checked rank by rank; [percentile_rounds_up] shows another
      percentile that is not).  Every line of the benchmark parses
      ([bench_output_parses]), not so those of the first harness
      ([notes_shift_columns]).
    - The spike.  Its responses are sound during one lifetime of the process
      ([spike_lifetime_sound]) and mix versions after a restart
      ([spike_restart_mixes_versions]); the codec promoted from it decodes the
      same and counts besides ([promoted_codec_agrees]).

    ** What is not modelled

    The event loops and sockets (tokio, hyper, axum, reqwest): what a read, a
    connect or an accept returns is an input, and the copying of a splice is
    represented by its outcome.  The engine and the database themselves.  The
    rendering of metrics as text and of events by tracing, the formatting of
    summaries, and the texts of errors.  How clap finds its arguments (flags,
    environment, usage texts).  The clocks and requests of
    the measurement programs, and the remaining examples ([foyerprobe.rs],
    [config-reference.rs], [origin.rs]), which call the engine or start a component.  Of the spike, [spike/range.rs] (its plan apart) and
    [spike/slice.rs] (its decoder apart) are word for word [proxy/range.rs] and
    [store/slice.rs] and share their definitions; [bin/spike.rs] parses arguments
    and waits. *)

From Stdlib Require Export ZArith Lia.
From Stdlib Require Export Strings.Byte Strings.String.
From stdpp Require Export base numbers gmap list.

Open Scope Z_scope.

(** ** Results

    Rust's [Result<A, E>].  The error type comes first so that [result E] is
    a monad and stdpp's do-notation plays the role of the [?] operator. *)

Inductive result (E A : Type) : Type :=
  | Ok (a : A)
  | Err (e : E).
Arguments Ok {E A} a.
Arguments Err {E A} e.

#[export] Instance result_ret E : MRet (result E) := fun A a => Ok a.
#[export] Instance result_bind E : MBind (result E) := fun A B f r =>
  match r with Ok a => f a | Err e => Err e end.
#[export] Instance result_fmap E : FMap (result E) := fun A B f r =>
  match r with Ok a => Ok (f a) | Err e => Err e end.

Definition ok_or {E A} (o : option A) (e : E) : result E A :=
  match o with Some a => Ok a | None => Err e end.

Definition unwrap_or {E A} (r : result E A) (d : A) : A :=
  match r with Ok a => a | Err _ => d end.

Definition map_err {E F A} (f : E -> F) (r : result E A) : result F A :=
  match r with Ok a => Ok a | Err e => Err (f e) end.

Definition is_ok {E A} (r : result E A) : bool :=
  match r with Ok _ => true | Err _ => false end.

Definition result_ok {E A} (r : result E A) : option A :=
  match r with Ok a => Some a | Err _ => None end.

Lemma Ok_inj {E A} (a b : A) : @Ok E A a = Ok b -> a = b.
Proof. congruence. Qed.

(** ** Fixed-width integers

    An unsigned [w]-bit integer is a [Z]; arithmetic that the source leaves
    unchecked wraps, as it does in the release profile. *)

Definition wrap (w z : Z) : Z := z mod 2 ^ w.
Definition umax (w : Z) : Z := 2 ^ w - 1.
Definition in_u (w z : Z) : Prop := 0 <= z < 2 ^ w.

Abbreviation u8_max := (umax 8).
Abbreviation u32_max := (umax 32).
Abbreviation u64_max := (umax 64).
Abbreviation wrap8 := (wrap 8).
Abbreviation wrap32 := (wrap 32).
Abbreviation wrap64 := (wrap 64).

Definition sat_add (w a b : Z) : Z := Z.min (a + b) (umax w).
Definition sat_mul (w a b : Z) : Z := Z.min (a * b) (umax w).
Definition sat_sub (a b : Z) : Z := Z.max 0 (a - b).
Definition checked_add (w a b : Z) : option Z :=
  if a + b <? 2 ^ w then Some (a + b) else None.
Definition checked_mul (w a b : Z) : option Z :=
  if a * b <? 2 ^ w then Some (a * b) else None.

Lemma wrap_small w z : in_u w z -> wrap w z = z.
Proof. intros H. apply Z.mod_small. exact H. Qed.

Lemma wrap_in_u w z : 0 <= w -> in_u w (wrap w z).
Proof. intros Hw. apply Z.mod_pos_bound. apply Z.pow_pos_nonneg; lia. Qed.

Lemma sat_add_in_u w a b : 0 <= w -> 0 <= a -> 0 <= b -> in_u w (sat_add w a b).
Proof.
  intros Hw Ha Hb. unfold in_u, sat_add, umax.
  assert (0 < 2 ^ w) by (apply Z.pow_pos_nonneg; lia). lia.
Qed.

#[global] Arguments wrap : simpl never.
#[global] Arguments in_u : simpl never.
#[global] Arguments umax : simpl never.

(** ** Bytes *)

Definition byte_of_Z (z : Z) : byte :=
  match Byte.of_N (Z.to_N (z mod 256)) with Some b => b | None => x00 end.
Definition Z_of_byte (b : byte) : Z := Z.of_N (Byte.to_N b).

Lemma Z_of_byte_range b : 0 <= Z_of_byte b < 256.
Proof.
  unfold Z_of_byte. pose proof (Byte.to_N_bounded b). lia.
Qed.

Lemma Z_of_byte_of_Z z : Z_of_byte (byte_of_Z z) = z mod 256.
Proof.
  unfold Z_of_byte, byte_of_Z.
  pose proof (Z.mod_pos_bound z 256 ltac:(lia)) as Hb.
  destruct (Byte.of_N (Z.to_N (z mod 256))) as [b|] eqn:E.
  - apply Byte.to_of_N in E. rewrite E. lia.
  - apply Byte.of_N_None_iff in E. lia.
Qed.

Lemma byte_of_Z_of_byte b : byte_of_Z (Z_of_byte b) = b.
Proof.
  unfold byte_of_Z, Z_of_byte.
  pose proof (Byte.to_N_bounded b) as Hb.
  rewrite Z.mod_small by lia. rewrite N2Z.id, Byte.of_to_N. reflexivity.
Qed.

Lemma Z_of_byte_inj b1 b2 : Z_of_byte b1 = Z_of_byte b2 -> b1 = b2.
Proof. intros H. rewrite <- (byte_of_Z_of_byte b1), H. apply byte_of_Z_of_byte. Qed.

#[export] Instance byte_eq_decision : EqDecision byte := Byte.byte_eq_dec.
#[export] Instance byte_countable : Countable byte :=
  inj_countable Byte.to_N Byte.of_N Byte.of_to_N.

(** ** Half-open slices of a list, indexed by [Z]: Rust's [&l[from..to]]. *)

Section Slice.
Context {A : Type}.
Implicit Types l : list A.

Definition slice (from to : Z) (l : list A) : list A :=
  take (Z.to_nat (to - from)) (drop (Z.to_nat from) l).

Lemma length_slice from to l :
  0 <= from -> from <= to -> to <= Z.of_nat (length l) ->
  Z.of_nat (length (slice from to l)) = to - from.
Proof. intros. unfold slice. rewrite length_take, length_drop. lia. Qed.

Lemma slice_empty from l : slice from from l = [].
Proof. unfold slice. by rewrite Z.sub_diag. Qed.

Lemma slice_all l : slice 0 (Z.of_nat (length l)) l = l.
Proof. unfold slice. rewrite drop_0, take_ge; [done|lia]. Qed.

Lemma slice_slice a b from to l :
  0 <= a -> 0 <= from -> to <= b - a ->
  slice from to (slice a b l) = slice (a + from) (a + to) l.
Proof.
  intros Ha Hf Ht. unfold slice.
  rewrite skipn_firstn_comm, firstn_firstn, drop_drop. f_equal; [lia|]. f_equal; lia.
Qed.

Lemma slice_app_split a b c l :
  0 <= a -> a <= b -> b <= c ->
  slice a c l = slice a b l ++ slice b c l.
Proof.
  intros Ha Hab Hbc. unfold slice.
  replace (Z.to_nat (c - a)) with (Z.to_nat (b - a) + Z.to_nat (c - b))%nat by lia.
  replace (Z.to_nat b) with (Z.to_nat a + Z.to_nat (b - a))%nat by lia.
  rewrite <- drop_drop. by rewrite take_take_drop.
Qed.
End Slice.

(** ** Automation shared by the development *)

Create HintDb cachic.
Create Rewrite HintDb cachic.
#[export] Hint Resolve Z_of_byte_range wrap_in_u sat_add_in_u : cachic.
#[export] Hint Rewrite @length_app @length_take @length_drop @length_map : cachic.

(** Case on every boolean comparison of integers in the goal or a hypothesis. *)
Ltac case_bool :=
  repeat match goal with
  | |- context [Z.eqb ?a ?b] => destruct (Z.eqb_spec a b)
  | |- context [Z.ltb ?a ?b] => destruct (Z.ltb_spec a b)
  | |- context [Z.leb ?a ?b] => destruct (Z.leb_spec a b)
  | H : context [Z.eqb ?a ?b] |- _ => destruct (Z.eqb_spec a b)
  | H : context [Z.ltb ?a ?b] |- _ => destruct (Z.ltb_spec a b)
  | H : context [Z.leb ?a ?b] |- _ => destruct (Z.leb_spec a b)
  end.

(** Unfold the fixed-width vocabulary and decide with [lia]. *)
Ltac width := unfold sat_sub, sat_add, sat_mul, in_u, umax, wrap in *; lia.

(** Prove a closed decidable proposition by computing its decision. *)
Ltac decide_true :=
  match goal with |- ?P => apply (bool_decide_eq_true_1 P); vm_compute; reflexivity end.
