(* ===== verification/RustStr.v ===== *)
(** * The parts of Rust's [str] and [u64] that the sources use

    A Rust string is modelled by its UTF-8 bytes: [str] is [list byte], and
    [utf8_valid] is the invariant every Rust [str] satisfies.  The functions
    below are the standard-library methods the sources call ([trim],
    [strip_prefix], [split_once], [rsplit_once], [split], [parse],
    [to_string], [to_ascii_lowercase], [from_utf8], ...), with the lemmas
    the component files share. *)

From S2P Require Import Prelude.

Open Scope Z_scope.

Abbreviation str := (list byte).
Abbreviation bytes := (list byte).

(** A string literal of the source. *)
Definition lit (s : string) : str := list_byte_of_string s.
Arguments lit s%_string.

(** The number of bytes: [str::len]. *)
Definition len {A} (l : list A) : Z := Z.of_nat (length l).

Lemma len_app {A} (a b : list A) : len (a ++ b) = len a + len b.
Proof. unfold len. rewrite length_app. lia. Qed.
Lemma len_cons {A} (x : A) l : len (x :: l) = len l + 1.
Proof. unfold len. simpl. lia. Qed.
Lemma len_nonneg {A} (l : list A) : 0 <= len l.
Proof. unfold len. lia. Qed.
#[export] Hint Rewrite @len_app : cachic.

(** The number of elements that satisfy [P]. *)
Definition count {A} (P : A -> bool) (l : list A) : Z := len (filter (fun x => P x = true) l).

Lemma count_app {A} (P : A -> bool) a b : count P (a ++ b) = count P a + count P b.
Proof. unfold count. by rewrite filter_app, len_app. Qed.
Lemma count_cons {A} (P : A -> bool) x l : count P (x :: l) = (if P x then 1 else 0) + count P l.
Proof.
  unfold count. rewrite filter_cons. destruct (P x) eqn:E.
  - rewrite decide_True by done. unfold len. cbn [length]. lia.
  - by rewrite decide_False by congruence.
Qed.
Lemma count_nonneg {A} (P : A -> bool) l : 0 <= count P l.
Proof. apply len_nonneg. Qed.
Lemma count_le {A} (P : A -> bool) l : count P l <= len l.
Proof. unfold count, len. pose proof (length_filter (fun x => P x = true) l). lia. Qed.
Lemma count_delete {A} (P : A -> bool) i x l :
  l !! i = Some x -> count P (delete i l) = count P l - (if P x then 1 else 0).
Proof.
  intros Hx. rewrite delete_take_drop. rewrite <- (take_drop_middle l i x Hx) at 3.
  rewrite !count_app, count_cons. lia.
Qed.
Lemma count_insert {A} (P : A -> bool) i x y l :
  l !! i = Some x -> count P (<[i := y]> l) = count P l - (if P x then 1 else 0) + (if P y then 1 else 0).
Proof.
  intros Hx. rewrite insert_take_drop by (by eapply lookup_lt_Some).
  rewrite <- (take_drop_middle l i x Hx) at 3. rewrite !count_app, !count_cons. lia.
Qed.
#[export] Hint Resolve len_nonneg : cachic.

(** ** Character classes *)

Definition byte_le (a b : byte) : bool := Z_of_byte a <=? Z_of_byte b.
Definition is_ascii_digit (b : byte) : bool := byte_le x30 b && byte_le b x39.
Definition is_ascii_upper (b : byte) : bool := byte_le x41 b && byte_le b x5a.
Definition is_ascii (b : byte) : bool := byte_le b x7f.
(** The visible ASCII characters, 0x21 to 0x7e. *)
Definition is_visible (b : byte) : bool := byte_le x21 b && byte_le b x7e.

Definition lower_byte (b : byte) : byte :=
  if is_ascii_upper b then byte_of_Z (Z_of_byte b + 32) else b.
Definition to_ascii_lowercase (s : str) : str := map lower_byte s.
Definition eq_ignore_ascii_case (a b : str) : bool :=
  bool_decide (to_ascii_lowercase a = to_ascii_lowercase b).

(** ** UTF-8

    [String::from_utf8] accepts exactly the well-formed sequences of RFC 3629:
    no overlong forms, no surrogates, nothing above U+10FFFF. *)

Definition byte_in (lo hi : Z) (b : byte) : bool :=
  (lo <=? Z_of_byte b) && (Z_of_byte b <=? hi).
Definition cont (b : byte) : bool := byte_in 128 191 b.

Fixpoint utf8_valid (s : str) : bool :=
  match s with
  | [] => true
  | a :: s1 =>
    if byte_in 0 127 a then utf8_valid s1 else
    match s1 with
    | [] => false
    | b :: s2 =>
      if byte_in 194 223 a && cont b then utf8_valid s2 else
      match s2 with
      | [] => false
      | c :: s3 =>
        if cont c &&
           ((byte_in 224 224 a && byte_in 160 191 b) ||
            (byte_in 225 236 a && cont b) ||
            (byte_in 237 237 a && byte_in 128 159 b) ||
            (byte_in 238 239 a && cont b))
        then utf8_valid s3 else
        match s3 with
        | [] => false
        | d :: s4 =>
          if cont c && cont d &&
             ((byte_in 240 240 a && byte_in 144 191 b) ||
              (byte_in 241 243 a && cont b) ||
              (byte_in 244 244 a && byte_in 128 143 b))
          then utf8_valid s4 else false
        end
      end
    end
  end.

Definition from_utf8 (b : bytes) : option str :=
  if utf8_valid b then Some b else None.

(** ** Searching and splitting *)

Fixpoint strip_prefix (p s : str) : option str :=
  match p, s with
  | [], _ => Some s
  | a :: p', b :: s' => if bool_decide (a = b) then strip_prefix p' s' else None
  | _ :: _, [] => None
  end.

Definition starts_with (p s : str) : bool :=
  match strip_prefix p s with Some _ => true | None => false end.

Definition strip_suffix (p s : str) : option str :=
  option_map (@reverse byte) (strip_prefix (reverse p) (reverse s)).

Definition ends_with (p s : str) : bool := starts_with (reverse p) (reverse s).

Definition contains_byte (c : byte) (s : str) : bool := bool_decide (c ∈ s).

(** [split_once] at the first occurrence of an ASCII character. *)
Fixpoint split_once (c : byte) (s : str) : option (str * str) :=
  match s with
  | [] => None
  | b :: s' =>
    if bool_decide (b = c) then Some ([], s')
    else match split_once c s' with
         | Some (l, r) => Some (b :: l, r)
         | None => None
         end
  end.

(** [rsplit_once]: at the last occurrence. *)
Definition rsplit_once (c : byte) (s : str) : option (str * str) :=
  match split_once c (reverse s) with
  | Some (r, l) => Some (reverse l, reverse r)
  | None => None
  end.

(** [split]: the pieces between the occurrences of an ASCII character. *)
Fixpoint split_on (c : byte) (s : str) : list str :=
  match s with
  | [] => [[]]
  | b :: s' =>
    if bool_decide (b = c) then [] :: split_on c s'
    else match split_on c s' with
         | p :: ps => (b :: p) :: ps
         | [] => [[b]]
         end
  end.

(** ** [trim]: both ends are stripped of Unicode [White_Space] characters,
    given by their encodings. *)

Definition white_space : list str :=
  [ [x09]; [x0a]; [x0b]; [x0c]; [x0d]; [x20]; [xc2; x85]; [xc2; xa0];
    [xe1; x9a; x80]; [xe2; x80; x80]; [xe2; x80; x81]; [xe2; x80; x82];
    [xe2; x80; x83]; [xe2; x80; x84]; [xe2; x80; x85]; [xe2; x80; x86];
    [xe2; x80; x87]; [xe2; x80; x88]; [xe2; x80; x89]; [xe2; x80; x8a];
    [xe2; x80; xa8]; [xe2; x80; xa9]; [xe2; x80; xaf]; [xe2; x81; x9f];
    [xe3; x80; x80] ].

Fixpoint strip_any (ps : list str) (s : str) : option str :=
  match ps with
  | [] => None
  | p :: ps' => match strip_prefix p s with Some r => Some r | None => strip_any ps' s end
  end.

Fixpoint strip_all (fuel : nat) (ps : list str) (s : str) : str :=
  match fuel with
  | O => s
  | S n => match strip_any ps s with Some r => strip_all n ps r | None => s end
  end.

Definition trim_start (s : str) : str := strip_all (length s) white_space s.
Definition trim_end (s : str) : str :=
  reverse (strip_all (length s) (map (@reverse byte) white_space) (reverse s)).
Definition trim (s : str) : str := trim_end (trim_start s).

(** [split_whitespace]: the non-empty pieces between white space. *)
Fixpoint words (fuel : nat) (current s : str) : list str :=
  let piece := match current with [] => [] | _ => [reverse current] end in
  match fuel with
  | O => piece
  | S n =>
    match s with
    | [] => piece
    | b :: s' =>
      match strip_any white_space s with
      | Some r => piece ++ words n [] r
      | None => words n (b :: current) s'
      end
    end
  end.
Definition split_whitespace (s : str) : list str := words (length s) [] s.

(** [lines]: a carriage return is dropped only before a line feed, and the
    piece after the last line feed only counts if it is not empty. *)
Definition chomp (s : str) : str :=
  match strip_suffix [x0d] s with Some r => r | None => s end.
Fixpoint chomp_lines (ps : list str) : list str :=
  match ps with
  | [] => []
  | [p] => match p with [] => [] | _ => [p] end
  | p :: ps' => chomp p :: chomp_lines ps'
  end.
Definition lines (s : str) : list str := chomp_lines (split_on x0a s).

(** [trim_end_matches] for one ASCII character. *)
Fixpoint drop_leading (c : byte) (s : str) : str :=
  match s with
  | b :: s' => if bool_decide (b = c) then drop_leading c s' else s
  | [] => []
  end.
Definition trim_end_matches (c : byte) (s : str) : str :=
  reverse (drop_leading c (reverse s)).

(** ** Decimal numbers *)

Definition digit (b : byte) : option Z :=
  if is_ascii_digit b then Some (Z_of_byte b - 48) else None.

(** The digit loop of [u64::from_str], with its checked multiplication and
    addition. *)
Fixpoint parse_digits (acc : Z) (s : str) : option Z :=
  match s with
  | [] => Some acc
  | b :: s' =>
    d ← digit b;
    m ← checked_mul 64 acc 10;
    a ← checked_add 64 m d;
    parse_digits a s'
  end.

(** [str::parse::<u64>]: an optional leading [+], then at least one digit. *)
Definition parse_u64 (s : str) : option Z :=
  match s with
  | [] => None
  | b :: s' =>
    if bool_decide (b = x2b) then
      match s' with [] => None | _ => parse_digits 0 s' end
    else parse_digits 0 s
  end.

(** [u64::to_string]. *)
Fixpoint dec_digits (fuel : nat) (n : Z) (acc : str) : str :=
  match fuel with
  | O => acc
  | S k =>
    let acc' := byte_of_Z (48 + n mod 10) :: acc in
    if n <? 10 then acc' else dec_digits k (n / 10) acc'
  end.
Definition to_dec (n : Z) : str := dec_digits (S (Z.to_nat (Z.log2 n))) n [].

#[global] Arguments parse_u64 : simpl never.
#[global] Arguments to_dec : simpl never.
#[global] Arguments trim : simpl never.
#[global] Arguments lit : simpl never.

(** ** Lemmas on splitting *)

Lemma strip_prefix_Some p s r : strip_prefix p s = Some r <-> s = p ++ r.
Proof.
  revert s. induction p as [|a p IH]; intros s; simpl.
  - split; congruence.
  - destruct s as [|b s]; [split; discriminate|].
    case_bool_decide as E.
    + subst. rewrite IH. split; congruence.
    + split; [discriminate|]. congruence.
Qed.

Lemma strip_prefix_app p r : strip_prefix p (p ++ r) = Some r.
Proof. by apply strip_prefix_Some. Qed.

Lemma starts_with_spec p s : starts_with p s = true <-> exists r, s = p ++ r.
Proof.
  unfold starts_with. destruct (strip_prefix p s) eqn:E.
  - apply strip_prefix_Some in E. naive_solver.
  - split; [done|]. intros [r ->]. by rewrite strip_prefix_app in E.
Qed.

Lemma split_once_Some c s l r :
  split_once c s = Some (l, r) <-> s = l ++ c :: r /\ c ∉ l.
Proof.
  revert l r. induction s as [|b s IH]; intros l r; simpl.
  - split; [done|]. intros [H _]. by destruct l.
  - case_bool_decide as E.
    + subst. split.
      * intros [= <- <-]. split; [done|]. set_solver.
      * intros [H Hc]. destruct l as [|b' l]; simplify_eq/=; [done|].
        by apply not_elem_of_cons in Hc as [? _].
    + destruct (split_once c s) as [[l' r']|] eqn:F.
      * destruct (IH l' r') as [[-> Hn] _]; [done|]. split.
        -- intros [= <- <-]. split; [done|]. rewrite not_elem_of_cons. auto.
        -- intros [H Hc]. destruct l as [|b' l]; simplify_eq/=.
           destruct (IH l r) as [_ G]. assert (c ∉ l).
           { by apply not_elem_of_cons in Hc as [_ ?]. }
           assert (Some (l', r') = Some (l, r)) by auto. congruence.
           
      * split; [done|]. intros [H Hc]. destruct l as [|b' l]; simplify_eq/=.
        destruct (IH l r) as [_ G]. assert (c ∉ l).
        { by apply not_elem_of_cons in Hc as [_ ?]. }
        assert (None = Some (l, r)) by auto. done.
Qed.

Lemma split_once_None c s : split_once c s = None <-> c ∉ s.
Proof.
  destruct (split_once c s) as [[l r]|] eqn:E.
  - apply split_once_Some in E as [-> _]. split; [done|]. set_solver.
  - split; [|done]. intros _ H. apply list_elem_of_split in H as (l & r & ->).
    revert E. induction l as [|b l IH]; simpl.
    + by rewrite bool_decide_eq_true_2.
    + case_bool_decide; [done|]. destruct (split_once c (l ++ c :: r)) as [[]|]; [done|auto].
Qed.

Lemma rsplit_once_Some c s l r :
  rsplit_once c s = Some (l, r) <-> s = l ++ c :: r /\ c ∉ r.
Proof.
  unfold rsplit_once. destruct (split_once c (reverse s)) as [[r' l']|] eqn:E.
  - apply split_once_Some in E as [E Hn].
    apply (f_equal reverse) in E. rewrite reverse_involutive, reverse_app, reverse_cons in E.
    rewrite <- app_assoc in E. simpl in E. subst s. split.
    + intros [= <- <-]. split; [done|]. by rewrite elem_of_reverse.
    + intros [E H]. apply (f_equal reverse) in E.
      rewrite !reverse_app, !reverse_cons, !reverse_involutive, <- !app_assoc in E.
      assert (split_once c (r' ++ c :: l') = Some (r', l')) as S1
        by (by apply split_once_Some).
      assert (split_once c (r' ++ [c] ++ l') = Some (reverse r, reverse l)) as S2.
      { apply split_once_Some. rewrite E. split; [done|]. by rewrite elem_of_reverse. }
      simpl in S2. rewrite S1 in S2. simplify_eq. by rewrite !reverse_involutive.
  - apply split_once_None in E. rewrite elem_of_reverse in E. split; [done|].
    intros [-> _]. set_solver.
Qed.

(** ** Lemmas on decimal numbers *)

Definition dec_val (acc : Z) (s : str) : Z :=
  foldl (fun a b => a * 10 + (Z_of_byte b - 48)) acc s.

Definition all_digits (s : str) : Prop := Forall (fun b => is_ascii_digit b = true) s.

Lemma is_ascii_digit_range b : is_ascii_digit b = true <-> 48 <= Z_of_byte b <= 57.
Proof.
  unfold is_ascii_digit, byte_le.
  change (Z_of_byte x30) with 48. change (Z_of_byte x39) with 57. lia.
Qed.

Lemma dec_val_mono acc s : all_digits s -> 0 <= acc -> acc <= dec_val acc s.
Proof.
  intros H. revert acc. induction H as [|b s Hb _ IH]; intros acc Ha; simpl; [lia|].
  apply is_ascii_digit_range in Hb. etrans; [|apply IH]; lia.
Qed.

Lemma parse_digits_val acc s :
  all_digits s -> 0 <= acc -> dec_val acc s < 2 ^ 64 ->
  parse_digits acc s = Some (dec_val acc s).
Proof.
  intros H. revert acc. induction H as [|b s Hb Hs IH]; intros acc Ha Hlt; [done|].
  simpl in *. unfold digit. rewrite Hb. apply is_ascii_digit_range in Hb.
  pose proof (dec_val_mono (acc * 10 + (Z_of_byte b - 48)) s Hs ltac:(lia)).
  unfold checked_mul, checked_add. simpl.
  destruct (Z.ltb_spec (acc * 10) (2 ^ 64)); simpl; [|lia].
  destruct (Z.ltb_spec (acc * 10 + (Z_of_byte b - 48)) (2 ^ 64)); simpl; [|lia].
  apply IH; lia.
Qed.

(** A successful parse is the value of the digits, within the width. *)
Lemma parse_digits_Some acc s v :
  parse_digits acc s = Some v -> 0 <= acc < 2 ^ 64 ->
  all_digits s /\ v = dec_val acc s /\ 0 <= v < 2 ^ 64.
Proof.
  revert acc. induction s as [|b s IH]; intros acc H Ha; simpl in *.
  - simplify_eq. repeat split; try lia. constructor.
  - unfold digit in H. destruct (is_ascii_digit b) eqn:Hb; [|done]. simpl in H.
    pose proof Hb as Hr. apply is_ascii_digit_range in Hr.
    unfold checked_mul, checked_add in H.
    destruct (Z.ltb_spec (acc * 10) (2 ^ 64)); simpl in H; [|done].
    destruct (Z.ltb_spec (acc * 10 + (Z_of_byte b - 48)) (2 ^ 64)); simpl in H; [|done].
    apply IH in H as (Hs & -> & Hv); [|lia].
    repeat split; try lia. by constructor.
Qed.

Lemma digit_byte_range n :
  Z_of_byte (byte_of_Z (48 + n mod 10)) = 48 + n mod 10.
Proof.
  rewrite Z_of_byte_of_Z. apply Z.mod_small.
  pose proof (Z.mod_pos_bound n 10 ltac:(lia)). lia.
Qed.

Lemma digit_byte_ok n : is_ascii_digit (byte_of_Z (48 + n mod 10)) = true.
Proof.
  apply is_ascii_digit_range. rewrite digit_byte_range.
  pose proof (Z.mod_pos_bound n 10 ltac:(lia)). lia.
Qed.

Lemma dec_digits_spec fuel n acc :
  (0 < fuel)%nat -> 0 <= n < 10 ^ Z.of_nat fuel ->
  exists ds, dec_digits fuel n acc = ds ++ acc /\ ds <> [] /\
    all_digits ds /\ dec_val 0 ds = n.
Proof.
  revert n acc. induction fuel as [|k IH]; intros n acc Hf Hn; [lia|].
  cbn [dec_digits]. destruct (Z.ltb_spec n 10).
  - exists [byte_of_Z (48 + n mod 10)]. repeat split; try done.
    + constructor; [apply digit_byte_ok|constructor].
    + cbn. rewrite digit_byte_range. rewrite Z.mod_small; lia.
  - rewrite Nat2Z.inj_succ, Z.pow_succ_r in Hn by lia.
    destruct (IH (n / 10) (byte_of_Z (48 + n mod 10) :: acc)) as (ds & E & Hne & Hd & Hv).
    + destruct k; [simpl in Hn; lia|lia].
    + split; [apply Z.div_pos; lia|]. apply Z.div_lt_upper_bound; lia.
    + exists (ds ++ [byte_of_Z (48 + n mod 10)]). rewrite E, <- app_assoc.
      split; [done|]. split; [by destruct ds|]. split.
      * apply Forall_app. split; [done|]. constructor; [apply digit_byte_ok|constructor].
      * unfold dec_val in *. rewrite foldl_app, Hv. cbn. rewrite digit_byte_range.
        pose proof (Z.div_mod n 10 ltac:(lia)). lia.
Qed.

Lemma to_dec_spec n :
  0 <= n -> to_dec n <> [] /\ all_digits (to_dec n) /\ dec_val 0 (to_dec n) = n.
Proof.
  intros Hn. unfold to_dec.
  destruct (dec_digits_spec (S (Z.to_nat (Z.log2 n))) n []) as (ds & -> & H); [lia| |].
  - split; [done|]. rewrite Nat2Z.inj_succ, Z2Nat.id by apply Z.log2_nonneg.
    destruct (Z.eq_dec n 0) as [->|]; [done|].
    pose proof (Z.log2_spec n ltac:(lia)) as [_ L].
    eapply Z.lt_le_trans; [exact L|]. apply Z.pow_le_mono_l. lia.
  - by rewrite app_nil_r.
Qed.

Lemma parse_u64_digits s :
  s <> [] -> all_digits s -> parse_u64 s = parse_digits 0 s.
Proof.
  intros Hs Hd. destruct s as [|b s]; [done|]. unfold parse_u64.
  inversion_clear Hd. apply is_ascii_digit_range in H.
  rewrite bool_decide_eq_false_2; [done|]. intros ->. vm_compute in H. intuition.
Qed.

Lemma parse_u64_to_dec n : in_u 64 n -> parse_u64 (to_dec n) = Some n.
Proof.
  intros [H0 H1]. destruct (to_dec_spec n H0) as (Hne & Hd & Hv).
  rewrite parse_u64_digits by done. rewrite parse_digits_val; [by rewrite Hv|done|lia|lia].
Qed.

Lemma parse_u64_range s n : parse_u64 s = Some n -> in_u 64 n.
Proof.
  unfold parse_u64, in_u. intros H. destruct s as [|b s]; [done|].
  case_bool_decide; [destruct s; [done|]|]; apply parse_digits_Some in H; lia.
Qed.

(** ** Lemmas on [trim] *)

Definition visible_ends (s : str) : Prop :=
  s <> [] -> (forall b, head s = Some b -> is_visible b = true) /\
             (forall b, last s = Some b -> is_visible b = true).

Lemma strip_any_visible ps b s :
  Forall (fun p => exists c r, p = c :: r /\ is_visible c = false) ps ->
  is_visible b = true -> strip_any ps (b :: s) = None.
Proof.
  intros H Hb. induction H as [|p ps (c & r & -> & Hc) _ IH]; simpl; [done|].
  rewrite bool_decide_eq_false_2; [done|]. congruence.
Qed.

Lemma white_space_invisible :
  Forall (fun p => exists c r, p = c :: r /\ is_visible c = false) white_space.
Proof. repeat constructor; eexists _, _; split; reflexivity. Qed.

Lemma white_space_rev_invisible :
  Forall (fun p => exists c r, p = c :: r /\ is_visible c = false)
    (map (@reverse byte) white_space).
Proof. repeat constructor; eexists _, _; split; reflexivity. Qed.

Lemma strip_all_stuck fuel ps s : strip_any ps s = None -> strip_all fuel ps s = s.
Proof. intros H. destruct fuel; simpl; [done|]. by rewrite H. Qed.

Lemma trim_visible s : visible_ends s -> trim s = s.
Proof.
  intros H. destruct (decide (s = [])) as [->|Hne]; [done|].
  destruct (H Hne) as [Hh Hl]. unfold trim, trim_start.
  assert (strip_any white_space s = None) as E.
  { destruct s as [|b s']; [done|]. apply strip_any_visible; [apply white_space_invisible|auto]. }
  rewrite (strip_all_stuck _ _ _ E). unfold trim_end.
  rewrite strip_all_stuck; [by rewrite reverse_involutive|].
  destruct (reverse s) as [|b s'] eqn:Er.
  - apply (f_equal reverse) in Er. rewrite reverse_involutive in Er. done.
  - apply strip_any_visible; [apply white_space_rev_invisible|]. apply Hl.
    apply (f_equal reverse) in Er. rewrite reverse_involutive, reverse_cons in Er.
    rewrite Er. apply last_snoc.
Qed.

Lemma all_digits_visible s : all_digits s -> Forall (fun b => is_visible b = true) s.
Proof.
  intros H. eapply Forall_impl; [exact H|]. intros b Hb%is_ascii_digit_range. unfold is_visible, byte_le.
  change (Z_of_byte x21) with 33. change (Z_of_byte x7e) with 126. lia.
Qed.

Lemma visible_visible_ends s : Forall (fun b => is_visible b = true) s -> visible_ends s.
Proof.
  intros H _. rewrite Forall_forall in H. split; intros b Hb; apply H.
  - by apply head_Some_elem_of.
  - by apply last_Some_elem_of.
Qed.
#[export] Hint Resolve parse_u64_range visible_visible_ends all_digits_visible : cachic.

Lemma split_on_none c s : ~ (c ∈ s) -> split_on c s = [s].
Proof.
  induction s as [|b s IH]; [done|]. cbn [split_on]. intros H.
  rewrite not_elem_of_cons in H. destruct H as [Hb Hs].
  rewrite bool_decide_eq_false_2 by congruence. by rewrite IH.
Qed.

Lemma split_on_cut c a b : ~ (c ∈ a) -> split_on c (a ++ c :: b) = a :: split_on c b.
Proof.
  intros Ha. induction a as [|x a IH]; cbn [app split_on].
  - by rewrite bool_decide_true.
  - apply not_elem_of_cons in Ha as [Hx Ha]. rewrite bool_decide_false by congruence.
    by rewrite IH.
Qed.

(** A decidable fact about bytes holds if it holds of each of the 256. *)
Definition all_bytes : list byte := omap Byte.of_nat (seq 0 256).

Lemma byte_forall (P : byte -> bool) : forallb P all_bytes = true -> forall b, P b = true.
Proof.
  intros H b. rewrite forallb_forall in H. apply H, list_elem_of_In, list_elem_of_omap.
  exists (Byte.to_nat b). split; [|apply Byte.of_to_nat].
  apply elem_of_seq. pose proof (Byte.to_nat_bounded b). lia.
Qed.
