(* ===== verification/Range.v ===== *)
(** * Range parsing and slice-plan arithmetic

    Models [crates/cachic/src/proxy/range.rs] in full, the [plan] of the M0
    spike ([crates/cachic/src/spike/range.rs]) it replaced, and
    [payload_window] of the orchestrator, which cuts the window out of a
    stored payload.  The theorems show that a parsed range means what the
    header says, and that the windows of a plan tile the requested range. *)

From S2P Require Import Prelude.
From S2P Require Import RustStr.

Open Scope Z_scope.

(** ** Data *)

(** A client's [Range] request, before it is resolved. *)
Inductive RangeSpec :=
  | FromTo (start end_ : Z)
  | From (start : Z)
  | Suffix (n : Z).

(** An inclusive byte range of a known object. *)
Record ByteRange := mkByteRange { br_start : Z; br_end : Z }.

Inductive RangeError := Malformed | Multiple | Unsatisfiable.

Record SlicePlan := mkSlicePlan { sp_first : Z; sp_last : Z; sp_slice_size : Z }.

#[export] Instance RangeSpec_eq_dec : EqDecision RangeSpec.
Proof. solve_decision. Defined.
#[export] Instance ByteRange_eq_dec : EqDecision ByteRange.
Proof. solve_decision. Defined.
#[export] Instance RangeError_eq_dec : EqDecision RangeError.
Proof. solve_decision. Defined.

(** ** Operations *)

Definition byte_range_len (r : ByteRange) : Z :=
  wrap64 (wrap64 (br_end r - br_start r) + 1).

Definition parse_range (value : str) : result RangeError RangeSpec :=
  spec ← ok_or (strip_prefix (lit "bytes=") (trim value)) Malformed;
  if contains_byte x2c spec then Err Multiple else
  '(start, end_) ← ok_or (split_once x2d spec) Malformed;
  match trim start, trim end_ with
  | [], [] => Err Malformed
  | [], suffix =>
      n ← ok_or (parse_u64 suffix) Malformed;
      Ok (Suffix n)
  | s, [] =>
      start ← ok_or (parse_u64 s) Malformed;
      Ok (From start)
  | s, e =>
      start ← ok_or (parse_u64 s) Malformed;
      end_ ← ok_or (parse_u64 e) Malformed;
      if end_ <? start then Err Malformed else Ok (FromTo start end_)
  end.

Definition resolve (spec : RangeSpec) (total : Z) : result RangeError ByteRange :=
  if total =? 0 then Err Unsatisfiable else
  let last := total - 1 in
  match spec with
  | FromTo start end_ =>
      if last <? start then Err Unsatisfiable
      else Ok (mkByteRange start (Z.min end_ last))
  | From start =>
      if last <? start then Err Unsatisfiable
      else Ok (mkByteRange start last)
  | Suffix n =>
      if n =? 0 then Err Unsatisfiable
      else Ok (mkByteRange (total - Z.min n total) last)
  end.

Definition whole (total : Z) : option ByteRange :=
  if 0 <? total then Some (mkByteRange 0 (total - 1)) else None.

Definition plan_count (p : SlicePlan) : Z :=
  wrap32 (wrap32 (sp_last p - sp_first p) + 1).

(** [first..=last]. *)
Definition plan_indices (p : SlicePlan) : list Z :=
  seqZ (sp_first p) (sp_last p - sp_first p + 1).

Definition max_addressable_len (slice_size : Z) : Z :=
  wrap64 (wrap64 (u32_max + 1) * slice_size).

Definition to_index (s byte : Z) : Z := Z.min (byte / s) u32_max.

Definition plan (range : ByteRange) (slice_size : Z) : SlicePlan :=
  let s := Z.max slice_size 1 in
  let first := to_index s (br_start range) in
  let last := Z.max (to_index s (br_end range)) first in
  mkSlicePlan first last slice_size.

Definition slice_extent (index slice_size total : Z) : ByteRange :=
  let start := wrap64 (index * slice_size) in
  let end_ := Z.min (wrap64 (wrap64 (start + slice_size) - 1)) (sat_sub total 1) in
  mkByteRange start end_.

Definition payload_window (index slice_size : Z) (wanted : ByteRange) : Z * Z :=
  let slice_start := wrap64 (index * slice_size) in
  let from := sat_sub (br_start wanted) slice_start in
  let to := Z.min (wrap64 (wrap64 (br_end wanted - slice_start) + 1)) slice_size in
  (from, to).

(** [orchestrator::payload_window]: cut the window out of a stored payload. *)
Definition cut_window (payload : bytes) (window : Z * Z) : option bytes :=
  let (from, to) := window in
  if (to <? from) || (len payload <? to) then None else Some (slice from to payload).

(** The [plan] of the spike, whose casts truncate. *)
Definition spike_plan (range : ByteRange) (slice_size : Z) : SlicePlan :=
  mkSlicePlan (wrap32 (br_start range / slice_size)) (wrap32 (br_end range / slice_size))
    slice_size.

(** The header a range is requested with. *)
Definition range_header (start end_ : Z) : str :=
  lit "bytes=" ++ to_dec start ++ [x2d] ++ to_dec end_.

(** ** Specification vocabulary *)

(** Byte [i] of an object of [total] bytes is asked for by [spec]. *)
Definition wants (spec : RangeSpec) (total i : Z) : Prop :=
  0 <= i < total /\
  match spec with
  | FromTo a b => a <= i <= b
  | From a => a <= i
  | Suffix n => total - n <= i
  end.

(** The specs [parse_range] produces: their numbers are [u64]. *)
Definition spec_ok (spec : RangeSpec) : Prop :=
  match spec with
  | FromTo a b => in_u 64 a /\ in_u 64 b /\ a <= b
  | From a => in_u 64 a
  | Suffix n => in_u 64 n
  end.

(** What slice [index] of [obj] holds. *)
Definition slice_payload (index slice_size : Z) (obj : bytes) : bytes :=
  let e := slice_extent index slice_size (len obj) in
  slice (br_start e) (br_end e + 1) obj.

Definition range_in (r : ByteRange) (total : Z) : Prop :=
  0 <= br_start r /\ br_start r <= br_end r /\ br_end r < total.

(** ** Parsing *)

Lemma parse_range_ok value spec : parse_range value = Ok spec -> spec_ok spec.
Proof.
  unfold parse_range. intros H.
  destruct (strip_prefix _ _) as [s|]; simpl in H; [|done].
  destruct (contains_byte _ _); [done|].
  destruct (split_once _ _) as [[a b]|]; simpl in H; [|done].
  destruct (trim a) as [|a0 a']; destruct (trim b) as [|b0 b']; [done|..].
  - destruct (parse_u64 (b0 :: b')) eqn:E; simpl in H; simplify_eq; simpl; eauto with cachic.
  - destruct (parse_u64 (a0 :: a')) eqn:E; simpl in H; simplify_eq; simpl; eauto with cachic.
  - destruct (parse_u64 (a0 :: a')) eqn:E; simpl in H; [|done].
    destruct (parse_u64 (b0 :: b')) eqn:F; simpl in H; [|done].
    destruct (Z.ltb_spec z0 z); simplify_eq; simpl; eauto with cachic.
Qed.

Lemma digits_no_byte c s :
  is_ascii_digit c = false -> all_digits s -> c ∉ s.
Proof.
  intros Hc Hs Hin. unfold all_digits in Hs. rewrite Forall_forall in Hs.
  specialize (Hs c Hin). congruence.
Qed.

Lemma header_visible a b :
  0 <= a -> 0 <= b -> Forall (fun c => is_visible c = true) (range_header a b).
Proof.
  intros Ha Hb. unfold range_header.
  destruct (to_dec_spec a Ha) as (_ & Da & _). destruct (to_dec_spec b Hb) as (_ & Db & _).
  repeat apply Forall_app_2; auto with cachic; repeat constructor.
Qed.

(** A printed range header parses back to its numbers. *)
Lemma parse_range_header_roundtrip a b :
  in_u 64 a -> in_u 64 b -> a <= b ->
  parse_range (range_header a b) = Ok (FromTo a b).
Proof.
  intros Ha Hb Hab. unfold parse_range.
  rewrite trim_visible by (apply visible_visible_ends, header_visible; apply Ha || apply Hb).
  unfold range_header. rewrite strip_prefix_app. simpl.
  destruct (to_dec_spec a (proj1 Ha)) as (Na & Da & _).
  destruct (to_dec_spec b (proj1 Hb)) as (Nb & Db & _).
  unfold contains_byte. rewrite bool_decide_eq_false_2.
  2:{ rewrite elem_of_app, elem_of_cons.
      pose proof (digits_no_byte x2c _ eq_refl Da). pose proof (digits_no_byte x2c _ eq_refl Db).
      intuition congruence. }
  assert (split_once x2d (to_dec a ++ x2d :: to_dec b) = Some (to_dec a, to_dec b)) as ->.
  { apply split_once_Some. split; [done|]. by apply digits_no_byte. }
  simpl. rewrite !trim_visible by eauto with cachic.
  destruct (to_dec a) as [|a0 a'] eqn:Ea; [done|].
  destruct (to_dec b) as [|b0 b'] eqn:Eb; [done|].
  rewrite <- Ea, <- Eb, !parse_u64_to_dec by done. simpl.
  destruct (Z.ltb_spec b a); [lia|done].
Qed.

(** ** Resolution *)

Lemma resolve_range_in spec total r :
  spec_ok spec -> 0 <= total -> resolve spec total = Ok r -> range_in r total.
Proof.
  unfold resolve, range_in, spec_ok, in_u. intros Hs Ht H.
  destruct spec; case_bool; simplify_eq; simpl in *; lia.
Qed.

Lemma resolve_wants spec total r :
  spec_ok spec -> 0 <= total -> resolve spec total = Ok r ->
  forall i, br_start r <= i <= br_end r <-> wants spec total i.
Proof.
  unfold resolve, wants, spec_ok, in_u. intros Hs Ht H i.
  destruct spec; case_bool; simplify_eq; simpl in *; lia.
Qed.

Lemma resolve_err spec total e :
  spec_ok spec -> 0 <= total -> resolve spec total = Err e ->
  e = Unsatisfiable /\ forall i, ~ wants spec total i.
Proof.
  unfold resolve, wants, spec_ok, in_u. intros Hs Ht H.
  destruct spec; case_bool; simplify_eq; (split; [done|]); intros i; lia.
Qed.

(** ** The slice plan *)

Lemma plan_ordered r s : sp_first (plan r s) <= sp_last (plan r s).
Proof. simpl. lia. Qed.

Lemma to_index_range s b : 0 < s -> 0 <= b -> 0 <= to_index s b <= u32_max.
Proof.
  intros Hs Hb. unfold to_index. pose proof (Z.div_pos b s Hb Hs). width.
Qed.

Lemma to_index_mono s a b : 0 < s -> a <= b -> to_index s a <= to_index s b.
Proof. intros Hs Hab. unfold to_index. pose proof (Z.div_le_mono a b s Hs Hab). lia. Qed.

(** An object that fits the index space needs no saturation. *)
Lemma to_index_exact s b :
  0 < s -> 0 <= b < (u32_max + 1) * s -> to_index s b = b / s.
Proof.
  intros Hs Hb. unfold to_index. apply Z.min_l.
  assert (b / s < u32_max + 1) by (apply Z.div_lt_upper_bound; lia). lia.
Qed.

Lemma max_addressable_len_exact s : in_u 32 s -> max_addressable_len s = (u32_max + 1) * s.
Proof.
  intros Hs. unfold max_addressable_len. unfold in_u in Hs.
  rewrite (wrap_small 64 (u32_max + 1)) by width. apply wrap_small. width.
Qed.

Lemma slice_extent_exact i s total :
  0 <= i < 2 ^ 32 -> 0 < s < 2 ^ 32 -> 0 < total ->
  slice_extent i s total = mkByteRange (i * s) (Z.min (i * s + s) total - 1).
Proof.
  intros Hi Hs Ht. unfold slice_extent.
  assert (0 <= i * s <= (2 ^ 32 - 1) * (2 ^ 32 - 1)) by nia.
  rewrite (wrap_small 64 (i * s)) by width.
  rewrite (wrap_small 64 (i * s + s)) by width. rewrite wrap_small by width.
  f_equal. width.
Qed.

Lemma payload_window_exact i s w :
  0 <= i < 2 ^ 32 -> 0 < s < 2 ^ 32 -> i * s <= br_end w < 2 ^ 64 - 1 ->
  payload_window i s w =
    (Z.max (br_start w) (i * s) - i * s, Z.min (br_end w + 1) (i * s + s) - i * s).
Proof.
  intros Hi Hs He. unfold payload_window.
  assert (0 <= i * s <= (2 ^ 32 - 1) * (2 ^ 32 - 1)) by nia.
  rewrite (wrap_small 64 (i * s)) by width.
  rewrite (wrap_small 64 (br_end w - i * s)) by width.
  rewrite wrap_small by width. f_equal; width.
Qed.

Section Tiling.
Context (obj : bytes) (s : Z) (w : ByteRange).
Context (Hs : 0 < s < 2 ^ 32) (Hlen : len obj < 2 ^ 64)
        (Haddr : len obj <= max_addressable_len s) (Hw : range_in w (len obj)).

(** The part of the requested range inside slice [i]. *)
Local Abbreviation lo i := (Z.max (br_start w) (i * s)).
Local Abbreviation hi i := (Z.min (br_end w + 1) (i * s + s)).

Lemma plan_exact :
  sp_first (plan w s) = br_start w / s /\ sp_last (plan w s) = br_end w / s.
Proof.
  destruct Hw as (H0 & H1 & H2).
  rewrite max_addressable_len_exact in Haddr by width.
  pose proof (Z.div_le_mono (br_start w) (br_end w) s ltac:(lia) H1).
  simpl. rewrite Z.max_l by lia. rewrite !to_index_exact by lia. lia.
Qed.

(** Every index of the plan addresses a slice that meets the range. *)
Lemma plan_index_bounds i :
  i ∈ plan_indices (plan w s) ->
  0 <= i < 2 ^ 32 /\ i * s <= br_end w /\ br_start w < i * s + s.
Proof.
  unfold plan_indices. rewrite elem_of_seqZ. destruct plan_exact as [-> ->].
  destruct Hw as (H0 & H1 & H2).
  rewrite max_addressable_len_exact in Haddr by width. intros Hi.
  pose proof (Z.div_pos (br_start w) s H0 ltac:(lia)).
  pose proof (Z.mul_div_le (br_end w) s ltac:(lia)).
  pose proof (Z.mul_succ_div_gt (br_start w) s ltac:(lia)).
  assert (br_end w / s < u32_max + 1) by (apply Z.div_lt_upper_bound; lia).
  split; [width|]. nia.
Qed.

(** The window of one slice is its part of the requested range, and it is
    never refused. *)
Lemma window_of_slice i :
  i ∈ plan_indices (plan w s) ->
  cut_window (slice_payload i s obj) (payload_window i s w)
    = Some (slice (lo i) (hi i) obj).
Proof.
  intros Hi. destruct (plan_index_bounds i Hi) as (Hi32 & Hle & Hlt).
  destruct Hw as (H0 & H1 & H2).
  rewrite payload_window_exact by lia. unfold slice_payload.
  rewrite slice_extent_exact by lia. simpl. unfold cut_window.
  assert (len (slice (i * s) (Z.min (i * s + s) (len obj) - 1 + 1) obj)
          = Z.min (i * s + s) (len obj) - i * s) as ->.
  { unfold len in *. rewrite length_slice; lia. }
  destruct (Z.ltb_spec (Z.min (br_end w + 1) (i * s + s) - i * s)
                       (Z.max (br_start w) (i * s) - i * s)); [lia|].
  destruct (Z.ltb_spec (Z.min (i * s + s) (len obj) - i * s)
                       (Z.min (br_end w + 1) (i * s + s) - i * s)); [lia|]. simpl. f_equal.
  rewrite slice_slice by lia. f_equal; lia.
Qed.

(** Consecutive parts join. *)
Lemma concat_parts (k : nat) first :
  first = br_start w / s -> first + Z.of_nat k <= br_end w / s ->
  concat (map (fun i => slice (lo i) (hi i) obj) (seqZ first (Z.of_nat (S k))))
    = slice (br_start w) (hi (first + Z.of_nat k)) obj.
Proof.
  intros -> Hk. destruct Hw as (H0 & H1 & H2).
  pose proof (Z.mul_div_le (br_start w) s ltac:(lia)).
  pose proof (Z.mul_div_le (br_end w) s ltac:(lia)).
  pose proof (Z.mul_succ_div_gt (br_start w) s ltac:(lia)).
  induction k as [|k IH].
  - rewrite (seqZ_cons _ 1) by lia. cbn [map concat Z.pred Pos.pred_double]. simpl.
    rewrite app_nil_r. f_equal; lia.
  - rewrite (Nat2Z.inj_succ (S k)), <- Z.add_1_r, seqZ_app by lia.
    rewrite map_app, concat_app, IH by lia. cbn [seqZ]. 
    replace (seqZ (br_start w / s + Z.of_nat (S k)) 1)
      with [br_start w / s + Z.of_nat (S k)] by (by rewrite seqZ_cons by lia).
    cbn [map concat]. rewrite app_nil_r.
    assert (hi (br_start w / s + Z.of_nat k) = lo (br_start w / s + Z.of_nat (S k))) as ->.
    { nia. }
    symmetry. apply slice_app_split; nia.
Qed.
End Tiling.

(** Planning, cutting and concatenating give the requested bytes. *)
Lemma tiling (obj : bytes) (s : Z) (w : ByteRange) :
  0 < s < 2 ^ 32 -> len obj < 2 ^ 64 -> len obj <= max_addressable_len s ->
  range_in w (len obj) ->
  mapM (fun i => cut_window (slice_payload i s obj) (payload_window i s w))
       (plan_indices (plan w s))
    ≫= (fun pieces => Some (concat pieces))
  = Some (slice (br_start w) (br_end w + 1) obj).
Proof.
  intros Hs Hlen Haddr Hw.
  assert (mapM (fun i => cut_window (slice_payload i s obj) (payload_window i s w))
               (plan_indices (plan w s))
          = Some (map (fun i => slice (Z.max (br_start w) (i * s))
                                      (Z.min (br_end w + 1) (i * s + s)) obj)
                      (plan_indices (plan w s)))) as ->.
  { apply mapM_Some. apply Forall2_fmap_r. apply Forall_Forall2_diag, Forall_forall.
    intros i Hi. by apply window_of_slice. }
  simpl. f_equal. unfold plan_indices. destruct (plan_exact obj s w) as [-> ->]; [done..|].
  destruct Hw as (H0 & H1 & H2).
  pose proof (Z.div_le_mono (br_start w) (br_end w) s ltac:(lia) H1).
  pose proof (Z.mul_succ_div_gt (br_end w) s ltac:(lia)).
  replace (br_end w / s - br_start w / s + 1)
    with (Z.of_nat (S (Z.to_nat (br_end w / s - br_start w / s)))) by lia.
  rewrite (concat_parts obj s w) by first [lia | by repeat split].
  f_equal. nia.
Qed.

(** C2: the pipeline reconstructs the request.  For every object that the
    slice index can address and every in-bounds range, planning the range and
    cutting each planned slice's window out of that slice's payload refuses
    no slice, and the pieces concatenate, in plan order, to exactly the
    requested bytes: no gap, no overlap. *)
Theorem windows_tile_the_range (obj : bytes) (s : Z) (w : ByteRange) :
  0 < s < 2 ^ 32 -> len obj < 2 ^ 64 -> len obj <= max_addressable_len s ->
  range_in w (len obj) ->
  mapM (fun i => cut_window (slice_payload i s obj) (payload_window i s w))
       (plan_indices (plan w s))
    ≫= (fun pieces => Some (concat pieces))
  = Some (slice (br_start w) (br_end w + 1) obj).
Proof. apply tiling. Qed.

Lemma windows_tile_the_range_witness :
  mapM (fun i => cut_window (slice_payload i 4 (lit "abcdefghij"))
                            (payload_window i 4 (mkByteRange 3 8)))
       (plan_indices (plan (mkByteRange 3 8) 4))
    ≫= (fun pieces => Some (concat pieces))
  = Some (lit "defghi").
Proof.
  apply (windows_tile_the_range (lit "abcdefghij") 4 (mkByteRange 3 8));
    vm_compute; intuition discriminate.
Defined.

(** C36: a [Range] header means what it says.  Whatever header value parses,
    and whatever the object's length, resolution either yields an in-bounds
    range holding exactly the positions the header asks for, whose length does
    not wrap, or reports [Unsatisfiable] because it asks for none. *)
Theorem range_request_semantics (value : str) (spec : RangeSpec) (total : Z) :
  parse_range value = Ok spec -> in_u 64 total ->
  match resolve spec total with
  | Ok r =>
      range_in r total /\ byte_range_len r = br_end r - br_start r + 1 /\
      forall i, br_start r <= i <= br_end r <-> wants spec total i
  | Err e => e = Unsatisfiable /\ forall i, ~ wants spec total i
  end.
Proof.
  intros Hp Ht. pose proof (parse_range_ok _ _ Hp) as Hs. pose proof (proj1 Ht) as H0.
  destruct (resolve spec total) as [r|e] eqn:E; [|by eapply resolve_err].
  pose proof (resolve_range_in _ _ _ Hs H0 E) as Hr. split; [done|]. split.
  - destruct Hr as (? & ? & ?). unfold byte_range_len.
    rewrite (wrap_small 64 (br_end r - br_start r)) by width. apply wrap_small. width.
  - by eapply resolve_wants.
Qed.

Lemma range_request_semantics_witness :
  match resolve (Suffix 100) 40 with
  | Ok r =>
      range_in r 40 /\ byte_range_len r = br_end r - br_start r + 1 /\
      forall i, br_start r <= i <= br_end r <-> wants (Suffix 100) 40 i
  | Err e => e = Unsatisfiable /\ forall i, ~ wants (Suffix 100) 40 i
  end.
Proof.
  apply (range_request_semantics (lit " bytes=-100 ")); vm_compute; intuition discriminate.
Defined.

(** A [Range] header built from two numbers parses back to them. *)
Theorem range_header_roundtrip (a b : Z) :
  in_u 64 a -> in_u 64 b -> a <= b ->
  parse_range (range_header a b) = Ok (FromTo a b).
Proof. apply parse_range_header_roundtrip. Qed.

Lemma range_header_roundtrip_witness :
  range_header 0 u64_max = lit "bytes=0-18446744073709551615" /\
  parse_range (range_header 0 u64_max) = Ok (FromTo 0 u64_max).
Proof.
  split; [reflexivity|]. apply range_header_roundtrip; vm_compute; intuition discriminate.
Defined.

(** A plan is never inverted and never leaves the index width, however
    large the range; its [count] is the number of indices except for the one
    plan that spans the whole index space, where the [u32] addition wraps to
    zero. *)
Theorem plan_is_well_formed (r : ByteRange) (s : Z) :
  0 <= br_start r -> 0 <= br_end r ->
  let p := plan r s in
  0 <= sp_first p <= sp_last p /\ sp_last p <= u32_max /\
  plan_count p =
    (if (sp_first p =? 0) && (sp_last p =? u32_max) then 0 else len (plan_indices p)).
Proof.
  intros H0 H1 p.
  pose proof (to_index_range (Z.max s 1) (br_start r) ltac:(lia) H0).
  pose proof (to_index_range (Z.max s 1) (br_end r) ltac:(lia) H1).
  assert (0 <= sp_first p <= sp_last p /\ sp_last p <= u32_max) as [Hf Hl] by (simpl; lia).
  split; [done|]. split; [done|]. unfold plan_count, plan_indices, len. rewrite length_seqZ.
  clearbody p. rewrite (wrap_small 32 (sp_last p - sp_first p)) by width.
  destruct (Z.eqb_spec (sp_first p) 0), (Z.eqb_spec (sp_last p) u32_max); simpl;
    [|rewrite wrap_small by width; lia..].
  replace (sp_last p - sp_first p + 1) with (2 ^ 32) by width. reflexivity.
Qed.

Lemma plan_is_well_formed_witness :
  let p := plan (mkByteRange 888888888 888888888888888888) 1 in
  0 <= sp_first p <= sp_last p /\ sp_last p <= u32_max /\
  plan_count p =
    (if (sp_first p =? 0) && (sp_last p =? u32_max) then 0 else len (plan_indices p)).
Proof. apply plan_is_well_formed; vm_compute; discriminate. Defined.

(** The saturating plan agrees with the spike's truncating one on every
    object the index can address, and repairs it on the input fuzzing found,
    where the spike's plan was inverted. *)
Theorem plan_repairs_spike_plan :
  (forall (r : ByteRange) (s : Z),
     0 < s < 2 ^ 32 -> range_in r (max_addressable_len s) -> plan r s = spike_plan r s) /\
  (let p := spike_plan (mkByteRange 888888888 888888888888888888) 1 in
   sp_last p < sp_first p).
Proof.
  split; [|reflexivity]. intros r s Hs (H0 & H1 & H2).
  rewrite max_addressable_len_exact in H2 by width. unfold plan, spike_plan.
  pose proof (Z.div_le_mono (br_start r) (br_end r) s ltac:(lia) H1).
  pose proof (Z.div_pos (br_start r) s ltac:(lia) ltac:(lia)).
  assert (br_end r / s < u32_max + 1) by (apply Z.div_lt_upper_bound; lia).
  rewrite Z.max_l by lia. rewrite !to_index_exact by lia. rewrite Z.max_l by lia.
  rewrite !wrap_small by width. done.
Qed.
