(* ===== verification/Codec.v ===== *)
(** * Byte readers and fixed-width encodings

    The vocabulary the on-disk and wire formats share: little- and big-endian
    integers, and readers, which consume a prefix of a buffer and return what
    is left.  A reader stands for Rust's [Read::read_exact] on a byte slice
    and for the cursors of [store/index.rs] and [sni/clienthello.rs]; the
    cursor's position is represented by the bytes not yet read.

    [ExactReader] is the interface the formats are proved against: a reader
    that succeeds depends only on the bytes it consumed, and fails with a
    truncation error on every strict prefix of them. *)

From S2P Require Import Prelude.
From S2P Require Import RustStr.

Open Scope Z_scope.

(** ** Little-endian integers: [to_le_bytes], [from_le_bytes]. *)

Fixpoint le_bytes (n : nat) (z : Z) : bytes :=
  match n with
  | O => []
  | S k => byte_of_Z z :: le_bytes k (z / 256)
  end.

Fixpoint from_le (b : bytes) : Z :=
  match b with
  | [] => 0
  | x :: b' => Z_of_byte x + 256 * from_le b'
  end.

(** Big-endian: [to_be_bytes], [from_be_bytes]. *)
Definition be_bytes (n : nat) (z : Z) : bytes := reverse (le_bytes n z).
Definition from_be (b : bytes) : Z := from_le (reverse b).

Lemma length_le_bytes n z : length (le_bytes n z) = n.
Proof. revert z. induction n; intros; simpl; [done|]. by rewrite IHn. Qed.

Lemma len_le_bytes n z : len (le_bytes n z) = Z.of_nat n.
Proof. unfold len. by rewrite length_le_bytes. Qed.
#[export] Hint Rewrite len_le_bytes length_le_bytes : cachic.

Lemma pow256_succ n : 256 ^ Z.of_nat (S n) = 256 * 256 ^ Z.of_nat n.
Proof. rewrite Nat2Z.inj_succ, Z.pow_succ_r; lia. Qed.

Lemma from_le_range b : 0 <= from_le b < 256 ^ len b.
Proof.
  unfold len. induction b as [|x b IH]; [done|]. cbn [from_le length].
  rewrite pow256_succ. pose proof (Z_of_byte_range x). nia.
Qed.

Lemma from_le_bytes n z : 0 <= z < 256 ^ Z.of_nat n -> from_le (le_bytes n z) = z.
Proof.
  revert z. induction n as [|n IH]; intros z Hz; cbn [le_bytes from_le].
  - simpl in Hz. lia.
  - rewrite pow256_succ in Hz. rewrite Z_of_byte_of_Z, IH.
    + pose proof (Z.div_mod z 256 ltac:(lia)). lia.
    + split; [apply Z.div_pos; lia|]. apply Z.div_lt_upper_bound; lia.
Qed.

Lemma le_bytes_from b : le_bytes (length b) (from_le b) = b.
Proof.
  induction b as [|x b IH]; [done|]. cbn [from_le length le_bytes].
  pose proof (Z_of_byte_range x). f_equal.
  - apply Z_of_byte_inj. rewrite Z_of_byte_of_Z.
    rewrite Z.mul_comm, Z.mod_add by lia. apply Z.mod_small. lia.
  - rewrite Z.add_comm, Z.mul_comm, Z.div_add_l by lia.
    rewrite (Z.div_small (Z_of_byte x)) by lia. by rewrite Z.add_0_r.
Qed.

Lemma le_bytes_from' n b : length b = n -> le_bytes n (from_le b) = b.
Proof. intros <-. apply le_bytes_from. Qed.

Lemma from_be_bytes n z : 0 <= z < 256 ^ Z.of_nat n -> from_be (be_bytes n z) = z.
Proof. intros H. unfold from_be, be_bytes. rewrite reverse_involutive. by apply from_le_bytes. Qed.

(** ** Readers *)

Definition reader (E A : Type) : Type := bytes -> result E (A * bytes).

#[export] Instance reader_ret E : MRet (reader E) := fun A a b => Ok (a, b).
#[export] Instance reader_bind E : MBind (reader E) := fun A B f m b =>
  match m b with Ok (a, b') => f a b' | Err e => Err e end.

Definition rfail {E A} (e : E) : reader E A := fun _ => Err e.
Definition rlift {E A} (r : result E A) : reader E A := fun b =>
  match r with Ok a => Ok (a, b) | Err e => Err e end.

(** [read_exact] into a buffer of [n] bytes, failing with [eof] when fewer remain. *)
Definition read_exact {E} (eof : E) (n : Z) : reader E bytes := fun b =>
  if len b <? n then Err eof
  else Ok (take (Z.to_nat n) b, drop (Z.to_nat n) b).

Definition read_le {E} (eof : E) (n : nat) : reader E Z :=
  b ← read_exact eof (Z.of_nat n); mret (from_le b).
Definition read_be {E} (eof : E) (n : nat) : reader E Z :=
  b ← read_exact eof (Z.of_nat n); mret (from_be b).

(** ** The interface *)

Class ExactReader {E A} (T : E -> Prop) (r : reader E A) : Prop :=
  exact_reader : forall b a rest, r b = Ok (a, rest) ->
    exists c, b = c ++ rest /\
      (forall rest', r (c ++ rest') = Ok (a, rest')) /\
      (forall c' c'', c = c' ++ c'' -> c'' <> [] -> exists e, r c' = Err e /\ T e).

Section Exact.
Context {E : Type} (T : E -> Prop).

#[export] Instance exact_ret {A} (a : A) : ExactReader T (mret a : reader E A).
Proof.
  intros b a' rest [= <- <-]. exists []. split; [done|]. split; [done|].
  intros c' c'' H Hne. symmetry in H. apply app_eq_nil in H as [_ ?]. done.
Qed.

#[export] Instance exact_fail {A} (e : E) : ExactReader T (rfail e : reader E A).
Proof. by intros b a rest H. Qed.

#[export] Instance exact_lift {A} (r : result E A) : ExactReader T (rlift r).
Proof. destruct r; [apply exact_ret|by intros ? ? ? ?]. Qed.

#[export] Instance exact_bind {A B} (m : reader E A) (f : A -> reader E B) :
  ExactReader T m -> (forall a, ExactReader T (f a)) -> ExactReader T (m ≫= f).
Proof.
  intros Hm Hf b y rest H. unfold mbind, reader_bind in *.
  destruct (m b) as [[a b1]|] eqn:E1; [|done].
  apply Hm in E1 as (c1 & -> & Hc1 & Hp1). apply (Hf a) in H as (c2 & -> & Hc2 & Hp2).
  exists (c1 ++ c2). split; [by rewrite app_assoc|]. split.
  - intros rest'. by rewrite <- app_assoc, Hc1.
  - intros c' c'' Happ Hne. apply app_eq_app in Happ as (l & [[-> ->]|[-> ->]]).
    + destruct (decide (l = [])) as [->|Hl].
      * simpl in Hne. destruct (Hp2 [] c2 eq_refl Hne) as (e & He & HT).
        exists e. pose proof (Hc1 []) as G. rewrite !app_nil_r in G. by rewrite G.
      * destruct (Hp1 c' l eq_refl Hl) as (e & He & HT). exists e. by rewrite He.
    + destruct (Hp2 l c'' eq_refl Hne) as (e & He & HT). exists e. by rewrite Hc1.
Qed.

#[export] Instance exact_read eof n : T eof -> ExactReader T (read_exact eof n).
Proof.
  intros HT b a rest H. unfold read_exact in *.
  destruct (Z.ltb_spec (len b) n); [done|]. injection H as <- <-.
  exists (take (Z.to_nat n) b). split; [by rewrite take_drop|].
  assert (length (take (Z.to_nat n) b) = Z.to_nat n) as Hl.
  { rewrite length_take. unfold len in *. lia. }
  split.
  - intros rest'. rewrite len_app. unfold len. rewrite Hl.
    destruct (Z.ltb_spec (Z.of_nat (Z.to_nat n) + Z.of_nat (length rest')) n); [lia|].
    rewrite take_app_length', drop_app_length' by done. done.
  - intros c' c'' Hc Hne. exists eof. split; [|done].
    rewrite Hc, length_app in Hl. destruct c''; [done|]. simpl in Hl. unfold len.
    destruct (Z.ltb_spec (Z.of_nat (length c')) n); [done|lia].
Qed.

#[export] Instance exact_read_le eof n : T eof -> ExactReader T (read_le eof n).
Proof. intros HT. apply exact_bind; [by apply exact_read|]. intros; apply exact_ret. Qed.

#[export] Instance exact_read_be eof n : T eof -> ExactReader T (read_be eof n).
Proof. intros HT. apply exact_bind; [by apply exact_read|]. intros; apply exact_ret. Qed.
End Exact.

(** ** Reading back what was written *)

Lemma read_exact_app {E} (eof : E) n c rest :
  len c = n -> read_exact eof n (c ++ rest) = Ok (c, rest).
Proof.
  intros <-. unfold read_exact. rewrite len_app. pose proof (len_nonneg rest).
  destruct (Z.ltb_spec (len c + len rest) (len c)); [lia|].
  unfold len. rewrite Nat2Z.id, take_app_length, drop_app_length. done.
Qed.

Lemma read_le_app {E} (eof : E) n z rest :
  0 <= z < 256 ^ Z.of_nat n -> read_le eof n (le_bytes n z ++ rest) = Ok (z, rest).
Proof.
  intros Hz. unfold read_le, mbind, reader_bind.
  rewrite read_exact_app by apply len_le_bytes. unfold mret, reader_ret.
  by rewrite from_le_bytes.
Qed.

Lemma read_exact_Ok {E} (eof : E) n b c rest :
  read_exact eof n b = Ok (c, rest) -> b = c ++ rest /\ (0 <= n -> len c = n).
Proof.
  unfold read_exact. destruct (Z.ltb_spec (len b) n); [done|]. intros [= <- <-].
  split; [by rewrite take_drop|]. intros Hn. unfold len in *. rewrite length_take. lia.
Qed.

Lemma read_le_Ok {E} (eof : E) n b z rest :
  read_le eof n b = Ok (z, rest) -> b = le_bytes n z ++ rest /\ 0 <= z < 256 ^ Z.of_nat n.
Proof.
  unfold read_le, mbind, reader_bind, mret, reader_ret.
  destruct (read_exact eof (Z.of_nat n) b) as [[c r]|] eqn:Er; [|done]. intros [= <- <-].
  apply read_exact_Ok in Er as [-> Hc]. specialize (Hc ltac:(lia)). split.
  - rewrite le_bytes_from'; [done|]. unfold len in Hc. lia.
  - rewrite <- Hc. apply from_le_range.
Qed.

Lemma reader_bind_Ok {E A B} (m : reader E A) (f : A -> reader E B) b y rest :
  (m ≫= f) b = Ok (y, rest) -> exists a b', m b = Ok (a, b') /\ f a b' = Ok (y, rest).
Proof.
  unfold mbind, reader_bind. destruct (m b) as [[a b']|]; [|done]. eauto.
Qed.

Lemma reader_bind_eq {E A B} (m : reader E A) (f : A -> reader E B) b a b' :
  m b = Ok (a, b') -> (m ≫= f) b = f a b'.
Proof. intros H. unfold mbind, reader_bind. by rewrite H. Qed.

#[export] Hint Resolve exact_ret exact_fail exact_lift exact_bind exact_read
  exact_read_le exact_read_be : cachic.

#[global] Arguments le_bytes : simpl never.
#[global] Arguments from_le : simpl never.
#[global] Arguments read_le : simpl never.
#[global] Arguments read_exact : simpl never.
