(* ===== verification/SliceCodec.v ===== *)
(** * Slice keys and self-describing slice values

    Models [crates/cachic/src/store/slice.rs]: the key and value codecs with
    their error kinds, the payload checksum and the process-wide counter of
    checksum failures.  The hash functions ([blake3], [xxh3_64]) are code of
    other crates and are parameters; the encodings are written to a buffer
    that grows, so the writers' I/O errors do not arise. *)

From S2P Require Import Prelude.
From S2P Require Import RustStr.
From S2P Require Import Codec.

Open Scope Z_scope.

(** ** Data *)

Definition MAGIC : Z := 0x43414331.

(** A 16-byte identifier. *)
Abbreviation ObjectId := (list byte).

Record SliceKey := mkSliceKey {
  sk_object : ObjectId;
  sk_generation : Z;
  sk_index : Z }.

Record SliceHeader := mkSliceHeader {
  sh_slice_size : Z;
  sh_total_len : Z;
  sh_generation : Z;
  sh_etag : option str;
  sh_last_modified : option str;
  sh_content_type : option str }.

Record SliceValue := mkSliceValue {
  sv_header : SliceHeader;
  sv_payload : bytes }.

(** The kinds of [foyer::Error] the codec raises; [Io] is a failed [read_exact]. *)
Inductive ErrorKind := Io | OutOfRange | Parse | MagicMismatch | ChecksumMismatch.

#[export] Instance SliceKey_eq_dec : EqDecision SliceKey.
Proof. solve_decision. Defined.
#[export] Instance SliceKey_countable : Countable SliceKey.
Proof.
  apply (inj_countable' (fun k => (sk_object k, sk_generation k, sk_index k))
           (fun t => mkSliceKey t.1.1 t.1.2 t.2)). by intros [].
Defined.
#[export] Instance SliceHeader_eq_dec : EqDecision SliceHeader.
Proof. solve_decision. Defined.
#[export] Instance SliceValue_eq_dec : EqDecision SliceValue.
Proof. solve_decision. Defined.

(** ** The key codec *)

Definition ENCODED_LEN : Z := 16 + 4 + 4.

Definition slice_key_encode (k : SliceKey) : bytes :=
  sk_object k ++ le_bytes 4 (sk_generation k) ++ le_bytes 4 (sk_index k).

Definition slice_key_decode : reader ErrorKind SliceKey :=
  object ← read_exact Io 16;
  generation ← read_le Io 4;
  index ← read_le Io 4;
  mret (mkSliceKey object generation index).

Definition slice_key_estimated_size (k : SliceKey) : Z := ENCODED_LEN.

(** ** The header codec *)

Definition opt_str_len (s : option str) : Z :=
  4 + match s with Some v => len v | None => 0 end.

Definition write_opt_str (s : option str) : result ErrorKind bytes :=
  match s with
  | None => Ok (le_bytes 4 u32_max)
  | Some v =>
      if len v <? 2 ^ 32 then Ok (le_bytes 4 (len v) ++ v) else Err OutOfRange
  end.

Definition read_opt_str : reader ErrorKind (option str) :=
  n ← read_le Io 4;
  if n =? u32_max then mret None else
  buf ← read_exact Io n;
  match from_utf8 buf with
  | Some s => mret (Some s)
  | None => rfail Parse
  end.

Definition slice_header_encode (h : SliceHeader) : result ErrorKind bytes :=
  etag ← write_opt_str (sh_etag h);
  last_modified ← write_opt_str (sh_last_modified h);
  content_type ← write_opt_str (sh_content_type h);
  Ok (le_bytes 4 (sh_slice_size h) ++ le_bytes 8 (sh_total_len h) ++
      le_bytes 4 (sh_generation h) ++ etag ++ last_modified ++ content_type).

Definition slice_header_decode : reader ErrorKind SliceHeader :=
  slice_size ← read_le Io 4;
  total_len ← read_le Io 8;
  generation ← read_le Io 4;
  etag ← read_opt_str;
  last_modified ← read_opt_str;
  content_type ← read_opt_str;
  mret (mkSliceHeader slice_size total_len generation etag last_modified content_type).

Definition slice_header_encoded_len (h : SliceHeader) : Z :=
  4 + 8 + 4 + opt_str_len (sh_etag h) + opt_str_len (sh_last_modified h) +
  opt_str_len (sh_content_type h).

(** ** The value codec *)

Section Value.
(** [xxhash_rust::xxh3::xxh3_64]. *)
Context (xxh3_64 : bytes -> Z).

Definition slice_value_encode (v : SliceValue) : result ErrorKind bytes :=
  header ← slice_header_encode (sv_header v);
  let checksum := xxh3_64 (sv_payload v) in
  if len (sv_payload v) <? 2 ^ 32 then
    Ok (le_bytes 4 MAGIC ++ header ++ le_bytes 8 checksum ++
        le_bytes 4 (len (sv_payload v)) ++ sv_payload v)
  else Err OutOfRange.

(** Everything [decode] reads: the header, the recorded checksum and the payload. *)
Definition slice_value_read : reader ErrorKind (SliceHeader * Z * bytes) :=
  magic ← read_le Io 4;
  if negb (magic =? MAGIC) then rfail MagicMismatch else
  header ← slice_header_decode;
  expected ← read_le Io 8;
  n ← read_le Io 4;
  payload ← read_exact Io n;
  mret (header, expected, payload).

(** [decode], threading [CHECKSUM_FAILURES]. *)
Definition slice_value_decode (failures : Z) (b : bytes)
    : result ErrorKind (SliceValue * bytes) * Z :=
  match slice_value_read b with
  | Err e => (Err e, failures)
  | Ok (header, expected, payload, rest) =>
      let actual := xxh3_64 payload in
      if negb (actual =? expected) then (Err ChecksumMismatch, wrap64 (failures + 1))
      else (Ok (mkSliceValue header payload, rest), failures)
  end.

Definition slice_value_estimated_size (v : SliceValue) : Z :=
  4 + slice_header_encoded_len (sv_header v) + 8 + 4 + len (sv_payload v).
End Value.

(** ** Object identifiers from a raw string *)

Definition object_id (blake3 : bytes -> bytes) (key : str) : ObjectId :=
  take 16 (blake3 key).

(** ** Well-formed data: what the Rust types guarantee, and strings shorter
    than the length that marks an absent one. *)

Definition opt_str_ok (s : option str) : Prop :=
  match s with Some v => len v < u32_max /\ utf8_valid v = true | None => True end.

Definition slice_header_ok (h : SliceHeader) : Prop :=
  in_u 32 (sh_slice_size h) /\ in_u 64 (sh_total_len h) /\ in_u 32 (sh_generation h) /\
  opt_str_ok (sh_etag h) /\ opt_str_ok (sh_last_modified h) /\ opt_str_ok (sh_content_type h).

Definition slice_value_ok (v : SliceValue) : Prop :=
  slice_header_ok (sv_header v) /\ len (sv_payload v) < 2 ^ 32.

Definition slice_key_ok (k : SliceKey) : Prop :=
  length (sk_object k) = 16%nat /\ in_u 32 (sk_generation k) /\ in_u 32 (sk_index k).

(** ** Lemmas *)

Lemma write_opt_str_ok s : opt_str_ok s -> exists c, write_opt_str s = Ok c.
Proof.
  destruct s as [v|]; simpl; [|eauto]. intros [Hl _].
  destruct (Z.ltb_spec (len v) (2 ^ 32)); [eauto|width].
Qed.

Lemma read_write_opt_str s c rest :
  opt_str_ok s -> write_opt_str s = Ok c -> read_opt_str (c ++ rest) = Ok (s, rest).
Proof.
  intros Hs Hw. unfold read_opt_str. destruct s as [v|]; cbn [opt_str_ok write_opt_str] in *.
  - destruct Hs as [Hl Hu]. pose proof (len_nonneg v).
    destruct (Z.ltb_spec (len v) (2 ^ 32)); [|width]. apply Ok_inj in Hw as <-.
    rewrite <- app_assoc.
    rewrite (reader_bind_eq _ _ _ (len v) (v ++ rest)) by (apply read_le_app; simpl; lia).
    destruct (Z.eqb_spec (len v) u32_max); [lia|].
    rewrite (reader_bind_eq _ _ _ v rest) by (by apply read_exact_app).
    unfold from_utf8. by rewrite Hu.
  - apply Ok_inj in Hw as <-. by rewrite (reader_bind_eq _ _ _ u32_max rest)
      by (by apply read_le_app).
Qed.

Lemma read_opt_str_Ok b s rest :
  read_opt_str b = Ok (s, rest) ->
  opt_str_ok s /\ exists c, write_opt_str s = Ok c /\ b = c ++ rest.
Proof.
  intros H. unfold read_opt_str in H.
  apply reader_bind_Ok in H as (n & b1 & H1 & H2). apply read_le_Ok in H1 as [-> Hn].
  destruct (Z.eqb_spec n u32_max) as [->|Hne].
  - injection H2 as <- <-. simpl. eauto.
  - apply reader_bind_Ok in H2 as (buf & b2 & H2 & H3).
    apply read_exact_Ok in H2 as [-> Hb]. specialize (Hb ltac:(lia)).
    unfold from_utf8 in H3. destruct (utf8_valid buf) eqn:Hu; [|done].
    injection H3 as <- <-. change (256 ^ Z.of_nat 4) with (2 ^ 32) in Hn.
    split; [split; [width|done]|]. cbn [write_opt_str].
    destruct (Z.ltb_spec (len buf) (2 ^ 32)); [|lia].
    eexists. split; [done|]. by rewrite Hb, <- app_assoc.
Qed.

Lemma slice_header_encode_ok h :
  slice_header_ok h -> exists c, slice_header_encode h = Ok c.
Proof.
  intros (_ & _ & _ & H1 & H2 & H3). unfold slice_header_encode.
  destruct (write_opt_str_ok _ H1) as [c1 ->]. destruct (write_opt_str_ok _ H2) as [c2 ->].
  destruct (write_opt_str_ok _ H3) as [c3 ->]. simpl. eauto.
Qed.

Lemma slice_header_encode_inv h c :
  slice_header_encode h = Ok c ->
  exists e l t, write_opt_str (sh_etag h) = Ok e /\ write_opt_str (sh_last_modified h) = Ok l /\
    write_opt_str (sh_content_type h) = Ok t /\
    c = le_bytes 4 (sh_slice_size h) ++ le_bytes 8 (sh_total_len h) ++
        le_bytes 4 (sh_generation h) ++ e ++ l ++ t.
Proof.
  unfold slice_header_encode. intros H.
  destruct (write_opt_str (sh_etag h)) as [e|]; simpl in H; [|done].
  destruct (write_opt_str (sh_last_modified h)) as [l|]; simpl in H; [|done].
  destruct (write_opt_str (sh_content_type h)) as [t|]; simpl in H; [|done].
  apply Ok_inj in H as <-. eauto 10.
Qed.

Lemma slice_header_decode_encode h c rest :
  slice_header_ok h -> slice_header_encode h = Ok c ->
  slice_header_decode (c ++ rest) = Ok (h, rest).
Proof.
  intros (Hs & Ht & Hg & H1 & H2 & H3) Hc.
  apply slice_header_encode_inv in Hc as (e & l & t & E1 & E2 & E3 & ->).
  unfold slice_header_decode. rewrite <- !app_assoc.
  rewrite (reader_bind_eq _ _ _ _ _ (read_le_app Io 4 _ _ Hs)).
  rewrite (reader_bind_eq _ _ _ _ _ (read_le_app Io 8 _ _ Ht)).
  rewrite (reader_bind_eq _ _ _ _ _ (read_le_app Io 4 _ _ Hg)).
  rewrite (reader_bind_eq _ _ _ _ _ (read_write_opt_str _ _ _ H1 E1)).
  rewrite (reader_bind_eq _ _ _ _ _ (read_write_opt_str _ _ _ H2 E2)).
  rewrite (reader_bind_eq _ _ _ _ _ (read_write_opt_str _ _ _ H3 E3)).
  by destruct h.
Qed.

Lemma slice_header_decode_Ok b h rest :
  slice_header_decode b = Ok (h, rest) ->
  slice_header_ok h /\ exists c, slice_header_encode h = Ok c /\ b = c ++ rest.
Proof.
  intros H. unfold slice_header_decode in H.
  apply reader_bind_Ok in H as (ss & b1 & H1 & H). apply read_le_Ok in H1 as [-> Hs].
  apply reader_bind_Ok in H as (tl & b2 & H1 & H). apply read_le_Ok in H1 as [-> Ht].
  apply reader_bind_Ok in H as (g & b3 & H1 & H). apply read_le_Ok in H1 as [-> Hg].
  apply reader_bind_Ok in H as (e & b4 & H1 & H). apply read_opt_str_Ok in H1 as (O1 & c1 & W1 & ->).
  apply reader_bind_Ok in H as (l & b5 & H1 & H). apply read_opt_str_Ok in H1 as (O2 & c2 & W2 & ->).
  apply reader_bind_Ok in H as (t & b6 & H1 & H). apply read_opt_str_Ok in H1 as (O3 & c3 & W3 & ->).
  injection H as <- <-.
  split; [exact (conj Hs (conj Ht (conj Hg (conj O1 (conj O2 O3)))))|].
  unfold slice_header_encode. cbn [sh_etag sh_last_modified sh_content_type]. rewrite W1, W2, W3.
  eexists. split; [reflexivity|]. by rewrite <- !app_assoc.
Qed.

Lemma slice_header_encoded_len_spec h c :
  slice_header_encode h = Ok c -> len c = slice_header_encoded_len h.
Proof.
  intros H. apply slice_header_encode_inv in H as (e & l & t & H1 & H2 & H3 & ->).
  assert (forall s b, write_opt_str s = Ok b -> len b = opt_str_len s) as Hw.
  { intros [v|] b; cbn [write_opt_str opt_str_len].
    - destruct (len v <? 2 ^ 32); [|done]. intros <-%Ok_inj. by rewrite len_app, len_le_bytes.
    - intros <-%Ok_inj. by rewrite len_le_bytes. }
  rewrite !len_app, !len_le_bytes, (Hw _ _ H1), (Hw _ _ H2), (Hw _ _ H3).
  unfold slice_header_encoded_len. lia.
Qed.

(** ** The readers never look past what they consume *)

Definition is_truncation (e : ErrorKind) : Prop := e = Io.

#[export] Instance read_opt_str_exact : ExactReader is_truncation read_opt_str.
Proof.
  apply exact_bind; [by apply exact_read_le|]. intros n.
  destruct (n =? u32_max); [apply exact_ret|].
  apply exact_bind; [by apply exact_read|]. intros buf.
  destruct (from_utf8 buf); [apply exact_ret|apply exact_fail].
Qed.

#[export] Instance slice_header_decode_exact : ExactReader is_truncation slice_header_decode.
Proof.
  do 3 (apply exact_bind; [by apply exact_read_le|intros ?]).
  do 3 (apply exact_bind; [apply read_opt_str_exact|intros ?]). apply exact_ret.
Qed.

#[export] Instance slice_value_read_exact : ExactReader is_truncation slice_value_read.
Proof.
  apply exact_bind; [by apply exact_read_le|]. intros m.
  destruct (negb (m =? MAGIC)); [apply exact_fail|].
  apply exact_bind; [apply slice_header_decode_exact|intros ?].
  do 2 (apply exact_bind; [by apply exact_read_le|intros ?]).
  apply exact_bind; [by apply exact_read|intros ?]. apply exact_ret.
Qed.

Definition value_frame (h : bytes) (checksum : Z) (payload : bytes) : bytes :=
  le_bytes 4 MAGIC ++ h ++ le_bytes 8 checksum ++ le_bytes 4 (len payload) ++ payload.

Lemma slice_value_read_frame h c checksum payload rest :
  slice_header_ok h -> slice_header_encode h = Ok c -> in_u 64 checksum ->
  len payload < 2 ^ 32 ->
  slice_value_read (value_frame c checksum payload ++ rest) = Ok (h, checksum, payload, rest).
Proof.
  intros Hh Hc Hx Hp. unfold value_frame, slice_value_read. rewrite <- !app_assoc.
  assert (0 <= len payload < 256 ^ Z.of_nat 4) as Hp'.
  { split; [apply len_nonneg|exact Hp]. }
  rewrite (reader_bind_eq _ _ _ _ _ (read_le_app Io 4 MAGIC _ ltac:(done))).
  rewrite Z.eqb_refl. cbn [negb].
  rewrite (reader_bind_eq _ _ _ _ _ (slice_header_decode_encode _ _ _ Hh Hc)).
  rewrite (reader_bind_eq _ _ _ _ _ (read_le_app Io 8 checksum _ Hx)).
  rewrite (reader_bind_eq _ _ _ _ _ (read_le_app Io 4 _ _ Hp')).
  by rewrite (reader_bind_eq _ _ _ _ _ (read_exact_app Io _ payload rest eq_refl)).
Qed.

Lemma slice_value_read_Ok b h checksum payload rest :
  slice_value_read b = Ok (h, checksum, payload, rest) ->
  slice_header_ok h /\ in_u 64 checksum /\ len payload < 2 ^ 32 /\
  exists c, slice_header_encode h = Ok c /\ b = value_frame c checksum payload ++ rest.
Proof.
  intros H. unfold slice_value_read in H.
  apply reader_bind_Ok in H as (m & b1 & H1 & H). apply read_le_Ok in H1 as [-> Hm].
  destruct (Z.eqb_spec m MAGIC) as [->|]; cbn [negb] in H; [|done].
  apply reader_bind_Ok in H as (h' & b2 & H1 & H).
  apply slice_header_decode_Ok in H1 as (Hh & c & Hc & ->).
  apply reader_bind_Ok in H as (ex & b3 & H1 & H). apply read_le_Ok in H1 as [-> Hx].
  apply reader_bind_Ok in H as (n & b4 & H1 & H). apply read_le_Ok in H1 as [-> Hn].
  apply reader_bind_Ok in H as (p & b5 & H1 & H). apply read_exact_Ok in H1 as [-> Hp].
  specialize (Hp ltac:(lia)). injection H as <- <- <- <-.
  split; [done|]. split; [exact Hx|]. split; [rewrite Hp; exact (proj2 Hn)|].
  exists c. split; [done|]. unfold value_frame. by rewrite Hp, <- !app_assoc.
Qed.

Section ValueSpec.
Context (xxh3_64 : bytes -> Z).

Lemma slice_value_encode_frame v b :
  slice_value_encode xxh3_64 v = Ok b <->
  exists c, slice_header_encode (sv_header v) = Ok c /\ len (sv_payload v) < 2 ^ 32 /\
    b = value_frame c (xxh3_64 (sv_payload v)) (sv_payload v).
Proof.
  unfold slice_value_encode. destruct (slice_header_encode (sv_header v)) as [c|e];
    cbn [mbind result_bind].
  - destruct (Z.ltb_spec (len (sv_payload v)) (2 ^ 32)).
    + split; [intros <-%Ok_inj; eauto|]. by intros (c' & <-%Ok_inj & _ & ->).
    + split; [done|]. intros (_ & _ & ? & _). lia.
  - split; [done|]. by intros (? & ? & _).
Qed.

Lemma slice_value_ok_encodes v :
  slice_value_ok v -> exists b, slice_value_encode xxh3_64 v = Ok b.
Proof.
  intros [Hh Hp]. destruct (slice_header_encode_ok _ Hh) as [c Hc].
  eexists. apply slice_value_encode_frame. eauto.
Qed.

Context (Hxxh : forall p, in_u 64 (xxh3_64 p)).

Lemma slice_value_decode_frame failures h c checksum payload rest :
  slice_header_ok h -> slice_header_encode h = Ok c -> in_u 64 checksum ->
  len payload < 2 ^ 32 ->
  slice_value_decode xxh3_64 failures (value_frame c checksum payload ++ rest) =
  if xxh3_64 payload =? checksum then (Ok (mkSliceValue h payload, rest), failures)
  else (Err ChecksumMismatch, wrap64 (failures + 1)).
Proof.
  intros. unfold slice_value_decode. rewrite (slice_value_read_frame h) by done.
  by destruct (xxh3_64 payload =? checksum).
Qed.

(** C9: the value codec is exact.  Decoding succeeds on a buffer if and only
    if the buffer starts with the encoding of the value returned and that
    value is well formed; it then leaves the counter of checksum failures
    alone and returns exactly the bytes after the encoding.  Both the round
    trip of [encode]/[decode] and the soundness of [decode] (a buffer that
    is not an encoding is refused) are instances. *)
Theorem slice_value_decode_iff failures b v rest failures' :
  slice_value_decode xxh3_64 failures b = (Ok (v, rest), failures') <->
  failures' = failures /\ slice_value_ok v /\
  exists c, slice_value_encode xxh3_64 v = Ok c /\ b = c ++ rest.
Proof using Hxxh.
  split.
  - intros H. unfold slice_value_decode in H.
    destruct (slice_value_read b) as [[[[h ex] p] r]|] eqn:Er; [|done].
    apply slice_value_read_Ok in Er as (Hh & Hx & Hp & c & Hc & ->).
    destruct (Z.eqb_spec (xxh3_64 p) ex) as [<-|]; cbn [negb] in H; [|done].
    injection H as <- <- <-. split; [done|]. split; [done|].
    eexists. split; [apply slice_value_encode_frame; eauto|]. done.
  - intros (-> & [Hh Hp] & c & Hc & ->).
    apply slice_value_encode_frame in Hc as (ch & Hch & _ & ->).
    rewrite (slice_value_decode_frame _ (sv_header v)) by done.
    rewrite Z.eqb_refl. by destruct v.
Qed.

(** A torn write is never served.  Every strict prefix of an encoded
    slice value, from the empty buffer up to one byte short, is refused with
    a truncation error and does not count as a checksum failure. *)
Theorem torn_write_refused failures v c torn lost :
  slice_value_ok v -> slice_value_encode xxh3_64 v = Ok c -> c = torn ++ lost -> lost <> [] ->
  slice_value_decode xxh3_64 failures torn = (Err Io, failures).
Proof using Hxxh.
  intros [Hh Hp] Hc Happ Hne.
  apply slice_value_encode_frame in Hc as (ch & Hch & _ & Hf).
  pose proof (slice_value_read_frame _ ch _ _ [] Hh Hch (Hxxh (sv_payload v)) Hp) as Hr.
  apply slice_value_read_exact in Hr as (c' & Hc' & _ & Hpre).
  rewrite !app_nil_r in Hc'. rewrite <- Hf in Hc'. subst c'.
  destruct (Hpre torn lost Happ Hne) as (e & He & ->).
  unfold slice_value_decode. by rewrite He.
Qed.

Lemma payload_damage_detected failures v c corrupt rest :
  slice_value_ok v -> slice_value_encode xxh3_64 v = Ok c ->
  len corrupt = len (sv_payload v) -> xxh3_64 corrupt <> xxh3_64 (sv_payload v) ->
  slice_value_decode xxh3_64 failures
    (take (length c - length (sv_payload v)) c ++ corrupt ++ rest) =
  (Err ChecksumMismatch, wrap64 (failures + 1)).
Proof using Hxxh.
  intros [Hh Hp] Hc Hlen Hne. apply slice_value_encode_frame in Hc as (ch & Hch & _ & ->).
  unfold value_frame. rewrite !app_assoc.
  match goal with |- context [take _ (?pre ++ sv_payload v)] =>
    rewrite (take_app_length' pre) by (rewrite !length_app; lia) end.
  rewrite <- !app_assoc, <- Hlen.
  pose proof (slice_value_decode_frame failures (sv_header v) ch
    (xxh3_64 (sv_payload v)) corrupt rest Hh Hch (Hxxh _) ltac:(lia)) as Hd.
  unfold value_frame in Hd. rewrite <- !app_assoc in Hd. rewrite Hd.
  by destruct (Z.eqb_spec (xxh3_64 corrupt) (xxh3_64 (sv_payload v))).
Qed.

(** Silent corruption of the payload is detected and counted.  If the
    payload bytes of an encoded value are replaced by others of the same
    length, decoding fails with a checksum mismatch and adds one to the
    counter whenever the checksum tells the two apart; the corrupt bytes are
    never returned. *)
Theorem corrupt_payload_detected failures v c corrupt rest :
  slice_value_ok v -> slice_value_encode xxh3_64 v = Ok c ->
  len corrupt = len (sv_payload v) -> xxh3_64 corrupt <> xxh3_64 (sv_payload v) ->
  slice_value_decode xxh3_64 failures
    (take (length c - length (sv_payload v)) c ++ corrupt ++ rest) =
  (Err ChecksumMismatch, wrap64 (failures + 1)).
Proof using Hxxh. apply payload_damage_detected. Qed.
End ValueSpec.

(** [estimated_size] is the exact length of the encoding, for keys and
    values: what foyer reserves for an entry is what the entry takes. *)
Theorem estimated_size_exact xxh3_64 v c k :
  slice_value_encode xxh3_64 v = Ok c -> slice_key_ok k ->
  len c = slice_value_estimated_size v /\
  len (slice_key_encode k) = slice_key_estimated_size k.
Proof.
  intros H (Hk & _). split.
  - apply slice_value_encode_frame in H as (ch & Hch & _ & ->).
    apply slice_header_encoded_len_spec in Hch. unfold value_frame, slice_value_estimated_size.
    rewrite !len_app, !len_le_bytes, Hch. lia.
  - unfold slice_key_encode. rewrite !len_app, !len_le_bytes. unfold len. rewrite Hk. done.
Qed.

(** ** Keys *)

Lemma slice_key_decode_encode k rest :
  slice_key_ok k -> slice_key_decode (slice_key_encode k ++ rest) = Ok (k, rest).
Proof.
  intros (Ho & Hg & Hi). unfold slice_key_decode, slice_key_encode. rewrite <- !app_assoc.
  assert (len (sk_object k) = 16) as Ho' by (unfold len; lia).
  rewrite (reader_bind_eq _ _ _ _ _ (read_exact_app Io 16 _ _ Ho')).
  rewrite (reader_bind_eq _ _ _ _ _ (read_le_app Io 4 _ _ Hg)).
  rewrite (reader_bind_eq _ _ _ _ _ (read_le_app Io 4 _ _ Hi)). by destruct k.
Qed.

(** Distinct keys have distinct encodings: no slice can be stored under
    another slice's bytes. *)
Lemma slice_key_encode_inj k1 k2 :
  slice_key_ok k1 -> slice_key_ok k2 -> slice_key_encode k1 = slice_key_encode k2 -> k1 = k2.
Proof.
  intros H1 H2 E. pose proof (slice_key_decode_encode k1 [] H1) as D1.
  pose proof (slice_key_decode_encode k2 [] H2) as D2. rewrite E, D2 in D1. by injection D1.
Qed.

(** ** Witnesses: a concrete checksum and a concrete slice *)

Definition toy_checksum (p : bytes) : Z :=
  foldr (fun b acc => wrap64 (Z_of_byte b + 31 * acc)) 7 p.

Lemma toy_checksum_in_u p : in_u 64 (toy_checksum p).
Proof. destruct p; [done|]. by apply wrap_in_u. Qed.

Definition toy_value : SliceValue :=
  mkSliceValue (mkSliceHeader 1048576 5 3 (Some (lit "v1")) None (Some (lit "")))
    (lit "hello").

Definition toy_encoding : bytes :=
  match slice_value_encode toy_checksum toy_value with Ok c => c | Err _ => [] end.

Lemma toy_value_ok : slice_value_ok toy_value.
Proof. by vm_compute. Qed.

Lemma toy_encoding_eq : slice_value_encode toy_checksum toy_value = Ok toy_encoding.
Proof. by vm_compute. Qed.

Lemma slice_value_decode_iff_witness :
  slice_value_decode toy_checksum 4 (toy_encoding ++ lit "rest") =
  (Ok (toy_value, lit "rest"), 4).
Proof.
  apply (slice_value_decode_iff toy_checksum toy_checksum_in_u).
  split; [reflexivity|]. split; [exact toy_value_ok|].
  exists toy_encoding. split; [exact toy_encoding_eq|reflexivity].
Defined.

Lemma torn_write_refused_witness :
  slice_value_decode toy_checksum 4 (take 20 toy_encoding) = (Err Io, 4).
Proof.
  apply (torn_write_refused toy_checksum toy_checksum_in_u 4 toy_value toy_encoding
           _ (drop 20 toy_encoding) toy_value_ok toy_encoding_eq).
  - vm_compute. reflexivity.
  - vm_compute. discriminate.
Defined.

Lemma corrupt_payload_detected_witness :
  slice_value_decode toy_checksum 4
    (take (length toy_encoding - 5) toy_encoding ++ lit "hellO" ++ lit "rest") =
  (Err ChecksumMismatch, 5).
Proof.
  apply (corrupt_payload_detected toy_checksum toy_checksum_in_u 4 toy_value toy_encoding
           (lit "hellO") (lit "rest") toy_value_ok toy_encoding_eq).
  - vm_compute. reflexivity.
  - vm_compute. discriminate.
Defined.

Lemma estimated_size_exact_witness :
  len toy_encoding = 51 /\ slice_key_estimated_size (mkSliceKey (replicate 16 x01) 0 7) = 24.
Proof.
  destruct (estimated_size_exact toy_checksum toy_value toy_encoding
              (mkSliceKey (replicate 16 x01) 0 7) toy_encoding_eq) as [H1 H2].
  - vm_compute. intuition discriminate.
  - rewrite H1, <- H2. vm_compute. split; reflexivity.
Defined.

(** The one string a header cannot carry: a value of exactly [u32::MAX] bytes
    is written with the length that marks an absent string, so it is read back
    as [None] and its bytes are taken for what follows. *)
Lemma opt_str_sentinel_collision v c rest :
  len v = u32_max -> write_opt_str (Some v) = Ok c ->
  read_opt_str (c ++ rest) = Ok (None, v ++ rest).
Proof.
  intros Hl. cbn [write_opt_str]. rewrite Hl. destruct (u32_max <? 2 ^ 32); [|done].
  intros <-%Ok_inj. unfold read_opt_str. rewrite <- app_assoc.
  by rewrite (reader_bind_eq _ _ _ u32_max (v ++ rest)) by (by apply read_le_app).
Qed.
