(* ===== verification/Index.v ===== *)
(** * The object index

    Models [crates/cachic/src/store/index.rs]: the codec of [ObjectMeta], the
    cursor it reads with, and every operation of [ObjectIndex].

    The database ([redb]) is a crate of its own and appears as the interface
    [Redb]: a read transaction sees a table of byte strings, a write
    transaction applies a list of operations or fails as a whole.  [redb]'s
    documentation promises atomic, durable transactions over an ordered map;
    [RedbLaws] states that promise, and [gmap_table] is an implementation of
    it.  The abstract specification is a finite map from identifiers to
    metadata: [index_rel] relates the two and the refinement theorem shows
    that every operation computes its abstract counterpart. *)

From S2P Require Import Prelude.
From S2P Require Import RustStr.
From S2P Require Import Codec.
From S2P Require Import SliceCodec.

Open Scope Z_scope.

Definition LAST_SEEN_GRANULARITY : Z := 3600.

Record ObjectMeta := mkObjectMeta {
  om_key : str;
  om_total_len : Z;
  om_generation : Z;
  om_etag : option str;
  om_last_modified : option str;
  om_content_type : option str;
  om_no_ranges : bool;
  om_created : Z;
  om_last_seen : Z;
  om_stale : bool }.

#[export] Instance ObjectMeta_eq_dec : EqDecision ObjectMeta.
Proof. solve_decision. Defined.

(** The [redb] error variants are one constructor each, as in the source; what
    they carry belongs to [redb] and is not represented. *)
Inductive IndexError :=
  | EDatabase | ETransaction | ETable | EStorage | ECommit
  | Corrupt (id reason : str).

(** ** The metadata codec *)

Definition hex_digit (n : Z) : byte :=
  byte_of_Z (if n <? 10 then 48 + n else 87 + n).
Definition hex (id : ObjectId) : str :=
  flat_map (fun b => [hex_digit (Z_of_byte b / 16); hex_digit (Z_of_byte b mod 16)]) id.

(** [len as u32] truncates. *)
Definition put_str (value : option str) : bytes :=
  match value with
  | None => le_bytes 4 u32_max
  | Some v => le_bytes 4 (wrap32 (len v)) ++ v
  end.

Definition bool_u8 (b : bool) : bytes := [if b then x01 else x00].

Definition object_meta_encode (m : ObjectMeta) : bytes :=
  le_bytes 8 (om_total_len m) ++ le_bytes 4 (om_generation m) ++
  bool_u8 (om_no_ranges m) ++ bool_u8 (om_stale m) ++
  le_bytes 8 (om_created m) ++ le_bytes 8 (om_last_seen m) ++
  put_str (Some (om_key m)) ++ put_str (om_etag m) ++
  put_str (om_last_modified m) ++ put_str (om_content_type m).

(** [Cursor::string]: a stored string that is not UTF-8 reads as absent. *)
Definition cursor_string {E} (eof : E) : reader E (option str) :=
  n ← read_le eof 4;
  if n =? u32_max then mret None else
  b ← read_exact eof n;
  mret (from_utf8 b).

(** The closure [corrupt] of [decode]. *)
Definition corrupt_entry (id : ObjectId) (reason : string) : IndexError :=
  Corrupt (hex id) (lit reason).

Definition object_meta_read (id : ObjectId) : reader IndexError ObjectMeta :=
  let corrupt := corrupt_entry id in
  total_len ← read_le (corrupt "truncated total_len"%string) 8;
  generation ← read_le (corrupt "truncated generation"%string) 4;
  no_ranges ← read_le (corrupt "truncated no_ranges"%string) 1;
  stale ← read_le (corrupt "truncated stale"%string) 1;
  created ← read_le (corrupt "truncated created"%string) 8;
  last_seen ← read_le (corrupt "truncated last_seen"%string) 8;
  key ← cursor_string (corrupt "truncated key"%string);
  key ← rlift (ok_or key (corrupt "missing key"%string));
  etag ← cursor_string (corrupt "truncated etag"%string);
  last_modified ← cursor_string (corrupt "truncated last_modified"%string);
  content_type ← cursor_string (corrupt "truncated content_type"%string);
  mret (mkObjectMeta key total_len generation etag last_modified content_type
          (negb (no_ranges =? 0)) created last_seen (negb (stale =? 0))).

(** Bytes after the last field are ignored. *)
Definition object_meta_decode (b : bytes) (id : ObjectId) : result IndexError ObjectMeta :=
  '(m, _) ← object_meta_read id b; Ok m.

(** ** The database, as an interface *)

Inductive WriteOp := WInsert (k : ObjectId) (v : bytes) | WRemove (k : ObjectId).

Definition apply_op (m : gmap ObjectId bytes) (o : WriteOp) : gmap ObjectId bytes :=
  match o with WInsert k v => <[k := v]> m | WRemove k => delete k m end.

Class Redb (T : Type) := {
  redb_get : T -> ObjectId -> result IndexError (option bytes);
  redb_iter : T -> result IndexError (list (ObjectId * bytes));
  redb_len : T -> result IndexError Z;
  redb_write : T -> list WriteOp -> result IndexError T }.

Class RedbLaws (T : Type) `{Redb T} := {
  rows : T -> gmap ObjectId bytes;
  available : T -> Prop;
  redb_get_ok t k : available t -> redb_get t k = Ok (rows t !! k);
  redb_iter_ok t : available t -> exists l, redb_iter t = Ok l /\ l ≡ₚ map_to_list (rows t);
  redb_len_ok t : available t -> redb_len t = Ok (Z.of_nat (size (rows t)));
  redb_write_ok t ops : available t -> exists t', redb_write t ops = Ok t' /\
    available t' /\ rows t' = foldl apply_op (rows t) ops }.

(** ** The operations *)

Section Operations.
Context {T : Type} `{Redb T}.

Definition index_get (t : T) (id : ObjectId) : result IndexError (option ObjectMeta) :=
  v ← redb_get t id;
  match v with
  | Some value => m ← object_meta_decode value id; Ok (Some m)
  | None => Ok None
  end.

Definition index_put (t : T) (id : ObjectId) (meta : ObjectMeta) : result IndexError T :=
  redb_write t [WInsert id (object_meta_encode meta)].

Definition index_remove (t : T) (id : ObjectId) : result IndexError T :=
  redb_write t [WRemove id].

Definition set_last_seen (now : Z) (m : ObjectMeta) : ObjectMeta :=
  mkObjectMeta (om_key m) (om_total_len m) (om_generation m) (om_etag m)
    (om_last_modified m) (om_content_type m) (om_no_ranges m) (om_created m) now (om_stale m).

(** [now] is the reading of [now_secs]. *)
Definition index_touch (now : Z) (t : T) (id : ObjectId) : result IndexError (bool * T) :=
  meta ← index_get t id;
  match meta with
  | None => Ok (false, t)
  | Some meta =>
      if sat_sub now (om_last_seen meta) <? LAST_SEEN_GRANULARITY then Ok (false, t) else
      t' ← index_put t id (set_last_seen now meta);
      Ok (true, t')
  end.

Definition bump (m : ObjectMeta) : ObjectMeta :=
  mkObjectMeta (om_key m) (om_total_len m) (wrap32 (om_generation m + 1)) (om_etag m)
    (om_last_modified m) (om_content_type m) (om_no_ranges m) (om_created m)
    (om_last_seen m) true.

Definition index_invalidate (t : T) (id : ObjectId) : result IndexError (Z * T) :=
  meta ← index_get t id;
  match meta with
  | None => Ok (1, t)
  | Some meta =>
      let meta' := bump meta in
      t' ← index_put t id meta';
      Ok (om_generation meta', t')
  end.

(** The loops over [table.iter()]: the first entry that does not decode ends
    the scan with its error. *)
Fixpoint scan {A} (step : A -> ObjectId -> ObjectMeta -> A) (acc : A)
    (l : list (ObjectId * bytes)) : result IndexError A :=
  match l with
  | [] => Ok acc
  | (id, value) :: l' =>
      meta ← object_meta_decode value id;
      scan step (step acc id meta) l'
  end.

Definition index_prune (now : Z) (t : T) (max_age : Z) : result IndexError (Z * T) :=
  let cutoff := sat_sub now max_age in
  l ← redb_iter t;
  stale ← scan (fun acc id meta =>
    if om_last_seen meta <? cutoff then acc ++ [id] else acc) [] l;
  match stale with
  | [] => Ok (0, t)
  | _ => t' ← redb_write t (map WRemove stale); Ok (Z.of_nat (length stale), t')
  end.

Definition index_ids_with_prefix (t : T) (prefix : str) : result IndexError (list ObjectId) :=
  l ← redb_iter t;
  scan (fun acc id meta =>
    if starts_with prefix (om_key meta) then acc ++ [id] else acc) [] l.

Definition index_all_ids (t : T) : result IndexError (list ObjectId) :=
  index_ids_with_prefix t [].

Definition index_total_bytes (t : T) : result IndexError Z :=
  l ← redb_iter t;
  scan (fun total _ meta => sat_add 64 total (om_total_len meta)) 0 l.

Definition index_len (t : T) : result IndexError Z := redb_len t.

Definition index_is_empty (t : T) : result IndexError bool :=
  n ← index_len t; Ok (n =? 0).
End Operations.

(** ** Lemmas on the codec *)

Definition meta_str_ok (s : str) : Prop := len s < u32_max /\ utf8_valid s = true.

Definition object_meta_ok (m : ObjectMeta) : Prop :=
  in_u 64 (om_total_len m) /\ in_u 32 (om_generation m) /\ in_u 64 (om_created m) /\
  in_u 64 (om_last_seen m) /\ meta_str_ok (om_key m) /\ opt_str_ok (om_etag m) /\
  opt_str_ok (om_last_modified m) /\ opt_str_ok (om_content_type m).

Lemma cursor_string_put {E} (eof : E) s rest :
  opt_str_ok s -> cursor_string eof (put_str s ++ rest) = Ok (s, rest).
Proof.
  intros Hs. unfold cursor_string. destruct s as [v|]; cbn [opt_str_ok put_str] in *.
  - destruct Hs as [Hl Hu]. pose proof (len_nonneg v).
    rewrite wrap_small by width. rewrite <- app_assoc.
    rewrite (reader_bind_eq _ _ _ (len v) (v ++ rest)) by (apply read_le_app; width).
    destruct (Z.eqb_spec (len v) u32_max); [lia|].
    rewrite (reader_bind_eq _ _ _ v rest) by (by apply read_exact_app).
    unfold from_utf8. by rewrite Hu.
  - by rewrite (reader_bind_eq _ _ _ u32_max rest) by (by apply read_le_app).
Qed.

Lemma read_bool_u8 {E} (eof : E) b rest :
  exists n, read_le eof 1 (bool_u8 b ++ rest) = Ok (n, rest) /\ negb (n =? 0) = b.
Proof.
  exists (if b then 1 else 0). split; [|by destruct b].
  destruct b; [apply (read_le_app eof 1 1)|apply (read_le_app eof 1 0)]; lia.
Qed.

Lemma object_meta_read_encode id m rest :
  object_meta_ok m -> object_meta_read id (object_meta_encode m ++ rest) = Ok (m, rest).
Proof.
  intros (Ht & Hg & Hc & Hl & Hk & He & Hm & Hy).
  unfold object_meta_read, object_meta_encode. rewrite <- !app_assoc.
  assert (forall n : nat, forall z, in_u (8 * Z.of_nat n) z -> 0 <= z < 256 ^ Z.of_nat n) as W.
  { intros n z Hz. unfold in_u in Hz. rewrite Z.pow_mul_r in Hz by lia. exact Hz. }
  rewrite (reader_bind_eq _ _ _ _ _ (read_le_app _ 8 _ _ (W 8%nat _ Ht))).
  rewrite (reader_bind_eq _ _ _ _ _ (read_le_app _ 4 _ _ (W 4%nat _ Hg))).
  edestruct (@read_bool_u8 IndexError) as (n1 & R1 & N1).
  rewrite (reader_bind_eq _ _ _ _ _ R1). clear R1.
  edestruct (@read_bool_u8 IndexError) as (n2 & R2 & N2).
  rewrite (reader_bind_eq _ _ _ _ _ R2). clear R2.
  rewrite (reader_bind_eq _ _ _ _ _ (read_le_app _ 8 _ _ (W 8%nat _ Hc))).
  rewrite (reader_bind_eq _ _ _ _ _ (read_le_app _ 8 _ _ (W 8%nat _ Hl))).
  rewrite (reader_bind_eq _ _ _ _ _ (cursor_string_put _ (Some (om_key m)) _ Hk)).
  rewrite (reader_bind_eq _ _ _ (om_key m) _ eq_refl).
  rewrite (reader_bind_eq _ _ _ _ _ (cursor_string_put _ _ _ He)).
  rewrite (reader_bind_eq _ _ _ _ _ (cursor_string_put _ _ _ Hm)).
  rewrite (reader_bind_eq _ _ _ _ _ (cursor_string_put _ _ _ Hy)).
  rewrite N1, N2. by destruct m.
Qed.

Lemma object_meta_decode_encode id m :
  object_meta_ok m -> object_meta_decode (object_meta_encode m) id = Ok m.
Proof.
  intros Hm. unfold object_meta_decode.
  rewrite <- (app_nil_r (object_meta_encode m)). by rewrite object_meta_read_encode.
Qed.

Definition is_corrupt (id : ObjectId) (e : IndexError) : Prop := exists reason, e = Corrupt (hex id) reason.

#[export] Instance cursor_string_exact {E} (P : E -> Prop) eof :
  P eof -> ExactReader P (cursor_string eof).
Proof.
  intros HP. apply exact_bind; [by apply exact_read_le|]. intros n.
  destruct (n =? u32_max); [apply exact_ret|].
  apply exact_bind; [by apply exact_read|]. intros; apply exact_ret.
Qed.

#[export] Instance object_meta_read_exact id : ExactReader (is_corrupt id) (object_meta_read id).
Proof.
  assert (forall s, is_corrupt id (corrupt_entry id s)) as C by (intros s; by exists (lit s)).
  unfold object_meta_read.
  repeat first [ apply exact_ret
    | apply exact_bind; [first [apply exact_read_le; apply C | apply cursor_string_exact; apply C
                               | apply exact_lift]|intros ?] ].
Qed.

(** The index codec round-trips and detects truncation.  A stored entry
    decodes to the metadata that was encoded, whatever follows it; and every
    strict prefix of it is reported as a corrupt entry of that object, never
    as different metadata. *)
Theorem object_meta_codec id m rest torn lost :
  object_meta_ok m ->
  object_meta_decode (object_meta_encode m ++ rest) id = Ok m /\
  (object_meta_encode m = torn ++ lost -> lost <> [] ->
   exists reason, object_meta_decode torn id = Err (Corrupt (hex id) reason)).
Proof.
  intros Hm. unfold object_meta_decode. split; [by rewrite object_meta_read_encode|].
  intros Happ Hne. pose proof (object_meta_read_encode id m [] Hm) as Hr.
  apply object_meta_read_exact in Hr as (c & Hc & _ & Hpre).
  rewrite !app_nil_r in Hc. subst c.
  destruct (Hpre _ _ Happ Hne) as (e & He & reason & ->). exists reason. by rewrite He.
Qed.

(** ** The abstract index *)

Abbreviation IndexSpec := (gmap ObjectId ObjectMeta).

Inductive IndexCmd :=
  | CGet (id : ObjectId)
  | CPut (id : ObjectId) (meta : ObjectMeta)
  | CRemove (id : ObjectId)
  | CTouch (now : Z) (id : ObjectId)
  | CInvalidate (id : ObjectId)
  | CPrune (now max_age : Z)
  | CIdsWithPrefix (p : str)
  | CTotalBytes
  | CLen.

Inductive Reply :=
  | RMeta (m : option ObjectMeta)
  | RUnit
  | RBool (b : bool)
  | RNum (n : Z)
  | RIds (ids : list ObjectId).

(** Lists of identifiers are answered in the table's order, which the
    specification leaves open. *)
Definition reply_equiv (r r' : Reply) : Prop :=
  match r, r' with
  | RIds l, RIds l' => l ≡ₚ l'
  | _, _ => r = r'
  end.

Definition seen_before (cutoff : Z) (p : ObjectId * ObjectMeta) : bool :=
  om_last_seen p.2 <? cutoff.
Definition has_prefix (prefix : str) (p : ObjectId * ObjectMeta) : bool :=
  starts_with prefix (om_key p.2).

Definition sum_len (m : IndexSpec) : Z :=
  foldr (fun p acc => om_total_len p.2 + acc) 0 (map_to_list m).

Definition spec_step (m : IndexSpec) (c : IndexCmd) : Reply * IndexSpec :=
  match c with
  | CGet id => (RMeta (m !! id), m)
  | CPut id meta => (RUnit, <[id := meta]> m)
  | CRemove id => (RUnit, delete id m)
  | CTouch now id =>
      match m !! id with
      | Some meta =>
          if LAST_SEEN_GRANULARITY <=? now - om_last_seen meta
          then (RBool true, <[id := set_last_seen now meta]> m) else (RBool false, m)
      | None => (RBool false, m)
      end
  | CInvalidate id =>
      match m !! id with
      | Some meta => (RNum (om_generation (bump meta)), <[id := bump meta]> m)
      | None => (RNum 1, m)
      end
  | CPrune now age =>
      let cutoff := sat_sub now age in
      (RNum (Z.of_nat (size (filter (fun p => seen_before cutoff p = true) m))),
       filter (fun p => seen_before cutoff p = false) m)
  | CIdsWithPrefix prefix =>
      (RIds (map_to_list (filter (fun p => has_prefix prefix p = true) m)).*1, m)
  | CTotalBytes => (RNum (Z.min (sum_len m) u64_max), m)
  | CLen => (RNum (Z.of_nat (size m)), m)
  end.

Fixpoint spec_run (m : IndexSpec) (cs : list IndexCmd) : list Reply * IndexSpec :=
  match cs with
  | [] => ([], m)
  | c :: cs' =>
      let '(r, m') := spec_step m c in
      let '(rs, m'') := spec_run m' cs' in (r :: rs, m'')
  end.

Section Run.
Context {T : Type} `{Redb T}.

Definition index_step (t : T) (c : IndexCmd) : result IndexError (Reply * T) :=
  match c with
  | CGet id => r ← index_get t id; Ok (RMeta r, t)
  | CPut id meta => t' ← index_put t id meta; Ok (RUnit, t')
  | CRemove id => t' ← index_remove t id; Ok (RUnit, t')
  | CTouch now id => '(b, t') ← index_touch now t id; Ok (RBool b, t')
  | CInvalidate id => '(g, t') ← index_invalidate t id; Ok (RNum g, t')
  | CPrune now age => '(n, t') ← index_prune now t age; Ok (RNum n, t')
  | CIdsWithPrefix p => l ← index_ids_with_prefix t p; Ok (RIds l, t)
  | CTotalBytes => n ← index_total_bytes t; Ok (RNum n, t)
  | CLen => n ← index_len t; Ok (RNum n, t)
  end.

Fixpoint index_run (t : T) (cs : list IndexCmd) : result IndexError (list Reply * T) :=
  match cs with
  | [] => Ok ([], t)
  | c :: cs' =>
      '(r, t') ← index_step t c;
      '(rs, t'') ← index_run t' cs'; Ok (r :: rs, t'')
  end.
End Run.

Definition cmd_ok (c : IndexCmd) : Prop :=
  match c with
  | CPut _ meta => object_meta_ok meta
  | CTouch now _ => in_u 64 now
  | _ => True
  end.

Definition metas_ok (m : IndexSpec) : Prop := map_Forall (fun _ x => object_meta_ok x) m.

(** ** Lemmas on the scans *)

Definition stored (p : ObjectId * ObjectMeta) : ObjectId * bytes :=
  (p.1, object_meta_encode p.2).

Lemma scan_stored {A} (step : A -> ObjectId -> ObjectMeta -> A) acc l :
  Forall (fun p => object_meta_ok p.2) l ->
  scan step acc (stored <$> l) = Ok (foldl (fun a p => step a p.1 p.2) acc l).
Proof.
  intros Hl. revert acc. induction Hl as [|[id m] l Hm Hl IH]; intros acc; [done|].
  cbn [fmap list_fmap scan stored fst snd]. rewrite object_meta_decode_encode by done.
  cbn [mbind result_bind]. by rewrite IH.
Qed.

Lemma foldl_collect {A B} (P : A -> bool) (f : A -> B) acc l :
  foldl (fun a x => if P x then a ++ [f x] else a) acc l =
  acc ++ (f <$> filter (fun x => P x = true) l).
Proof.
  revert acc. induction l as [|x l IH]; intros acc; [by rewrite app_nil_r|].
  cbn [foldl]. rewrite IH, filter_cons. destruct (P x) eqn:E.
  - rewrite decide_True by done. by rewrite <- app_assoc.
  - by rewrite decide_False by congruence.
Qed.

Lemma foldl_sat_add acc l :
  Forall (fun p : ObjectId * ObjectMeta => 0 <= om_total_len p.2) l ->
  foldl (fun a p => sat_add 64 a (om_total_len p.2)) (Z.min acc u64_max) l =
  Z.min (acc + foldr (fun p a => om_total_len p.2 + a) 0 l) u64_max.
Proof.
  intros Hl. revert acc. induction Hl as [|p l Hp Hl IH]; intros acc; cbn [foldl foldr].
  - f_equal. lia.
  - cbv beta in Hp. replace (sat_add 64 (Z.min acc u64_max) (om_total_len p.2))
      with (Z.min (acc + om_total_len p.2) u64_max) by width.
    rewrite IH. f_equal. lia.
Qed.

Lemma sum_perm l l' :
  l ≡ₚ l' -> foldr (fun (p : ObjectId * ObjectMeta) a => om_total_len p.2 + a) 0 l =
             foldr (fun p a => om_total_len p.2 + a) 0 l'.
Proof. induction 1; simpl; lia. Qed.

Lemma foldl_remove (r : gmap ObjectId bytes) ids i :
  foldl apply_op r (map WRemove ids) !! i = if decide (i ∈ ids) then None else r !! i.
Proof.
  revert r. induction ids as [|j ids IH]; intros r; cbn [map foldl].
  - rewrite decide_False; [done|]. apply not_elem_of_nil.
  - rewrite IH. simpl. destruct (decide (i ∈ ids)) as [Hi|Hi].
    + rewrite decide_True; [done|]. by apply list_elem_of_further.
    + destruct (decide (i = j)) as [->|Hij].
      * rewrite decide_True by apply list_elem_of_here. by rewrite lookup_delete_eq.
      * rewrite lookup_delete_ne by done. rewrite decide_False; [done|].
        rewrite elem_of_cons. tauto.
Qed.

Lemma lookup_stored_iff (m : IndexSpec) l (P : ObjectId * ObjectMeta -> bool) i :
  l ≡ₚ map_to_list m ->
  i ∈ (filter (fun p => P p = true) l).*1 <-> exists x, m !! i = Some x /\ P (i, x) = true.
Proof.
  intros Hl. rewrite list_elem_of_fmap. split.
  - intros ([j x] & -> & [HP Hin]%list_elem_of_filter). rewrite Hl in Hin.
    apply elem_of_map_to_list in Hin. eauto.
  - intros (x & Hx & HP). exists (i, x). split; [done|]. apply list_elem_of_filter.
    split; [done|]. rewrite Hl. by apply elem_of_map_to_list.
Qed.

Lemma map_to_list_filter_perm (m : IndexSpec) P `{forall x : ObjectId * ObjectMeta, Decision (P x)} l :
  l ≡ₚ map_to_list m -> filter P l ≡ₚ map_to_list (filter P m).
Proof.
  intros ->. apply NoDup_Permutation.
  - apply list.NoDup_filter, NoDup_map_to_list.
  - apply NoDup_map_to_list.
  - intros [i x]. rewrite list_elem_of_filter, !elem_of_map_to_list, map_lookup_filter_Some. tauto.
Qed.

(** ** Refinement *)

Section Refinement.
Context {T : Type} `{RedbLaws T}.

Definition index_rel (t : T) (m : IndexSpec) : Prop :=
  available t /\ rows t = object_meta_encode <$> m /\ metas_ok m.

Lemma rel_get t m id : index_rel t m -> index_get t id = Ok (m !! id).
Proof.
  intros (Ha & Hr & Hok). unfold index_get. rewrite redb_get_ok, Hr, lookup_fmap by done.
  destruct (m !! id) as [x|] eqn:Ex; [|done]. cbn [fmap option_fmap option_map mbind result_bind].
  rewrite object_meta_decode_encode; [done|]. by eapply Hok.
Qed.

Lemma rel_put t m id meta :
  index_rel t m -> object_meta_ok meta ->
  exists t', index_put t id meta = Ok t' /\ index_rel t' (<[id := meta]> m).
Proof.
  intros (Ha & Hr & Hok) Hm. unfold index_put.
  destruct (redb_write_ok t [WInsert id (object_meta_encode meta)] Ha) as (t' & -> & Ha' & Hr').
  exists t'. split; [done|]. split; [done|]. split.
  - rewrite Hr'. cbn [foldl apply_op]. by rewrite Hr, fmap_insert.
  - by apply map_Forall_insert_2.
Qed.

Lemma rel_remove t m id :
  index_rel t m -> exists t', index_remove t id = Ok t' /\ index_rel t' (delete id m).
Proof.
  intros (Ha & Hr & Hok). unfold index_remove.
  destruct (redb_write_ok t [WRemove id] Ha) as (t' & -> & Ha' & Hr').
  exists t'. split; [done|]. split; [done|]. split.
  - rewrite Hr'. cbn [foldl apply_op]. by rewrite Hr, fmap_delete.
  - by apply map_Forall_delete.
Qed.

Lemma rel_iter t m :
  index_rel t m -> exists l, redb_iter t = Ok (stored <$> l) /\ l ≡ₚ map_to_list m /\
    Forall (fun p => object_meta_ok p.2) l.
Proof.
  intros (Ha & Hr & Hok). destruct (redb_iter_ok t Ha) as (rs & Hi & Hp).
  rewrite Hr, map_to_list_fmap in Hp.
  apply Permutation_map_inv in Hp as (l & -> & Hl). exists l.
  split; [done|]. split; [by symmetry|].
  rewrite <- Hl. apply map_Forall_to_list in Hok. eapply Forall_impl; [exact Hok|].
  by intros [].
Qed.

Lemma rel_scan {A} t m (step : A -> ObjectId -> ObjectMeta -> A) acc :
  index_rel t m -> exists l, l ≡ₚ map_to_list m /\
    Forall (fun p => object_meta_ok p.2) l /\
    (redb_iter t ≫= scan step acc) = Ok (foldl (fun a p => step a p.1 p.2) acc l).
Proof.
  intros Hrel. destruct (rel_iter t m Hrel) as (l & Hi & Hp & Hok). exists l.
  split; [done|]. split; [done|]. rewrite Hi. by apply scan_stored.
Qed.

Lemma rel_prune t m now age :
  index_rel t m ->
  exists t', index_prune now t age =
    Ok (Z.of_nat (size (filter (fun p => seen_before (sat_sub now age) p = true) m)), t') /\
    index_rel t' (filter (fun p => seen_before (sat_sub now age) p = false) m).
Proof.
  intros Hrel. pose proof Hrel as (Ha & Hr & Hok). unfold index_prune.
  set (cut := sat_sub now age).
  destruct (rel_iter t m Hrel) as (l & Hi & Hp & Hlok). rewrite Hi. cbn [mbind result_bind].
  rewrite scan_stored by done. cbn [mbind result_bind].
  change (foldl _ [] l) with (foldl (fun a p => if seen_before cut p then a ++ [p.1] else a) [] l).
  rewrite foldl_collect. cbn [app].
  set (ids := (filter (fun p => seen_before cut p = true) l).*1).
  assert (length ids = size (filter (fun p => seen_before cut p = true) m)) as Hlen.
  { unfold ids. rewrite length_fmap, <- length_map_to_list.
    by rewrite <- (map_to_list_filter_perm m _ l Hp). }
  assert (forall i, foldl apply_op (rows t) (map WRemove ids) !! i =
      (object_meta_encode <$> filter (fun p => seen_before cut p = false) m) !! i) as Hrows.
  { intros i. rewrite foldl_remove, Hr, !lookup_fmap, map_lookup_filter.
    pose proof (lookup_stored_iff m l (seen_before cut) i Hp) as Hiff. fold ids in Hiff.
    destruct (m !! i) as [x|] eqn:Ex; cbn [fmap option_fmap option_map mbind option_bind]; [|by destruct decide].
    destruct (seen_before cut (i, x)) eqn:Es.
    - by rewrite decide_True by (apply Hiff; eauto).
    - rewrite decide_False; [done|]. intros (y & [= ->] & Hy)%Hiff. congruence. }
  assert (metas_ok (filter (fun p => seen_before cut p = false) m)) as Hok'.
  { intros i x [Hx _]%map_lookup_filter_Some. by eapply Hok. }
  destruct ids as [|i ids'] eqn:Eids.
  - exists t. rewrite <- Hlen. split; [done|]. split; [done|]. split; [|done].
    apply map_eq. exact Hrows.
  - destruct (redb_write_ok t (map WRemove (i :: ids')) Ha) as (t' & -> & Ha' & Hr').
    exists t'. rewrite <- Hlen. split; [done|]. split; [done|]. split; [|done].
    rewrite Hr'. by apply map_eq.
Qed.

Lemma touched_ok now x : object_meta_ok x -> in_u 64 now -> object_meta_ok (set_last_seen now x).
Proof. unfold object_meta_ok, set_last_seen. simpl. tauto. Qed.

Lemma bump_ok x : object_meta_ok x -> object_meta_ok (bump x).
Proof.
  intros (? & ? & ? & ? & ? & ? & ? & ?). unfold object_meta_ok, bump.
  split; [done|]. split; [by apply wrap_in_u|]. cbn. tauto.
Qed.

Lemma rel_touch t m now id :
  index_rel t m -> in_u 64 now ->
  exists b t', index_touch now t id = Ok (b, t') /\
    RBool b = (spec_step m (CTouch now id)).1 /\
    index_rel t' (spec_step m (CTouch now id)).2.
Proof.
  intros Hrel Hnow. unfold index_touch, spec_step. rewrite (rel_get t m) by done.
  cbn [mbind result_bind]. destruct (m !! id) as [x|] eqn:Ex; [|eauto].
  assert (object_meta_ok x) as Hx by (destruct Hrel as (_ & _ & Hok); by eapply Hok).
  assert ((sat_sub now (om_last_seen x) <? LAST_SEEN_GRANULARITY) =
          negb (LAST_SEEN_GRANULARITY <=? now - om_last_seen x)) as ->.
  { unfold LAST_SEEN_GRANULARITY, sat_sub. case_bool; lia. }
  destruct (LAST_SEEN_GRANULARITY <=? now - om_last_seen x); cbn [negb]; [|eauto].
  destruct (rel_put t m id _ Hrel (touched_ok now x Hx Hnow)) as (t' & Hput & Hrel').
  rewrite Hput. cbn [mbind result_bind]. eauto.
Qed.

Lemma rel_invalidate t m id :
  index_rel t m ->
  exists g t', index_invalidate t id = Ok (g, t') /\
    RNum g = (spec_step m (CInvalidate id)).1 /\
    index_rel t' (spec_step m (CInvalidate id)).2.
Proof.
  intros Hrel. unfold index_invalidate, spec_step. rewrite (rel_get t m) by done.
  cbn [mbind result_bind]. destruct (m !! id) as [x|] eqn:Ex; [|eauto].
  assert (object_meta_ok x) as Hx by (destruct Hrel as (_ & _ & Hok); by eapply Hok).
  destruct (rel_put t m id _ Hrel (bump_ok x Hx)) as (t' & Hput & Hrel').
  rewrite Hput. cbn [mbind result_bind]. eauto.
Qed.

Lemma rel_ids_with_prefix t m p :
  index_rel t m -> exists l, index_ids_with_prefix t p = Ok l /\
    l ≡ₚ (map_to_list (filter (fun x => has_prefix p x = true) m)).*1.
Proof.
  intros Hrel. destruct (rel_iter t m Hrel) as (l & Hi & Hp & Hok).
  unfold index_ids_with_prefix. rewrite Hi. cbn [mbind result_bind]. rewrite scan_stored by done.
  eexists. split; [done|].
  change (foldl _ [] l) with (foldl (fun a x => if has_prefix p x then a ++ [x.1] else a) [] l).
  rewrite foldl_collect. cbn [app]. by rewrite (map_to_list_filter_perm m _ l Hp).
Qed.

Lemma rel_total_bytes t m :
  index_rel t m -> index_total_bytes t = Ok (Z.min (sum_len m) u64_max).
Proof.
  intros Hrel. destruct (rel_iter t m Hrel) as (l & Hi & Hp & Hok).
  unfold index_total_bytes. rewrite Hi. cbn [mbind result_bind]. rewrite scan_stored by done.
  f_equal. unfold sum_len. rewrite <- (sum_perm _ _ Hp).
  apply (foldl_sat_add 0 l). eapply Forall_impl; [exact Hok|].
  intros x (Hx & _). width.
Qed.

Lemma rel_step t m c :
  index_rel t m -> cmd_ok c ->
  exists r t', index_step t c = Ok (r, t') /\ reply_equiv r (spec_step m c).1 /\
    index_rel t' (spec_step m c).2.
Proof.
  intros Hrel Hc. destruct c; cbn [index_step cmd_ok] in *.
  - rewrite (rel_get t m) by done. do 2 eexists. by split.
  - destruct (rel_put t m id meta Hrel Hc) as (t' & -> & ?). do 2 eexists. by split.
  - destruct (rel_remove t m id Hrel) as (t' & -> & ?). do 2 eexists. by split.
  - destruct (rel_touch t m now id Hrel Hc) as (b & t' & -> & Hb & ?). do 2 eexists.
    split; [done|]. split; [by rewrite <- Hb|done].
  - destruct (rel_invalidate t m id Hrel) as (g & t' & -> & Hg & ?). do 2 eexists.
    split; [done|]. split; [by rewrite <- Hg|done].
  - destruct (rel_prune t m now max_age Hrel) as (t' & -> & ?). do 2 eexists. by split.
  - destruct (rel_ids_with_prefix t m p Hrel) as (l & -> & ?). do 2 eexists. by split.
  - rewrite (rel_total_bytes t m) by done. do 2 eexists. by split.
  - destruct Hrel as (Ha & Hr & Hok). unfold index_len. rewrite redb_len_ok by done.
    do 2 eexists. split; [done|]. split; [|done]. rewrite Hr, map_size_fmap. done.
Qed.

(** C10: the index implements its abstract specification.  On any database
    that keeps its documented promise, any sequence of index operations
    (get, put, remove, touch, invalidate, prune, prefix listing, totals)
    succeeds, answers what the same sequence answers on a plain finite map
    from identifiers to metadata, and leaves the database representing that
    map; no operation reports a corrupt entry. *)
Theorem index_refines t m cmds :
  index_rel t m -> Forall cmd_ok cmds ->
  exists replies t', index_run t cmds = Ok (replies, t') /\
    Forall2 reply_equiv replies (spec_run m cmds).1 /\
    index_rel t' (spec_run m cmds).2.
Proof.
  intros Hrel Hc. revert t m Hrel. induction Hc as [|c cs Hc Hcs IH]; intros t m Hrel.
  - exists [], t. split; [done|]. split; [constructor|done].
  - destruct (rel_step t m c Hrel Hc) as (r & t' & Hs & Hr & Hrel').
    cbn [index_run spec_run]. rewrite Hs. cbn [mbind result_bind].
    destruct (spec_step m c) as [r0 m'] eqn:E. cbn [fst snd] in *.
    destruct (IH t' m' Hrel') as (rs & t'' & -> & Hrs & Hrel'').
    destruct (spec_run m' cs) as [rs0 m'']. cbn [fst snd mbind result_bind] in *.
    exists (r :: rs), t''. split; [done|]. split; [by constructor|done].
Qed.
End Refinement.

(** ** A database that keeps the promise, and witnesses *)

#[export] Instance gmap_table : Redb (gmap ObjectId bytes) := {|
  redb_get t k := Ok (t !! k);
  redb_iter t := Ok (map_to_list t);
  redb_len t := Ok (Z.of_nat (size t));
  redb_write t ops := Ok (foldl apply_op t ops) |}.

#[export] Instance gmap_table_laws : RedbLaws (gmap ObjectId bytes).
Proof.
  by refine {| rows t := t; available t := True |}; eauto.
Defined.

Definition toy_meta : ObjectMeta :=
  mkObjectMeta (lit "/depot/1") 100 0 (Some (lit "v1")) None None false 10 20 false.

Lemma toy_meta_ok : object_meta_ok toy_meta.
Proof. by vm_compute. Qed.

Lemma object_meta_codec_witness :
  object_meta_decode (object_meta_encode toy_meta ++ lit "junk") (replicate 16 xab) = Ok toy_meta /\
  exists reason, object_meta_decode (take 9 (object_meta_encode toy_meta)) (replicate 16 xab) =
    Err (Corrupt (hex (replicate 16 xab)) reason).
Proof.
  destruct (object_meta_codec (replicate 16 xab) toy_meta (lit "junk")
    (take 9 (object_meta_encode toy_meta)) (drop 9 (object_meta_encode toy_meta)) toy_meta_ok)
    as [H1 H2].
  split; [exact H1|]. apply H2; [vm_compute; reflexivity|vm_compute; discriminate].
Defined.

Lemma index_refines_witness :
  exists replies t',
    index_run (∅ : gmap ObjectId bytes)
      [CPut [x01] toy_meta; CInvalidate [x01]; CTouch 4000 [x01]; CGet [x01]] = Ok (replies, t') /\
    Forall2 reply_equiv replies
      [RUnit; RNum 1; RBool true; RMeta (Some (set_last_seen 4000 (bump toy_meta)))].
Proof.
  destruct (index_refines (∅ : gmap ObjectId bytes) ∅
    [CPut [x01] toy_meta; CInvalidate [x01]; CTouch 4000 [x01]; CGet [x01]])
    as (rs & t' & H1 & H2 & _).
  - split; [exact I|]. split; [reflexivity|]. apply map_Forall_empty.
  - repeat constructor; try exact toy_meta_ok; vm_compute; intuition discriminate.
  - exists rs, t'. split; [exact H1|exact H2].
Defined.

(** An unknown object answers generation 1 to [invalidate], and nothing is
    recorded: the next lookup still finds no entry. *)
Lemma invalidate_unknown_records_nothing {T} `{RedbLaws T} (t : T) m id :
  index_rel t m -> m !! id = None ->
  index_invalidate t id = Ok (1, t) /\ index_get t id = Ok None.
Proof.
  intros Hrel Hn. pose proof (rel_get t m id Hrel) as Hg. rewrite Hn in Hg.
  unfold index_invalidate. by rewrite Hg.
Qed.
