(* ===== verification/Validators.v ===== *)
(** * Validators and If-Range

    Models [crates/cachic/src/orchestrator/validators.rs]: the comparison that
    decides whether two responses describe the same bytes, and the decision
    whether an [If-Range] header permits a partial response. *)

From S2P Require Import Prelude.
From S2P Require Import RustStr.

Open Scope Z_scope.

Record Validators := mkValidators {
  va_etag : option str;
  va_last_modified : option str }.

#[export] Instance Validators_eq_dec : EqDecision Validators.
Proof. solve_decision. Defined.

Definition strong_eq (a b : str) : bool :=
  if starts_with (lit "W/") a || starts_with (lit "W/") b then false
  else bool_decide (a = b).

Definition matches (v other : Validators) : bool :=
  match va_etag v, va_etag other with
  | Some a, Some b => strong_eq a b
  | Some _, None | None, Some _ => false
  | None, None =>
      match va_last_modified v, va_last_modified other with
      | Some a, Some b => bool_decide (a = b)
      | Some _, None | None, Some _ => false
      | None, None => true
      end
  end.

Definition validators_is_empty (v : Validators) : bool :=
  match va_etag v, va_last_modified v with None, None => true | _, _ => false end.

(** A double quote. *)
Definition quote : str := [x22].

Definition if_range_matches (header : str) (current : Validators) : bool :=
  let value := trim header in
  match value with
  | [] => false
  | _ =>
      if starts_with (quote) value || starts_with (lit "W/") value then
        match va_etag current with Some etag => strong_eq value etag | None => false end
      else
        match va_last_modified current with
        | Some modified => bool_decide (modified = value)
        | None => false
        end
  end.

(** ** Properties *)

Lemma strong_eq_true a b :
  strong_eq a b = true <-> a = b /\ starts_with (lit "W/") a = false.
Proof.
  unfold strong_eq. destruct (starts_with (lit "W/") a) eqn:Ea; simpl.
  - split; [done|]. by intros [].
  - destruct (starts_with (lit "W/") b) eqn:Eb; simpl.
    + split; [done|]. intros [-> _]. congruence.
    + rewrite bool_decide_eq_true. tauto.
Qed.

Lemma matches_sym v w : matches v w = matches w v.
Proof.
  unfold matches. destruct (va_etag v) as [a|], (va_etag w) as [b|]; try done.
  - destruct (strong_eq a b) eqn:E1, (strong_eq b a) eqn:E2; try done.
    + apply strong_eq_true in E1 as [-> E]. by rewrite (proj2 (strong_eq_true b b)) in E2.
    + apply strong_eq_true in E2 as [-> E]. by rewrite (proj2 (strong_eq_true a a)) in E1.
  - destruct (va_last_modified v), (va_last_modified w); try done. apply bool_decide_ext. naive_solver.
Qed.

Lemma matches_trans u v w : matches u v = true -> matches v w = true -> matches u w = true.
Proof.
  unfold matches. destruct (va_etag u), (va_etag v), (va_etag w); try done.
  - rewrite !strong_eq_true. intros [-> ?] [-> ?]. done.
  - destruct (va_last_modified u), (va_last_modified v), (va_last_modified w); try done.
    rewrite !bool_decide_eq_true. congruence.
Qed.

(** An entity matches itself unless its entity tag is weak. *)
Definition weak_tag (v : Validators) : bool :=
  match va_etag v with Some e => starts_with (lit "W/") e | None => false end.

Lemma matches_refl v : matches v v = negb (weak_tag v).
Proof.
  unfold matches, weak_tag. destruct (va_etag v) as [e|].
  - unfold strong_eq. destruct (starts_with (lit "W/") e); [done|]. simpl.
    by rewrite bool_decide_eq_true_2.
  - destruct (va_last_modified v); [|done]. simpl. by rewrite bool_decide_eq_true_2.
Qed.

(** Validator comparison is a partial equivalence that never relates weak
    tags.  It is symmetric and transitive, so slices that each match the
    object's recorded validators match each other; it is reflexive exactly on
    the validators without a weak entity tag; and two validators that match
    carry the same entity tag, or neither has one and the modification dates
    agree. *)
Theorem matches_partial_equivalence u v w :
  matches u v = matches v u /\
  (matches u v = true -> matches v w = true -> matches u w = true) /\
  matches u u = negb (weak_tag u) /\
  (matches u v = true ->
     va_etag u = va_etag v /\ weak_tag u = false /\
     (va_etag u = None -> va_last_modified u = va_last_modified v)).
Proof.
  split; [apply matches_sym|]. split; [apply matches_trans|]. split; [apply matches_refl|].
  unfold matches, weak_tag. destruct (va_etag u), (va_etag v); try done.
  - rewrite strong_eq_true. intros [-> ?]. by repeat split.
  - destruct (va_last_modified u), (va_last_modified v); try done.
    rewrite bool_decide_eq_true. by intros ->.
Qed.

(** [If-Range] permits a partial response exactly when it names the
    current version: a strong entity tag equal to the current one, or a date
    equal to the current modification date.  A weak tag, an empty header or an
    unknown validator always gives the whole object. *)
Theorem if_range_sound header current :
  if_range_matches header current = true <->
  (va_etag current = Some (trim header) /\ starts_with (quote) (trim header) = true) \/
  (va_last_modified current = Some (trim header) /\ trim header <> [] /\
   starts_with (quote) (trim header) = false /\ starts_with (lit "W/") (trim header) = false).
Proof.
  unfold if_range_matches. set (v := trim header).
  assert (starts_with (quote) v = true -> starts_with (lit "W/") v = false) as Hex.
  { destruct v as [|c v']; [done|]. unfold starts_with. cbn. by case_bool_decide; [subst|]. }
  assert (v <> [] \/ v = []) as [Hne|Hne] by (destruct v; auto); [|rewrite Hne; naive_solver].
  destruct v as [|c v'] eqn:Ev; [done|]. rewrite <- Ev in *.
  destruct (starts_with (quote) v) eqn:Eq; cbn [orb].
  - specialize (Hex eq_refl). destruct (va_etag current) as [e|]; [|naive_solver].
    rewrite strong_eq_true. naive_solver.
  - destruct (starts_with (lit "W/") v) eqn:Ew.
    + destruct (va_etag current) as [e|]; [|naive_solver]. rewrite strong_eq_true. naive_solver.
    + destruct (va_last_modified current) as [m|]; [|naive_solver].
      rewrite bool_decide_eq_true. split; [|naive_solver]. intros ->.
      right. repeat split. done.
Qed.
