(* ===== verification/Readahead.v ===== *)
(** * Speculative read-ahead

    Models [crates/cachic/src/orchestrator/readahead.rs]: the per-object access
    patterns, their bound, the classification of a request and the range of
    slices to prefetch.  Instants are nanoseconds; the order in which the hash
    map is iterated is left open ([order]). *)

From stdpp Require Import sorting.
From S2P Require Import Prelude.
From S2P Require Import RustStr.
From S2P Require Import SliceCodec.

Open Scope Z_scope.

Definition SEQUENTIAL_THRESHOLD : Z := 3.
Definition PATTERN_TTL : Z := 60 * 1000000000.
Definition MAX_TRACKED : nat := 1024.

Inductive Access := Random | Sequential.

Record Pattern := mkPattern {
  pt_next_expected : Z;
  pt_consecutive : Z;
  pt_seen : Z }.

Record ReadaheadPolicy := mkReadaheadPolicy {
  ra_patterns : gmap ObjectId Pattern;
  ra_window : Z }.

Definition readahead_new (window : Z) : ReadaheadPolicy :=
  mkReadaheadPolicy ∅ (wrap32 window).

(** [Instant::duration_since] saturates at zero. *)
Definition duration_since (now seen : Z) : Z := sat_sub now seen.

Section Observe.
(** The iteration order of the hash map. *)
Context (order : gmap ObjectId Pattern -> list (ObjectId * Pattern)).

Definition older (a b : ObjectId * Pattern) : Prop := pt_seen a.2 <= pt_seen b.2.
#[local] Instance older_dec a b : Decision (older a b) := Z.le_dec _ _.

(** The [k] least recently seen objects: [sort_by_key] then [take]. *)
Definition oldest (k : nat) (m : gmap ObjectId Pattern) : list ObjectId :=
  (take k (merge_sort older (order m))).*1.

Definition make_room (now : Z) (m : gmap ObjectId Pattern) : gmap ObjectId Pattern :=
  if (MAX_TRACKED <=? size m)%nat then
    let m1 := filter (fun p => duration_since now (pt_seen p.2) < PATTERN_TTL) m in
    if (MAX_TRACKED <=? size m1)%nat
    then foldl (fun m k => delete k m) m1 (oldest (MAX_TRACKED / 2) m1)
    else m1
  else m.

Definition observe (now : Z) (r : ReadaheadPolicy) (object : ObjectId) (first last : Z)
    : Access * ReadaheadPolicy :=
  let m := make_room now (ra_patterns r) in
  let fresh := mkPattern (sat_add 32 last 1) 0 now in
  match m !! object with
  | None => (Random, mkReadaheadPolicy (<[object := fresh]> m) (ra_window r))
  | Some entry =>
      if PATTERN_TTL <=? duration_since now (pt_seen entry)
      then (Random, mkReadaheadPolicy (<[object := fresh]> m) (ra_window r))
      else
        let consecutive :=
          if first =? pt_next_expected entry then sat_add 32 (pt_consecutive entry) 1 else 0 in
        let entry' := mkPattern (sat_add 32 last 1) consecutive now in
        (if SEQUENTIAL_THRESHOLD <=? consecutive then Sequential else Random,
         mkReadaheadPolicy (<[object := entry']> m) (ra_window r))
  end.
End Observe.

(** The half-open range [start..end]. *)
Definition prefetch (r : ReadaheadPolicy) (access : Access) (last last_slice : Z) : Z * Z :=
  match access with
  | Random => (0, 0)
  | Sequential =>
      if ra_window r =? 0 then (0, 0) else
      let start := sat_add 32 last 1 in
      let end_ := Z.min (sat_add 32 start (ra_window r)) (sat_add 32 last_slice 1) in
      if end_ <=? start then (0, 0) else (start, end_)
  end.

(** ** The bound on tracked objects *)

Section Bound.
Context (order : gmap ObjectId Pattern -> list (ObjectId * Pattern)).
Context (order_perm : forall m, order m ≡ₚ map_to_list m).

Lemma foldl_delete_size (ks : list ObjectId) (m : gmap ObjectId Pattern) :
  NoDup ks -> (forall k, k ∈ ks -> is_Some (m !! k)) ->
  size (foldl (fun m k => delete k m) m ks) = (size m - length ks)%nat.
Proof.
  intros Hnd. revert m. induction Hnd as [|k ks Hk Hnd IH]; intros m Hin; cbn [foldl length].
  - lia.
  - rewrite IH.
    + destruct (Hin k) as [x Hx]; [apply list_elem_of_here|].
      rewrite map_size_delete_Some by eauto. lia.
    + intros j Hj. rewrite lookup_delete_ne by (intros ->; done).
      apply Hin. by apply list_elem_of_further.
Qed.

Lemma foldl_delete_subseteq (ks : list ObjectId) (m : gmap ObjectId Pattern) :
  foldl (fun m k => delete k m) m ks ⊆ m.
Proof.
  revert m. induction ks as [|k ks IH]; intros m; cbn [foldl]; [done|].
  etrans; [apply IH|apply delete_subseteq].
Qed.

Lemma make_room_subseteq now m : make_room order now m ⊆ m.
Proof using Type.
  unfold make_room. destruct (_ <=? _)%nat; [|done]. destruct (_ <=? _)%nat.
  - etrans; [apply foldl_delete_subseteq|apply map_filter_subseteq].
  - apply map_filter_subseteq.
Qed.

Lemma oldest_spec k m :
  NoDup (oldest order k m) /\ (forall i, i ∈ oldest order k m -> is_Some (m !! i)) /\
  length (oldest order k m) = Nat.min k (size m).
Proof using order_perm.
  unfold oldest. set (s := merge_sort older (order m)).
  assert (s ≡ₚ map_to_list m) as Hs.
  { unfold s. rewrite merge_sort_Permutation. apply order_perm. }
  assert (NoDup s.*1) as Hnd.
  { rewrite Hs. apply NoDup_fst_map_to_list. }
  split; [|split].
  - rewrite fmap_take. rewrite <- (take_drop k) in Hnd. by apply NoDup_app in Hnd as [? _].
  - intros i ([j x] & -> & Hin)%list_elem_of_fmap. apply elem_of_take in Hin as (n & Hn & _).
    apply list_elem_of_lookup_2 in Hn. rewrite Hs in Hn.
    apply elem_of_map_to_list in Hn. eauto.
  - rewrite length_fmap, length_take, Hs, length_map_to_list. lia.
Qed.

Lemma make_room_size now m :
  (size m <= MAX_TRACKED)%nat -> (size (make_room order now m) < MAX_TRACKED)%nat.
Proof using order_perm.
  intros Hm. unfold make_room. destruct (Nat.leb_spec MAX_TRACKED (size m)); [|lia].
  set (m1 := filter _ m).
  assert (size m1 <= size m)%nat as Hle.
  { apply map_subseteq_size. apply map_filter_subseteq. }
  destruct (Nat.leb_spec MAX_TRACKED (size m1)); [|lia].
  destruct (oldest_spec (MAX_TRACKED / 2) m1) as (Hnd & Hin & Hlen).
  rewrite foldl_delete_size by done. rewrite Hlen.
  change (MAX_TRACKED / 2)%nat with 512%nat. change MAX_TRACKED with 1024%nat in *. lia.
Qed.

(** C37: the read-ahead map never tracks more than [MAX_TRACKED] objects.
    Whatever sequence of requests arrives, at whatever times and however
    many distinct objects they name, every observation leaves at most 1024
    patterns. *)
Theorem readahead_bounded now r object first last :
  (size (ra_patterns r) <= MAX_TRACKED)%nat ->
  (size (ra_patterns (observe order now r object first last).2) <= MAX_TRACKED)%nat.
Proof using order_perm.
  intros Hr. pose proof (make_room_size now _ Hr) as Hm. unfold observe.
  assert (forall x : Pattern,
    (size (<[object:=x]> (make_room order now (ra_patterns r))) <= MAX_TRACKED)%nat) as Hins.
  { intros x. rewrite map_size_insert. destruct (_ !! object); unfold id; lia. }
  destruct (_ !! object) as [e|]; [|apply Hins].
  destruct (_ <=? _); apply Hins.
Qed.
End Bound.

(** ** Prefetching needs a demonstrated stream

    [history] is the list of all requests observed, newest first.  [run_length]
    counts how many of the most recent requests for an object start exactly
    where the previous one ended. *)

Abbreviation request := (ObjectId * Z * Z)%type.

Definition requests_of (o : ObjectId) (h : list request) : list (Z * Z) :=
  (fun r => (r.1.2, r.2)) <$> filter (fun r => r.1.1 = o) h.

Fixpoint run_length (l : list (Z * Z)) : Z :=
  match l with
  | [] => 0
  | (first, _) :: l' =>
      match l' with
      | [] => 0
      | (_, last) :: _ => if first =? sat_add 32 last 1 then 1 + run_length l' else 0
      end
  end.

Lemma run_length_cons f x f' x' l :
  run_length ((f, x) :: (f', x') :: l) =
  if f =? sat_add 32 x' 1 then 1 + run_length ((f', x') :: l) else 0.
Proof. reflexivity. Qed.

Lemma run_length_nonneg l : 0 <= run_length l.
Proof.
  induction l as [|[f x] l IH]; [done|]. destruct l as [|[f' x'] l']; [done|].
  rewrite run_length_cons. destruct (f =? _); lia.
Qed.

(** Every tracked pattern is explained by the history. *)
Definition explained (h : list request) (m : gmap ObjectId Pattern) : Prop :=
  forall o p, m !! o = Some p ->
    exists first last rest, requests_of o h = (first, last) :: rest /\
      pt_next_expected p = sat_add 32 last 1 /\
      0 <= pt_consecutive p <= run_length (requests_of o h).

Lemma explained_subseteq h m m' : m' ⊆ m -> explained h m -> explained h m'.
Proof. intros Hs H o p Hp. apply H. by eapply lookup_weaken. Qed.

Lemma requests_of_cons o r h :
  requests_of o (r :: h) = if decide (r.1.1 = o) then (r.1.2, r.2) :: requests_of o h
                           else requests_of o h.
Proof. unfold requests_of. rewrite filter_cons. by destruct (decide _). Qed.

Lemma explained_insert h m o first last p :
  explained h m ->
  pt_next_expected p = sat_add 32 last 1 ->
  0 <= pt_consecutive p <= run_length ((first, last) :: requests_of o h) ->
  explained ((o, first, last) :: h) (<[o := p]> m).
Proof.
  intros Hh Hn Hc o' p' Hp'. rewrite requests_of_cons. cbn [fst snd].
  destruct (decide (o = o')) as [<-|Hne].
  - rewrite lookup_insert_eq in Hp'. injection Hp' as <-. eauto 10.
  - rewrite lookup_insert_ne in Hp' by done. by apply Hh.
Qed.

Lemma observe_explained order now r o first last h :
  explained h (ra_patterns r) ->
  explained ((o, first, last) :: h) (ra_patterns (observe order now r o first last).2) /\
  ((observe order now r o first last).1 = Sequential ->
   SEQUENTIAL_THRESHOLD <= run_length (requests_of o ((o, first, last) :: h))).
Proof.
  intros Hh. unfold observe. set (m := make_room order now (ra_patterns r)).
  assert (explained h m) as Hm by (eapply explained_subseteq; [apply make_room_subseteq|done]).
  pose proof (run_length_nonneg ((first, last) :: requests_of o h)) as Hnn.
  assert (explained ((o, first, last) :: h)
            (<[o := mkPattern (sat_add 32 last 1) 0 now]> m)) as Hfresh.
  { apply (explained_insert _ _ _ first last); [done|done|]. cbn [pt_consecutive]. lia. }
  destruct (m !! o) as [e|] eqn:Ee; [|done].
  destruct (PATTERN_TTL <=? _); [done|].
  set (c := if first =? _ then _ else _).
  assert (0 <= c <= run_length ((first, last) :: requests_of o h)) as Hc.
  { unfold c. destruct (Hm _ _ Ee) as (f' & l' & rest & Hr & Hn & Hcons).
    rewrite Hn. rewrite Hr in *. rewrite run_length_cons.
    destruct (first =? sat_add 32 l' 1); width. }
  split; [by apply (explained_insert _ _ _ first last)|].
  rewrite requests_of_cons. cbn [fst snd]. rewrite decide_True by done.
  destruct (Z.leb_spec SEQUENTIAL_THRESHOLD c); [lia|done].
Qed.

Fixpoint observe_all order (r : ReadaheadPolicy) (h : list request) (rs : list (Z * request))
    : list Access * ReadaheadPolicy * list request :=
  match rs with
  | [] => ([], r, h)
  | (now, q) :: rs' =>
      let '(a, r') := observe order now r q.1.1 q.1.2 q.2 in
      let '(accesses, r'', h') := observe_all order r' (q :: h) rs' in
      (a :: accesses, r'', h')
  end.

Lemma observe_all_explained order rs r h :
  explained h (ra_patterns r) ->
  let '(_, r', h') := observe_all order r h rs in
  explained h' (ra_patterns r') /\ h' = reverse (rs.*2) ++ h.
Proof.
  revert r h. induction rs as [|[now [[o f] l]] rs IH]; intros r h Hh; cbn [observe_all]; [done|].
  cbn [fst snd]. pose proof (observe_explained order now r o f l h Hh) as [He _].
  destruct (observe order now r o f l) as [a r']. cbn [snd] in He. specialize (IH r' _ He). revert IH.
  destruct (observe_all order r' ((o, f, l) :: h) rs) as [[accesses r''] h'].
  intros [? ->]. split; [done|]. cbn [fmap list_fmap]. rewrite reverse_cons.
  by rewrite <- app_assoc.
Qed.

(** Speculation needs a demonstrated stream.  After any sequence of
    observed requests, a request is classified as sequential only if it and
    the three requests before it for the same object form an unbroken chain,
    each starting at the slice after the previous one's last; and the slices
    then proposed for prefetching lie strictly after the request, inside the
    object, and number at most the window.  A random access prefetches
    nothing. *)
Theorem prefetch_only_streams order window rs now object first last last_slice :
  in_u 32 last -> in_u 32 last_slice ->
  let '(_, r, _) := observe_all order (readahead_new window) [] rs in
  let '(access, r') := observe order now r object first last in
  let '(from, to) := prefetch r' access last last_slice in
  (access = Sequential ->
     3 <= run_length ((first, last) :: requests_of object (reverse rs.*2))) /\
  (access = Random -> from = to) /\
  (forall i, from <= i < to -> last < i <= last_slice) /\
  0 <= to - from <= ra_window r'.
Proof.
  intros Hl Hs.
  assert (explained [] (ra_patterns (readahead_new window))) as H0.
  { intros o p Hp. unfold readahead_new in Hp. simpl in Hp. by rewrite lookup_empty in Hp. }
  pose proof (observe_all_explained order rs _ _ H0) as Hrun.
  assert (forall h r r' h' rs' acc, observe_all order r h rs' = (acc, r', h') ->
            ra_window r' = ra_window r) as Hwin.
  { intros h r r' h' rs'. revert r h r' h'.
    induction rs' as [|[n q] rs' IH]; intros r h r' h' acc; cbn [observe_all].
    - by intros [= _ <- _].
    - destruct (observe order n r q.1.1 q.1.2 q.2) as [a r1] eqn:E.
      destruct (observe_all order r1 (q :: h) rs') as [[x y] z] eqn:E2. intros [= _ <- _].
      rewrite (IH _ _ _ _ _ E2). unfold observe in E.
      destruct (_ !! _); [destruct (PATTERN_TTL <=? _)|]; by injection E as _ <-. }
  revert Hrun. destruct (observe_all order (readahead_new window) [] rs) as [[acc r] h'] eqn:Er.
  intros [Hexp ->]. rewrite app_nil_r in Hexp. apply Hwin in Er.
  pose proof (observe_explained order now r object first last _ Hexp) as [_ Hseq].
  destruct (observe order now r object first last) as [access r'] eqn:Eo. cbn [fst] in Hseq.
  assert (in_u 32 (ra_window r')) as Hw.
  { assert (ra_window r' = ra_window r) as ->.
    { unfold observe in Eo. destruct (_ !! _); [destruct (PATTERN_TTL <=? _)|];
        by injection Eo as _ <-. }
    rewrite Er. by apply wrap_in_u. }
  rewrite requests_of_cons in Hseq. cbn [fst snd] in Hseq. rewrite decide_True in Hseq by done.
  destruct access; cbn [prefetch].
  - repeat split; try done; width.
  - destruct (Z.eqb_spec (ra_window r') 0); [repeat split; auto; width|].
    destruct (Z.leb_spec (Z.min (sat_add 32 (sat_add 32 last 1) (ra_window r')) (sat_add 32 last_slice 1)) (sat_add 32 last 1)).
    + repeat split; auto; width.
    + repeat split; auto; try done; width.
Qed.

(** ** Witnesses *)

Lemma readahead_bounded_witness :
  (size (ra_patterns (observe map_to_list 5 (readahead_new 4) [x01] 0 0).2) <= MAX_TRACKED)%nat.
Proof.
  apply (readahead_bounded map_to_list (fun m => reflexivity _)). apply Nat.leb_le. reflexivity.
Defined.

(** Four adjacent requests, then the next one prefetches two slices. *)
Definition toy_stream : list (Z * request) :=
  [(1, ([x01], 0, 0)); (2, ([x01], 1, 1)); (3, ([x01], 2, 2))].

Lemma prefetch_only_streams_witness :
  let '(_, r, _) := observe_all map_to_list (readahead_new 2) [] toy_stream in
  let '(access, r') := observe map_to_list 4 r [x01] 3 3 in
  access = Sequential /\ prefetch r' access 3 9 = (4, 6) /\
  3 <= run_length ((3, 3) :: requests_of [x01] (reverse toy_stream.*2)).
Proof.
  pose proof (prefetch_only_streams map_to_list 2 toy_stream 4 [x01] 3 3 9
    ltac:(vm_compute; intuition discriminate) ltac:(vm_compute; intuition discriminate)) as H.
  vm_compute in H |- *. intuition.
Defined.
