(* ===== verification/Guard.v ===== *)
(** * IP addresses and the upstream address guard

    Models [crates/cachic/src/upstream/guard.rs] together with what it and the
    resolver use of [std::net]: the address types, their classification
    methods and the textual parser behind [str::parse::<IpAddr>].

    The guard is a cascade of tests on octets and segments.  Its reference is a
    table of address blocks in CIDR form: [check_v4] answers what the first
    block containing the address says. *)

From S2P Require Import Prelude.
From S2P Require Import RustStr.

Open Scope Z_scope.

(** ** Addresses *)

Record Ipv4Addr := mkV4 { o0 : Z; o1 : Z; o2 : Z; o3 : Z }.
Record Ipv6Addr := mkV6 { s0 : Z; s1 : Z; s2 : Z; s3 : Z; s4 : Z; s5 : Z; s6 : Z; s7 : Z }.
Inductive IpAddr := V4 (a : Ipv4Addr) | V6 (a : Ipv6Addr).
Record SocketAddr := mkSocketAddr { sa_ip : IpAddr; sa_port : Z }.

#[export] Instance Ipv4Addr_eq_dec : EqDecision Ipv4Addr.
Proof. solve_decision. Defined.
#[export] Instance Ipv6Addr_eq_dec : EqDecision Ipv6Addr.
Proof. solve_decision. Defined.
#[export] Instance IpAddr_eq_dec : EqDecision IpAddr.
Proof. solve_decision. Defined.

#[export] Instance IpAddr_countable : Countable IpAddr.
Proof.
  apply (inj_countable'
    (fun a => match a with
              | V4 v => inl (o0 v, o1 v, o2 v, o3 v)
              | V6 v => inr (s0 v, s1 v, s2 v, s3 v, s4 v, s5 v, s6 v, s7 v) end)
    (fun x => match x with
              | inl (a, b, c, d) => V4 (mkV4 a b c d)
              | inr (a, b, c, d, e, f, g, h) => V6 (mkV6 a b c d e f g h) end)).
  by intros [[]|[]].
Defined.

Definition v4_ok (a : Ipv4Addr) : Prop :=
  in_u 8 (o0 a) /\ in_u 8 (o1 a) /\ in_u 8 (o2 a) /\ in_u 8 (o3 a).
Definition v6_ok (a : Ipv6Addr) : Prop :=
  in_u 16 (s0 a) /\ in_u 16 (s1 a) /\ in_u 16 (s2 a) /\ in_u 16 (s3 a) /\
  in_u 16 (s4 a) /\ in_u 16 (s5 a) /\ in_u 16 (s6 a) /\ in_u 16 (s7 a).

(** *** The classification methods of [std::net] *)

Definition v4_is_unspecified (a : Ipv4Addr) : bool :=
  (o0 a =? 0) && (o1 a =? 0) && (o2 a =? 0) && (o3 a =? 0).
Definition v4_is_loopback (a : Ipv4Addr) : bool := o0 a =? 127.
Definition v4_is_private (a : Ipv4Addr) : bool :=
  (o0 a =? 10) || ((o0 a =? 172) && (16 <=? o1 a) && (o1 a <=? 31)) ||
  ((o0 a =? 192) && (o1 a =? 168)).
Definition v4_is_link_local (a : Ipv4Addr) : bool := (o0 a =? 169) && (o1 a =? 254).
Definition v4_is_multicast (a : Ipv4Addr) : bool := (224 <=? o0 a) && (o0 a <=? 239).
Definition v4_is_broadcast (a : Ipv4Addr) : bool :=
  (o0 a =? 255) && (o1 a =? 255) && (o2 a =? 255) && (o3 a =? 255).

Definition v6_is_unspecified (a : Ipv6Addr) : bool :=
  (s0 a =? 0) && (s1 a =? 0) && (s2 a =? 0) && (s3 a =? 0) &&
  (s4 a =? 0) && (s5 a =? 0) && (s6 a =? 0) && (s7 a =? 0).
Definition v6_is_loopback (a : Ipv6Addr) : bool :=
  (s0 a =? 0) && (s1 a =? 0) && (s2 a =? 0) && (s3 a =? 0) &&
  (s4 a =? 0) && (s5 a =? 0) && (s6 a =? 0) && (s7 a =? 1).
Definition v6_is_multicast (a : Ipv6Addr) : bool := Z.land (s0 a) 0xff00 =? 0xff00.

(** Two segments as an IPv4 address: [(s >> 8) as u8, s as u8, ...]. *)
Definition v4_of_segments (hi lo : Z) : Ipv4Addr :=
  mkV4 (wrap8 (Z.shiftr hi 8)) (wrap8 hi) (wrap8 (Z.shiftr lo 8)) (wrap8 lo).

Definition to_ipv4_mapped (a : Ipv6Addr) : option Ipv4Addr :=
  if (s0 a =? 0) && (s1 a =? 0) && (s2 a =? 0) && (s3 a =? 0) && (s4 a =? 0) && (s5 a =? 0xffff)
  then Some (v4_of_segments (s6 a) (s7 a)) else None.

(** ** The guard *)

Inductive Refusal :=
  | Loopback | Private | LinkLocal | Unspecified | MulticastOrBroadcast | Reserved.

#[export] Instance Refusal_eq_dec : EqDecision Refusal.
Proof. solve_decision. Defined.

Definition Refusal_ALL : list str :=
  [lit "loopback"; lit "private"; lit "link_local"; lit "unspecified";
   lit "multicast_or_broadcast"; lit "reserved"].

Definition refusal_reason (r : Refusal) : str :=
  match r with
  | Loopback => lit "loopback"
  | Private => lit "private"
  | LinkLocal => lit "link_local"
  | Unspecified => lit "unspecified"
  | MulticastOrBroadcast => lit "multicast_or_broadcast"
  | Reserved => lit "reserved"
  end.

Definition check_v4 (a : Ipv4Addr) : result Refusal unit :=
  if v4_is_unspecified a then Err Unspecified else
  if v4_is_loopback a then Err Loopback else
  if v4_is_private a then Err Private else
  if v4_is_link_local a then Err LinkLocal else
  if v4_is_multicast a || v4_is_broadcast a then Err MulticastOrBroadcast else
  if (o0 a =? 100) && ((64 <=? o1 a) && (o1 a <? 128)) then Err Reserved else
  if (o0 a =? 0) || (240 <=? o0 a) then Err Reserved else
  if existsb (fun '(p0, p1, p2) => (o0 a =? p0) && (o1 a =? p1) && (o2 a =? p2))
       [(192, 0, 0); (192, 0, 2); (198, 51, 100); (203, 0, 113)] then Err Reserved else
  if (o0 a =? 198) && ((18 <=? o1 a) && (o1 a <? 20)) then Err Reserved else
  Ok tt.

Definition embedded_v4 (a : Ipv6Addr) : option Ipv4Addr :=
  if (s0 a =? 0) && (s1 a =? 0) && (s2 a =? 0) && (s3 a =? 0) && (s4 a =? 0) && (s5 a =? 0)
  then Some (v4_of_segments (s6 a) (s7 a))
  else if (s0 a =? 0x0064) && (s1 a =? 0xff9b) then Some (v4_of_segments (s6 a) (s7 a))
  else if s0 a =? 0x2002 then Some (v4_of_segments (s1 a) (s2 a))
  else None.

Definition check_v6 (a : Ipv6Addr) : result Refusal unit :=
  if v6_is_unspecified a then Err Unspecified else
  if v6_is_loopback a then Err Loopback else
  if v6_is_multicast a then Err MulticastOrBroadcast else
  match to_ipv4_mapped a with
  | Some v4 => check_v4 v4
  | None =>
    match embedded_v4 a with
    | Some v4 => check_v4 v4
    | None =>
      if (s0 a =? 0x2001) && (s1 a =? 0x0000) then Err Reserved else
      if Z.land (s0 a) 0xfe00 =? 0xfc00 then Err Private else
      if Z.land (s0 a) 0xffc0 =? 0xfe80 then Err LinkLocal else
      if (s0 a =? 0x2001) && (s1 a =? 0x0db8) then Err Reserved else
      Ok tt
    end
  end.

Definition check (addr : IpAddr) (allow_private : bool) : result Refusal unit :=
  if allow_private then Ok tt else
  match addr with V4 a => check_v4 a | V6 a => check_v6 a end.

(** ** [str::parse::<IpAddr>] *)

Definition to_digit (radix : Z) (c : byte) : option Z :=
  let z := Z_of_byte c in
  let d := if (48 <=? z) && (z <=? 57) then z - 48
           else if (97 <=? z) && (z <=? 122) then z - 87
           else if (65 <=? z) && (z <=? 90) then z - 55 else 36 in
  if d <? radix then Some d else None.

(** The digits at the start of the input: value, count, rest; [None] after
    more than [max_digits]. *)
Fixpoint read_digits (radix max_digits acc count : Z) (s : str) : option (Z * Z * str) :=
  match s with
  | c :: s' =>
      match to_digit radix c with
      | Some d =>
          if max_digits <? count + 1 then None
          else read_digits radix max_digits (acc * radix + d) (count + 1) s'
      | None => Some (acc, count, s)
      end
  | [] => Some (acc, count, [])
  end.

Definition read_number (radix max_digits limit : Z) (allow_zero_prefix : bool) (s : str)
    : option (Z * str) :=
  '(v, count, rest) ← read_digits radix max_digits 0 0 s;
  if count =? 0 then None else
  if negb allow_zero_prefix && starts_with (lit "0") s && (1 <? count) then None else
  if v <? limit then Some (v, rest) else None.

Definition read_char (c : byte) (s : str) : option str := strip_prefix [c] s.

Definition read_ipv4_addr (s : str) : option (Ipv4Addr * str) :=
  let octet := read_number 10 3 256 false in
  '(a, s) ← octet s; s ← read_char x2e s;
  '(b, s) ← octet s; s ← read_char x2e s;
  '(c, s) ← octet s; s ← read_char x2e s;
  '(d, s) ← octet s;
  Some (mkV4 a b c d, s).

(** [read_separator(':', index, inner)]. *)
Definition after_colon {A} (index : nat) (inner : str -> option (A * str)) (s : str)
    : option (A * str) :=
  match index with
  | O => inner s
  | S _ => s ← read_char x3a s; inner s
  end.

(** [read_groups] into a buffer of [limit] segments; [left] is what remains of
    it.  The flag tells whether the groups ended with an IPv4 address. *)
Fixpoint read_groups (left index : nat) (s : str) : list Z * bool * str :=
  match left with
  | O => ([], false, s)
  | S left' =>
      let v4 := match left' with
                | O => None
                | S _ => after_colon index read_ipv4_addr s
                end in
      match v4 with
      | Some (a, s') => ([o0 a * 256 + o1 a; o2 a * 256 + o3 a], true, s')
      | None =>
          match after_colon index (read_number 16 4 65536 true) s with
          | Some (g, s') =>
              let '(gs, v4, s'') := read_groups left' (S index) s' in (g :: gs, v4, s'')
          | None => ([], false, s)
          end
      end
  end.

Definition v6_of_groups (l : list Z) : option Ipv6Addr :=
  match l with
  | [a; b; c; d; e; f; g; h] => Some (mkV6 a b c d e f g h)
  | _ => None
  end.

Definition read_ipv6_addr (s : str) : option (Ipv6Addr * str) :=
  let '(head, head_v4, s1) := read_groups 8 0 s in
  if (length head =? 8)%nat then a ← v6_of_groups head; Some (a, s1) else
  if head_v4 then None else
  s2 ← strip_prefix (lit "::") s1;
  let '(tail, _, s3) := read_groups (8 - (length head + 1)) 0 s2 in
  a ← v6_of_groups (head ++ replicate (8 - length head - length tail) 0 ++ tail);
  Some (a, s3).

Definition parse_ip (s : str) : option IpAddr :=
  match read_ipv4_addr s with
  | Some (a, rest) => if bool_decide (rest = []) then Some (V4 a) else None
  | None =>
      match read_ipv6_addr s with
      | Some (a, rest) => if bool_decide (rest = []) then Some (V6 a) else None
      | None => None
      end
  end.

Example parse_ip_v4 : parse_ip (lit "169.254.169.254") = Some (V4 (mkV4 169 254 169 254)).
Proof. reflexivity. Qed.
Example parse_ip_leading_zero : parse_ip (lit "127.0.0.01") = None.
Proof. reflexivity. Qed.
Example parse_ip_v6 : parse_ip (lit "64:ff9b::7f00:1") =
  Some (V6 (mkV6 0x64 0xff9b 0 0 0 0 0x7f00 1)).
Proof. reflexivity. Qed.
Example parse_ip_v6_mapped : parse_ip (lit "::ffff:192.168.1.1") =
  Some (V6 (mkV6 0 0 0 0 0 0xffff 0xc0a8 0x0101)).
Proof. reflexivity. Qed.
Example parse_ip_v6_short : parse_ip (lit "::") = Some (V6 (mkV6 0 0 0 0 0 0 0 0)).
Proof. reflexivity. Qed.

(** ** The reference: address blocks in CIDR form *)

Definition v4_value (a : Ipv4Addr) : Z :=
  o0 a * 2 ^ 24 + o1 a * 2 ^ 16 + o2 a * 2 ^ 8 + o3 a.

(** [value] is in [base/prefix]. *)
Definition in_block (base : Ipv4Addr) (plen : Z) (a : Ipv4Addr) : bool :=
  v4_value a / 2 ^ (32 - plen) =? v4_value base / 2 ^ (32 - plen).

Definition BLOCKS : list (Ipv4Addr * Z * Refusal) :=
  [ (mkV4 0 0 0 0, 32, Unspecified);
    (mkV4 127 0 0 0, 8, Loopback);
    (mkV4 10 0 0 0, 8, Private);
    (mkV4 172 16 0 0, 12, Private);
    (mkV4 192 168 0 0, 16, Private);
    (mkV4 169 254 0 0, 16, LinkLocal);
    (mkV4 224 0 0 0, 4, MulticastOrBroadcast);
    (mkV4 255 255 255 255, 32, MulticastOrBroadcast);
    (mkV4 100 64 0 0, 10, Reserved);
    (mkV4 0 0 0 0, 8, Reserved);
    (mkV4 240 0 0 0, 4, Reserved);
    (mkV4 192 0 0 0, 24, Reserved);
    (mkV4 192 0 2 0, 24, Reserved);
    (mkV4 198 51 100 0, 24, Reserved);
    (mkV4 203 0 113 0, 24, Reserved);
    (mkV4 198 18 0 0, 15, Reserved) ].

Fixpoint first_block (l : list (Ipv4Addr * Z * Refusal)) (a : Ipv4Addr) : result Refusal unit :=
  match l with
  | [] => Ok tt
  | (base, plen, r) :: l' => if in_block base plen a then Err r else first_block l' a
  end.

(** Membership in a block, as a condition on the octets. *)
Lemma div_by_bounds a q n : 0 < n -> a / n = q <-> q * n <= a < (q + 1) * n.
Proof. intros Hn. pose proof (Z.div_mod a n). pose proof (Z.mod_pos_bound a n Hn). split; nia. Qed.

Lemma in_block_iff base plen a :
  0 <= plen <= 32 ->
  let n := 2 ^ (32 - plen) in
  let q := v4_value base / n in
  in_block base plen a = (q * n <=? v4_value a) && (v4_value a <? (q + 1) * n).
Proof.
  intros Hp n q. unfold in_block. fold n. fold q.
  assert (0 < n) by (apply Z.pow_pos_nonneg; lia).
  apply eq_true_iff_eq. rewrite andb_true_iff, Z.eqb_eq, Z.leb_le, Z.ltb_lt.
  by apply div_by_bounds.
Qed.

Ltac block_bounds :=
  match goal with |- context [in_block ?b ?p ?a] =>
    rewrite (in_block_iff b p a) by lia;
    let q := eval vm_compute in (v4_value b / 2 ^ (32 - p)) in
    let n := eval vm_compute in (2 ^ (32 - p)) in
    change (v4_value b / 2 ^ (32 - p)) with q; change (2 ^ (32 - p)) with n end.

Lemma if_cascade {A} (b1 b2 : bool) (x y z : A) :
  b1 = b2 -> (b2 = false -> y = z) -> (if b1 then x else y) = (if b2 then x else z).
Proof. intros -> H. destruct b2; auto. Qed.

Lemma if_or {A} (b1 b2 : bool) (x y : A) :
  (if b1 || b2 then x else y) = (if b1 then x else if b2 then x else y).
Proof. by destruct b1, b2. Qed.

(** Turn a boolean identity between comparisons into linear arithmetic. *)
Ltac bool_lia :=
  apply eq_true_iff_eq;
  repeat first [ rewrite andb_true_iff | rewrite orb_true_iff | rewrite Z.eqb_eq
               | rewrite Z.leb_le | rewrite Z.ltb_lt ];
  lia.

Lemma check_v4_blocks a : v4_ok a -> check_v4 a = first_block BLOCKS a.
Proof.
  destruct a as [a b c d]. intros (Ha & Hb & Hc & Hd). unfold in_u in *. cbn [o0 o1 o2 o3] in *.
  change (2 ^ 8) with 256 in *.
  unfold check_v4, v4_is_private, BLOCKS. cbn [existsb first_block].
  rewrite !if_or.
  unfold v4_is_unspecified, v4_is_loopback, v4_is_link_local, v4_is_multicast, v4_is_broadcast.
  repeat block_bounds. unfold v4_value. cbn [o0 o1 o2 o3].
  repeat (apply if_cascade; [clear -Ha Hb Hc Hd; bool_lia | intros _]).
  done.
Qed.

(** C20: the IPv4 guard is the CIDR table.  For every address, the cascade of
    octet tests gives the verdict, and the reason, of the first block of the
    table that contains it, and permits exactly the addresses in no block. *)
Theorem guard_v4_reference a :
  v4_ok a ->
  check (V4 a) false = first_block BLOCKS a /\
  (check (V4 a) false = Ok tt <-> Forall (fun '(base, plen, _) => in_block base plen a = false) BLOCKS).
Proof.
  intros Ha. unfold check. rewrite check_v4_blocks by done. split; [done|].
  induction BLOCKS as [|[[base plen] r] l IH]; cbn [first_block]; [done|].
  rewrite Forall_cons. destruct (in_block base plen a).
  - split; [done|]. by intros [].
  - rewrite IH. tauto.
Qed.

(** *** IPv6 forms that carry an IPv4 address *)

Definition seg (hi lo : Z) : Z := hi * 256 + lo.

Definition v6_mapped (a : Ipv4Addr) : Ipv6Addr :=
  mkV6 0 0 0 0 0 0xffff (seg (o0 a) (o1 a)) (seg (o2 a) (o3 a)).
Definition v6_compatible (a : Ipv4Addr) : Ipv6Addr :=
  mkV6 0 0 0 0 0 0 (seg (o0 a) (o1 a)) (seg (o2 a) (o3 a)).
Definition v6_nat64 (a : Ipv4Addr) : Ipv6Addr :=
  mkV6 0x64 0xff9b 0 0 0 0 (seg (o0 a) (o1 a)) (seg (o2 a) (o3 a)).
Definition v6_6to4 (a : Ipv4Addr) (d e f g h : Z) : Ipv6Addr :=
  mkV6 0x2002 (seg (o0 a) (o1 a)) (seg (o2 a) (o3 a)) d e f g h.

Lemma v4_of_seg a : v4_ok a -> v4_of_segments (seg (o0 a) (o1 a)) (seg (o2 a) (o3 a)) = a.
Proof.
  destruct a as [a b c d]. unfold v4_ok, in_u. cbn [o0 o1 o2 o3].
  intros (Ha & Hb & Hc & Hd). unfold v4_of_segments, seg, wrap.
  rewrite !Z.shiftr_div_pow2 by lia. change (2 ^ 8) with 256 in *.
  f_equal; [| | |]; rewrite ?Z.div_add_l, ?Z.div_small, ?Z.add_0_r by lia;
    first [apply Z.mod_small; lia | rewrite Z.add_comm, Z.mod_add by lia; apply Z.mod_small; lia].
Qed.

(** A mask of the top bits of a 16-bit segment is a division. *)
Lemma land_top_bits s n :
  in_u 16 s -> 0 <= n <= 16 -> Z.land s (Z.shiftl (Z.ones (16 - n)) n) = s / 2 ^ n * 2 ^ n.
Proof.
  intros Hs Hn. unfold in_u in Hs. rewrite <- Z.shiftr_div_pow2, <- Z.shiftl_mul_pow2 by lia.
  apply Z.bits_inj'. intros i Hi. rewrite Z.land_spec, !Z.shiftl_spec by lia.
  destruct (Z.ltb_spec i n).
  - rewrite !(Z.testbit_neg_r _ (i - n)) by lia. by rewrite andb_false_r.
  - rewrite Z.shiftr_spec by lia. replace (i - n + n) with i by lia.
    destruct (Z.ltb_spec i 16).
    + rewrite Z.ones_spec_low by lia. by rewrite andb_true_r.
    + assert (Z.testbit s i = false) as ->; [|done].
      destruct (Z.eq_dec s 0) as [->|]; [apply Z.bits_0|].
      apply Z.bits_above_log2; [lia|]. assert (Z.log2 s < 16); [|lia].
      apply Z.log2_lt_pow2; lia.
Qed.

Lemma mask_test s n base :
  in_u 16 s -> 0 <= n <= 16 -> base = base / 2 ^ n * 2 ^ n ->
  (Z.land s (Z.shiftl (Z.ones (16 - n)) n) =? base) = (s / 2 ^ n =? base / 2 ^ n).
Proof.
  intros Hs Hn Hb. rewrite land_top_bits by done.
  assert (0 < 2 ^ n) by (apply Z.pow_pos_nonneg; lia).
  destruct (Z.eqb_spec (s / 2 ^ n) (base / 2 ^ n)) as [->|Hne].
  - apply Z.eqb_eq. lia.
  - apply Z.eqb_neq. rewrite Hb. nia.
Qed.

(** C21: no IPv6 disguise gets an internal IPv4 address past the guard.  The
    IPv4-mapped, NAT64 and 6to4 forms of an address are judged exactly as the
    address itself, and the IPv4-compatible form is permitted only if it is. *)
Theorem guard_sees_through_embedding a d e f g h :
  v4_ok a ->
  check (V6 (v6_mapped a)) false = check (V4 a) false /\
  check (V6 (v6_nat64 a)) false = check (V4 a) false /\
  check (V6 (v6_6to4 a d e f g h)) false = check (V4 a) false /\
  is_ok (check (V6 (v6_compatible a)) false) = is_ok (check (V4 a) false).
Proof.
  intros Ha. pose proof (v4_of_seg a Ha) as Hs.
  unfold check, check_v6, v6_is_unspecified, v6_is_loopback, v6_is_multicast, to_ipv4_mapped,
    embedded_v4, v6_mapped, v6_nat64, v6_6to4, v6_compatible.
  cbn [s0 s1 s2 s3 s4 s5 s6 s7]. rewrite Hs.
  split; [reflexivity|]. split; [reflexivity|]. split; [reflexivity|].
  change (Z.land 0 0xff00 =? 0xff00) with false. cbn [Z.eqb andb].
  destruct a as [x y z w]. destruct Ha as (Hx & Hy & Hz & Hw).
  unfold in_u in *. cbn [o0 o1 o2 o3] in *. unfold seg.
  destruct (Z.eqb_spec (x * 256 + y) 0); cbn [andb]; [|done].
  assert (x = 0 /\ y = 0) as [-> ->] by lia.
  destruct (Z.eqb_spec (z * 256 + w) 0); cbn [andb].
  { assert (z = 0 /\ w = 0) as [-> ->] by lia. reflexivity. }
  destruct (Z.eqb_spec (z * 256 + w) 1); [|done].
  assert (z = 0 /\ w = 1) as [-> ->] by lia. reflexivity.
Qed.

(** A permitted IPv6 address is in none of the refused blocks: not
    unspecified or loopback, not multicast (ff00::/8), unique-local
    (fc00::/7), link-local (fe80::/10), Teredo (2001::/32) or documentation
    (2001:db8::/32). *)
Theorem guard_v6_blocks a :
  v6_ok a -> check (V6 a) false = Ok tt ->
  v6_is_unspecified a = false /\ v6_is_loopback a = false /\
  s0 a / 2 ^ 8 <> 0xff /\ s0 a / 2 ^ 9 <> 0xfc00 / 2 ^ 9 /\ s0 a / 2 ^ 6 <> 0xfe80 / 2 ^ 6 /\
  ~ (s0 a = 0x2001 /\ (s1 a = 0 \/ s1 a = 0x0db8)).
Proof.
  intros (H0 & H1 & _). unfold check, check_v6.
  destruct (v6_is_unspecified a); [done|]. destruct (v6_is_loopback a); [done|].
  assert (v6_is_multicast a = (s0 a / 2 ^ 8 =? 0xff)) as -> by by apply (mask_test _ 8).
  destruct (Z.eqb_spec (s0 a / 2 ^ 8) 0xff); [done|].
  assert ((Z.land (s0 a) 0xfe00 =? 0xfc00) = (s0 a / 2 ^ 9 =? 0xfc00 / 2 ^ 9)) as ->
    by by apply (mask_test _ 9).
  assert ((Z.land (s0 a) 0xffc0 =? 0xfe80) = (s0 a / 2 ^ 6 =? 0xfe80 / 2 ^ 6)) as ->
    by by apply (mask_test _ 6).
  unfold to_ipv4_mapped, embedded_v4. unfold in_u in *.
  intros Hok. split; [done|]. split; [done|]. split; [done|].
  assert (s0 a = 0 \/ s0 a = 0x64 \/ s0 a = 0x2002 \/
    ((s0 a =? 0) = false /\ (s0 a =? 0x64) = false /\ (s0 a =? 0x2002) = false))
    as [E|[E|[E|(E1 & E2 & E3)]]].
  { destruct (Z.eqb_spec (s0 a) 0); [by left|]. destruct (Z.eqb_spec (s0 a) 0x64); [by right; left|].
    destruct (Z.eqb_spec (s0 a) 0x2002); [by do 2 right; left|by do 3 right]. }
  1-3: rewrite E; change (0xfc00 / 2 ^ 9) with 126; change (0xfe80 / 2 ^ 6) with 1018;
    (split; [by vm_compute|split; [by vm_compute|lia]]).
  rewrite E1, E2, E3 in Hok. cbn [andb] in Hok.
  repeat match type of Hok with context [if ?b then _ else _] => destruct b eqn:?; [done|] end.
  rewrite !Z.eqb_neq in *. rewrite !andb_false_iff, !Z.eqb_neq in *. tauto.
Qed.

(** ** Witnesses *)

Lemma guard_v4_reference_witness :
  check (V4 (mkV4 169 254 169 254)) false = first_block BLOCKS (mkV4 169 254 169 254) /\
  check (V4 (mkV4 8 8 8 8)) false = Ok tt.
Proof.
  split.
  - apply guard_v4_reference. vm_compute. intuition discriminate.
  - apply (guard_v4_reference (mkV4 8 8 8 8)).
    + vm_compute. intuition discriminate.
    + repeat constructor.
Defined.

Lemma guard_sees_through_embedding_witness :
  check (V6 (v6_mapped (mkV4 192 168 1 1))) false = Err Private /\
  check (V6 (v6_6to4 (mkV4 192 168 1 1) 0 0 0 0 1)) false = Err Private.
Proof.
  destruct (guard_sees_through_embedding (mkV4 192 168 1 1) 0 0 0 0 1) as (H1 & _ & H2 & _).
  - vm_compute. intuition discriminate.
  - rewrite H1, H2. split; reflexivity.
Defined.

Lemma guard_v6_blocks_witness :
  let a := mkV6 0x2606 0x4700 0 0 0 0 0 0x1111 in
  check (V6 a) false = Ok tt /\ s0 a / 2 ^ 9 <> 0xfc00 / 2 ^ 9.
Proof.
  intros a. split; [reflexivity|].
  assert (v6_ok a) as Ha by (vm_compute; intuition discriminate).
  destruct (guard_v6_blocks a Ha eq_refl) as (_ & _ & _ & H & _). exact H.
Defined.
