(* ===== verification/Resolver.v ===== *)
(** * The dedicated upstream resolver

    Models [crates/cachic/src/upstream/resolver.rs].  The DNS client
    ([hickory]) is a crate of its own: [lookup_ip] is a parameter that answers
    a hostname with a list of addresses or an error.  The counter of guard
    refusals is the state the resolver keeps. *)

From S2P Require Import Prelude.
From S2P Require Import RustStr.
From S2P Require Import Guard.

Open Scope Z_scope.

Definition DNS_PORT : Z := 53.

Inductive ResolveError :=
  | NoResolvers
  | RBuild
  | Lookup (host : str)
  | NoAddresses (host : str)
  | Refused (host : str) (refusal : Refusal).

(** A labelled counter: [with_label_values(&[label]).inc()]. *)
Abbreviation Counter := (gmap str Z).
Definition counter_inc (label : str) (c : Counter) : Counter :=
  <[label := wrap64 (default 0 (c !! label) + 1)]> c.

Record UpstreamResolver := mkResolver {
  ur_servers : list SocketAddr;
  ur_allow_private : bool;
  ur_metrics : option Counter }.

Definition with_servers (servers : list SocketAddr) (allow_private : bool)
    : result ResolveError UpstreamResolver :=
  match servers with
  | [] => Err NoResolvers
  | _ => Ok (mkResolver servers allow_private None)
  end.

Definition resolver_new (servers : list IpAddr) (allow_private : bool)
    : result ResolveError UpstreamResolver :=
  with_servers (map (fun ip => mkSocketAddr ip DNS_PORT) servers) allow_private.

Definition resolver_with_metrics (r : UpstreamResolver) (m : Counter) : UpstreamResolver :=
  mkResolver (ur_servers r) (ur_allow_private r) (Some m).

Definition count_refusal (r : UpstreamResolver) (refusal : Refusal) : UpstreamResolver :=
  mkResolver (ur_servers r) (ur_allow_private r)
    (counter_inc (refusal_reason refusal) <$> ur_metrics r).

(** The loop over the answers: those allowed, the first refusal, and whether
    there was any answer. *)
Fixpoint guard_all (allow_private : bool) (port : Z) (ips : list IpAddr)
    : list SocketAddr * option Refusal :=
  match ips with
  | [] => ([], None)
  | ip :: ips' =>
      let '(allowed, refusal) := guard_all allow_private port ips' in
      match check ip allow_private with
      | Ok _ => (mkSocketAddr ip port :: allowed, refusal)
      | Err r => (allowed, Some r)
      end
  end.

Section Resolve.
(** [TokioResolver::lookup_ip] over the configured servers. *)
Context (lookup_ip : list SocketAddr -> str -> option (list IpAddr)).

Definition resolve (r : UpstreamResolver) (host : str) (port : Z)
    : result ResolveError (list SocketAddr) * UpstreamResolver :=
  match parse_ip host with
  | Some ip =>
      match check ip (ur_allow_private r) with
      | Ok _ => (Ok [mkSocketAddr ip port], r)
      | Err refusal => (Err (Refused host refusal), count_refusal r refusal)
      end
  | None =>
      match lookup_ip (ur_servers r) host with
      | None => (Err (Lookup host), r)
      | Some [] => (Err (NoAddresses host), r)
      | Some ips =>
          match guard_all (ur_allow_private r) port ips with
          | ([], first_refusal) =>
              let refusal := default Private first_refusal in
              (Err (Refused host refusal), count_refusal r refusal)
          | (allowed, _) => (Ok allowed, r)
          end
      end
  end.

(** What [reqwest] dials: the same lookup, with port 0. *)
Definition guarded_resolve (r : UpstreamResolver) (name : str)
    : result ResolveError (list SocketAddr) * UpstreamResolver :=
  resolve r name 0.

(** The candidate addresses of a host. *)
Definition answers (r : UpstreamResolver) (host : str) : list IpAddr :=
  match parse_ip host with
  | Some ip => [ip]
  | None => default [] (lookup_ip (ur_servers r) host)
  end.

Definition permitted (r : UpstreamResolver) (ip : IpAddr) : bool :=
  is_ok (check ip (ur_allow_private r)).

Lemma guard_all_allowed allow port ips :
  (guard_all allow port ips).1 =
  (fun ip => mkSocketAddr ip port) <$> filter (fun ip => is_ok (check ip allow) = true) ips.
Proof using Type.
  induction ips as [|ip ips IH]; [done|]. cbn [guard_all]. rewrite filter_cons.
  destruct (guard_all allow port ips) as [allowed refusal]. cbn [fst] in IH.
  destruct (check ip allow); simpl; [|done]. by rewrite IH.
Qed.

Lemma guard_all_refusal allow port ips r :
  (guard_all allow port ips).2 = Some r ->
  exists ip, ip ∈ ips /\ check ip allow = Err r.
Proof using Type.
  induction ips as [|ip ips IH]; [done|]. cbn [guard_all].
  destruct (guard_all allow port ips) as [allowed refusal]. cbn [snd] in *.
  destruct (check ip allow) eqn:E.
  - intros H. destruct (IH H) as (ip' & ? & ?). exists ip'. split; [|done].
    by apply list_elem_of_further.
  - intros [= ->]. exists ip. split; [apply list_elem_of_here|done].
Qed.

Lemma resolve_guards_alike r host port res r' :
  resolve r host port = (res, r') -> ur_allow_private r' = ur_allow_private r.
Proof using Type.
  unfold resolve. destruct (parse_ip host) as [ip|].
  - destruct (check ip (ur_allow_private r)); by intros [= <- <-].
  - destruct (lookup_ip (ur_servers r) host) as [[|ip ips]|]; [by intros [= <- <-]| |by intros [= <- <-]].
    destruct (guard_all _ _ _) as [[|b allowed] refusal]; by intros [= <- <-].
Qed.

Lemma resolve_ok r host port addrs r' :
  resolve r host port = (Ok addrs, r') ->
  addrs <> [] /\ forall a, a ∈ addrs -> sa_port a = port /\
    sa_ip a ∈ answers r host /\ check (sa_ip a) (ur_allow_private r) = Ok tt.
Proof using Type.
  unfold resolve, answers. destruct (parse_ip host) as [ip|].
  - destruct (check ip (ur_allow_private r)) as [[]|] eqn:E; [|done]. intros [= <- <-].
    split; [done|]. intros a ->%list_elem_of_singleton. cbn.
    split; [done|]. split; [by apply list_elem_of_singleton|done].
  - destruct (lookup_ip (ur_servers r) host) as [[|ip ips]|]; [done| |done].
    set (all := ip :: ips). cbn [default].
    pose proof (guard_all_allowed (ur_allow_private r) port all) as Hall.
    destruct (guard_all (ur_allow_private r) port all) as [[|b allowed] refusal]; [done|].
    cbn [fst] in Hall. intros [= <- <-]. split; [done|]. intros a Ha. rewrite Hall in Ha.
    apply list_elem_of_fmap in Ha as (i & -> & [Hc Hi]%list_elem_of_filter). cbn.
    split; [done|]. split; [done|]. by destruct (check i (ur_allow_private r)) as [[]|].
Qed.

(** C22: every address the proxy dials has passed the guard.  A successful
    resolution returns exactly the permitted answers for the host, in the
    order of the answer and with the port asked for, and there is at least
    one; an answer with none is an error, never an empty list, and counts
    one refusal.  The addresses are those of the configured servers only. *)
Theorem resolve_returns_guarded r host port :
  match resolve r host port with
  | (Ok addrs, r') =>
      r' = r /\ addrs <> [] /\
      addrs = (fun ip => mkSocketAddr ip port) <$>
                filter (fun ip => permitted r ip = true) (answers r host)
  | (Err (Refused h refusal), r') =>
      h = host /\ r' = count_refusal r refusal /\ answers r host <> [] /\
      forall ip, ip ∈ answers r host -> permitted r ip = false
  | (Err _, r') => r' = r /\ (answers r host = [])
  end.
Proof using Type.
  unfold resolve, answers, permitted. destruct (parse_ip host) as [ip|].
  - destruct (check ip (ur_allow_private r)) eqn:E.
    + split; [done|]. split; [done|]. rewrite filter_cons, E. by rewrite decide_True.
    + split; [done|]. split; [done|]. split; [done|].
      intros ip' ->%list_elem_of_singleton. by rewrite E.
  - destruct (lookup_ip (ur_servers r) host) as [[|ip ips]|]; [done| |done].
    set (all := ip :: ips). cbn [default].
    pose proof (guard_all_allowed (ur_allow_private r) port all) as Hall.
    destruct (guard_all (ur_allow_private r) port all) as [[|a allowed] refusal]; cbn [fst] in Hall.
    + split; [done|]. split; [done|]. split; [done|]. intros ip' Hin.
      destruct (is_ok (check ip' (ur_allow_private r))) eqn:Ec; [|done].
      assert (ip' ∈ filter (fun ip => is_ok (check ip (ur_allow_private r)) = true) all) as Hf
        by by apply list_elem_of_filter.
      symmetry in Hall. apply fmap_nil_inv in Hall. rewrite Hall in Hf.
      by apply not_elem_of_nil in Hf.
    + split; [done|]. split; [done|]. exact Hall.
Qed.
End Resolve.

(** The reported reason is the last one met going backwards, i.e. the first
    refusal in the order of the answer. *)
Lemma guard_all_first_refusal allow port pre ip post r :
  (forall i, i ∈ pre -> check i allow = Ok tt) -> check ip allow = Err r ->
  (guard_all allow port (pre ++ ip :: post)).2 = Some r.
Proof.
  intros Hpre Hip. induction pre as [|i pre IH]; cbn [app guard_all].
  - destruct (guard_all allow port post). by rewrite Hip.
  - rewrite Hpre by apply list_elem_of_here.
    destruct (guard_all allow port (pre ++ ip :: post)) as [x y]. cbn [snd] in *.
    apply IH. intros j Hj. apply Hpre. by apply list_elem_of_further.
Qed.
