(* ===== verification/Client.v ===== *)
(** * The upstream HTTP client

    Models [crates/cachic/src/upstream/client.rs]: the response accessors, the
    ranged fetch with its retries, redirect refusal and body ceiling, the
    streaming fetch, and the in-flight permits.

    [reqwest] is a crate of its own: [send] is a parameter that answers the
    [n]-th attempt of a request with a transport error or with a response whose
    body is the sequence of chunks it will yield.  Parsing a URL into host and
    port is [url]'s and is a parameter too. *)

From S2P Require Import Prelude.
From S2P Require Import RustStr.
From S2P Require Import Guard.
From S2P Require Import Resolver.

Open Scope Z_scope.

(** ** HTTP data *)

Abbreviation StatusCode := Z.
Definition OK_200 : StatusCode := 200.
Definition PARTIAL_CONTENT : StatusCode := 206.
Definition BAD_REQUEST : StatusCode := 400.
Definition is_success (s : StatusCode) : bool := (200 <=? s) && (s <? 300).
Definition is_redirection (s : StatusCode) : bool := (300 <=? s) && (s <? 400).
Definition is_server_error (s : StatusCode) : bool := (500 <=? s) && (s <? 600).

(** [HeaderMap]: names are lower case; a name may carry several values. *)
Abbreviation HeaderMap := (list (str * bytes)).

Definition header_get (h : HeaderMap) (name : str) : option bytes :=
  snd <$> find (fun p => bool_decide (p.1 = name)) h.

(** [HeaderValue::to_str]: visible ASCII, space and tab. *)
Definition value_char (b : byte) : bool :=
  ((32 <=? Z_of_byte b) && (Z_of_byte b <? 127)) || (Z_of_byte b =? 9).
Definition to_str (v : bytes) : option str := if forallb value_char v then Some v else None.

Definition header_str (h : HeaderMap) (name : str) : option str :=
  header_get h name ≫= to_str.

(** What the code asks of a [reqwest::Error]. *)
Record ReqwestError := mkReqwestError {
  re_is_timeout : bool;
  re_is_connect : bool;
  re_is_request : bool }.

Inductive UpstreamError :=
  | BodyTooLarge (url : str) (limit : Z)
  | UBuild
  | Resolve (e : ResolveError)
  | Request (url : str) (source : ReqwestError)
  | Status (url : str) (status : StatusCode)
  | Redirect (url location : str).

Record UpstreamResponse := mkUpstreamResponse {
  up_status : StatusCode;
  up_headers : HeaderMap;
  up_body : bytes }.

Definition response_header (r : UpstreamResponse) (name : str) : option str :=
  header_str (up_headers r) name.

Definition content_length (r : UpstreamResponse) : option Z :=
  v ← response_header r (lit "content-length"); parse_u64 (trim v).

Definition content_range_total (r : UpstreamResponse) : option Z :=
  v ← response_header r (lit "content-range");
  '(_, total) ← rsplit_once x2f v;
  parse_u64 (trim total).

(** ** Configuration *)

Definition DEFAULT_MAX_BODY_BYTES : Z := 64 * 1024 * 1024.
Definition RANGE_SLACK : Z := 64 * 1024.

(** Durations in milliseconds. *)
Record ClientConfig := mkClientConfig {
  cc_connect_timeout : Z;
  cc_request_timeout : Z;
  cc_retries : nat;
  cc_max_inflight : Z;
  cc_per_service_inflight : gmap str Z;
  cc_max_body_bytes : Z }.

Definition client_config_default : ClientConfig :=
  mkClientConfig 10000 120000 1 256 ∅ DEFAULT_MAX_BODY_BYTES.

(** ** The wire, as parameters *)

(** A response as [send] returns it: the head, the length it declares and the
    chunks its body will yield. *)
Record RawResponse := mkRawResponse {
  raw_status : StatusCode;
  raw_headers : HeaderMap;
  raw_content_length : option Z;
  raw_chunks : list (result ReqwestError bytes) }.

Definition location_of (h : HeaderMap) : str := default [] (header_str h (lit "location")).

(** The buffering loop of [fetch_range]. *)
Fixpoint buffer_body (url : str) (limit : Z) (body : bytes)
    (chunks : list (result ReqwestError bytes)) : result UpstreamError bytes :=
  match chunks with
  | [] => Ok body
  | Ok chunk :: rest =>
      if limit <? len body + len chunk then Err (BodyTooLarge url limit)
      else buffer_body url limit (body ++ chunk) rest
  | Err source :: _ => Err (Request url source)
  end.

Definition body_limit (cfg : ClientConfig) (start end_ : Z) : Z :=
  let expected := sat_add 64 (sat_sub end_ start) 1 in
  Z.min (sat_add 64 expected RANGE_SLACK) (cc_max_body_bytes cfg).

(** What [fetch_range] makes of an answer. *)
Definition accept_range (cfg : ClientConfig) (url : str) (start end_ : Z) (r : RawResponse)
    : result UpstreamError UpstreamResponse :=
  let status := raw_status r in
  if is_redirection status then Err (Redirect url (location_of (raw_headers r))) else
  if negb (is_success status) then Err (Status url status) else
  if negb (status =? PARTIAL_CONTENT) then Ok (mkUpstreamResponse status (raw_headers r) []) else
  let limit := body_limit cfg start end_ in
  if match raw_content_length r with Some declared => limit <? declared | None => false end
  then Err (BodyTooLarge url limit) else
  body ← buffer_body url limit [] (raw_chunks r);
  Ok (mkUpstreamResponse status (raw_headers r) body).

Definition range_request_headers (headers : HeaderMap) (start end_ : Z) : HeaderMap :=
  (lit "range", lit "bytes=" ++ to_dec start ++ lit "-" ++ to_dec end_) :: headers.

Section Fetch.
(** [reqwest::Url::parse], [host_str] and [port_or_known_default]. *)
Context (parse_url : str -> option (str * option Z)).
Context (lookup_ip : list SocketAddr -> str -> option (list IpAddr)).
(** The [n]-th attempt at [GET url] with these headers. *)
Context (send : nat -> str -> HeaderMap -> result ReqwestError RawResponse).

Definition check_host (r : UpstreamResolver) (host : str) (port : Z)
    : result UpstreamError unit * UpstreamResolver :=
  match resolve lookup_ip r host port with
  | (Ok _, r') => (Ok tt, r')
  | (Err e, r') => (Err (Resolve e), r')
  end.

Definition check_url (r : UpstreamResolver) (url : str)
    : result UpstreamError unit * UpstreamResolver :=
  match parse_url url with
  | None => (Err (Status url BAD_REQUEST), r)
  | Some (host, port) => check_host r host (default 80 port)
  end.

(** The retry loop: the result and the number of requests sent. *)
Fixpoint attempts (cfg : ClientConfig) (url : str) (headers : HeaderMap) (start end_ : Z)
    (left attempt : nat) : result UpstreamError UpstreamResponse * nat :=
  match send attempt url (range_request_headers headers start end_) with
  | Ok r => (accept_range cfg url start end_ r, S attempt)
  | Err source =>
      if re_is_connect source || re_is_timeout source then
        match left with
        | S left' => attempts cfg url headers start end_ left' (S attempt)
        | O => (Err (Request url source), S attempt)
        end
      else (Err (Request url source), S attempt)
  end.

Definition fetch_range (cfg : ClientConfig) (r : UpstreamResolver) (url : str)
    (headers : HeaderMap) (start end_ : Z)
    : result UpstreamError UpstreamResponse * nat * UpstreamResolver :=
  match check_url r url with
  | (Err e, r') => (Err e, O, r')
  | (Ok _, r') => (attempts cfg url headers start end_ (cc_retries cfg) 0, r')
  end.

Definition fetch_stream (r : UpstreamResolver) (url : str) (headers : HeaderMap)
    : result UpstreamError (HeaderMap * list (result ReqwestError bytes)) * UpstreamResolver :=
  match check_url r url with
  | (Err e, r') => (Err e, r')
  | (Ok _, r') =>
      (match send 0 url headers with
       | Err source => Err (Request url source)
       | Ok resp =>
           let status := raw_status resp in
           if is_redirection status then Err (Redirect url (location_of (raw_headers resp))) else
           if negb (is_success status) then Err (Status url status) else
           Ok (raw_headers resp, raw_chunks resp)
       end, r')
  end.

(** ** Properties *)

Lemma buffer_body_Ok url limit chunks body out :
  buffer_body url limit body chunks = Ok out ->
  len body <= limit ->
  len out <= limit /\ exists cs, chunks = map Ok cs /\ out = body ++ concat cs.
Proof using Type.
  revert body. induction chunks as [|[c|e] chunks IH]; intros body; cbn [buffer_body]; [| |done].
  - intros [= <-] Hl. split; [done|]. exists []. by rewrite app_nil_r.
  - destruct (Z.ltb_spec limit (len body + len c)); [done|]. intros Hb Hl.
    destruct (IH _ Hb) as (Hlen & cs & -> & ->); [rewrite len_app; lia|].
    split; [done|]. exists (c :: cs). cbn [concat map]. by rewrite app_assoc.
Qed.

Lemma accept_range_Ok cfg url start end_ r resp :
  0 <= cc_max_body_bytes cfg -> 0 <= start -> 0 <= end_ ->
  accept_range cfg url start end_ r = Ok resp ->
  up_status resp = raw_status r /\ is_success (up_status resp) = true /\
  up_headers resp = raw_headers r /\ len (up_body resp) <= body_limit cfg start end_ /\
  (up_status resp <> PARTIAL_CONTENT -> up_body resp = []) /\
  (up_status resp = PARTIAL_CONTENT ->
     exists cs, raw_chunks r = map Ok cs /\ up_body resp = concat cs).
Proof using Type.
  intros Hmax Hs He. unfold accept_range.
  assert (0 <= body_limit cfg start end_) as Hlim.
  { unfold body_limit, RANGE_SLACK. width. }
  destruct (is_redirection (raw_status r)); [done|].
  destruct (is_success (raw_status r)) eqn:Es; cbn [negb]; [|done].
  destruct (Z.eqb_spec (raw_status r) PARTIAL_CONTENT) as [Ep|Ep]; cbn [negb].
  - destruct (match raw_content_length r with Some d => _ | None => _ end); [done|].
    destruct (buffer_body url (body_limit cfg start end_) [] (raw_chunks r)) as [b|] eqn:Eb; [|done].
    intros <-%Ok_inj. cbn [up_status up_headers up_body].
    apply buffer_body_Ok in Eb as (Hl & cs & -> & ->); [|done].
    do 5 (split; [done|]). intros _. by exists cs.
  - intros <-%Ok_inj. cbn [up_status up_headers up_body]. do 5 (split; [done|]). done.
Qed.

Lemma attempts_spec cfg url headers start end_ left attempt :
  let '(res, sent) := attempts cfg url headers start end_ left attempt in
  (S attempt <= sent <= S attempt + left)%nat /\
  (forall k, (attempt <= k < pred sent)%nat ->
     exists e, send k url (range_request_headers headers start end_) = Err e /\
       re_is_connect e || re_is_timeout e = true) /\
  match send (pred sent) url (range_request_headers headers start end_) with
  | Ok r => res = accept_range cfg url start end_ r
  | Err e => res = Err (Request url e) /\
      (re_is_connect e || re_is_timeout e = true -> sent = (S attempt + left)%nat)
  end.
Proof using Type.
  revert attempt. induction left as [|left IH]; intros attempt; cbn [attempts].
  - destruct (send attempt url _) as [r|e] eqn:E.
    + cbn [pred]. rewrite E. split; [lia|]. split; [lia|done].
    + destruct (re_is_connect e || re_is_timeout e) eqn:Ee; cbn [pred]; rewrite E;
        (split; [lia|split; [lia|]]); (split; [done|lia || congruence]).
  - destruct (send attempt url _) as [r|e] eqn:E.
    + cbn [pred]. rewrite E. split; [lia|]. split; [lia|done].
    + destruct (re_is_connect e || re_is_timeout e) eqn:Ee.
      * specialize (IH (S attempt)). destruct (attempts _ _ _ _ _ left (S attempt)) as [res sent].
        destruct IH as (Hn & Hk & Hres). split; [lia|]. split.
        -- intros k Hlt. destruct (decide (k = attempt)) as [->|]; [eauto|]. apply Hk. lia.
        -- destruct (send (pred sent) url _); [done|]. destruct Hres as [-> Hs].
           split; [done|]. intros He. specialize (Hs He). lia.
      * cbn [pred]. rewrite E. split; [lia|]. split; [lia|]. split; [done|congruence].
Qed.

End Fetch.

(** ** The in-flight permits

    A semaphore of [n] permits: what matters here is how many are taken. *)

Record Semaphore := mkSemaphore { sem_total : Z; sem_available : Z }.

Definition semaphore_new (n : Z) : Semaphore := mkSemaphore n n.
(** [None]: the caller waits. *)
Definition acquire (s : Semaphore) : option Semaphore :=
  if 0 <? sem_available s then Some (mkSemaphore (sem_total s) (sem_available s - 1)) else None.
Definition release (s : Semaphore) : Semaphore :=
  mkSemaphore (sem_total s) (sem_available s + 1).

Record Permits := mkPermits {
  pm_inflight : Semaphore;
  pm_per_service : gmap str Semaphore }.

Definition permits_new (cfg : ClientConfig) : Permits :=
  mkPermits (semaphore_new (cc_max_inflight cfg))
    ((fun limit => semaphore_new (Z.max limit 1)) <$> cc_per_service_inflight cfg).

(** [fetch_range]: the service's permit, if it has a limit, then the global one. *)
Definition service_permit (p : Permits) (service : str) : option Permits :=
  match pm_per_service p !! service with
  | None => Some p
  | Some s => s' ← acquire s; Some (mkPermits (pm_inflight p) (<[service := s']> (pm_per_service p)))
  end.
Definition global_permit (p : Permits) : option Permits :=
  s ← acquire (pm_inflight p); Some (mkPermits s (pm_per_service p)).
Definition release_service (p : Permits) (service : str) : Permits :=
  match pm_per_service p !! service with
  | None => p
  | Some s => mkPermits (pm_inflight p) (<[service := release s]> (pm_per_service p))
  end.
Definition release_global (p : Permits) : Permits :=
  mkPermits (release (pm_inflight p)) (pm_per_service p).

Definition available_permits (p : Permits) : Z := sem_available (pm_inflight p).
Definition service_permits (p : Permits) (service : str) : option Z :=
  sem_available <$> pm_per_service p !! service.

(** Where a fetch is: waiting for its service's permit, holding it and waiting
    for the global one, or sending with both. *)
Inductive FetchState := HoldsService (service : str) | HoldsBoth (service : str).

Inductive permit_step : Permits * list FetchState -> Permits * list FetchState -> Prop :=
  | step_take_service p fs service p' :
      service_permit p service = Some p' ->
      permit_step (p, fs) (p', HoldsService service :: fs)
  | step_take_global p pre post service p' :
      global_permit p = Some p' ->
      permit_step (p, pre ++ HoldsService service :: post)
                  (p', pre ++ HoldsBoth service :: post)
  | step_finish p pre post service :
      permit_step (p, pre ++ HoldsBoth service :: post)
                  (release_service (release_global p) service, pre ++ post).

Definition in_service (service : str) (f : FetchState) : bool :=
  match f with HoldsService s | HoldsBoth s => bool_decide (s = service) end.
Definition sending (f : FetchState) : bool :=
  match f with HoldsBoth _ => true | HoldsService _ => false end.

(** Every permit is either available or held by exactly one fetch. *)
Definition permits_inv (st : Permits * list FetchState) : Prop :=
  let '(p, fs) := st in
  sem_available (pm_inflight p) + count sending fs = sem_total (pm_inflight p) /\
  0 <= sem_available (pm_inflight p) /\
  forall service s, pm_per_service p !! service = Some s ->
    sem_available s + count (in_service service) fs = sem_total s /\ 0 <= sem_available s.

Lemma permits_inv_new cfg : 0 <= cc_max_inflight cfg -> permits_inv (permits_new cfg, []).
Proof.
  intros Hm. cbn [permits_inv permits_new pm_inflight semaphore_new sem_available sem_total].
  change (count sending []) with 0. split; [lia|]. split; [lia|]. intros service s.
  unfold permits_new. cbn [pm_per_service]. rewrite lookup_fmap.
  destruct (cc_per_service_inflight cfg !! service) as [n|]; [|done]. intros [= <-].
  unfold semaphore_new. cbn [sem_available sem_total]. change (count _ []) with 0. lia.
Qed.

Lemma acquire_Some s s' :
  acquire s = Some s' ->
  0 <= sem_available s' /\ sem_available s' = sem_available s - 1 /\ sem_total s' = sem_total s.
Proof.
  unfold acquire. destruct (Z.ltb_spec 0 (sem_available s)); [|done]. intros [= <-]. simpl. lia.
Qed.

Lemma take_service_inv p fs service p' :
  service_permit p service = Some p' -> permits_inv (p, fs) ->
  permits_inv (p', HoldsService service :: fs).
Proof.
  intros Hs (Hg & Hg0 & Hper). unfold permits_inv. unfold service_permit in Hs.
  destruct (pm_per_service p !! service) as [s|] eqn:Es.
  - destruct (acquire s) as [s'|] eqn:Ea; [|done]. apply acquire_Some in Ea as (Ha & Hd & Ht).
    injection Hs as <-. cbn [pm_inflight pm_per_service]. rewrite count_cons. cbn [sending].
    split; [lia|]. split; [lia|]. intros x sx Hx. rewrite count_cons. cbn [in_service].
    destruct (decide (service = x)) as [<-|Hne].
    + rewrite lookup_insert_eq in Hx. injection Hx as <-. rewrite bool_decide_eq_true_2 by done.
      specialize (Hper _ _ Es). lia.
    + rewrite lookup_insert_ne in Hx by done. rewrite bool_decide_eq_false_2 by done.
      specialize (Hper _ _ Hx). lia.
  - injection Hs as <-. rewrite count_cons. cbn [sending]. split; [lia|]. split; [lia|].
    intros x sx Hx. rewrite count_cons. cbn [in_service].
    rewrite bool_decide_eq_false_2 by congruence. specialize (Hper _ _ Hx). lia.
Qed.

Lemma take_global_inv p pre post service p' :
  global_permit p = Some p' -> permits_inv (p, pre ++ HoldsService service :: post) ->
  permits_inv (p', pre ++ HoldsBoth service :: post).
Proof.
  intros Hs (Hg & Hg0 & Hper). unfold global_permit in Hs.
  destruct (acquire (pm_inflight p)) as [s'|] eqn:Ea; [|done].
  apply acquire_Some in Ea as (Ha & Hd & Ht). injection Hs as <-.
  unfold permits_inv. cbn [pm_inflight pm_per_service].
  rewrite count_app, count_cons in Hg. rewrite count_app, count_cons. cbn [sending] in *.
  split; [lia|]. split; [lia|]. intros x sx Hx. specialize (Hper _ _ Hx).
  rewrite count_app, count_cons in Hper. rewrite count_app, count_cons. exact Hper.
Qed.

Lemma finish_inv p pre post service :
  permits_inv (p, pre ++ HoldsBoth service :: post) ->
  permits_inv (release_service (release_global p) service, pre ++ post).
Proof.
  intros (Hg & Hg0 & Hper). rewrite count_app, count_cons in Hg. cbn [sending] in Hg.
  unfold release_service, release_global, permits_inv. cbn [pm_per_service].
  destruct (pm_per_service p !! service) as [s|] eqn:Es;
    cbn [pm_inflight pm_per_service release sem_total sem_available]; rewrite count_app;
    (split; [lia|]); (split; [lia|]); intros x sx Hx.
  - destruct (decide (service = x)) as [<-|Hne].
    + rewrite lookup_insert_eq in Hx. injection Hx as <-. specialize (Hper _ _ Es).
      rewrite count_app, count_cons in Hper. cbn [in_service] in Hper.
      rewrite bool_decide_eq_true_2 in Hper by done. rewrite count_app. unfold release. simpl. lia.
    + rewrite lookup_insert_ne in Hx by done. specialize (Hper _ _ Hx).
      rewrite count_app, count_cons in Hper. cbn [in_service] in Hper.
      rewrite bool_decide_eq_false_2 in Hper by done. rewrite count_app. lia.
  - specialize (Hper _ _ Hx). rewrite count_app, count_cons in Hper. cbn [in_service] in Hper.
    rewrite bool_decide_eq_false_2 in Hper by congruence. rewrite count_app. lia.
Qed.

Lemma permits_inv_step st st' : permit_step st st' -> permits_inv st -> permits_inv st'.
Proof.
  destruct 1; eauto using take_service_inv, take_global_inv, finish_inv.
Qed.

Lemma permit_step_totals st st' :
  permit_step st st' ->
  sem_total (pm_inflight st'.1) = sem_total (pm_inflight st.1) /\
  (fun s => sem_total s) <$> pm_per_service st'.1 = (fun s => sem_total s) <$> pm_per_service st.1.
Proof.
  destruct 1 as [p fs service p' Hs|p pre post service p' Hs|p pre post service]; cbn [fst].
  - unfold service_permit in Hs. destruct (pm_per_service p !! service) as [s|] eqn:Es; [|by injection Hs as <-].
    destruct (acquire s) as [s'|] eqn:Ea; [|done]. apply acquire_Some in Ea as (_ & _ & Ht).
    injection Hs as <-. split; [done|]. cbn [pm_per_service]. rewrite fmap_insert, Ht.
    apply insert_id. by rewrite lookup_fmap, Es.
  - unfold global_permit in Hs. destruct (acquire (pm_inflight p)) as [s'|] eqn:Ea; [|done].
    apply acquire_Some in Ea as (_ & _ & Ht). by injection Hs as <-.
  - unfold release_service, release_global. cbn [pm_per_service].
    destruct (pm_per_service p !! service) as [s|] eqn:Es; [|done]. split; [done|].
    cbn [pm_per_service]. rewrite fmap_insert. apply insert_id. by rewrite lookup_fmap, Es.
Qed.

Lemma permit_reachable cfg st :
  0 <= cc_max_inflight cfg -> rtc permit_step (permits_new cfg, []) st ->
  permits_inv st /\ sem_total (pm_inflight st.1) = cc_max_inflight cfg /\
  (fun s => sem_total s) <$> pm_per_service st.1 =
    (fun limit => Z.max limit 1) <$> cc_per_service_inflight cfg.
Proof.
  intros Hm Hr. revert st Hr. apply rtc_ind_r.
  - split; [by apply permits_inv_new|]. split; [done|]. unfold permits_new. cbn [fst pm_per_service].
    by rewrite <- map_fmap_compose.
  - intros st1 st2 _ Hs (Hi & Ht & Hp). pose proof (permit_step_totals _ _ Hs) as [Ht' Hp'].
    split; [by eapply permits_inv_step|]. split; congruence.
Qed.

Lemma service_permits_exact cfg p fs service limit :
  permits_inv (p, fs) ->
  (fun s => sem_total s) <$> pm_per_service p =
    (fun limit => Z.max limit 1) <$> cc_per_service_inflight cfg ->
  cc_per_service_inflight cfg !! service = Some limit ->
  count (in_service service) fs <= Z.max limit 1 /\
  service_permits p service = Some (Z.max limit 1 - count (in_service service) fs).
Proof.
  intros (_ & _ & Hper) Hp Hl. assert (exists s, pm_per_service p !! service = Some s /\
    sem_total s = Z.max limit 1) as (s & Hs & Hts).
  { apply (f_equal (fun m => m !! service)) in Hp. rewrite !lookup_fmap, Hl in Hp.
    destruct (pm_per_service p !! service) as [s|]; [|done]. injection Hp as Hp. eauto. }
  unfold service_permits. rewrite Hs. cbn [fmap option_fmap option_map].
  specialize (Hper _ _ Hs). split; [lia|]. f_equal. lia.
Qed.


(** ** Witnesses *)

Definition toy_config : ClientConfig := mkClientConfig 0 0 1 2 {[ lit "steam" := 1 ]} 100.


(** An origin that answers the first attempt with a timeout and the second
    with a partial response. *)
Definition toy_send (n : nat) (url : str) (h : HeaderMap) : result ReqwestError RawResponse :=
  match n with
  | O => Err (mkReqwestError true false false)
  | _ => Ok (mkRawResponse 206 [(lit "content-range", lit "bytes 0-3/10")] (Some 4)
               [Ok (lit "ab"); Ok (lit "cd")])
  end.
Definition toy_parse_url (url : str) : option (str * option Z) := Some (lit "8.8.8.8", None).

