(* ===== verification/Filler.v ===== *)
(** * Object-level fills

    Models [crates/cachic/src/orchestrator/filler.rs] and the cutting loop of
    [Orchestrator::run_fill]: the progress a fill publishes, the registry that
    makes it a single flight per object, the wait for one slice, and how the
    streamed body is cut into slices.

    A [tokio::sync::watch] channel keeps only the latest value.  A receiver
    therefore observes some of the values published after it subscribed, in
    order, always including the last one before the sender goes away; [wait_for]
    is a function of the values observed. *)

From S2P Require Import Prelude.
From S2P Require Import RustStr.
From S2P Require Import SliceCodec.

Open Scope Z_scope.

(** ** Progress *)

Inductive Progress :=
  | Ready (count : Z)
  | Complete (count : Z)
  | Failed (reason : str).

Definition covers (p : Progress) (index : Z) : bool :=
  match p with
  | Ready count | Complete count => index <? count
  | Failed _ => false
  end.

Definition is_terminal (p : Progress) : bool :=
  match p with Ready _ => false | Complete _ | Failed _ => true end.

Definition never_produced (count index : Z) : str :=
  lit "fill completed with " ++ to_dec count ++ lit " slices; slice " ++ to_dec index ++
  lit " was never produced".
Definition abandoned : str := lit "the fill was abandoned without completing".

(** The values [borrow_and_update] sees, until the sender is dropped. *)
Fixpoint wait_for (seen : list Progress) (index : Z) : result str unit :=
  match seen with
  | [] => Err abandoned
  | p :: seen' =>
      if covers p index then Ok tt else
      match p with
      | Failed reason => Err reason
      | Complete count => Err (never_produced count index)
      | Ready _ => wait_for seen' index
      end
  end.

(** ** The registry

    [Arc<Fill>] is an identity in a heap of progress values, so that a
    subscriber's receiver outlives the registry's entry. *)

Abbreviation FillId := nat.

Record FillRegistry := mkFillRegistry {
  fr_fills : gmap ObjectId FillId;
  fr_heap : list Progress }.

Definition registry_new : FillRegistry := mkFillRegistry ∅ [].

Inductive Role := Filler (fill : FillId) | Subscriber (rx : FillId).

Definition claim (r : FillRegistry) (object : ObjectId) : Role * FillRegistry :=
  match fr_fills r !! object with
  | Some fill => (Subscriber fill, r)
  | None =>
      let fill := length (fr_heap r) in
      (Filler fill, mkFillRegistry (<[object := fill]> (fr_fills r)) (fr_heap r ++ [Ready 0]))
  end.

Definition send_replace (r : FillRegistry) (fill : FillId) (p : Progress) : FillRegistry :=
  mkFillRegistry (fr_fills r) (<[fill := p]> (fr_heap r)).
Definition publish r fill count := send_replace r fill (Ready count).
Definition complete r fill count := send_replace r fill (Complete count).
Definition fail r fill reason := send_replace r fill (Failed reason).
Definition progress (r : FillRegistry) (fill : FillId) : option Progress := fr_heap r !! fill.

Definition release_fill (r : FillRegistry) (object : ObjectId) : FillRegistry :=
  mkFillRegistry (delete object (fr_fills r)) (fr_heap r).

Definition active (r : FillRegistry) : Z := Z.of_nat (size (fr_fills r)).

(** ** Cutting the stream *)

(** The inner loop: full slices at the front of the buffer.  One unit of fuel
    per byte of the buffer is enough, since every slice takes at least one. *)
Fixpoint cut_full (fuel : nat) (slice_size : Z) (buffer : bytes) : list bytes * bytes :=
  match fuel with
  | O => ([], buffer)
  | S fuel' =>
      if slice_size <=? len buffer then
        let '(out, rest) := cut_full fuel' slice_size (drop (Z.to_nat slice_size) buffer) in
        (take (Z.to_nat slice_size) buffer :: out, rest)
      else ([], buffer)
  end.

(** The outer loop: the slices stored, in order, and how the stream ended. *)
Fixpoint cut_stream {E} (slice_size : Z) (buffer : bytes) (chunks : list (result E bytes))
    : list bytes * result E unit :=
  match chunks with
  | [] => (match buffer with [] => [] | _ => [buffer] end, Ok tt)
  | Err e :: _ => ([], Err e)
  | Ok chunk :: rest =>
      let '(out, buffer') := cut_full (length (buffer ++ chunk)) slice_size (buffer ++ chunk) in
      let '(out', res) := cut_stream slice_size buffer' rest in
      (out ++ out', res)
  end.

(** ** Lemmas on cutting *)

Lemma cut_full_spec fuel ss b :
  0 < ss -> (length b <= fuel)%nat ->
  let '(out, rest) := cut_full fuel ss b in
  b = concat out ++ rest /\ Forall (fun s => len s = ss) out /\ len rest < ss.
Proof.
  intros Hss. revert b. induction fuel as [|fuel IH]; intros b Hf; cbn [cut_full].
  - assert (b = []) as -> by (apply nil_length_inv; lia). by repeat constructor.
  - destruct (Z.leb_spec ss (len b)); [|by repeat constructor].
    unfold len in *. specialize (IH (drop (Z.to_nat ss) b)).
    destruct (cut_full fuel ss (drop (Z.to_nat ss) b)) as [out rest].
    destruct IH as (Hb & Ho & Hr); [rewrite length_drop; lia|].
    cbn [concat]. split; [|split; [|done]].
    + rewrite <- app_assoc, <- Hb. by rewrite take_drop.
    + constructor; [|done]. rewrite length_take. lia.
Qed.

(** The slices of a body: full ones, and a shorter last one if the length is
    not a multiple. *)
Definition slices_of (ss : Z) (body : bytes) (slices : list bytes) : Prop :=
  concat slices = body /\
  exists full last, slices = full ++ last /\ Forall (fun s => len s = ss) full /\
    (last = [] \/ exists s, last = [s] /\ 0 < len s < ss).

Lemma cut_stream_Ok {E} ss buffer (chunks : list (result E bytes)) slices :
  0 < ss -> len buffer < ss -> cut_stream ss buffer chunks = (slices, Ok tt) ->
  exists cs, chunks = map Ok cs /\ slices_of ss (buffer ++ concat cs) slices.
Proof.
  intros Hss. revert buffer slices. induction chunks as [|[c|e] chunks IH];
    intros buffer slices Hb; cbn [cut_stream]; [| |done].
  - intros [= <-]. exists []. split; [done|]. rewrite app_nil_r. destruct buffer as [|x b].
    + split; [done|]. exists [], []. split; [done|]. split; [constructor|by left].
    + split; [cbn [concat]; by rewrite app_nil_r|]. exists [], [x :: b]. split; [done|]. split; [constructor|].
      right. exists (x :: b). unfold len in *. cbn [length] in *. split; [done|]. lia.
  - pose proof (cut_full_spec (length (buffer ++ c)) ss (buffer ++ c) Hss ltac:(lia)) as Hc.
    destruct (cut_full _ ss (buffer ++ c)) as [out buffer'].
    destruct Hc as (Hcat & Hout & Hrest).
    destruct (cut_stream ss buffer' chunks) as [out' res] eqn:Es. intros [= <- ->].
    destruct (IH _ _ Hrest Es) as (cs & -> & Hcat' & full & last & -> & Hfull & Hlast).
    exists (c :: cs). split; [done|]. split.
    + rewrite concat_app, Hcat'. cbn [concat]. by rewrite !app_assoc, <- Hcat.
    + exists (out ++ full), last. split; [by rewrite app_assoc|]. split; [by apply Forall_app|done].
Qed.

(** Slice [i] of a body cut this way holds bytes [i*ss, (i+1)*ss) of it. *)
Lemma slices_of_lookup ss body slices i s :
  0 < ss -> slices_of ss body slices -> slices !! i = Some s ->
  s = slice (Z.of_nat i * ss) (Z.min ((Z.of_nat i + 1) * ss) (len body)) body.
Proof.
  intros Hss (Hcat & full & last & -> & Hfull & Hlast) Hi. subst body.
  assert (forall k (l : list bytes), Forall (fun s => len s = ss) l -> (k <= length l)%nat ->
    length (concat (take k l)) = (k * Z.to_nat ss)%nat) as Hlen.
  { intros k l Hl. revert k. induction Hl as [|x l Hx Hl IH]; intros [|k] Hk; [done|simpl in Hk; lia|done|].
    cbn [take concat]. rewrite length_app, IH by (simpl in Hk; lia). unfold len in Hx. lia. }
  assert (i <= length full)%nat as Hile.
  { apply lookup_lt_Some in Hi. rewrite length_app in Hi.
    destruct Hlast as [->|(x & -> & _)]; simpl in Hi; lia. }
  assert (concat (full ++ last) = concat (take i full) ++ s ++ concat (drop (S i) (full ++ last))) as Hsplit.
  { rewrite <- (take_drop_middle _ _ _ Hi) at 1. rewrite concat_app. cbn [concat].
    by rewrite take_app_le by done. }
  assert (len s <= ss /\ (len s < ss -> drop (S i) (full ++ last) = [])) as [Hs1 Hs2].
  { destruct (decide (i < length full)%nat) as [Hlt|Hge].
    - rewrite lookup_app_l in Hi by done. rewrite Forall_lookup in Hfull.
      rewrite (Hfull _ _ Hi). lia.
    - assert (i = length full) as -> by lia. rewrite lookup_app_r, Nat.sub_diag in Hi by lia.
      destruct Hlast as [->|(x & -> & Hx)]; [done|]. injection Hi as ->. split; [lia|].
      intros _. apply drop_ge. rewrite length_app. simpl. lia. }
  rewrite Hsplit. unfold slice.
  specialize (Hlen i full Hfull Hile).
  replace (Z.to_nat (Z.of_nat i * ss)) with (length (concat (take i full))) by lia.
  rewrite drop_app_length.
  rewrite !len_app. unfold len in *. rewrite Hlen.
  destruct (decide (Z.of_nat (length s) = ss)) as [E|Hne].
  - rewrite Z.min_l by lia. replace (Z.to_nat _) with (length s) by lia. by rewrite take_app_length.
  - rewrite (Hs2 ltac:(lia)). cbn [concat length]. rewrite app_nil_r.
    rewrite Z.min_r by lia. replace (Z.to_nat _) with (length s) by lia. by rewrite take_ge.
Qed.

Lemma slices_of_count ss body slices :
  0 < ss -> slices_of ss body slices -> len slices = (len body + ss - 1) / ss.
Proof.
  intros Hss (<- & full & last & -> & Hfull & Hlast).
  assert (len (concat full) = len full * ss) as Hf.
  { unfold len. induction Hfull as [|x l Hx Hl IH]; [done|]. cbn [concat length].
    rewrite length_app. unfold len in Hx. nia. }
  rewrite concat_app, !len_app, Hf. apply Z.div_unique_pos with
    (r := match last with [] => ss - 1 | s :: _ => len s - 1 end).
  - destruct Hlast as [->|(s & -> & Hs)]; lia.
  - destruct Hlast as [->|(s & -> & Hs)]; cbn [concat]; rewrite ?app_nil_r; unfold len in *;
      cbn [length]; nia.
Qed.

Lemma cut_stream_total {E} ss buffer cs :
  exists slices, @cut_stream E ss buffer (map Ok cs) = (slices, Ok tt).
Proof.
  revert buffer. induction cs as [|c cs IH]; intros buffer; cbn [map cut_stream]; [eauto|].
  destruct (cut_full _ ss (buffer ++ c)) as [out buffer'].
  destruct (IH buffer') as [slices ->]. eauto.
Qed.

(** A streamed fill cuts the body exactly.  However the origin splits the
    body into chunks, a fill of a stream that ends normally stores exactly
    ceil(length / slice size) slices, slice [i] holding bytes [i*ss] up to
    [(i+1)*ss] (or the end) of the body; concatenated they are the body. *)
Theorem fill_cuts_exactly {E} slice_size cs :
  0 < slice_size ->
  let body := concat cs in
  exists slices, @cut_stream E slice_size [] (map Ok cs) = (slices, Ok tt) /\
    concat slices = body /\
    len slices = (len body + slice_size - 1) / slice_size /\
    forall i s, slices !! i = Some s ->
      s = slice (Z.of_nat i * slice_size)
            (Z.min ((Z.of_nat i + 1) * slice_size) (len body)) body.
Proof.
  intros Hss body. destruct (@cut_stream_total E slice_size [] cs) as [slices Hs].
  exists slices. split; [done|].
  destruct (cut_stream_Ok slice_size [] _ slices Hss ltac:(by unfold len) Hs) as (cs' & Hcs & Hof).
  assert (cs' = cs) as ->.
  { clear -Hcs. revert cs' Hcs. induction cs as [|c cs IH]; intros [|c' cs'] H; try done.
    cbn [map] in H. injection H as -> H. f_equal. by apply IH. }
  split; [apply Hof|]. split; [by apply slices_of_count|].
  intros i s Hi. by eapply slices_of_lookup.
Qed.

(** Nobody waits for ever, and nobody is told a slice is there that is
    not.  Whatever values a subscriber observes of a fill that reached [k]
    slices, if it completed the wait for slice [i] succeeds exactly when
    [i < k]; if it failed the wait returns the failure unless a value covering
    [i] was observed first; and if the filler vanished the wait reports that. *)
Theorem wait_for_outcome k counts index reason :
  Forall (fun c => c <= k) counts ->
  wait_for (map Ready counts ++ [Complete k]) index =
    (if index <? k then Ok tt else Err (never_produced k index)) /\
  wait_for (map Ready counts ++ [Failed reason]) index =
    (if existsb (fun c => index <? c) counts then Ok tt else Err reason) /\
  wait_for (map Ready counts) index =
    (if existsb (fun c => index <? c) counts then Ok tt else Err abandoned) /\
  (existsb (fun c => index <? c) counts = true -> index < k).
Proof.
  induction 1 as [|c counts Hc Hcs IH]; cbn [map app wait_for covers existsb].
  - by destruct (index <? k).
  - destruct (Z.ltb_spec index c); cbn [orb]; [|done].
    destruct (Z.ltb_spec index k); [|lia]. by repeat split.
Qed.

(** ** Single flight

    [fillers] lists the fills in progress: the callers that were told to fill
    an object and have not released it. *)

Definition fillers_state : Type := FillRegistry * list (ObjectId * FillId).

Inductive fill_step : fillers_state -> fillers_state -> Prop :=
  | fs_claim_filler r fs o fill r' :
      claim r o = (Filler fill, r') -> fill_step (r, fs) (r', (o, fill) :: fs)
  | fs_claim_subscriber r fs o fill r' :
      claim r o = (Subscriber fill, r') -> fill_step (r, fs) (r', fs)
  | fs_publish r fs o fill p :
      (o, fill) ∈ fs -> fill_step (r, fs) (send_replace r fill p, fs)
  | fs_release r pre o fill post :
      fill_step (r, pre ++ (o, fill) :: post) (release_fill r o, pre ++ post).

Definition fillers_inv (st : fillers_state) : Prop :=
  let '(r, fs) := st in
  NoDup fs.*1 /\ (forall o fill, fr_fills r !! o = Some fill <-> (o, fill) ∈ fs) /\
  NoDup fs.*2 /\ (forall o fill, (o, fill) ∈ fs -> (fill < length (fr_heap r))%nat).

Lemma fillers_inv_step st st' : fill_step st st' -> fillers_inv st -> fillers_inv st'.
Proof.
  destruct 1 as [r fs o fill r' Hc|r fs o fill r' Hc|r fs o fill p Hin|r pre o fill post];
    intros (Hnd & Hiff & Hnd2 & Hlt); unfold claim in *.
  - destruct (fr_fills r !! o) as [f|] eqn:Ef; [done|]. injection Hc as <- <-.
    unfold fillers_inv. cbn [fr_fills fr_heap fmap list_fmap fst snd].
    assert (forall f, (o, f) ∉ fs) as Hno by (intros f Hin; apply Hiff in Hin; congruence).
    split; [|split; [|split]].
    + constructor; [|done]. intros ([o' f'] & -> & Hin)%list_elem_of_fmap. by eapply Hno.
    + intros o' f'. rewrite elem_of_cons. destruct (decide (o = o')) as [<-|Hne].
      * rewrite lookup_insert_eq. split; [intros [= <-]; by left|].
        intros [[= ->]|Hin]; [done|]. by apply Hno in Hin.
      * rewrite lookup_insert_ne by done. rewrite Hiff. naive_solver.
    + constructor; [|done]. intros ([o' f'] & Heq & Hin)%list_elem_of_fmap. cbn [snd] in Heq.
      apply Hlt in Hin. lia.
    + intros o' f'. rewrite length_app. cbn [length]. intros [[= -> ->]|Hin%Hlt]%elem_of_cons; lia.
  - destruct (fr_fills r !! o); [|done]. by injection Hc as <- <-.
  - split; [done|]. split; [done|]. split; [done|]. intros o' f' H%Hlt.
    cbn [send_replace fr_heap]. by rewrite length_insert.
  - rewrite fmap_app, fmap_cons in Hnd. rewrite fmap_app, fmap_cons in Hnd2. cbn [fst snd] in *.
    unfold fillers_inv, release_fill. cbn [fr_fills fr_heap]. rewrite !fmap_app.
    apply NoDup_app in Hnd as (Ha & Hb & Hc%NoDup_cons). destruct Hc as [Hc Hd].
    apply NoDup_app in Hnd2 as (Ha2 & Hb2 & Hc2%NoDup_cons). destruct Hc2 as [Hc2 Hd2].
    split; [|split; [|split]].
    + apply NoDup_app. split; [done|]. split; [|done]. intros x Hx Hx'. apply (Hb x Hx). by right.
    + intros o' f'. rewrite elem_of_app. destruct (decide (o = o')) as [<-|Hne].
      * rewrite lookup_delete_eq. split; [done|]. intros [Hin|Hin].
        -- exfalso. apply (Hb o); [apply list_elem_of_fmap; by exists (o, f')|by left].
        -- exfalso. apply Hc. apply list_elem_of_fmap. by exists (o, f').
      * rewrite lookup_delete_ne by done. rewrite Hiff, elem_of_app, elem_of_cons. naive_solver.
    + apply NoDup_app. split; [done|]. split; [|done]. intros x Hx Hx'. apply (Hb2 x Hx). by right.
    + intros o' f' Hin. apply (Hlt o'). rewrite elem_of_app, elem_of_cons. rewrite elem_of_app in Hin. tauto.
Qed.

Lemma fillers_reachable st : rtc fill_step (registry_new, []) st -> fillers_inv st.
Proof.
  revert st. apply rtc_ind_r.
  - split; [constructor|]. split; [|split; [constructor|]].
    + intros o fill. cbn. rewrite lookup_empty, elem_of_nil. naive_solver.
    + intros o fill H. by apply not_elem_of_nil in H.
  - intros st1 st2 _ Hs Hi. by eapply fillers_inv_step.
Qed.

(** An object is filled by one caller at a time.  In every reachable state
    no object has two fills in progress, no two fills share a channel, and a
    new claim on an object being filled subscribes to that fill's own channel,
    while a claim on any other object makes the caller its filler. *)
Theorem fill_single_flight r fs o :
  rtc fill_step (registry_new, []) (r, fs) ->
  NoDup fs.*1 /\ NoDup fs.*2 /\ active r = len fs /\
  match (claim r o).1 with
  | Subscriber rx => (o, rx) ∈ fs /\ is_Some (progress r rx)
  | Filler fill => ~ (o ∈ fs.*1) /\ progress (claim r o).2 fill = Some (Ready 0)
  end.
Proof.
  intros Hr. apply fillers_reachable in Hr as (Hnd & Hiff & Hnd2 & Hlt).
  split; [done|]. split; [done|]. split.
  - unfold active, len. f_equal. rewrite <- length_map_to_list.
    assert (map_to_list (fr_fills r) ≡ₚ fs) as ->; [|done].
    apply NoDup_Permutation; [apply NoDup_map_to_list|by eapply NoDup_fmap_1|].
    intros [o' f']. by rewrite elem_of_map_to_list, Hiff.
  - unfold claim, progress. destruct (fr_fills r !! o) as [f|] eqn:Ef; cbn [fst snd].
    + assert ((o, f) ∈ fs) as Hin by by apply Hiff. split; [done|].
      apply lookup_lt_is_Some_2. by eapply Hlt.
    + split.
      * intros ([o' f'] & -> & Hin)%list_elem_of_fmap. apply Hiff in Hin. cbn [fst] in Ef. congruence.
      * cbn [fr_heap]. by rewrite lookup_app_r, Nat.sub_diag by lia.
Qed.

(** ** Witnesses *)

Lemma fill_cuts_exactly_witness :
  exists slices, @cut_stream unit 4 [] (map Ok [lit "abc"; lit "defghi"; lit "j"]) = (slices, Ok tt) /\
    slices = [lit "abcd"; lit "efgh"; lit "ij"].
Proof.
  destruct (@fill_cuts_exactly unit 4 [lit "abc"; lit "defghi"; lit "j"] ltac:(lia))
    as (slices & H & _ & _ & _).
  exists slices. split; [exact H|]. vm_compute in H. by injection H as <-.
Defined.

Lemma wait_for_outcome_witness :
  wait_for [Ready 0; Ready 2; Complete 5] 4 = Ok tt /\
  wait_for [Ready 0; Ready 2; Failed (lit "boom")] 3 = Err (lit "boom").
Proof.
  assert (Forall (fun c => c <= 5) [0; 2]) as H by (repeat constructor; lia).
  destruct (wait_for_outcome 5 [0; 2] 4 (lit "boom") H) as (H1 & _).
  destruct (wait_for_outcome 5 [0; 2] 3 (lit "boom") H) as (_ & H2 & _).
  split; [exact H1|exact H2].
Defined.

Lemma fill_single_flight_witness :
  exists r fs, rtc fill_step (registry_new, []) (r, fs) /\ fs = [([x01], 0%nat)] /\
    (claim r [x01]).1 = Subscriber 0 /\ active r = 1.
Proof.
  assert (rtc fill_step (registry_new, []) ((claim registry_new [x01]).2, [([x01], 0%nat)])) as Hr.
  { eapply rtc_l; [apply (fs_claim_filler _ _ [x01]); reflexivity|apply rtc_refl]. }
  eexists _, _. split; [exact Hr|]. split; [reflexivity|].
  destruct (fill_single_flight _ _ [x01] Hr) as (_ & _ & Ha & _).
  split; [reflexivity|]. rewrite Ha. reflexivity.
Defined.
