(* ===== verification/Domains.v ===== *)
(** * The domain list and the host matcher

    Models [crates/cachic/src/services/domains.rs] (parsing hostnames and
    domain files into services with patterns), [services/matcher.rs] (the
    compiled matcher that runs on every request) and [services/refresh.rs] (the
    live list and how a refresh replaces it).  Parsing the JSON index is
    [serde_json]'s and is a parameter; so are the HTTP fetches of a refresh.

    The matcher's reference is the list itself: a host belongs to the service
    that lists it exactly, and otherwise to the one that lists the longest
    wildcard parent of it. *)

From stdpp Require Import sorting.
From S2P Require Import Prelude.
From S2P Require Import RustStr.

Open Scope Z_scope.

(** ** Patterns *)

Inductive Pattern := Exact (host : str) | Suffix (parent : str).

#[export] Instance Pattern_eq_dec : EqDecision Pattern.
Proof. solve_decision. Defined.

Definition PUBLIC_SUFFIXES : list str :=
  [lit "co.uk"; lit "org.uk"; lit "ac.uk"; lit "gov.uk"; lit "me.uk"; lit "net.uk"; lit "sch.uk";
   lit "com.au"; lit "net.au"; lit "org.au"; lit "edu.au"; lit "gov.au"; lit "co.nz"; lit "net.nz";
   lit "org.nz"; lit "co.jp"; lit "ne.jp"; lit "or.jp"; lit "ac.jp"; lit "go.jp"; lit "com.br";
   lit "net.br"; lit "org.br"; lit "com.cn"; lit "net.cn"; lit "org.cn"; lit "com.mx"; lit "com.ar";
   lit "com.tr"; lit "com.sg"; lit "com.hk"; lit "com.tw"; lit "com.my"; lit "com.ph"; lit "com.vn";
   lit "co.kr"; lit "co.za"; lit "co.in"; lit "co.il"; lit "co.th"; lit "com.pl"; lit "com.ua";
   lit "com.ru"].

Definition is_empty (s : str) : bool := match s with [] => true | _ => false end.

Definition label_count (s : str) : nat :=
  length (List.filter (fun l => negb (is_empty l)) (split_on x2e s)).

Definition pattern_parse (raw : str) : option Pattern :=
  let host := to_ascii_lowercase (trim_end_matches x2e (trim raw)) in
  if is_empty host then None else
  match strip_prefix (lit "*.") host with
  | Some rest =>
      if is_empty rest then None else
      if (label_count rest <? 2)%nat || bool_decide (rest ∈ PUBLIC_SUFFIXES)
      then None else Some (Suffix rest)
  | None => if starts_with (lit "*") host then None else Some (Exact host)
  end.

(** The derived order: [Exact] before [Suffix], then bytes. *)
Fixpoint str_leb (a b : str) : bool :=
  match a, b with
  | [], _ => true
  | _ :: _, [] => false
  | x :: a', y :: b' =>
      if Z_of_byte x <? Z_of_byte y then true
      else if Z_of_byte y <? Z_of_byte x then false else str_leb a' b'
  end.
Definition pattern_le (p q : Pattern) : Prop :=
  match p, q with
  | Exact a, Exact b | Suffix a, Suffix b => str_leb a b = true
  | Exact _, Suffix _ => True
  | Suffix _, Exact _ => False
  end.
#[export] Instance pattern_le_dec p q : Decision (pattern_le p q).
Proof. destruct p, q; unfold pattern_le; apply _. Defined.

(** [Vec::dedup]: runs of equal elements are reduced to one. *)
Fixpoint dedup (l : list Pattern) : list Pattern :=
  match l with
  | [] => []
  | p :: l' =>
      match l' with
      | [] => [p]
      | q :: _ => if bool_decide (p = q) then dedup l' else p :: dedup l'
      end
  end.

(** ** The list *)

Record Service := mkService {
  sv_name : str;
  sv_description : str;
  sv_patterns : list Pattern }.

Abbreviation DomainList := (list Service).

#[export] Instance Service_eq_dec : EqDecision Service.
Proof. solve_decision. Defined.

Record RawService := mkRawService {
  rs_name : str;
  rs_description : str;
  rs_domain_files : list str }.

Inductive DomainsError :=
  | DJson
  | MissingFile (service file : str)
  | Malformed (file : str) (line : Z)
  | DEmpty.

(** The lines of a domain file, numbered from [n]. *)
Fixpoint parse_lines (file : str) (n : Z) (ls : list str) : result DomainsError (list Pattern) :=
  match ls with
  | [] => Ok []
  | l :: ls' =>
      let l := trim l in
      if is_empty l || starts_with (lit "#") l then parse_lines file (n + 1) ls' else
      if (1 <? length (split_whitespace l))%nat then Err (Malformed file n) else
      match pattern_parse l with
      | None => Err (Malformed file n)
      | Some p => ps ← parse_lines file (n + 1) ls'; Ok (p :: ps)
      end
  end.

Fixpoint parse_files (service : str) (files : gmap str str) (names : list str)
    : result DomainsError (list Pattern) :=
  match names with
  | [] => Ok []
  | file :: names' =>
      body ← ok_or (files !! file) (MissingFile service file);
      ps ← parse_lines file 1 (lines body);
      qs ← parse_files service files names';
      Ok (ps ++ qs)
  end.

Fixpoint parse_services (files : gmap str str) (raws : list RawService)
    : result DomainsError DomainList :=
  match raws with
  | [] => Ok []
  | raw :: raws' =>
      ps ← parse_files (rs_name raw) files (rs_domain_files raw);
      rest ← parse_services files raws';
      Ok (mkService (rs_name raw) (rs_description raw) (dedup (merge_sort pattern_le ps)) :: rest)
  end.

Definition pattern_count (l : DomainList) : nat :=
  sum_list_with (fun s => length (sv_patterns s)) l.

(** [serde_json::from_str::<RawIndex>]. *)
Definition domain_list_parse (parse_index : str -> option (list RawService))
    (index_json : str) (files : gmap str str) : result DomainsError DomainList :=
  raws ← ok_or (parse_index index_json) DJson;
  list ← parse_services files raws;
  if (pattern_count list =? 0)%nat then Err DEmpty else Ok list.

(** ** The matcher *)

Record Matcher := mkMatcher {
  mt_exact : gmap str nat;
  mt_suffix : gmap str nat;
  mt_names : list str }.

Definition add_pattern (index : nat) (m : Matcher) (p : Pattern) : Matcher :=
  match p with
  | Exact host => mkMatcher (<[host := index]> (mt_exact m)) (mt_suffix m) (mt_names m)
  | Suffix parent => mkMatcher (mt_exact m) (<[parent := index]> (mt_suffix m)) (mt_names m)
  end.

Definition add_service (index : nat) (m : Matcher) (s : Service) : Matcher :=
  foldl (add_pattern index)
    (mkMatcher (mt_exact m) (mt_suffix m) (mt_names m ++ [sv_name s])) (sv_patterns s).

Fixpoint add_services (index : nat) (m : Matcher) (l : DomainList) : Matcher :=
  match l with
  | [] => m
  | s :: l' => add_services (S index) (add_service index m s) l'
  end.

Definition matcher_build (l : DomainList) : Matcher :=
  add_services 0 (mkMatcher ∅ ∅ []) l.

Definition normalise_host (host : str) : str :=
  let host := trim host in
  let without_port :=
    match strip_prefix [x5b] host with
    | Some rest =>
        match split_once x5d rest with Some (inner, _) => inner | None => rest end
    | None =>
        match rsplit_once x3a host with
        | Some (before, after) => if forallb is_ascii_digit after then before else host
        | None => host
        end
    end in
  to_ascii_lowercase (trim_end_matches x2e without_port).

(** The walk over parent domains, longest first; one step per byte is enough. *)
Fixpoint walk_parents (fuel : nat) (suffix : gmap str nat) (rest : str) : option nat :=
  match fuel with
  | O => None
  | S fuel' =>
      match split_once x2e rest with
      | None => None
      | Some (_, parent) =>
          if is_empty parent then None else
          match suffix !! parent with
          | Some index => Some index
          | None => walk_parents fuel' suffix parent
          end
      end
  end.

Definition service_for (m : Matcher) (host : str) : option str :=
  let host := normalise_host host in
  if is_empty host then None else
  match mt_exact m !! host with
  | Some index => mt_names m !! index
  | None =>
      index ← walk_parents (length host) (mt_suffix m) host;
      mt_names m !! index
  end.

Definition service_count (m : Matcher) : Z := len (mt_names m).
Definition matcher_pattern_count (m : Matcher) : Z :=
  Z.of_nat (size (mt_exact m) + size (mt_suffix m)).

(** ** The live list *)

Record RefreshStats := mkRefreshStats {
  rf_attempts : Z; rf_applied : Z; rf_unchanged : Z; rf_rejected : Z; rf_failed : Z }.

Record LiveServices := mkLive {
  lv_matcher : Matcher;
  lv_list : DomainList;
  lv_stats : RefreshStats }.

Definition live_new (l : DomainList) : LiveServices :=
  mkLive (matcher_build l) l (mkRefreshStats 0 0 0 0 0).

Definition apply_list (live : LiveServices) (candidate : DomainList) : bool * LiveServices :=
  let st := lv_stats live in
  if (pattern_count candidate =? 0)%nat then
    (false, mkLive (lv_matcher live) (lv_list live)
       (mkRefreshStats (rf_attempts st) (rf_applied st) (rf_unchanged st)
          (wrap64 (rf_rejected st + 1)) (rf_failed st))) else
  if bool_decide (lv_list live = candidate) then
    (false, mkLive (lv_matcher live) (lv_list live)
       (mkRefreshStats (rf_attempts st) (rf_applied st) (wrap64 (rf_unchanged st + 1))
          (rf_rejected st) (rf_failed st))) else
  (true, mkLive (matcher_build candidate) candidate
     (mkRefreshStats (rf_attempts st) (wrap64 (rf_applied st + 1)) (rf_unchanged st)
        (rf_rejected st) (rf_failed st))).

(** One turn of the refresh loop, given what [fetch] returned. *)
Definition refresh_once (live : LiveServices) (fetched : option DomainList) : LiveServices :=
  let st := lv_stats live in
  let live := mkLive (lv_matcher live) (lv_list live)
    (mkRefreshStats (wrap64 (rf_attempts st + 1)) (rf_applied st) (rf_unchanged st)
       (rf_rejected st) (rf_failed st)) in
  match fetched with
  | Some candidate => (apply_list live candidate).2
  | None =>
      let st := lv_stats live in
      mkLive (lv_matcher live) (lv_list live)
        (mkRefreshStats (rf_attempts st) (rf_applied st) (rf_unchanged st) (rf_rejected st)
           (wrap64 (rf_failed st + 1)))
  end.

(** [trim_end_matches(".git")]: every trailing occurrence. *)
Fixpoint trim_end_str (fuel : nat) (p s : str) : str :=
  match fuel with
  | O => s
  | S n => match strip_suffix p s with Some r => trim_end_str n p r | None => s end
  end.

Definition raw_base (repo : str) : str :=
  let repo := trim_end_matches x2f repo in
  let repo := trim_end_str (length repo) (lit ".git") repo in
  match strip_prefix (lit "https://github.com/") repo with
  | Some path => lit "https://raw.githubusercontent.com/" ++ path ++ lit "/master"
  | None => repo
  end.

(** ** The reference *)

(** The last service of the list that lists a pattern. *)
Fixpoint last_owner (p : Pattern) (index : nat) (l : DomainList) : option nat :=
  match l with
  | [] => None
  | s :: l' =>
      match last_owner p (S index) l' with
      | Some i => Some i
      | None => if bool_decide (p ∈ sv_patterns s) then Some index else None
      end
  end.

Definition owner (l : DomainList) (p : Pattern) : option str :=
  i ← last_owner p 0 l; sv_name <$> l !! i.

(** [parent] is a proper parent domain of [host]. *)
Definition parent_of (parent host : str) : Prop :=
  parent <> [] /\ exists sub, host = sub ++ x2e :: parent.

Lemma foldl_add_pattern index ps m h :
  mt_exact (foldl (add_pattern index) m ps) !! h =
    (if bool_decide (Exact h ∈ ps) then Some index else mt_exact m !! h) /\
  mt_suffix (foldl (add_pattern index) m ps) !! h =
    (if bool_decide (Suffix h ∈ ps) then Some index else mt_suffix m !! h) /\
  mt_names (foldl (add_pattern index) m ps) = mt_names m.
Proof.
  revert m. induction ps as [|p ps IH]; intros m; cbn [foldl].
  - by rewrite !bool_decide_eq_false_2 by apply not_elem_of_nil.
  - destruct (IH (add_pattern index m p)) as (H1 & H2 & H3). rewrite H1, H2, H3. clear.
    assert (forall q, (bool_decide (q ∈ p :: ps)) = bool_decide (q ∈ ps) || bool_decide (q = p)) as E.
    { intros q. rewrite <- bool_decide_or. apply bool_decide_ext. rewrite elem_of_cons. tauto. }
    rewrite !E. destruct p as [a|a]; cbn [add_pattern mt_exact mt_suffix mt_names];
      (split; [|split; [|done]]).
    + destruct (bool_decide (Exact h ∈ ps)); [done|]. cbn [orb]. case_bool_decide as Hd.
      * injection Hd as ->. by rewrite lookup_insert_eq.
      * rewrite lookup_insert_ne by congruence. done.
    + rewrite (bool_decide_eq_false_2 (Suffix h = Exact a)) by done. by rewrite orb_false_r.
    + rewrite (bool_decide_eq_false_2 (Exact h = Suffix a)) by done. by rewrite orb_false_r.
    + destruct (bool_decide (Suffix h ∈ ps)); [done|]. cbn [orb]. case_bool_decide as Hd.
      * injection Hd as ->. by rewrite lookup_insert_eq.
      * rewrite lookup_insert_ne by congruence. done.
Qed.

Lemma add_services_spec l index m h :
  mt_exact (add_services index m l) !! h =
    (match last_owner (Exact h) index l with Some j => Some j | None => mt_exact m !! h end) /\
  mt_suffix (add_services index m l) !! h =
    (match last_owner (Suffix h) index l with Some j => Some j | None => mt_suffix m !! h end) /\
  mt_names (add_services index m l) = mt_names m ++ map sv_name l.
Proof.
  revert index m. induction l as [|s l IH]; intros index m; cbn [add_services last_owner map].
  - by rewrite app_nil_r.
  - destruct (IH (S index) (add_service index m s)) as (H1 & H2 & H3). rewrite H1, H2, H3.
    unfold add_service.
    destruct (foldl_add_pattern index (sv_patterns s)
      (mkMatcher (mt_exact m) (mt_suffix m) (mt_names m ++ [sv_name s])) h) as (-> & -> & ->).
    cbn [mt_exact mt_suffix mt_names]. split; [|split].
    + destruct (last_owner (Exact h) (S index) l); [done|]. by case_bool_decide.
    + destruct (last_owner (Suffix h) (S index) l); [done|]. by case_bool_decide.
    + by rewrite <- app_assoc.
Qed.

Lemma matcher_build_spec l h :
  mt_exact (matcher_build l) !! h = last_owner (Exact h) 0 l /\
  mt_suffix (matcher_build l) !! h = last_owner (Suffix h) 0 l /\
  mt_names (matcher_build l) = map sv_name l.
Proof.
  unfold matcher_build. destruct (add_services_spec l 0 (mkMatcher ∅ ∅ []) h) as (-> & -> & ->).
  cbn [mt_exact mt_suffix mt_names]. rewrite !lookup_empty.
  split; [by destruct (last_owner (Exact h) 0 l)|].
  split; [by destruct (last_owner (Suffix h) 0 l)|done].
Qed.

Lemma last_owner_lt p index l i :
  last_owner p index l = Some i -> (index <= i < index + length l)%nat.
Proof.
  revert index. induction l as [|s l IH]; intros index; cbn [last_owner length]; [done|].
  destruct (last_owner p (S index) l) as [j|] eqn:E.
  - intros [= <-]. apply IH in E. lia.
  - case_bool_decide; [|done]. intros [= <-]. lia.
Qed.

Lemma owner_matcher l p i :
  last_owner p 0 l = Some i -> map sv_name l !! i = owner l p /\ is_Some (owner l p).
Proof.
  intros H. unfold owner. rewrite H. cbn [mbind option_bind].
  change (map sv_name l) with (sv_name <$> l). rewrite list_lookup_fmap. split; [done|].
  apply last_owner_lt in H. apply fmap_is_Some, lookup_lt_is_Some_2. lia.
Qed.

Lemma parent_of_step host sub parent q :
  host = sub ++ x2e :: parent -> x2e ∉ sub -> parent_of q host ->
  q = parent \/ parent_of q parent.
Proof.
  intros -> Hsub (Hq & sub' & Heq). apply app_eq_app in Heq as (k & [[-> H]|[-> H]]).
  - destruct k as [|b k]; simplify_eq/=; [by left|]. exfalso.
    apply Hsub. rewrite elem_of_app. right. by left.
  - destruct k as [|b k]; simplify_eq/=; [by left|]. right. split; [done|]. eauto.
Qed.

Lemma walk_parents_spec fuel suffix rest :
  (length rest <= fuel)%nat ->
  (forall x, rest <> x ++ [x2e]) ->
  match walk_parents fuel suffix rest with
  | Some index =>
      exists p, parent_of p rest /\ suffix !! p = Some index /\
        forall q, parent_of q rest -> is_Some (suffix !! q) -> (length q <= length p)%nat
  | None => forall q, parent_of q rest -> suffix !! q = None
  end.
Proof.
  revert rest. induction fuel as [|fuel IH]; intros rest Hf Hend; cbn [walk_parents].
  - intros q (_ & sub & ->). rewrite length_app in Hf. simpl in Hf. lia.
  - destruct (split_once x2e rest) as [[sub parent]|] eqn:E.
    + apply split_once_Some in E as [-> Hsub].
      destruct parent as [|c parent']; [by destruct (Hend sub)|]. cbn [is_empty].
      set (parent := c :: parent') in *.
      assert (parent_of parent (sub ++ x2e :: parent)) as Hp by (split; [done|eauto]).
      assert (forall q, parent_of q parent -> (length q <= length parent)%nat) as Hlen.
      { intros q (_ & s & ->). rewrite length_app. simpl. lia. }
      destruct (suffix !! parent) as [index|] eqn:Es.
      * exists parent. split; [done|]. split; [done|]. intros q Hq _.
        destruct (parent_of_step _ _ _ _ eq_refl Hsub Hq) as [->|?]; [done|]. by apply Hlen.
      * specialize (IH parent). destruct (walk_parents fuel suffix parent) as [index|].
        -- destruct IH as (p & Hpp & Hs & Hmax).
           { rewrite length_app in Hf. simpl in *. lia. }
           { intros x Hx. apply (Hend (sub ++ x2e :: x)). by rewrite Hx, <- app_assoc. }
           destruct Hpp as (Hpne & s & Hps).
           exists p. split; [split; [done|]|split; [done|]].
           ++ exists (sub ++ x2e :: s). by rewrite Hps, <- app_assoc.
           ++ intros q Hq Hsome.
              destruct (parent_of_step _ _ _ _ eq_refl Hsub Hq) as [->|?]; [|by apply Hmax].
              rewrite Es in Hsome. by destruct Hsome.
        -- intros q Hq. destruct (parent_of_step _ _ _ _ eq_refl Hsub Hq) as [->|?]; [done|].
           apply IH; [| |done].
           { rewrite length_app in Hf. simpl in *. lia. }
           { intros x Hx. apply (Hend (sub ++ x2e :: x)). by rewrite Hx, <- app_assoc. }
    + apply split_once_None in E. intros q (_ & sub & ->). exfalso. apply E. set_solver.
Qed.

Lemma drop_leading_head c s x : drop_leading c s <> c :: x.
Proof.
  induction s as [|b s IH]; cbn [drop_leading]; [done|]. case_bool_decide; [done|]. congruence.
Qed.

Lemma lower_byte_dot b : lower_byte b = x2e -> b = x2e.
Proof. destruct b; vm_compute; congruence. Qed.

Lemma normalise_host_no_dot host x : normalise_host host <> x ++ [x2e].
Proof.
  unfold normalise_host. cbv zeta.
  match goal with |- to_ascii_lowercase (trim_end_matches _ ?w) <> _ => generalize w end.
  intros w. unfold to_ascii_lowercase, trim_end_matches. intros H.
  apply (f_equal reverse) in H. rewrite reverse_app in H.
  match type of H with context [map lower_byte ?l] =>
    change (map lower_byte l) with (lower_byte <$> l) in H end.
  rewrite <- fmap_reverse, reverse_involutive in H. cbn [reverse app] in H.
  destruct (drop_leading x2e (reverse w)) as [|b l] eqn:E; [done|].
  cbn [fmap list_fmap] in H. injection H as Hb _. apply lower_byte_dot in Hb as ->.
  by apply drop_leading_head in E.
Qed.

(** C33: longest match wins.  On the matcher built from any domain list, a host
    is attributed to the last service that lists it exactly; otherwise to the
    owner of the longest listed wildcard whose parent is a proper parent domain
    of the host; and to none exactly when neither exists.  A wildcard never
    matches its own parent. *)
Theorem service_for_longest_match l host :
  let h := normalise_host host in
  h <> [] ->
  match owner l (Exact h) with
  | Some name => service_for (matcher_build l) host = Some name
  | None =>
      match service_for (matcher_build l) host with
      | Some name =>
          exists p, parent_of p h /\ owner l (Suffix p) = Some name /\
            forall q, parent_of q h -> is_Some (owner l (Suffix q)) -> (length q <= length p)%nat
      | None => forall q, parent_of q h -> owner l (Suffix q) = None
      end
  end.
Proof.
  intros h Hh. unfold service_for. fold h.
  assert (is_empty h = false) as -> by by destruct h.
  assert (forall p, match last_owner p 0 l with
                    | Some i => map sv_name l !! i = owner l p /\ is_Some (owner l p)
                    | None => owner l p = None end) as Ho.
  { intros p. destruct (last_owner p 0 l) as [i|] eqn:E; [by apply owner_matcher|].
    unfold owner. by rewrite E. }
  destruct (matcher_build_spec l h) as (-> & _ & ->).
  pose proof (Ho (Exact h)) as He. destruct (last_owner (Exact h) 0 l) as [i|].
  - destruct He as [-> [name ->]]. done.
  - rewrite He. pose proof (walk_parents_spec (length h) (mt_suffix (matcher_build l)) h
      ltac:(lia) (normalise_host_no_dot host)) as Hw.
    destruct (walk_parents _ _ h) as [i|]; cbn [mbind option_bind].
    + destruct Hw as (p & Hp & Hs & Hmax).
      destruct (matcher_build_spec l p) as (_ & Hsp & _). rewrite Hsp in Hs.
      pose proof (Ho (Suffix p)) as Hop. rewrite Hs in Hop. destruct Hop as [-> [name Hname]].
      rewrite Hname. exists p. split; [done|]. split; [done|]. intros q Hq Hsome.
      apply Hmax; [done|]. destruct (matcher_build_spec l q) as (_ & -> & _).
      pose proof (Ho (Suffix q)) as Hoq. destruct (last_owner (Suffix q) 0 l); [done|].
      rewrite Hoq in Hsome. by destruct Hsome.
    + intros q Hq. specialize (Hw q Hq). destruct (matcher_build_spec l q) as (_ & Hsq & _).
      rewrite Hsq in Hw. pose proof (Ho (Suffix q)) as Hoq. by rewrite Hw in Hoq.
Qed.

(** ** What parsing accepts *)

Definition pattern_safe (p : Pattern) : Prop :=
  match p with
  | Exact h => h <> [] /\ starts_with (lit "*") h = false
  | Suffix q => (2 <= label_count q)%nat /\ ~ (q ∈ PUBLIC_SUFFIXES)
  end.

Lemma pattern_parse_safe raw p : pattern_parse raw = Some p -> pattern_safe p.
Proof.
  unfold pattern_parse. set (host := to_ascii_lowercase _).
  destruct (is_empty host) eqn:Ee; [done|].
  destruct (strip_prefix (lit "*.") host) as [rest|].
  - destruct (is_empty rest); [done|].
    destruct (Nat.ltb_spec (label_count rest) 2); [done|]. cbn [orb].
    case_bool_decide; [done|]. intros [= <-]. by split.
  - destruct (starts_with (lit "*") host) eqn:Es; [done|]. intros [= <-].
    split; [by destruct host|done].
Qed.

Lemma parse_lines_safe file n ls ps :
  parse_lines file n ls = Ok ps -> Forall pattern_safe ps.
Proof.
  revert n ps. induction ls as [|l ls IH]; intros n ps; cbn [parse_lines].
  - intros [= <-]. constructor.
  - destruct (_ || _); [apply IH|]. destruct (_ <? _)%nat; [done|].
    destruct (pattern_parse (trim l)) as [p|] eqn:Ep; [|done].
    destruct (parse_lines file (n + 1) ls) as [qs|] eqn:E; [|done]. intros [= <-].
    constructor; [by eapply pattern_parse_safe|by eapply IH].
Qed.

Lemma parse_files_safe service files names ps :
  parse_files service files names = Ok ps -> Forall pattern_safe ps.
Proof.
  revert ps. induction names as [|f names IH]; intros ps; cbn [parse_files].
  - intros [= <-]. constructor.
  - destruct (files !! f) as [body|]; [|done]. cbn [ok_or mbind result_bind].
    destruct (parse_lines f 1 (lines body)) as [qs|] eqn:E; [|done]. cbn [mbind result_bind].
    destruct (parse_files service files names) as [rs|]; [|done]. intros [= <-].
    apply Forall_app. split; [by eapply parse_lines_safe|by apply IH].
Qed.

Lemma dedup_incl l p : p ∈ dedup l -> p ∈ l.
Proof.
  induction l as [|x l IH]; [done|]. cbn [dedup]. destruct l as [|q l']; [done|].
  case_bool_decide; rewrite ?elem_of_cons in *; naive_solver.
Qed.

Lemma parse_services_safe files raws l :
  parse_services files raws = Ok l -> Forall (fun s => Forall pattern_safe (sv_patterns s)) l.
Proof.
  revert l. induction raws as [|raw raws IH]; intros l; cbn [parse_services].
  - intros [= <-]. constructor.
  - destruct (parse_files _ _ _) as [ps|] eqn:E; [|done]. cbn [mbind result_bind].
    destruct (parse_services files raws) as [rest|]; [|done]. intros [= <-].
    constructor; [|by apply IH]. cbn [sv_patterns]. apply parse_files_safe in E.
    rewrite Forall_forall in E |- *. intros p Hp%dedup_incl. apply E.
    by rewrite merge_sort_Permutation in Hp.
Qed.

Definition list_safe (l : DomainList) : Prop :=
  pattern_count l <> 0%nat /\ forall s p, s ∈ l -> p ∈ sv_patterns s -> pattern_safe p.

Lemma domain_list_parse_safe parse_index index_json files l :
  domain_list_parse parse_index index_json files = Ok l -> list_safe l.
Proof.
  unfold domain_list_parse. destruct (parse_index index_json) as [raws|]; [|done].
  cbn [ok_or mbind result_bind]. destruct (parse_services files raws) as [l'|] eqn:E; [|done].
  cbn [mbind result_bind]. destruct (Nat.eqb_spec (pattern_count l') 0); [done|].
  intros [= <-]. split; [done|]. apply parse_services_safe in E.
  rewrite Forall_forall in E. intros s p Hs Hp. specialize (E s Hs). rewrite Forall_forall in E. auto.
Qed.

(** No accepted list can widen a service to hosts anyone can register.  A
    domain list that parses, bundled or fetched, has at least one pattern, and
    every wildcard in it is rooted at a domain of at least two labels that is
    not a public suffix, and no exact hostname is empty or starts with an
    asterisk.  A list with one bad line is refused as a whole. *)
Theorem parsed_list_safe parse_index index_json files l :
  domain_list_parse parse_index index_json files = Ok l ->
  pattern_count l <> 0%nat /\
  forall s p, s ∈ l -> p ∈ sv_patterns s -> pattern_safe p.
Proof. apply domain_list_parse_safe. Qed.

(** ** The live list *)

Definition live_ok (live : LiveServices) : Prop :=
  lv_matcher live = matcher_build (lv_list live) /\ pattern_count (lv_list live) <> 0%nat.

Lemma refresh_once_spec live fetched :
  live_ok live ->
  live_ok (refresh_once live fetched) /\
  lv_list (refresh_once live fetched) =
    match fetched with
    | Some c => if (pattern_count c =? 0)%nat then lv_list live else c
    | None => lv_list live
    end.
Proof.
  intros Hl. destruct fetched as [c|]; [|done]. unfold refresh_once, apply_list.
  cbn [lv_matcher lv_list lv_stats].
  destruct (Nat.eqb_spec (pattern_count c) 0) as [E|E]; [done|].
  case_bool_decide as Ec; [by subst|]. by split.
Qed.

(** A refresh can never break the cache.  However many refreshes run and
    whatever they fetch, the matcher in use is always the one built from the
    list in use and that list always has a pattern; a failed fetch or an empty
    candidate leaves both as they were, and a usable candidate replaces the
    list as a whole. *)
Theorem refresh_keeps_serving live fetched :
  live_ok live ->
  live_ok (foldl refresh_once live fetched) /\
  forall last,
    lv_list (refresh_once live last) =
      match last with
      | Some c => if (pattern_count c =? 0)%nat then lv_list live else c
      | None => lv_list live
      end.
Proof.
  intros Hl. split; [|intros last; by apply refresh_once_spec]. revert live Hl.
  induction fetched as [|f fetched IH]; intros live Hl; [done|]. cbn [foldl].
  apply IH. by apply refresh_once_spec.
Qed.

(** ** Witnesses *)

Definition toy_list : DomainList :=
  [ mkService (lit "a") [] [Suffix (lit "example.com")];
    mkService (lit "b") [] [Suffix (lit "cdn.example.com"); Exact (lit "example.com")] ].

Lemma service_for_longest_match_witness :
  service_for (matcher_build toy_list) (lit "Example.com.") = Some (lit "b") /\
  service_for (matcher_build toy_list) (lit "x.cdn.example.com:443") = Some (lit "b") /\
  exists p, parent_of p (lit "x.cdn.example.com") /\ owner toy_list (Suffix p) = Some (lit "b") /\
    forall q, parent_of q (lit "x.cdn.example.com") -> is_Some (owner toy_list (Suffix q)) ->
      (length q <= length p)%nat.
Proof.
  split; [exact (service_for_longest_match toy_list (lit "Example.com.") ltac:(vm_compute; discriminate))|].
  split; [vm_compute; reflexivity|].
  exact (service_for_longest_match toy_list (lit "x.cdn.example.com:443")
    ltac:(vm_compute; discriminate)).
Defined.

Lemma parsed_list_safe_witness :
  exists l, domain_list_parse (fun _ => Some [mkRawService (lit "s") [] [lit "f"]]) []
    {[ lit "f" := lit "*.Example.com" ]} = Ok l /\ pattern_count l <> 0%nat.
Proof.
  eexists. split; [vm_compute; reflexivity|].
  eapply (parsed_list_safe (fun _ => Some [mkRawService (lit "s") [] [lit "f"]]) []
    {[ lit "f" := lit "*.Example.com" ]}). vm_compute. reflexivity.
Defined.

Lemma refresh_keeps_serving_witness :
  live_ok (foldl refresh_once (live_new toy_list) [None; Some []]) /\
  lv_list (refresh_once (live_new toy_list) (Some [])) = toy_list.
Proof.
  assert (live_ok (live_new toy_list)) as H by (split; [reflexivity|vm_compute; discriminate]).
  destruct (refresh_keeps_serving (live_new toy_list) [None; Some []] H) as [H1 H2].
  split; [exact H1|]. rewrite H2. reflexivity.
Defined.
