(* ===== verification/Refresh.v ===== *)
(** * Loading and refreshing the domain list

    Models the parts of [crates/cachic/src/services/domains.rs] and
    [services/refresh.rs] that bring a list into the process: [load_dir], the
    download of [fetch] and the loop of [spawn].  The file system is given as
    what reading it returns, the network as a function from a URL to the body of
    a successful response, and [serde_json] as two parsers: one into the typed
    index, one into an untyped value of which only the names of the domain files
    are read. *)

From S2P Require Import Prelude.
From S2P Require Import RustStr.
From S2P Require Import Domains.

Open Scope Z_scope.

(** ** A directory *)

Inductive LoadError :=
  | LoadIo
  | LoadList (e : DomainsError).

(** An entry of [read_dir]: its name and what reading it gives, or an error. *)
Definition DirEntry : Type := option (str * option str).

Fixpoint read_entries (entries : list DirEntry) (files : gmap str str) : result LoadError (gmap str str) :=
  match entries with
  | [] => Ok files
  | None :: _ => Err LoadIo
  | Some (name, body) :: entries' =>
      if ends_with (lit ".txt") name then
        match body with
        | Some text => read_entries entries' (<[name := text]> files)
        | None => Err LoadIo
        end
      else read_entries entries' files
  end.

Section Load.
Context (parse_index : str -> option (list RawService)).

Definition load_dir (index : option str) (entries : option (list DirEntry)) : result LoadError DomainList :=
  index ← ok_or index LoadIo;
  entries ← ok_or entries LoadIo;
  files ← read_entries entries ∅;
  map_err LoadList (domain_list_parse parse_index index files).

(** [bundled]: the files compiled into the program. *)
Definition bundled (index : str) (bundled_files : list (str * str)) : result DomainsError DomainList :=
  domain_list_parse parse_index index
    (foldl (fun files '(name, body) => <[name := body]> files) ∅ bundled_files).

(** ** A download *)

Inductive RefreshError :=
  | RFetchFailed (url : str)
  | RInvalidList (e : DomainsError).

(** The names listed by each service of the untyped index. *)
Context (named_files : str -> option (list (list str))).
Context (http : str -> option str).

Definition get_text (url : str) : result RefreshError str := ok_or (http url) (RFetchFailed url).

Fixpoint fetch_files (base : str) (names : list str) (files : gmap str str)
    : result RefreshError (gmap str str) :=
  match names with
  | [] => Ok files
  | name :: names' =>
      match files !! name with
      | Some _ => fetch_files base names' files
      | None =>
          body ← get_text (base ++ lit "/" ++ name);
          fetch_files base names' (<[name := body]> files)
      end
  end.

Definition fetch (repo : str) : result RefreshError DomainList :=
  let base := raw_base repo in
  index ← get_text (base ++ lit "/cache_domains.json");
  services ← ok_or (named_files index) (RInvalidList DJson);
  files ← fetch_files base (concat services) ∅;
  map_err RInvalidList (domain_list_parse parse_index index files).
End Load.

(** The loop of [spawn]: with a zero interval nothing is ever fetched; each
    element of [turns] is the network at one turn. *)
Definition refresh_loop (parse_index : str -> option (list RawService))
    (named_files : str -> option (list (list str))) (repo : str) (interval : Z) (live : LiveServices)
    (turns : list (str -> option str)) : LiveServices :=
  if interval =? 0 then live else
  foldl (fun live http => refresh_once live (result_ok (fetch parse_index named_files http repo)))
    live turns.

(** ** Facts *)

Lemma load_dir_safe parse_index index entries l :
  load_dir parse_index index entries = Ok l -> list_safe l.
Proof.
  unfold load_dir. destruct index as [index|]; [|done]. destruct entries as [entries|]; [|done].
  cbn [ok_or mbind result_bind]. destruct (read_entries entries ∅) as [files|]; [|done].
  cbn [mbind result_bind]. destruct (domain_list_parse _ _ _) as [l'|] eqn:E; [|done].
  intros [= <-]. by eapply domain_list_parse_safe.
Qed.

Lemma bundled_safe parse_index index files l : bundled parse_index index files = Ok l -> list_safe l.
Proof. apply domain_list_parse_safe. Qed.

(** The files a download ends with: those it started with and, for each new
    name, the body of its URL. *)
Lemma fetch_files_Ok http base names files files' :
  fetch_files http base names files = Ok files' ->
  forall name, files' !! name =
    match files !! name with
    | Some body => Some body
    | None => if decide (name ∈ names) then http (base ++ lit "/" ++ name) else None
    end.
Proof.
  revert files. induction names as [|n names IH]; intros files; cbn [fetch_files].
  - intros [= <-] name. by destruct (files !! name).
  - destruct (files !! n) as [b|] eqn:En.
    + intros H name. rewrite (IH files H name). destruct (files !! name) eqn:E; [done|].
      destruct (decide (name ∈ names)) as [Hin|Hin].
      * rewrite decide_True; [done|]. by right.
      * rewrite decide_False; [done|]. intros [->|?]%elem_of_cons; [congruence|done].
    + unfold get_text. destruct (http _) as [body|] eqn:Eh; [|done]. cbn [ok_or mbind result_bind].
      intros H name. rewrite (IH _ H name). destruct (decide (n = name)) as [->|Hne].
      * by rewrite lookup_insert_eq, En, decide_True, Eh by left.
      * rewrite lookup_insert_ne by done. destruct (files !! name); [done|].
        destruct (decide (name ∈ names)) as [Hin|Hin].
        -- rewrite decide_True; [done|]. by right.
        -- rewrite decide_False; [done|]. intros [->|?]%elem_of_cons; done.
Qed.

Lemma fetch_files_Err http base names files :
  is_ok (fetch_files http base names files) = false ->
  exists name, name ∈ names /\ http (base ++ lit "/" ++ name) = None.
Proof.
  revert files. induction names as [|n names IH]; intros files; cbn [fetch_files]; [done|].
  destruct (files !! n).
  - intros (name & Hin & Hn)%IH. exists name. split; [by right|done].
  - unfold get_text. destruct (http _) as [body|] eqn:Eh; cbn [ok_or mbind result_bind].
    + intros (name & Hin & Hn)%IH. exists name. split; [by right|done].
    + intros _. exists n. split; [left|done].
Qed.

Lemma fetch_files_error http base names files e :
  fetch_files http base names files = Err e -> exists url, e = RFetchFailed url.
Proof.
  revert files. induction names as [|n names IH]; intros files; cbn [fetch_files]; [done|].
  destruct (files !! n); [apply IH|]. unfold get_text.
  destruct (http _); cbn [ok_or mbind result_bind]; [apply IH|]. intros [= <-]. by eexists.
Qed.

Lemma fetch_safe parse_index named http repo l : fetch parse_index named http repo = Ok l -> list_safe l.
Proof.
  unfold fetch. destruct (get_text _ _) as [index|]; [|done]. cbn [mbind result_bind].
  destruct (named index) as [services|]; [|done]. cbn [ok_or mbind result_bind].
  destruct (fetch_files _ _ _ _) as [files|]; [|done]. cbn [mbind result_bind].
  destruct (domain_list_parse _ _ _) as [l'|] eqn:E; [|done]. intros [= <-].
  by eapply domain_list_parse_safe.
Qed.

Lemma parse_lines_malformed file n ls s f : parse_lines file n ls <> Err (MissingFile s f).
Proof.
  revert n. induction ls as [|l ls IH]; intros n; cbn [parse_lines]; [done|].
  destruct (_ || _); [apply IH|]. destruct (_ <? _)%nat; [done|]. destruct (pattern_parse _); [|done].
  destruct (parse_lines file (n + 1) ls) as [ps|e] eqn:E; [done|]. cbn. intros [= ->]. by apply IH in E.
Qed.

Lemma fetch_files_all http base names files files' :
  fetch_files http base names files = Ok files' ->
  (forall name, is_Some (files !! name) -> is_Some (files' !! name)) /\
  forall name, name ∈ names -> is_Some (files' !! name).
Proof.
  revert files. induction names as [|n names IH]; intros files; cbn [fetch_files].
  - intros [= <-]. split; [done|]. by intros name Hn%not_elem_of_nil.
  - destruct (files !! n) as [b|] eqn:En.
    + intros [H1 H2]%IH. split; [done|]. intros name [->|Hin]%elem_of_cons; [by apply H1|by apply H2].
    + unfold get_text. destruct (http _) as [body|]; [|done]. cbn [ok_or mbind result_bind].
      intros [H1 H2]%IH. split.
      * intros name Hn. apply H1. destruct (decide (n = name)) as [->|]; [by rewrite lookup_insert_eq|].
        by rewrite lookup_insert_ne.
      * intros name [->|Hin]%elem_of_cons; [|by apply H2]. apply H1. by rewrite lookup_insert_eq.
Qed.

Lemma parse_files_missing service files names s f :
  parse_files service files names = Err (MissingFile s f) -> f ∈ names /\ files !! f = None.
Proof.
  induction names as [|n names IH]; cbn [parse_files]; [done|].
  destruct (files !! n) as [body|] eqn:En; cbn [ok_or mbind result_bind].
  - destruct (parse_lines n 1 (lines body)) as [ps|e] eqn:El; cbn [mbind result_bind].
    + destruct (parse_files service files names) as [qs|e] eqn:E; [done|]. cbn. intros [= ->].
      destruct (IH eq_refl). split; [by right|done].
    + intros [= ->]. by apply parse_lines_malformed in El.
  - intros [= <- <-]. split; [left|done].
Qed.

Lemma parse_services_missing files raws s f :
  parse_services files raws = Err (MissingFile s f) ->
  f ∈ concat (rs_domain_files <$> raws) /\ files !! f = None.
Proof.
  induction raws as [|raw raws IH]; cbn [parse_services]; [done|].
  destruct (parse_files _ _ _) as [ps|e] eqn:E; cbn [mbind result_bind].
  - destruct (parse_services files raws) as [rest|e] eqn:Er; [done|]. cbn. intros [= ->].
    destruct (IH eq_refl). split; [|done]. cbn. apply elem_of_app. by right.
  - intros [= ->]. apply parse_files_missing in E as [Hin Hn]. split; [|done]. cbn.
    apply elem_of_app. by left.
Qed.

(** A download is all or nothing.  If a refresh yields a list, that list
    is what the index and exactly the files it names parse to, each file's
    contents being what its URL returned; so if the index, or any one file it
    names, could not be downloaded, there is no list.  And if the two readings of
    the index agree on the names, a list that was downloaded is never refused
    because one of its files is missing. *)
Theorem fetch_all_or_nothing parse_index named http repo :
  let base := raw_base repo in
  match fetch parse_index named http repo with
  | Ok l =>
      exists index services files,
        http (base ++ lit "/cache_domains.json") = Some index /\ named index = Some services /\
        (forall name, files !! name =
           if decide (name ∈ concat services) then http (base ++ lit "/" ++ name) else None) /\
        (forall name, name ∈ concat services -> is_Some (files !! name)) /\
        domain_list_parse parse_index index files = Ok l
  | Err (RFetchFailed _) =>
      http (base ++ lit "/cache_domains.json") = None \/
      exists index services name, http (base ++ lit "/cache_domains.json") = Some index /\
        named index = Some services /\ name ∈ concat services /\ http (base ++ lit "/" ++ name) = None
  | Err (RInvalidList e) =>
      (forall index raws services, http (base ++ lit "/cache_domains.json") = Some index ->
         parse_index index = Some raws -> named index = Some services ->
         concat (rs_domain_files <$> raws) ⊆ concat services ->
         forall service file, e <> MissingFile service file)
  end.
Proof.
  cbn zeta. unfold fetch, get_text. destruct (http (raw_base repo ++ lit "/cache_domains.json")) as [index|] eqn:Ei.
  2: { cbn. by left. }
  cbn [ok_or mbind result_bind]. destruct (named index) as [services|] eqn:En; cbn [ok_or mbind result_bind].
  2: { intros ? ? ? [= <-] _ Hs. congruence. }
  destruct (fetch_files http (raw_base repo) (concat services) ∅) as [files|e] eqn:Ef; cbn [mbind result_bind].
  - destruct (domain_list_parse parse_index index files) as [l|e] eqn:Ep; cbn [map_err].
    + exists index, services, files. split; [done|]. split; [done|]. split; [|split; [|done]].
      * intros name. by rewrite (fetch_files_Ok _ _ _ _ _ Ef name), lookup_empty.
      * by apply (fetch_files_all _ _ _ _ _ Ef).
    + intros index' raws services' [= <-] Hp Hs Hsub service file ->.
      rewrite En in Hs. injection Hs as <-. unfold domain_list_parse in Ep. rewrite Hp in Ep.
      cbn [ok_or mbind result_bind] in Ep. destruct (parse_services files raws) as [l|e] eqn:Er.
      { cbn in Ep. destruct (_ =? _)%nat; done. }
      cbn in Ep. injection Ep as ->. apply parse_services_missing in Er as [Hin Hn].
      apply Hsub, (fetch_files_all _ _ _ _ _ Ef) in Hin as [b Hb]. congruence.
  - destruct (fetch_files_Err http (raw_base repo) (concat services) ∅) as (name & Hin & Hn); [by rewrite Ef|].
    apply fetch_files_error in Ef as [url ->]. right. by exists index, services, name.
Qed.

(** C15: whatever the network answers, the cache never runs on an unsafe list.
    Start with the bundled list or one loaded from a directory and let any number
    of refreshes run against any servers: at every moment the matcher in use is
    built from the list in use, that list is not empty, and no pattern of it
    covers a public suffix or a single label.  With the refresh disabled the list
    never changes. *)
Theorem live_list_always_safe parse_index named repo interval l turns :
  (exists index files, bundled parse_index index files = Ok l) \/
  (exists index entries, load_dir parse_index index entries = Ok l) ->
  let live := refresh_loop parse_index named repo interval (live_new l) turns in
  lv_matcher live = matcher_build (lv_list live) /\ list_safe (lv_list live) /\
  (interval = 0 -> lv_list live = l).
Proof.
  intros Hl. assert (list_safe l) as Hs.
  { destruct Hl as [(index & files & Hb)|(index & entries & Hd)]; [by eapply bundled_safe|by eapply load_dir_safe]. }
  clear Hl. cbn zeta. unfold refresh_loop. destruct (Z.eqb_spec interval 0) as [|Hi]; [done|].
  assert (live_ok (live_new l)) as Hok by (split; [done|apply Hs]).
  assert (list_safe (lv_list (live_new l))) as Hs' by done. generalize dependent (live_new l).
  clear Hs. intros live Hok Hs. cut (live_ok (foldl (fun live http =>
    refresh_once live (result_ok (fetch parse_index named http repo))) live turns) /\
    list_safe (lv_list (foldl (fun live http =>
    refresh_once live (result_ok (fetch parse_index named http repo))) live turns))).
  { intros [[Hm _] Hl]. split; [exact Hm|]. split; [exact Hl|]. lia. }
  revert live Hok Hs. induction turns as [|http turns IH]; intros live Hok Hs; [done|]. cbn [foldl].
  destruct (refresh_once_spec live (result_ok (fetch parse_index named http repo)) Hok) as [Hok' Hlist].
  apply IH; [done|]. rewrite Hlist. destruct (fetch _ _ _ _) as [c|] eqn:Ef; [|done]. cbn [result_ok].
  destruct (_ =? _)%nat; [done|]. by eapply fetch_safe.
Qed.

(** ** Witnesses *)

Definition toy_index (s : str) : option (list RawService) :=
  Some [mkRawService (lit "steam") [] [lit "steam.txt"]].

Lemma live_list_always_safe_witness :
  exists l, bundled toy_index [] [(lit "steam.txt", lit "*.steamcontent.com")] = Ok l /\
    list_safe (lv_list (refresh_loop toy_index (fun _ => Some [[lit "steam.txt"]]) (lit "https://mirror") 60
      (live_new l) [(fun _ => None); (fun _ => Some (lit "*.co.uk")); (fun _ => Some (lit "cdn.example.com"))])).
Proof.
  exists [mkService (lit "steam") [] [Suffix (lit "steamcontent.com")]].
  assert (bundled toy_index [] [(lit "steam.txt", lit "*.steamcontent.com")] =
    Ok [mkService (lit "steam") [] [Suffix (lit "steamcontent.com")]]) as Hb by (vm_compute; reflexivity).
  split; [exact Hb|].
  refine (proj1 (proj2 (live_list_always_safe _ _ _ _ _ _ (or_introl _)))).
  eexists _, _. exact Hb.
Defined.
