(* ===== verification/Sni.v ===== *)
(** * TLS pass-through

    Models [crates/cachic/src/sni/clienthello.rs], the parser that reads the
    server name out of a TLS ClientHello, and [sni/proxy.rs], the splice: read
    the hello, check the name against the service list, resolve it through the
    guard, connect, replay the bytes read.

    A [Reader] is what is left of its slice.  The client's socket is the list of
    what its reads return; the list ending means that nothing more arrives
    before the timeout.  Connecting and the copy in both directions are the
    operating system's: [connect] says which addresses accept, and the splice
    ends when the origin is connected and the hello replayed. *)

From S2P Require Import Prelude.
From S2P Require Import RustStr.
From S2P Require Import Guard.
From S2P Require Import Resolver.
From S2P Require Import Domains.

Open Scope Z_scope.

(** ** ClientHello *)

Definition RECORD_HANDSHAKE : Z := 22.
Definition HANDSHAKE_CLIENT_HELLO : Z := 1.
Definition EXT_SERVER_NAME : Z := 0.
Definition NAME_TYPE_HOST : Z := 0.
Definition MIN_CLIENT_HELLO : Z := 43.
Definition MAX_CLIENT_HELLO : Z := 16 * 1024 + 5.

Abbreviation Reader := bytes.

Definition rd_take (n : Z) (r : Reader) : option (bytes * Reader) :=
  if len r <? n then None else Some (take (Z.to_nat n) r, drop (Z.to_nat n) r).

Definition rd_u8 (r : Reader) : option (Z * Reader) :=
  match r with a :: r' => Some (Z_of_byte a, r') | [] => None end.

Definition rd_u16 (r : Reader) : option (Z * Reader) :=
  match r with
  | a :: r1 => match r1 with
               | b :: r2 => Some (256 * Z_of_byte a + Z_of_byte b, r2)
               | [] => None
               end
  | [] => None
  end.

Definition skip_u8_vec (r : Reader) : option Reader :=
  '(n, r) ← rd_u8 r; '(_, r) ← rd_take n r; Some r.
Definition skip_u16_vec (r : Reader) : option Reader :=
  '(n, r) ← rd_u16 r; '(_, r) ← rd_take n r; Some r.

Definition looks_like_tls (b : bytes) : bool :=
  match b with a :: _ => Z_of_byte a =? RECORD_HANDSHAKE | [] => false end.

Definition record_length (b : bytes) : option Z :=
  match b with
  | _ :: _ :: _ :: x :: y :: _ => Some (256 * Z_of_byte x + Z_of_byte y + 5)
  | _ => None
  end.

(** The names of a server_name extension: the first of type host_name.  Each
    round consumes three bytes, so the length of the list is fuel enough. *)
Fixpoint host_name (fuel : nat) (n : Reader) : option str :=
  match fuel with
  | O => None
  | S fuel' =>
      match rd_u8 n with
      | None => None
      | Some (name_type, n) =>
          match rd_u16 n with
          | None => None
          | Some (name_len, n) =>
              '(name, n) ← rd_take name_len n;
              if name_type =? NAME_TYPE_HOST then
                host ← from_utf8 name;
                if match host with [] => true | _ => false end || negb (forallb is_ascii host)
                then None else Some (to_ascii_lowercase host)
              else host_name fuel' n
          end
      end
  end.

(** The extensions: the first server_name decides. *)
Fixpoint sni_extension (fuel : nat) (e : Reader) : option str :=
  match fuel with
  | O => None
  | S fuel' =>
      match rd_u16 e with
      | None => None
      | Some (kind, e) =>
          match rd_u16 e with
          | None => None
          | Some (n, e) =>
              '(data, e) ← rd_take n e;
              if kind =? EXT_SERVER_NAME then
                '(list_len, names) ← rd_u16 data;
                '(names, _) ← rd_take list_len names;
                host_name (length names) names
              else sni_extension fuel' e
          end
      end
  end.

Definition server_name (record : bytes) : option str :=
  '(kind, r) ← rd_u8 record;
  if negb (kind =? RECORD_HANDSHAKE) then None else
  '(_, r) ← rd_u16 r;
  '(record_len, r) ← rd_u16 r;
  '(body, _) ← rd_take (Z.min record_len (sat_sub (len record) 5)) r;
  '(kind, h) ← rd_u8 body;
  if negb (kind =? HANDSHAKE_CLIENT_HELLO) then None else
  '(_, h) ← rd_u8 h;
  '(_, h) ← rd_u16 h;
  '(_, h) ← rd_u16 h;
  '(_, h) ← rd_take 32 h;
  h ← skip_u8_vec h;
  h ← skip_u16_vec h;
  h ← skip_u8_vec h;
  '(extensions_len, h) ← rd_u16 h;
  '(extensions, _) ← rd_take extensions_len h;
  sni_extension (length extensions) extensions.

(** ** What the parser reads *)

Definition be16 (n : Z) : bytes := [byte_of_Z (n / 256); byte_of_Z (n mod 256)].
Definition vec8 (b : bytes) : bytes := byte_of_Z (len b) :: b.
Definition vec16 (b : bytes) : bytes := be16 (len b) ++ b.

Definition encode_name (p : Z * bytes) : bytes := byte_of_Z p.1 :: vec16 p.2.
Definition encode_extension (p : Z * bytes) : bytes := be16 p.1 ++ vec16 p.2.

(** A ClientHello, with what may surround the host name in it. *)
Record Hello := mkHello {
  he_version : Z;
  he_length : bytes;
  he_client_version : Z;
  he_random : bytes;
  he_session : bytes;
  he_ciphers : bytes;
  he_compression : bytes;
  he_before : list (Z * bytes);
  he_names_before : list (Z * bytes);
  he_host : str;
  he_names_after : bytes;
  he_after : bytes }.

Definition encode_names (h : Hello) : bytes :=
  concat (map encode_name (he_names_before h)) ++ encode_name (NAME_TYPE_HOST, he_host h) ++
  he_names_after h.
Definition encode_extensions (h : Hello) : bytes :=
  concat (map encode_extension (he_before h)) ++
  encode_extension (EXT_SERVER_NAME, vec16 (encode_names h)) ++ he_after h.
Definition encode_body (h : Hello) : bytes :=
  byte_of_Z HANDSHAKE_CLIENT_HELLO :: he_length h ++ be16 (he_client_version h) ++ he_random h ++
  vec8 (he_session h) ++ vec16 (he_ciphers h) ++ vec8 (he_compression h) ++
  vec16 (encode_extensions h).
Definition encode_hello (h : Hello) : bytes :=
  byte_of_Z RECORD_HANDSHAKE :: be16 (he_version h) ++ vec16 (encode_body h).

Definition hello_ok (h : Hello) : Prop :=
  length (he_length h) = 3%nat /\ length (he_random h) = 32%nat /\
  len (he_session h) < 256 /\ len (he_ciphers h) < 65536 /\ len (he_compression h) < 256 /\
  in_u 16 (he_version h) /\ in_u 16 (he_client_version h) /\
  Forall (fun p => 0 < p.1 < 65536 /\ len p.2 < 65536) (he_before h) /\
  Forall (fun p => 0 < p.1 < 256 /\ len p.2 < 65536) (he_names_before h) /\
  he_host h <> [] /\ Forall (fun b => is_ascii b = true) (he_host h) /\
  len (encode_body h) < 65536.

Lemma rd_take_app a rest : rd_take (len a) (a ++ rest) = Some (a, rest).
Proof.
  unfold rd_take. rewrite len_app. pose proof (len_nonneg rest).
  destruct (Z.ltb_spec (len a + len rest) (len a)); [lia|]. unfold len. rewrite Nat2Z.id.
  by rewrite take_app_length, drop_app_length.
Qed.

Lemma rd_u8_byte n rest : 0 <= n < 256 -> rd_u8 (byte_of_Z n :: rest) = Some (n, rest).
Proof. intros Hn. cbn [rd_u8]. by rewrite Z_of_byte_of_Z, Z.mod_small. Qed.

Lemma rd_u16_be16 n rest : 0 <= n < 65536 -> rd_u16 (be16 n ++ rest) = Some (n, rest).
Proof.
  intros Hn. unfold be16. cbn [app rd_u16].
  pose proof (Z.mod_pos_bound n 256 ltac:(lia)).
  assert (0 <= n / 256 < 256) by (split; [apply Z.div_pos; lia|apply Z.div_lt_upper_bound; lia]).
  rewrite !Z_of_byte_of_Z, (Z.mod_small (n / 256) 256), (Z.mod_small (n mod 256) 256) by lia.
  do 2 f_equal. pose proof (Z.div_mod n 256 ltac:(lia)). lia.
Qed.

Lemma skip_u8_vec_app v rest : len v < 256 -> skip_u8_vec (vec8 v ++ rest) = Some rest.
Proof.
  intros Hv. unfold skip_u8_vec, vec8. cbn [app]. pose proof (len_nonneg v).
  rewrite rd_u8_byte by lia. cbn. by rewrite rd_take_app.
Qed.

Lemma vec16_read v rest : len v < 65536 -> rd_u16 (vec16 v ++ rest) = Some (len v, v ++ rest).
Proof. intros Hv. unfold vec16. rewrite <- app_assoc. apply rd_u16_be16. pose proof (len_nonneg v). lia. Qed.

Lemma skip_u16_vec_app v rest : len v < 65536 -> skip_u16_vec (vec16 v ++ rest) = Some rest.
Proof. intros Hv. unfold skip_u16_vec. rewrite vec16_read by done. cbn. by rewrite rd_take_app. Qed.

(** Fuel beyond the length changes nothing. *)
Lemma rd_take_shorter n r a r' : 0 <= n -> rd_take n r = Some (a, r') -> (length r' <= length r)%nat.
Proof. intros _. unfold rd_take. destruct (_ <? _); [done|]. intros [= _ <-]. rewrite length_drop. lia. Qed.

Lemma host_name_fuel f1 f2 n :
  (length n <= f1)%nat -> (length n <= f2)%nat -> host_name f1 n = host_name f2 n.
Proof.
  revert f2 n. induction f1 as [|f1 IH]; intros [|f2] n H1 H2.
  - done.
  - destruct n; [done|cbn in H1; lia].
  - destruct n; [done|cbn in H2; lia].
  - cbn [host_name]. destruct n as [|a n]; [done|]. cbn [rd_u8].
    destruct n as [|b [|c n]]; [done|done|]. cbn [rd_u16]. cbn [length] in *.
    destruct (rd_take _ n) as [[name n']|] eqn:E; [|done]. cbn.
    apply rd_take_shorter in E; [|pose proof (Z_of_byte_range b); pose proof (Z_of_byte_range c); lia].
    destruct (_ =? NAME_TYPE_HOST); [done|]. apply IH; lia.
Qed.

Lemma sni_extension_fuel f1 f2 e :
  (length e <= f1)%nat -> (length e <= f2)%nat -> sni_extension f1 e = sni_extension f2 e.
Proof.
  revert f2 e. induction f1 as [|f1 IH]; intros [|f2] n H1 H2.
  - done.
  - destruct n; [done|cbn in H1; lia].
  - destruct n; [done|cbn in H2; lia].
  - cbn [sni_extension]. destruct n as [|a [|b n]]; [done|done|]. cbn [rd_u16].
    destruct n as [|c [|d n]]; [done|done|]. cbn [rd_u16 length] in *.
    destruct (rd_take _ n) as [[name n']|] eqn:E; [|done]. cbn.
    apply rd_take_shorter in E; [|pose proof (Z_of_byte_range c); pose proof (Z_of_byte_range d); lia].
    destruct (_ =? EXT_SERVER_NAME); [done|]. apply IH; lia.
Qed.

Lemma ascii_utf8 s : Forall (fun b => is_ascii b = true) s -> utf8_valid s = true.
Proof.
  induction 1 as [|b s Hb _ IH]; [done|]. cbn [utf8_valid].
  assert (byte_in 0 127 b = true) as ->; [|done].
  unfold is_ascii, byte_le in Hb. unfold byte_in. pose proof (Z_of_byte_range b).
  change (Z_of_byte x7f) with 127 in Hb. rewrite Hb, andb_true_r. apply Z.leb_le. lia.
Qed.

Lemma host_name_finds fuel before host after :
  Forall (fun p => 0 < p.1 < 256 /\ len p.2 < 65536) before ->
  host <> [] -> Forall (fun b => is_ascii b = true) host -> len host < 65536 ->
  (length before < fuel)%nat ->
  host_name fuel (concat (map encode_name before) ++ encode_name (NAME_TYPE_HOST, host) ++ after)
    = Some (to_ascii_lowercase host).
Proof.
  intros Hb Hne Ha Hlen. revert fuel. induction Hb as [|[ty nm] before [Hty Hnm] _ IH]; intros [|fuel] Hf;
    cbn [length] in Hf; try lia.
  - cbn [map concat app]. unfold encode_name. cbn [fst snd app host_name].
    rewrite rd_u8_byte by done. rewrite vec16_read by done. rewrite rd_take_app. cbn.
    unfold from_utf8. rewrite ascii_utf8 by done. cbn.
    replace (forallb is_ascii host) with true; [by destruct host|].
    symmetry. apply forallb_forall. intros x Hx%list_elem_of_In. rewrite Forall_forall in Ha. by apply Ha.
  - cbn [map concat]. cbn [fst snd] in *. rewrite <- app_assoc. unfold encode_name at 1.
    cbn [fst snd app host_name]. rewrite rd_u8_byte by lia. rewrite vec16_read by done.
    rewrite rd_take_app. cbn. destruct (Z.eqb_spec ty NAME_TYPE_HOST) as [->|]; [unfold NAME_TYPE_HOST in *; lia|].
    apply IH. lia.
Qed.

Lemma sni_extension_finds fuel before data after :
  Forall (fun p => 0 < p.1 < 65536 /\ len p.2 < 65536) before -> len data < 65534 ->
  (length before < fuel)%nat ->
  sni_extension fuel (concat (map encode_extension before) ++
      encode_extension (EXT_SERVER_NAME, vec16 data) ++ after) = host_name (length data) data.
Proof.
  intros Hb Hlen. assert (len (vec16 data) = len data + 2) as Hv by (unfold vec16; rewrite len_app; change (len (be16 (len data))) with 2; lia).
  revert fuel. induction Hb as [|[k d] before [Hk Hd] _ IH]; intros [|fuel] Hf; cbn [length] in Hf; try lia.
  - cbn [map concat app]. unfold encode_extension. cbn [fst snd]. rewrite <- !app_assoc.
    cbn [sni_extension]. rewrite rd_u16_be16 by (unfold EXT_SERVER_NAME; lia).
    rewrite vec16_read by lia. rewrite rd_take_app. cbn [mbind option_bind].
    change (EXT_SERVER_NAME =? EXT_SERVER_NAME) with true. cbv iota.
    rewrite <- (app_nil_r (vec16 data)), vec16_read by lia. cbn [mbind option_bind].
    by rewrite rd_take_app.
  - cbn [map concat]. cbn [fst snd] in *. rewrite <- app_assoc. unfold encode_extension at 1. cbn [fst snd].
    rewrite <- app_assoc. cbn [sni_extension]. rewrite rd_u16_be16 by lia. rewrite vec16_read by done.
    rewrite rd_take_app. cbn. destruct (Z.eqb_spec k EXT_SERVER_NAME) as [->|]; [unfold EXT_SERVER_NAME in *; lia|].
    apply IH. lia.
Qed.

Lemma len_be16 n : len (be16 n) = 2.
Proof. reflexivity. Qed.
Lemma len_vec16 v : len (vec16 v) = len v + 2.
Proof. unfold vec16. rewrite len_app, len_be16. lia. Qed.
Lemma len_encode_name p : len (encode_name p) = len p.2 + 3.
Proof. unfold encode_name. rewrite len_cons, len_vec16. lia. Qed.
Lemma len_encode_extension p : len (encode_extension p) = len p.2 + 4.
Proof. unfold encode_extension. rewrite len_app, len_be16, len_vec16. lia. Qed.

Lemma concat_fuel {A} (f : A -> bytes) l x rest :
  (forall x, (0 < length (f x))%nat) -> (length l < length (concat (map f l) ++ f x ++ rest))%nat.
Proof.
  intros Hf. induction l as [|y l IH]; cbn [map concat length].
  - rewrite app_nil_l, length_app. specialize (Hf x). lia.
  - rewrite <- app_assoc, length_app. specialize (Hf y). lia.
Qed.

(** C26: the ClientHello parser finds the server name.  For every well-formed
    ClientHello record - any versions, session, cipher suites and compression
    methods, any other extensions before and anything after the server_name
    extension, any names of other types before the host name, even with bytes
    beyond the record - the parser returns the host name in lower case. *)
Theorem server_name_roundtrip h trailing :
  hello_ok h -> server_name (encode_hello h ++ trailing) = Some (to_ascii_lowercase (he_host h)).
Proof.
  intros (H1 & H2 & H3 & H4 & H5 & H6 & H7 & H8 & H9 & H10 & H11 & H12). unfold in_u in *.
  assert (len (encode_extensions h) < 65536) as He.
  { revert H12. unfold encode_body. rewrite len_cons, !len_app, (len_vec16 (encode_extensions h)).
    unfold len. lia. }
  assert (len (encode_names h) < 65534) as Hn.
  { revert He. unfold encode_extensions. rewrite !len_app, len_encode_extension. cbn [snd].
    rewrite len_vec16. unfold len. lia. }
  assert (len (he_host h) < 65536) as Hh.
  { revert Hn. unfold encode_names. rewrite !len_app, len_encode_name. cbn [snd]. unfold len. lia. }
  unfold server_name, encode_hello. cbn [app]. rewrite rd_u8_byte by (unfold RECORD_HANDSHAKE; lia).
  cbn [mbind option_bind]. change (negb (RECORD_HANDSHAKE =? RECORD_HANDSHAKE)) with false. cbv iota.
  rewrite <- app_assoc, rd_u16_be16 by lia. cbn [mbind option_bind].
  rewrite vec16_read by lia. cbn [mbind option_bind].
  rewrite Z.min_l.
  2: { rewrite len_cons, !len_app, len_be16, len_vec16. pose proof (len_nonneg trailing).
       unfold sat_sub. lia. }
  rewrite rd_take_app. cbn [mbind option_bind]. unfold encode_body.
  rewrite rd_u8_byte by (unfold HANDSHAKE_CLIENT_HELLO; lia). cbn [mbind option_bind].
  change (negb (HANDSHAKE_CLIENT_HELLO =? HANDSHAKE_CLIENT_HELLO)) with false. cbv iota.
  destruct (he_length h) as [|l0 [|l1 [|l2 [|]]]]; try done. cbn [app rd_u8 mbind option_bind rd_u16].
  rewrite rd_u16_be16 by lia. cbn [mbind option_bind].
  replace 32 with (len (he_random h)) by (unfold len; lia). rewrite rd_take_app. cbn [mbind option_bind].
  rewrite skip_u8_vec_app by lia. cbn [mbind option_bind].
  rewrite skip_u16_vec_app by lia. cbn [mbind option_bind].
  rewrite skip_u8_vec_app by lia. cbn [mbind option_bind].
  rewrite <- (app_nil_r (vec16 (encode_extensions h))), vec16_read by lia. cbn [mbind option_bind].
  rewrite rd_take_app. cbn [mbind option_bind]. unfold encode_extensions.
  rewrite sni_extension_finds; [|done|done|].
  - unfold encode_names. apply host_name_finds; try done.
    apply (concat_fuel encode_name); intros; pose proof (len_encode_name x); pose proof (len_nonneg x.2);
      unfold len in *; lia.
  - apply (concat_fuel encode_extension); intros; pose proof (len_encode_extension x);
      pose proof (len_nonneg x.2); unfold len in *; lia.
Qed.

(** A name the parser returns is ASCII, not empty, and stands in the record. *)
Definition names_part_of (record : bytes) (host : str) : Prop :=
  host <> [] /\ exists pre name post, record = pre ++ name ++ post /\ host = to_ascii_lowercase name /\
    Forall (fun b => is_ascii b = true) name.

Lemma names_part_extend pre r post host : names_part_of r host -> names_part_of (pre ++ r ++ post) host.
Proof.
  intros (Hne & p & n & q & -> & -> & Ha). split; [done|]. exists (pre ++ p), n, (q ++ post).
  by rewrite <- !app_assoc.
Qed.

Lemma rd_take_split n r a r' : rd_take n r = Some (a, r') -> r = a ++ r'.
Proof. unfold rd_take. destruct (_ <? _); [done|]. intros [= <- <-]. by rewrite take_drop. Qed.
Lemma rd_u16_split r n r' : rd_u16 r = Some (n, r') -> exists p, r = p ++ r'.
Proof. destruct r as [|a [|b r]]; try done. intros [= _ <-]. by exists [a; b]. Qed.
Lemma rd_u8_split r n r' : rd_u8 r = Some (n, r') -> exists p, r = p ++ r'.
Proof. destruct r as [|a r]; try done. intros [= _ <-]. by exists [a]. Qed.
Lemma skip_u8_split r r' : skip_u8_vec r = Some r' -> exists p, r = p ++ r'.
Proof.
  unfold skip_u8_vec. destruct (rd_u8 r) as [[n r1]|] eqn:E1; [|done]. cbn.
  destruct (rd_take n r1) as [[a r2]|] eqn:E2; [|done]. intros [= <-].
  apply rd_u8_split in E1 as [p ->]. apply rd_take_split in E2 as ->. exists (p ++ a). by rewrite <- app_assoc.
Qed.
Lemma skip_u16_split r r' : skip_u16_vec r = Some r' -> exists p, r = p ++ r'.
Proof.
  unfold skip_u16_vec. destruct (rd_u16 r) as [[n r1]|] eqn:E1; [|done]. cbn.
  destruct (rd_take n r1) as [[a r2]|] eqn:E2; [|done]. intros [= <-].
  apply rd_u16_split in E1 as [p ->]. apply rd_take_split in E2 as ->. exists (p ++ a). by rewrite <- app_assoc.
Qed.

Lemma names_part_suffix p r host : names_part_of r host -> names_part_of (p ++ r) host.
Proof. intros H. apply (names_part_extend p r []) in H. by rewrite app_nil_r in H. Qed.
Lemma names_part_prefix r q host : names_part_of r host -> names_part_of (r ++ q) host.
Proof. apply (names_part_extend [] r q). Qed.

Lemma host_name_part fuel n host : host_name fuel n = Some host -> names_part_of n host.
Proof.
  revert n. induction fuel as [|fuel IH]; intros n; [done|]. cbn [host_name].
  destruct (rd_u8 n) as [[ty n1]|] eqn:E1; [|done]. destruct (rd_u16 n1) as [[ln n2]|] eqn:E2; [|done].
  destruct (rd_take ln n2) as [[name n3]|] eqn:E3; [|done]. cbn [mbind option_bind].
  apply rd_u8_split in E1 as [p1 ->]. apply rd_u16_split in E2 as [p2 ->]. apply rd_take_split in E3 as ->.
  intros H. apply names_part_suffix, names_part_suffix. destruct (ty =? NAME_TYPE_HOST).
  - unfold from_utf8 in H. destruct (utf8_valid name); [|done]. cbn [mbind option_bind] in H.
    destruct (forallb is_ascii name) eqn:Ea; [|by rewrite orb_true_r in H]. rewrite orb_false_r in H.
    apply names_part_prefix. destruct name as [|b name]; [done|]. injection H as <-. split; [done|].
    exists [], (b :: name), []. rewrite app_nil_r. split; [done|]. split; [done|].
    apply Forall_forall. intros x Hx. rewrite forallb_forall in Ea. apply Ea, list_elem_of_In, Hx.
  - apply names_part_suffix. by apply IH.
Qed.

Lemma sni_extension_part fuel e host : sni_extension fuel e = Some host -> names_part_of e host.
Proof.
  revert e. induction fuel as [|fuel IH]; intros n; [done|]. cbn [sni_extension].
  destruct (rd_u16 n) as [[ty n1]|] eqn:E1; [|done]. destruct (rd_u16 n1) as [[ln n2]|] eqn:E2; [|done].
  destruct (rd_take ln n2) as [[data n3]|] eqn:E3; [|done]. cbn [mbind option_bind].
  apply rd_u16_split in E1 as [p1 ->]. apply rd_u16_split in E2 as [p2 ->]. apply rd_take_split in E3 as ->.
  intros H. apply names_part_suffix, names_part_suffix. destruct (ty =? EXT_SERVER_NAME).
  - apply names_part_prefix. destruct (rd_u16 data) as [[ll d1]|] eqn:E4; [|done]. cbn [mbind option_bind] in H.
    destruct (rd_take ll d1) as [[names d2]|] eqn:E5; [|done]. cbn [mbind option_bind] in H.
    apply rd_u16_split in E4 as [p4 ->]. apply rd_take_split in E5 as ->.
    apply names_part_suffix, names_part_prefix. by eapply host_name_part.
  - apply names_part_suffix. by apply IH.
Qed.

Ltac read_step H E :=
  match type of H with
  | context [mbind _ ?r] => destruct r as [[? ?]|] eqn:E; [|done]; cbn [mbind option_bind] in H
  end.

Lemma server_name_part record host : server_name record = Some host -> names_part_of record host.
Proof.
  unfold server_name. intros H. read_step H E1. destruct (negb _) in H; [done|].
  read_step H E2. read_step H E3. read_step H E4. read_step H E5. destruct (negb _) in H; [done|].
  read_step H E6. read_step H E7. read_step H E8. read_step H E9.
  destruct (skip_u8_vec _) as [h1|] eqn:E10 in H; [|done]. cbn [mbind option_bind] in H.
  destruct (skip_u16_vec h1) as [h2|] eqn:E11 in H; [|done]. cbn [mbind option_bind] in H.
  destruct (skip_u8_vec h2) as [h3|] eqn:E12 in H; [|done]. cbn [mbind option_bind] in H.
  read_step H E13. read_step H E14.
  apply rd_u8_split in E1 as [? ->]. apply rd_u16_split in E2 as [? ->]. apply rd_u16_split in E3 as [? ->].
  apply rd_take_split in E4 as ->. apply rd_u8_split in E5 as [? ->]. apply rd_u8_split in E6 as [? ->].
  apply rd_u16_split in E7 as [? ->]. apply rd_u16_split in E8 as [? ->]. apply rd_take_split in E9 as ->.
  apply skip_u8_split in E10 as [? ->]. apply skip_u16_split in E11 as [? ->].
  apply skip_u8_split in E12 as [? ->]. apply rd_u16_split in E13 as [? ->]. apply rd_take_split in E14 as ->.
  do 3 apply names_part_suffix. apply names_part_prefix. do 9 apply names_part_suffix.
  apply names_part_prefix. by eapply sni_extension_part.
Qed.

(** ** The splice *)

Record SniStats := mkSniStats {
  ss_accepted : Z;
  ss_spliced : Z;
  ss_no_sni : Z;
  ss_refused : Z;
  ss_not_allow_listed : Z;
  ss_refused_limit : Z;
  ss_upstream_failed : Z;
  ss_bytes_client_to_origin : Z;
  ss_bytes_origin_to_client : Z }.

Inductive SniError :=
  | HelloTimeout
  | NotTls
  | NoServerName
  | HelloTooLarge
  | NotAllowListed (host : str)
  | SniRefused (host : str) (source : ResolveError)
  | SniUpstream (host : str)
  | SniIo.

(** What a read of the client's socket returns; [RData []] is its end. *)
Inductive ReadResult := RData (chunk : bytes) | RError.

(** The hello loop: the name and the bytes read so far. *)
Fixpoint read_hello (buffer : bytes) (reads : list ReadResult) : result SniError str * bytes :=
  match reads with
  | [] => (Err HelloTimeout, buffer)
  | RError :: _ => (Err SniIo, buffer)
  | RData chunk :: reads =>
      match chunk with
      | [] => (Err NotTls, buffer)
      | _ =>
          let buffer := buffer ++ chunk in
          if negb (looks_like_tls buffer) then (Err NotTls, buffer)
          else if MAX_CLIENT_HELLO <? len buffer then (Err HelloTooLarge, buffer)
          else match record_length buffer with
               | Some needed =>
                   if needed <=? len buffer then (ok_or (server_name buffer) NoServerName, buffer)
                   else read_hello buffer reads
               | None => read_hello buffer reads
               end
      end
  end.

(** Try the addresses in order. *)
Fixpoint connect_first (connect : SocketAddr -> bool) (addrs : list SocketAddr) : option SocketAddr :=
  match addrs with
  | [] => None
  | a :: addrs => if connect a then Some a else connect_first connect addrs
  end.

Definition count_not_allow_listed (s : SniStats) : SniStats :=
  mkSniStats (ss_accepted s) (ss_spliced s) (ss_no_sni s) (ss_refused s)
    (wrap64 (ss_not_allow_listed s + 1)) (ss_refused_limit s) (ss_upstream_failed s)
    (ss_bytes_client_to_origin s) (ss_bytes_origin_to_client s).
Definition count_refused (s : SniStats) : SniStats :=
  mkSniStats (ss_accepted s) (ss_spliced s) (ss_no_sni s) (wrap64 (ss_refused s + 1))
    (ss_not_allow_listed s) (ss_refused_limit s) (ss_upstream_failed s)
    (ss_bytes_client_to_origin s) (ss_bytes_origin_to_client s).
Definition count_upstream_failed (s : SniStats) : SniStats :=
  mkSniStats (ss_accepted s) (ss_spliced s) (ss_no_sni s) (ss_refused s)
    (ss_not_allow_listed s) (ss_refused_limit s) (wrap64 (ss_upstream_failed s + 1))
    (ss_bytes_client_to_origin s) (ss_bytes_origin_to_client s).
Definition count_copied (s : SniStats) (to_origin to_client : Z) : SniStats :=
  mkSniStats (ss_accepted s) (ss_spliced s) (ss_no_sni s) (ss_refused s)
    (ss_not_allow_listed s) (ss_refused_limit s) (ss_upstream_failed s)
    (wrap64 (ss_bytes_client_to_origin s + to_origin)) (wrap64 (ss_bytes_origin_to_client s + to_client)).
Definition count_spliced (s : SniStats) (replayed : Z) : SniStats :=
  mkSniStats (ss_accepted s) (wrap64 (ss_spliced s + 1)) (ss_no_sni s) (ss_refused s)
    (ss_not_allow_listed s) (ss_refused_limit s) (ss_upstream_failed s)
    (wrap64 (ss_bytes_client_to_origin s + replayed)) (ss_bytes_origin_to_client s).

(** The connection that is made, if any: where, and the bytes replayed. *)
Abbreviation Connection := (SocketAddr * bytes)%type.

Section Splice.
Context (lookup_ip : list SocketAddr -> str -> option (list IpAddr)).
Context (connect : SocketAddr -> bool).
(** Whether replaying succeeds, and what the copy ends with. *)
Context (replay_ok : bool) (copied : option (Z * Z)).

Definition splice (reads : list ReadResult) (resolver : UpstreamResolver) (port : Z) (stats : SniStats)
    (services : LiveServices) (passthrough_unknown_hosts : bool)
    : result SniError unit * option Connection * SniStats * UpstreamResolver :=
  match read_hello [] reads with
  | (Err e, _) => (Err e, None, stats, resolver)
  | (Ok host, buffer) =>
      if negb passthrough_unknown_hosts &&
         match service_for (lv_matcher services) host with None => true | Some _ => false end
      then (Err (NotAllowListed host), None, count_not_allow_listed stats, resolver)
      else
        match resolve lookup_ip resolver host port with
        | (Err source, resolver) => (Err (SniRefused host source), None, count_refused stats, resolver)
        | (Ok addresses, resolver) =>
            match connect_first connect addresses with
            | None => (Err (SniUpstream host), None, count_upstream_failed stats, resolver)
            | Some origin =>
                if negb replay_ok then (Err SniIo, Some (origin, buffer), stats, resolver)
                else
                  let stats := count_spliced stats (len buffer) in
                  match copied with
                  | None => (Err SniIo, Some (origin, buffer), stats, resolver)
                  | Some (to_origin, to_client) =>
                      (Ok tt, Some (origin, buffer), count_copied stats to_origin to_client, resolver)
                  end
            end
        end
  end.

Lemma read_hello_ok buffer reads host buffer' :
  read_hello buffer reads = (Ok host, buffer') ->
  names_part_of buffer' host /\ len buffer' <= MAX_CLIENT_HELLO /\
  (exists needed, record_length buffer' = Some needed /\ needed <= len buffer') /\
  exists chunks rest, reads = map RData chunks ++ rest /\ buffer' = buffer ++ concat chunks.
Proof using Type.
  revert buffer. induction reads as [|[chunk|] reads IH]; intros buffer; cbn [read_hello]; [done| |done].
  assert (forall b, read_hello (buffer ++ chunk) reads = b -> b = (Ok host, buffer') ->
    names_part_of buffer' host /\ len buffer' <= MAX_CLIENT_HELLO /\
    (exists needed, record_length buffer' = Some needed /\ needed <= len buffer') /\
    exists chunks rest, RData chunk :: reads = map RData chunks ++ rest /\ buffer' = buffer ++ concat chunks)
    as Hrec.
  { intros b <- Hb. destruct (IH _ Hb) as (? & ? & ? & cs & rest & -> & ->). repeat (split; [done|]).
    exists (chunk :: cs), rest. by rewrite <- app_assoc. }
  destruct chunk as [|c0 chunk]; [done|]. set (chunk' := c0 :: chunk) in *.
  destruct (negb _); [done|]. destruct (Z.ltb_spec MAX_CLIENT_HELLO (len (buffer ++ chunk'))); [done|].
  destruct (record_length (buffer ++ chunk')) as [needed|] eqn:En; [|intros Hb; by eapply Hrec].
  destruct (Z.leb_spec needed (len (buffer ++ chunk'))); [|intros Hb; by eapply Hrec].
  destruct (server_name (buffer ++ chunk')) as [h|] eqn:Es; [|done]. intros [= -> <-].
  split; [by apply server_name_part|]. split; [done|]. split; [by exists needed|].
  exists [chunk'], reads. cbn. by rewrite app_nil_r.
Qed.

Lemma connect_first_in addrs a : connect_first connect addrs = Some a -> a ∈ addrs.
Proof using Type.
  induction addrs as [|b addrs IH]; [done|]. cbn. destruct (connect b).
  - intros [= ->]. by left.
  - intros H. right. by apply IH.
Qed.

Lemma splice_spec reads resolver port stats services passthrough r conn stats' resolver' :
  splice reads resolver port stats services passthrough = (r, conn, stats', resolver') ->
  match conn with
  | Some (origin, replayed) =>
      exists host chunks rest,
        reads = map RData chunks ++ rest /\ replayed = concat chunks /\
        names_part_of replayed host /\ len replayed <= MAX_CLIENT_HELLO /\
        (exists needed, record_length replayed = Some needed /\ needed <= len replayed) /\
        (passthrough = false -> is_Some (service_for (lv_matcher services) host)) /\
        sa_ip origin ∈ answers lookup_ip resolver host /\
        check (sa_ip origin) (ur_allow_private resolver) = Ok tt /\ sa_port origin = port
  | None => r <> Ok tt /\ ss_spliced stats' = ss_spliced stats /\
            ss_bytes_client_to_origin stats' = ss_bytes_client_to_origin stats
  end.
Proof using Type.
  unfold splice. destruct (read_hello [] reads) as [[host|e] buffer] eqn:Eh; [|by intros [= <- <- <- <-]].
  apply read_hello_ok in Eh as (Hn & Hl & Hrec & chunks & rest & Hr & Hbuf). cbn [app] in Hbuf.
  destruct (negb passthrough && _) eqn:Ep; [by intros [= <- <- <- <-]|].
  destruct (resolve lookup_ip resolver host port) as [[addrs|src] res] eqn:Er; [|by intros [= <- <- <- <-]].
  apply resolve_ok in Er as [_ Ha].
  destruct (connect_first connect addrs) as [origin|] eqn:Ec; [|by intros [= <- <- <- <-]].
  apply connect_first_in, Ha in Ec as (Hport & Hin & Hc).
  assert (passthrough = false -> is_Some (service_for (lv_matcher services) host)) as Hs.
  { intros ->. destruct (service_for _ host); [by eexists|done]. }
  intros H. assert (conn = Some (origin, buffer)) as ->.
  { destruct (negb replay_ok); [by injection H as _ <- _ _|].
    destruct copied as [[? ?]|]; by injection H as _ <- _ _. }
  by exists host, chunks, rest.
Qed.
Lemma splice_guards_alike reads resolver port stats services passthrough r conn stats' resolver' :
  splice reads resolver port stats services passthrough = (r, conn, stats', resolver') ->
  ur_allow_private resolver' = ur_allow_private resolver.
Proof using Type.
  unfold splice. destruct (read_hello [] reads) as [[host|e] buffer]; [|by intros [= <- <- <- <-]].
  destruct (negb passthrough && _); [by intros [= <- <- <- <-]|].
  destruct (resolve lookup_ip resolver host port) as [[addrs|src] res] eqn:Er;
    apply resolve_guards_alike in Er; [|by intros [= <- <- <- <-]].
  destruct (connect_first connect addrs); [|by intros [= <- <- <- <-]].
  destruct (negb replay_ok); [by intros [= <- <- <- <-]|].
  destruct copied as [[? ?]|]; by intros [= <- <- <- <-].
Qed.

(** C25: the TLS pass-through is not an open relay.  Whenever the splice
    connects anywhere, the name it acted on is an ASCII name that stands in
    the client's own hello and (unless unknown hosts are deliberately passed
    through) belongs to a service; the address is one the configured
    resolvers answer for that name, it passed the address guard, and the port
    is the configured one; and the origin receives exactly the bytes the
    client sent, a complete record of at most 16 KiB and 5 bytes.  When it
    does not connect, nothing is counted as spliced. *)
Theorem splice_confined reads resolver port stats services passthrough r conn stats' resolver' :
  splice reads resolver port stats services passthrough = (r, conn, stats', resolver') ->
  match conn with
  | Some (origin, replayed) =>
      exists host chunks rest,
        reads = map RData chunks ++ rest /\ replayed = concat chunks /\
        names_part_of replayed host /\ len replayed <= MAX_CLIENT_HELLO /\
        (exists needed, record_length replayed = Some needed /\ needed <= len replayed) /\
        (passthrough = false -> is_Some (service_for (lv_matcher services) host)) /\
        sa_ip origin ∈ answers lookup_ip resolver host /\
        check (sa_ip origin) (ur_allow_private resolver) = Ok tt /\ sa_port origin = port
  | None => r <> Ok tt /\ ss_spliced stats' = ss_spliced stats /\
            ss_bytes_client_to_origin stats' = ss_bytes_client_to_origin stats
  end.
Proof using Type. apply splice_spec. Qed.
End Splice.

(** ** Witnesses *)

Definition toy_hello : Hello :=
  mkHello 769 [x00; x00; x40] 771 (replicate 32 x07) [x01] [x13; x01] [x00] [(43, [x02; x03; x04])]
    [(1, [x41])] (lit "CDN.Example.com") [] [x00].

Lemma toy_hello_ok : hello_ok toy_hello.
Proof. unfold hello_ok, in_u. repeat split; try (repeat constructor; done); try done; cbn; lia. Qed.

Lemma server_name_roundtrip_witness :
  server_name (encode_hello toy_hello ++ [x17]) = Some (lit "cdn.example.com").
Proof. exact (server_name_roundtrip toy_hello [x17] toy_hello_ok). Defined.

Definition toy_splice :=
  splice (fun _ _ => Some [V4 (mkV4 10 0 0 1); V4 (mkV4 8 8 8 8)]) (fun _ => true) true (Some (1, 2))
    [RData (take 20 (encode_hello toy_hello)); RData (drop 20 (encode_hello toy_hello))]
    (mkResolver [] false None) 443 (mkSniStats 1 0 0 0 0 0 0 0 0) (live_new toy_list) false.

Lemma splice_confined_witness :
  toy_splice.1.1.2 = Some (mkSocketAddr (V4 (mkV4 8 8 8 8)) 443, encode_hello toy_hello) /\
  check (V4 (mkV4 8 8 8 8)) false = Ok tt.
Proof.
  assert (toy_splice = (toy_splice.1.1.1, Some (mkSocketAddr (V4 (mkV4 8 8 8 8)) 443, encode_hello toy_hello),
    toy_splice.1.2, toy_splice.2)) as Hs by (vm_compute; reflexivity).
  split; [by rewrite Hs|].
  destruct (splice_confined _ _ _ _ _ _ _ _ _ _ _ _ _ _ Hs) as (host & chunks & rest & H). apply H.
Defined.
