(* ===== verification/Units.v ===== *)
(** * Sizes, durations and the on-disk configuration guard

    Models [crates/cachic/src/config/units.rs] (parsing and rendering sizes and
    durations) and [config/guard.rs] (the [CONFIG] file that records what the
    stored slices depend on, and the start-up check against it).  The file
    system is a parameter of the check: what reading the file gave, and the
    effect is the text written. *)

From S2P Require Import Prelude.
From S2P Require Import RustStr.

Open Scope Z_scope.

(** ** Units *)

Inductive ParseError :=
  | UEmpty
  | UMalformed (s : str)
  | UnknownUnit (input unit : str)
  | UOverflow (s : str).

(** The digits at the front. *)
Fixpoint span_digits (s : str) : str * str :=
  match s with
  | b :: s' => if is_ascii_digit b then let '(d, r) := span_digits s' in (b :: d, r) else ([], s)
  | [] => ([], [])
  end.

Definition split_unit (input : str) : result ParseError (Z * str) :=
  let trimmed := trim input in
  match trimmed with
  | [] => Err UEmpty
  | _ =>
      let '(digits, rest) := span_digits trimmed in
      match digits with
      | [] => Err (UMalformed trimmed)
      | _ =>
          value ← ok_or (parse_u64 digits) (UOverflow trimmed);
          Ok (value, trim rest)
      end
  end.

Definition one_of (s : str) (l : list str) : bool := bool_decide (s ∈ l).

Definition size_multiplier (unit : str) : option Z :=
  if one_of unit [lit ""; lit "b"] then Some 1 else
  if one_of unit [lit "k"; lit "kib"] then Some (2 ^ 10) else
  if one_of unit [lit "m"; lit "mib"] then Some (2 ^ 20) else
  if one_of unit [lit "g"; lit "gib"] then Some (2 ^ 30) else
  if one_of unit [lit "t"; lit "tib"] then Some (2 ^ 40) else
  if one_of unit [lit "kb"] then Some 1000 else
  if one_of unit [lit "mb"] then Some 1000000 else
  if one_of unit [lit "gb"] then Some 1000000000 else
  if one_of unit [lit "tb"] then Some 1000000000000 else None.

Definition parse_size (input : str) : result ParseError Z :=
  '(value, unit) ← split_unit input;
  let unit := to_ascii_lowercase unit in
  multiplier ← ok_or (size_multiplier unit) (UnknownUnit (trim input) unit);
  ok_or (checked_mul 64 value multiplier) (UOverflow (trim input)).

Definition duration_seconds (unit : str) : option Z :=
  if one_of unit [lit ""; lit "s"; lit "sec"; lit "secs"] then Some 1 else
  if one_of unit [lit "m"; lit "min"; lit "mins"] then Some 60 else
  if one_of unit [lit "h"; lit "hr"; lit "hrs"] then Some 3600 else
  if one_of unit [lit "d"; lit "day"; lit "days"] then Some 86400 else
  if one_of unit [lit "w"; lit "week"; lit "weeks"] then Some 604800 else None.

(** In seconds. *)
Definition parse_duration (input : str) : result ParseError Z :=
  '(value, unit) ← split_unit input;
  let unit := to_ascii_lowercase unit in
  seconds ← ok_or (duration_seconds unit) (UnknownUnit (trim input) unit);
  ok_or (checked_mul 64 value seconds) (UOverflow (trim input)).

Definition UNITS : list (str * Z) :=
  [(lit "TiB", 2 ^ 40); (lit "GiB", 2 ^ 30); (lit "MiB", 2 ^ 20); (lit "KiB", 2 ^ 10)].

Fixpoint format_size_with (units : list (str * Z)) (n : Z) : str :=
  match units with
  | [] => to_dec n ++ lit " B"
  | (name, mult) :: units' =>
      if (mult <=? n) && (n mod mult =? 0) then to_dec (n / mult) ++ lit " " ++ name
      else format_size_with units' n
  end.
Definition format_size (n : Z) : str := format_size_with UNITS n.

(** ** Round trip *)

Lemma span_digits_app d r :
  all_digits d -> (forall b, head r = Some b -> is_ascii_digit b = false) ->
  span_digits (d ++ r) = (d, r).
Proof.
  intros Hd Hr. induction Hd as [|b d Hb _ IH]; cbn [app span_digits].
  - destruct r as [|b r]; [done|]. cbn [span_digits]. by rewrite (Hr b).
  - by rewrite Hb, IH.
Qed.

Lemma visible_ends_digits d r b :
  all_digits d -> d <> [] -> last r = Some b -> is_visible b = true -> visible_ends (d ++ r).
Proof.
  intros Hd Hne Hl Hb _. split.
  - intros c Hc. destruct d as [|x d]; [done|]. simpl in Hc. injection Hc as <-.
    apply all_digits_visible in Hd. by inversion Hd.
  - intros c Hc. rewrite last_app, Hl in Hc. by injection Hc as <-.
Qed.

Lemma parse_size_format n unit mult :
  in_u 64 (n * mult) -> in_u 64 n ->
  size_multiplier (to_ascii_lowercase unit) = Some mult ->
  trim (lit " " ++ unit) = unit ->
  (exists b, last unit = Some b /\ is_visible b = true) ->
  parse_size (to_dec n ++ lit " " ++ unit) = Ok (n * mult).
Proof.
  intros Hm Hn Hu Ht (b & Hl & Hb). unfold parse_size, split_unit.
  destruct (to_dec_spec n ltac:(unfold in_u in Hn; lia)) as (Hne & Hd & _).
  assert (last (lit " " ++ unit) = Some b) as Hl' by (rewrite last_app, Hl; done).
  rewrite (trim_visible _ (visible_ends_digits _ _ _ Hd Hne Hl' Hb)).
  rewrite span_digits_app; [|done|by intros ? [= <-]].
  destruct (to_dec n) as [|x d] eqn:Ed; [done|]. cbn [app]. rewrite <- Ed.
  rewrite parse_u64_to_dec by done. cbn [ok_or mbind result_bind]. rewrite Ht, Hu.
  cbn [ok_or mbind result_bind]. unfold checked_mul.
  destruct (Z.ltb_spec (n * mult) (2 ^ 64)); [done|]. unfold in_u in Hm. lia.
Qed.

Lemma format_size_with_parses units n :
  in_u 64 n ->
  Forall (fun '(name, mult) => 0 < mult /\
    size_multiplier (to_ascii_lowercase name) = Some mult /\
    trim (lit " " ++ name) = name /\ (exists b, last name = Some b /\ is_visible b = true)) units ->
  parse_size (format_size_with units n) = Ok n.
Proof.
  intros Hn. induction 1 as [|[name mult] units (Hm & Hs & Ht & Hl) _ IH]; cbn [format_size_with].
  - change (lit " B") with (lit " " ++ lit "B").
    rewrite (parse_size_format n (lit "B") 1); [f_equal; lia| | |done|done|].
    + by rewrite Z.mul_1_r.
    + done.
    + by exists x42.
  - destruct (Z.leb_spec mult n); [|done].
    destruct (Z.eqb_spec (n mod mult) 0) as [E|]; cbn [andb]; [|done].
    pose proof (Z.div_mod n mult ltac:(lia)) as Hd.
    assert (n / mult * mult = n) as Hnm by lia.
    rewrite (parse_size_format (n / mult) name mult); [by rewrite Hnm| |  |done|done|done].
    + by rewrite Hnm.
    + unfold in_u in *. split; [apply Z.div_pos; lia|]. apply Z.div_lt_upper_bound; nia.
Qed.

(** A size survives being printed.  Whatever byte count is rendered for
    logs, errors or the configuration reference, parsing the rendering gives
    back exactly that count; no rendering is ambiguous or loses precision. *)
Theorem parse_format_size n : in_u 64 n -> parse_size (format_size n) = Ok n.
Proof.
  intros Hn. apply format_size_with_parses; [done|].
  repeat constructor; try done; by exists x42.
Qed.

(** Size arithmetic never wraps.  Every successful parse of a size or a
    duration is the number written times the multiplier of its unit, within 64
    bits; a product that does not fit is refused. *)
Theorem parse_units_no_overflow input n :
  (parse_size input = Ok n ->
     in_u 64 n /\ exists value unit mult, split_unit input = Ok (value, unit) /\
       size_multiplier (to_ascii_lowercase unit) = Some mult /\ n = value * mult) /\
  (parse_duration input = Ok n ->
     in_u 64 n /\ exists value unit mult, split_unit input = Ok (value, unit) /\
       duration_seconds (to_ascii_lowercase unit) = Some mult /\ n = value * mult).
Proof.
  assert (forall value unit, split_unit input = Ok (value, unit) -> 0 <= value) as Hv.
  { intros value unit. unfold split_unit. destruct (trim input) as [|c t]; [done|].
    destruct (span_digits (c :: t)) as [[|d ds] rest]; [done|].
    destruct (parse_u64 (d :: ds)) as [v|] eqn:E; [|done]. cbn [ok_or mbind result_bind].
    intros [= <- <-]. apply parse_u64_range in E. unfold in_u in E. lia. }
  assert (forall unit m, (size_multiplier unit = Some m \/ duration_seconds unit = Some m) -> 0 <= m) as Hm.
  { unfold size_multiplier, duration_seconds. intros unit m.
    repeat (destruct (one_of _ _)); intros [E|E]; (discriminate E || (injection E as <-; lia)). }
  unfold parse_size, parse_duration.
  destruct (split_unit input) as [[value unit]|] eqn:Es; [|done]. cbn [mbind result_bind].
  specialize (Hv value unit eq_refl). split.
  - destruct (size_multiplier (to_ascii_lowercase unit)) as [m|] eqn:Em; [|done].
    cbn [ok_or mbind result_bind]. specialize (Hm _ m (or_introl Em)). unfold checked_mul.
    destruct (Z.ltb_spec (value * m) (2 ^ 64)); [|done]. intros [= <-].
    split; [unfold in_u; nia|]. exists value, unit, m. done.
  - destruct (duration_seconds (to_ascii_lowercase unit)) as [m|] eqn:Em; [|done].
    cbn [ok_or mbind result_bind]. specialize (Hm _ m (or_intror Em)). unfold checked_mul.
    destruct (Z.ltb_spec (value * m) (2 ^ 64)); [|done]. intros [= <-].
    split; [unfold in_u; nia|]. exists value, unit, m. done.
Qed.

(** ** The recorded configuration *)

Definition STORE_FORMAT_VERSION : Z := 2.

Record StoredConfig := mkStoredConfig {
  sc_slice_size : Z;
  sc_store_format_version : Z }.

#[export] Instance StoredConfig_eq_dec : EqDecision StoredConfig.
Proof. solve_decision. Defined.

Inductive GuardError :=
  | GRead
  | GWrite
  | GMalformed (line : Z)
  | GMismatch (found configured : str).

Definition newline : str := [x0a].

Definition stored_render (c : StoredConfig) : str :=
  lit "# cachic cache directory configuration." ++ newline ++
  lit "# Written automatically. Changing these by hand will not migrate the stored data." ++ newline ++
  (lit "store_format_version=" ++ to_dec (sc_store_format_version c)) ++ newline ++
  (lit "slice_size=" ++ to_dec (sc_slice_size c)) ++ newline.

(** The loop of [parse]: what has been read so far of the two settings. *)
Fixpoint stored_parse_lines (line : Z) (slice_size version : option Z) (ls : list str)
    : result GuardError (option Z * option Z) :=
  match ls with
  | [] => Ok (slice_size, version)
  | raw :: ls' =>
      let l := trim raw in
      match l with
      | [] => stored_parse_lines (line + 1) slice_size version ls'
      | _ =>
        if starts_with (lit "#") l then stored_parse_lines (line + 1) slice_size version ls' else
        '(key, value) ← ok_or (split_once x3d l) (GMalformed line);
        let parsed := ok_or (parse_u64 (trim value)) (GMalformed line) in
        if bool_decide (trim key = lit "slice_size") then
          v ← parsed; stored_parse_lines (line + 1) (Some v) version ls'
        else if bool_decide (trim key = lit "store_format_version") then
          v ← parsed; stored_parse_lines (line + 1) slice_size (Some (wrap32 v)) ls'
        else Err (GMalformed line)
      end
  end.

Definition stored_parse (text : str) : result GuardError StoredConfig :=
  r ← stored_parse_lines 1 None None (lines text);
  match r with
  | (Some s, Some v) => Ok (mkStoredConfig s v)
  | _ => Err (GMalformed 0)
  end.

Definition stored_describe (c : StoredConfig) : str :=
  lit "slice size " ++ format_size (sc_slice_size c) ++ lit " (format version " ++
  to_dec (sc_store_format_version c) ++ lit ")".

(** The file system as the check sees it: the file's text if it exists, whether
    reading fails for another reason, and whether writing succeeds. *)
Record GuardFs := mkGuardFs {
  gf_text : option str;
  gf_read_fails : bool;
  gf_write_fails : bool }.

Definition guard_check (fs : GuardFs) (configured : StoredConfig) (force : bool)
    : result GuardError GuardFs :=
  existing ← (if gf_read_fails fs then Err GRead else
              match gf_text fs with
              | Some text => found ← stored_parse text; Ok (Some found)
              | None => Ok None
              end);
  let record :=
    if gf_write_fails fs then Err GWrite
    else Ok (mkGuardFs (Some (stored_render configured)) false false) in
  match existing with
  | Some found =>
      if bool_decide (found = configured) then Ok fs else
      if negb force then Err (GMismatch (stored_describe found) (stored_describe configured))
      else record
  | None => record
  end.

(** ** Lemmas *)

Lemma split_on_app c a b : c ∉ a -> split_on c (a ++ c :: b) = a :: split_on c b.
Proof.
  induction a as [|x a IH]; intros Hc; cbn [app split_on].
  - by rewrite bool_decide_eq_true_2.
  - apply not_elem_of_cons in Hc as [Hx Ha]. rewrite bool_decide_eq_false_2 by congruence.
    by rewrite IH.
Qed.

Lemma chomp_lines_cons p q ps : chomp_lines (p :: q :: ps) = chomp p :: chomp_lines (q :: ps).
Proof. reflexivity. Qed.

Lemma lines_app a b :
  x0a ∉ a -> lines (a ++ newline ++ b) = chomp a :: lines b.
Proof.
  intros Ha. unfold lines, newline. change ([x0a] ++ b) with (x0a :: b).
  rewrite split_on_app by done.
  assert (exists q ps, split_on x0a b = q :: ps) as (q & ps & ->).
  { destruct b as [|c b]; cbn [split_on]; [eauto|].
    destruct (bool_decide (c = x0a)); [eauto|]. destruct (split_on x0a b); eauto. }
  apply chomp_lines_cons.
Qed.

Lemma chomp_visible a : visible_ends a -> chomp a = a.
Proof.
  intros Ha. unfold chomp, strip_suffix. destruct (strip_prefix _ _) as [r|] eqn:E; [|done].
  apply strip_prefix_Some in E. exfalso.
  apply (f_equal reverse) in E. rewrite reverse_involutive in E.
  assert (last a = Some x0d) as Hl.
  { rewrite E, reverse_app. apply (last_snoc x0d). }
  destruct Ha as [_ Ha]; [by intros ->|]. by specialize (Ha _ Hl).
Qed.

Lemma setting_line key n :
  Forall (fun b => is_visible b = true) key -> x3d ∉ key -> 0 <= n ->
  let l := (key ++ [x3d]) ++ to_dec n in
  chomp l = l /\ trim l = l /\ ~ (x0a ∈ l) /\ split_once x3d l = Some (key, to_dec n).
Proof.
  intros Hk Heq Hn l. destruct (to_dec_spec n Hn) as (_ & Hd & _).
  assert (Forall (fun b => is_visible b = true) l) as Hv.
  { unfold l. rewrite !Forall_app. split; [split; [done|by repeat constructor]|].
    by apply all_digits_visible. }
  split; [by apply chomp_visible, visible_visible_ends|].
  split; [by apply trim_visible, visible_visible_ends|]. split.
  - intros Hin. rewrite Forall_forall in Hv. by specialize (Hv _ Hin).
  - apply split_once_Some. split; [|done]. unfold l. by rewrite <- app_assoc.
Qed.

Lemma stored_parse_render c :
  in_u 64 (sc_slice_size c) -> in_u 32 (sc_store_format_version c) ->
  stored_parse (stored_render c) = Ok c.
Proof.
  intros Hs Hv. unfold in_u in *. unfold stored_parse, stored_render.
  destruct (setting_line (lit "store_format_version") (sc_store_format_version c))
    as (C1 & T1 & N1 & S1); [decide_true|decide_true|lia|].
  destruct (setting_line (lit "slice_size") (sc_slice_size c))
    as (C2 & T2 & N2 & S2); [decide_true|decide_true|lia|].
  rewrite lines_app by decide_true.
  rewrite lines_app by decide_true.
  change (lit "store_format_version=") with (lit "store_format_version" ++ [x3d]).
  change (lit "slice_size=") with (lit "slice_size" ++ [x3d]).
  rewrite lines_app by done.
  rewrite <- (app_nil_r newline). rewrite lines_app by done.
  rewrite C1, C2. change (lines []) with (@nil str).
  cbn [stored_parse_lines].
  replace (trim (chomp (lit "# cachic cache directory configuration.")))
    with (lit "# cachic cache directory configuration.") by (by vm_compute).
  replace (trim (chomp (lit "# Written automatically. Changing these by hand will not migrate the stored data.")))
    with (lit "# Written automatically. Changing these by hand will not migrate the stored data.")
    by (by vm_compute).
  replace (starts_with (lit "#") (lit "# cachic cache directory configuration.")) with true by done.
  replace (starts_with (lit "#") (lit "# Written automatically. Changing these by hand will not migrate the stored data."))
    with true by done.
  destruct (lit "# cachic cache directory configuration.") as [|a1 l1] eqn:E1; [done|].
  destruct (lit "# Written automatically. Changing these by hand will not migrate the stored data.") as [|a2 l2] eqn:E2; [done|].
  rewrite T1, T2, S1, S2.
  assert (forall n, in_u 64 n -> parse_u64 (trim (to_dec n)) = Some n) as P.
  { intros n Hn. destruct (to_dec_spec n ltac:(unfold in_u in Hn; lia)) as (_ & Hd & _).
    rewrite trim_visible by (by apply visible_visible_ends, all_digits_visible).
    by apply parse_u64_to_dec. }
  assert (exists x r, (lit "store_format_version" ++ [x3d]) ++ to_dec (sc_store_format_version c) = x :: r
     /\ starts_with (lit "#") (x :: r) = false) as (xa & ra & -> & ->) by (eexists _, _; split; reflexivity).
  assert (exists x r, (lit "slice_size" ++ [x3d]) ++ to_dec (sc_slice_size c) = x :: r
     /\ starts_with (lit "#") (x :: r) = false) as (xb & rb & -> & ->) by (eexists _, _; split; reflexivity).
  cbn [ok_or mbind result_bind].
  rewrite !P by (unfold in_u; lia). cbn [ok_or mbind result_bind].
  change (bool_decide (trim (lit "store_format_version") = lit "slice_size")) with false.
  change (bool_decide (trim (lit "store_format_version") = lit "store_format_version")) with true.
  change (bool_decide (trim (lit "slice_size") = lit "slice_size")) with true.
  cbn [ok_or mbind result_bind]. rewrite wrap_small by (unfold in_u; lia). by destruct c.
Qed.

Lemma stored_parse_lines_no_mismatch line s v ls f c :
  stored_parse_lines line s v ls <> Err (GMismatch f c).
Proof.
  revert line s v. induction ls as [|raw ls IH]; intros line s v; cbn [stored_parse_lines]; [done|].
  destruct (trim raw) as [|x l]; [apply IH|]. destruct (starts_with _ _); [apply IH|].
  destruct (split_once x3d (x :: l)) as [[key value]|]; cbn [ok_or mbind result_bind]; [|done].
  destruct (bool_decide _); [|destruct (bool_decide _); [|done]];
    (destruct (parse_u64 (trim value)); cbn [ok_or mbind result_bind]; [apply IH|done]).
Qed.

Lemma stored_parse_no_mismatch text f c : stored_parse text <> Err (GMismatch f c).
Proof.
  unfold stored_parse. pose proof (stored_parse_lines_no_mismatch 1 None None (lines text) f c).
  destruct (stored_parse_lines _ _ _ _) as [[[?|] [?|]]|e]; cbn [mbind result_bind]; congruence.
Qed.

(** Start-up never serves slices under a configuration they were not
    written with.  A check that succeeds leaves a [CONFIG] file that parses to
    exactly the configuration in use, and without [FORCE_CONFIG] it succeeds
    only on a directory that had no such file or recorded that same
    configuration; what it writes is read back exactly on the next start; and
    a mismatch, a malformed file or an I/O error is an error that leaves the
    file as it was. *)
Theorem guard_check_sound fs configured force :
  in_u 64 (sc_slice_size configured) -> in_u 32 (sc_store_format_version configured) ->
  match guard_check fs configured force with
  | Ok fs' =>
      (exists text, gf_text fs' = Some text /\ stored_parse text = Ok configured) /\
      (exists fs'', guard_check fs' configured false = Ok fs'' /\ fs'' = fs') /\
      (force = false ->
         match gf_text fs with
         | Some text => stored_parse text = Ok configured
         | None => True
         end)
  | Err (GMismatch found expected) =>
      force = false /\
      exists text c, gf_text fs = Some text /\ stored_parse text = Ok c /\ c <> configured /\
        found = stored_describe c /\ expected = stored_describe configured
  | Err _ => True
  end.
Proof.
  intros Hs Hv. pose proof (stored_parse_render configured Hs Hv) as Hr.
  assert (forall t rf wf, rf = false -> stored_parse t = Ok configured ->
    guard_check (mkGuardFs (Some t) rf wf) configured false = Ok (mkGuardFs (Some t) rf wf)) as Hagain.
  { intros t rf wf -> Ht. unfold guard_check. cbn [gf_read_fails gf_text]. rewrite Ht.
    cbn [mbind result_bind]. by rewrite bool_decide_eq_true_2. }
  destruct fs as [text rf wf]. unfold guard_check at 1. cbn [gf_text gf_read_fails gf_write_fails].
  destruct rf; [done|].
  assert (exists text0, Some (stored_render configured) = Some text0 /\
            stored_parse text0 = Ok configured) as Hrec by eauto.
  destruct text as [t|]; cbn [mbind result_bind].
  - destruct (stored_parse t) as [found|e] eqn:Et; cbn [mbind result_bind].
    + case_bool_decide as E; [subst; eauto 10|]. destruct force; cbn [negb]; [|eauto 10].
      destruct wf; [done|]. split; [done|]. split; [eexists; eauto|done].
    + destruct e as [| | |f c]; [done..|]. by apply stored_parse_no_mismatch in Et.
  - destruct wf; [done|]. split; [done|]. split; [eexists; eauto|done].
Qed.

(** ** Witnesses *)

Lemma parse_format_size_witness :
  parse_size (format_size 1048576) = Ok 1048576 /\ format_size 1048576 = lit "1 MiB".
Proof. split; [apply parse_format_size; vm_compute; intuition discriminate|reflexivity]. Defined.

Lemma guard_check_sound_witness :
  exists fs', guard_check (mkGuardFs None false false) (mkStoredConfig 1048576 2) false = Ok fs' /\
    exists text, gf_text fs' = Some text /\ stored_parse text = Ok (mkStoredConfig 1048576 2).
Proof.
  eexists. split; [reflexivity|].
  pose proof (guard_check_sound (mkGuardFs None false false) (mkStoredConfig 1048576 2) false
    ltac:(vm_compute; intuition discriminate) ltac:(vm_compute; intuition discriminate)) as H.
  destruct H as [H _]. exact H.
Defined.
