(* ===== verification/Key.v ===== *)
(** * Service rules and cache keys

    Models [crates/cachic/src/config/rules.rs] (per-service rules and their
    validation), [services/defaults.rs] (the shipped rules and how an operator's
    replace them) and [services/key.rs] (the normalisation of a request into a
    cache key and of a key into an object identifier).  Regular expressions are
    the [regex] crate's: [regex_valid] and [is_match] are parameters, and a
    compiled set is represented by its patterns.  Reading the rules file as TOML
    is a parameter as well. *)

From S2P Require Import Prelude.
From S2P Require Import RustStr.
From S2P Require Import SliceCodec.
From S2P Require Import Domains.
From S2P Require Import Units.

Open Scope Z_scope.

(** ** Rules *)

Record ServiceRule := mkServiceRule {
  sr_keep_query : bool;
  sr_include_host : bool;
  sr_honour_upstream_cache_control : bool;
  sr_upstream_https : bool;
  sr_slice_size : option str;
  sr_max_inflight : option Z;
  sr_include_paths : list str;
  sr_exclude_paths : list str }.

Definition service_rule_default : ServiceRule :=
  mkServiceRule false false false false None None [] [].

Record Rules := mkRules {
  ru_defaults : ServiceRule;
  ru_services : gmap str ServiceRule }.

Inductive RulesError :=
  | RRead
  | RParse
  | RInvalid (service : str).

(** [u64::is_power_of_two]. *)
Definition is_power_of_two (n : Z) : bool := (0 <? n) && (n =? 2 ^ Z.log2 n).

Definition validate_rule (name : str) (rule : ServiceRule) : result RulesError unit :=
  _ ← match sr_slice_size rule with
      | Some slice =>
          size ← map_err (fun _ => RInvalid name) (parse_size slice);
          if (size =? 0) || negb (is_power_of_two size) then Err (RInvalid name) else Ok tt
      | None => Ok tt
      end;
  if bool_decide (sr_max_inflight rule = Some 0) then Err (RInvalid name) else Ok tt.

(** The loop over the services, which a [BTreeMap] visits in key order. *)
Fixpoint validate_entries (l : list (str * ServiceRule)) : result RulesError unit :=
  match l with
  | [] => Ok tt
  | (name, rule) :: l' => _ ← validate_rule name rule; validate_entries l'
  end.

Definition rules_validate (order : gmap str ServiceRule -> list (str * ServiceRule)) (r : Rules)
    : result RulesError unit :=
  validate_entries (order (ru_services r)).

(** [toml] is what [read_to_string] and [toml::from_str] gave. *)
Definition rules_load order (toml : result RulesError Rules) : result RulesError Rules :=
  rules ← toml; _ ← rules_validate order rules; Ok rules.

Definition for_service (r : Rules) (service : str) : ServiceRule :=
  default (ru_defaults r) (ru_services r !! service).

(** ** Shipped defaults *)

Definition excluding (paths : list str) : ServiceRule :=
  mkServiceRule false false false false None None [] paths.

Definition shipped : Rules :=
  mkRules service_rule_default
    (<[lit "riot" := excluding [lit "releaselisting_"; lit "\.version$"]]>
     (<[lit "arenanet" := excluding [lit "^/latest64"]]>
      (<[lit "wsus" := excluding [lit "(?i)authrootstl\.cab$"; lit "(?i)pinrulesstl\.cab$";
                                  lit "(?i)disallowedcertstl\.cab$"]]>
       (<[lit "steam" := excluding [lit "^/server-status$"]]> ∅)))).

Definition merge (operator : Rules) : Rules :=
  mkRules (ru_defaults operator) (ru_services operator ∪ ru_services shipped).

(** ** Compiled rules *)

Record CompiledRule := mkCompiledRule {
  cr_keep_query : bool;
  cr_include_host : bool;
  cr_upstream_https : bool;
  cr_include : option (list str);
  cr_exclude : option (list str) }.

Definition compiled_rule_default : CompiledRule := mkCompiledRule false false false None None.

Record CompileError := mkCompileError { ce_service : str; ce_field : str; ce_pattern : str }.

Section Compile.
Context (regex_valid : str -> bool).
(** Whether [RegexSet::new] accepts the set, once each member is valid. *)
Context (regex_set_valid : list str -> bool).
Context (is_match : list str -> str -> bool).

Fixpoint join_comma (ps : list str) : str :=
  match ps with
  | [] => []
  | p :: ps' => match ps' with [] => p | _ => p ++ lit ", " ++ join_comma ps' end
  end.

Definition build_set (service field : str) (patterns : list str)
    : result CompileError (option (list str)) :=
  match patterns with
  | [] => Ok None
  | _ =>
      match find (fun p => negb (regex_valid p)) patterns with
      | Some p => Err (mkCompileError service field p)
      | None =>
          if regex_set_valid patterns then Ok (Some patterns)
          else Err (mkCompileError service field (join_comma patterns))
      end
  end.

Definition compile (service : str) (rule : ServiceRule) : result CompileError CompiledRule :=
  include ← build_set service (lit "include_paths") (sr_include_paths rule);
  exclude ← build_set service (lit "exclude_paths") (sr_exclude_paths rule);
  Ok (mkCompiledRule (sr_keep_query rule) (sr_include_host rule) (sr_upstream_https rule)
        include exclude).

Definition is_cacheable (r : CompiledRule) (path : str) : bool :=
  if match cr_exclude r with Some set => is_match set path | None => false end then false else
  match cr_include r with Some set => is_match set path | None => true end.
End Compile.

(** ** Paths *)

Definition hex_value (b : byte) : option Z :=
  let z := Z_of_byte b in
  if (48 <=? z) && (z <=? 57) then Some (z - 48)
  else if (97 <=? z) && (z <=? 102) then Some (z - 97 + 10)
  else if (65 <=? z) && (z <=? 70) then Some (z - 65 + 10) else None.

Fixpoint decode_bytes (s : str) : bytes :=
  match s with
  | [] => []
  | b :: s1 =>
      match s1 with
      | h :: s2 =>
          match s2 with
          | l :: s3 =>
              match (if bool_decide (b = x25) then hex_value h else None), hex_value l with
              | Some hi, Some lo => byte_of_Z (Z.lor (Z.shiftl hi 4) lo) :: decode_bytes s3
              | _, _ => b :: decode_bytes s1
              end
          | [] => b :: decode_bytes s1
          end
      | [] => b :: decode_bytes s1
      end
  end.

Definition percent_decode (input : str) : str :=
  if negb (contains_byte x25 input) then input else
  match from_utf8 (decode_bytes input) with Some s => s | None => input end.

(** One segment: empty and [.] are skipped, [..] pops, others are pushed. *)
Definition push_segment (segments : list str) (segment : str) : list str :=
  if bool_decide (segment = [] \/ segment = lit ".") then segments
  else if bool_decide (segment = lit "..") then removelast segments
  else segments ++ [segment].

Definition join_segments (segments : list str) : str :=
  concat (map (fun s => x2f :: s) segments).

Definition normalise_path (path : str) : str :=
  let decoded := percent_decode path in
  let segments := foldl push_segment [] (split_on x2f decoded) in
  let out := join_segments segments in
  match out with
  | [] => [x2f]
  | _ => if ends_with [x2f] decoded then out ++ [x2f] else out
  end.

Definition split_target (target : str) : str * option str :=
  match split_once x3f target with
  | Some (path, query) => (path, Some query)
  | None => (target, None)
  end.

Record CacheKey := mkCacheKey { ck_key : str; ck_service : str }.

Definition normalise (service host target : str) (rule : CompiledRule) : CacheKey :=
  let '(path, query) := split_target target in
  mkCacheKey
    ((if cr_include_host rule then normalise_host host else []) ++
     normalise_path path ++
     (if cr_keep_query rule then match query with Some q => x3f :: q | None => [] end else []))
    service.

(** What is hashed, and the identifier taken from the hash. *)
Definition key_preimage (k : CacheKey) : bytes := ck_service k ++ [x00] ++ ck_key k.
Definition key_object_id (blake3 : bytes -> bytes) (k : CacheKey) : ObjectId :=
  take 16 (blake3 (key_preimage k)).

(** ** Canonical paths *)

Definition segment_ok (s : str) : Prop :=
  s <> [] /\ s <> lit "." /\ s <> lit ".." /\ ~ (x2f ∈ s).

(** The shape of every normalised path: segments, then perhaps a slash. *)
Definition canonical (p : str) : Prop :=
  exists segments trailing,
    Forall segment_ok segments /\ (trailing = [] \/ trailing = [x2f]) /\
    (segments = [] -> trailing = [x2f]) /\ p = join_segments segments ++ trailing.

Lemma split_on_pieces c s : Forall (fun p => ~ (c ∈ p)) (split_on c s).
Proof.
  induction s as [|b s IH]; cbn [split_on].
  - constructor; [apply not_elem_of_nil|constructor].
  - case_bool_decide as E.
    + constructor; [apply not_elem_of_nil|done].
    + destruct (split_on c s) as [|p ps].
      * constructor; [|constructor]. rewrite list_elem_of_singleton. congruence.
      * inversion_clear IH. constructor; [|done]. rewrite elem_of_cons. intros [?|?]; congruence || done.
Qed.

Lemma Forall_removelast {A} (P : A -> Prop) l : Forall P l -> Forall P (removelast l).
Proof.
  induction 1 as [|x l Hx Hl IH]; [constructor|]. cbn [removelast].
  destruct l; [constructor|]. by constructor.
Qed.

Lemma push_segments_ok acc pieces :
  Forall segment_ok acc -> Forall (fun p => ~ (x2f ∈ p)) pieces ->
  Forall segment_ok (foldl push_segment acc pieces).
Proof.
  intros Ha Hp. revert acc Ha. induction Hp as [|p pieces Hp _ IH]; intros acc Ha; [done|].
  cbn [foldl]. apply IH. unfold push_segment. case_bool_decide as E1; [done|].
  case_bool_decide as E2; [by apply Forall_removelast|].
  apply Forall_app. split; [done|]. constructor; [|constructor].
  split; [tauto|]. split; [tauto|]. by split.
Qed.

Lemma join_segments_nil segments : join_segments segments = [] -> segments = [].
Proof. by destruct segments. Qed.

Lemma normalise_path_shape path : canonical (normalise_path path).
Proof.
  unfold normalise_path. set (decoded := percent_decode path).
  set (segments := foldl push_segment [] (split_on x2f decoded)).
  assert (Forall segment_ok segments) as Hs.
  { apply push_segments_ok; [constructor|apply split_on_pieces]. }
  destruct (join_segments segments) as [|b out] eqn:E.
  - exists [], [x2f]. repeat split; auto.
  - rewrite <- E. assert (segments <> []) as Hne by (intros H; by rewrite H in E).
    destruct (ends_with [x2f] decoded).
    + exists segments, [x2f]. repeat split; auto.
    + exists segments, []. rewrite app_nil_r. repeat split; auto. by intros H.
Qed.

(** Splitting a joined path gives the segments back. *)
Lemma split_on_join segments trailing :
  Forall segment_ok segments -> trailing = [] \/ trailing = [x2f] ->
  split_on x2f (join_segments segments ++ trailing) =
  [] :: match segments, trailing with [], [] => [] | _, _ => segments ++ (if decide (trailing = []) then [] else [[]]) end.
Proof.
  intros Hs Ht. induction Hs as [|s segments (_ & _ & _ & Hs) Hss IH].
  - by destruct Ht as [-> | ->].
  - cbn [join_segments map concat app]. cbn [split_on]. rewrite bool_decide_eq_true_2 by done. f_equal.
    destruct segments as [|s' segments'].
    + cbn [map concat]. rewrite app_nil_r. destruct Ht as [-> | ->].
      * rewrite app_nil_r, split_on_none by done. done.
      * rewrite (split_on_app x2f s []) by done. done.
    + change (concat (map (fun s => x2f :: s) (s' :: segments'))) with (join_segments (s' :: segments')).
      rewrite <- app_assoc. cbn [join_segments map concat app] in *.
      rewrite split_on_app by done. cbn [split_on] in IH.
      rewrite bool_decide_eq_true_2 in IH by done. injection IH as ->.
      by destruct Ht as [-> | ->].
Qed.

Lemma push_segments_id acc segments :
  Forall segment_ok segments -> foldl push_segment acc segments = acc ++ segments.
Proof.
  intros Hs. revert acc. induction Hs as [|s segments (H1 & H2 & H3 & _) _ IH]; intros acc.
  - by rewrite app_nil_r.
  - cbn [foldl]. rewrite IH. unfold push_segment.
    rewrite bool_decide_eq_false_2 by tauto. rewrite bool_decide_eq_false_2 by done.
    by rewrite <- app_assoc.
Qed.

Lemma ends_with_slash s x : ends_with [x2f] (s ++ [x]) = bool_decide (x = x2f).
Proof.
  unfold ends_with. rewrite reverse_app. unfold starts_with. cbn.
  destruct (bool_decide (x2f = x)) eqn:E.
  - apply bool_decide_eq_true in E as <-. by rewrite bool_decide_eq_true_2.
  - apply bool_decide_eq_false in E. by rewrite bool_decide_eq_false_2 by congruence.
Qed.

Lemma join_segments_last segments :
  Forall segment_ok segments -> segments <> [] -> ends_with [x2f] (join_segments segments) = false.
Proof.
  intros Hs Hne. destruct (exists_last Hne) as (init & s & ->).
  apply Forall_app in Hs as [_ Hs]. inversion_clear Hs as [|? ? (H1 & _ & _ & H4) _].
  destruct (exists_last H1) as (s' & x & ->).
  unfold join_segments. rewrite map_app, concat_app. cbn [map concat]. rewrite app_nil_r.
  change (x2f :: s' ++ [x]) with ((x2f :: s') ++ [x]). rewrite app_assoc, ends_with_slash.
  apply bool_decide_eq_false. intros ->. apply H4. apply elem_of_app. right. by left.
Qed.

Lemma canonical_fixed p : canonical p -> ~ (x25 ∈ p) -> normalise_path p = p.
Proof.
  intros (segments & trailing & Hs & Ht & Htr & ->) Hp.
  unfold normalise_path, percent_decode, contains_byte.
  rewrite bool_decide_eq_false_2 by done. cbn [negb].
  rewrite split_on_join by done. cbn [foldl].
  change (push_segment [] []) with (@nil str).
  destruct segments as [|s segments].
  - rewrite (Htr eq_refl). reflexivity.
  - assert (foldl push_segment [] (match s :: segments, trailing with [], [] => []
        | _, _ => (s :: segments) ++ (if decide (trailing = []) then [] else [[]]) end) = s :: segments) as ->.
    { destruct Ht as [-> | ->].
      - rewrite decide_True, app_nil_r by done. by apply push_segments_id.
      - rewrite decide_False by done. rewrite foldl_app, (push_segments_id [] (s :: segments)) by done. reflexivity. }
    destruct (join_segments (s :: segments)) as [|b out] eqn:E; [done|]. rewrite <- E.
    destruct Ht as [-> | ->].
    + rewrite app_nil_r, join_segments_last by done. done.
    + rewrite ends_with_slash, bool_decide_eq_true_2 by done. done.
Qed.

(** Normalised paths are canonical and stable.  Every normalised path
    starts at the root and consists of non-empty segments none of which is
    [.] or [..], so no request can name a key above the root;
    and normalising again changes nothing, unless decoding left a
    percent sign. *)
Theorem normalise_path_canonical path :
  canonical (normalise_path path) /\
  (~ (x25 ∈ normalise_path path) ->
   normalise_path (normalise_path path) = normalise_path path).
Proof.
  split; [apply normalise_path_shape|]. intros H.
  apply canonical_fixed; [apply normalise_path_shape|done].
Qed.

Lemma split_target_query path q :
  ~ (x3f ∈ path) -> split_target (path ++ x3f :: q) = (path, Some q).
Proof.
  intros Hp. unfold split_target.
  by rewrite (proj2 (split_once_Some x3f (path ++ x3f :: q) path q)).
Qed.


(** An operator's entry replaces the shipped one as a whole. *)
Lemma merge_for_service operator service :
  for_service (merge operator) service =
  match ru_services operator !! service with
  | Some rule => rule
  | None => default (ru_defaults operator) (ru_services shipped !! service)
  end.
Proof.
  unfold for_service, merge. cbn [ru_services ru_defaults]. rewrite lookup_union.
  destruct (ru_services operator !! service) as [r|], (ru_services shipped !! service); reflexivity.
Qed.

(** With the query kept, a path whose decoding contains a question mark has the
    key of another object: [/x%3Fv=1] and [/x?v=1] collide. *)
Lemma keep_query_collision service host :
  let rule := mkCompiledRule true false false None None in
  normalise service host (lit "/x%3Fv=1") rule = normalise service host (lit "/x?v=1") rule.
Proof. reflexivity. Qed.

(** ** Witness *)

