(* ===== verification/Config.v ===== *)
(** * Configuration and the free-space guard

    Models [crates/cachic/src/config/mod.rs] after the command line has been
    parsed - [validate], [stored], [prepare] - and [store/space.rs].  Parsing
    the command line is [clap]'s; reading the rules file is an input.  The
    results are what the other components assume of their parameters. *)

From S2P Require Import Prelude.
From S2P Require Import RustStr.
From S2P Require Import Guard.
From S2P Require Import Resolver.
From S2P Require Import Units.
From S2P Require Import Key.
From S2P Require Import Range.

Open Scope Z_scope.

Inductive LogFormat := Json | Lancache.

Record Config := mkConfig {
  cf_cache_disk_size : Z;
  cf_cache_mem_size : Z;
  cf_cache_max_age : Z;
  cf_cache_slice_size : Z;
  cf_cache_direct_io : bool;
  cf_cache_flushers : Z;
  cf_cache_buffer_pool : Z;
  cf_cache_data_dir : str;
  cf_min_free_disk : Z;
  cf_force_config : bool;
  cf_http_port : Z;
  cf_https_port : Z;
  cf_admin_port : Z;
  cf_max_connections_per_peer : Z;
  cf_admin_bind : IpAddr;
  cf_upstream_dns : list IpAddr;
  cf_upstream_max_inflight : Z;
  cf_stale_on_error : bool;
  cf_readahead_slices : Z;
  cf_allow_private_upstreams : bool;
  cf_passthrough_unknown_hosts : bool;
  cf_cache_domains_repo : str;
  cf_cache_domains_refresh : Z;
  cf_cache_domains_dir : option str;
  cf_rules_file : option str;
  cf_log_format : LogFormat;
  cf_log_level : str;
  cf_admin_token : str }.

Inductive ConfigError :=
  | CInvalid (setting value : str)
  | COrdering (a a_value b b_value : str)
  | CGuard (e : GuardError)
  | CRules (e : RulesError).

Definition stored (c : Config) : StoredConfig :=
  mkStoredConfig (cf_cache_slice_size c) STORE_FORMAT_VERSION.

Definition MIN_SLICE_SIZE : Z := 4096.

Definition validate (c : Config) : result ConfigError unit :=
  if cf_cache_flushers c =? 0 then
    Err (CInvalid (lit "CACHE_FLUSHERS") (to_dec (cf_cache_flushers c)))
  else if cf_cache_buffer_pool c <? sat_mul 64 (cf_cache_slice_size c) 4 then
    Err (CInvalid (lit "CACHE_BUFFER_POOL") (format_size (cf_cache_buffer_pool c)))
  else if cf_cache_slice_size c <? MIN_SLICE_SIZE then
    Err (CInvalid (lit "CACHE_SLICE_SIZE") (format_size (cf_cache_slice_size c)))
  else if (cf_cache_slice_size c =? 0) || negb (is_power_of_two (cf_cache_slice_size c)) then
    Err (CInvalid (lit "CACHE_SLICE_SIZE") (format_size (cf_cache_slice_size c)))
  else if u32_max <? cf_cache_slice_size c then
    Err (CInvalid (lit "CACHE_SLICE_SIZE") (format_size (cf_cache_slice_size c)))
  else if cf_cache_disk_size c <? cf_cache_slice_size c then
    Err (COrdering (lit "CACHE_SLICE_SIZE") (format_size (cf_cache_slice_size c))
           (lit "CACHE_DISK_SIZE") (format_size (cf_cache_disk_size c)))
  else if cf_cache_mem_size c <? cf_cache_slice_size c then
    Err (COrdering (lit "CACHE_SLICE_SIZE") (format_size (cf_cache_slice_size c))
           (lit "CACHE_MEM_SIZE") (format_size (cf_cache_mem_size c)))
  else if cf_readahead_slices c =? 0 then Err (CInvalid (lit "READAHEAD_SLICES") (lit "0"))
  else if cf_upstream_max_inflight c =? 0 then Err (CInvalid (lit "UPSTREAM_MAX_INFLIGHT") (lit "0"))
  else if match cf_upstream_dns c with [] => true | _ => false end then
    Err (CInvalid (lit "UPSTREAM_DNS") (lit "empty"))
  else if (cf_http_port c =? cf_admin_port c) || (cf_https_port c =? cf_admin_port c) then
    Err (CInvalid (lit "ADMIN_PORT") (to_dec (cf_admin_port c)))
  else if cf_http_port c =? cf_https_port c then
    Err (CInvalid (lit "HTTPS_PORT") (to_dec (cf_https_port c)))
  else Ok tt.

(** [prepare]: [toml] is what reading and parsing a rules file gives. *)
Definition prepare order (c : Config) (fs : GuardFs) (toml : str -> result RulesError Rules)
    : result ConfigError (Rules * GuardFs) :=
  _ ← validate c;
  fs ← map_err CGuard (guard_check fs (stored c) (cf_force_config c));
  rules ← (match cf_rules_file c with
           | Some path => map_err CRules (rules_load order (toml path))
           | None => Ok (mkRules service_rule_default ∅)
           end);
  Ok (rules, fs).

Definition readahead_bytes_per_connection (c : Config) : Z :=
  wrap64 (cf_cache_slice_size c * cf_readahead_slices c).

(** ** What validation gives *)

Lemma validate_ok c :
  validate c = Ok tt ->
  cf_cache_flushers c <> 0 /\ sat_mul 64 (cf_cache_slice_size c) 4 <= cf_cache_buffer_pool c /\
  MIN_SLICE_SIZE <= cf_cache_slice_size c <= u32_max /\ is_power_of_two (cf_cache_slice_size c) = true /\
  cf_cache_slice_size c <= cf_cache_disk_size c /\ cf_cache_slice_size c <= cf_cache_mem_size c /\
  cf_readahead_slices c <> 0 /\ cf_upstream_max_inflight c <> 0 /\ cf_upstream_dns c <> [] /\
  cf_http_port c <> cf_admin_port c /\ cf_https_port c <> cf_admin_port c /\
  cf_http_port c <> cf_https_port c.
Proof.
  unfold validate. destruct (Z.eqb_spec (cf_cache_flushers c) 0); [done|].
  destruct (Z.ltb_spec (cf_cache_buffer_pool c) (sat_mul 64 (cf_cache_slice_size c) 4)); [done|].
  destruct (Z.ltb_spec (cf_cache_slice_size c) MIN_SLICE_SIZE); [done|].
  destruct (Z.eqb_spec (cf_cache_slice_size c) 0); [done|].
  destruct (is_power_of_two _) eqn:Ep; [|done]. cbn [orb negb].
  destruct (Z.ltb_spec u32_max (cf_cache_slice_size c)); [done|].
  destruct (Z.ltb_spec (cf_cache_disk_size c) (cf_cache_slice_size c)); [done|].
  destruct (Z.ltb_spec (cf_cache_mem_size c) (cf_cache_slice_size c)); [done|].
  destruct (Z.eqb_spec (cf_readahead_slices c) 0); [done|].
  destruct (Z.eqb_spec (cf_upstream_max_inflight c) 0); [done|].
  destruct (cf_upstream_dns c) eqn:Ed; [done|].
  destruct (Z.eqb_spec (cf_http_port c) (cf_admin_port c)); [done|].
  destruct (Z.eqb_spec (cf_https_port c) (cf_admin_port c)); [done|]. cbn [orb].
  destruct (Z.eqb_spec (cf_http_port c) (cf_https_port c)); [done|]. done.
Qed.

Lemma power_of_two_range n :
  4096 <= n <= u32_max -> is_power_of_two n = true -> exists k, 12 <= k <= 31 /\ n = 2 ^ k.
Proof.
  intros Hn. unfold is_power_of_two. rewrite andb_true_iff, Z.eqb_eq. intros [_ Hp].
  exists (Z.log2 n). split; [|done].
  split; [change 12 with (Z.log2 4096); apply Z.log2_le_mono; lia|].
  change 31 with (Z.log2 u32_max). apply Z.log2_le_mono. lia.
Qed.

Lemma guard_check_ok fs configured force fs' :
  in_u 64 (sc_slice_size configured) -> in_u 32 (sc_store_format_version configured) ->
  guard_check fs configured force = Ok fs' ->
  (exists text, gf_text fs' = Some text /\ stored_parse text = Ok configured) /\
  (force = false -> match gf_text fs with Some text => stored_parse text = Ok configured | None => True end).
Proof.
  intros Hs Hv. pose proof (stored_parse_render configured Hs Hv) as Hr. unfold guard_check.
  clear Hs Hv. destruct fs as [[text|] [] wf]; cbn [gf_read_fails gf_text gf_write_fails mbind result_bind];
    [discriminate| |discriminate|].
  - destruct (stored_parse text) as [found|] eqn:Et; [|discriminate]. cbn [mbind result_bind].
    case_bool_decide as E; [intros [= <-]; subst found; split; [by exists text|reflexivity]|].
    destruct force; cbn [negb]; [|discriminate]. destruct wf; [discriminate|]. intros [= <-].
    split; [eexists; split; [reflexivity|exact Hr]|discriminate].
  - destruct wf; [discriminate|]. intros [= <-].
    split; [eexists; split; [reflexivity|exact Hr]|intros _; exact I].
Qed.

Lemma validate_entries_ok l :
  validate_entries l = Ok tt -> forall name rule, (name, rule) ∈ l -> validate_rule name rule = Ok tt.
Proof.
  induction l as [|[n r] l IH]; cbn [validate_entries]; intros H name rule Hin;
    [by apply not_elem_of_nil in Hin|].
  destruct (validate_rule n r) as [[]|] eqn:E; [|done]. cbn in H.
  apply elem_of_cons in Hin as [[= -> ->]|Hin]; [done|]. by apply IH.
Qed.

Lemma rules_load_ok order toml rules :
  (forall m, order m ≡ₚ map_to_list m) -> rules_load order toml = Ok rules ->
  forall service rule, ru_services rules !! service = Some rule -> validate_rule service rule = Ok tt.
Proof.
  intros Ho H service rule Hr. unfold rules_load in H. destruct toml as [r|]; [|done]. cbn in H.
  destruct (rules_validate order r) as [[]|] eqn:E; [|done]. cbn in H. injection H as ->.
  eapply validate_entries_ok; [exact E|]. rewrite Ho. by apply elem_of_map_to_list.
Qed.

Lemma prepare_Ok order c fs toml rules fs' :
  (forall m, order m ≡ₚ map_to_list m) -> prepare order c fs toml = Ok (rules, fs') ->
  validate c = Ok tt /\ guard_check fs (stored c) (cf_force_config c) = Ok fs' /\
  (forall service rule, ru_services rules !! service = Some rule -> validate_rule service rule = Ok tt).
Proof.
  intros Horder. unfold prepare. destruct (validate c) as [[]|]; [|done]. cbn [mbind result_bind].
  destruct (guard_check fs (stored c) (cf_force_config c)) as [fs1|]; [|done]. cbn [map_err mbind result_bind].
  destruct (cf_rules_file c) as [path|].
  - destruct (rules_load order (toml path)) as [r|] eqn:El; [|done]. cbn. intros [= <- <-].
    split; [done|]. split; [done|]. by eapply rules_load_ok.
  - cbn. intros [= <- <-]. split; [done|]. split; [done|]. intros s r Hr. cbn in Hr.
    by rewrite lookup_empty in Hr.
Qed.

(** A configuration that starts is one every component can work with.  If
    [prepare] succeeds, the slice size fits a [u32] and divides the address
    space so that objects of at least 16 TiB are addressable and no slice
    arithmetic wraps; a resolver can be built and the admin port is not a data
    port; the configuration recorded in the cache directory is the running one,
    and unless it was forced it already was (or the directory was new); and the
    services' rules were validated. *)
Theorem prepare_establishes order c fs toml rules fs' :
  (forall m, order m ≡ₚ map_to_list m) ->
  prepare order c fs toml = Ok (rules, fs') ->
  (0 < cf_cache_slice_size c < 2 ^ 32 /\ (exists k, 12 <= k <= 31 /\ cf_cache_slice_size c = 2 ^ k) /\
   2 ^ 44 <= max_addressable_len (cf_cache_slice_size c)) /\
  (forall allow, is_ok (resolver_new (cf_upstream_dns c) allow) = true) /\
  cf_admin_port c <> cf_http_port c /\ cf_admin_port c <> cf_https_port c /\
  (exists text, gf_text fs' = Some text /\ stored_parse text = Ok (stored c)) /\
  (cf_force_config c = false ->
     match gf_text fs with Some text => stored_parse text = Ok (stored c) | None => True end) /\
  (forall service rule, ru_services rules !! service = Some rule -> validate_rule service rule = Ok tt).
Proof.
  intros Horder (Ev & Eg & Hrules)%prepare_Ok; [|done].
  apply validate_ok in Ev as (_ & _ & Hs & Hp & _ & _ & _ & _ & Hdns & Ha & Hb & _).
  unfold MIN_SLICE_SIZE in Hs.
  destruct (guard_check_ok fs (stored c) (cf_force_config c) fs') as [Hg1 Hg2];
    [unfold in_u; cbn [stored sc_slice_size]; unfold umax in Hs; lia|split; reflexivity || discriminate|done|].
  destruct (power_of_two_range (cf_cache_slice_size c)) as (k & Hk & Hpow); [lia|done|].
  split; [|split; [|split; [done|split; [done|split; [done|split; [done|done]]]]]].
  - split; [width|]. split; [by exists k|]. rewrite max_addressable_len_exact by width.
    change (2 ^ 44) with (2 ^ 32 * 4096). change (u32_max + 1) with (2 ^ 32). lia.
  - intros allow. unfold resolver_new, with_servers. destruct (cf_upstream_dns c); done.
Qed.

(** ** The store's parameters *)

Definition DEFAULT_FLUSHERS : Z := 4.
Definition DEFAULT_BUFFER_POOL : Z := 128 * 1024 * 1024.
Definition DEFAULT_BLOCK_SIZE : Z := 64 * 1024 * 1024.

Record StoreConfig := mkStoreConfig {
  so_memory_bytes : Z;
  so_disk_bytes : Z;
  so_block_bytes : Z;
  so_flushers : Z;
  so_buffer_pool_bytes : Z;
  so_direct_io : bool }.

Definition store_config_default : StoreConfig :=
  mkStoreConfig (2 * 1024 * 1024 * 1024) (1000 * 1024 * 1024 * 1024) DEFAULT_BLOCK_SIZE DEFAULT_FLUSHERS
    DEFAULT_BUFFER_POOL false.

(** [usize] is 64 bits wide. *)
Definition from_config (c : Config) : StoreConfig :=
  mkStoreConfig (cf_cache_mem_size c) (cf_cache_disk_size c)
    (Z.max DEFAULT_BLOCK_SIZE (wrap64 (cf_cache_slice_size c * 4)))
    (cf_cache_flushers c) (cf_cache_buffer_pool c) (cf_cache_direct_io c).

(** With a validated configuration a block holds four slices, and so does the
    buffer pool. *)
Lemma store_holds_slices c :
  validate c = Ok tt ->
  4 * cf_cache_slice_size c <= so_block_bytes (from_config c) /\
  4 * cf_cache_slice_size c <= so_buffer_pool_bytes (from_config c) /\ 1 <= Z.abs (so_flushers (from_config c)).
Proof.
  intros (Hf & Hb & Hs & _)%validate_ok. cbn [from_config so_block_bytes so_buffer_pool_bytes so_flushers].
  unfold MIN_SLICE_SIZE in Hs. rewrite wrap_small by width. width.
Qed.

(** ** Free space *)

Record DiskSpace := mkDiskSpace { ds_total : Z; ds_available : Z }.

(** [read]: from what [statvfs] filled in. *)
Record StatVfs := mkStatVfs {
  st_frsize : Z; st_bsize : Z; st_blocks : Z; st_bavail : Z }.

Definition space_read (statvfs : option StatVfs) : option DiskSpace :=
  s ← statvfs;
  let unit := if 0 <? st_frsize s then st_frsize s else st_bsize s in
  Some (mkDiskSpace (wrap64 (st_blocks s * unit)) (wrap64 (st_bavail s * unit))).

Definition effective_cap (configured min_free used : Z) (space : DiskSpace) : Z :=
  let claimable := sat_sub (ds_available space) min_free in
  let ceiling := sat_add 64 used claimable in
  Z.min configured ceiling.

Definition is_engaged (configured effective : Z) : bool := effective <? configured.

(** The free-space guard keeps the reserve.  The effective cap never
    exceeds the configured one; growing from what is used now up to the cap
    leaves the reserve free (or, if the reserve is already gone, lets the cache
    not grow at all); and the cap is the largest with these two properties, so
    the guard engages exactly when the configured size no longer fits. *)
Theorem effective_cap_keeps_reserve configured min_free used space :
  in_u 64 configured -> in_u 64 min_free -> in_u 64 used -> in_u 64 (ds_available space) ->
  used + ds_available space < 2 ^ 64 ->
  let cap := effective_cap configured min_free used space in
  let fits c := c <= configured /\
    (c <= used \/ min_free <= ds_available space - (c - used)) in
  fits cap /\ (forall c, fits c -> c <= cap) /\
  (is_engaged configured cap = false <-> fits configured).
Proof.
  intros H1 H2 H3 H4 H5. cbn zeta. unfold effective_cap, is_engaged.
  split; [width|]. split; [intros c; width|]. rewrite Z.ltb_ge. width.
Qed.

(** ** Witnesses *)

Definition default_config : Config :=
  mkConfig (1000 * 2 ^ 30) (2 * 2 ^ 30) (3560 * 86400) (2 ^ 20) false 4 (2 ^ 27) (lit "/data/cache")
    (10 * 2 ^ 30) false 80 443 9090 512 (V4 (mkV4 127 0 0 1)) [V4 (mkV4 1 1 1 1); V4 (mkV4 1 0 0 1)] 256 true 4
    false false (lit "https://github.com/uklans/cache-domains") 86400 None None Json (lit "info") [].

Lemma prepare_establishes_witness :
  exists fs', prepare map_to_list default_config (mkGuardFs None false false) (fun _ => Err RRead)
    = Ok (mkRules service_rule_default ∅, fs') /\
    2 ^ 44 <= max_addressable_len (cf_cache_slice_size default_config).
Proof.
  assert (exists fs', prepare map_to_list default_config (mkGuardFs None false false) (fun _ => Err RRead)
    = Ok (mkRules service_rule_default ∅, fs')) as [fs' Hp] by (eexists; reflexivity).
  exists fs'. split; [exact Hp|].
  destruct (prepare_establishes map_to_list default_config _ _ _ _ (fun m => reflexivity _) Hp) as ((_ & _ & H) & _).
  exact H.
Defined.

Lemma effective_cap_keeps_reserve_witness :
  effective_cap 1000 100 300 (mkDiskSpace 2000 150) = 350 /\
  (350 <= 1000 /\ (350 <= 300 \/ 100 <= 150 - (350 - 300))).
Proof.
  split; [reflexivity|].
  apply (effective_cap_keeps_reserve 1000 100 300 (mkDiskSpace 2000 150)); unfold in_u; cbn; lia.
Defined.
