(* ===== verification/Reference.v ===== *)
(** * The settings and their reference

    Models [crates/cachic/src/config/reference.rs], which renders
    [docs/configuration.md], and the settings of [config/mod.rs] it is rendered
    from: their names, flags, default texts and value parsers.

    [clap] is a library; what the code uses of it is the list of arguments of a
    command ([Arg]), that a setting's text, wherever it comes from, goes through
    the setting's value parser, and its own parsers of numbers and booleans
    ([Clap], [ClapLaws]).  Texts of the doc comments are a parameter: whatever
    they say, the table stays a table. *)

From S2P Require Import Prelude.
From S2P Require Import RustStr.
From S2P Require Import Guard.
From S2P Require Import Units.
From S2P Require Import Key.
From S2P Require Import Config.

Open Scope Z_scope.

(** ** Rendering *)

Record Arg := mkArg {
  ag_id : str;
  ag_hide : bool;
  ag_env : option str;
  ag_long : option str;
  ag_default_values : list str;
  ag_help : option str;
  ag_long_help : option str }.

Definition code (s : str) : str := lit "`" ++ s ++ lit "`".

Definition env_cell (a : Arg) : str :=
  match ag_env a with Some e => code e | None => lit "-" end.
Definition flag_cell (a : Arg) : str :=
  match ag_long a with Some l => code (lit "--" ++ l) | None => lit "-" end.

(** [Vec::join] with a space. *)
Fixpoint join_space (l : list str) : str :=
  match l with
  | [] => []
  | [x] => x
  | x :: l' => x ++ x20 :: join_space l'
  end.

Definition default_cell (a : Arg) : str :=
  match ag_default_values a with
  | [] => lit "-"
  | values => match join_space values with [] => lit "-" | joined => code joined end
  end.

(** [.replace('\n', " ").replace('|', "\\|")]. *)
Definition escape_cell (s : str) : str :=
  concat (map (fun b => if bool_decide (b = x0a) then [x20]
                        else if bool_decide (b = x7c) then [x5c; x7c] else [b]) s).
Definition help_cell (a : Arg) : str :=
  escape_cell (default [] (match ag_long_help a with Some h => Some h | None => ag_help a end)).

Definition row (a : Arg) : str :=
  lit "| " ++ env_cell a ++ lit " | " ++ flag_cell a ++ lit " | " ++ default_cell a ++ lit " | " ++
  help_cell a ++ lit " |".

(** The arguments the loop does not skip. *)
Definition visible (a : Arg) : bool :=
  negb (ag_hide a || bool_decide (ag_id a = lit "help") || bool_decide (ag_id a = lit "version")).

Definition preamble : list str :=
  [lit "# Configuration reference"; [];
   lit "Generated from the command-line definitions; do not edit by hand. Regenerate with:"; [];
   lit "```sh"; lit "cargo run --example config-reference > docs/configuration.md"; lit "```"; [];
   lit "Every setting can be given as an environment variable or as a command-line flag. Precedence is environment > file > defaults."; [];
   lit "Sizes accept nginx spellings (`1000g`, `2g`, `1m`) which are binary multiples, matching `lancachenet/monolithic`, as well as IEC (`GiB`) and SI (`GB`, decimal). Durations accept `s`, `m`, `h`, `d`, `w`."; [];
   lit "| Environment variable | Flag | Default | Description |"; lit "|---|---|---|---|"].

Definition sizing_notes : list str :=
  [[]; lit "## Sizing notes"; [];
   lit "- **Per-connection memory** is `READAHEAD_SLICES * CACHE_SLICE_SIZE`. At the defaults that is 4 MiB per in-flight client request, and it is a hard bound rather than a target.";
   lit "- **Index memory** is roughly 400 bytes per stored slice, and is *not* part of `CACHE_MEM_SIZE`. A 2 TB cache at 1 MiB slices needs about 760 MB for the index; at 4 MiB slices, about 190 MB. `lancachenet/monolithic`'s equivalent figure is around 128 bytes per slice, so budget roughly three times what you would have under nginx.";
   lit "- **Changing `CACHE_SLICE_SIZE`** against an existing cache directory aborts startup. The stored slices were written under the old size and cannot be reinterpreted. Set `FORCE_CONFIG=true` to adopt the new size and abandon the existing cache."].

(** [out.push_str] of each line and its end. *)
Definition push_lines (ls : list str) : str := concat (map (fun l => l ++ [x0a]) ls).

Definition render (args : list Arg) : str :=
  push_lines preamble ++ push_lines (map row (filter (fun a => visible a = true) args)) ++
  push_lines sizing_notes.

(** ** The settings *)

(** [clap]'s parsers of unsigned integers of a width and of booleans, and what
    its documentation says of them. *)
Class Clap := {
  clap_unsigned : Z -> str -> option Z;
  clap_bool : str -> option bool }.

Class ClapLaws (C : Clap) : Prop := {
  clap_unsigned_text (w n : Z) : in_u w n -> w = 16 \/ w = 64 -> clap_unsigned w (to_dec n) = Some n;
  clap_unsigned_range (w : Z) (t : str) (n : Z) : clap_unsigned w t = Some n -> in_u w n;
  clap_bool_text (b : bool) : clap_bool (if b then lit "true" else lit "false") = Some b }.

(** How a text becomes a field: [parse_size_arg], [parse_duration_arg], [clap]'s
    parsers, [FromStr] of the addresses, [ValueEnum], or the text itself. *)
Inductive Value :=
  | VNumber (n : Z)
  | VBool (b : bool)
  | VText (s : str)
  | VAddress (a : IpAddr)
  | VAddresses (l : list IpAddr)
  | VFormat (f : LogFormat).

Definition parse_size_arg (s : str) : option Value :=
  match parse_size s with Ok n => Some (VNumber n) | Err _ => None end.
Definition parse_duration_arg (s : str) : option Value :=
  match parse_duration s with Ok n => Some (VNumber n) | Err _ => None end.
Definition parse_text (s : str) : option Value := Some (VText s).
Definition parse_address (s : str) : option Value := VAddress <$> parse_ip s.
(** [value_delimiter = ' ']. *)
Definition parse_addresses (s : str) : option Value := VAddresses <$> mapM parse_ip (split_on x20 s).
Definition parse_format (s : str) : option Value :=
  if bool_decide (s = lit "json") then Some (VFormat Json)
  else if bool_decide (s = lit "lancache") then Some (VFormat Lancache) else None.

Record Setting := mkSetting {
  st_field : str;
  st_env : str;
  st_default : option str;
  st_parse : str -> option Value }.

Section Parsing.
Context `{Clap}.

Definition unsigned_arg (w : Z) (s : str) : option Value := VNumber <$> clap_unsigned w s.
Definition bool_arg (s : str) : option Value := VBool <$> clap_bool s.

(** The fields of [Config], in order. *)
Definition settings : list Setting :=
  [mkSetting (lit "cache_disk_size") (lit "CACHE_DISK_SIZE") (Some (lit "1000g")) parse_size_arg;
   mkSetting (lit "cache_mem_size") (lit "CACHE_MEM_SIZE") (Some (lit "2g")) parse_size_arg;
   mkSetting (lit "cache_max_age") (lit "CACHE_MAX_AGE") (Some (lit "3560d")) parse_duration_arg;
   mkSetting (lit "cache_slice_size") (lit "CACHE_SLICE_SIZE") (Some (lit "1m")) parse_size_arg;
   mkSetting (lit "cache_direct_io") (lit "CACHE_DIRECT_IO") (Some (lit "false")) bool_arg;
   mkSetting (lit "cache_flushers") (lit "CACHE_FLUSHERS") (Some (lit "4")) (unsigned_arg 64);
   mkSetting (lit "cache_buffer_pool") (lit "CACHE_BUFFER_POOL") (Some (lit "128m")) parse_size_arg;
   mkSetting (lit "cache_data_dir") (lit "CACHE_DATA_DIR") (Some (lit "/data/cache")) parse_text;
   mkSetting (lit "min_free_disk") (lit "MIN_FREE_DISK") (Some (lit "10g")) parse_size_arg;
   mkSetting (lit "force_config") (lit "FORCE_CONFIG") (Some (lit "false")) bool_arg;
   mkSetting (lit "http_port") (lit "HTTP_PORT") (Some (lit "80")) (unsigned_arg 16);
   mkSetting (lit "https_port") (lit "HTTPS_PORT") (Some (lit "443")) (unsigned_arg 16);
   mkSetting (lit "admin_port") (lit "ADMIN_PORT") (Some (lit "9090")) (unsigned_arg 16);
   mkSetting (lit "max_connections_per_peer") (lit "MAX_CONNECTIONS_PER_PEER") (Some (lit "512")) (unsigned_arg 64);
   mkSetting (lit "admin_bind") (lit "ADMIN_BIND") (Some (lit "127.0.0.1")) parse_address;
   mkSetting (lit "upstream_dns") (lit "UPSTREAM_DNS") (Some (lit "1.1.1.1 1.0.0.1")) parse_addresses;
   mkSetting (lit "upstream_max_inflight") (lit "UPSTREAM_MAX_INFLIGHT") (Some (lit "256")) (unsigned_arg 64);
   mkSetting (lit "stale_on_error") (lit "STALE_ON_ERROR") (Some (lit "true")) bool_arg;
   mkSetting (lit "readahead_slices") (lit "READAHEAD_SLICES") (Some (lit "4")) (unsigned_arg 64);
   mkSetting (lit "allow_private_upstreams") (lit "ALLOW_PRIVATE_UPSTREAMS") (Some (lit "false")) bool_arg;
   mkSetting (lit "passthrough_unknown_hosts") (lit "PASSTHROUGH_UNKNOWN_HOSTS") (Some (lit "false")) bool_arg;
   mkSetting (lit "cache_domains_repo") (lit "CACHE_DOMAINS_REPO")
     (Some (lit "https://github.com/uklans/cache-domains")) parse_text;
   mkSetting (lit "cache_domains_refresh") (lit "CACHE_DOMAINS_REFRESH") (Some (lit "24h")) parse_duration_arg;
   mkSetting (lit "cache_domains_dir") (lit "CACHE_DOMAINS_DIR") None parse_text;
   mkSetting (lit "rules_file") (lit "CACHE_RULES_FILE") None parse_text;
   mkSetting (lit "log_format") (lit "LOG_FORMAT") (Some (lit "json")) parse_format;
   mkSetting (lit "log_level") (lit "LOG_LEVEL") (Some (lit "info")) parse_text;
   mkSetting (lit "admin_token") (lit "ADMIN_TOKEN") (Some []) parse_text].

(** The argument [clap] derives from a field: the flag is the field's name with
    dashes. *)
Definition kebab (s : str) : str := map (fun b => if bool_decide (b = x5f) then x2d else b) s.
Definition arg_of (help long_help : str -> option str) (s : Setting) : Arg :=
  mkArg (st_field s) false (Some (st_env s)) (Some (kebab (st_field s))) (option_list (st_default s))
    (help (st_field s)) (long_help (st_field s)).

(** The texts given for some fields, by flag or environment; the defaults for the
    others. *)
Definition value_of (given : str -> option str) (s : Setting) : option (option Value) :=
  match (match given (st_field s) with Some t => Some t | None => st_default s end) with
  | Some t => v ← st_parse s t; Some (Some v)
  | None => Some None
  end.

(** [Config::parse]; [None] is a usage error. *)
Definition config_of (given : str -> option str) : option Config :=
  values ← mapM (value_of given) settings;
  match values with
  | [Some (VNumber disk); Some (VNumber mem); Some (VNumber age); Some (VNumber slice); Some (VBool direct);
     Some (VNumber flushers); Some (VNumber pool); Some (VText dir); Some (VNumber free); Some (VBool force);
     Some (VNumber http); Some (VNumber https); Some (VNumber admin); Some (VNumber per_peer);
     Some (VAddress bind); Some (VAddresses dns); Some (VNumber inflight); Some (VBool stale);
     Some (VNumber readahead); Some (VBool private); Some (VBool passthrough); Some (VText repo);
     Some (VNumber refresh); domains_dir; rules_file; Some (VFormat format); Some (VText level);
     Some (VText token)] =>
      let path v := match v with Some (VText s) => Some s | _ => None end in
      Some (mkConfig disk mem age slice direct flushers pool dir free force http https admin per_peer bind dns
        inflight stale readahead private passthrough repo refresh (path domains_dir) (path rules_file) format
        level token)
  | _ => None
  end.
End Parsing.

(** ** The table is a table *)

(** The cells of a Markdown table row: it is cut at every pipe that no backslash
    precedes. *)
Fixpoint cells_from (escaped : bool) (s : str) : list str :=
  match s with
  | [] => [[]]
  | b :: s' =>
      if bool_decide (b = x7c) && negb escaped then [] :: cells_from false s'
      else match cells_from (bool_decide (b = x5c)) s' with
           | p :: ps => (b :: p) :: ps
           | [] => [[b]]
           end
  end.
Definition cells (s : str) : list str := cells_from false s.

(** Whether the byte before the end of [s] is a backslash. *)
Fixpoint ends_escaped (escaped : bool) (s : str) : bool :=
  match s with [] => escaped | b :: s' => ends_escaped (bool_decide (b = x5c)) s' end.

Lemma cells_nonempty escaped s : exists p ps, cells_from escaped s = p :: ps.
Proof.
  destruct s as [|b s]; cbn; [by eexists _, _|]. destruct (_ && _); [by eexists _, _|].
  destruct (cells_from _ s); by eexists _, _.
Qed.

Lemma cells_glue escaped a b :
  cells_from escaped a = [a] ->
  cells_from escaped (a ++ b) =
  match cells_from (ends_escaped escaped a) b with p :: ps => (a ++ p) :: ps | [] => [] end.
Proof.
  revert escaped. induction a as [|x a IH]; intros escaped; cbn [app cells_from ends_escaped].
  - intros _. by destruct (cells_from escaped b).
  - destruct (bool_decide (x = x7c) && negb escaped); [done|].
    destruct (cells_from (bool_decide (x = x5c)) a) as [|p ps] eqn:E; [by destruct a|].
    intros [= -> ->]. rewrite IH by done.
    by destruct (cells_nonempty (ends_escaped (bool_decide (x = x5c)) a) b) as (q & qs & ->).
Qed.

(** A piece that is one cell, followed by a pipe. *)
Lemma cells_cut a rest :
  cells a = [a] -> ends_escaped false a = false -> cells (a ++ x7c :: rest) = a :: cells rest.
Proof.
  intros Ha He. unfold cells. rewrite cells_glue, He by done. cbn [cells_from].
  rewrite bool_decide_eq_true_2 by done. cbn [andb negb]. by rewrite app_nil_r.
Qed.

Lemma cells_push escaped b s :
  b <> x7c \/ escaped = true -> cells_from (bool_decide (b = x5c)) s = [s] -> cells_from escaped (b :: s) = [b :: s].
Proof.
  intros Hb Hs. cbn [cells_from].
  destruct Hb as [Hb| ->]; [rewrite bool_decide_eq_false_2 by done|rewrite andb_false_r]; by rewrite Hs.
Qed.

Lemma plain_one_cell escaped s : x7c ∉ s -> cells_from escaped s = [s].
Proof.
  revert escaped. induction s as [|b s IH]; intros escaped; [done|].
  intros [Hb Hs]%not_elem_of_cons. apply cells_push; [left; congruence|by apply IH].
Qed.

Lemma escaped_one_cell escaped s : cells_from escaped (escape_cell s) = [escape_cell s].
Proof.
  revert escaped. induction s as [|b s IH]; intros escaped; [done|]. unfold escape_cell in *. cbn [map concat].
  case_bool_decide as Hn; [by apply cells_push; [left|]|]. case_bool_decide as Hp.
  - apply cells_push; [by left|]. rewrite bool_decide_eq_true_2 by done. by apply cells_push; [right|].
  - by apply cells_push; [left|].
Qed.

Lemma ends_space escaped s : ends_escaped escaped (s ++ [x20]) = false.
Proof. revert escaped. induction s as [|b s IH]; intros escaped; [done|]. apply IH. Qed.

Lemma padded_cell s :
  (forall e, cells_from e s = [s]) ->
  cells (x20 :: s ++ [x20]) = [x20 :: s ++ [x20]] /\ ends_escaped false (x20 :: s ++ [x20]) = false.
Proof.
  intros Hs. split; [|apply (ends_space false (x20 :: s))]. apply cells_push; [by left|].
  rewrite cells_glue by done. rewrite plain_one_cell; [done|]. by intros ?%list_elem_of_singleton.
Qed.

Lemma escape_no_newline s : x0a ∉ escape_cell s.
Proof.
  unfold escape_cell. rewrite list_elem_of_In, in_concat. intros (l & (b & <- & _)%in_map_iff & Hin).
  case_bool_decide as Hn; [by destruct Hin as [?|[]]|]. case_bool_decide; cbn in Hin; intuition congruence.
Qed.

(** The texts [clap] has for an argument are on one line and have no pipe. *)
Definition plain_text (s : str) : Prop := (x7c ∉ s) /\ (x0a ∉ s).
Definition arg_plain (a : Arg) : Prop :=
  Forall plain_text (option_list (ag_env a) ++ option_list (ag_long a) ++ ag_default_values a).

Lemma plain_text_app a b : plain_text (a ++ b) <-> plain_text a /\ plain_text b.
Proof. unfold plain_text. rewrite !not_elem_of_app. tauto. Qed.

Lemma plain_code s : plain_text s -> plain_text (code s).
Proof.
  intros Hs. assert (plain_text (lit "`")) as Hq by (split; by intros ?%list_elem_of_singleton).
  unfold code. by rewrite !plain_text_app.
Qed.

Lemma plain_join l : Forall plain_text l -> plain_text (join_space l).
Proof.
  induction 1 as [|x [|y l] Hx Hl IH]; [split; apply not_elem_of_nil|done|]. cbn [join_space].
  rewrite plain_text_app. split; [done|]. destruct IH as [H1 H2]. split; by apply not_elem_of_cons.
Qed.

Lemma plain_cells a : arg_plain a ->
  plain_text (env_cell a) /\ plain_text (flag_cell a) /\ plain_text (default_cell a).
Proof.
  assert (plain_text (lit "-")) as Hd by (split; by intros ?%list_elem_of_singleton).
  unfold arg_plain. rewrite !Forall_app. intros (He & Hl & Hv).
  split; [|split]; unfold env_cell, flag_cell, default_cell.
  - destruct (ag_env a); [|done]. by apply plain_code, (Forall_inv He).
  - destruct (ag_long a); [|done]. apply plain_code, plain_text_app. split; [|by apply (Forall_inv Hl)].
    split; by apply (bool_decide_eq_true_1 _).
  - apply plain_join in Hv. destruct (ag_default_values a) as [|v vs]; [done|].
    destruct (join_space (v :: vs)); [done|]. by apply plain_code.
Qed.

Definition pad (s : str) : str := x20 :: s ++ [x20].

(** A row has the four cells of the table's head. *)
Lemma row_cells a : arg_plain a ->
  cells (row a) = [[]; pad (env_cell a); pad (flag_cell a); pad (default_cell a); pad (help_cell a); []] /\
  x0a ∉ row a.
Proof.
  intros (He & Hf & Hd)%plain_cells.
  assert (forall s, plain_text s -> forall e, cells_from e s = [s]) as Hone.
  { intros s [Hp _] e. by apply plain_one_cell. }
  assert (row a = [] ++ x7c :: pad (env_cell a) ++ x7c :: pad (flag_cell a) ++ x7c :: pad (default_cell a) ++
    x7c :: pad (help_cell a) ++ x7c :: []) as Hrow.
  { unfold row, pad. cbn. rewrite <- !app_assoc. done. }
  split.
  - rewrite Hrow.
    rewrite !cells_cut; try done; try (apply padded_cell; by apply Hone);
      apply padded_cell; intros e; apply escaped_one_cell.
  - pose proof (escape_no_newline (default [] (match ag_long_help a with Some h => Some h | None => ag_help a end)))
      as Hh. change (x0a ∉ help_cell a) in Hh.
    destruct He as [_ He], Hf as [_ Hf], Hd as [_ Hd]. rewrite Hrow. unfold pad.
    intros Hin. repeat (rewrite ?elem_of_app, ?elem_of_cons, ?elem_of_nil in Hin). naive_solver.
Qed.

Lemma push_lines_split ls rest :
  Forall (fun l => x0a ∉ l) ls -> split_on x0a (push_lines ls ++ rest) = ls ++ split_on x0a rest.
Proof.
  induction 1 as [|l ls Hl _ IH]; [done|]. unfold push_lines in *. cbn [map concat].
  rewrite <- !app_assoc. cbn [app]. rewrite split_on_cut by done. by rewrite IH.
Qed.

Lemma render_lines args : Forall arg_plain args ->
  split_on x0a (render args) =
  preamble ++ map row (filter (fun a => visible a = true) args) ++ sizing_notes ++ [[]].
Proof.
  intros Ha. assert (Forall (fun l => x0a ∉ l) (map row (filter (fun a => visible a = true) args))) as Hr.
  { apply Forall_forall. intros l (a & <- & Hin)%list_elem_of_In%in_map_iff.
    apply row_cells. rewrite Forall_forall in Ha. apply Ha. apply list_elem_of_In in Hin.
    by apply list_elem_of_filter in Hin as [_ Hin]. }
  assert (Forall (fun l => x0a ∉ l) preamble /\ Forall (fun l => x0a ∉ l) sizing_notes) as [Hp Hn].
  { split; apply (bool_decide_eq_true_1 _); vm_compute; reflexivity. }
  unfold render. rewrite push_lines_split, push_lines_split by done.
  rewrite <- (app_nil_r (push_lines sizing_notes)). by rewrite push_lines_split.
Qed.

(** ** The settings are the configuration *)

(** The fields fit their Rust types. *)
Definition config_typed (c : Config) : Prop :=
  Forall (in_u 64) [cf_cache_disk_size c; cf_cache_mem_size c; cf_cache_max_age c; cf_cache_slice_size c;
    cf_cache_flushers c; cf_cache_buffer_pool c; cf_min_free_disk c; cf_max_connections_per_peer c;
    cf_upstream_max_inflight c; cf_readahead_slices c; cf_cache_domains_refresh c] /\
  Forall (in_u 16) [cf_http_port c; cf_https_port c; cf_admin_port c].

(** A number a parser returns fits its width. *)
Definition bounded_by (w : Z) (parse : str -> option Value) : Prop :=
  forall t n, parse t = Some (VNumber n) -> in_u w n.

Lemma size_bounded : bounded_by 64 parse_size_arg.
Proof.
  intros t n. unfold parse_size_arg. destruct (parse_size t) as [m|] eqn:E; [|done]. intros [= <-].
  destruct (parse_units_no_overflow t m) as [Hs _]. by apply Hs in E as [Hu _].
Qed.

Lemma duration_bounded : bounded_by 64 parse_duration_arg.
Proof.
  intros t n. unfold parse_duration_arg. destruct (parse_duration t) as [m|] eqn:E; [|done]. intros [= <-].
  destruct (parse_units_no_overflow t m) as [_ Hs]. by apply Hs in E as [Hu _].
Qed.

Section Laws.
Context `{HC : ClapLaws}.

Lemma unsigned_bounded w : bounded_by w (unsigned_arg w).
Proof using HC.
  intros t n. unfold unsigned_arg. destruct (clap_unsigned w t) as [m|] eqn:E; [|done]. intros [= <-].
  by eapply clap_unsigned_range.
Qed.

Lemma value_bounded given field env d parse w n :
  bounded_by w parse -> value_of given (mkSetting field env d parse) = Some (Some (VNumber n)) -> in_u w n.
Proof using Type.
  intros Hb. unfold value_of. cbn. destruct (match given field with Some t => Some t | None => d end) as [t|]; [|done].
  destruct (parse t) as [v|] eqn:E; [|done]. cbn. intros [= ->]. by eapply Hb.
Qed.

Lemma config_of_typed given c : config_of given = Some c -> config_typed c.
Proof using HC.
  unfold config_of. destruct (mapM (value_of given) settings) as [values|] eqn:Em; [|done]. cbn [mbind option_bind].
  apply mapM_Some in Em. unfold settings in Em.
  repeat (apply Forall2_cons_inv_l in Em as (? & ? & ? & Em & ->)). apply Forall2_nil_inv_l in Em as ->.
  intros Hc.
  repeat match type of Hc with match ?v with _ => _ end = _ => destruct v; try discriminate Hc end.
  all: injection Hc as <-; unfold config_typed; cbn [cf_cache_disk_size cf_cache_mem_size cf_cache_max_age
    cf_cache_slice_size cf_cache_flushers cf_cache_buffer_pool cf_min_free_disk cf_max_connections_per_peer
    cf_upstream_max_inflight cf_readahead_slices cf_cache_domains_refresh cf_http_port cf_https_port cf_admin_port].
  all: repeat match goal with
         | H : value_of _ (mkSetting _ _ _ parse_size_arg) = Some (Some (VNumber _)) |- _ =>
             apply (value_bounded _ _ _ _ _ _ _ size_bounded) in H
         | H : value_of _ (mkSetting _ _ _ parse_duration_arg) = Some (Some (VNumber _)) |- _ =>
             apply (value_bounded _ _ _ _ _ _ _ duration_bounded) in H
         | H : value_of _ (mkSetting _ _ _ (unsigned_arg _)) = Some (Some (VNumber _)) |- _ =>
             apply (value_bounded _ _ _ _ _ _ _ (unsigned_bounded _)) in H
         end.
  all: split; repeat first [apply Forall_nil_2|apply Forall_cons_2]; assumption.
Qed.

(** A text its parser refuses is a usage error. *)
Lemma config_of_refuses given s t :
  s ∈ settings -> given (st_field s) = Some t -> st_parse s t = None -> config_of given = None.
Proof using Type.
  intros Hs Ht Hp. unfold config_of. destruct (mapM (value_of given) settings) as [values|] eqn:Em; [|done].
  apply mapM_Some in Em. apply list_elem_of_lookup in Hs as [i Hi].
  destruct (Forall2_lookup_l _ _ _ _ _ Em Hi) as (v & _ & Hv). unfold value_of in Hv. by rewrite Ht, Hp in Hv.
Qed.

Lemma settings_plain help long_help : Forall arg_plain (map (arg_of help long_help) settings).
Proof using Type.
  assert (Forall (fun s => Forall plain_text (st_env s :: kebab (st_field s) :: option_list (st_default s))) settings)
    as Hs.
  { unfold plain_text. apply (bool_decide_eq_true_1 _). vm_compute. reflexivity. }
  apply Forall_map. eapply Forall_impl; [exact Hs|]. intros s Hp. exact Hp.
Qed.

Lemma settings_visible help long_help :
  filter (fun a => visible a = true) (map (arg_of help long_help) settings) = map (arg_of help long_help) settings.
Proof using Type. reflexivity. Qed.

(** A default text that is the decimal or boolean of a value. *)
Lemma default_unsigned field env t (w n : Z) :
  t = to_dec n -> in_u w n -> w = 16 \/ w = 64 ->
  value_of (fun _ => None) (mkSetting field env (Some t) (unsigned_arg w)) = Some (Some (VNumber n)).
Proof using HC. intros -> Hn Hw. unfold value_of, unsigned_arg. cbn. by rewrite clap_unsigned_text. Qed.

Lemma default_bool field env t (b : bool) :
  t = (if b then lit "true" else lit "false") ->
  value_of (fun _ => None) (mkSetting field env (Some t) bool_arg) = Some (Some (VBool b)).
Proof using HC. intros ->. unfold value_of, bool_arg. cbn. by rewrite clap_bool_text. Qed.

Lemma config_of_defaults : config_of (fun _ => None) = Some default_config.
Proof using HC.
  assert (mapM (value_of (fun _ => None)) settings = Some
    [Some (VNumber (1000 * 2 ^ 30)); Some (VNumber (2 * 2 ^ 30)); Some (VNumber (3560 * 86400)); Some (VNumber (2 ^ 20));
     Some (VBool false); Some (VNumber 4); Some (VNumber (2 ^ 27)); Some (VText (lit "/data/cache"));
     Some (VNumber (10 * 2 ^ 30)); Some (VBool false); Some (VNumber 80); Some (VNumber 443); Some (VNumber 9090);
     Some (VNumber 512); Some (VAddress (V4 (mkV4 127 0 0 1)));
     Some (VAddresses [V4 (mkV4 1 1 1 1); V4 (mkV4 1 0 0 1)]); Some (VNumber 256); Some (VBool true);
     Some (VNumber 4); Some (VBool false); Some (VBool false);
     Some (VText (lit "https://github.com/uklans/cache-domains")); Some (VNumber 86400); None; None;
     Some (VFormat Json); Some (VText (lit "info")); Some (VText [])]) as Hm.
  { apply mapM_Some_2. unfold settings.
    repeat constructor;
      first [ apply default_unsigned; [reflexivity|unfold in_u; lia|auto] | by apply default_bool
            | vm_compute; reflexivity ]. }
  unfold config_of. by rewrite Hm.
Qed.

(** C40: the generated reference documents the configuration that is parsed.
    Whatever the doc comments say, the reference is the preamble, one line per
    setting in the order of the fields, and the notes; every such line has
    exactly the four cells of the table's head: the environment variable, the
    flag, the default and the description.  No two settings share a variable or
    a field.  The defaults shown, put through the settings' own parsers, are the
    configuration the program starts with when nothing is given; whatever is
    given, a configuration that is accepted fits the types of its fields, and a
    text its parser refuses is a usage error. *)
Theorem reference_matches_configuration help long_help :
  let arg := arg_of help long_help in
  split_on x0a (render (map arg settings)) = preamble ++ map row (map arg settings) ++ sizing_notes ++ [[]] /\
  (forall s, s ∈ settings ->
     cells (row (arg s)) =
       [[]; pad (code (st_env s)); pad (code (lit "--" ++ kebab (st_field s)));
        pad (match st_default s with Some (b :: d) => code (b :: d) | _ => lit "-" end);
        pad (help_cell (arg s)); []]) /\
  NoDup (map st_env settings) /\ NoDup (map st_field settings) /\
  config_of (fun _ => None) = Some default_config /\
  forall given,
    (forall c, config_of given = Some c -> config_typed c) /\
    (forall s t, s ∈ settings -> given (st_field s) = Some t -> st_parse s t = None -> config_of given = None).
Proof using HC.
  intros arg. pose proof (settings_plain help long_help) as Hp.
  split; [subst arg; by rewrite render_lines, (settings_visible help long_help)|]. split.
  { intros s Hs. rewrite Forall_map, Forall_forall in Hp. destruct (row_cells (arg s) (Hp s Hs)) as [-> _].
    unfold default_cell, arg, arg_of. cbn. by destruct (st_default s) as [[|]|]. }
  split; [apply (bool_decide_eq_true_1 _); vm_compute; reflexivity|].
  split; [apply (bool_decide_eq_true_1 _); vm_compute; reflexivity|].
  split; [apply config_of_defaults|]. intros given. split; [apply config_of_typed|apply config_of_refuses].
Qed.
End Laws.

(** ** Witness: parsers that read digits and nothing else *)

#[export] Instance toy_clap : Clap := {
  clap_unsigned w s := n ← parse_u64 s; if n <? 2 ^ w then Some n else None;
  clap_bool s := if bool_decide (s = lit "true") then Some true
                 else if bool_decide (s = lit "false") then Some false else None }.

#[export] Instance toy_clap_laws : ClapLaws toy_clap.
Proof.
  split.
  - intros w n Hn Hw. cbn. assert (in_u 64 n) as H64 by (unfold in_u in *; destruct Hw as [-> | ->]; lia).
    rewrite parse_u64_to_dec by done. cbn. unfold in_u in Hn. by rewrite (proj2 (Z.ltb_lt n (2 ^ w))) by lia.
  - intros w t n. cbn. destruct (parse_u64 t) as [m|] eqn:E; [|done]. cbn. apply parse_u64_range in E.
    unfold in_u in *. destruct (Z.ltb_spec m (2 ^ w)); [|done]. intros [= <-]. lia.
  - by intros [].
Qed.

Lemma reference_matches_configuration_witness :
  config_of (fun _ => None) = Some default_config /\
  config_of (fun f => if bool_decide (f = lit "http_port") then Some (lit "65536") else None) = None.
Proof.
  destruct (reference_matches_configuration (fun _ => None) (fun _ => None)) as (_ & _ & _ & _ & Hd & Hg).
  split; [exact Hd|]. destruct (Hg (fun f => if bool_decide (f = lit "http_port") then Some (lit "65536") else None))
    as [_ Hr].
  apply (Hr (mkSetting (lit "http_port") (lit "HTTP_PORT") (Some (lit "80")) (unsigned_arg 16)) (lit "65536")).
  - do 10 right. left.
  - reflexivity.
  - vm_compute. reflexivity.
Defined.
