(* ===== verification/Headers.v ===== *)
(** * Request and response headers

    Models [crates/cachic/src/proxy/headers.rs]: the [X-Cache] classification
    and the filters between client, cache and origin.  A [HeaderMap] is the
    list of its entries with lower-case names ([HeaderName] normalises them). *)

From S2P Require Import Prelude.
From S2P Require Import RustStr.
From S2P Require Import Guard.
From S2P Require Import Resolver.
From S2P Require Import Client.

Open Scope Z_scope.

Definition HOP_BY_HOP : list str :=
  [lit "connection"; lit "keep-alive"; lit "proxy-authenticate"; lit "proxy-authorization";
   lit "te"; lit "trailer"; lit "transfer-encoding"; lit "upgrade"].

Definition PRESERVED_ENTITY : list str :=
  [lit "content-type"; lit "etag"; lit "last-modified"; lit "cache-control";
   lit "content-encoding"; lit "content-language"; lit "expires"].

Definition CREDENTIAL_HEADERS : list str := [lit "authorization"; lit "cookie"].

Inductive CacheStatus := Hit | Miss | Partial | Bypass.

Definition cache_status_str (s : CacheStatus) : str :=
  match s with
  | Hit => lit "HIT" | Miss => lit "MISS" | Partial => lit "PARTIAL" | Bypass => lit "BYPASS"
  end.

Definition classify (resident total : Z) : CacheStatus :=
  if (total =? 0) || (resident =? total) then Hit
  else if resident =? 0 then Miss else Partial.

Definition get_all (h : HeaderMap) (name : str) : list bytes :=
  (filter (fun p => p.1 = name) h).*2.

Definition connection_named (h : HeaderMap) : list str :=
  filter (fun s => s <> [])
    (map (fun s => to_ascii_lowercase (trim s))
       (flat_map (split_on x2c) (omap to_str (get_all h (lit "connection"))))).

Definition is_hop_by_hop (name : str) (named : list str) : bool :=
  let lower := to_ascii_lowercase name in
  bool_decide (lower ∈ HOP_BY_HOP) || bool_decide (lower ∈ named).

Definition forwarded (named : list str) (name : str) : bool :=
  negb (is_hop_by_hop name named) &&
  negb (eq_ignore_ascii_case name (lit "host")) &&
  negb (eq_ignore_ascii_case name (lit "range")) &&
  negb (existsb (eq_ignore_ascii_case name) CREDENTIAL_HEADERS).

Definition forwarded_request_headers (client : HeaderMap) : HeaderMap :=
  filter (fun p => forwarded (connection_named client) p.1 = true) client.

Definition preserved_response_headers (upstream : HeaderMap) : HeaderMap :=
  flat_map (fun name => map (fun v => (name, v)) (get_all upstream name)) PRESERVED_ENTITY.

(** [HeaderMap::insert] replaces every value of the name. *)
Definition header_insert (h : HeaderMap) (name : str) (v : bytes) : HeaderMap :=
  filter (fun p => p.1 <> name) h ++ [(name, v)].

(** [HeaderValue::from_str]: visible ASCII, tab, or above 127. *)
Definition header_value_ok (v : bytes) : bool :=
  forallb (fun b => (Z_of_byte b =? 9) || ((32 <=? Z_of_byte b) && negb (Z_of_byte b =? 127))) v.

Definition add_cache_headers (h : HeaderMap) (status : CacheStatus) (hostname : str) : HeaderMap :=
  let h := header_insert h (lit "x-cache") (cache_status_str status) in
  if header_value_ok hostname then header_insert h (lit "x-lancache-processed-by") hostname else h.

(** ** What reaches the origin *)

Definition lower_case (name : str) : Prop := to_ascii_lowercase name = name.


Lemma classify_spec resident total :
  0 <= resident <= total ->
  (classify resident total = Hit <-> resident = total) /\
  (classify resident total = Miss <-> resident = 0 /\ 0 < total) /\
  classify resident total <> Bypass.
Proof.
  intros H. unfold classify. case_bool; cbn [orb]; repeat split; intros; try done; try lia.
Qed.

(** ** Witness *)

