(* ===== verification/Logs.v ===== *)
(** * The access log

    Models [crates/cachic/src/telemetry/logs.rs]: the Common Log Format
    timestamp, the escaping of client-controlled values, the lancache [cachelog]
    line, and the record an event hands to [tracing] in either format.  Printing a
    record belongs to the [tracing] crates.

    The date algorithm is checked against the calendar itself: the day after a
    date, given month lengths and the Gregorian leap rule. *)

From S2P Require Import Prelude.
From S2P Require Import RustStr.
From S2P Require Import Config.

Open Scope Z_scope.

(** ** Timestamps *)

Definition MONTHS : list str :=
  [lit "Jan"; lit "Feb"; lit "Mar"; lit "Apr"; lit "May"; lit "Jun"; lit "Jul"; lit "Aug";
   lit "Sep"; lit "Oct"; lit "Nov"; lit "Dec"].

(** [{:0w}]. *)
Definition zero_pad (width : nat) (n : Z) : str :=
  let s := to_dec n in replicate (width - length s) x30 ++ s.

(** Days since 1970-01-01 to year, month and day.  All values are within the
    [i64] range and non-negative, so truncating and flooring division agree. *)
Definition civil_from_days (days : Z) : Z * Z * Z :=
  let z := days + 719468 in
  let era := z / 146097 in
  let doe := z mod 146097 in
  let yoe := (doe - doe / 1460 + doe / 36524 - doe / 146096) / 365 in
  let y := yoe + era * 400 in
  let doy := doe - (365 * yoe + yoe / 4 - yoe / 100) in
  let mp := (5 * doy + 2) / 153 in
  let d := doy - (153 * mp + 2) / 5 + 1 in
  let m := if mp <? 10 then mp + 3 else mp - 9 in
  (if m <=? 2 then y + 1 else y, m, d).

(** [None] is an index out of bounds in [MONTHS]. *)
Definition clf_timestamp (unix_seconds : Z) : option str :=
  let days := unix_seconds / 86400 in
  let secs_of_day := unix_seconds mod 86400 in
  let '(hour, minute, second) :=
    (secs_of_day / 3600, (secs_of_day mod 3600) / 60, secs_of_day mod 60) in
  let '(year, m, d) := civil_from_days days in
  match MONTHS !! Z.to_nat (m - 1) with
  | Some month =>
      Some (zero_pad 2 d ++ lit "/" ++ month ++ lit "/" ++ zero_pad 4 year ++ lit ":" ++
            zero_pad 2 hour ++ lit ":" ++ zero_pad 2 minute ++ lit ":" ++ zero_pad 2 second ++
            lit " +0000")
  | None => None
  end.

(** *** The calendar *)

Definition is_leap (y : Z) : bool :=
  (y mod 4 =? 0) && (negb (y mod 100 =? 0) || (y mod 400 =? 0)).

Definition month_length (leap : bool) (m : Z) : Z :=
  if m =? 2 then (if leap then 29 else 28)
  else if (m =? 4) || (m =? 6) || (m =? 9) || (m =? 11) then 30 else 31.

Definition next_day (date : Z * Z * Z) : Z * Z * Z :=
  let '(y, m, d) := date in
  if d <? month_length (is_leap y) m then (y, m, d + 1)
  else if m <? 12 then (y, m + 1, 1) else (y + 1, 1, 1).

(** *** Years that begin in March *)

Definition year_of (doe : Z) : Z := (doe - doe / 1460 + doe / 36524 - doe / 146096) / 365.
Definition year_start (yoe : Z) : Z := 365 * yoe + yoe / 4 - yoe / 100.
Definition month_day (doy : Z) : Z * Z :=
  let mp := (5 * doy + 2) / 153 in
  (if mp <? 10 then mp + 3 else mp - 9, doy - (153 * mp + 2) / 5 + 1).
Definition date_of (y doy : Z) : Z * Z * Z :=
  let '(m, d) := month_day doy in (if m <=? 2 then y + 1 else y, m, d).

Lemma year_of_mono a b : 0 <= a <= b -> b <= 146096 -> year_of a <= year_of b.
Proof.
  intros [Ha Hab] Hb. unfold year_of. apply Z.div_le_mono; [lia|].
  revert b Hab Hb. apply (Z.le_ind (fun b => b <= 146096 -> _ <= b - b / 1460 + b / 36524 - b / 146096));
    [intros ? ? ->; tauto|lia|].
  intros b Hab IH Hb. specialize (IH ltac:(lia)). etrans; [exact IH|].
  unfold Z.succ in *. Z.div_mod_to_equations. lia.
Qed.

Definition year_len (y : Z) : Z := if is_leap (y + 1) then 366 else 365.

Definition year_ok (y : Z) : bool :=
  (year_of (year_start y) =? y) && (year_of (year_start y + year_len y - 1) =? y) &&
  (if y =? 399 then year_start y + year_len y =? 146097
   else year_start y + year_len y =? year_start (y + 1)).

Lemma year_ok_all y : 0 <= y <= 399 -> year_ok y = true.
Proof.
  intros Hy. assert (forallb year_ok (seqZ 0 400) = true) as H by (vm_compute; reflexivity).
  rewrite forallb_forall in H. apply H, list_elem_of_In, elem_of_seqZ. lia.
Qed.

Lemma year_spec y :
  0 <= y <= 399 ->
  year_of (year_start y) = y /\ year_of (year_start y + year_len y - 1) = y /\
  (y < 399 -> year_start y + year_len y = year_start (y + 1)) /\
  (y = 399 -> year_start y + year_len y = 146097) /\ 365 <= year_len y <= 366 /\ 0 <= year_start y.
Proof.
  intros Hy. pose proof (year_ok_all y Hy) as H. unfold year_ok in H.
  rewrite !andb_true_iff, !Z.eqb_eq in H. destruct H as [[H1 H2] H3].
  assert (0 <= year_start y) by (unfold year_start; Z.div_mod_to_equations; lia).
  destruct (Z.eqb_spec y 399); apply Z.eqb_eq in H3; repeat split; try lia;
    unfold year_len; destruct (is_leap _); lia.
Qed.

(** A day of a year is a day of that year. *)
Lemma year_of_day y doy :
  0 <= y <= 399 -> 0 <= doy < year_len y -> year_of (year_start y + doy) = y.
Proof.
  intros Hy Hd. destruct (year_spec y Hy) as (H1 & H2 & H3 & H4 & H5 & H6).
  assert (year_start y + year_len y <= 146097) as Hmax.
  { destruct (Z.eq_dec y 399); [lia|]. rewrite H3 by lia. unfold year_start. Z.div_mod_to_equations. lia. }
  pose proof (year_of_mono (year_start y) (year_start y + doy) ltac:(lia) ltac:(lia)).
  pose proof (year_of_mono (year_start y + doy) (year_start y + year_len y - 1) ltac:(lia) ltac:(lia)).
  lia.
Qed.

(** Every day of the era is a day of one of its years. *)
Lemma year_exists doe :
  0 <= doe <= 146096 -> exists y doy, 0 <= y <= 399 /\ 0 <= doy < year_len y /\ doe = year_start y + doy.
Proof.
  intros [H0 H1]. revert doe H0 H1.
  apply (Z.le_ind (fun doe => doe <= 146096 -> _)); [intros ? ? ->; tauto|intros _; by exists 0, 0|].
  intros doe H0 IH H1. destruct (IH ltac:(lia)) as (y & doy & Hy & Hd & ->).
  destruct (year_spec y Hy) as (_ & _ & H3 & H4 & H5 & _).
  destruct (Z.eq_dec (doy + 1) (year_len y)).
  - assert (y < 399) by (destruct (Z.eq_dec y 399); [specialize (H4 ltac:(done)); lia|lia]).
    destruct (year_spec (y + 1) ltac:(lia)) as (_ & _ & _ & _ & ? & _).
    exists (y + 1), 0. rewrite <- H3 by lia. lia.
  - exists y, (doy + 1). lia.
Qed.

Lemma is_leap_period y era : is_leap (y + era * 400) = is_leap y.
Proof.
  unfold is_leap. replace (y + era * 400) with (y + (era * 100) * 4) at 1 by ring.
  rewrite Z_mod_plus_full. replace (y + era * 400) with (y + (era * 4) * 100) at 1 by ring.
  by rewrite !Z_mod_plus_full.
Qed.

(** Within a March year: the next day has the next month and day. *)
Definition same_year (doy : Z) : bool :=
  let '(m, d) := month_day doy in
  let '(m', d') := month_day (doy + 1) in
  (1 <=? m) && (m <=? 12) && (1 <=? d) && (d <=? month_length true m) &&
  (if d <? month_length (364 <=? doy) m
   then (m' =? m) && (d' =? d + 1)
   else (d' =? 1) && (if m <? 12 then (m' =? m + 1) && negb (m =? 2) else m' =? 1)) &&
  negb ((doy <? 364) && (m =? 2) && (28 <=? d)).

Lemma same_year_all doy : 0 <= doy < 365 -> same_year doy = true.
Proof.
  intros Hy. assert (forallb same_year (seqZ 0 365) = true) as H by (vm_compute; reflexivity).
  rewrite forallb_forall in H. apply H, list_elem_of_In, elem_of_seqZ. lia.
Qed.

Lemma next_in_year y doy : 0 <= doy < 364 -> next_day (date_of y doy) = date_of y (doy + 1).
Proof.
  intros Hd. pose proof (same_year_all doy ltac:(lia)) as H. unfold same_year, date_of in *.
  destruct (month_day doy) as [m d], (month_day (doy + 1)) as [m' d'].
  replace (364 <=? doy) with false in H by (symmetry; apply Z.leb_gt; lia).
  replace (doy <? 364) with true in H by (symmetry; apply Z.ltb_lt; lia).
  unfold next_day.
  assert (month_length (is_leap (if m <=? 2 then y + 1 else y)) m = month_length false m \/ m = 2) as Hml.
  { unfold month_length. destruct (Z.eqb_spec m 2); [by right|by left]. }
  rewrite !andb_true_iff, negb_true_iff, !Z.leb_le in H. destruct H as [[[[[H1 H2] H3] H4] H5] H6].
  destruct Hml as [Hml|Hml].
  - rewrite Hml. destruct (d <? month_length false m) eqn:E.
    + apply andb_true_iff in H5 as [->%Z.eqb_eq ->%Z.eqb_eq]. done.
    + apply andb_true_iff in H5 as [->%Z.eqb_eq H5]. destruct (Z.ltb_spec m 12).
      * apply andb_true_iff in H5 as [->%Z.eqb_eq H5%negb_true_iff%Z.eqb_neq].
        repeat case_bool; done || lia.
      * apply Z.eqb_eq in H5 as ->. repeat case_bool; done || lia.
  - subst m. cbn [Z.eqb andb] in H6. cbn in H6. apply Z.leb_gt in H6.
    unfold month_length in *. cbn [Z.eqb] in *. cbn in H5.
    replace (d <? 28) with true in H5 by (symmetry; apply Z.ltb_lt; lia).
    apply andb_true_iff in H5 as [->%Z.eqb_eq ->%Z.eqb_eq]. cbn.
    destruct (is_leap (y + 1)); case_bool; done || lia.
Qed.

Lemma next_date y doy :
  0 <= doy < year_len y ->
  next_day (date_of y doy) = if doy + 1 =? year_len y then date_of (y + 1) 0 else date_of y (doy + 1).
Proof.
  intros Hd. unfold year_len in *. destruct (Z.ltb_spec doy 364) as [Hlt|Hge].
  - rewrite next_in_year by lia.
    destruct (is_leap (y + 1)); case_bool; done || lia.
  - assert (doy = 364 \/ doy = 365) as [->| ->] by (destruct (is_leap _); lia);
      unfold date_of; change (month_day 364) with (2, 28);
      change (month_day (364 + 1)) with (2, 29); change (month_day 365) with (2, 29);
      change (month_day 0) with (3, 1); cbn [Z.leb Z.compare Pos.compare Pos.compare_cont next_day].
    + destruct (is_leap (y + 1)); reflexivity.
    + destruct (is_leap (y + 1)); [reflexivity|lia].
Qed.

Lemma civil_date_of days :
  let z := days + 719468 in
  civil_from_days days =
    date_of (year_of (z mod 146097) + (z / 146097) * 400)
      (z mod 146097 - year_start (year_of (z mod 146097))).
Proof. reflexivity. Qed.

Lemma civil_split days :
  exists era y doy, 0 <= y <= 399 /\ 0 <= doy < year_len y /\
    days + 719468 = era * 146097 + year_start y + doy.
Proof.
  pose proof (Z.mod_pos_bound (days + 719468) 146097 ltac:(lia)).
  destruct (year_exists ((days + 719468) mod 146097) ltac:(lia)) as (y & doy & Hy & Hd & He).
  exists ((days + 719468) / 146097), y, doy. split; [done|]. split; [done|].
  pose proof (Z.div_mod (days + 719468) 146097 ltac:(lia)). lia.
Qed.

Lemma civil_join days era y doy :
  0 <= y <= 399 -> 0 <= doy < year_len y -> days + 719468 = era * 146097 + year_start y + doy ->
  civil_from_days days = date_of (y + era * 400) doy.
Proof.
  intros Hy Hd He. rewrite civil_date_of. cbn zeta.
  destruct (year_spec y Hy) as (_ & _ & H3 & H4 & H5 & H6).
  assert (year_start y + year_len y <= 146097) as Hmax.
  { destruct (Z.eq_dec y 399); [lia|]. rewrite H3 by lia. unfold year_start. Z.div_mod_to_equations. lia. }
  assert ((days + 719468) / 146097 = era) as ->
    by (symmetry; apply (Z.div_unique _ _ _ (year_start y + doy)); lia).
  assert ((days + 719468) mod 146097 = year_start y + doy) as ->
    by (symmetry; apply (Z.mod_unique _ _ era); lia).
  rewrite year_of_day by done. f_equal. lia.
Qed.

Lemma civil_succ days : civil_from_days (days + 1) = next_day (civil_from_days days).
Proof.
  destruct (civil_split days) as (era & y & doy & Hy & Hd & He).
  destruct (year_spec y Hy) as (_ & _ & H3 & H4 & H5 & _).
  rewrite (civil_join days era y doy) by done.
  assert (year_len (y + era * 400) = year_len y) as Hl.
  { unfold year_len. replace (y + era * 400 + 1) with (y + 1 + era * 400) by ring. by rewrite is_leap_period. }
  rewrite next_date by lia. rewrite Hl. destruct (Z.eqb_spec (doy + 1) (year_len y)).
  - destruct (Z.eq_dec y 399) as [->|Hn].
    + rewrite (civil_join (days + 1) (era + 1) 0 0); [f_equal; lia|lia|done|].
      specialize (H4 eq_refl). change (year_start 0) with 0. lia.
    + destruct (year_spec (y + 1) ltac:(lia)) as (_ & _ & _ & _ & ? & _).
      rewrite (civil_join (days + 1) era (y + 1) 0); [f_equal; lia|lia|lia|].
      rewrite <- H3 by lia. lia.
  - apply civil_join; lia.
Qed.

Lemma civil_iter n : civil_from_days (Z.of_nat n) = Nat.iter n next_day (1970, 1, 1).
Proof.
  induction n as [|n IH]; [reflexivity|].
  change (Nat.iter (S n) next_day (1970, 1, 1)) with (next_day (Nat.iter n next_day (1970, 1, 1))).
  rewrite <- IH, <- civil_succ. f_equal. lia.
Qed.

Lemma civil_month days : let '(_, m, d) := civil_from_days days in 1 <= m <= 12 /\ 1 <= d <= 31.
Proof.
  destruct (civil_split days) as (era & y & doy & Hy & Hd & He).
  rewrite (civil_join days era y doy) by done. unfold date_of.
  assert (doy < 365 \/ doy = 365) as [Hlt| ->]
    by (unfold year_len in Hd; destruct (is_leap _); lia); [|by cbn].
  pose proof (same_year_all doy ltac:(lia)) as H. unfold same_year in H.
  destruct (month_day doy) as [m d], (month_day (doy + 1)).
  rewrite !andb_true_iff, !Z.leb_le in H. destruct H as [[[[[H1 H2] H3] H4] _] _].
  split; [lia|]. unfold month_length in H4. repeat case_match; lia.
Qed.

Lemma clf_total t : in_u 64 t -> is_Some (clf_timestamp t).
Proof.
  intros _. unfold clf_timestamp. pose proof (civil_month (t / 86400)) as Hm.
  destruct (civil_from_days (t / 86400)) as [[y m] d]. destruct Hm as [Hm Hd].
  assert (is_Some (MONTHS !! Z.to_nat (m - 1))) as [month ->]; [|by eexists].
  apply lookup_lt_is_Some. change (length MONTHS) with 12%nat. lia.
Qed.

(** C38: the hand-written date algorithm is the Gregorian calendar.  For every
    [u64] of seconds, the timestamp is produced (the month index is in range),
    its date is 1 January 1970 advanced by one calendar day as many times as
    whole days have passed, with month lengths and the leap rule of the
    calendar, and its clock is the remaining seconds. *)
Theorem clf_timestamp_calendar t :
  in_u 64 t ->
  exists y m d h mi s month,
    (y, m, d) = Nat.iter (Z.to_nat (t / 86400)) next_day (1970, 1, 1) /\
    MONTHS !! Z.to_nat (m - 1) = Some month /\ 1 <= m <= 12 /\
    t = 86400 * (t / 86400) + 3600 * h + 60 * mi + s /\
    0 <= h < 24 /\ 0 <= mi < 60 /\ 0 <= s < 60 /\
    clf_timestamp t = Some (zero_pad 2 d ++ lit "/" ++ month ++ lit "/" ++ zero_pad 4 y ++ lit ":" ++
      zero_pad 2 h ++ lit ":" ++ zero_pad 2 mi ++ lit ":" ++ zero_pad 2 s ++ lit " +0000").
Proof.
  intros [H0 H1]. unfold clf_timestamp. pose proof (civil_iter (Z.to_nat (t / 86400))) as Hi.
  rewrite Z2Nat.id in Hi by (apply Z.div_pos; lia). pose proof (civil_month (t / 86400)) as Hm.
  destruct (civil_from_days (t / 86400)) as [[y m] d]. destruct Hm as [Hm Hd].
  assert (is_Some (MONTHS !! Z.to_nat (m - 1))) as [month Hmonth].
  { apply lookup_lt_is_Some. change (length MONTHS) with 12%nat. lia. }
  rewrite Hmonth. exists y, m, d, (t mod 86400 / 3600), (t mod 86400 mod 3600 / 60), (t mod 86400 mod 60), month.
  split; [done|]. split; [done|]. split; [done|].
  pose proof (Z.mod_pos_bound t 86400 ltac:(lia)).
  pose proof (Z.div_mod t 86400 ltac:(lia)).
  set (s := t mod 86400) in *. clearbody s.
  repeat (split; [Z.div_mod_to_equations; lia|]). done.
Qed.

Lemma clf_timestamp_calendar_witness :
  clf_timestamp 951782400 = Some (lit "29/Feb/2000:00:00:00 +0000") /\
  exists y m d, (y, m, d) = Nat.iter (Z.to_nat (951782400 / 86400)) next_day (1970, 1, 1) /\ 1 <= m <= 12.
Proof.
  split; [reflexivity|].
  destruct (clf_timestamp_calendar 951782400) as (y & m & d & _ & _ & _ & _ & H & _ & Hm & _);
    [unfold in_u; lia|]. exists y, m, d. split; [exact H|exact Hm].
Defined.

(** ** Escaping *)

(** [{:02X}]. *)
Definition hex_digit_upper (n : Z) : byte :=
  default x30 ([x30; x31; x32; x33; x34; x35; x36; x37; x38; x39; x41; x42; x43; x44; x45; x46]
                 !! Z.to_nat n).
Definition percent_byte (b : byte) : str :=
  [x25; hex_digit_upper (Z_of_byte b / 16); hex_digit_upper (Z_of_byte b mod 16)].

(** The one-byte characters that must be escaped: the quote, the backslash and
    the ASCII control characters. *)
Definition must_escape_byte (b : byte) : bool :=
  bool_decide (b = x22) || bool_decide (b = x5c) || (Z_of_byte b <? 32) || (Z_of_byte b =? 127).

(** [escape_lancache] on UTF-8 text.  The other control characters, U+0080 to
    U+009F, are encoded as C2 followed by their code, and C2 begins nothing
    else; no other multi-byte character is escaped. *)
Fixpoint escape_lancache (value : str) : str :=
  match value with
  | [] => []
  | b :: rest =>
      match rest with
      | c :: rest' =>
          if bool_decide (b = xc2) && ((128 <=? Z_of_byte c) && (Z_of_byte c <? 160))
          then percent_byte b ++ percent_byte c ++ escape_lancache rest'
          else (if must_escape_byte b then percent_byte b else [b]) ++ escape_lancache rest
      | [] => if must_escape_byte b then percent_byte b else [b]
      end
  end.

Record AccessEvent := mkAccessEvent {
  ae_client_ip : str;
  ae_service : str;
  ae_host : str;
  ae_method : str;
  ae_path : str;
  ae_range : option str;
  ae_status : Z;
  ae_bytes : Z;
  ae_cache_status : str;
  ae_user_agent : option str;
  ae_timestamp : str }.

Definition dquote : str := [x22].

Definition to_lancache (e : AccessEvent) : str :=
  lit "[" ++ ae_service e ++ lit "] " ++ ae_client_ip e ++ lit " / - - - [" ++ ae_timestamp e ++
  lit "] " ++ dquote ++ ae_method e ++ lit " " ++ escape_lancache (ae_path e) ++ lit " HTTP/1.1" ++
  dquote ++ lit " " ++ to_dec (ae_status e) ++ lit " " ++ to_dec (ae_bytes e) ++ lit " " ++
  dquote ++ lit "-" ++ dquote ++ lit " " ++
  dquote ++ escape_lancache (default (lit "-") (ae_user_agent e)) ++ dquote ++ lit " " ++
  dquote ++ ae_cache_status e ++ dquote.

(** A positional parser: the text between quotes, alternating outside and
    inside. *)
Definition quoted_fields (line : str) : list str := split_on x22 line.

Definition plain (s : str) : Prop := Forall (fun b => must_escape_byte b = false) s.

Lemma plain_app a b : plain a -> plain b -> plain (a ++ b).
Proof. apply Forall_app_2. Qed.

Lemma plain_no b s : must_escape_byte b = true -> plain s -> ~ (b ∈ s).
Proof. intros Hb Hs Hin. unfold plain in Hs. rewrite Forall_forall in Hs. specialize (Hs _ Hin). congruence. Qed.

Lemma percent_plain b : plain (percent_byte b).
Proof.
  assert (forallb (fun c => negb (must_escape_byte c)) (percent_byte b) = true) as H.
  { revert b. apply byte_forall. vm_compute. reflexivity. }
  unfold plain. apply Forall_forall. intros c Hin. rewrite forallb_forall in H.
  apply negb_true_iff, H, list_elem_of_In, Hin.
Qed.

Lemma escape_cons2 b c s :
  escape_lancache (b :: c :: s) =
    if bool_decide (b = xc2) && ((128 <=? Z_of_byte c) && (Z_of_byte c <? 160))
    then percent_byte b ++ percent_byte c ++ escape_lancache s
    else (if must_escape_byte b then percent_byte b else [b]) ++ escape_lancache (c :: s).
Proof. reflexivity. Qed.

Lemma escape_plain s : plain (escape_lancache s).
Proof.
  remember (length s) as n eqn:Hn. assert (length s <= n)%nat as Hle by lia. clear Hn.
  revert s Hle. induction n as [|n IH]; intros [|b [|c s]] Hle; cbn [length] in Hle; try lia.
  all: try constructor.
  - cbn. destruct (must_escape_byte b) eqn:E; [apply percent_plain|by repeat constructor].
  - rewrite escape_cons2. destruct (bool_decide (b = xc2) && _).
    + apply plain_app; [apply percent_plain|]. apply plain_app; [apply percent_plain|]. apply IH. lia.
    + apply plain_app; [|apply IH; cbn; lia].
      destruct (must_escape_byte b) eqn:E; [apply percent_plain|by repeat constructor].
Qed.

Lemma escape_id s : plain s -> ~ (xc2 ∈ s) -> escape_lancache s = s.
Proof.
  intros Hs Hc. induction Hs as [|b s Hb Hs IH]; [done|].
  apply not_elem_of_cons in Hc as [Hne Hc].
  destruct s as [|c s]; [cbn; by rewrite Hb|]. rewrite escape_cons2, Hb.
  rewrite bool_decide_false by congruence. cbn [andb].
  by rewrite IH.
Qed.

Lemma to_dec_plain n : 0 <= n -> plain (to_dec n).
Proof.
  intros Hn. destruct (to_dec_spec n Hn) as (_ & Hd & _). eapply Forall_impl; [exact Hd|].
  intros b. assert (implb (is_ascii_digit b) (negb (must_escape_byte b)) = true) as H.
  { revert b. apply byte_forall. vm_compute. reflexivity. }
  cbn beta. destruct (is_ascii_digit b), (must_escape_byte b); done.
Qed.

(** A client cannot forge a log record.  Whatever bytes the path and the
    user agent hold, the lancache line has no line break or other ASCII control
    character, and a parser that goes by the quotes finds exactly the fields of
    the format, each in its position; a value without quotes, backslashes and
    control characters is logged unchanged. *)
Theorem log_line_unforgeable e :
  plain (ae_service e) -> plain (ae_client_ip e) -> plain (ae_timestamp e) -> plain (ae_method e) ->
  plain (ae_cache_status e) -> 0 <= ae_status e -> 0 <= ae_bytes e ->
  quoted_fields (to_lancache e) =
    [lit "[" ++ ae_service e ++ lit "] " ++ ae_client_ip e ++ lit " / - - - [" ++ ae_timestamp e ++ lit "] ";
     ae_method e ++ lit " " ++ escape_lancache (ae_path e) ++ lit " HTTP/1.1";
     lit " " ++ to_dec (ae_status e) ++ lit " " ++ to_dec (ae_bytes e) ++ lit " ";
     lit "-"; lit " "; escape_lancache (default (lit "-") (ae_user_agent e)); lit " ";
     ae_cache_status e; []] /\
  Forall (fun b => b = x22 \/ must_escape_byte b = false) (to_lancache e) /\
  (plain (ae_path e) -> ~ (xc2 ∈ ae_path e) -> escape_lancache (ae_path e) = ae_path e).
Proof.
  intros Hs Hi Ht Hm Hc Hst Hb.
  pose proof (escape_plain (ae_path e)) as Hp.
  pose proof (escape_plain (default (lit "-") (ae_user_agent e))) as Hu.
  pose proof (to_dec_plain _ Hst) as Hd1. pose proof (to_dec_plain _ Hb) as Hd2.
  assert (forall s, forallb (fun b => negb (must_escape_byte b)) s = true -> plain s) as Hlit.
  { intros s H. unfold plain. apply Forall_forall. intros b Hin. rewrite forallb_forall in H.
    apply negb_true_iff, H, list_elem_of_In, Hin. }
  assert (forall a b, plain a -> quoted_fields (a ++ dquote ++ b) = a :: quoted_fields b) as Hcut.
  { intros a b Ha. apply split_on_cut. by apply plain_no. }
  assert (Forall plain [lit "["; lit "] "; lit " / - - - ["; lit " "; lit " HTTP/1.1"; lit "-"]) as Hl.
  { repeat constructor. }
  rewrite !Forall_cons in Hl. destruct Hl as (L1 & L2 & L3 & L4 & L5 & L6 & _).
  pose (F := fun s : str => Forall (fun b => b = x22 \/ must_escape_byte b = false) s).
  assert (forall s, plain s -> F s) as HF by (intros s H; eapply Forall_impl; [exact H|by right]).
  assert (F dquote) as HFq by (repeat constructor).
  split; [|split; [|apply escape_id]].
  - unfold to_lancache.
    rewrite (app_assoc (lit "[")), (app_assoc (_ ++ ae_service e)), (app_assoc (_ ++ lit "] ")),
      (app_assoc (_ ++ ae_client_ip e)), (app_assoc (_ ++ lit " / - - - [")),
      (app_assoc (_ ++ ae_timestamp e)).
    rewrite Hcut by (repeat apply plain_app; done).
    rewrite (app_assoc (ae_method e)), (app_assoc (_ ++ lit " ")), (app_assoc (_ ++ escape_lancache _)).
    rewrite Hcut by (repeat apply plain_app; done).
    rewrite (app_assoc (lit " ") (to_dec _)), (app_assoc (_ ++ to_dec _)), (app_assoc (_ ++ lit " ")),
      (app_assoc (_ ++ to_dec (ae_bytes e))).
    rewrite Hcut by (repeat apply plain_app; done).
    rewrite !Hcut by done. rewrite <- (app_nil_r dquote) at 1. rewrite Hcut by done.
    rewrite <- !app_assoc. reflexivity.
  - unfold to_lancache. fold F. repeat (apply Forall_app_2; [by (apply HFq || apply HF)|]). done.
Qed.

Lemma log_line_unforgeable_witness :
  let e := mkAccessEvent (lit "10.0.0.9") (lit "steam") (lit "h") (lit "GET") (lit "/d") None 200 5
             (lit "HIT") (Some (dquote ++ lit " 1" ++ [x0a] ++ lit "[steam]")) (lit "t") in
  len (quoted_fields (to_lancache e)) = 9.
Proof.
  intros e. destruct (log_line_unforgeable e) as [-> _]; try (repeat constructor; done); done.
Defined.

(** Escaping is not injective: a quote and its escape are logged alike. *)
Lemma escape_ambiguous : escape_lancache dquote = escape_lancache (lit "%22").
Proof. reflexivity. Qed.

(** ** Emission *)

(** What an event hands to tracing: fields, in order, and a message. *)
Inductive FieldValue :=
  | FText (s : str)
  | FNumber (n : Z)
  | FSeconds (nanoseconds : Z).

Record LogRecord := mkLogRecord {
  lr_target : str;
  lr_fields : list (str * FieldValue);
  lr_message : str }.

(** [emit]; [upstream_seconds] is the field of that name, a duration. *)
Definition emit (format : LogFormat) (e : AccessEvent) (upstream_seconds : Z) : LogRecord :=
  match format with
  | Json =>
      mkLogRecord (lit "cachic::access")
        [(lit "client_ip", FText (ae_client_ip e)); (lit "service", FText (ae_service e));
         (lit "host", FText (ae_host e)); (lit "method", FText (ae_method e)); (lit "path", FText (ae_path e));
         (lit "range", FText (default (lit "-") (ae_range e))); (lit "status", FNumber (ae_status e));
         (lit "bytes", FNumber (ae_bytes e)); (lit "cache", FText (ae_cache_status e));
         (lit "upstream_seconds", FSeconds upstream_seconds); (lit "timestamp", FText (ae_timestamp e))]
        (lit "request")
  | Lancache => mkLogRecord (lit "cachic::access") [] (to_lancache e)
  end.

(** [init]: how the subscriber prints a record, and the filter; [env_filter] is
    what the environment asks for, if it is a valid filter. *)
Record Subscriber := mkSubscriber {
  sb_json : bool;
  sb_time : bool;
  sb_target : bool;
  sb_level : bool;
  sb_filter : str }.

Definition init (format : LogFormat) (level : str) (env_filter : option str) : Subscriber :=
  let filter := default level env_filter in
  match format with
  | Json => mkSubscriber true true true true filter
  | Lancache => mkSubscriber false false false false filter
  end.

(** A JSON record determines its request, but for the user agent, which it does
    not have, and an absent range, which it shows as a dash. *)
Lemma json_record_determines e e' s s' :
  emit Json e s = emit Json e' s' ->
  s = s' /\ default (lit "-") (ae_range e) = default (lit "-") (ae_range e') /\
  e' = mkAccessEvent (ae_client_ip e) (ae_service e) (ae_host e) (ae_method e) (ae_path e) (ae_range e')
    (ae_status e) (ae_bytes e) (ae_cache_status e) (ae_user_agent e') (ae_timestamp e).
Proof. destruct e, e'. unfold emit. cbn. intros [= -> -> -> -> -> -> -> -> -> -> ->]. done. Qed.
