(* ===== verification/Orchestrator.v ===== *)
(** * The orchestrator

    Models [crates/cachic/src/orchestrator/mod.rs]: metadata with its
    single-flight cells, the probe, the plan, the slice fetch with its validator
    check and generation bump, stale-on-error, and the fill of objects whose
    origin ignores ranges; and [store/hybrid.rs], the slice store.

    The cache engine ([foyer]) is a crate of its own and appears as the
    interface [Foyer]: a store that may forget entries at any time but never
    returns anything else than what was last inserted under the key
    ([FoyerLaws]).  The index is the one of [Index.v] over any database that
    keeps [RedbLaws].  Upstream responses are inputs.  Metrics and logging are
    left out.

    A request is a sequence of steps, because tasks interleave at every await:
    [step] lists them, with the response of the origin chosen freely at each
    fetch.  The main theorem is that a response never mixes versions of an
    object. *)

From S2P Require Import Prelude.
From S2P Require Import RustStr.
From S2P Require Import Codec.
From S2P Require Import SliceCodec.
From S2P Require Import Index.
From S2P Require Import Guard.
From S2P Require Import Resolver.
From S2P Require Import Client.
From S2P Require Import Validators.
From S2P Require Import Filler.
From S2P Require Import Readahead.
From S2P Require Import Headers.
From S2P Require Import Units.
From S2P Require Import Key.
From S2P Require Import Range.

Open Scope Z_scope.

(** ** Errors *)

(** [StoreError::Fetch] keeps only the text of what went wrong. *)
Inductive StoreError := StoreFetch (text : str).

Inductive OrchestratorError :=
  | OUnsatisfiable (total_len : Z)
  | OUpstream (e : UpstreamError)
  | OStore (e : StoreError)
  | ONoLength (url : str)
  | OShortSlice (url : str) (index expected actual : Z)
  | OValidatorChanged (url : str) (had now : option str)
  | OFill (url reason : str).

Definition is_transient (e : UpstreamError) : bool :=
  match e with
  | Status _ status => is_server_error status
  | Request _ source => re_is_timeout source || re_is_connect source || re_is_request source
  | _ => false
  end.

(** [str::contains] for a string pattern. *)
Fixpoint contains_str (p s : str) : bool :=
  starts_with p s || match s with [] => false | _ :: s' => contains_str p s' end.

Definition is_transient_orchestrator_error (e : OrchestratorError) : bool :=
  match e with
  | OUpstream e => is_transient e
  | OStore (StoreFetch text) =>
      contains_str (lit "timed out") text || contains_str (lit "503") text ||
      contains_str (lit "502") text
  | _ => false
  end.

Definition error_kind (e : OrchestratorError) : str :=
  match e with
  | OUpstream (Status _ status) =>
      if is_server_error status then lit "origin_5xx" else lit "origin_4xx"
  | OUpstream (Request _ source) =>
      if re_is_timeout source then lit "timeout"
      else if re_is_connect source then lit "connect" else lit "request"
  | OUpstream (Resolve _) => lit "resolve"
  | _ => lit "other"
  end.

(** ** The slice store, as an interface *)

(** What the closure given to [get_or_fetch] can fail with. *)
Inductive FetchError :=
  | FUpstream (e : UpstreamError)
  | FMismatch (found : Validators)
  | FShort (index expected : Z) (actual : Z).

(** How [get_or_fetch] ended: with a stored value (or one another caller
    fetched), with the closure's own result, or with an error of the engine or
    of the fetch it shared. *)
Inductive FetchOutcome :=
  | GotStored (v : SliceValue)
  | GotFetched
  | GotError (text : str).

Class Foyer (S : Type) := {
  foyer_insert : S -> SliceKey -> SliceValue -> S;
  foyer_remove : S -> SliceKey -> S;
  foyer_contains : S -> SliceKey -> bool;
  foyer_get : S -> SliceKey -> result str (option SliceValue);
  foyer_get_or_fetch : S -> SliceKey -> result FetchError SliceValue -> FetchOutcome * S;
  (** The text of an error that crossed the engine. *)
  foyer_error_text : FetchError -> str }.

Class FoyerLaws (S : Type) `{Foyer S} := {
  held : S -> gmap SliceKey SliceValue;
  held_insert s k v : held (foyer_insert s k v) ⊆ <[k := v]> (held s);
  held_remove s k : held (foyer_remove s k) ⊆ delete k (held s);
  held_get s k v : foyer_get s k = Ok (Some v) -> held s !! k = Some v;
  held_get_or_fetch s k r :
    match foyer_get_or_fetch s k r with
    | (GotStored v, s') => held s !! k = Some v /\ held s' ⊆ held s
    | (GotFetched, s') =>
        held s' ⊆ match r with Ok v => <[k := v]> (held s) | Err _ => held s end
    | (GotError _, s') => held s' ⊆ held s
    end }.

(** [SliceStore::get]. *)
Definition store_get {S} `{Foyer S} (s : S) (k : SliceKey) : result StoreError (option SliceValue) :=
  map_err StoreFetch (foyer_get s k).

(** ** State *)

Record Orch (S T : Type) := mkOrch {
  or_store : S;
  or_index : T;
  or_cells : gmap ObjectId nat;
  or_heap : list (ObjectId * option ObjectMeta) }.
Arguments mkOrch {S T}.
Arguments or_store {S T}.
Arguments or_index {S T}.
Arguments or_cells {S T}.
Arguments or_heap {S T}.

Record Plan := mkPlan {
  pl_service : str;
  pl_status : StatusCode;
  pl_wanted : ByteRange;
  pl_total_len : Z;
  pl_cache_status : CacheStatus;
  pl_meta : ObjectMeta;
  pl_object : ObjectId;
  pl_partial : bool }.

Definition header_for (meta : ObjectMeta) (slice_size : Z) : SliceHeader :=
  mkSliceHeader slice_size (om_total_len meta) (om_generation meta) (om_etag meta)
    (om_last_modified meta) (om_content_type meta).

Definition meta_validators (meta : ObjectMeta) : Validators :=
  mkValidators (om_etag meta) (om_last_modified meta).

Definition response_validators (r : UpstreamResponse) : Validators :=
  mkValidators (response_header r (lit "etag")) (response_header r (lit "last-modified")).

Section Orchestrator.
Context {S T : Type} `{Foyer S} `{Redb T}.
Context (slice_size : Z).
Abbreviation Orch := (Orch S T).
Implicit Types st : Orch.

Definition set_store st (s : S) : Orch := mkOrch s (or_index st) (or_cells st) (or_heap st).
Definition set_index st (t : T) : Orch := mkOrch (or_store st) t (or_cells st) (or_heap st).

(** [bump_generation]: the cell is dropped even if the index could not
    record the invalidation. *)
Definition bump_generation st (object : ObjectId) : Z * Orch :=
  let '(next, t) :=
    match index_invalidate (or_index st) object with
    | Ok (generation, t) => (generation, t)
    | Err _ => (1, or_index st)
    end in
  (next, mkOrch (or_store st) t (delete object (or_cells st)) (or_heap st)).

(** [cell]: the object's cell, created empty if there is none. *)
Definition cell st (object : ObjectId) : nat * Orch :=
  match or_cells st !! object with
  | Some c => (c, st)
  | None =>
      let c := length (or_heap st) in
      (c, mkOrch (or_store st) (or_index st) (<[object := c]> (or_cells st))
            (or_heap st ++ [(object, None)]))
  end.

Definition init_cell st (c : nat) (object : ObjectId) (meta : ObjectMeta) : Orch :=
  mkOrch (or_store st) (or_index st) (or_cells st) (<[c := (object, Some meta)]> (or_heap st)).

(** The index path of [metadata]: an entry that is present and not stale. *)
Definition metadata_from_index (now : Z) st (object : ObjectId) : option (ObjectMeta * Orch) :=
  match index_get (or_index st) object with
  | Ok (Some meta) =>
      if om_stale meta then None else
      Some (meta,
            match index_touch now (or_index st) object with
            | Ok (_, t) => set_index st t
            | Err _ => st
            end)
  | _ => None
  end.

(** The range a probe asks for. *)
Definition probe_range (index : Z) : Z * Z :=
  let start := wrap64 (index * slice_size) in
  (start, wrap64 (wrap64 (start + slice_size) - 1)).

(** The rest of [probe], once the response has arrived. *)
Definition probe_commit (now : Z) st (key : CacheKey) (object : ObjectId) (url : str) (index : Z)
    (response : UpstreamResponse) : result OrchestratorError (ObjectMeta * Orch) :=
  '(total_len, no_ranges) ←
    (if up_status response =? PARTIAL_CONTENT then
       total ← ok_or (content_range_total response) (ONoLength url); Ok (total, false)
     else
       total ← ok_or (content_length response) (ONoLength url); Ok (total, true));
  let generation :=
    match index_get (or_index st) object with
    | Ok (Some previous) => om_generation previous
    | _ => 0
    end in
  let meta := mkObjectMeta (ck_key key) total_len generation
    (response_header response (lit "etag")) (response_header response (lit "last-modified"))
    (response_header response (lit "content-type")) no_ranges now now false in
  let st1 :=
    if no_ranges then st
    else set_store st (foyer_insert (or_store st) (mkSliceKey object generation index)
           (mkSliceValue (header_for meta slice_size) (up_body response))) in
  let st2 :=
    match index_put (or_index st1) object meta with
    | Ok t => set_index st1 t
    | Err _ => st1
    end in
  Ok (meta, st2).

(** [metadata] when nothing else runs meanwhile: the index, the cell, or a
    probe answered by [fetched]. *)
Definition metadata (now : Z) st (key : CacheKey) (object : ObjectId) (url : str)
    (probe_index : Z) (fetched : result UpstreamError UpstreamResponse)
    : result OrchestratorError (ObjectMeta * bool) * Orch :=
  match metadata_from_index now st object with
  | Some (meta, st') => (Ok (meta, false), st')
  | None =>
      let '(c, st1) := cell st object in
      match or_heap st1 !! c with
      | Some (_, Some meta) => (Ok (meta, false), st1)
      | _ =>
          match fetched with
          | Err e => (Err (OUpstream e), st1)
          | Ok response =>
              match probe_commit now st1 key object url probe_index response with
              | Err e => (Err e, st1)
              | Ok (meta, st2) => (Ok (meta, true), init_cell st2 c object meta)
              end
          end
      end
  end.

Definition range_spec (raw_range : option str) : option RangeSpec :=
  match parse_range <$> raw_range with
  | Some (Ok spec) => Some spec
  | _ => None
  end.

Definition probe_index_of (spec : option RangeSpec) : Z :=
  match spec with
  | Some (Range.Suffix _) | None => 0
  | Some (FromTo start _) | Some (From start) => wrap32 (start / slice_size)
  end.

(** The second half of [plan], once the metadata is known. *)
Definition plan_with st (key : CacheKey) (object : ObjectId) (spec : option RangeSpec)
    (meta : ObjectMeta) (probed_here : bool) : result OrchestratorError Plan :=
  let probe_index := probe_index_of spec in
  wanted ←
    match spec with
    | None => Ok (default (mkByteRange 0 0) (whole (om_total_len meta)))
    | Some spec => map_err (fun _ => OUnsatisfiable (om_total_len meta))
                     (Range.resolve spec (om_total_len meta))
    end;
  let partial := match spec with Some _ => true | None => false end in
  let cache_status :=
    if om_total_len meta =? 0 then Hit else
    let p := Range.plan wanted slice_size in
    let resident := len (filter (fun i =>
      foyer_contains (or_store st) (mkSliceKey object (om_generation meta) i) = true)
      (plan_indices p)) in
    let resident :=
      if probed_here && ((sp_first p <=? probe_index) && (probe_index <=? sp_last p))
      then sat_sub resident 1 else resident in
    classify resident (plan_count p) in
  Ok (mkPlan (ck_service key) (if partial then PARTIAL_CONTENT else OK_200) wanted
        (om_total_len meta) cache_status meta object partial).

Definition plan_request (blake3 : bytes -> bytes) (now : Z) st (key : CacheKey) (url : str)
    (raw_range : option str) (fetched : result UpstreamError UpstreamResponse)
    : result OrchestratorError Plan * Orch :=
  let object := key_object_id blake3 key in
  let spec := range_spec raw_range in
  match metadata now st key object url (probe_index_of spec) fetched with
  | (Err e, st') => (Err e, st')
  | (Ok (meta, probed_here), st') => (plan_with st' key object spec meta probed_here, st')
  end.

(** What the closure of [slice] makes of a response. *)
Definition check_slice (meta : ObjectMeta) (total_len index : Z)
    (fetched : result UpstreamError UpstreamResponse) : result FetchError SliceValue :=
  let expected_len := byte_range_len (slice_extent index slice_size total_len) in
  match fetched with
  | Err e => Err (FUpstream e)
  | Ok response =>
      let found := response_validators response in
      if negb (matches (meta_validators meta) found) then Err (FMismatch found) else
      if negb (len (up_body response) =? expected_len)
      then Err (FShort index expected_len (len (up_body response)))
      else Ok (mkSliceValue (header_for meta slice_size) (up_body response))
  end.

(** [slice] for an origin that honours ranges. *)
Definition slice_fetch (stale_on_error : bool) st (object : ObjectId) (meta : ObjectMeta)
    (total_len : Z) (url : str) (index : Z) (fetched : result UpstreamError UpstreamResponse)
    : result OrchestratorError SliceValue * Orch :=
  let key := mkSliceKey object (om_generation meta) index in
  let checked := check_slice meta total_len index fetched in
  let '(outcome, s) := foyer_get_or_fetch (or_store st) key checked in
  let st := set_store st s in
  let failed (e : OrchestratorError) (st : Orch) :=
    if stale_on_error && is_transient_orchestrator_error e then
      match store_get (or_store st) key with
      | Ok (Some value) => (Ok value, st)
      | _ => (Err e, st)
      end
    else (Err e, st) in
  match outcome with
  | GotStored v => (Ok v, st)
  | GotError text => failed (OStore (StoreFetch text)) st
  | GotFetched =>
      match checked with
      | Ok v => (Ok v, st)
      | Err (FMismatch found) =>
          let '(_, st) := bump_generation st object in
          failed (OValidatorChanged url (om_etag meta) (va_etag found)) st
      | Err e => failed (OStore (StoreFetch (foyer_error_text e))) st
      end
  end.
End Orchestrator.

(** ** Filling an object whose origin ignores ranges *)

Section Fill.
Context {S T : Type} `{Foyer S} `{Redb T}.
Context (slice_size : Z).
Implicit Types st : Orch S T.

(** Store the slices from [index] on and publish after each; the slice
    counter is a [u32]. *)
Fixpoint insert_slices (s : S) (reg : FillRegistry) (fill : FillId) (object : ObjectId)
    (meta : ObjectMeta) (index : Z) (slices : list bytes) : S * FillRegistry * Z :=
  match slices with
  | [] => (s, reg, index)
  | payload :: rest =>
      let next := wrap32 (index + 1) in
      insert_slices
        (foyer_insert s (mkSliceKey object (om_generation meta) index)
           (mkSliceValue (header_for meta slice_size) payload))
        (publish reg fill next) fill object meta next rest
  end.

(** [run_fill], given what [fetch_stream] returned: the number of slices
    stored, or the error that ended the stream. *)
Definition run_fill st (reg : FillRegistry) (fill : FillId) (object : ObjectId) (meta : ObjectMeta)
    (url : str) (stream : result UpstreamError (list (result ReqwestError bytes)))
    : result OrchestratorError Z * Orch S T * FillRegistry :=
  match stream with
  | Err e => (Err (OUpstream e), st, reg)
  | Ok chunks =>
      let '(slices, ended) := cut_stream slice_size [] chunks in
      let '(s, reg, count) := insert_slices (or_store st) reg fill object meta 0 slices in
      (match ended with
       | Ok _ => Ok count
       | Err source => Err (OUpstream (Request url source))
       end, set_store st s, reg)
  end.

Definition never_reached (count index : Z) : str :=
  lit "fill produced " ++ to_dec count ++ lit " slices; slice " ++ to_dec index ++
  lit " was never reached".

(** [ensure_filled]: [seen] is what a subscriber observes; [text] renders an
    error for the subscribers of a failed fill. *)
Definition ensure_filled (text : OrchestratorError -> str) st (reg : FillRegistry)
    (object : ObjectId) (meta : ObjectMeta) (url : str) (index : Z)
    (stream : result UpstreamError (list (result ReqwestError bytes)))
    (seen : FillId -> list Progress)
    : result OrchestratorError unit * Orch S T * FillRegistry :=
  if foyer_contains (or_store st) (mkSliceKey object (om_generation meta) index)
  then (Ok tt, st, reg) else
  match claim reg object with
  | (Subscriber rx, reg) => (map_err (OFill url) (wait_for (seen rx) index), st, reg)
  | (Filler fill, reg) =>
      let '(outcome, st, reg) := run_fill st reg fill object meta url stream in
      let reg := release_fill reg object in
      match outcome with
      | Ok count =>
          (if index <? count then Ok tt else Err (OFill url (never_reached count index)),
           st, complete reg fill count)
      | Err e => (Err e, st, fail reg fill (text e))
      end
  end.

Definition reported_ready (index : Z) : str :=
  lit "slice " ++ to_dec index ++ lit " was reported ready but is not in the store".

(** [slice] on the path of an origin that ignores ranges. *)
Definition slice_filled text st (reg : FillRegistry) (object : ObjectId) (meta : ObjectMeta)
    (url : str) (index : Z) stream seen
    : result OrchestratorError SliceValue * Orch S T * FillRegistry :=
  let '(filled, st, reg) := ensure_filled text st reg object meta url index stream seen in
  match filled with
  | Err e => (Err e, st, reg)
  | Ok _ =>
      (match store_get (or_store st) (mkSliceKey object (om_generation meta) index) with
       | Err e => Err (OStore e)
       | Ok (Some value) => Ok value
       | Ok None => Err (OFill url (reported_ready index))
       end, st, reg)
  end.

(** [slice] as a whole. *)
Definition slice_of_plan text (stale_on_error : bool) st (reg : FillRegistry) (plan : Plan)
    (url : str) (index : Z) (fetched : result UpstreamError UpstreamResponse) stream seen
    : result OrchestratorError SliceValue * Orch S T * FillRegistry :=
  if om_no_ranges (pl_meta plan) then
    slice_filled text st reg (pl_object plan) (pl_meta plan) url index stream seen
  else
    let '(r, st) := slice_fetch slice_size stale_on_error st (pl_object plan) (pl_meta plan)
      (pl_total_len plan) url index fetched in
    (r, st, reg).

(** [indices] and [window]. *)
Definition indices (plan : Plan) : list Z :=
  if pl_total_len plan =? 0 then [] else plan_indices (Range.plan (pl_wanted plan) slice_size).
Definition window (plan : Plan) (index : Z) : Z * Z :=
  Range.payload_window index slice_size (pl_wanted plan).
End Fill.

(** ** Speculative fetches *)

Section Prefetch.
Context {S : Type} `{Foyer S}.
Context (slice_size : Z) (order : gmap ObjectId Pattern -> list (ObjectId * Pattern)).

(** [maybe_prefetch]: the slices a task is spawned for. *)
Definition maybe_prefetch (now : Z) (policy : ReadaheadPolicy) (s : S) (plan : Plan)
    : list Z * ReadaheadPolicy :=
  if (pl_total_len plan =? 0) || om_no_ranges (pl_meta plan) then ([], policy) else
  let span := Range.plan (pl_wanted plan) slice_size in
  let '(access, policy) := observe order now policy (pl_object plan) (sp_first span) (sp_last span) in
  let last_slice := wrap32 (Z.min ((pl_total_len plan - 1) / slice_size) u32_max) in
  let '(from, to) := prefetch policy access (sp_last span) last_slice in
  (filter (fun i =>
     foyer_contains s (mkSliceKey (pl_object plan) (om_generation (pl_meta plan)) i) = false)
     (seqZ from (to - from)), policy).
End Prefetch.

Lemma prefetch_bounds r access last last_slice from to :
  in_u 32 last -> in_u 32 last_slice -> 0 <= ra_window r ->
  prefetch r access last last_slice = (from, to) ->
  to - from <= ra_window r /\ forall i, from <= i < to -> last < i <= last_slice.
Proof.
  intros Hl Hs Hw. unfold prefetch.
  destruct access; [intros [= <- <-]; split; [lia|intros i Hi; lia]|].
  destruct (ra_window r =? 0); [intros [= <- <-]; split; [lia|intros i Hi; lia]|].
  destruct (Z.leb_spec (Z.min (sat_add 32 (sat_add 32 last 1) (ra_window r)) (sat_add 32 last_slice 1))
    (sat_add 32 last 1)); intros [= <- <-]; (split; [|intros i Hi]); width.
Qed.

(** Prefetching never leaves the object, never repeats work and never
    exceeds its window.  Every slice fetched speculatively lies after the
    request's last slice and begins inside the object, is not already in the
    store, and there are at most as many of them as the window. *)
Theorem prefetch_inside_object {S} `{Foyer S} slice_size order now policy (s : S) plan i :
  0 < slice_size -> in_u 64 (pl_total_len plan) ->
  range_in (pl_wanted plan) (pl_total_len plan) -> 0 <= ra_window policy ->
  let '(fetched, policy') := maybe_prefetch slice_size order now policy s plan in
  Z.of_nat (length fetched) <= ra_window policy /\
  (i ∈ fetched ->
     sp_last (Range.plan (pl_wanted plan) slice_size) < i /\
     0 <= i * slice_size < pl_total_len plan /\
     foyer_contains s (mkSliceKey (pl_object plan) (om_generation (pl_meta plan)) i) = false).
Proof.
  intros Hss Htot (Hr0 & Hr1 & Hr2) Hw. unfold maybe_prefetch. unfold in_u in Htot.
  destruct (Z.eqb_spec (pl_total_len plan) 0); [lia|]. cbn [orb].
  destruct (om_no_ranges (pl_meta plan)).
  { split; [simpl; lia|]. intros Hin. by apply not_elem_of_nil in Hin. }
  set (span := Range.plan (pl_wanted plan) slice_size).
  assert (in_u 32 (sp_last span)) as Hlast.
  { unfold span, Range.plan. cbn [sp_last]. rewrite (Z.max_l slice_size 1) by lia.
    pose proof (to_index_range slice_size (br_start (pl_wanted plan)) Hss ltac:(lia)).
    pose proof (to_index_range slice_size (br_end (pl_wanted plan)) Hss ltac:(lia)). width. }
  destruct (observe order now policy (pl_object plan) (sp_first span) (sp_last span)) as [access policy'] eqn:Eo.
  assert (ra_window policy' = ra_window policy) as Hw'.
  { unfold observe in Eo. destruct (_ !! _); [destruct (PATTERN_TTL <=? _)|]; by injection Eo as _ <-. }
  set (q := (pl_total_len plan - 1) / slice_size).
  assert (0 <= q) as Hq by (apply Z.div_pos; lia).
  assert (q * slice_size <= pl_total_len plan - 1) as Hqs.
  { unfold q. pose proof (Z.mul_div_le (pl_total_len plan - 1) slice_size Hss). lia. }
  rewrite wrap_small by width.
  destruct (prefetch policy' access (sp_last span) (Z.min q u32_max)) as [from to] eqn:Ep.
  apply prefetch_bounds in Ep as [Hn Hin]; [|done|width|lia]. rewrite Hw' in Hn.
  split.
  - etrans; [apply inj_le, length_filter|]. rewrite length_seqZ. lia.
  - rewrite list_elem_of_filter, elem_of_seqZ. intros [Hc Hi]. specialize (Hin i ltac:(lia)).
    unfold in_u in Hlast. split; [lia|]. split; [nia|done].
Qed.

(** ** Concurrency

    The system state is the shared state plus what the tasks hold: probes whose
    response has arrived, plans, and the slice values that have been handed to
    response bodies. *)

Record Pending := mkPending {
  pd_cell : nat;
  pd_object : ObjectId;
  pd_key : CacheKey;
  pd_index : Z;
  pd_response : UpstreamResponse }.

Record Sys (S T : Type) := mkSys {
  sy_orch : Orch S T;
  sy_pending : list Pending;
  sy_plans : list (ObjectId * ObjectMeta);
  sy_served : list (SliceKey * SliceValue) }.
Arguments mkSys {S T}.
Arguments sy_orch {S T}.
Arguments sy_pending {S T}.
Arguments sy_plans {S T}.
Arguments sy_served {S T}.

(** What happened in a step, for stating which traces a theorem covers. *)
Inductive Event :=
  | EvPlan
  | EvProbeStart (key : CacheKey) (object : ObjectId) (index : Z) (response : UpstreamResponse)
  | EvProbeEnd
  | EvSlice (object : ObjectId) (meta : ObjectMeta) (index : Z)
      (fetched : result UpstreamError UpstreamResponse)
  | EvFill (object : ObjectId) (meta : ObjectMeta) (index : Z) (payload : bytes)
  | EvEvict
  | EvPurge (object : ObjectId).

Section Steps.
Context {S T : Type} `{FoyerLaws S} `{RedbLaws T}.
Context (slice_size : Z).
Implicit Types st : Orch S T.

(** [purge] of one object, from the admin API: the current generation's
    slices and the index entry go; see [Admin.v]. *)
Definition purge_object st (object : ObjectId) (slices : list Z) : Orch S T :=
  match index_get (or_index st) object with
  | Ok (Some meta) =>
      let s := foldl (fun s i => foyer_remove s (mkSliceKey object (om_generation meta) i))
                 (or_store st) slices in
      match index_remove (or_index st) object with
      | Ok t => mkOrch s t (or_cells st) (or_heap st)
      | Err _ => set_store st s
      end
  | _ => st
  end.

Inductive step : Sys S T -> Event -> Sys S T -> Prop :=
  | step_plan_index now st st' pend plans served object meta :
      in_u 64 now -> metadata_from_index now st object = Some (meta, st') ->
      step (mkSys st pend plans served) EvPlan
           (mkSys st' pend ((object, meta) :: plans) served)
  | step_probe_start now st c st' pend plans served object key index response :
      metadata_from_index now st object = None ->
      cell st object = (c, st') -> or_heap st' !! c = Some (object, None) ->
      Forall (fun p => pd_cell p <> c) pend ->
      step (mkSys st pend plans served) (EvProbeStart key object index response)
           (mkSys st' (mkPending c object key index response :: pend) plans served)
  | step_probe_ok now st st' pre p post plans served url meta :
      in_u 64 now ->
      probe_commit slice_size now st (pd_key p) (pd_object p) url (pd_index p) (pd_response p)
        = Ok (meta, st') ->
      step (mkSys st (pre ++ p :: post) plans served) EvProbeEnd
           (mkSys (init_cell st' (pd_cell p) (pd_object p) meta) (pre ++ post)
              ((pd_object p, meta) :: plans) served)
  | step_probe_err now st pre p post plans served url e :
      probe_commit slice_size now st (pd_key p) (pd_object p) url (pd_index p) (pd_response p)
        = Err e ->
      step (mkSys st (pre ++ p :: post) plans served) EvProbeEnd
           (mkSys st (pre ++ post) plans served)
  | step_plan_cell st pend plans served c object meta :
      or_heap st !! c = Some (object, Some meta) ->
      step (mkSys st pend plans served) EvPlan
           (mkSys st pend ((object, meta) :: plans) served)
  | step_slice stale_on_error st st' pend plans served object meta url index fetched r :
      (object, meta) ∈ plans -> om_no_ranges meta = false ->
      slice_fetch slice_size stale_on_error st object meta (om_total_len meta) url index fetched
        = (r, st') ->
      step (mkSys st pend plans served) (EvSlice object meta index fetched)
           (mkSys st' pend plans
              (match r with
               | Ok v => [(mkSliceKey object (om_generation meta) index, v)]
               | Err _ => []
               end ++ served))
  | step_fill st pend plans served object meta index payload :
      (object, meta) ∈ plans -> om_no_ranges meta = true ->
      step (mkSys st pend plans served) (EvFill object meta index payload)
           (mkSys (set_store st (foyer_insert (or_store st)
                     (mkSliceKey object (om_generation meta) index)
                     (mkSliceValue (header_for meta slice_size) payload)))
              pend plans served)
  | step_read_filled st pend plans served object meta index v :
      (object, meta) ∈ plans -> om_no_ranges meta = true ->
      store_get (or_store st) (mkSliceKey object (om_generation meta) index) = Ok (Some v) ->
      step (mkSys st pend plans served) EvPlan
           (mkSys st pend plans ((mkSliceKey object (om_generation meta) index, v) :: served))
  | step_evict st s pend plans served :
      held s ⊆ held (or_store st) ->
      step (mkSys st pend plans served) EvEvict (mkSys (set_store st s) pend plans served)
  | step_purge st pend plans served object slices :
      step (mkSys st pend plans served) (EvPurge object)
           (mkSys (purge_object st object slices) pend plans served).
End Steps.

(** ** No response mixes versions *)

Record Version := mkVersion {
  vr_content : bytes;
  vr_validators : Validators }.

Section NoMixing.
Context {S T : Type} `{FoyerLaws S} `{RedbLaws T}.
Context (slice_size : Z).
(** The versions an object ever has at its origin, and HTTP's promise about
    strong validators: versions whose validators match have the same bytes. *)
Context (versions : ObjectId -> Version -> Prop).
Context (identified : forall o w1 w2, versions o w1 -> versions o w2 ->
  matches (vr_validators w1) (vr_validators w2) = true -> vr_content w1 = vr_content w2).
Implicit Types st : Orch S T.

Definition headers_small (r : UpstreamResponse) : Prop :=
  forall name v, response_header r name = Some v -> len v < u32_max.

(** The answer to a request for slice [index] is that of some version: its
    validators, its length, and for a 206 the bytes asked for. *)
Definition honest (o : ObjectId) (index : Z) (r : UpstreamResponse) : Prop :=
  headers_small r /\
  exists w, versions o w /\ response_validators r = vr_validators w /\
    (if up_status r =? PARTIAL_CONTENT
     then up_body r = slice_payload index slice_size (vr_content w) /\
          (forall t, content_range_total r = Some t -> t = len (vr_content w))
     else up_body r = [] /\ (forall t, content_length r = Some t -> t = len (vr_content w))).

Definition describes (meta : ObjectMeta) (w : Version) : Prop :=
  om_total_len meta = len (vr_content w) /\ meta_validators meta = vr_validators w.

(** The traces covered: honest origins, one probe per object at a time, no
    purge, generations that do not wrap, and indices inside the object. *)
Definition allowed (sys : Sys S T) (ev : Event) : Prop :=
  match ev with
  | EvProbeStart key o index r =>
      honest o index r /\ meta_str_ok (ck_key key) /\
      Forall (fun p => pd_object p <> o) (sy_pending sys)
  | EvSlice o meta index fetched =>
      (forall r, fetched = Ok r -> honest o index r) /\
      in_u 32 index /\ index * slice_size < om_total_len meta /\
      (forall m x, index_rel (or_index (sy_orch sys)) m -> m !! o = Some x ->
         om_generation x < u32_max)
  | EvFill o meta index payload =>
      forall w, versions o w -> describes meta w ->
        payload = slice_payload index slice_size (vr_content w)
  | EvPurge _ => False
  | EvPlan | EvProbeEnd | EvEvict => True
  end.

Inductive allowed_steps : Sys S T -> Sys S T -> Prop :=
  | allowed_refl sys : allowed_steps sys sys
  | allowed_more sys sys' ev sys'' :
      allowed_steps sys sys' -> step slice_size sys' ev sys'' -> allowed sys' ev ->
      allowed_steps sys sys''.

(** *** The invariant: one version per generation *)

Abbreviation Ghost := (gmap (ObjectId * Z) Version).

Definition tagged (vers : Ghost) (o : ObjectId) (meta : ObjectMeta) : Prop :=
  exists w, vers !! (o, om_generation meta) = Some w /\ describes meta w /\
    slice_header_ok (header_for meta slice_size).

Definition sliced (vers : Ghost) (k : SliceKey) (v : SliceValue) : Prop :=
  exists w, vers !! (sk_object k, sk_generation k) = Some w /\
    sv_payload v = slice_payload (sk_index k) slice_size (vr_content w) /\
    slice_header_ok (sv_header v).

Definition index_entry_ok (vers : Ghost) (o : ObjectId) (e : option ObjectMeta) : Prop :=
  match e with
  | None => forall g, vers !! (o, g) = None
  | Some x =>
      (forall g, om_generation x < g -> vers !! (o, g) = None) /\
      if om_stale x then vers !! (o, om_generation x) = None else tagged vers o x
  end.

Definition unprobed (e : option ObjectMeta) : Prop :=
  match e with None => True | Some x => om_stale x = true end.

Record inv_with (m : IndexSpec) (vers : Ghost) (sys : Sys S T) : Prop := mkInv {
  inv_index : index_rel (or_index (sy_orch sys)) m;
  inv_versions : forall o g w, vers !! (o, g) = Some w -> versions o w;
  inv_store : forall k v, held (or_store (sy_orch sys)) !! k = Some v -> sliced vers k v;
  inv_entries : forall o, index_entry_ok vers o (m !! o);
  inv_plans : forall o meta, (o, meta) ∈ sy_plans sys -> tagged vers o meta;
  inv_cells : forall c o meta, or_heap (sy_orch sys) !! c = Some (o, Some meta) -> tagged vers o meta;
  inv_pending_nodup : NoDup (pd_object <$> sy_pending sys);
  inv_pending : forall p, p ∈ sy_pending sys ->
    honest (pd_object p) (pd_index p) (pd_response p) /\ meta_str_ok (ck_key (pd_key p)) /\
    unprobed (m !! pd_object p);
  inv_served : forall k v, (k, v) ∈ sy_served sys -> sliced vers k v }.

Definition inv (sys : Sys S T) : Prop := exists m vers, inv_with m vers sys.

(** The invariant, with every generation known in [vers] still the same version. *)
Definition inv_after (vers : Ghost) (sys : Sys S T) : Prop :=
  exists m vers', vers ⊆ vers' /\ inv_with m vers' sys.

Lemma store_get_held (s : S) k v : store_get s k = Ok (Some v) -> held s !! k = Some v.
Proof using Type.
  unfold store_get. destruct (foyer_get s k) as [x|] eqn:E; [|done]. cbn [map_err]. intros [= ->].
  by apply held_get.
Qed.

Context (Hss : 0 < slice_size < 2 ^ 32).

Lemma header_for_ok meta : object_meta_ok meta -> slice_header_ok (header_for meta slice_size).
Proof using Hss.
  intros (Ht & Hg & _ & _ & _ & He & Hl & Hc). split; [|done]. cbn. unfold in_u. lia.
Qed.

Lemma tagged_mono vers vers' o meta : vers ⊆ vers' -> tagged vers o meta -> tagged vers' o meta.
Proof. intros Hs (w & Hw & Hd). exists w. split; [by eapply lookup_weaken|done]. Qed.

Lemma sliced_mono vers vers' k v : vers ⊆ vers' -> sliced vers k v -> sliced vers' k v.
Proof. intros Hs (w & Hw & Hd). exists w. split; [by eapply lookup_weaken|done]. Qed.

(** A store that only lost entries. *)
Lemma inv_shrink m vers st s pend plans served :
  inv_with m vers (mkSys st pend plans served) -> held s ⊆ held (or_store st) ->
  inv_with m vers (mkSys (set_store st s) pend plans served).
Proof.
  intros [] Hs. split; try done. intros k v Hk. apply inv_store0. cbn in *. by eapply lookup_weaken.
Qed.

(** A store that gained one correct slice. *)
Lemma inv_grow m vers st s k v pend plans served :
  inv_with m vers (mkSys st pend plans served) -> held s ⊆ <[k := v]> (held (or_store st)) ->
  sliced vers k v -> inv_with m vers (mkSys (set_store st s) pend plans served).
Proof.
  intros [] Hs Hv. split; try done. intros k' v' Hk. cbn in Hk.
  apply (lookup_weaken _ _ _ _ Hk) in Hs. destruct (decide (k = k')) as [<-|Hne].
  - rewrite lookup_insert_eq in Hs. by injection Hs as <-.
  - rewrite lookup_insert_ne in Hs by done. by apply inv_store0.
Qed.

Lemma inv_serve m vers st k v pend plans served :
  inv_with m vers (mkSys st pend plans served) -> sliced vers k v ->
  inv_with m vers (mkSys st pend plans ((k, v) :: served)).
Proof.
  intros [] Hv. split; try done. intros k' v' [[= -> ->]|Hin]%elem_of_cons; [done|].
  by apply inv_served0.
Qed.

Lemma inv_plan m vers st pend plans served o meta :
  inv_with m vers (mkSys st pend plans served) -> tagged vers o meta ->
  inv_with m vers (mkSys st pend ((o, meta) :: plans) served).
Proof.
  intros [] Hv. split; try done. intros o' meta' [[= -> ->]|Hin]%elem_of_cons; [done|].
  by apply inv_plans0.
Qed.

(** The index of [o] moves to an entry the ghost state agrees with. *)
Lemma inv_reindex m vers st t m' o x pend plans served :
  inv_with m vers (mkSys st pend plans served) ->
  index_rel t m' -> m' = <[o := x]> m -> index_entry_ok vers o (Some x) ->
  (o ∈ pd_object <$> pend -> om_stale x = true) ->
  inv_with m' vers (mkSys (set_index st t) pend plans served).
Proof.
  intros [] Ht -> Hx Hp. split; try done.
  - intros o'. destruct (decide (o = o')) as [<-|]; [by rewrite lookup_insert_eq|].
    by rewrite lookup_insert_ne.
  - intros p Hin. destruct (inv_pending0 p Hin) as (? & ? & ?). split; [done|]. split; [done|].
    destruct (decide (o = pd_object p)) as [->|]; [|by rewrite lookup_insert_ne].
    rewrite lookup_insert_eq. apply Hp. apply list_elem_of_fmap. eauto.
Qed.

(** *** Each step keeps the invariant *)

Lemma plan_index_inv m vers now st st' pend plans served o meta :
  inv_with m vers (mkSys st pend plans served) -> in_u 64 now ->
  metadata_from_index now st o = Some (meta, st') ->
  inv_after vers (mkSys st' pend ((o, meta) :: plans) served).
Proof using Type.
  intros Hi Hnow Hm. pose proof Hi as []. cbn in *. unfold metadata_from_index in Hm.
  rewrite (rel_get _ m) in Hm by done. destruct (m !! o) as [x|] eqn:Ex; [|done].
  destruct (om_stale x) eqn:Es; [done|].
  destruct (rel_touch _ m now o inv_index0 Hnow) as (b & t & Ht & _ & Hrel). rewrite Ht in Hm.
  injection Hm as -> <-. pose proof (inv_entries0 o) as He. rewrite Ex in He.
  destruct He as [Hgt Htag]. rewrite Es in Htag.
  exists (spec_step m (CTouch now o)).2, vers. split; [done|]. apply inv_plan; [|done].
  cbn [spec_step] in *. rewrite Ex in *.
  destruct (LAST_SEEN_GRANULARITY <=? _); cbn [snd] in *.
  - eapply inv_reindex; [done|done|done| |].
    + split; [done|]. cbn [set_last_seen om_stale]. by rewrite Es.
    + intros (p & -> & Hin)%list_elem_of_fmap. destruct (inv_pending0 p Hin) as (_ & _ & Hu).
      rewrite Ex in Hu. exact Hu.
  - by destruct Hi; split.
Qed.

Lemma cell_heap st o c st' k e :
  cell st o = (c, st') -> or_heap st' !! k = Some e ->
  or_store st' = or_store st /\ or_index st' = or_index st /\
  (or_heap st !! k = Some e \/ exists o', e = (o', None)).
Proof using Type.
  unfold cell. destruct (or_cells st !! o).
  - intros [= <- <-]. auto.
  - intros [= <- <-]. cbn. rewrite lookup_app_Some. intros [?|[_ Hk]]; [auto|].
    split; [done|]. split; [done|]. right. apply list_lookup_singleton_Some in Hk as [_ <-]. eauto.
Qed.

Lemma cell_same st o c st' :
  cell st o = (c, st') -> or_store st' = or_store st /\ or_index st' = or_index st.
Proof using Type. unfold cell. destruct (or_cells st !! o); by intros [= <- <-]. Qed.

Lemma probe_start_inv m vers now st c st' pend plans served key o index r :
  inv_with m vers (mkSys st pend plans served) ->
  metadata_from_index now st o = None -> cell st o = (c, st') ->
  honest o index r -> meta_str_ok (ck_key key) -> Forall (fun p => pd_object p <> o) pend ->
  inv_after vers (mkSys st' (mkPending c o key index r :: pend) plans served).
Proof using Type.
  intros [] Hm Hc Hh Hk Hex. cbn in *. destruct (cell_same _ _ _ _ Hc) as [Hs Ht].
  exists m, vers. split; [done|]. split; cbn; try done; try (by rewrite ?Hs, ?Ht).
  - intros k o' meta Hk'. destruct (cell_heap _ _ _ _ _ _ Hc Hk') as (_ & _ & [Hold|[? [=]]]).
    by eapply inv_cells0.
  - constructor; [|done]. rewrite Forall_forall in Hex.
    intros (p & Heq & Hin)%list_elem_of_fmap. by apply (Hex p Hin).
  - intros p [->|Hin]%elem_of_cons; [|by apply inv_pending0]. cbn.
    split; [done|]. split; [done|]. unfold metadata_from_index in Hm.
    rewrite (rel_get _ m) in Hm by done. destruct (m !! o) as [x|]; [|done]. cbn.
    by destruct (om_stale x).
Qed.

Lemma value_char_utf8 v : forallb value_char v = true -> utf8_valid v = true.
Proof using Type.
  induction v as [|b v IH]; [done|]. cbn [forallb]. intros [Hb Hv]%andb_true_iff.
  cbn [utf8_valid]. assert (byte_in 0 127 b = true) as ->; [|by apply IH].
  unfold value_char, byte_in in *. pose proof (Z_of_byte_range b).
  apply orb_true_iff in Hb as [Hb|Hb]; lia.
Qed.

Lemma response_header_ok r name : headers_small r -> opt_str_ok (response_header r name).
Proof using Type.
  intros Hsm. destruct (response_header r name) as [v|] eqn:E; [|done].
  split; [by eapply Hsm|]. unfold response_header, header_str in E.
  destruct (header_get (up_headers r) name) as [b|]; [|done]. cbn in E. unfold to_str in E.
  destruct (forallb value_char b) eqn:Ev; [|done]. injection E as <-. by apply value_char_utf8.
Qed.

(** What a committed probe records, whatever the branch. *)
Lemma probe_commit_Ok m now st key o url index r meta st' :
  index_rel (or_index st) m -> in_u 64 now -> meta_str_ok (ck_key key) -> headers_small r ->
  probe_commit slice_size now st key o url index r = Ok (meta, st') ->
  let g := match m !! o with Some x => om_generation x | None => 0 end in
  let partial := up_status r =? PARTIAL_CONTENT in
  om_generation meta = g /\ object_meta_ok meta /\ om_stale meta = false /\ om_no_ranges meta = negb partial /\
  meta_validators meta = response_validators r /\
  (if partial then content_range_total r else content_length r) = Some (om_total_len meta) /\
  or_heap st' = or_heap st /\
  index_rel (or_index st') (<[o := meta]> m) /\
  or_store st' = (if partial then foyer_insert (or_store st) (mkSliceKey o g index)
                    (mkSliceValue (header_for meta slice_size) (up_body r)) else or_store st).
Proof using Type.
  intros Hrel Hnow Hk Hsm Hc g partial. unfold probe_commit in Hc. fold partial in Hc.
  rewrite (rel_get _ m) in Hc by done.
  assert (match @Ok IndexError _ (m !! o) with Ok (Some previous) => om_generation previous | _ => 0 end = g) as Eg
    by (unfold g; by destruct (m !! o)).
  rewrite Eg in Hc. clear Eg.
  assert (exists total, (if partial then content_range_total r else content_length r) = Some total /\
    (let meta := mkObjectMeta (ck_key key) total g (response_header r (lit "etag"))
       (response_header r (lit "last-modified")) (response_header r (lit "content-type"))
       (negb partial) now now false in
     let st1 := if negb partial then st else set_store st (foyer_insert (or_store st)
       (mkSliceKey o g index) (mkSliceValue (header_for meta slice_size) (up_body r))) in
     (meta, match index_put (or_index st1) o meta with Ok t => set_index st1 t | Err _ => st1 end))
    = (meta, st')) as (total & Htot & Heq).
  { destruct partial.
    - destruct (content_range_total r) as [t|]; [|done]. exists t. split; [done|]. by injection Hc as <- <-.
    - destruct (content_length r) as [t|]; [|done]. exists t. split; [done|]. by injection Hc as <- <-. }
  clear Hc. set (mt := mkObjectMeta _ total _ _ _ _ _ _ _ _) in Heq. cbv zeta in Heq.
  assert (in_u 64 total) as Ht64.
  { destruct partial; [unfold content_range_total in Htot|unfold content_length in Htot];
      destruct (response_header r _) as [v|]; cbn in Htot; try done;
      [destruct (rsplit_once x2f v) as [[? ?]|]; cbn in Htot; [|done]|]; by eapply parse_u64_range. }
  assert (in_u 32 g) as Hg32.
  { unfold g. destruct (m !! o) as [x|] eqn:Ex; [|done]. destruct Hrel as (_ & _ & Hok).
    apply Hok in Ex. apply Ex. }
  assert (object_meta_ok mt) as Hmt.
  { do 4 (split; [done|]). split; [done|]. split; [by apply response_header_ok|].
    split; by apply response_header_ok. }
  destruct (rel_put _ m o mt Hrel Hmt) as (t & Hput & Hrel').
  destruct partial; cbn [negb set_store or_index] in Heq; rewrite Hput in Heq;
    injection Heq as <- <-; repeat (split; [done|]); done.
Qed.

Lemma probe_ok_inv m vers now st st' pre p post plans served url meta :
  inv_with m vers (mkSys st (pre ++ p :: post) plans served) -> in_u 64 now ->
  probe_commit slice_size now st (pd_key p) (pd_object p) url (pd_index p) (pd_response p)
    = Ok (meta, st') ->
  inv_after vers (mkSys (init_cell st' (pd_cell p) (pd_object p) meta) (pre ++ post)
         ((pd_object p, meta) :: plans) served).
Proof using Hss.
  intros [] Hnow Hc. cbn in *. set (o := pd_object p) in *.
  destruct (inv_pending0 p) as ((Hsm & w & Hw & Hval & Hbody) & Hk & Hu).
  { apply elem_of_app. right. by left. }
  fold o in Hw, Hu. apply (probe_commit_Ok m) in Hc; [|done..].
  set (g := match m !! o with Some x => om_generation x | None => 0 end) in *.
  destruct Hc as (Hg & Hmok & Hst & _ & Hmv & Htot & Hheap & Hrel & Hstore). fold o in Hrel, Hstore.
  assert (vers !! (o, g) = None /\ forall g', g < g' -> vers !! (o, g') = None) as [Hnone Hgt].
  { specialize (inv_entries0 o). unfold g. destruct (m !! o) as [x|].
    - cbn in Hu, inv_entries0. rewrite Hu in inv_entries0. tauto.
    - split; [apply inv_entries0|intros; apply inv_entries0]. }
  set (vers' := <[(o, g) := w]> vers).
  assert (vers ⊆ vers') as Hsub by by apply insert_subseteq.
  assert (describes meta w) as Hd.
  { split; [|congruence].
    destruct (up_status (pd_response p) =? PARTIAL_CONTENT); by apply Hbody. }
  assert (tagged vers' o meta) as Htag.
  { exists w. split; [rewrite Hg; apply lookup_insert_eq|]. split; [done|]. by apply header_for_ok. }
  rewrite fmap_app, fmap_cons in inv_pending_nodup0. fold o in inv_pending_nodup0.
  apply NoDup_app in inv_pending_nodup0 as (Hn1 & Hn2 & [Hn3 Hn4]%NoDup_cons).
  exists (<[o := meta]> m), vers'. split; [done|]. split; cbn.
  - done.
  - intros o' g' w' Hl. unfold vers' in Hl. destruct (decide ((o, g) = (o', g'))) as [[= <- <-]|].
    + rewrite lookup_insert_eq in Hl. by injection Hl as <-.
    + rewrite lookup_insert_ne in Hl by done. by eapply inv_versions0.
  - intros k v Hh. rewrite Hstore in Hh.
    destruct (up_status (pd_response p) =? PARTIAL_CONTENT).
    + pose proof (lookup_weaken _ _ _ _ Hh (held_insert _ _ _)) as Hh'.
      destruct (decide (mkSliceKey o g (pd_index p) = k)) as [<-|].
      * rewrite lookup_insert_eq in Hh'. injection Hh' as <-. exists w.
        split; [apply lookup_insert_eq|]. split; [apply Hbody|]. by apply header_for_ok.
      * rewrite lookup_insert_ne in Hh' by done. eapply sliced_mono; [done|]. by apply inv_store0.
    + eapply sliced_mono; [done|]. by apply inv_store0.
  - intros o'. destruct (decide (o = o')) as [<-|Hne].
    + rewrite lookup_insert_eq. split; [|by rewrite Hst]. intros g' Hlt. unfold vers'.
      rewrite lookup_insert_ne by (intros [=]; lia). apply Hgt. lia.
    + rewrite lookup_insert_ne by done. specialize (inv_entries0 o').
      assert (forall g', vers' !! (o', g') = vers !! (o', g')) as Hsame.
      { intros g'. unfold vers'. rewrite lookup_insert_ne; [done|]. congruence. }
      revert inv_entries0. unfold index_entry_ok.
      destruct (m !! o') as [x|]; [|intros Hv g'; by rewrite Hsame].
      intros [Hv1 Hv2]. split; [intros; rewrite Hsame; by apply Hv1|].
      destruct (om_stale x); [by rewrite Hsame|]. by eapply tagged_mono.
  - intros o' meta' [[= -> ->]|Hin]%elem_of_cons; [done|].
    eapply tagged_mono; [done|]. by apply inv_plans0.
  - intros c o' meta' Hl. rewrite Hheap in Hl.
    apply list_lookup_insert_Some in Hl as [(_ & [= <- <-] & _)|[_ Hl]]; [done|].
    eapply tagged_mono; [done|]. by eapply inv_cells0.
  - rewrite fmap_app. apply NoDup_app. split; [done|]. split; [|done].
    intros x Hx Hx'. apply (Hn2 x Hx). by right.
  - intros p' Hin. assert (p' ∈ pre ++ p :: post) as Hin'.
    { rewrite elem_of_app, elem_of_cons. rewrite elem_of_app in Hin. tauto. }
    destruct (inv_pending0 p' Hin') as (? & ? & ?). split; [done|]. split; [done|].
    rewrite lookup_insert_ne; [done|]. intros Heq. rewrite elem_of_app in Hin.
    destruct Hin as [Hin|Hin].
    + apply (Hn2 o); [rewrite Heq; by apply list_elem_of_fmap_2|by left].
    + apply Hn3. rewrite Heq. by apply list_elem_of_fmap_2.
  - intros k v Hin. eapply sliced_mono; [done|]. by apply inv_served0.
Qed.

Lemma inv_forget_cell m vers st cells pend plans served :
  inv_with m vers (mkSys st pend plans served) ->
  inv_with m vers (mkSys (mkOrch (or_store st) (or_index st) cells (or_heap st)) pend plans served).
Proof using Type. by intros []; split. Qed.

Lemma bump_inv m vers st o pend plans served :
  inv_with m vers (mkSys st pend plans served) ->
  (forall x, m !! o = Some x -> om_generation x < u32_max) ->
  exists m', inv_with m' vers (mkSys (bump_generation st o).2 pend plans served).
Proof using Type.
  intros Hi Hb. pose proof Hi as []. cbn in *. unfold bump_generation.
  destruct (rel_invalidate _ m o inv_index0) as (g & t & -> & _ & Hrel). cbn [snd].
  exists (spec_step m (CInvalidate o)).2. cbn [spec_step] in *.
  specialize (inv_entries0 o). destruct (m !! o) as [x|] eqn:Ex; cbn [snd] in *.
  - pose proof (Hb x eq_refl) as Hlt.
    assert (in_u 32 (om_generation x)) as Hx.
    { destruct inv_index0 as (_ & _ & Hok). apply Hok in Ex. apply Ex. }
    assert (om_generation (bump x) = om_generation x + 1) as Hg.
    { cbn. apply wrap_small. width. }
    apply (inv_forget_cell _ _ (set_index st t)).
    eapply inv_reindex; [done|done|done| |done]. destruct inv_entries0 as [Hgt _].
    split; [intros g' Hg'; apply Hgt; lia|]. cbn [om_stale bump].
    rewrite Hg. apply Hgt. lia.
  - apply (inv_forget_cell _ _ (set_index st t)). destruct Hi; by split.
Qed.

(** A fetched slice that passed the checks is a slice of the plan's version. *)
Lemma check_slice_sliced vers o meta index r v :
  (forall g w, vers !! (o, g) = Some w -> versions o w) ->
  tagged vers o meta -> honest o index r -> in_u 32 index ->
  index * slice_size < om_total_len meta ->
  check_slice slice_size meta (om_total_len meta) index (Ok r) = Ok v ->
  sliced vers (mkSliceKey o (om_generation meta) index) v.
Proof using identified Hss.
  intros Hvers (w & Hw & (Htot & Hval) & Hhdr) (_ & w' & Hw' & Hval' & Hbody) Hidx Hlt. unfold in_u in Hidx.
  unfold check_slice. destruct (matches _ _) eqn:Em; cbn [negb]; [|done].
  destruct (Z.eqb_spec (len (up_body r))
    (byte_range_len (slice_extent index slice_size (om_total_len meta)))) as [El|]; cbn [negb]; [|done].
  intros <-%Ok_inj. exists w. split; [done|]. cbn [sv_payload sk_index].
  rewrite Hval, Hval' in Em.
  assert (vr_content w = vr_content w') as -> by (eapply identified; eauto).
  split; [|done]. destruct (up_status r =? PARTIAL_CONTENT); [apply Hbody|].
  destruct Hbody as [Hb _]. rewrite Hb in El. exfalso. revert El.
  rewrite slice_extent_exact by lia. unfold byte_range_len. cbn [br_end br_start].
  change (len (@nil byte)) with 0.
  assert (forall z, 0 <= z < 2 ^ 32 -> wrap64 (wrap64 z + 1) = z + 1) as Hwr.
  { intros z Hz. rewrite (wrap_small 64 z) by width. apply wrap_small. width. }
  rewrite Hwr by lia. lia.
Qed.

(** The fallback after a failed fetch serves only what the store holds. *)
Lemma slice_fetch_inv m vers stale st st' pend plans served o meta url index fetched r :
  inv_with m vers (mkSys st pend plans served) -> (o, meta) ∈ plans ->
  allowed (mkSys st pend plans served) (EvSlice o meta index fetched) ->
  slice_fetch slice_size stale st o meta (om_total_len meta) url index fetched = (r, st') ->
  inv_after vers (mkSys st' pend plans
        (match r with Ok v => [(mkSliceKey o (om_generation meta) index, v)] | Err _ => [] end ++ served)).
Proof using identified Hss.
  intros Hi Hin (Hh & Hidx & Hlt & Hgen). unfold slice_fetch.
  set (key := mkSliceKey o (om_generation meta) index).
  set (checked := check_slice _ _ _ _ _).
  pose proof (held_get_or_fetch (or_store st) key checked) as Hlaw.
  destruct (foyer_get_or_fetch (or_store st) key checked) as [outcome s].
  (* the failure branches keep the invariant of the state they start from *)
  assert (forall m' st0 e, inv_with m' vers (mkSys st0 pend plans served) ->
    (if stale && is_transient_orchestrator_error e then
       match store_get (or_store st0) key with Ok (Some value) => (Ok value, st0) | _ => (Err e, st0) end
     else (Err e, st0)) = (r, st') ->
    inv_after vers (mkSys st' pend plans (match r with Ok v => [(key, v)] | Err _ => [] end ++ served))) as Hfail.
  { intros m' st0 e Hi0. destruct (stale && _).
    - unfold store_get. destruct (foyer_get (or_store st0) key) as [[v|]|] eqn:Eg; cbn [map_err];
        intros [= <- <-]; [|by exists m', vers..].
      exists m', vers. split; [done|]. apply inv_serve; [done|]. apply held_get in Eg. by apply (inv_store _ _ _ Hi0).
    - intros [= <- <-]. by exists m', vers. }
  pose proof (inv_plans _ _ _ Hi _ _ Hin) as Htag.
  destruct outcome as [v| |text].
  - destruct Hlaw as [Hv Hs]. intros [= <- <-]. exists m, vers. split; [done|].
    apply inv_serve; [by apply inv_shrink|]. by apply (inv_store _ _ _ Hi).
  - destruct checked as [v|e] eqn:Ec.
    + intros [= <- <-]. exists m, vers. split; [done|]. destruct fetched as [resp|]; [|done].
      assert (sliced vers key v) as Hv.
      { eapply check_slice_sliced; [|done|by apply Hh|done|done|done].
        intros g w. apply (inv_versions _ _ _ Hi). }
      apply inv_serve; [|done]. by eapply inv_grow.
    + assert (inv_with m vers (mkSys (set_store st s) pend plans served)) as Hi' by by apply inv_shrink.
      destruct e as [ue|found|i ex ac]; [by apply Hfail with (m' := m)| |by apply Hfail with (m' := m)].
      destruct (bump_inv m vers _ o _ _ _ Hi') as (m' & Hbump).
      { intros x Hx. eapply Hgen; [|done]. apply (inv_index _ _ _ Hi). }
      destruct (bump_generation (set_store st s) o) as [g st2]. cbn [snd] in Hbump.
      by apply Hfail with (m' := m').
  - apply Hfail with (m' := m). by apply inv_shrink.
Qed.

Lemma step_inv m vers sys ev sys' :
  step slice_size sys ev sys' -> allowed sys ev -> inv_with m vers sys -> inv_after vers sys'.
Proof using identified Hss.
  intros Hstep Ha Hi.
  destruct Hstep.
  - by eapply plan_index_inv.
  - destruct Ha as (? & ? & ?). by eapply probe_start_inv.
  - by eapply probe_ok_inv.
  - exists m, vers. split; [done|]. destruct Hi. split; try done.
    + cbn in inv_pending_nodup0. rewrite fmap_app, fmap_cons in inv_pending_nodup0.
      apply NoDup_app in inv_pending_nodup0 as (Hn1 & Hn2 & [Hn3 Hn4]%NoDup_cons).
      cbn. rewrite fmap_app. apply NoDup_app. split; [done|]. split; [|done].
      intros x Hx Hx'. apply (Hn2 x Hx). by right.
    + intros p' Hin. apply inv_pending0. cbn in *. rewrite elem_of_app, elem_of_cons.
      rewrite elem_of_app in Hin. tauto.
  - exists m, vers. split; [done|]. apply inv_plan; [done|]. by eapply (inv_cells _ _ _ Hi).
  - by eapply slice_fetch_inv.
  - exists m, vers. split; [done|]. eapply inv_grow; [done|apply held_insert|].
    destruct (inv_plans _ _ _ Hi _ _ ltac:(eassumption)) as (w & Hw & Hd & Hhdr).
    exists w. split; [done|]. cbn [sv_payload sk_index]. split; [|done].
    apply Ha; [|done]. by apply (inv_versions _ _ _ Hi) in Hw.
  - exists m, vers. split; [done|]. apply inv_serve; [done|]. apply (inv_store _ _ _ Hi). by apply store_get_held.
  - exists m, vers. split; [done|]. by apply inv_shrink.
  - done.
Qed.

(** *** Start-up and responses *)

Definition empty_system (sys : Sys S T) : Prop :=
  index_rel (or_index (sy_orch sys)) ∅ /\ held (or_store (sy_orch sys)) = ∅ /\
  or_cells (sy_orch sys) = ∅ /\ or_heap (sy_orch sys) = [] /\
  sy_pending sys = [] /\ sy_plans sys = [] /\ sy_served sys = [].

Lemma empty_inv sys : empty_system sys -> inv sys.
Proof using Type.
  intros (Hrel & Hheld & _ & Hheap & Hp & Hpl & Hs). exists ∅, ∅.
  split; rewrite ?Hheld, ?Hheap, ?Hp, ?Hpl, ?Hs.
  - done.
  - intros o g w Hg. by rewrite lookup_empty in Hg.
  - intros k v Hk. by rewrite lookup_empty in Hk.
  - intros o. rewrite lookup_empty. intros g. apply lookup_empty.
  - intros o meta Hin. by apply not_elem_of_nil in Hin.
  - intros c o meta Hl. by rewrite lookup_nil in Hl.
  - constructor.
  - intros p Hin. by apply not_elem_of_nil in Hin.
  - intros k v Hin. by apply not_elem_of_nil in Hin.
Qed.

Lemma reachable_inv sys sys' : empty_system sys -> allowed_steps sys sys' -> inv sys'.
Proof using identified Hss.
  intros He Hr. induction Hr as [|sys sys1 ev sys2 _ IH Hstep Ha]; [by apply empty_inv|].
  destruct (IH He) as (m & vers & Hi). destruct (step_inv _ _ _ _ _ Hstep Ha Hi) as (m' & vers' & _ & Hi').
  by exists m', vers'.
Qed.

(** The body of a response: the window of each planned slice, in order. *)
Definition assemble (wanted : ByteRange) (value : Z -> SliceValue) : option bytes :=
  mapM (fun i => cut_window (sv_payload (value i)) (Range.payload_window i slice_size wanted))
    (plan_indices (Range.plan wanted slice_size)) ≫= (fun pieces => Some (concat pieces)).

Lemma inv_assemble sys o meta wanted value :
  inv sys -> (o, meta) ∈ sy_plans sys ->
  range_in wanted (om_total_len meta) -> om_total_len meta < 2 ^ 64 ->
  om_total_len meta <= max_addressable_len slice_size ->
  (forall i, i ∈ plan_indices (Range.plan wanted slice_size) ->
     (mkSliceKey o (om_generation meta) i, value i) ∈ sy_served sys) ->
  exists w, versions o w /\ describes meta w /\
    assemble wanted value = Some (slice (br_start wanted) (br_end wanted + 1) (vr_content w)).
Proof using Hss.
  intros (m & vers & Hi) Hin Hw H64 Hmax Hserved.
  destruct (inv_plans _ _ _ Hi _ _ Hin) as (w & Hv & Hd & _). exists w.
  split; [by eapply (inv_versions _ _ _ Hi)|]. split; [done|].
  destruct Hd as [Htot _]. rewrite Htot in *.
  rewrite <- (tiling (vr_content w) slice_size wanted) by done. unfold assemble. f_equal.
  apply Forall_mapM_ext, Forall_forall. intros i Hidx. destruct (inv_served _ _ _ Hi _ _ (Hserved i Hidx)) as (w' & Hw' & Hpay & _).
  cbn in Hw', Hpay. rewrite Hv in Hw'. injection Hw' as <-. by rewrite Hpay.
Qed.

(** A response never mixes versions of an object.  Start from an empty
    cache and let requests interleave in any way: plans made from the index
    or from a probe, slices found in the store or fetched, origins that
    change content between any two fetches, generation bumps, evictions at
    any time.  Take any plan and, for each slice of the range it wants, any
    value served to it, however far apart in time.  The assembled body is
    defined and is exactly the wanted bytes of one single version of the
    object, the one the plan's metadata describes.  Covered are origins whose
    matching strong validators mean equal bytes and that send the bytes asked
    for, at most one probe in flight per object, no purge, and fewer than
    2^32 generations. *)
Theorem response_never_mixes_versions sys sys' o meta wanted value :
  empty_system sys -> allowed_steps sys sys' ->
  (o, meta) ∈ sy_plans sys' ->
  range_in wanted (om_total_len meta) -> om_total_len meta < 2 ^ 64 ->
  om_total_len meta <= max_addressable_len slice_size ->
  (forall i, i ∈ plan_indices (Range.plan wanted slice_size) ->
     (mkSliceKey o (om_generation meta) i, value i) ∈ sy_served sys') ->
  exists w, versions o w /\ describes meta w /\
    assemble wanted value = Some (slice (br_start wanted) (br_end wanted + 1) (vr_content w)).
Proof using identified Hss.
  intros He Hr Hin Hw H64 Hmax Hserved. eapply inv_assemble; eauto using reachable_inv.
Qed.
End NoMixing.

(** ** A store that keeps the promise *)

#[export] Instance gmap_foyer : Foyer (gmap SliceKey SliceValue) := {|
  foyer_insert s k v := <[k := v]> s;
  foyer_remove s k := delete k s;
  foyer_contains s k := bool_decide (is_Some (s !! k));
  foyer_get s k := Ok (s !! k);
  foyer_get_or_fetch s k r :=
    match s !! k with
    | Some v => (GotStored v, s)
    | None => (GotFetched, match r with Ok v => <[k := v]> s | Err _ => s end)
    end;
  foyer_error_text _ := lit "fetch failed" |}.

#[export] Instance gmap_foyer_laws : FoyerLaws (gmap SliceKey SliceValue).
Proof.
  refine {| held s := s |}; cbn.
  - done.
  - done.
  - by intros s k v [= ->].
  - intros s k r. destruct (s !! k) as [v|]; [done|]. by destruct r.
Defined.

(** ** Concrete traces *)

Abbreviation ToySys := (Sys (gmap SliceKey SliceValue) (gmap ObjectId bytes)).

Definition toy_start : ToySys := mkSys (mkOrch ∅ ∅ ∅ []) [] [] [].
Definition toy_object : ObjectId := [x01].
Definition toy_key : CacheKey := mkCacheKey (lit "/x") (lit "steam").

(** Version [tag] has [content] and that entity tag; [toy_response] is the
    answer to a request for one of its slices of two bytes. *)
Definition toy_version (tag content : str) : Version :=
  mkVersion content (mkValidators (Some tag) None).
Definition toy_response (tag content : str) (index : Z) : UpstreamResponse :=
  mkUpstreamResponse 206
    [(lit "content-range", lit "bytes */" ++ to_dec (len content)); (lit "etag", tag)]
    (slice_payload index 2 content).

Definition v1 : str * str := (lit "1", lit "aaaa").
Definition v2 : str * str := (lit "2", lit "bbbb").
Definition v3 : str * str := (lit "3", lit "cccc").

Definition toy_versions (o : ObjectId) (w : Version) : Prop :=
  exists v, v ∈ [v1; v2; v3] /\ w = toy_version v.1 v.2.

Ltac toy_cases H :=
  rewrite !elem_of_cons, elem_of_nil in H; destruct H as [-> |[-> |[-> |[]]]].

Lemma toy_identified o w1 w2 :
  toy_versions o w1 -> toy_versions o w2 ->
  matches (vr_validators w1) (vr_validators w2) = true -> vr_content w1 = vr_content w2.
Proof.
  intros (x & Hx & ->) (y & Hy & ->).
  toy_cases Hx; toy_cases Hy; first [reflexivity|vm_compute; discriminate].
Qed.

Lemma header_str_in h name v : header_str h name = Some v -> exists n, (n, v) ∈ h.
Proof.
  unfold header_str, header_get. induction h as [|[n b] h IH]; cbn [find]; [done|].
  destruct (bool_decide _).
  - cbn. unfold to_str. destruct (forallb value_char b); [|done]. intros [= <-]. exists n. by left.
  - intros E. destruct (IH E) as (x & ?). exists x. by right.
Qed.

Lemma toy_honest v index :
  v ∈ [v1; v2; v3] -> honest 2 toy_versions toy_object index (toy_response v.1 v.2 index).
Proof.
  intros Hv. split.
  - intros name b (n & Hn)%header_str_in. cbn [up_headers toy_response] in Hn.
    rewrite !elem_of_cons, elem_of_nil in Hn.
    toy_cases Hv; destruct Hn as [[= _ ->]|[[= _ ->]|[]]]; vm_compute; reflexivity.
  - exists (toy_version v.1 v.2). split; [by exists v|].
    toy_cases Hv; (split; [reflexivity|]); (split; [reflexivity|]);
      intros t; vm_compute; congruence.
Qed.

(** Steps whose origin is honest; nothing else is asked of them. *)
Definition honest_event (ev : Event) : Prop :=
  match ev with
  | EvProbeStart _ o index r => honest 2 toy_versions o index r
  | EvSlice o _ index fetched => forall r, fetched = Ok r -> honest 2 toy_versions o index r
  | _ => True
  end.
(** Steps that moreover purge nothing, or probe an object once at a time. *)
Definition no_purge (sys : ToySys) (ev : Event) : Prop :=
  match ev with EvPurge _ => False | _ => True end.
Definition one_probe (sys : ToySys) (ev : Event) : Prop :=
  match ev with
  | EvProbeStart _ o _ _ => Forall (fun p => pd_object p <> o) (sy_pending sys)
  | _ => True
  end.
Definition honest_step (also : ToySys -> Event -> Prop) (a b : ToySys) : Prop :=
  exists ev, step 2 a ev b /\ honest_event ev /\ also a ev.

(** A response of [toy_object] in state [sys] that is the bytes of no version. *)
Definition mixed_response (sys : ToySys) (body : bytes) : Prop :=
  exists meta value,
    (toy_object, meta) ∈ sy_plans sys /\
    (forall i, i ∈ plan_indices (Range.plan (mkByteRange 0 3) 2) ->
       (mkSliceKey toy_object (om_generation meta) i, value i) ∈ sy_served sys) /\
    assemble 2 (mkByteRange 0 3) value = Some body /\
    forall w, toy_versions toy_object w -> body <> slice 0 4 (vr_content w).

(** *** Scripts: an executable trace *)

Inductive Action :=
  | AProbe (v : str * str) (index : Z)
  | ACommit (n : nat)
  | APlanIndex
  | APlanCell (c : nat)
  | ASlice (n : nat) (index : Z) (v : str * str)
  | APurge (slices : list Z).

Definition do_action (a : Action) (sys : ToySys) : option ToySys :=
  let '(mkSys st pend plans served) := sys in
  match a with
  | AProbe v index =>
      if bool_decide (v ∈ [v1; v2; v3]) then
        match metadata_from_index 0 st toy_object, cell st toy_object with
        | None, (c, st') =>
            if bool_decide (or_heap st' !! c = Some (toy_object, None)) &&
               forallb (fun p => negb (pd_cell p =? c)%nat) pend
            then Some (mkSys st' (mkPending c toy_object toy_key index
                                    (toy_response v.1 v.2 index) :: pend) plans served)
            else None
        | _, _ => None
        end
      else None
  | ACommit n =>
      p ← pend !! n;
      match probe_commit 2 0 st (pd_key p) (pd_object p) [] (pd_index p) (pd_response p) with
      | Ok (meta, st') =>
          Some (mkSys (init_cell st' (pd_cell p) (pd_object p) meta) (take n pend ++ drop (S n) pend)
                  ((pd_object p, meta) :: plans) served)
      | Err _ => None
      end
  | APlanIndex =>
      match metadata_from_index 0 st toy_object with
      | Some (meta, st') => Some (mkSys st' pend ((toy_object, meta) :: plans) served)
      | None => None
      end
  | APlanCell c =>
      match or_heap st !! c with
      | Some (o, Some meta) => Some (mkSys st pend ((o, meta) :: plans) served)
      | _ => None
      end
  | ASlice n index v =>
      if bool_decide (v ∈ [v1; v2; v3]) then
        '(o, meta) ← plans !! n;
        if bool_decide (o = toy_object) && negb (om_no_ranges meta) then
          let '(r, st') := slice_fetch 2 true st o meta (om_total_len meta) [] index
            (Ok (toy_response v.1 v.2 index)) in
          Some (mkSys st' pend plans
            (match r with Ok v => [(mkSliceKey o (om_generation meta) index, v)] | Err _ => [] end ++ served))
        else None
      else None
  | APurge slices => Some (mkSys (purge_object st toy_object slices) pend plans served)
  end.

Fixpoint run (ok : ToySys -> Action -> bool) (l : list Action) (sys : ToySys) : option ToySys :=
  match l with
  | [] => Some sys
  | a :: l' => if ok sys a then sys' ← do_action a sys; run ok l' sys' else None
  end.

Definition purges_nothing (sys : ToySys) (a : Action) : bool :=
  match a with APurge _ => false | _ => true end.
Definition probes_alone (sys : ToySys) (a : Action) : bool :=
  match a with AProbe _ _ => bool_decide (sy_pending sys = []) | _ => true end.

Definition event_of (sys : ToySys) (a : Action) : Event :=
  match a with
  | AProbe v index => EvProbeStart toy_key toy_object index (toy_response v.1 v.2 index)
  | ACommit _ => EvProbeEnd
  | APlanIndex | APlanCell _ => EvPlan
  | ASlice n index v =>
      match sy_plans sys !! n with
      | Some (o, meta) => EvSlice o meta index (Ok (toy_response v.1 v.2 index))
      | None => EvPlan
      end
  | APurge _ => EvPurge toy_object
  end.

Lemma do_action_sound a sys sys' :
  do_action a sys = Some sys' ->
  step 2 sys (event_of sys a) sys' /\ honest_event (event_of sys a) /\
    (purges_nothing sys a = true -> no_purge sys (event_of sys a)) /\
    (probes_alone sys a = true -> one_probe sys (event_of sys a)).
Proof.
  destruct sys as [st pend plans served]. destruct a; cbn [do_action].
  - case_bool_decide as Hv; [|done]. destruct (metadata_from_index 0 st toy_object) eqn:Em; [done|].
    destruct (cell st toy_object) as [c st'] eqn:Ec.
    case_bool_decide as Hh; cbn [andb]; [|done].
    destruct (forallb _ pend) eqn:Ef; [|done]. intros [= <-].
    cbn [event_of].
    split; [eapply step_probe_start; [done|done|done|]|].
    + apply Forall_forall. intros p Hp. rewrite forallb_forall in Ef.
      apply list_elem_of_In in Hp. specialize (Ef p Hp). by destruct (Nat.eqb_spec (pd_cell p) c).
    + split; [by apply toy_honest|]. split; [done|]. cbn. by case_bool_decide as Hp; [subst pend|].
  - destruct (pend !! n) as [p|] eqn:En; [|done]. cbn [mbind option_bind].
    destruct (probe_commit _ _ _ _ _ _ _ _) as [[meta st']|] eqn:Ep; [|done]. intros [= <-].
    split; [|done]. rewrite <- (take_drop_middle pend n p En) at 1.
    eapply step_probe_ok; [|exact Ep]. vm_compute. intuition discriminate.
  - destruct (metadata_from_index 0 st toy_object) as [[meta st']|] eqn:Em; [|done]. intros [= <-].
    split; [|done]. eapply step_plan_index; [|exact Em]. vm_compute. intuition discriminate.
  - destruct (or_heap st !! c) as [[o [meta|]]|] eqn:Eh; [|done..]. intros [= <-].
    split; [|done]. by eapply step_plan_cell.
  - case_bool_decide as Hv; [|done]. destruct (plans !! n) as [[o meta]|] eqn:En; [|done].
    cbn [mbind option_bind]. case_bool_decide as Ho; cbn [andb]; [|done]. subst o.
    destruct (om_no_ranges meta) eqn:Enr; [done|]. cbn [negb].
    destruct (slice_fetch _ _ _ _ _ _ _ _ _) as [r st'] eqn:Es. intros [= <-].
    cbn [event_of sy_plans]. rewrite En.
    split; [eapply step_slice; [by eapply list_elem_of_lookup_2|done|exact Es]|].
    split; [|done]. intros r' [= <-]. by apply toy_honest.
  - intros [= <-]. split; [apply step_purge|done].
Qed.

Lemma run_sound (ok : ToySys -> Action -> bool) (also : ToySys -> Event -> Prop) l sys sys' :
  (forall s a s', ok s a = true -> do_action a s = Some s' -> honest_step also s s') ->
  run ok l sys = Some sys' -> rtc (honest_step also) sys sys'.
Proof.
  intros Hok. revert sys. induction l as [|a l IH]; intros sys; cbn [run]; [by intros [= <-]|].
  destruct (ok sys a) eqn:Ea; [|done].
  destruct (do_action a sys) as [sys1|] eqn:E; [|done]. intros Hr.
  eapply rtc_l; [by eapply Hok|by apply IH].
Qed.

(** Two probes of one object in flight: a late slice of the old plan drops the
    cell of a probe that has not finished, the next request probes again, and
    the two answers, of different versions, are stored under one generation. *)
Definition racing_probes : list Action :=
  [ AProbe v1 0; ACommit 0;            (* version 1, generation 0 *)
    ASlice 0 1 v2;                     (* changed: generation 1, cell dropped *)
    AProbe v2 0;                       (* a new request probes version 2 *)
    ASlice 0 1 v2;                     (* the old plan again: generation 2, cell dropped *)
    AProbe v3 1;                       (* another request probes, version 3 by now *)
    ACommit 1; ACommit 0;              (* both commit under generation 2 *)
    APlanIndex; ASlice 0 0 v3; ASlice 0 1 v3 ].

(** Purging forgets the generation: slices filled under the forgotten metadata
    are found again by the next version. *)
Definition purge_then_change : list Action :=
  [ AProbe v1 0; ACommit 0;            (* version 1, generation 0 *)
    APurge [0; 1];
    APlanCell 0; ASlice 0 1 v1;        (* the cell still answers: slice 1 of version 1 *)
    ASlice 0 0 v2;                     (* changed: nothing recorded, cell dropped *)
    AProbe v2 0; ACommit 0;            (* version 2, generation 0 again *)
    APlanIndex; ASlice 0 0 v2; ASlice 0 1 v2 ].

Lemma mixed_from_run (ok : ToySys -> Action -> bool) also start l :
  (forall s a s', ok s a = true -> do_action a s = Some s' -> honest_step also s s') ->
  match run ok l start with
  | Some (mkSys _ _ ((o, meta) :: _) ((k1, p1) :: (k0, p0) :: _)) =>
      o = toy_object /\ k0 = mkSliceKey o (om_generation meta) 0 /\
      k1 = mkSliceKey o (om_generation meta) 1 /\
      exists body, assemble 2 (mkByteRange 0 3) (fun i => if i =? 0 then p0 else p1) = Some body /\
        Forall (fun v => body <> slice 0 4 v.2) [v1; v2; v3]
  | _ => False
  end ->
  exists sys body, rtc (honest_step also) start sys /\ mixed_response sys body.
Proof.
  intros Hok. destruct (run ok l start) as [[st pend [|[o meta] plans] [|[k1 p1] [|[k0 p0] served]]]|] eqn:E;
    [done..| |done]. intros (-> & -> & -> & body & Ha & Hb).
  eexists _, body. split; [by eapply run_sound|].
  exists meta, (fun i => if i =? 0 then p0 else p1). split; [by left|]. split; [|split; [done|]].
  - intros i Hi. change (plan_indices _) with [0; 1] in Hi.
    rewrite !elem_of_cons, elem_of_nil in Hi. destruct Hi as [-> |[-> |[]]]; [right; by left|by left].
  - intros w (v & Hv & ->). rewrite Forall_forall in Hb. by apply Hb.
Qed.

(** C16: without single flight of probes, versions mix.  There is a run in which
    every origin answer is honest and nothing is purged, yet a response
    consists of slices of two different versions and is the bytes of neither:
    [bump_generation] drops the cell of a probe still in flight, so two probes
    of one object commit under the same generation. *)
Theorem racing_probes_mix_versions :
  exists sys body, rtc (honest_step no_purge) toy_start sys /\ mixed_response sys body.
Proof.
  apply (mixed_from_run purges_nothing no_purge toy_start racing_probes).
  { intros s a s' Ho Ha. apply do_action_sound in Ha as (? & ? & Hp & _). eexists. eauto. }
  vm_compute. repeat split.
  eexists. split; [reflexivity|]. repeat constructor; discriminate.
Qed.

(** C17: a purge can make versions mix.  There is a run with honest origins and
    one probe at a time in which, after a purge, slices of the old version are
    stored and found again under the new version's generation: [invalidate] of
    an object the index has forgotten records nothing, and the next probe
    starts over at generation 0. *)
Theorem purge_mixes_versions :
  exists sys body, rtc (honest_step one_probe) toy_start sys /\ mixed_response sys body.
Proof.
  apply (mixed_from_run probes_alone one_probe toy_start purge_then_change).
  { intros s a s' Ho Ha. apply do_action_sound in Ha as (? & ? & _ & Hp). eexists. eauto. }
  vm_compute. repeat split.
  eexists. split; [reflexivity|]. repeat constructor; discriminate.
Qed.

(** ** Witness: a cold object, probed, then its second slice fetched *)

Definition covered (sys : ToySys) (a : Action) : bool :=
  match a with
  | AProbe _ _ => bool_decide (sy_pending sys = [])
  | ASlice n index _ =>
      match sy_plans sys !! n with
      | Some (_, meta) =>
          (0 <=? index) && (index <? 2 ^ 32) && (index * 2 <? om_total_len meta) &&
          match index_get (or_index (sy_orch sys)) toy_object with
          | Ok (Some x) => om_generation x <? u32_max
          | _ => true
          end
      | None => false
      end
  | APurge _ => false
  | _ => true
  end.

Lemma covered_allowed a sys sys' :
  do_action a sys = Some sys' -> covered sys a = true ->
  allowed 2 toy_versions sys (event_of sys a).
Proof.
  intros Ha Hc. pose proof (do_action_sound a sys sys' Ha) as (_ & Hh & _ & Hp).
  destruct a; cbn [covered event_of probes_alone] in *; try done.
  - split; [exact Hh|]. split; [by vm_compute|]. apply Hp, Hc.
  - destruct sys as [st pend plans served]. cbn [sy_plans sy_orch do_action] in *.
    destruct (bool_decide (v ∈ _)); [|done].
    destruct (plans !! n) as [[o meta]|]; [|done]. cbn [mbind option_bind] in Ha.
    case_bool_decide as Ho; [subst o|done].
    rewrite !andb_true_iff in Hc. destruct Hc as [[[H1 H2] H3] H4].
    split; [exact Hh|]. split; [unfold in_u; lia|]. split; [lia|].
    intros m x Hrel Hx. rewrite (rel_get _ m) in H4 by done. rewrite Hx in H4. lia.
Qed.

Lemma covered_run l sys0 sys sys' :
  allowed_steps 2 toy_versions sys0 sys -> run covered l sys = Some sys' ->
  allowed_steps 2 toy_versions sys0 sys'.
Proof.
  revert sys. induction l as [|a l IH]; intros sys Hs; cbn [run]; [by intros [= <-]|].
  destruct (covered sys a) eqn:Ec; [|done].
  destruct (do_action a sys) as [sys1|] eqn:E; [|done]. apply IH.
  eapply allowed_more; [exact Hs|by apply do_action_sound|by eapply covered_allowed].
Qed.

Definition cold_download : list Action :=
  [AProbe v1 0; ACommit 0; ASlice 0 0 v1; ASlice 0 1 v1].
Definition toy_end : ToySys := default toy_start (run covered cold_download toy_start).
Definition toy_plan_meta : ObjectMeta :=
  mkObjectMeta (lit "/x") 4 0 (Some (lit "1")) None None false 0 0 false.
Definition toy_served (i : Z) : SliceValue :=
  mkSliceValue (mkSliceHeader 2 4 0 (Some (lit "1")) None None) (lit "aa").

Lemma toy_end_run : run covered cold_download toy_start = Some toy_end.
Proof.
  assert (bool_decide (is_Some (run covered cold_download toy_start)) = true) as Hs
    by (vm_compute; reflexivity).
  apply bool_decide_eq_true in Hs as [sys Hs]. unfold toy_end. by rewrite Hs.
Qed.

Lemma toy_end_reached : allowed_steps 2 toy_versions toy_start toy_end.
Proof. exact (covered_run _ _ _ _ (allowed_refl _ _ _) toy_end_run). Qed.

Lemma toy_end_plan : (toy_object, toy_plan_meta) ∈ sy_plans toy_end.
Proof. vm_compute. left. Qed.

Lemma toy_end_served i :
  i ∈ plan_indices (Range.plan (mkByteRange 1 3) 2) ->
  (mkSliceKey toy_object (om_generation toy_plan_meta) i, toy_served i) ∈ sy_served toy_end.
Proof.
  intros Hi. change (plan_indices (Range.plan (mkByteRange 1 3) 2)) with [0; 1] in Hi.
  rewrite !elem_of_cons, elem_of_nil in Hi.
  destruct Hi as [-> |[-> |[]]]; vm_compute; [right; left|left].
Qed.

Lemma response_never_mixes_versions_witness :
  exists w, toy_versions toy_object w /\ describes toy_plan_meta w /\
    assemble 2 (mkByteRange 1 3) toy_served = Some (slice 1 4 (vr_content w)).
Proof.
  apply (response_never_mixes_versions 2 toy_versions toy_identified ltac:(lia)
           toy_start toy_end toy_object toy_plan_meta (mkByteRange 1 3) toy_served).
  - split; [split; [exact I|split; [reflexivity|apply map_Forall_empty]]|]. repeat split.
  - exact toy_end_reached.
  - exact toy_end_plan.
  - vm_compute. intuition discriminate.
  - reflexivity.
  - vm_compute. discriminate.
  - exact toy_end_served.
Defined.

Definition toy_plan : Plan :=
  mkPlan (lit "steam") PARTIAL_CONTENT (mkByteRange 0 1) 10 Hit toy_plan_meta toy_object true.

Lemma prefetch_inside_object_witness :
  let '(fetched, _) := maybe_prefetch 2 map_to_list 0
    (mkReadaheadPolicy {[ toy_object := mkPattern 0 5 0 ]} 3) (∅ : gmap SliceKey SliceValue) toy_plan in
  fetched = [1; 2; 3] /\ Z.of_nat (length fetched) <= 3.
Proof.
  pose proof (prefetch_inside_object 2 map_to_list 0
    (mkReadaheadPolicy {[ toy_object := mkPattern 0 5 0 ]} 3) (∅ : gmap SliceKey SliceValue) toy_plan 1
    ltac:(lia) ltac:(vm_compute; intuition discriminate) ltac:(vm_compute; intuition discriminate)
    ltac:(vm_compute; discriminate)) as H.
  destruct (maybe_prefetch _ _ _ _ _ _) as [fetched policy'] eqn:E.
  destruct H as [H _]. split; [|exact H]. vm_compute in E. by injection E as <- _.
Defined.

(** A forced change of slice size serves wrong bytes.  Slice keys do not
    carry the slice size and a hit is not checked against the recorded one, so
    a slice written with 4-byte slices is found, not fetched, by a process
    configured with 2-byte slices, and bytes 2 and 3 of the object come out as
    bytes 4 and 5. *)
Theorem forced_slice_size_serves_wrong_bytes :
  let content := lit "abcdefgh" in
  let meta := mkObjectMeta (lit "/x") 8 0 (Some (lit "1")) None None false 0 0 false in
  let old := mkSliceValue (header_for meta 4) (slice_payload 1 4 content) in
  let key := mkSliceKey toy_object 0 1 in
  let st : Orch (gmap SliceKey SliceValue) (gmap ObjectId bytes) :=
    mkOrch {[ key := old ]} ∅ ∅ [] in
  (forall fetched, (slice_fetch 2 true st toy_object meta 8 [] 1 fetched).1 = Ok old) /\
  plan_indices (Range.plan (mkByteRange 2 3) 2) = [1] /\
  assemble 2 (mkByteRange 2 3) (fun _ => old) = Some (lit "ef") /\
  slice 2 4 content = lit "cd".
Proof. split; [intros fetched; reflexivity|]. repeat split. Qed.
