(* ===== verification/Store.v ===== *)
(** * The slice store

    Models [crates/cachic/src/store/hybrid.rs] around the engine: how it is
    opened, with which options, what each entry weighs, and what the wrapper makes
    of the engine's answers; and the store of the spike, [spike/store.rs].  The
    engine itself is [Orchestrator.Foyer]; building it and its device are
    parameters. *)

From S2P Require Import Prelude.
From S2P Require Import RustStr.
From S2P Require Import Codec.
From S2P Require Import SliceCodec.
From S2P Require Import Index.
From S2P Require Import Config.
From S2P Require Import Orchestrator.

Open Scope Z_scope.

(** ** Opening *)

Record Device := mkDevice {
  dv_dir : str;
  dv_capacity : Z;
  dv_direct : bool }.

Inductive HybridCachePolicy := WriteOnInsertion | WriteOnEviction.

(** The builder's calls; [None] where the engine's own default stays. *)
Record EngineOptions := mkEngineOptions {
  eo_name : str;
  eo_metrics : bool;
  eo_policy : HybridCachePolicy;
  eo_flush_on_close : option bool;
  eo_memory : Z;
  eo_weighter : SliceKey -> SliceValue -> Z;
  eo_device : Device;
  eo_block_size : Z;
  eo_flushers : option Z;
  eo_buffer_pool : option Z }.

Inductive OpenError :=
  | OpenDirectory (path : str) (source : str)
  | OpenEngine (source : str).

(** [with_weighter]. *)
Definition weight (k : SliceKey) (v : SliceValue) : Z := ENCODED_LEN + len (sv_payload v).

Section Open.
Context {E : Type}.
Context (create_dir_all : str -> result str unit).
Context (build_device : Device -> result str unit).
Context (build : EngineOptions -> result str E).

Definition engine_options (dir : str) (config : StoreConfig) (registry : bool) : EngineOptions :=
  mkEngineOptions (lit "cachic") registry WriteOnInsertion (Some true) (so_memory_bytes config) weight
    (mkDevice dir (so_disk_bytes config) (so_direct_io config)) (so_block_bytes config)
    (Some (so_flushers config)) (Some (so_buffer_pool_bytes config)).

(** On Linux, where [with_direct] exists. *)
Definition open_with_metrics (dir : str) (config : StoreConfig) (registry : bool) : result OpenError E :=
  _ ← map_err (OpenDirectory dir) (create_dir_all dir);
  _ ← map_err OpenEngine (build_device (mkDevice dir (so_disk_bytes config) (so_direct_io config)));
  map_err OpenEngine (build (engine_options dir config registry)).

Definition open_store (dir : str) (config : StoreConfig) : result OpenError E :=
  open_with_metrics dir config false.

(** The spike's store: four settings, the engine's defaults for the rest. *)
Record SpikeStoreConfig := mkSpikeStoreConfig {
  ss_memory_bytes : Z;
  ss_disk_bytes : Z;
  ss_block_bytes : Z;
  ss_direct_io : bool }.

Definition spike_store_default : SpikeStoreConfig :=
  mkSpikeStoreConfig (64 * 1024 * 1024) (1024 * 1024 * 1024) (16 * 1024 * 1024) true.

Definition spike_engine_options (dir : str) (config : SpikeStoreConfig) : EngineOptions :=
  mkEngineOptions (lit "cachic-spike") false WriteOnInsertion None (ss_memory_bytes config) weight
    (mkDevice dir (ss_disk_bytes config) (ss_direct_io config)) (ss_block_bytes config) None None.

Definition spike_open (dir : str) (config : SpikeStoreConfig) : result str E :=
  _ ← create_dir_all dir;
  _ ← build_device (mkDevice dir (ss_disk_bytes config) (ss_direct_io config));
  build (spike_engine_options dir config).
End Open.

(** ** The wrapper *)

Section Wrapper.
Context {S : Type} `{Foyer S}.

Definition store_get_or_fetch (s : S) (k : SliceKey) (fetched : result FetchError SliceValue)
    : result StoreError SliceValue * S :=
  match foyer_get_or_fetch s k fetched with
  | (GotStored v, s') => (Ok v, s')
  | (GotFetched, s') => (map_err (fun e => StoreFetch (foyer_error_text e)) fetched, s')
  | (GotError text, s') => (Err (StoreFetch text), s')
  end.

Definition store_contains (s : S) (k : SliceKey) : bool := foyer_contains s k.
Definition store_insert (s : S) (k : SliceKey) (v : SliceValue) : S := foyer_insert s k v.
Definition store_remove (s : S) (k : SliceKey) : S := foyer_remove s k.
(** [close], given the engine's answer. *)
Definition store_close (closed : result str unit) : result StoreError unit := map_err StoreFetch closed.
End Wrapper.

(** ** Sizes *)

(** The bytes of the three strings of a header. *)
Definition strings_len (h : SliceHeader) : Z :=
  let l s := match s with Some v => len v | None => 0 end in
  l (sh_etag h) + l (sh_last_modified h) + l (sh_content_type h).

Lemma header_len_strings h : slice_header_encoded_len h = 28 + strings_len h.
Proof.
  unfold slice_header_encoded_len, strings_len, opt_str_len.
  destruct (sh_etag h), (sh_last_modified h), (sh_content_type h); lia.
Qed.

(** The store a started process opens suits its slices.  When opening succeeds,
    the directory exists and the engine was built with a policy that writes on
    insertion and flushes on close; a slice of the configured size, with headers
    of up to three times that size and 4 KiB to spare, fits in a block.  An entry
    weighs its key and payload: its encoding is longer by 44 bytes and the
    header's strings, which the memory cap does not count. *)
Theorem store_suits_slices {E} create_dir_all build_device (build : EngineOptions -> result str E) dir config
    registry store xxh3_64 k v c :
  validate config = Ok tt ->
  open_with_metrics create_dir_all build_device build dir (from_config config) registry = Ok store ->
  slice_value_encode xxh3_64 v = Ok c -> slice_key_ok k ->
  let options := engine_options dir (from_config config) registry in
  create_dir_all dir = Ok tt /\ build_device (eo_device options) = Ok tt /\ build options = Ok store /\
  eo_policy options = WriteOnInsertion /\ eo_flush_on_close options = Some true /\
  (len (sv_payload v) <= cf_cache_slice_size config ->
   strings_len (sv_header v) <= 3 * cf_cache_slice_size config - 4096 -> len c <= eo_block_size options) /\
  weight k v + strings_len (sv_header v) + 44 = len (slice_key_encode k) + len c.
Proof.
  intros Hv Ho Hc Hk options. unfold open_with_metrics in Ho.
  destruct (create_dir_all dir) as [[]|]; [|done]. cbn [map_err mbind result_bind] in Ho.
  destruct (build_device _) as [[]|] eqn:Ed; [|done]. cbn [map_err mbind result_bind] in Ho.
  fold options in Ho. destruct (build options) as [e|] eqn:Eb; [|done]. injection Ho as <-.
  destruct (estimated_size_exact xxh3_64 v c k Hc Hk) as [Hlen Hkey].
  unfold slice_value_estimated_size in Hlen. rewrite header_len_strings in Hlen.
  do 3 (split; [done|]). do 2 (split; [done|]). split.
  - intros Hp Hs. apply store_holds_slices in Hv as [Hb _]. cbn [options engine_options eo_block_size]. lia.
  - rewrite Hkey. unfold weight, slice_key_estimated_size. lia.
Qed.

(** Without stale fallback, a slice that did not change at its origin is what
    the store returns, and every error of the store is passed on. *)
Lemma slice_fetch_store {S T} `{Foyer S} `{Redb T} slice_size (st : Orch S T) object meta total url index fetched :
  let key := mkSliceKey object (om_generation meta) index in
  let checked := check_slice slice_size meta total index fetched in
  (forall found, checked <> Err (FMismatch found)) ->
  slice_fetch slice_size false st object meta total url index fetched =
  let '(r, s) := store_get_or_fetch (or_store st) key checked in (map_err OStore r, set_store st s).
Proof.
  intros key checked Hne. unfold slice_fetch, store_get_or_fetch. fold key checked.
  destruct (foyer_get_or_fetch (or_store st) key checked) as [[v| |text] s]; [done| |done].
  destruct checked as [v|[]]; try done. by destruct (Hne found).
Qed.

Lemma store_suits_slices_witness :
  weight (mkSliceKey (replicate 16 x01) 0 7) toy_value + strings_len (sv_header toy_value) + 44 = 75.
Proof.
  destruct (store_suits_slices (fun _ => Ok tt) (fun _ => Ok tt) (fun _ => Ok tt) (lit "/data/cache") default_config
    true tt toy_checksum (mkSliceKey (replicate 16 x01) 0 7) toy_value toy_encoding) as (_ & _ & _ & _ & _ & _ & H).
  - reflexivity.
  - reflexivity.
  - exact toy_encoding_eq.
  - vm_compute. intuition discriminate.
  - rewrite H. vm_compute. reflexivity.
Defined.
