(* ===== verification/Recovery.v ===== *)
(** * Crash recovery

    What happens to the cache when the process dies at any moment and is started
    again on the same directory ([tests/crash_recovery.rs]): the constructors of
    [crates/cachic/src/orchestrator/mod.rs] and the two durable writes of its
    [probe], with the codec of [store/slice.rs] between memory and disk.

    The index is a database whose transactions are durable once committed, so it
    comes back as it was.  The slice store writes in the background and may come
    back with anything it was ever given under a key, whole, cut short or with
    its payload damaged, or with nothing.  Metadata cells, plans and responses in
    progress are gone.

    Every action of the orchestrator makes at most one durable change, except the
    end of a probe, which inserts a slice and then records the object.  A crash at
    any other moment keeps the cache correct; a crash between those two writes
    does not. *)

From S2P Require Import Prelude.
From S2P Require Import RustStr.
From S2P Require Import Codec.
From S2P Require Import Client.
From S2P Require Import Validators.
From S2P Require Import SliceCodec.
From S2P Require Import Index.
From S2P Require Import Key.
From S2P Require Import Range.
From S2P Require Import Orchestrator.

Open Scope Z_scope.

(** ** The two writes of a probe *)

Section Phases.
Context {S T : Type} `{Foyer S} `{Redb T}.
Context (slice_size : Z).
Implicit Types st : Orch S T.

(** [probe] from the response to the insertion of the slice. *)
Definition probe_insert (now : Z) st (key : CacheKey) (object : ObjectId) (url : str) (index : Z)
    (response : UpstreamResponse) : result OrchestratorError (ObjectMeta * Orch S T) :=
  '(total_len, no_ranges) ←
    (if up_status response =? PARTIAL_CONTENT then
       total ← ok_or (content_range_total response) (ONoLength url); Ok (total, false)
     else
       total ← ok_or (content_length response) (ONoLength url); Ok (total, true));
  let generation :=
    match index_get (or_index st) object with
    | Ok (Some previous) => om_generation previous
    | _ => 0
    end in
  let meta := mkObjectMeta (ck_key key) total_len generation
    (response_header response (lit "etag")) (response_header response (lit "last-modified"))
    (response_header response (lit "content-type")) no_ranges now now false in
  Ok (meta,
      if no_ranges then st
      else set_store st (foyer_insert (or_store st) (mkSliceKey object generation index)
             (mkSliceValue (header_for meta slice_size) (up_body response)))).

(** [let _ = self.index.put(&object, &meta)]: an error is ignored. *)
Definition probe_put st (object : ObjectId) (meta : ObjectMeta) : Orch S T :=
  match index_put (or_index st) object meta with
  | Ok t => set_index st t
  | Err _ => st
  end.

(** A probe's commit is the two writes, in this order. *)
Lemma probe_commit_phases now st key object url index response :
  probe_commit slice_size now st key object url index response =
  ('(meta, st1) ← probe_insert now st key object url index response;
   Ok (meta, probe_put st1 object meta)).
Proof using Type.
  unfold probe_commit, probe_insert, probe_put.
  destruct (up_status response =? PARTIAL_CONTENT);
    [destruct (content_range_total response)|destruct (content_length response)]; done.
Qed.

(** [Orchestrator::new] over a store and an index that were opened. *)
Definition orchestrator_new (store : S) (index : T) : Orch S T := mkOrch store index ∅ [].
Definition restarted (store : S) (index : T) : Sys S T :=
  mkSys (orchestrator_new store index) [] [] [].
End Phases.

(** ** What a disk may hold *)

(** The values ever inserted under a key. *)
Abbreviation Ever := (SliceKey -> SliceValue -> Prop).

Section Disk.
Context (xxh3_64 : bytes -> Z).

Inductive on_disk (ever : Ever) (k : SliceKey) : bytes -> Prop :=
  | disk_whole v c rest :
      ever k v -> slice_value_encode xxh3_64 v = Ok c -> on_disk ever k (c ++ rest)
  | disk_torn v c torn lost :
      ever k v -> slice_value_encode xxh3_64 v = Ok c -> c = torn ++ lost -> lost <> [] ->
      on_disk ever k torn
  | disk_damaged v c damaged rest :
      ever k v -> slice_value_encode xxh3_64 v = Ok c ->
      len damaged = len (sv_payload v) -> xxh3_64 damaged <> xxh3_64 (sv_payload v) ->
      on_disk ever k (take (length c - length (sv_payload v)) c ++ damaged ++ rest).

(** [v] is what reading such bytes gives. *)
Definition read_back (ever : Ever) (k : SliceKey) (v : SliceValue) : Prop :=
  exists b failures failures' rest,
    on_disk ever k b /\ slice_value_decode xxh3_64 failures b = (Ok (v, rest), failures').

Context (Hxxh : forall b, in_u 64 (xxh3_64 b)).

Lemma encode_bounds v c : slice_value_encode xxh3_64 v = Ok c -> len (sv_payload v) < 2 ^ 32.
Proof using Type.
  unfold slice_value_encode. destruct (slice_header_encode (sv_header v)); [|done]. cbn.
  destruct (Z.ltb_spec (len (sv_payload v)) (2 ^ 32)); [lia|done].
Qed.

(** Reading returns a value that was written, or an error. *)
Lemma read_back_ever ever k v :
  (forall v, ever k v -> slice_header_ok (sv_header v)) -> read_back ever k v -> ever k v.
Proof using Hxxh.
  intros Hok (b & failures & failures' & rest & Hb & Hd).
  destruct Hb as [w c tail Hw Hc|w c torn lost Hw Hc Hcut Hne|w c damaged tail Hw Hc Hlen Hne].
  - pose proof (encode_bounds _ _ Hc) as Hl. pose proof Hc as (ch & Hch & _ & ->)%slice_value_encode_frame.
    rewrite (slice_value_decode_frame _ _ (sv_header w)) in Hd; auto. rewrite Z.eqb_refl in Hd.
    injection Hd as <- _ _. by destruct w.
  - rewrite (torn_write_refused xxh3_64 Hxxh failures w c torn lost) in Hd; auto.
    + done.
    + split; [by apply Hok|by eapply encode_bounds].
  - rewrite payload_damage_detected in Hd; auto.
    + done.
    + split; [by apply Hok|by eapply encode_bounds].
Qed.
End Disk.

(** ** Lifetimes *)

Section Life.
Context {S T : Type} `{FoyerLaws S} `{RedbLaws T}.
Context (xxh3_64 : bytes -> Z) (Hxxh : forall b, in_u 64 (xxh3_64 b)).
Context (slice_size : Z) (Hss : 0 < slice_size < 2 ^ 32).
Context (versions : ObjectId -> Version -> Prop).
Context (identified : forall o w1 w2, versions o w1 -> versions o w2 ->
  matches (vr_validators w1) (vr_validators w2) = true -> vr_content w1 = vr_content w2).
Implicit Types sys : Sys S T.

Definition store_of sys : S := or_store (sy_orch sys).
Definition index_of sys : T := or_index (sy_orch sys).

(** Any number of lifetimes of the process, with everything that was ever in
    the store: steps of the orchestrator, and crashes at any moment between
    them.  After a crash the index is as it was, and what the store answers was
    read back from what it had been given. *)
Inductive life : Ever -> Sys S T -> Prop :=
  | life_empty sys : empty_system sys -> life (fun _ _ => False) sys
  | life_step ever sys ev sys' :
      life ever sys -> step slice_size sys ev sys' -> allowed slice_size versions sys ev ->
      life (fun k v => ever k v \/ held (store_of sys') !! k = Some v) sys'
  | life_crash ever sys store :
      life ever sys ->
      (forall k v, held store !! k = Some v -> read_back xxh3_64 ever k v) ->
      life ever (restarted store (index_of sys)).

(** One version per generation, over all lifetimes. *)
Definition life_inv (ever : Ever) sys : Prop :=
  exists m vers, inv_with slice_size versions m vers sys /\
    forall k v, ever k v -> sliced slice_size vers k v.

Lemma restarted_inv m vers ever sys store :
  inv_with slice_size versions m vers sys ->
  (forall k v, ever k v -> sliced slice_size vers k v) ->
  (forall k v, held store !! k = Some v -> ever k v) ->
  inv_with slice_size versions m vers (restarted store (index_of sys)).
Proof using Type.
  intros [] Hever Hstore. split; cbn; try done.
  - intros k v Hk. by apply Hever, Hstore.
  - intros o meta []%not_elem_of_nil.
  - constructor.
  - intros p []%not_elem_of_nil.
  - intros k v []%not_elem_of_nil.
Qed.

Lemma life_keeps ever sys : life ever sys -> life_inv ever sys.
Proof using identified Hss Hxxh.
  induction 1 as [sys He|ever sys ev sys' _ (m & vers & Hi & Hever) Hstep Ha
    |ever sys store _ (m & vers & Hi & Hever) Hdisk].
  - destruct (empty_inv slice_size versions sys He) as (m & vers & Hi). by exists m, vers.
  - destruct (step_inv slice_size versions identified Hss m vers sys ev sys' Hstep Ha Hi)
      as (m' & vers' & Hsub & Hi').
    exists m', vers'. split; [done|]. intros k v [Hk|Hk].
    + eapply sliced_mono; [done|]. by apply Hever.
    + by apply (inv_store _ _ _ _ _ Hi').
  - exists m, vers. split; [|done]. eapply restarted_inv; [done|done|].
    intros k v Hk. apply (read_back_ever xxh3_64 Hxxh); [|by apply Hdisk].
    intros w Hw. destruct (Hever k w Hw) as (? & _ & _ & Hh). exact Hh.
Qed.

(** A crash never makes the cache serve wrong bytes.  Let the process run
    with any interleaving of plans, probes, slice fetches, generation bumps and
    evictions, die at any moment between them, and start again on the same
    directory, any number of times; let the store come back with any part of what
    it was ever given, entries cut short or with a damaged payload (whose checksum
    differs) among them.  Then the body assembled for a plan is exactly the wanted
    bytes of one single version of the object, as the plan's metadata describes
    it.  As for a single lifetime: honest origins whose validators identify
    content, one probe in flight per object, no purge, fewer than 2^32
    generations.  A checksum of 64 bits is assumed of the hash, nothing else. *)
Theorem crash_never_mixes_versions ever sys o meta wanted value :
  life ever sys ->
  (o, meta) ∈ sy_plans sys ->
  range_in wanted (om_total_len meta) -> om_total_len meta < 2 ^ 64 ->
  om_total_len meta <= max_addressable_len slice_size ->
  (forall i, i ∈ plan_indices (Range.plan wanted slice_size) ->
     (mkSliceKey o (om_generation meta) i, value i) ∈ sy_served sys) ->
  exists w, versions o w /\ describes meta w /\
    assemble slice_size wanted value = Some (slice (br_start wanted) (br_end wanted + 1) (vr_content w)).
Proof using identified Hss Hxxh.
  intros Hl Hin Hw H64 Hmax Hserved. destruct (life_keeps _ _ Hl) as (m & vers & Hi & _).
  eapply (inv_assemble slice_size versions); eauto. by exists m, vers.
Qed.
End Life.

(** ** Between the two writes *)

Lemma whole_reads_back xxh3_64 (Hxxh : forall b, in_u 64 (xxh3_64 b)) (ever : Ever) k v :
  ever k v -> slice_value_ok v -> read_back xxh3_64 ever k v.
Proof.
  intros Hv Hok. destruct (slice_value_ok_encodes xxh3_64 v Hok) as [c Hc].
  exists (c ++ []), 0, 0, []. split; [by eapply disk_whole|].
  apply slice_value_encode_frame in Hc as (ch & Hch & _ & ->). destruct Hok as [Hh Hp].
  rewrite (slice_value_decode_frame _ _ (sv_header v)) by auto. rewrite Z.eqb_refl. by destruct v.
Qed.

(** The process dies after the probe of version 1 inserted slice 1 and before
    it recorded the object; the slice had reached the disk. *)
Definition dying : result OrchestratorError (ObjectMeta * Orch (gmap SliceKey SliceValue) (gmap ObjectId bytes)) :=
  probe_insert 2 0 (sy_orch toy_start) toy_key toy_object [] 1 (toy_response v1.1 v1.2 1).

(** The next process probes version 2 with its first slice and finds the other
    one in the store. *)
Definition after_the_crash : list Action :=
  [AProbe v2 0; ACommit 0; APlanIndex; ASlice 0 0 v2; ASlice 0 1 v2].

Definition careful (sys : ToySys) (ev : Event) : Prop := no_purge sys ev /\ one_probe sys ev.

Definition died : Orch (gmap SliceKey SliceValue) (gmap ObjectId bytes) :=
  match dying with Ok (_, st) => st | Err _ => sy_orch toy_start end.

Lemma dying_Ok : exists meta, dying = Ok (meta, died).
Proof.
  assert (match dying with Ok _ => true | Err _ => false end = true) as Hd by (vm_compute; reflexivity).
  unfold died. destruct dying as [[meta st]|]; [by eexists|done].
Qed.

Definition died_value : SliceValue :=
  mkSliceValue (mkSliceHeader 2 4 0 (Some (lit "1")) None None) (lit "aa").

#[local] Instance SliceHeader_eq : EqDecision SliceHeader.
Proof. solve_decision. Defined.
#[local] Instance SliceValue_eq : EqDecision SliceValue.
Proof. solve_decision. Defined.

Lemma died_holds : held (or_store died) = {[ mkSliceKey toy_object 0 1 := died_value ]}.
Proof. apply (bool_decide_eq_true_1 _). vm_compute. reflexivity. Qed.

Lemma died_value_ok : slice_value_ok died_value.
Proof. unfold slice_value_ok, slice_header_ok, in_u. cbn. repeat split; lia || done. Qed.

(** C18: a crash between the two writes of a probe mixes versions.  There is a
    probe of one version that inserts its slice and dies before the object is
    recorded; the store comes back with that slice, intact, and the index without
    the object; and the next process, serving honest origins with one probe at a
    time and no purge, probes a newer version under the same generation 0, finds
    the older slice under its key and assembles a body that is no version's. *)
Theorem crash_between_writes_mixes_versions :
  exists meta st sys body,
    dying = Ok (meta, st) /\
    (forall k v, held (or_store st) !! k = Some v ->
       read_back toy_checksum (fun k v => held (or_store st) !! k = Some v) k v) /\
    rtc (honest_step careful) (restarted (or_store st) (or_index st)) sys /\
    mixed_response sys body.
Proof.
  destruct dying_Ok as [meta Hd].
  destruct (mixed_from_run (fun s a => purges_nothing s a && probes_alone s a) careful
    (restarted (or_store died) (or_index died)) after_the_crash) as (sys & body & Hr & Hm).
  - intros s a s' [Ho1 Ho2]%andb_true_iff Ha. apply do_action_sound in Ha as (? & ? & Hp & Hq).
    eexists. split; [done|]. split; [done|]. split; [by apply Hp|by apply Hq].
  - vm_compute. repeat split. eexists. split; [reflexivity|]. repeat constructor; discriminate.
  - exists meta, died, sys, body. split; [done|]. split; [|done]. intros k v Hk.
    apply whole_reads_back; [apply toy_checksum_in_u|done|].
    rewrite died_holds in Hk. apply lookup_singleton_Some in Hk as [_ <-].
    exact died_value_ok.
Qed.

(** ** Witness: a download, a crash, and the same object from the cache *)

Abbreviation toy_life := (life (S := gmap SliceKey SliceValue) (T := gmap ObjectId bytes) toy_checksum 2 toy_versions).

Lemma covered_life l ever sys sys' :
  toy_life ever sys -> (forall k v, held (store_of sys) !! k = Some v -> ever k v) ->
  run covered l sys = Some sys' ->
  exists ever', toy_life ever' sys' /\ forall k v, held (store_of sys') !! k = Some v -> ever' k v.
Proof.
  revert ever sys. induction l as [|a l IH]; intros ever sys Hl Hh; cbn [run]; [intros [= <-]; by exists ever|].
  destruct (covered sys a) eqn:Ec; [|done].
  destruct (do_action a sys) as [sys1|] eqn:E; [|done]. intros Hr. eapply (IH _ sys1); [| |exact Hr].
  - eapply life_step; [exact Hl|by apply do_action_sound|by eapply covered_allowed].
  - intros k v Hk. by right.
Qed.

Lemma len_slice_le (a b : Z) (l : bytes) : len (slice a b l) <= len l.
Proof. unfold slice, len. rewrite length_take, length_drop. lia. Qed.

(** Nothing is lost: the store comes back as it was. *)
Lemma toy_crash ever sys :
  toy_life ever sys -> (forall k v, held (store_of sys) !! k = Some v -> ever k v) ->
  toy_life ever (restarted (store_of sys) (index_of sys)).
Proof.
  intros Hl Hh. apply (life_crash _ _ _ _ sys); [done|]. intros k v Hk. pose proof (Hh k v Hk) as He.
  destruct (life_keeps toy_checksum toy_checksum_in_u 2 ltac:(lia) toy_versions toy_identified _ _ Hl)
    as (m & vers & Hi & Hever).
  destruct (Hever k v He) as (w & Hw & Hp & Hok). apply (inv_versions _ _ _ _ _ Hi) in Hw as (x & Hx & ->).
  apply whole_reads_back; [apply toy_checksum_in_u|done|]. split; [done|]. rewrite Hp.
  eapply Z.le_lt_trans; [apply len_slice_le|].
  rewrite !elem_of_cons, elem_of_nil in Hx. destruct Hx as [-> |[-> |[-> |[]]]]; reflexivity.
Qed.

Definition from_cache : list Action := [APlanIndex; ASlice 0 0 v2; ASlice 0 1 v2].
Definition toy_after : ToySys :=
  default toy_start (run covered from_cache (restarted (store_of toy_end) (index_of toy_end))).

Lemma toy_after_run : run covered from_cache (restarted (store_of toy_end) (index_of toy_end)) = Some toy_after.
Proof.
  assert (match run covered from_cache (restarted (store_of toy_end) (index_of toy_end)) with
          | Some _ => true | None => false end = true) as Hs by (vm_compute; reflexivity).
  unfold toy_after. by destruct (run covered from_cache _).
Qed.

Lemma crash_never_mixes_versions_witness :
  exists w, toy_versions toy_object w /\ describes toy_plan_meta w /\
    assemble 2 (mkByteRange 1 3) toy_served = Some (slice 1 4 (vr_content w)).
Proof.
  assert (toy_life (fun _ _ => False) toy_start) as H0.
  { apply life_empty. split; [split; [exact I|split; [reflexivity|apply map_Forall_empty]]|]. repeat split. }
  destruct (covered_life cold_download _ toy_start toy_end H0) as (e1 & H1 & Hh1);
    [intros k v Hk; by rewrite (lookup_empty k : held (store_of toy_start) !! k = None) in Hk|exact toy_end_run|].
  apply (toy_crash e1 toy_end H1) in Hh1 as H2.
  destruct (covered_life from_cache e1 _ toy_after H2 Hh1 toy_after_run) as (e2 & H3 & _).
  apply (crash_never_mixes_versions toy_checksum toy_checksum_in_u 2 ltac:(lia) toy_versions toy_identified
           e2 toy_after toy_object toy_plan_meta (mkByteRange 1 3) toy_served H3).
  - vm_compute. left.
  - vm_compute. intuition discriminate.
  - reflexivity.
  - vm_compute. discriminate.
  - intros i Hi. change (plan_indices (Range.plan (mkByteRange 1 3) 2)) with [0; 1] in Hi.
    rewrite !elem_of_cons, elem_of_nil in Hi. destruct Hi as [-> |[-> |[]]]; vm_compute; [right; left|left].
Defined.
