(* ===== verification/ObjectFill.v ===== *)
(** * Serving an object whose origin ignores ranges

    Theorems about the object-level fill of [Orchestrator::ensure_filled] and
    [Orchestrator::run_fill] ([crates/cachic/src/orchestrator/mod.rs]), whose
    definitions are in [Orchestrator] (section [Fill]) and [Filler]: what the
    filler stores, publishes and returns on every way its stream can end, and
    what a slice read afterwards holds. *)

From S2P Require Import Prelude.
From S2P Require Import RustStr.
From S2P Require Import Range.
From S2P Require Import SliceCodec.
From S2P Require Import Index.
From S2P Require Import Client.
From S2P Require Import Filler.
From S2P Require Import Orchestrator.

Open Scope Z_scope.

(** ** What a stream delivers *)

(** The bytes a stream yields before it ends, and the error it ends with. *)
Fixpoint delivered {E} (chunks : list (result E bytes)) : bytes * option E :=
  match chunks with
  | [] => ([], None)
  | Err e :: _ => ([], Some e)
  | Ok c :: rest => let '(body, failed) := delivered rest in (c ++ body, failed)
  end.

(** A buffer shorter than a slice is at most one slice. *)
Lemma slices_of_buffer ss (b : bytes) :
  len b < ss -> slices_of ss b (match b with [] => [] | _ => [b] end).
Proof.
  intros Hb. destruct b as [|x b].
  - split; [done|]. exists [], []. split; [done|]. split; [constructor|by left].
  - split; [cbn [concat]; by rewrite app_nil_r|]. exists [], [x :: b].
    split; [done|]. split; [constructor|]. right. exists (x :: b).
    split; [done|]. unfold len in *. cbn [length] in *. lia.
Qed.

(** The slices cut are the first slices of what was delivered, all of them
    when the stream ends normally. *)
Lemma cut_stream_delivered {E} ss buffer (chunks : list (result E bytes)) :
  0 < ss -> len buffer < ss ->
  let '(slices, res) := cut_stream ss buffer chunks in
  let '(body, failed) := delivered chunks in
  exists tail, slices_of ss (buffer ++ body) (slices ++ tail) /\
    match failed with
    | None => res = Ok tt /\ tail = []
    | Some e => res = Err e
    end.
Proof.
  intros Hss. revert buffer. induction chunks as [|[c|e] chunks IH];
    intros buffer Hb; cbn [cut_stream delivered].
  - rewrite app_nil_r. exists []. split; [|done]. rewrite app_nil_r. by apply slices_of_buffer.
  - pose proof (cut_full_spec (length (buffer ++ c)) ss (buffer ++ c) Hss ltac:(lia)) as Hc.
    destruct (cut_full _ ss (buffer ++ c)) as [out buffer'].
    destruct Hc as (Hcat & Hout & Hrest). specialize (IH buffer' Hrest).
    destruct (cut_stream ss buffer' chunks) as [out' res].
    destruct (delivered chunks) as [body failed].
    destruct IH as (tail & (Hcat' & full & last & Hsplit & Hfull & Hlast) & Hend).
    exists tail. split; [|done]. split.
    + rewrite <- app_assoc, concat_app, Hcat', !app_assoc. by rewrite <- Hcat.
    + exists (out ++ full), last. rewrite <- !app_assoc, Hsplit. split; [done|].
      split; [by apply Forall_app|done].
  - rewrite app_nil_r. eexists. split; [by apply slices_of_buffer|done].
Qed.

(** ** What a fill stores *)

Section Fill.
Context {S T : Type} `{FoyerLaws S} `{Redb T}.
Context (slice_size : Z).
Hypothesis Hss : 0 < slice_size < 2 ^ 32.
Implicit Types st : Orch S T.

Lemma insert_slices_spec s reg fill object meta i0 slices :
  0 <= i0 -> i0 + len slices <= u32_max ->
  let '(s', reg', n) := insert_slices slice_size s reg fill object meta i0 slices in
  n = i0 + len slices /\ fr_fills reg' = fr_fills reg /\
  length (fr_heap reg') = length (fr_heap reg) /\
  forall k v, held s' !! k = Some v ->
    (exists j payload, slices !! j = Some payload /\
       k = mkSliceKey object (om_generation meta) (i0 + Z.of_nat j) /\
       v = mkSliceValue (header_for meta slice_size) payload) \/
    (held s !! k = Some v /\
     forall j, (j < length slices)%nat -> k <> mkSliceKey object (om_generation meta) (i0 + Z.of_nat j)).
Proof using Type.
  revert s reg i0. induction slices as [|p slices IH]; intros s reg i0 Hi0 Hn; cbn [insert_slices].
  - split; [unfold len; cbn; lia|]. split; [done|]. split; [done|]. intros k v Hk. right.
    split; [done|]. cbn. lia.
  - unfold len in *. cbn [length] in *.
    assert (wrap32 (i0 + 1) = i0 + 1) as -> by (apply wrap_small; unfold in_u, u32_max in *; lia).
    match goal with |- context [insert_slices _ ?s1 ?r1 _ _ _ (i0 + 1) _] =>
      specialize (IH s1 r1 (i0 + 1) ltac:(lia) ltac:(lia)) end.
    destruct (insert_slices _ _ _ _ _ _ (i0 + 1) _) as [[s' reg'] n].
    destruct IH as (-> & Hf & Hh & Hk). split; [lia|]. split; [done|].
    split; [rewrite Hh; apply length_insert|]. intros k v Hv.
    destruct (Hk k v Hv) as [(j & payload & Hj & -> & ->)|[Hold Hne]].
    + left. exists (Datatypes.S j), payload. split; [done|]. split; [f_equal; lia|done].
    + pose proof (lookup_weaken _ _ _ _ Hold (held_insert s _ _)) as Hin.
      apply lookup_insert_Some in Hin as [[<- <-]|[Hk0 Hin]].
      * left. exists 0%nat, p. split; [done|]. split; [f_equal; lia|done].
      * right. split; [done|]. intros [|j] Hj; [by rewrite Z.add_0_r|].
        replace (i0 + Z.of_nat (Datatypes.S j)) with (i0 + 1 + Z.of_nat j) by lia. apply Hne. lia.
Qed.

(** What the slices at the front of [slices_of] hold, and how many they are. *)
Lemma slices_of_payloads body slices tail :
  slices_of slice_size body (slices ++ tail) -> len body <= u32_max * slice_size ->
  len slices <= (len body + slice_size - 1) / slice_size <= u32_max /\
  forall j payload, slices !! j = Some payload ->
    payload = slice_payload (Z.of_nat j) slice_size body.
Proof using Hss.
  intros Hof Hfit. pose proof (slices_of_count _ _ _ (proj1 Hss) Hof) as Hc.
  assert ((len body + slice_size - 1) / slice_size <= u32_max) as Hle.
  { apply Z.lt_succ_r, Z.div_lt_upper_bound; [lia|]. unfold Z.succ. lia. }
  rewrite len_app in Hc. pose proof (len_nonneg tail). split; [lia|].
  intros j payload Hj.
  rewrite (slices_of_lookup _ _ _ j payload (proj1 Hss) Hof) by by apply lookup_app_l_Some.
  assert (Z.of_nat j < len slices) by (apply lookup_lt_Some in Hj; unfold len; lia).
  assert (0 < len body).
  { destruct (decide (len body = 0)) as [E|]; [|pose proof (len_nonneg body); lia].
    rewrite E in Hc, Hle. rewrite Z.div_small in Hc by lia. pose proof (len_nonneg slices). lia. }
  unfold slice_payload. rewrite slice_extent_exact by (unfold u32_max in *; lia).
  cbn [br_start br_end]. f_equal. lia.
Qed.

(** The slice of [body] that a fill stores under key [k]. *)
Definition filled_at (object : ObjectId) (meta : ObjectMeta) (body : bytes) (i : Z)
    (k : SliceKey) (v : SliceValue) : Prop :=
  k = mkSliceKey object (om_generation meta) i /\
  v = mkSliceValue (header_for meta slice_size) (slice_payload i slice_size body).

Lemma run_fill_spec st reg fill object meta url chunks :
  len (delivered chunks).1 <= u32_max * slice_size ->
  let '(r, st', reg') := run_fill slice_size st reg fill object meta url (Ok chunks) in
  let '(body, failed) := delivered chunks in
  let count := (len body + slice_size - 1) / slice_size in
  fr_fills reg' = fr_fills reg /\ length (fr_heap reg') = length (fr_heap reg) /\
  st' = set_store st (or_store st') /\
  r = match failed with None => Ok count | Some source => Err (OUpstream (Request url source)) end /\
  forall k v, held (or_store st') !! k = Some v ->
    (exists i, 0 <= i < count /\ filled_at object meta body i k v) \/
    (held (or_store st) !! k = Some v /\
     (failed = None -> forall i, 0 <= i < count -> k <> mkSliceKey object (om_generation meta) i)).
Proof using Hss.
  intros Hfit. unfold run_fill.
  pose proof (cut_stream_delivered slice_size [] chunks (proj1 Hss) (proj1 Hss)) as Hcut.
  destruct (cut_stream slice_size [] chunks) as [slices res].
  destruct (delivered chunks) as [body failed]. cbn [fst app] in *.
  destruct Hcut as (tail & Hof & Hend).
  destruct (slices_of_payloads _ _ _ Hof Hfit) as (Hlen & Hpay).
  pose proof (insert_slices_spec (or_store st) reg fill object meta 0 slices
    ltac:(lia) ltac:(lia)) as Hins.
  destruct (insert_slices _ _ _ _ _ _ 0 slices) as [[s' reg'] n].
  destruct Hins as (-> & Hf & Hh & Hk). rewrite Z.add_0_l in *.
  split; [done|]. split; [done|]. split; [done|]. split.
  - destruct failed as [source|]; [by rewrite Hend|]. destruct Hend as [-> ->].
    rewrite app_nil_r in Hof. f_equal. apply slices_of_count; [lia|done].
  - intros k v Hv. destruct (Hk k v Hv) as [(j & payload & Hj & -> & ->)|[Hold Hne]].
    + left. exists (Z.of_nat j). apply lookup_lt_Some in Hj as Hlt. unfold len in *.
      split; [lia|]. split; [done|]. by rewrite (Hpay _ _ Hj).
    + right. split; [done|]. intros -> i Hi. destruct Hend as [_ ->]. rewrite app_nil_r in Hof.
      pose proof (slices_of_count _ _ _ (proj1 Hss) Hof) as Hc. unfold len in Hc at 1.
      specialize (Hne (Z.to_nat i) ltac:(lia)). by rewrite Z2Nat.id in Hne by lia.
Qed.

(** C32: a fill serves the object it streamed.  Let a request for a slice that
    is not stored become the filler.  Whatever the stream does, the registry
    afterwards has the fills it had before, so the object can be filled again,
    and the channel of the fill holds a terminal state.  However the origin
    chunks the body: if the stream ends normally the fill completes with
    ceil(length / slice size) slices and the request succeeds exactly if its
    slice is one of them; if it fails, the request and the subscribers get
    that error.  In both cases everything stored that was not there before is
    slice [i] of the body under the plan's generation, and the slice returned
    to the request, if one is, is exactly the bytes it asked for. *)
Theorem fill_serves_object text st reg fill reg0 object meta url index stream seen :
  foyer_contains (or_store st) (mkSliceKey object (om_generation meta) index) = false ->
  claim reg object = (Filler fill, reg0) -> 0 <= index ->
  (forall chunks, stream = Ok chunks -> len (delivered chunks).1 <= u32_max * slice_size) ->
  let '(r, st', reg') := ensure_filled slice_size text st reg object meta url index stream seen in
  fr_fills reg' = fr_fills reg /\
  match stream with
  | Err e =>
      r = Err (OUpstream e) /\ progress reg' fill = Some (Failed (text (OUpstream e))) /\ st' = st
  | Ok chunks =>
      let '(body, failed) := delivered chunks in
      let count := (len body + slice_size - 1) / slice_size in
      match failed with
      | None =>
          r = (if index <? count then Ok tt else Err (OFill url (never_reached count index))) /\
          progress reg' fill = Some (Complete count)
      | Some source =>
          let e := OUpstream (Request url source) in
          r = Err e /\ progress reg' fill = Some (Failed (text e))
      end /\
      st' = set_store st (or_store st') /\
      (forall k v, held (or_store st') !! k = Some v ->
         held (or_store st) !! k = Some v \/
         exists i, 0 <= i < count /\ filled_at object meta body i k v) /\
      (forall v, (slice_filled slice_size text st reg object meta url index stream seen).1.1 = Ok v ->
         v = mkSliceValue (header_for meta slice_size) (slice_payload index slice_size body))
  end.
Proof using Hss.
  intros Hc Hclaim Hindex Hfit. unfold slice_filled, ensure_filled. rewrite Hc, Hclaim.
  unfold claim in Hclaim. destruct (fr_fills reg !! object) as [f|] eqn:Ef; [done|].
  injection Hclaim as <- <-.
  assert (forall heap (p : Progress), length heap = length (fr_heap reg ++ [Ready 0]) ->
    <[length (fr_heap reg) := p]> heap !! length (fr_heap reg) = Some p) as Hlast.
  { intros heap p Hl. apply list_lookup_insert_eq. rewrite Hl, length_app. cbn. lia. }
  destruct stream as [chunks|e].
  2: { cbn -[length]. split; [by apply delete_insert_id|]. split; [done|]. split; [|done]. by apply Hlast. }
  specialize (Hfit chunks eq_refl).
  match goal with |- context [run_fill _ _ ?r1 ?f _ _ _ _] =>
    pose proof (run_fill_spec st r1 f object meta url chunks Hfit) as Hrun end.
  destruct (run_fill _ _ _ _ _ _ _ _) as [[r st'] reg'].
  destruct (delivered chunks) as [body failed]. destruct Hrun as (Hf & Hh & Hst & -> & Hk).
  destruct failed as [source|]; cbn [fst snd].
  - split; [cbn; rewrite Hf; by apply delete_insert_id|].
    split; [split; [done|by apply Hlast]|]. split; [done|]. split; [|done].
    intros k v Hv. destruct (Hk k v Hv) as [?|[? _]]; tauto.
  - split; [cbn; rewrite Hf; by apply delete_insert_id|].
    split; [split; [done|by apply Hlast]|]. split; [done|]. split.
    { intros k v Hv. destruct (Hk k v Hv) as [?|[? _]]; tauto. }
    destruct (Z.ltb_spec index ((len body + slice_size - 1) / slice_size)); cbn [fst]; [|done].
    intros v Hv. unfold store_get in Hv.
    destruct (foyer_get (or_store st') _) as [[v'|]|] eqn:Eg; cbn in Hv; try done.
    injection Hv as ->. apply held_get in Eg.
    destruct (Hk _ _ Eg) as [(i & Hi & [= <-] & ->)|[_ Hno]]; [done|].
    by destruct (Hno eq_refl index ltac:(lia)).
Qed.
End Fill.

(** ** Witness *)

Definition fill_meta : ObjectMeta :=
  mkObjectMeta (lit "/x") 5 3 (Some (lit "1")) None None true 0 0 false.
Definition fill_start : Orch (gmap SliceKey SliceValue) (gmap ObjectId bytes) := mkOrch ∅ ∅ ∅ [].
Definition fill_stream : result UpstreamError (list (result ReqwestError bytes)) :=
  Ok [Ok (lit "abc"); Ok []; Ok (lit "de")].
Definition fill_run :=
  ensure_filled 2 error_kind fill_start registry_new [x01] fill_meta [] 2 fill_stream (fun _ => []).

Lemma fill_serves_object_witness :
  fill_run.1.1 = Ok tt /\ progress fill_run.2 0 = Some (Complete 3) /\
  forall v, (slice_filled 2 error_kind fill_start registry_new [x01] fill_meta [] 2
               fill_stream (fun _ => [])).1.1 = Ok v ->
    v = mkSliceValue (header_for fill_meta 2) (lit "e").
Proof.
  pose proof (fill_serves_object 2 ltac:(lia) error_kind fill_start registry_new 0
    (claim registry_new [x01]).2 [x01] fill_meta [] 2 fill_stream (fun _ => [])
    eq_refl eq_refl ltac:(lia)
    (fun chunks E => match E in _ = r return
       match r with Ok c => len (delivered c).1 <= u32_max * 2 | Err _ => True end
     with eq_refl => ltac:(vm_compute; discriminate) end)) as H.
  change (ensure_filled 2 error_kind fill_start registry_new [x01] fill_meta [] 2
    fill_stream (fun _ => [])) with fill_run in H.
  destruct fill_run as [[r st'] reg']. destruct H as (_ & [Hr Hp] & _ & _ & Hv).
  split; [exact Hr|]. split; [exact Hp|exact Hv].
Defined.
