(* ===== verification/Admin.v ===== *)
(** * The admin surface

    Models [crates/cachic/src/admin/mod.rs] (readiness, the probes, the router)
    and [admin/api.rs] (authentication, stats, services, purge, drain).

    The endpoints work on the shared orchestrator state and on the readiness
    flags.  A reply is its status and what its body says; rendering to JSON and
    HTTP belongs to [axum] and [serde].  The API's state is absent until the
    store is open ([LateApiState]). *)

From S2P Require Import Prelude.
From S2P Require Import RustStr.
From S2P Require Import Codec.
From S2P Require Import Guard.
From S2P Require Import Resolver.
From S2P Require Import Client.
From S2P Require Import Units.
From S2P Require Import Key.
From S2P Require Import SliceCodec.
From S2P Require Import Index.
From S2P Require Import Config.
From S2P Require Import Orchestrator.

Open Scope Z_scope.

(** ** Readiness *)

Record Readiness := mkReadiness {
  rn_store_open : bool;
  rn_listeners_bound : bool;
  rn_draining : bool }.

Definition readiness_new : Readiness := mkReadiness false false false.
Definition set_store_open (r : Readiness) (v : bool) : Readiness :=
  mkReadiness v (rn_listeners_bound r) (rn_draining r).
Definition set_listeners_bound (r : Readiness) (v : bool) : Readiness :=
  mkReadiness (rn_store_open r) v (rn_draining r).
Definition begin_drain (r : Readiness) : Readiness :=
  mkReadiness (rn_store_open r) (rn_listeners_bound r) true.
Definition is_ready (r : Readiness) : bool :=
  negb (rn_draining r) && rn_store_open r && rn_listeners_bound r.

Definition nl (s : string) : str := lit s ++ [x0a].

Definition readyz (r : Readiness) : Z * str :=
  if is_ready r then (200, nl "ready")
  else if rn_draining r then (503, nl "draining") else (503, nl "starting").
Definition healthz : Z * str := (200, nl "ok").

(** ** Authentication *)

Definition AuthToken := option str.

Definition auth_new (token : str) : AuthToken :=
  match token with [] => None | _ => Some token end.

Definition is_configured (t : AuthToken) : bool :=
  match t with Some _ => true | None => false end.

Fixpoint xor_diff (diff : Z) (a b : bytes) : Z :=
  match a, b with
  | x :: a, y :: b => xor_diff (Z.lor diff (Z.lxor (Z_of_byte x) (Z_of_byte y))) a b
  | _, _ => diff
  end.

Definition constant_time_eq (a b : bytes) : bool :=
  if negb (len a =? len b) then false else xor_diff 0 a b =? 0.

Definition permits (t : AuthToken) (headers : HeaderMap) : bool :=
  match t with
  | None => true
  | Some expected =>
      match header_str headers (lit "authorization") with
      | None => false
      | Some value =>
          match strip_prefix (lit "Bearer ") value with
          | None => false
          | Some presented => constant_time_eq presented expected
          end
      end
  end.

(** ** The API *)

Record ApiState := mkApiState {
  ap_token : AuthToken;
  ap_services : list (str * Z);
  ap_configured_disk_bytes : Z;
  ap_min_free_bytes : Z;
  ap_slice_size : Z;
  ap_mutations_need_token : bool }.

Record Stats := mkStats {
  sa_objects : Z;
  sa_indexed_bytes : Z;
  sa_configured_disk_bytes : Z;
  sa_effective_disk_bytes : Z;
  sa_disk_guard_engaged : bool;
  sa_filesystem_total_bytes : Z;
  sa_filesystem_available_bytes : Z;
  sa_min_free_bytes : Z;
  sa_slice_size : Z;
  sa_draining : bool;
  sa_inflight : Z }.

Inductive AdminReply :=
  | RStarting
  | RUnauthorised
  | RForbidden
  | RBadRequest
  | RIndexError
  | RStats (s : Stats)
  | RServices (l : list (str * Z))
  | RPurged (objects_removed slices_removed : Z)
  | RDraining.

Definition reply_status (r : AdminReply) : Z :=
  match r with
  | RStarting => 503 | RUnauthorised => 401 | RForbidden => 403 | RBadRequest => 400
  | RIndexError => 500 | RStats _ | RServices _ | RPurged _ _ => 200 | RDraining => 202
  end.

(** [refuse_unauthenticated_mutation]. *)
Definition refuse_mutation (a : ApiState) : bool :=
  ap_mutations_need_token a && negb (is_configured (ap_token a)).

Record PurgeParams := mkPurgeParams { pp_prefix : option str; pp_all : bool }.

Section Api.
Context {S T : Type} `{Foyer S} `{Redb T}.
Implicit Types st : Orch S T.

Definition stats (late : option ApiState) (headers : HeaderMap) st (disk : option DiskSpace)
    (draining : bool) (inflight : Z) : AdminReply :=
  match late with
  | None => RStarting
  | Some a =>
      if negb (permits (ap_token a) headers) then RUnauthorised else
      let objects := unwrap_or (index_len (or_index st)) 0 in
      let indexed_bytes := unwrap_or (index_total_bytes (or_index st)) 0 in
      let disk := default (mkDiskSpace 0 0) disk in
      let effective := effective_cap (ap_configured_disk_bytes a) (ap_min_free_bytes a) indexed_bytes disk in
      RStats (mkStats objects indexed_bytes (ap_configured_disk_bytes a) effective
        (is_engaged (ap_configured_disk_bytes a) effective) (ds_total disk) (ds_available disk)
        (ap_min_free_bytes a) (ap_slice_size a) draining inflight)
  end.

Definition services (late : option ApiState) (headers : HeaderMap) : AdminReply :=
  match late with
  | None => RStarting
  | Some a => if negb (permits (ap_token a) headers) then RUnauthorised else RServices (ap_services a)
  end.

(** [u64::div_ceil]. *)
Definition div_ceil (a b : Z) : Z := if a mod b =? 0 then a / b else a / b + 1.

Definition slice_count (slice_size : Z) (meta : ObjectMeta) : Z :=
  if om_total_len meta =? 0 then 0 else div_ceil (om_total_len meta) slice_size.

(** One object: its slices of the current generation, then its entry.  The
    slice counter is a [u64] cast to [u32] for the key. *)
Definition purge_one (slice_size : Z) st (id : ObjectId) : Orch S T * Z :=
  let '(s, removed) :=
    match index_get (or_index st) id with
    | Ok (Some meta) =>
        let count := slice_count slice_size meta in
        (foldl (fun s i => foyer_remove s (mkSliceKey id (om_generation meta) (wrap32 i)))
           (or_store st) (seqZ 0 count), count)
    | _ => (or_store st, 0)
    end in
  let t := match index_remove (or_index st) id with Ok t => t | Err _ => or_index st end in
  (mkOrch s t (or_cells st) (or_heap st), removed).

Definition purge_ids (slice_size : Z) st (ids : list ObjectId) : Orch S T * Z :=
  foldl (fun acc id =>
    let '(st, n) := purge_one slice_size acc.1 id in (st, wrap64 (acc.2 + n))) (st, 0) ids.

Definition purge (late : option ApiState) (headers : HeaderMap) (params : PurgeParams) st
    : AdminReply * Orch S T :=
  match late with
  | None => (RStarting, st)
  | Some a =>
      if negb (permits (ap_token a) headers) then (RUnauthorised, st)
      else if refuse_mutation a then (RForbidden, st)
      else
        match (match pp_prefix params, pp_all params with
               | Some prefix, _ => Some (index_ids_with_prefix (or_index st) prefix)
               | None, true => Some (index_all_ids (or_index st))
               | None, false => None
               end) with
        | None => (RBadRequest, st)
        | Some (Err _) => (RIndexError, st)
        | Some (Ok ids) =>
            let '(st, removed) := purge_ids (ap_slice_size a) st ids in
            (RPurged (len ids) removed, st)
        end
  end.

Definition drain (late : option ApiState) (headers : HeaderMap) (r : Readiness) : AdminReply * Readiness :=
  match late with
  | None => (RStarting, r)
  | Some a =>
      if negb (permits (ap_token a) headers) then (RUnauthorised, r)
      else if refuse_mutation a then (RForbidden, r)
      else (RDraining, begin_drain r)
  end.
End Api.

(** ** Only the authorised change anything *)

Lemma xor_diff_lor diff a b : xor_diff diff a b = Z.lor diff (xor_diff 0 a b).
Proof.
  revert diff b. induction a as [|x a IH]; intros diff [|y b]; cbn [xor_diff]; [by rewrite Z.lor_0_r..|].
  rewrite IH, (IH (Z.lor 0 _)), Z.lor_0_l. by rewrite Z.lor_assoc.
Qed.

Lemma constant_time_eq_spec a b : constant_time_eq a b = true <-> a = b.
Proof.
  unfold constant_time_eq. split.
  - destruct (Z.eqb_spec (len a) (len b)) as [Hl|]; [|done]. cbn [negb]. rewrite Z.eqb_eq.
    revert b Hl. induction a as [|x a IH]; intros [|y b] Hl; [done|done|done|].
    rewrite !len_cons in Hl. cbn [xor_diff]. rewrite xor_diff_lor, Z.lor_0_l.
    intros [Hx Ha]%Z.lor_eq_0_iff. apply Z.lxor_eq, Z_of_byte_inj in Hx as ->.
    f_equal. apply IH; [lia|done].
  - intros ->. rewrite Z.eqb_refl. cbn [negb]. apply Z.eqb_eq.
    induction b as [|x b IH]; [done|]. cbn [xor_diff]. by rewrite Z.lxor_nilpotent.
Qed.

(** A request that carries the token. *)
Definition authorised (t : AuthToken) (headers : HeaderMap) : Prop :=
  exists token, t = Some token /\
    header_str headers (lit "authorization") = Some (lit "Bearer " ++ token).

Lemma permits_spec t headers : permits t headers = true <-> t = None \/ authorised t headers.
Proof.
  unfold permits, authorised. destruct t as [token|]; [|by split; [left|]]. split.
  - destruct (header_str _ _) as [v|]; [|done].
    destruct (strip_prefix (lit "Bearer ") v) as [p|] eqn:E; [|done].
    intros ->%constant_time_eq_spec. right. exists token. split; [done|]. f_equal.
    by apply strip_prefix_Some in E.
  - intros [|(t' & [= <-] & ->)]; [done|]. rewrite (proj2 (strip_prefix_Some _ _ token)) by done.
    by apply constant_time_eq_spec.
Qed.

Section ApiFacts.
Context {S T : Type} `{FoyerLaws S} `{RedbLaws T}.
Implicit Types st : Orch S T.

(** What lets a request change the cache or the readiness. *)
Definition may_mutate (late : option ApiState) (headers : HeaderMap) : Prop :=
  exists a, late = Some a /\
    (authorised (ap_token a) headers \/ (ap_token a = None /\ ap_mutations_need_token a = false)).

Lemma gate_spec a headers :
  permits (ap_token a) headers = true -> refuse_mutation a = false -> may_mutate (Some a) headers.
Proof using Type.
  intros Hp Hr. exists a. split; [done|]. apply permits_spec in Hp as [Hn|Ha]; [|by left].
  right. split; [done|]. unfold refuse_mutation in Hr. rewrite Hn in Hr.
  by destruct (ap_mutations_need_token a).
Qed.

(** C28: nothing unauthenticated changes state.  If a purge or a drain request
    changes anything, or is answered with success, then the request carried
    exactly the configured token, or no token is configured and the API is
    bound to loopback.  Before the store is open, and in every other case, the
    cache and the readiness are as before.  Reading the statistics and the
    services needs the token whenever one is configured. *)
Theorem mutation_needs_authority late headers params st r disk draining inflight :
  let '(reply, st') := purge late headers params st in
  let '(reply', r') := drain late headers r in
  (st' <> st \/ reply_status reply < 300 -> may_mutate late headers) /\
  (r' <> r \/ reply_status reply' < 300 -> may_mutate late headers) /\
  (reply_status (stats late headers st disk draining inflight) < 300 \/
   reply_status (services late headers) < 300 ->
     exists a, late = Some a /\ (ap_token a = None \/ authorised (ap_token a) headers)).
Proof using Type.
  unfold purge, drain, stats, services. destruct late as [a|].
  2: { repeat split; intros [Hx|Hx]; by cbn in Hx. }
  destruct (permits (ap_token a) headers) eqn:Ep; cbn [negb].
  2: { repeat split; intros [Hx|Hx]; by cbn in Hx. }
  assert (exists a0, Some a = Some a0 /\ (ap_token a0 = None \/ authorised (ap_token a0) headers)) as Hread
    by (exists a; split; [done|by apply permits_spec]).
  destruct (refuse_mutation a) eqn:Er.
  { repeat split; intros [Hx|Hx]; by cbn in Hx. }
  pose proof (gate_spec a headers Ep Er) as Hm.
  destruct (match pp_prefix params, pp_all params with Some _, _ => _ | None, true => _ | None, false => _ end)
    as [[ids|e]|]; try (by split_and!).
  destruct (purge_ids _ _ _). by split_and!.
Qed.
End ApiFacts.

(** ** What a purge does *)

Section PurgeFacts.
Context {S T : Type} `{FoyerLaws S} `{RedbLaws T}.
Implicit Types st : Orch S T.

Lemma foldl_remove_held (s : S) (ks : list Z) key k :
  held (foldl (fun s i => foyer_remove s (key i)) s ks) ⊆ held s /\
  ((exists i, i ∈ ks /\ k = key i) ->
     held (foldl (fun s i => foyer_remove s (key i)) s ks) !! k = None).
Proof using Type.
  revert s. induction ks as [|i ks IH]; intros s; cbn [foldl].
  - split; [done|]. intros (i & Hi & _). by apply not_elem_of_nil in Hi.
  - destruct (IH (foyer_remove s (key i))) as [Hsub Hgone]. pose proof (held_remove s (key i)) as Hr.
    split; [etrans; [exact Hsub|]; etrans; [exact Hr|apply delete_subseteq]|].
    intros (j & [->|Hj]%elem_of_cons & ->); [|apply Hgone; by exists j].
    apply lookup_weaken_None with (m2 := delete (key i) (held s)); [apply lookup_delete_eq|].
    by etrans.
Qed.

(** The slices of an object's current generation. *)
Definition is_slice_of (slice_size : Z) (m : IndexSpec) (id : ObjectId) (k : SliceKey) : Prop :=
  exists meta i, m !! id = Some meta /\ in_u 32 i /\ i * slice_size < om_total_len meta /\
    k = mkSliceKey id (om_generation meta) i.

Lemma slice_count_covers slice_size meta i :
  0 < slice_size -> 0 <= om_total_len meta -> 0 <= i -> i * slice_size < om_total_len meta ->
  i ∈ seqZ 0 (slice_count slice_size meta).
Proof using Type.
  intros Hs Ht Hi Hlt. unfold slice_count. destruct (Z.eqb_spec (om_total_len meta) 0); [nia|].
  apply elem_of_seqZ. split; [lia|]. unfold div_ceil.
  pose proof (Z.div_mod (om_total_len meta) slice_size ltac:(lia)).
  pose proof (Z.mod_pos_bound (om_total_len meta) slice_size Hs).
  destruct (Z.eqb_spec (om_total_len meta mod slice_size) 0); nia.
Qed.

Lemma purge_one_spec slice_size st m id :
  0 < slice_size -> index_rel (or_index st) m ->
  let st' := (purge_one slice_size st id).1 in
  index_rel (or_index st') (delete id m) /\
  held (or_store st') ⊆ held (or_store st) /\
  (forall k, is_slice_of slice_size m id k -> held (or_store st') !! k = None) /\
  or_cells st' = or_cells st /\ or_heap st' = or_heap st.
Proof using Type.
  intros Hs Hrel. unfold purge_one. rewrite (rel_get _ m id Hrel).
  destruct (rel_remove _ m id Hrel) as (t' & -> & Hrel').
  destruct (m !! id) as [meta|] eqn:Em; cbn.
  - split; [done|]. split; [by apply (foldl_remove_held _ _ _ (mkSliceKey id 0 0))|]. split; [|done].
    intros k (meta' & i & Hm & Hi & Hlt & ->). assert (meta' = meta) as -> by congruence.
    apply (foldl_remove_held _ _ _ (mkSliceKey id (om_generation meta) i)). exists i.
    split; [|unfold in_u in Hi; by rewrite wrap_small].
    apply slice_count_covers; [done| |unfold in_u in Hi; lia|done].
    destruct Hrel as (_ & _ & Hok). apply Hok in Em as (Ht & _). unfold in_u in Ht. lia.
  - split; [done|]. split; [done|]. split; [|done]. intros k (meta' & i & Hm & _). congruence.
Qed.

Lemma purge_ids_spec slice_size st m ids n0 :
  0 < slice_size -> index_rel (or_index st) m -> NoDup ids ->
  let st' := (foldl (fun acc id => let '(st, n) := purge_one slice_size acc.1 id in (st, wrap64 (acc.2 + n)))
                (st, n0) ids).1 in
  index_rel (or_index st') (foldr delete m ids) /\
  held (or_store st') ⊆ held (or_store st) /\
  (forall id k, id ∈ ids -> is_slice_of slice_size m id k -> held (or_store st') !! k = None) /\
  or_cells st' = or_cells st /\ or_heap st' = or_heap st.
Proof using Type.
  intros Hs. revert st m n0. induction ids as [|id ids IH]; intros st m n0 Hrel Hnd; cbn [foldl].
  { repeat (split; [done|]). split; [|done]. intros id k Hid. by apply not_elem_of_nil in Hid. }
  apply NoDup_cons in Hnd as [Hni Hnd].
  destruct (purge_one_spec slice_size st m id Hs Hrel) as (Hr1 & Hh1 & Hg1 & Hc1 & Hp1).
  cbn [fst snd]. destruct (purge_one slice_size st id) as [st1 n1]. cbn [fst snd] in *.
  destruct (IH st1 (delete id m) (wrap64 (n0 + n1)) Hr1 Hnd) as (Hr & Hh & Hg & Hc & Hp).
  split.
  { cbn [foldr]. assert (foldr delete (delete id m) ids = delete id (foldr delete m ids)) as Hfd; [|by rewrite <- Hfd].
    clear. induction ids as [|j ids IH]; [done|]. cbn [foldr]. by rewrite IH, delete_delete. }
  split; [by etrans|]. split; [|split; congruence].
  intros id' k [->|Hin]%elem_of_cons Hk.
  - eapply lookup_weaken_None; [by apply Hg1|done].
  - apply (Hg id'); [done|]. destruct Hk as (meta & i & Hm & Hrest). exists meta, i. split; [|done].
    rewrite lookup_delete_ne; [done|]. intros ->. done.
Qed.

Lemma foldr_delete_filter (m : IndexSpec) (P : ObjectId * ObjectMeta -> bool) l :
  l ≡ₚ (map_to_list (filter (fun x => P x = true) m)).*1 ->
  foldr delete m l = filter (fun x => P x = false) m.
Proof using Type.
  intros Hl. apply map_eq. intros i.
  assert (forall l (m : IndexSpec), foldr delete m l !! i = if decide (i ∈ l) then None else m !! i) as Hf.
  { clear. induction l as [|j l IH]; intros m; cbn [foldr]; [by rewrite decide_False by apply not_elem_of_nil|].
    destruct (decide (j = i)) as [->|Hne].
    - rewrite lookup_delete_eq, decide_True by (by left). done.
    - rewrite lookup_delete_ne, IH by done. destruct (decide (i ∈ l)), (decide (i ∈ j :: l)) as [H|H]; try done.
      + exfalso. apply H. by right.
      + apply elem_of_cons in H as [->|]; done. }
  rewrite Hf. destruct (decide (i ∈ l)) as [Hin|Hin]; rewrite Hl in Hin.
  - apply list_elem_of_fmap in Hin as ([j x] & -> & Hx%elem_of_map_to_list). cbn.
    apply map_lookup_filter_Some in Hx as [Hm Hp]. symmetry. apply map_lookup_filter_None. right.
    intros x' Hx'. rewrite Hm in Hx'. injection Hx' as <-. congruence.
  - destruct (m !! i) as [x|] eqn:Em; symmetry; [|by apply map_lookup_filter_None; left].
    apply map_lookup_filter_Some. split; [done|]. destruct (P (i, x)) eqn:Ep; [|done].
    exfalso. apply Hin. apply list_elem_of_fmap. exists (i, x). split; [done|].
    apply elem_of_map_to_list, map_lookup_filter_Some. done.
Qed.

(** C29: a purge by prefix does what it says.  Once authorised, it answers with
    the number of objects whose key starts with the prefix; the index then
    holds exactly the other entries; of the purged objects no slice of the
    current generation is left in the store, of whatever size the object was,
    and nothing was added.  (The orchestrator's cells are not touched.) *)
Theorem purge_removes_exactly a headers prefix all st m :
  0 < ap_slice_size a -> index_rel (or_index st) m ->
  permits (ap_token a) headers = true -> refuse_mutation a = false ->
  let '(reply, st') := purge (Some a) headers (mkPurgeParams (Some prefix) all) st in
  (exists n, reply = RPurged (Z.of_nat (size (filter (fun x => has_prefix prefix x = true) m))) n) /\
  index_rel (or_index st') (filter (fun x => has_prefix prefix x = false) m) /\
  held (or_store st') ⊆ held (or_store st) /\
  (forall id meta k, m !! id = Some meta -> has_prefix prefix (id, meta) = true ->
     is_slice_of (ap_slice_size a) m id k -> held (or_store st') !! k = None) /\
  or_cells st' = or_cells st.
Proof using Type.
  intros Hs Hrel Hp Hr. unfold purge. rewrite Hp, Hr. cbn [negb pp_prefix pp_all].
  destruct (rel_ids_with_prefix _ m prefix Hrel) as (ids & -> & Hids).
  assert (NoDup ids) as Hnd by (rewrite Hids; apply NoDup_fst_map_to_list).
  pose proof (purge_ids_spec (ap_slice_size a) st m ids 0 Hs Hrel Hnd) as Hspec.
  unfold purge_ids. destruct (foldl _ (st, 0) ids) as [st' removed]. cbn [fst] in Hspec.
  destruct Hspec as (Hr' & Hh & Hg & Hc & _). rewrite (foldr_delete_filter m (has_prefix prefix) ids Hids) in Hr'.
  split; [exists removed; f_equal; unfold len; f_equal; by rewrite Hids, length_fmap, length_map_to_list|].
  split; [done|]. split; [done|]. split; [|done].
  intros id meta k Hm Hpre. apply Hg. rewrite Hids. apply list_elem_of_fmap. exists (id, meta).
  split; [done|]. apply elem_of_map_to_list, map_lookup_filter_Some. done.
Qed.
End PurgeFacts.

(** ** Witnesses *)

Definition toy_api : ApiState := mkApiState (Some (lit "s3cret")) [] 0 0 2 true.
Definition toy_auth : HeaderMap := [(lit "authorization", lit "Bearer s3cret")].
Definition toy_cache : Orch (gmap SliceKey SliceValue) (gmap ObjectId bytes) :=
  mkOrch ∅ {[ [x01] := object_meta_encode toy_meta ]} ∅ [].

Lemma toy_cache_rel : index_rel (or_index toy_cache) {[ [x01] := toy_meta ]}.
Proof.
  split; [done|]. split; [cbn; by rewrite map_fmap_singleton|].
  apply map_Forall_singleton. apply toy_meta_ok.
Qed.

Lemma purge_removes_exactly_witness :
  let '(reply, st') := purge (Some toy_api) toy_auth (mkPurgeParams (Some (lit "/")) false) toy_cache in
  reply_status reply = 200 /\ held (or_store st') ⊆ held (or_store toy_cache).
Proof.
  pose proof (purge_removes_exactly toy_api toy_auth (lit "/") false toy_cache {[ [x01] := toy_meta ]}
    ltac:(reflexivity) toy_cache_rel ltac:(reflexivity) ltac:(reflexivity)) as H.
  destruct (purge _ _ _ _) as [reply st']. destruct H as ((n & ->) & _ & Hh & _). by split.
Defined.

(** An empty prefix is a prefix of every key: it empties the cache although
    [all] was not given. *)
Lemma empty_prefix_purges_everything {S T} `{FoyerLaws S} `{RedbLaws T} (st : Orch S T) :
  purge (Some toy_api) toy_auth (mkPurgeParams (Some []) false) st =
  purge (Some toy_api) toy_auth (mkPurgeParams None true) st.
Proof. reflexivity. Qed.

(** The drain endpoint fails readiness only; what [stats] reports as draining
    is the flag of the shutdown drain, which it does not set. *)
Lemma drain_endpoint_readiness_only a headers r :
  permits (ap_token a) headers = true -> refuse_mutation a = false ->
  drain (Some a) headers r = (RDraining, begin_drain r) /\ is_ready (begin_drain r) = false.
Proof. intros Hp Hr. unfold drain. by rewrite Hp, Hr. Qed.
