(* ===== verification/Limits.v ===== *)
(** * Connection limits and graceful shutdown

    Models [crates/cachic/src/proxy/limits.rs] (the global and per-peer bound on
    open connections), [proxy/shutdown.rs] (the drain) and
    [proxy/heartbeat.rs].

    Both structures are shared by all connection tasks.  A step of the
    transition systems below is one atomic action of the source: a critical
    section of the peer map, the successful compare-and-swap of the global
    count, a load or an update of an atomic.  (The compare-and-swap loop
    retries until it succeeds on the value it read or finds the limit reached,
    so it acts at that one moment.) *)

From S2P Require Import Prelude.
From S2P Require Import RustStr.
From S2P Require Import Guard.
From S2P Require Import Resolver.
From S2P Require Import Client.
From S2P Require Import Headers.

Open Scope Z_scope.

(** ** Connections *)

Record ConnectionLimit := mkConnectionLimit {
  cl_open : Z;
  cl_max : Z;
  cl_rejected : Z;
  cl_per_peer : option Z;
  cl_peers : gmap IpAddr Z;
  cl_rejected_per_peer : Z }.

Definition limit_new (max : Z) : ConnectionLimit := mkConnectionLimit 0 max 0 None ∅ 0.
Definition limit_with_per_peer (max per_peer : Z) : ConnectionLimit :=
  mkConnectionLimit 0 max 0 (Some per_peer) ∅ 0.

(** A permit remembers the peer it was attributed to. *)
Abbreviation Permit := (option IpAddr).

Definition set_peers (l : ConnectionLimit) (p : gmap IpAddr Z) : ConnectionLimit :=
  mkConnectionLimit (cl_open l) (cl_max l) (cl_rejected l) (cl_per_peer l) p (cl_rejected_per_peer l).

(** Decrement a peer's count, dropping the entry at zero. *)
Definition give_back (l : ConnectionLimit) (peer : IpAddr) : ConnectionLimit :=
  match cl_peers l !! peer with
  | Some count =>
      set_peers l (if count - 1 =? 0 then delete peer (cl_peers l)
                   else <[peer := count - 1]> (cl_peers l))
  | None => l
  end.

Definition acquire_global (l : ConnectionLimit) : bool * ConnectionLimit :=
  if cl_max l <=? cl_open l then
    (false, mkConnectionLimit (cl_open l) (cl_max l) (wrap64 (cl_rejected l + 1)) (cl_per_peer l)
              (cl_peers l) (cl_rejected_per_peer l))
  else
    (true, mkConnectionLimit (cl_open l + 1) (cl_max l) (cl_rejected l) (cl_per_peer l)
             (cl_peers l) (cl_rejected_per_peer l)).

(** The first critical section of [try_acquire_for]. *)
Definition claim_peer (l : ConnectionLimit) (per_peer : Z) (peer : IpAddr) : bool * ConnectionLimit :=
  let count := default 0 (cl_peers l !! peer) in
  if per_peer <=? count then
    (false, mkConnectionLimit (cl_open l) (cl_max l) (wrap64 (cl_rejected l + 1)) (cl_per_peer l)
              (if count =? 0 then delete peer (cl_peers l) else <[peer := count]> (cl_peers l))
              (wrap64 (cl_rejected_per_peer l + 1)))
  else (true, set_peers l (<[peer := count + 1]> (cl_peers l))).

(** [try_acquire_for] when nothing runs in between. *)
Definition try_acquire_for (l : ConnectionLimit) (peer : IpAddr) : option Permit * ConnectionLimit :=
  match cl_per_peer l with
  | Some per_peer =>
      match claim_peer l per_peer peer with
      | (false, l) => (None, l)
      | (true, l) =>
          match acquire_global l with
          | (true, l) => (Some (Some peer), l)
          | (false, l) => (None, give_back l peer)
          end
      end
  | None => let '(ok, l) := acquire_global l in (if ok then Some None else None, l)
  end.

Definition try_acquire (l : ConnectionLimit) : option Permit * ConnectionLimit :=
  let '(ok, l) := acquire_global l in (if ok then Some None else None, l).

(** [drop]: the global slot, then the peer's. *)
Definition release_open (l : ConnectionLimit) : ConnectionLimit :=
  mkConnectionLimit (wrap64 (cl_open l - 1)) (cl_max l) (cl_rejected l) (cl_per_peer l)
    (cl_peers l) (cl_rejected_per_peer l).
Definition drop_permit (l : ConnectionLimit) (p : Permit) : ConnectionLimit :=
  let l := release_open l in
  match p with Some peer => give_back l peer | None => l end.

(** *** Interleavings *)

(** The permits held, the tasks between claiming a peer slot and the global
    one, and the tasks in [drop] between the two releases. *)
Record LimitSys := mkLimitSys {
  ls_limit : ConnectionLimit;
  ls_permits : list Permit;
  ls_claiming : list IpAddr;
  ls_dropping : list IpAddr }.

Inductive limit_step : LimitSys -> LimitSys -> Prop :=
  | lim_claim_ok l l' ps cs ds per_peer peer :
      cl_per_peer l = Some per_peer -> claim_peer l per_peer peer = (true, l') ->
      limit_step (mkLimitSys l ps cs ds) (mkLimitSys l' ps (peer :: cs) ds)
  | lim_claim_refused l l' ps cs ds per_peer peer :
      cl_per_peer l = Some per_peer -> claim_peer l per_peer peer = (false, l') ->
      limit_step (mkLimitSys l ps cs ds) (mkLimitSys l' ps cs ds)
  | lim_global_ok l l' ps pre peer post ds :
      acquire_global l = (true, l') ->
      limit_step (mkLimitSys l ps (pre ++ peer :: post) ds)
                 (mkLimitSys l' (Some peer :: ps) (pre ++ post) ds)
  | lim_global_refused l l' ps pre peer post ds :
      acquire_global l = (false, l') ->
      limit_step (mkLimitSys l ps (pre ++ peer :: post) ds)
                 (mkLimitSys l' ps (pre ++ post) (peer :: ds))
  | lim_unattributed l l' ok ps cs ds :
      acquire_global l = (ok, l') ->
      limit_step (mkLimitSys l ps cs ds) (mkLimitSys l' (if ok then None :: ps else ps) cs ds)
  | lim_drop l pre p post cs ds :
      limit_step (mkLimitSys l (pre ++ p :: post) cs ds)
                 (mkLimitSys (release_open l) (pre ++ post) cs (option_list p ++ ds))
  | lim_give_back l ps cs pre peer post :
      limit_step (mkLimitSys l ps cs (pre ++ peer :: post))
                 (mkLimitSys (give_back l peer) ps cs (pre ++ post)).

(** Slots a peer uses: its permits, its claims in progress and the ones being
    given back. *)
Definition permits_of (peer : IpAddr) (ps : list Permit) : Z :=
  len (filter (fun p => (p = Some peer)) ps).
Definition claims_of (peer : IpAddr) (cs : list IpAddr) : Z :=
  len (filter (fun c => (c = peer)) cs).
Definition used (s : LimitSys) (peer : IpAddr) : Z :=
  permits_of peer (ls_permits s) + claims_of peer (ls_claiming s) + claims_of peer (ls_dropping s).

(** The peer map counts exactly the slots in use, and has no zero entry. *)
Definition counts (m : gmap IpAddr Z) (f : IpAddr -> Z) : Prop :=
  forall peer, default 0 (m !! peer) = f peer /\ forall c, m !! peer = Some c -> 0 < c.

Definition limit_inv (max : Z) (per_peer : option Z) (s : LimitSys) : Prop :=
  let l := ls_limit s in
  cl_max l = max /\ cl_per_peer l = per_peer /\
  cl_open l = len (ls_permits s) /\ cl_open l <= max /\
  counts (cl_peers l) (used s) /\
  (forall n peer, per_peer = Some n -> used s peer <= Z.max n 0).

Lemma permits_of_app peer a b : permits_of peer (a ++ b) = permits_of peer a + permits_of peer b.
Proof. unfold permits_of. by rewrite filter_app, len_app. Qed.
Lemma permits_of_cons peer p ps :
  permits_of peer (p :: ps) = (if decide (p = Some peer) then 1 else 0) + permits_of peer ps.
Proof. unfold permits_of. rewrite filter_cons. destruct (decide _); unfold len; simpl; lia. Qed.
Lemma claims_of_app peer a b : claims_of peer (a ++ b) = claims_of peer a + claims_of peer b.
Proof. unfold claims_of. by rewrite filter_app, len_app. Qed.
Lemma claims_of_cons peer p ps :
  claims_of peer (p :: ps) = (if decide (p = peer) then 1 else 0) + claims_of peer ps.
Proof. unfold claims_of. rewrite filter_cons. destruct (decide _); unfold len; simpl; lia. Qed.
Lemma permits_of_nonneg peer ps : 0 <= permits_of peer ps.
Proof. apply len_nonneg. Qed.
Lemma claims_of_nonneg peer ps : 0 <= claims_of peer ps.
Proof. apply len_nonneg. Qed.

Lemma option_list_claims peer p ds :
  claims_of peer (option_list p ++ ds) = (if decide (p = Some peer) then 1 else 0) + claims_of peer ds.
Proof.
  destruct p as [q|]; simpl; [|by destruct (decide (None = Some peer))]. rewrite claims_of_cons.
  destruct (decide (q = peer)), (decide (Some q = Some peer)); congruence || lia.
Qed.

Lemma counts_give_back l peer f :
  counts (cl_peers l) f -> 0 < f peer ->
  counts (cl_peers (give_back l peer)) (fun q => f q - (if decide (peer = q) then 1 else 0)).
Proof.
  intros Hc Hp. destruct (Hc peer) as [Hcp _]. unfold give_back.
  destruct (cl_peers l !! peer) as [n|] eqn:E; [|cbn in Hcp; lia].
  cbn in Hcp. intros q. destruct (Hc q) as [Hq Hq']. cbn [cl_peers set_peers].
  destruct (Z.eqb_spec (n - 1) 0), (decide (peer = q)) as [<-|Hne].
  - rewrite lookup_delete_eq. cbn. split; [lia|done].
  - rewrite lookup_delete_ne by done. split; [lia|done].
  - rewrite lookup_insert_eq. cbn. split; [lia|intros c [= <-]; lia].
  - rewrite lookup_insert_ne by done. split; [lia|done].
Qed.

Lemma counts_claim l n peer f b l' :
  counts (cl_peers l) f -> (forall q, 0 <= f q) -> claim_peer l n peer = (b, l') ->
  counts (cl_peers l') (fun q => f q + (if b && bool_decide (peer = q) then 1 else 0)) /\
  (b = true -> f peer < n) /\
  cl_open l' = cl_open l /\ cl_max l' = cl_max l /\ cl_per_peer l' = cl_per_peer l.
Proof.
  intros Hc Hpos. destruct (Hc peer) as [Hcp _]. unfold claim_peer. rewrite Hcp.
  destruct (Z.leb_spec n (f peer)); intros [= <- <-]; (split; [|done]); cbn [cl_peers set_peers andb];
    intros q; destruct (Hc q) as [Hq Hq'].
  - destruct (Z.eqb_spec (f peer) 0) as [E0|], (decide (peer = q)) as [<-|Hne].
    + rewrite lookup_delete_eq. cbn. split; [lia|done].
    + rewrite lookup_delete_ne by done. split; [lia|done].
    + rewrite lookup_insert_eq. cbn. specialize (Hpos peer). split; [lia|intros c [= <-]; lia].
    + rewrite lookup_insert_ne by done. split; [lia|done].
  - case_bool_decide as Heq.
    + subst q. rewrite lookup_insert_eq. cbn. specialize (Hpos peer).
      split; [lia|intros c [= <-]; lia].
    + rewrite lookup_insert_ne by done. split; [lia|done].
Qed.

Lemma counts_proper m f g : (forall q, f q = g q) -> counts m f -> counts m g.
Proof. intros Hfg Hc q. rewrite <- Hfg. apply Hc. Qed.

Lemma used_nonneg s peer : 0 <= used s peer.
Proof.
  unfold used. pose proof (permits_of_nonneg peer (ls_permits s)).
  pose proof (claims_of_nonneg peer (ls_claiming s)).
  pose proof (claims_of_nonneg peer (ls_dropping s)). lia.
Qed.

Lemma acquire_global_spec l b l' :
  acquire_global l = (b, l') ->
  cl_open l' = cl_open l + (if b then 1 else 0) /\ (b = true -> cl_open l < cl_max l) /\
  cl_max l' = cl_max l /\ cl_per_peer l' = cl_per_peer l /\ cl_peers l' = cl_peers l.
Proof.
  unfold acquire_global. destruct (Z.leb_spec (cl_max l) (cl_open l)); intros [= <- <-]; cbn;
    repeat split; lia || done.
Qed.

Lemma give_back_same l peer :
  cl_open (give_back l peer) = cl_open l /\ cl_max (give_back l peer) = cl_max l /\
  cl_per_peer (give_back l peer) = cl_per_peer l.
Proof. unfold give_back. by destruct (cl_peers l !! peer). Qed.

Ltac slots :=
  unfold used in *; cbn [ls_permits ls_claiming ls_dropping] in *;
  repeat first [rewrite permits_of_app in * | rewrite permits_of_cons in *
    | rewrite option_list_claims in * | rewrite claims_of_app in * | rewrite claims_of_cons in *].

Lemma limit_step_inv max per_peer s s' :
  in_u 64 max -> limit_inv max per_peer s -> limit_step s s' -> limit_inv max per_peer s'.
Proof.
  intros Hm (H1 & H2 & H3 & H4 & H5 & H6) Hst.
  destruct Hst as [l l' ps cs ds n peer Hn Hc|l l' ps cs ds n peer Hn Hc|l l' ps pre peer post ds Ha
    |l l' ps pre peer post ds Ha|l l' ok ps cs ds Ha|l pre p post cs ds|l ps cs pre peer post];
    unfold limit_inv in *; cbn [ls_limit ls_permits ls_claiming ls_dropping] in *.
  - apply (counts_claim _ _ _ _ _ _ H5 (used_nonneg _)) in Hc as (Hc & Hlt & -> & -> & ->).
    specialize (Hlt eq_refl). do 4 (split; [lia || congruence|]). split.
    + eapply counts_proper; [|exact Hc]. intros q. slots. cbn [andb].
      case_bool_decide; destruct (decide (peer = q)); congruence || lia.
    + intros n' q Hq. specialize (H6 n' q Hq). slots. destruct (decide (peer = q)) as [<-|]; [|lia].
      assert (n' = n) as -> by congruence. lia.
  - apply (counts_claim _ _ _ _ _ _ H5 (used_nonneg _)) in Hc as (Hc & _ & -> & -> & ->).
    do 4 (split; [lia || congruence|]). split; [|done].
    eapply counts_proper; [|exact Hc]. intros q. cbn [andb]. slots. lia.
  - apply acquire_global_spec in Ha as (-> & Hlt & -> & -> & ->). specialize (Hlt eq_refl).
    do 2 (split; [done|]). split; [unfold len in *; simpl; lia|]. split; [lia|]. split.
    + eapply counts_proper; [|exact H5]. intros q. slots.
      destruct (decide (peer = q)), (decide (Some peer = Some q)); congruence || lia.
    + intros n' q Hq. specialize (H6 n' q Hq). slots.
      destruct (decide (peer = q)), (decide (Some peer = Some q)); congruence || lia.
  - apply acquire_global_spec in Ha as (-> & _ & -> & -> & ->).
    do 2 (split; [done|]). split; [lia|]. split; [lia|]. split.
    + eapply counts_proper; [|exact H5]. intros q. slots. lia.
    + intros n' q Hq. specialize (H6 n' q Hq). slots. lia.
  - apply acquire_global_spec in Ha as (-> & Hlt & -> & -> & ->).
    do 2 (split; [done|]). destruct ok.
    + specialize (Hlt eq_refl). split; [unfold len in *; simpl; lia|]. split; [lia|]. split.
      * eapply counts_proper; [|exact H5]. intros q. slots. destruct (decide _); [done|lia].
      * intros n' q Hq. specialize (H6 n' q Hq). slots. destruct (decide _); [done|lia].
    + do 2 (split; [lia|]). done.
  - rewrite len_app, len_cons in H3. pose proof (len_nonneg pre). pose proof (len_nonneg post).
    cbn [release_open cl_open cl_max cl_per_peer cl_peers]. rewrite wrap_small by (unfold in_u in Hm; width).
    do 2 (split; [done|]). rewrite len_app. split; [lia|]. split; [lia|]. split.
    + eapply counts_proper; [|exact H5]. intros q. slots. lia.
    + intros n' q Hq. specialize (H6 n' q Hq). slots. lia.
  - destruct (give_back_same l peer) as (-> & -> & ->). do 4 (split; [done|]). split.
    + eapply counts_proper; [|apply (counts_give_back l peer _ H5)]; [intros q; slots; lia|].
      pose proof (used_nonneg (mkLimitSys l ps cs (pre ++ post)) peer). slots.
      destruct (decide (peer = peer)); [lia|done].
    + intros n' q Hq. specialize (H6 n' q Hq). slots. destruct (decide (peer = q)); lia.
Qed.

Definition limit_init (max : Z) (per_peer : option Z) : LimitSys :=
  mkLimitSys (match per_peer with
              | Some n => limit_with_per_peer max n
              | None => limit_new max
              end) [] [] [].

Lemma limit_init_inv max per_peer : 0 <= max -> limit_inv max per_peer (limit_init max per_peer).
Proof.
  intros Hm.
  assert (counts ∅ (used (limit_init max per_peer))) as Hc.
  { intros peer. rewrite lookup_empty. by split. }
  unfold limit_inv. split; [by destruct per_peer|]. split; [by destruct per_peer|].
  split; [by destruct per_peer|]. split; [by destruct per_peer|]. split; [by destruct per_peer|].
  intros n peer _. change (0 <= Z.max n 0). lia.
Qed.

Lemma limit_reachable_inv max per_peer s :
  in_u 64 max -> rtc limit_step (limit_init max per_peer) s -> limit_inv max per_peer s.
Proof.
  intros Hm Hr. assert (limit_inv max per_peer (limit_init max per_peer)) as Hi.
  { apply limit_init_inv. unfold in_u in Hm. lia. }
  induction Hr as [|a b c Hs _ IH]; [done|]. apply IH. by eapply limit_step_inv.
Qed.

(** The connection limits hold under every interleaving of accepts and
    drops: the open count is the number of permits out and never exceeds the
    ceiling, no peer holds more than its share, and the peer map has an entry
    exactly for the peers that use a slot. *)
Theorem connection_limits_hold max per_peer s :
  in_u 64 max -> rtc limit_step (limit_init max per_peer) s ->
  cl_open (ls_limit s) = len (ls_permits s) /\ len (ls_permits s) <= max /\
  (forall n peer, per_peer = Some n -> 0 <= n -> permits_of peer (ls_permits s) <= n) /\
  (forall peer, is_Some (cl_peers (ls_limit s) !! peer) <-> 0 < used s peer).
Proof.
  intros Hm Hr. destruct (limit_reachable_inv _ _ _ Hm Hr) as (_ & _ & Ho & Hmax & Hc & Hp).
  split; [done|]. split; [lia|]. split.
  - intros n peer Hn H0. specialize (Hp n peer Hn). unfold used in Hp.
    pose proof (claims_of_nonneg peer (ls_claiming s)). pose proof (claims_of_nonneg peer (ls_dropping s)). lia.
  - intros peer. destruct (Hc peer) as [Hd Hpos]. destruct (cl_peers (ls_limit s) !! peer) as [c|] eqn:E.
    + cbn in Hd. specialize (Hpos c eq_refl). split; [lia|by eexists].
    + cbn in Hd. split; [intros [? ?]; done|lia].
Qed.

(** One peer connects twice to a limit of one per peer. *)
Definition peer1 : IpAddr := V4 (mkV4 10 0 0 1).
Definition limited_once : LimitSys :=
  let l1 := (claim_peer (limit_with_per_peer 2 1) 1 peer1).2 in
  let l2 := (acquire_global l1).2 in
  mkLimitSys (claim_peer l2 1 peer1).2 [Some peer1] [] [].

Lemma limited_once_reachable : rtc limit_step (limit_init 2 (Some 1)) limited_once.
Proof.
  eapply rtc_l; [eapply (lim_claim_ok _ _ [] [] [] 1 peer1); reflexivity|].
  eapply rtc_l; [eapply (lim_global_ok _ _ [] [] peer1 [] []); reflexivity|].
  apply rtc_once. eapply (lim_claim_refused _ _ _ _ _ 1 peer1); reflexivity.
Qed.

Lemma connection_limits_hold_witness :
  permits_of peer1 (ls_permits limited_once) <= 1 /\ cl_rejected_per_peer (ls_limit limited_once) = 1.
Proof.
  split; [|reflexivity].
  destruct (connection_limits_hold 2 (Some 1) limited_once) as (_ & _ & H & _);
    [unfold in_u; lia|apply limited_once_reachable|apply (H 1 peer1); [reflexivity|lia]].
Defined.

(** ** Drain *)

(** Where the draining task is: not started; [draining] stored; in the loop
    with a registered [Notified] (and whether it was notified); awaiting it;
    returned. *)
Inductive Drainer :=
  | DIdle
  | DStored
  | DLoop
  | DRegistered (notified : bool)
  | DWaiting (notified : bool)
  | DDone (finished : bool).

(** [entering] counts the tasks of [enter] past the check and before the
    increment, [dropping] the last guard's drops before [notify_waiters]. *)
Record DrainSys := mkDrainSys {
  dr_inflight : Z;
  dr_draining : bool;
  dr_drainer : Drainer;
  dr_guards : nat;
  dr_entering : nat;
  dr_notifying : nat }.

Definition drain_new : DrainSys := mkDrainSys 0 false DIdle 0 0 0.

(** [notify_waiters] reaches every [Notified] that exists. *)
Definition notify (d : Drainer) : Drainer :=
  match d with
  | DRegistered _ => DRegistered true
  | DWaiting _ => DWaiting true
  | _ => d
  end.

Inductive DrainEvent := EvEnterCheck | EvEnter | EvUnconditional | EvDrop | EvNotify | EvDrain | EvTimeout.

Inductive drain_step : DrainSys -> DrainEvent -> DrainSys -> Prop :=
  | dr_enter_check i d g e n :
      drain_step (mkDrainSys i false d g e n) EvEnterCheck (mkDrainSys i false d g (S e) n)
  | dr_enter i b d g e n :
      drain_step (mkDrainSys i b d g (S e) n) EvEnter (mkDrainSys (wrap64 (i + 1)) b d (S g) e n)
  | dr_enter_unconditional i b d g e n :
      drain_step (mkDrainSys i b d g e n) EvUnconditional
                 (mkDrainSys (wrap64 (i + 1)) b d (S g) e n)
  | dr_drop i b d g e n :
      drain_step (mkDrainSys i b d (S g) e n) EvDrop
                 (mkDrainSys (wrap64 (i - 1)) b d g e (if i =? 1 then S n else n))
  | dr_notify i b d g e n :
      drain_step (mkDrainSys i b d g e (S n)) EvNotify (mkDrainSys i b (notify d) g e n)
  | dr_store i b g e n :
      drain_step (mkDrainSys i b DIdle g e n) EvDrain (mkDrainSys i true DStored g e n)
  | dr_first_check i b g e n :
      drain_step (mkDrainSys i b DStored g e n) EvDrain
                 (mkDrainSys i b (if i =? 0 then DDone true else DLoop) g e n)
  | dr_register i b g e n :
      drain_step (mkDrainSys i b DLoop g e n) EvDrain (mkDrainSys i b (DRegistered false) g e n)
  | dr_recheck i b w g e n :
      drain_step (mkDrainSys i b (DRegistered w) g e n) EvDrain
                 (mkDrainSys i b (if i =? 0 then DDone true else DWaiting w) g e n)
  | dr_wake i b g e n :
      drain_step (mkDrainSys i b (DWaiting true) g e n) EvDrain (mkDrainSys i b DLoop g e n)
  | dr_timeout i b w g e n :
      drain_step (mkDrainSys i b (DWaiting w) g e n) EvTimeout (mkDrainSys i b (DDone false) g e n).

Inductive drain_trace : DrainSys -> list DrainEvent -> DrainSys -> Prop :=
  | drt_nil s : drain_trace s [] s
  | drt_step s e s' es s'' : drain_step s e s' -> drain_trace s' es s'' -> drain_trace s (e :: es) s''.

Definition drain_inv (k : nat) (s : DrainSys) : Prop :=
  dr_inflight s = Z.of_nat (dr_guards s) /\ (dr_guards s <= k)%nat /\
  (dr_drainer s = DIdle <-> dr_draining s = false) /\
  (dr_drainer s = DWaiting false -> dr_inflight s = 0 -> (0 < dr_notifying s)%nat).

Lemma drain_step_inv k s e s' :
  Z.of_nat (S k) < 2 ^ 64 -> drain_inv k s -> drain_step s e s' -> drain_inv (S k) s'.
Proof.
  intros Hk (Hi & Hg & Hd & Hw) Hst. unfold drain_inv.
  destruct Hst; cbn [dr_inflight dr_guards dr_drainer dr_draining dr_notifying] in *; subst i;
    (split; [rewrite ?wrap_small by width; lia|]); (split; [lia|]).
  all: split; [first [exact Hd | destruct d; cbn; intuition congruence
    | repeat case_match; intuition congruence]|].
  all: try (intros E0 E1; rewrite ?wrap_small in E1 by width; specialize (Hw E0); lia).
  all: try done.
  - intros E0 E1. rewrite wrap_small in E1 by width. destruct (Z.eqb_spec (Z.of_nat (S g)) 1); lia.
  - destruct d as [| | |w|w|w]; done.
  - destruct (Z.eqb_spec (Z.of_nat g) 0); done.
  - destruct (Z.eqb_spec (Z.of_nat g) 0); [done|intros _ ?; done].
Qed.

Lemma drain_trace_inv k s es s' :
  Z.of_nat (k + length es) < 2 ^ 64 -> drain_inv k s -> drain_trace s es s' ->
  drain_inv (k + length es) s'.
Proof.
  intros Hk Hi Ht. revert k Hk Hi. induction Ht as [s|s e s1 es s2 Hs Ht IH]; simpl; intros k Hk Hi.
  - by rewrite Nat.add_0_r.
  - rewrite Nat.add_succ_r in *. apply (IH (S k)); [lia|]. eapply drain_step_inv; [|done..]. lia.
Qed.

Lemma drain_new_inv : drain_inv 0 drain_new.
Proof. unfold drain_inv, drain_new. cbn. repeat split; done || lia. Qed.

(** After a finished drain nothing is in flight and nothing can begin, except
    what had passed the check of [enter] before. *)
Lemma drained_stays k s es s' :
  Z.of_nat (k + length es) < 2 ^ 64 -> drain_inv k s -> drain_trace s es s' ->
  dr_draining s = true -> ~ (EvUnconditional ∈ es) ->
  dr_draining s' = true /\ (dr_guards s' + dr_entering s' <= dr_guards s + dr_entering s)%nat.
Proof.
  intros Hk Hi Ht. revert k Hk Hi. induction Ht as [s|s e s1 es s2 Hs Ht IH]; intros k Hk Hi Hd Hn.
  - split; [done|lia].
  - rewrite not_elem_of_cons in Hn. destruct Hn as [Hne Hn]. cbn [length] in Hk.
    assert (dr_draining s1 = true /\ (dr_guards s1 + dr_entering s1 <= dr_guards s + dr_entering s)%nat)
      as [Hd1 Hle] by (destruct Hs; cbn in *; split; done || lia).
    destruct (IH (S k)) as [? ?]; [lia| |done..|split; [done|lia]].
    eapply drain_step_inv; [|done..]. lia.
Qed.

(** C31: the drain is sound.  Whatever the interleaving, (1) the count is the
    number of guards held; (2) no wake-up is lost: while the draining task
    sleeps un-notified, work is in flight or its last guard is about to
    notify; and (3) once the drain has begun, the only work that can still
    enter is what was already past the check of [enter], so a drain that
    finished with no such task leaves nothing in flight until a fill enters
    unconditionally. *)
Theorem drain_sound es s :
  Z.of_nat (length es) < 2 ^ 64 -> drain_trace drain_new es s ->
  dr_inflight s = Z.of_nat (dr_guards s) /\
  (dr_drainer s = DWaiting false -> (0 < dr_guards s)%nat \/ (0 < dr_notifying s)%nat) /\
  (forall es' s', Z.of_nat (length es + length es') < 2 ^ 64 -> drain_trace s es' s' ->
     dr_draining s = true -> ~ (EvUnconditional ∈ es') ->
     (dr_guards s' + dr_entering s' <= dr_guards s + dr_entering s)%nat).
Proof.
  intros Hk Ht. pose proof (drain_trace_inv 0 _ _ _ Hk drain_new_inv Ht) as Hi.
  split; [apply Hi|]. split.
  - intros Hw. destruct Hi as (Hi & _ & _ & Hl). specialize (Hl Hw).
    destruct (dr_guards s); [right; apply Hl; lia|left; lia].
  - intros es' s' Hk' Ht' Hd Hn. by eapply (drained_stays (length es)).
Qed.

(** A finished drain does not mean that no new work begins.  The check of
    [enter] and its increment are two atomic actions: a request that passes the
    check, is overtaken by the whole of [drain] and then increments, is
    admitted after the drain reported that everything had finished, although
    [enter] is documented to refuse once draining has begun. *)
Theorem drain_admits_late_work :
  exists s, drain_trace drain_new [EvEnterCheck; EvDrain; EvDrain; EvEnter] s /\
    dr_drainer s = DDone true /\ dr_inflight s = 1.
Proof.
  eexists. split; [do 4 (eapply drt_step; [econstructor|]); apply drt_nil|]. by cbn.
Qed.

Lemma drain_sound_witness :
  dr_inflight (mkDrainSys 0 true (DWaiting true) 0 0 0) = 0.
Proof.
  refine (proj1 (drain_sound [EvEnterCheck; EvEnter; EvDrain; EvDrain; EvDrain; EvDrain; EvDrop; EvNotify]
    (mkDrainSys 0 true (DWaiting true) 0 0 0) _ _)); [reflexivity|].
  repeat (eapply drt_step; [econstructor|]). apply drt_nil.
Defined.

(** ** Heartbeat *)

Definition HEARTBEAT_PATH : str := lit "/lancache-heartbeat".
Definition is_heartbeat (path : str) : bool := bool_decide (path = HEARTBEAT_PATH).

(** [respond]: status and headers. *)
Definition heartbeat_respond (headers : HeaderMap) (hostname : str) : Z * HeaderMap :=
  let h := headers ++
    [(lit "access-control-allow-origin", lit "*");
     (lit "access-control-allow-headers", lit "*");
     (lit "access-control-expose-headers", lit "*")] in
  (204, if header_value_ok hostname then h ++ [(lit "x-lancache-processed-by", hostname)] else h).
