(* ===== verification/Server.v ===== *)
(** * The client-facing server

    Models [crates/cachic/src/proxy/server.rs]: a request through [handle] and
    [serve] - drain check, heartbeat, method, service, rule, key, upstream URL,
    plan, If-Range, response head and body - composed from the components it
    calls, together with the access event it logs.

    Accepting connections, HTTP framing and the header-read timeout are [hyper]'s.
    [serve] is given what the origin would answer to each of its two possible
    probes.  A body is described by the slices it streams; [frames] says what
    the client receives for the results of the slice tasks.  [None] is a panic,
    which ends the process in the release profile. *)

From S2P Require Import Prelude.
From S2P Require Import RustStr.
From S2P Require Import Codec.
From S2P Require Import Guard.
From S2P Require Import Resolver.
From S2P Require Import Client.
From S2P Require Import Domains.
From S2P Require Import Units.
From S2P Require Import Validators.
From S2P Require Import SliceCodec.
From S2P Require Import Index.
From S2P Require Import Key.
From S2P Require Import Headers.
From S2P Require Import Logs.
From S2P Require Import Range.
From S2P Require Import Orchestrator.
From S2P Require Import Limits.

Open Scope Z_scope.

Inductive Method := GET | HEAD | OtherMethod (name : str).

Definition method_str (m : Method) : str :=
  match m with GET => lit "GET" | HEAD => lit "HEAD" | OtherMethod name => name end.

Record HttpRequest := mkHttpRequest {
  rq_method : Method;
  rq_path : str;
  rq_target : option str;
  rq_headers : HeaderMap }.

Inductive Body :=
  | BEmpty
  | BText (message : str)
  | BSlices (plan : Plan) (url : str) (forwarded : HeaderMap) (indices : list Z).

Record HttpResponse := mkHttpResponse {
  rs_status : StatusCode;
  rs_headers : HeaderMap;
  rs_body : Body }.

Record ServerConfig := mkServerConfig {
  sc_orch_slice_size : Z;
  sc_services : LiveServices;
  sc_compiled : gmap str CompiledRule;
  sc_hostname : str;
  sc_passthrough_unknown_hosts : bool;
  sc_allow_host_port : bool }.

(** [Builder::header], whose error surfaces when the response is built. *)
Definition with_header (b : option HeaderMap) (name value : str) : option HeaderMap :=
  h ← b; if header_value_ok value then Some (h ++ [(name, value)]) else None.

Definition text (status : StatusCode) (message : str) : HttpResponse :=
  mkHttpResponse status [(lit "content-type", lit "text/plain; charset=utf-8")] (BText message).

Definition host_of (req : HttpRequest) : str := default [] (header_str (rq_headers req) (lit "host")).


(** How [serve] ends. *)
Inductive Served :=
  | Responded (r : HttpResponse)
  | Failed (e : OrchestratorError)
  | Panicked.

Definition respond (headers : option HeaderMap) (status : StatusCode) (body : Body) : Served :=
  match headers with
  | Some h => Responded (mkHttpResponse status h body)
  | None => Panicked
  end.

(** The URL the origin is asked for. *)
Definition upstream_url (config : ServerConfig) (rule : CompiledRule) (host target : str) : str :=
  (if cr_upstream_https rule then lit "https" else lit "http") ++ lit "://" ++
  (if sc_allow_host_port config then host else normalise_host host) ++ target.

Definition content_range (r : ByteRange) (total : Z) : str :=
  lit "bytes " ++ to_dec (br_start r) ++ lit "-" ++ to_dec (br_end r) ++ lit "/" ++ to_dec total.

Definition body_len (plan : Plan) : Z :=
  if pl_total_len plan =? 0 then 0 else byte_range_len (pl_wanted plan).

(** The response head for a plan. *)
Definition response_head (hostname service : str) (plan : Plan) : option HeaderMap :=
  let b := with_header (Some []) (lit "content-length") (to_dec (body_len plan)) in
  let b := with_header b (lit "accept-ranges") (lit "bytes") in
  let b := with_header b (lit "x-cache") (cache_status_str (pl_cache_status plan)) in
  let b := with_header b (lit "x-lancache-processed-by") hostname in
  let b := with_header b (lit "x-cachic-service") service in
  let b :=
    if pl_partial plan && (0 <? pl_total_len plan)
    then with_header b (lit "content-range") (content_range (pl_wanted plan) (pl_total_len plan))
    else b in
  foldl (fun b '(name, value) =>
    match value with
    | Some v => if header_value_ok v then with_header b name v else b
    | None => b
    end) b
    [(lit "content-type", om_content_type (pl_meta plan));
     (lit "etag", om_etag (pl_meta plan));
     (lit "last-modified", om_last_modified (pl_meta plan))].

Record Shared (S T : Type) := mkShared {
  sh_orch : Orch S T;
  sh_policy : Readahead.ReadaheadPolicy }.
Arguments mkShared {S T}.
Arguments sh_orch {S T}.
Arguments sh_policy {S T}.

(** What the environment contributes to a request: the clock, and the origin's
    answer to a probe, if one is made, for each of the two plans. *)
Record Environment := mkEnvironment {
  en_now : Z;
  en_fetched : result UpstreamError UpstreamResponse;
  en_refetched : result UpstreamError UpstreamResponse }.

Section Serve.
Context {S T : Type} `{Foyer S} `{Redb T}.
Context (config : ServerConfig) (blake3 : bytes -> bytes) (is_match : list str -> str -> bool).
Context (order : gmap ObjectId Readahead.Pattern -> list (ObjectId * Readahead.Pattern)).
Implicit Types sh : Shared S T.

Definition rule_for (service : str) : CompiledRule :=
  default compiled_rule_default (sc_compiled config !! service).

(** What a request resolves to before anything is fetched: a reply, or the
    service, its key, the upstream URL and the headers to forward. *)
Definition route (req : HttpRequest) : Served + (str * CacheKey * str * HeaderMap) :=
  if is_heartbeat (rq_path req) then
    let '(status, h) := heartbeat_respond [] (sc_hostname config) in
    inl (Responded (mkHttpResponse status h BEmpty))
  else
  match rq_method req with
  | OtherMethod _ => inl (Responded (text 405 (lit "cachic caches GET and HEAD" ++ newline)))
  | _ =>
      let host := host_of req in
      match service_for (lv_matcher (sc_services config)) host with
      | None =>
          if sc_passthrough_unknown_hosts config
          then inl (Responded (text 501 (lit "passthrough is not implemented until TASK-18" ++ newline)))
          else inl (Responded (text 404 (lit "no cached service matches this host" ++ newline)))
      | Some service =>
          let rule := rule_for service in
          let target := default (lit "/") (rq_target req) in
          if negb (is_cacheable is_match rule (rq_path req)) then
            inl (Responded (text 501 (lit "uncached pass-through is not implemented until TASK-18" ++ newline)))
          else
            inr (service, Key.normalise service host target rule,
                 upstream_url config rule host target, forwarded_request_headers (rq_headers req))
      end
  end.

(** [If-Range]: a second plan without the range if the entity changed. *)
Definition plan_if_range (env : Environment) (if_range : option str) st (key : CacheKey) (url : str)
    (plan : Plan) : result OrchestratorError Plan * Orch S T :=
  match if_range with
  | Some header =>
      if negb (if_range_matches header
           (mkValidators (om_etag (pl_meta plan)) (om_last_modified (pl_meta plan))))
      then plan_request (sc_orch_slice_size config) blake3 (en_now env) st key url None (en_refetched env)
      else (Ok plan, st)
  | None => (Ok plan, st)
  end.

Definition respond_plan sh (is_head : bool) (service url : str) (forwarded : HeaderMap) (plan : Plan)
    (now : Z) : Served * Shared S T * list Z :=
  let head := response_head (sc_hostname config) service plan in
  if is_head || (body_len plan =? 0)
  then (respond head (pl_status plan) BEmpty, sh, [])
  else
    let '(prefetched, policy) :=
      maybe_prefetch (sc_orch_slice_size config) order now (sh_policy sh) (or_store (sh_orch sh)) plan in
    (respond head (pl_status plan)
       (BSlices plan url forwarded (indices (sc_orch_slice_size config) plan)),
     mkShared (sh_orch sh) policy, prefetched).

Definition serve (env : Environment) sh (req : HttpRequest) : Served * Shared S T * list Z :=
  match route req with
  | inl reply => (reply, sh, [])
  | inr (service, key, url, forwarded) =>
      let raw_range := header_str (rq_headers req) (lit "range") in
      let if_range := header_str (rq_headers req) (lit "if-range") in
      match plan_request (sc_orch_slice_size config) blake3 (en_now env) (sh_orch sh) key url raw_range
              (en_fetched env) with
      | (Err (OUnsatisfiable total_len), st) =>
          (respond (with_header
               (with_header (Some []) (lit "content-range") (lit "bytes */" ++ to_dec total_len))
               (lit "x-lancache-processed-by") (sc_hostname config)) 416 BEmpty,
           mkShared st (sh_policy sh), [])
      | (Err e, st) => (Failed e, mkShared st (sh_policy sh), [])
      | (Ok plan, st) =>
          match plan_if_range env if_range st key url plan with
          | (Err e, st) => (Failed e, mkShared st (sh_policy sh), [])
          | (Ok plan, st) =>
              respond_plan (mkShared st (sh_policy sh))
                (match rq_method req with HEAD => true | _ => false end)
                service url forwarded plan (en_now env)
          end
      end
  end.

(** [strip_internal_headers]. *)
Definition strip_internal_headers (r : HttpResponse) : HttpResponse :=
  mkHttpResponse (rs_status r) (filter (fun p => p.1 <> lit "x-cachic-service") (rs_headers r))
    (rs_body r).

Definition access_event (req : HttpRequest) (client_ip timestamp : str) (r : HttpResponse) : AccessEvent :=
  let field name := default (lit "-") (header_str (rs_headers r) name) in
  mkAccessEvent client_ip (field (lit "x-cachic-service")) (host_of req) (method_str (rq_method req))
    (rq_path req) (header_str (rq_headers req) (lit "range")) (rs_status r)
    (default 0 (header_str (rs_headers r) (lit "content-length") ≫= parse_u64))
    (field (lit "x-cache")) (header_str (rq_headers req) (lit "user-agent")) timestamp.

(** [handle]: the reply and the access event, or [None] for a panic.
    [admitted] is whether [Drain::enter] gave a guard. *)
Definition handle (admitted : bool) (env : Environment) sh (req : HttpRequest) (client_ip : str)
    : option (HttpResponse * option AccessEvent) * Shared S T :=
  if negb admitted
  then (Some (text 503 (lit "cachic is shutting down" ++ newline), None), sh)
  else
    let '(served, sh, _) := serve env sh req in
    let response :=
      match served with
      | Responded r => Some r
      | Failed _ => Some (text 502 (lit "upstream error" ++ newline))
      | Panicked => None
      end in
    (response ≫= (fun r =>
       timestamp ← clf_timestamp (en_now env);
       Some (strip_internal_headers r, Some (access_event req client_ip timestamp r))), sh).
End Serve.

(** ** The body *)

(** What a slice task hands to the stream: its window, or the error that ends
    the response. *)
Definition slice_task (slice_size : Z) (plan : Plan) (url : str) (index : Z)
    (r : result OrchestratorError SliceValue) : result OrchestratorError bytes :=
  let win := window slice_size plan index in
  value ← r;
  ok_or (cut_window (sv_payload value) win)
    (OShortSlice url index (sat_sub win.2 win.1) (len (sv_payload value))).

(** The frames in order, up to the first error ([buffered] keeps the order; an
    error frame aborts the connection). *)
Fixpoint frames (rs : list (result OrchestratorError bytes)) : list bytes * bool :=
  match rs with
  | [] => ([], true)
  | Ok b :: rs => let '(bs, complete) := frames rs in (b :: bs, complete)
  | Err _ :: _ => ([], false)
  end.

Definition stream_body (slice_size : Z) (plan : Plan) (url : str)
    (results : Z -> result OrchestratorError SliceValue) : bytes * bool :=
  let '(bs, complete) :=
    frames (map (fun i => slice_task slice_size plan url i (results i)) (indices slice_size plan)) in
  (concat bs, complete).

(** ** The head announces the body *)

Lemma slice_task_ok slice_size plan url i r b :
  slice_task slice_size plan url i r = Ok b ->
  exists v, cut_window (sv_payload v) (window slice_size plan i) = Some b.
Proof.
  unfold slice_task. destruct r as [v|]; [|done]. intros H. exists v. revert H.
  change (ok_or (cut_window (sv_payload v) (window slice_size plan i))
    (OShortSlice url i (sat_sub (window slice_size plan i).2 (window slice_size plan i).1)
       (len (sv_payload v))) = Ok b -> cut_window (sv_payload v) (window slice_size plan i) = Some b).
  destruct (cut_window _ _); [|done]. by intros [= ->].
Qed.

Section BodyLength.
Context (slice_size total : Z) (w : ByteRange).
Context (Hs : 0 < slice_size < 2 ^ 32) (Hlen : total < 2 ^ 64)
        (Haddr : total <= max_addressable_len slice_size) (Hw : range_in w total).

Definition win_len (i : Z) : Z :=
  let win := Range.payload_window i slice_size w in win.2 - win.1.
Definition sum_len (l : list Z) : Z := foldr (fun i n => win_len i + n) 0 l.

(** An object of the right size, to read lengths off. *)
Definition blank : bytes := replicate (Z.to_nat total) x00.

Lemma blank_len : len blank = total.
Proof using Hw. destruct Hw as (? & ? & ?). unfold blank, len. rewrite length_replicate. lia. Qed.

Lemma cut_window_len payload i b :
  i ∈ plan_indices (Range.plan w slice_size) ->
  cut_window payload (Range.payload_window i slice_size w) = Some b -> len b = win_len i /\ 0 < win_len i.
Proof using All.
  intros Hi. pose proof blank_len as Hb. destruct (plan_index_bounds blank slice_size w) with (i := i)
    as (Hi32 & Hle & Hlt); rewrite ?Hb; [done..|].
  unfold win_len. destruct Hw as (H0 & H1 & H2).
  rewrite payload_window_exact by lia. unfold cut_window. cbn [fst snd].
  destruct (Z.ltb_spec (Z.min (br_end w + 1) (i * slice_size + slice_size) - i * slice_size)
    (Z.max (br_start w) (i * slice_size) - i * slice_size)); [done|].
  destruct (Z.ltb_spec (len payload) (Z.min (br_end w + 1) (i * slice_size + slice_size) - i * slice_size));
    [done|]. cbn [orb]. intros [= <-]. unfold len in *. rewrite length_slice; lia.
Qed.

Lemma blank_window i :
  i ∈ plan_indices (Range.plan w slice_size) ->
  exists b, cut_window (slice_payload i slice_size blank) (Range.payload_window i slice_size w) = Some b.
Proof using All.
  intros Hi. pose proof blank_len as Hb. eexists.
  apply window_of_slice; rewrite ?Hb; done.
Qed.

Lemma windows_sum : sum_len (plan_indices (Range.plan w slice_size)) = byte_range_len w.
Proof using All.
  pose proof blank_len as Hb.
  pose proof (tiling blank slice_size w) as Ht. rewrite Hb in Ht. specialize (Ht Hs Hlen Haddr Hw).
  destruct (mapM _ _) as [ps|] eqn:E; [|done]. cbn in Ht. injection Ht as Ht.
  assert (len (concat ps) = byte_range_len w) as <-.
  { rewrite Ht. destruct Hw as (? & ? & ?). unfold len in Hb |- *. rewrite length_slice by lia.
    unfold byte_range_len. rewrite (wrap_small 64 (br_end w - br_start w)) by width.
    rewrite wrap_small by width. lia. }
  clear Ht. revert ps E.
  assert (Forall (fun i => i ∈ plan_indices (Range.plan w slice_size)) (plan_indices (Range.plan w slice_size)))
    as Hall by (by apply Forall_forall).
  revert Hall. generalize (plan_indices (Range.plan w slice_size)) at 2 3 4 as l.
  induction l as [|i l IH]; intros Hall ps E; [by injection E as <-|].
  inversion_clear Hall as [|? ? Hi Hl]. cbn [mapM] in E.
  destruct (cut_window _ _) as [b|] eqn:Ec; [|done].
  destruct (mapM _ l) as [bs|] eqn:Em; [|done]. injection E as <-.
  cbn [concat sum_len foldr]. rewrite len_app. f_equal; [|by apply IH].
  symmetry. by eapply cut_window_len.
Qed.

Lemma frames_len plan url results l bs complete :
  pl_wanted plan = w -> Forall (fun i => i ∈ plan_indices (Range.plan w slice_size)) l ->
  frames (map (fun i => slice_task slice_size plan url i (results i)) l) = (bs, complete) ->
  if complete then len (concat bs) = sum_len l else len (concat bs) < sum_len l.
Proof using All.
  intros Hp Hall. revert bs. induction Hall as [|i l Hi Hl IH]; intros bs; cbn [map frames].
  { by intros [= <- <-]. }
  assert (0 < win_len i) as Hpos.
  { destruct (blank_window i Hi) as [b Hb]. apply (cut_window_len _ _ _ Hi) in Hb as [_ Hb]. exact Hb. }
  assert (0 <= sum_len l) as Hsum.
  { clear IH. induction Hl as [|j l Hj Hl IH]; [done|].
    change (0 <= win_len j + sum_len l).
    destruct (blank_window j Hj) as [b Hb]. apply (cut_window_len _ _ _ Hj) in Hb. lia. }
  destruct (slice_task slice_size plan url i (results i)) as [b|e] eqn:Et.
  2: { intros [= <- <-]. change (0 < win_len i + sum_len l). lia. }
  apply slice_task_ok in Et as (v & Ec). unfold window in Ec. rewrite Hp in Ec.
  destruct (frames _) as [bs' c] eqn:Ef. intros [= <- ->].
  destruct (cut_window_len _ _ _ Hi Ec) as [Hlb _]. specialize (IH _ eq_refl).
  cbn [concat]. rewrite len_app. change (sum_len (i :: l)) with (win_len i + sum_len l).
  destruct complete; lia.
Qed.
End BodyLength.

(** The entity's own headers, as far as they are valid values. *)
Definition entity_headers (meta : ObjectMeta) : HeaderMap :=
  omap (fun p : str * option str => v ← p.2; if header_value_ok v then Some (p.1, v) else None)
    [(lit "content-type", om_content_type meta); (lit "etag", om_etag meta);
     (lit "last-modified", om_last_modified meta)].

Lemma entity_headers_names meta :
  Forall (fun p => p.1 ∈ [lit "content-type"; lit "etag"; lit "last-modified"]) (entity_headers meta).
Proof.
  apply Forall_forall. intros [n v] Hin. unfold entity_headers in Hin.
  apply list_elem_of_omap in Hin as ([n' [v'|]] & Hin & Hv); [|done]. cbn in Hv.
  destruct (header_value_ok v'); [|done]. injection Hv as <- <-. cbn [fst].
  rewrite !elem_of_cons, elem_of_nil in Hin. rewrite !elem_of_cons, elem_of_nil. naive_solver.
Qed.

Lemma with_header_inv b n v h : with_header b n v = Some h -> exists h0, b = Some h0 /\ h = h0 ++ [(n, v)].
Proof.
  destruct b as [h0|]; [|done]. unfold with_header. cbn. destruct (header_value_ok v); [|done].
  intros [= <-]. by exists h0.
Qed.

Lemma entity_headers_pushed names b h :
  foldl (fun b '(name, value) =>
      match value with
      | Some v => if header_value_ok v then with_header b name v else b
      | None => b
      end) b names = Some h ->
  exists h0, b = Some h0 /\
    h = h0 ++ omap (fun p : str * option str => v ← p.2; if header_value_ok v then Some (p.1, v) else None) names.
Proof.
  revert b h. induction names as [|[n [v|]] names IH]; intros b h; cbn [foldl].
  - intros ->. exists h. by rewrite app_nil_r.
  - intros H. apply IH in H as (h0 & Hb & ->). cbn. destruct (header_value_ok v).
    + apply with_header_inv in Hb as (h1 & -> & ->). exists h1. by rewrite <- app_assoc.
    + by exists h0.
  - intros H. apply IH in H as (h0 & Hb & ->). by exists h0.
Qed.

Lemma response_head_shape hostname service plan h :
  response_head hostname service plan = Some h ->
  h = [(lit "content-length", to_dec (body_len plan)); (lit "accept-ranges", lit "bytes");
       (lit "x-cache", cache_status_str (pl_cache_status plan));
       (lit "x-lancache-processed-by", hostname); (lit "x-cachic-service", service)] ++
      (if pl_partial plan && (0 <? pl_total_len plan)
       then [(lit "content-range", content_range (pl_wanted plan) (pl_total_len plan))] else []) ++
      entity_headers (pl_meta plan).
Proof.
  unfold response_head. intros (h0 & Hb & ->)%entity_headers_pushed. rewrite app_assoc. f_equal.
  destruct (pl_partial plan && (0 <? pl_total_len plan)).
  - apply with_header_inv in Hb as (h1 & Hb & ->). f_equal.
    do 5 (apply with_header_inv in Hb as (? & Hb & ->)). injection Hb as <-. reflexivity.
  - rewrite app_nil_r. do 5 (apply with_header_inv in Hb as (? & Hb & ->)). injection Hb as <-. reflexivity.
Qed.

Lemma header_get_absent h name : Forall (fun p => p.1 <> name) h -> header_get h name = None.
Proof.
  intros Hh. unfold header_get. induction Hh as [|p h Hp _ IH]; [done|]. cbn [find].
  by rewrite bool_decide_false.
Qed.

Lemma digits_to_str n : 0 <= n -> to_str (to_dec n) = Some (to_dec n).
Proof.
  intros Hn. destruct (to_dec_spec n Hn) as (_ & Hd & _). unfold to_str.
  assert (forallb value_char (to_dec n) = true) as ->; [|done].
  apply forallb_forall. intros b Hb%list_elem_of_In. unfold all_digits in Hd.
  rewrite Forall_forall in Hd. specialize (Hd b Hb).
  assert (implb (is_ascii_digit b) (value_char b) = true) as Hi.
  { clear. revert b. apply byte_forall. vm_compute. reflexivity. }
  by rewrite Hd in Hi.
Qed.

(** What a plan is, as far as the response goes. *)
Definition plan_ok (raw_range : option str) (plan : Plan) : Prop :=
  pl_total_len plan = om_total_len (pl_meta plan) /\
  match range_spec raw_range with
  | Some spec => pl_partial plan = true /\ pl_status plan = PARTIAL_CONTENT /\
                 resolve spec (pl_total_len plan) = Ok (pl_wanted plan)
  | None => pl_partial plan = false /\ pl_status plan = OK_200 /\
            pl_wanted plan = default (mkByteRange 0 0) (whole (pl_total_len plan))
  end.

Section ServeFacts.
Context {S T : Type} `{Foyer S} `{Redb T}.
Context (config : ServerConfig) (blake3 : bytes -> bytes) (is_match : list str -> str -> bool).
Context (order : gmap ObjectId Readahead.Pattern -> list (ObjectId * Readahead.Pattern)).
Implicit Types sh : Shared S T.

Lemma plan_request_ok now st key url raw fetched plan st' :
  plan_request (S := S) (T := T) (sc_orch_slice_size config) blake3 now st key url raw fetched = (Ok plan, st') ->
  plan_ok raw plan.
Proof.
  unfold plan_request. destruct (metadata _ _ _ _ _ _ _ _) as [[[meta probed]|e] st1]; [|done].
  unfold plan_with, plan_ok.
  destruct (range_spec raw) as [spec|].
  - destruct (resolve spec (om_total_len meta)) as [w|] eqn:E; cbn; [|done].
    by intros [= <- <-].
  - cbn. by intros [= <- <-].
Qed.

(** A planned response is the head, and either nothing or the plan's slices. *)
Lemma respond_plan_reply sh is_head service url fwd p now r :
  (respond_plan config order sh is_head service url fwd p now).1.1 = Responded r ->
  response_head (sc_hostname config) service p = Some (rs_headers r) /\ rs_status r = pl_status p /\
  ((is_head = true \/ body_len p = 0) /\ rs_body r = BEmpty \/
   body_len p <> 0 /\ rs_body r = BSlices p url fwd (indices (sc_orch_slice_size config) p)).
Proof.
  unfold respond_plan, respond. destruct is_head; cbn [orb].
  { destruct (response_head _ _ _); [|done]. intros [= <-]. do 2 (split; [done|]). left. auto. }
  destruct (Z.eqb_spec (body_len p) 0) as [|Hne].
  { destruct (response_head _ _ _); [|done]. intros [= <-]. do 2 (split; [done|]). left. auto. }
  destruct (maybe_prefetch _ _ _ _ _ _). cbn [fst].
  destruct (response_head _ _ _); [|done]. intros [= <-]. do 2 (split; [done|]). by right.
Qed.

(** A reply made before anything is fetched is no stream. *)
Lemma route_no_slices req r plan url fwd idx :
  route config is_match req = inl (Responded r) -> rs_body r = BSlices plan url fwd idx -> False.
Proof.
  unfold route. intros Er Hb. revert Er Hb.
  destruct (is_heartbeat _); [by intros [= <-]|].
  destruct (rq_method req); [| |by intros [= <-]];
    (destruct (service_for _ _); [destruct (negb _)|destruct (sc_passthrough_unknown_hosts _)]);
    by try intros [= <-].
Qed.

(** A streamed response comes from a plan, by the range the client sent; a
    partial one was not overruled by [If-Range]. *)
Lemma serve_slices env sh req r sh' prefetched plan url fwd idx :
  serve config blake3 is_match order env sh req = (Responded r, sh', prefetched) ->
  rs_body r = BSlices plan url fwd idx ->
  exists service,
    response_head (sc_hostname config) service plan = Some (rs_headers r) /\
    rs_status r = pl_status plan /\ idx = indices (sc_orch_slice_size config) plan /\ body_len plan <> 0 /\
    (plan_ok None plan \/ plan_ok (header_str (rq_headers req) (lit "range")) plan) /\
    (pl_partial plan = true -> forall header,
       header_str (rq_headers req) (lit "if-range") = Some header ->
       if_range_matches header (meta_validators (pl_meta plan)) = true).
Proof.
  unfold serve. destruct (route _ _ _) as [reply|[[[service key] u] f]] eqn:Er.
  { intros [= -> _ _] Hb. by destruct (route_no_slices _ _ _ _ _ _ Er Hb). }
  destruct (plan_request _ _ _ _ _ _ _ _) as [[p|e] st] eqn:Ep.
  2: { destruct e; [|by intros [= ]..]. intros Hr Hb. injection Hr as Hr _ _. revert Hr.
       unfold respond. destruct (with_header _ _ _); [|done]. intros [= <-]. done. }
  apply plan_request_ok in Ep.
  assert (forall p' st', plan_if_range config blake3 env (header_str (rq_headers req) (lit "if-range"))
    st key u p = (Ok p', st') ->
    (plan_ok None p' \/ plan_ok (header_str (rq_headers req) (lit "range")) p') /\
    (pl_partial p' = true -> forall header,
       header_str (rq_headers req) (lit "if-range") = Some header ->
       if_range_matches header (meta_validators (pl_meta p')) = true)) as Hif.
  { intros p' st'. unfold plan_if_range.
    destruct (header_str (rq_headers req) (lit "if-range")) as [hd|].
    - destruct (if_range_matches _ _) eqn:Em; cbn [negb].
      + intros [= <- <-]. split; [by right|]. by intros _ ? [= <-].
      + intros Hp. apply plan_request_ok in Hp. split; [by left|].
        destruct Hp as [_ [Hp _]]. congruence.
    - intros [= <- <-]. split; [by right|]. done. }
  destruct (plan_if_range _ _ _ _ _ _ _ _) as [[p'|e'] st'] eqn:Ei; [|by intros [= ]].
  specialize (Hif _ _ eq_refl). intros Hr Hb.
  destruct (respond_plan _ _ _ _ _ _ _ _ _) as [[reply sh1] pf] eqn:Erp. injection Hr as -> _ _.
  destruct (respond_plan_reply (mkShared st' (sh_policy sh)) (match rq_method req with HEAD => true | _ => false end)
    service u f p' (en_now env) r) as (Hh & Hst & [[_ E]|[Hne E]]); [by rewrite Erp|congruence|].
  rewrite E in Hb. injection Hb as <- <- <- <-. by exists service.
Qed.
End ServeFacts.

Lemma plan_ok_wanted raw plan :
  plan_ok raw plan -> 0 < pl_total_len plan -> range_in (pl_wanted plan) (pl_total_len plan).
Proof.
  intros [Ht Hp] H0. destruct (range_spec raw) as [spec|] eqn:Er.
  - destruct Hp as (_ & _ & Hr). eapply resolve_range_in; [| |exact Hr]; [|lia].
    unfold range_spec in Er. destruct raw as [v|]; [|done]. cbn in Er.
    destruct (parse_range v) eqn:Ev; [|done]. injection Er as <-. by eapply parse_range_ok.
  - destruct Hp as (_ & _ & ->). unfold whole.
    destruct (Z.ltb_spec 0 (pl_total_len plan)); unfold range_in; cbn; lia.
Qed.

Lemma plan_ok_range raw plan :
  plan_ok raw plan -> 0 <= pl_total_len plan -> body_len plan <> 0 ->
  range_in (pl_wanted plan) (pl_total_len plan) /\ 0 < pl_total_len plan.
Proof.
  intros Hok H0. unfold body_len. destruct (Z.eqb_spec (pl_total_len plan) 0); [done|]. intros _.
  split; [|lia]. apply (plan_ok_wanted raw); [done|lia].
Qed.

Lemma range_len_exact w total :
  range_in w total -> total < 2 ^ 64 -> byte_range_len w = br_end w - br_start w + 1.
Proof.
  intros (? & ? & ?) Ht. unfold byte_range_len.
  rewrite (wrap_small 64 (br_end w - br_start w)) by width. rewrite wrap_small by width. lia.
Qed.

Lemma body_len_pos raw plan :
  plan_ok raw plan -> 0 < pl_total_len plan < 2 ^ 64 -> body_len plan <> 0.
Proof.
  intros Hok Ht. assert (range_in (pl_wanted plan) (pl_total_len plan)) as Hr by (eapply plan_ok_wanted; eauto; lia).
  unfold body_len. destruct (Z.eqb_spec (pl_total_len plan) 0); [lia|].
  rewrite (range_len_exact _ _ Hr) by lia. destruct Hr as (? & ? & ?). lia.
Qed.

(** The head of a plan's response. *)
Lemma plan_head hostname service plan h raw :
  response_head hostname service plan = Some h -> plan_ok raw plan -> in_u 64 (pl_total_len plan) ->
  body_len plan <> 0 ->
  let w := pl_wanted plan in
  let n := br_end w - br_start w + 1 in
  range_in w (pl_total_len plan) /\
  header_str h (lit "content-length") = Some (to_dec n) /\
  (if pl_partial plan
   then pl_status plan = 206 /\
        header_get h (lit "content-range") = Some (content_range w (pl_total_len plan)) /\
        exists value spec, raw = Some value /\
          parse_range value = Ok spec /\ resolve spec (pl_total_len plan) = Ok w
   else pl_status plan = 200 /\ header_get h (lit "content-range") = None /\
        w = mkByteRange 0 (pl_total_len plan - 1)).
Proof.
  intros Hh Hok Htot Hne w n. unfold in_u in Htot.
  destruct (plan_ok_range _ _ Hok ltac:(lia) Hne) as [Hr Hpos]. fold w in Hr.
  assert (body_len plan = n) as Hn.
  { unfold body_len. destruct (Z.eqb_spec (pl_total_len plan) 0); [lia|]. apply (range_len_exact _ _ Hr). lia. }
  apply response_head_shape in Hh. rewrite Hn in Hh.
  replace (0 <? pl_total_len plan) with true in Hh by (symmetry; apply Z.ltb_lt; lia).
  rewrite andb_true_r in Hh. split; [done|]. split.
  { rewrite Hh. unfold header_str. cbn. apply digits_to_str. destruct Hr as (? & ? & ?). lia. }
  destruct Hok as [_ Hok]. destruct (range_spec raw) as [spec|] eqn:Er; destruct Hok as (Hp & Hs & Hw);
    rewrite Hp in *.
  - split; [done|]. split; [by rewrite Hh|]. unfold range_spec in Er. destruct raw as [v|]; [|done]. cbn in Er.
    destruct (parse_range v) eqn:Ev; [|done]. injection Er as ->. by exists v, spec.
  - split; [done|]. split.
    + rewrite Hh. apply header_get_absent. cbn [app]. repeat (apply Forall_cons_2; [cbn [fst]; decide_true|]).
      eapply Forall_impl; [apply entity_headers_names|].
      intros p Hin E. cbn beta in Hin, E. rewrite E in Hin. revert Hin. decide_true.
    + unfold w. rewrite Hw. unfold whole. by destruct (Z.ltb_spec 0 (pl_total_len plan)); [|lia].
Qed.

(** A body whose slices all arrive has the announced length; any other is short. *)
Lemma stream_len slice_size plan url results body complete :
  0 < slice_size < 2 ^ 32 -> pl_total_len plan < 2 ^ 64 -> pl_total_len plan <= max_addressable_len slice_size ->
  range_in (pl_wanted plan) (pl_total_len plan) ->
  stream_body slice_size plan url results = (body, complete) ->
  let n := br_end (pl_wanted plan) - br_start (pl_wanted plan) + 1 in
  if complete then len body = n else len body < n.
Proof.
  intros Hss Htot Haddr Hr. unfold stream_body, indices.
  destruct (Z.eqb_spec (pl_total_len plan) 0) as [E|_]; [destruct Hr as (? & ? & ?); lia|].
  destruct (frames _) as [bs c] eqn:Ef. intros [= <- <-].
  apply (frames_len slice_size (pl_total_len plan) (pl_wanted plan) Hss Htot Haddr Hr) in Ef;
    [|done|by apply Forall_forall].
  rewrite (windows_sum slice_size (pl_total_len plan) (pl_wanted plan) Hss Htot Haddr Hr) in Ef.
  by rewrite (range_len_exact _ _ Hr) in Ef by lia.
Qed.

Section Serving.
Context {S T : Type} `{Foyer S} `{Redb T}.
Context (config : ServerConfig) (blake3 : bytes -> bytes) (is_match : list str -> str -> bool).
Context (order : gmap ObjectId Readahead.Pattern -> list (ObjectId * Readahead.Pattern)).
Implicit Types sh : Shared S T.

(** C3: the response head announces exactly the body that follows.  For any
    request answered with a stream, and whatever the slice tasks return:
    Content-Length is the size of the range the plan wants; the status is 206
    with the matching Content-Range, or 200 for the whole object; a body whose
    slices all arrive has exactly Content-Length bytes, whatever the slices
    hold, and one with a failed or short slice has strictly fewer, so a
    truncated response never looks complete.  A 206 answers the client's own
    range, and only if its If-Range, if any, matched the validators of the
    entity being sent. *)
Theorem response_head_matches_body env sh req r sh' prefetched plan url fwd idx :
  0 < sc_orch_slice_size config < 2 ^ 32 -> in_u 64 (pl_total_len plan) ->
  pl_total_len plan <= max_addressable_len (sc_orch_slice_size config) ->
  serve config blake3 is_match order env sh req = (Responded r, sh', prefetched) ->
  rs_body r = BSlices plan url fwd idx ->
  let w := pl_wanted plan in
  let n := br_end w - br_start w + 1 in
  range_in w (pl_total_len plan) /\
  header_str (rs_headers r) (lit "content-length") = Some (to_dec n) /\
  (if pl_partial plan
   then rs_status r = 206 /\
        header_get (rs_headers r) (lit "content-range") = Some (content_range w (pl_total_len plan)) /\
        (exists value spec, header_str (rq_headers req) (lit "range") = Some value /\
           parse_range value = Ok spec /\ resolve spec (pl_total_len plan) = Ok w) /\
        (forall header, header_str (rq_headers req) (lit "if-range") = Some header ->
           if_range_matches header (meta_validators (pl_meta plan)) = true)
   else rs_status r = 200 /\ header_get (rs_headers r) (lit "content-range") = None /\
        w = mkByteRange 0 (pl_total_len plan - 1)) /\
  (forall results body complete,
     stream_body (sc_orch_slice_size config) plan url results = (body, complete) ->
     if complete then len body = n else len body < n).
Proof using Type.
  intros Hss Htot Haddr Hsv Hb w n.
  destruct (serve_slices config blake3 is_match order _ _ _ _ _ _ _ _ _ _ Hsv Hb)
    as (service & Hh & Hst & -> & Hne & Hok & Hif). rewrite Hst.
  assert (exists raw, plan_ok raw plan /\
    (pl_partial plan = true -> raw = header_str (rq_headers req) (lit "range"))) as (raw & Hok' & Hraw).
  { destruct Hok as [Hok|Hok]; [|by eexists]. exists None. split; [done|]. destruct Hok as [_ [Hp _]]. congruence. }
  destruct (plan_head _ _ _ _ _ Hh Hok' Htot Hne) as (Hr & Hl & Hp). fold w n in Hr, Hl, Hp.
  split; [done|]. split; [done|]. split.
  - destruct (pl_partial plan); [|done]. destruct Hp as (Hs & Hc & Hv). rewrite Hraw in Hv by done.
    repeat (split; [done|]). by apply Hif.
  - intros results body complete. apply stream_len; try done. unfold in_u in Htot. lia.
Qed.
End Serving.

(** ** Every request is answered *)

Lemma dec_digits_ok fuel n acc :
  header_value_ok acc = true -> header_value_ok (dec_digits fuel n acc) = true.
Proof.
  revert n acc. induction fuel as [|fuel IH]; intros n acc Ha; [exact Ha|]. cbn [dec_digits].
  assert (forall d, 0 <= d < 10 -> header_value_ok (byte_of_Z (48 + d) :: acc) = true) as Hd.
  { intros d Hd. unfold header_value_ok in *. cbn [forallb]. rewrite Ha, andb_true_r.
    assert (d = 0 \/ d = 1 \/ d = 2 \/ d = 3 \/ d = 4 \/ d = 5 \/ d = 6 \/ d = 7 \/ d = 8 \/ d = 9)
      as Hcases by lia.
    repeat (destruct Hcases as [->|Hcases]; [reflexivity|]). by rewrite Hcases. }
  pose proof (Z.mod_pos_bound n 10 ltac:(lia)). case_match; [|apply IH]; by apply Hd.
Qed.

Lemma to_dec_value_ok n : header_value_ok (to_dec n) = true.
Proof. by apply dec_digits_ok. Qed.

Lemma header_value_app a b : header_value_ok (a ++ b) = header_value_ok a && header_value_ok b.
Proof. apply forallb_app. Qed.

Lemma response_head_total hostname service plan :
  header_value_ok hostname = true -> header_value_ok service = true ->
  is_Some (response_head hostname service plan).
Proof.
  intros Hh Hs. unfold response_head.
  assert (forall b n v, is_Some b -> header_value_ok v = true -> is_Some (with_header b n v)) as Hw.
  { intros b n v [h ->] Hv. unfold with_header. cbn. rewrite Hv. by eexists. }
  assert (forall names b, is_Some b -> is_Some (foldl (fun b '(name, value) =>
      match value with
      | Some v => if header_value_ok v then with_header b name v else b
      | None => b
      end) b names)) as Hf.
  { induction names as [|[n [v|]] names IH]; intros b Hb; cbn [foldl]; [done| |by apply IH].
    destruct (header_value_ok v) eqn:E; apply IH; [by apply Hw|done]. }
  apply Hf.
  assert (header_value_ok (content_range (pl_wanted plan) (pl_total_len plan)) = true) as Hc.
  { unfold content_range. by rewrite !header_value_app, !to_dec_value_ok. }
  pose proof (to_dec_value_ok (body_len plan)).
  destruct (_ && _); repeat apply Hw; try done; by destruct (pl_cache_status plan).
Qed.

Lemma service_for_names m host service : service_for m host = Some service -> service ∈ mt_names m.
Proof.
  unfold service_for. destruct (is_empty _); [done|]. case_match.
  - apply list_elem_of_lookup_2.
  - destruct (walk_parents _ _ _); [|done]. apply list_elem_of_lookup_2.
Qed.

(** The messages a client may see. *)
Definition client_messages : list str :=
  [lit "cachic is shutting down" ++ newline; lit "upstream error" ++ newline;
   lit "cachic caches GET and HEAD" ++ newline;
   lit "passthrough is not implemented until TASK-18" ++ newline;
   lit "no cached service matches this host" ++ newline;
   lit "uncached pass-through is not implemented until TASK-18" ++ newline].

Definition reply_ok (r : HttpResponse) : Prop :=
  rs_status r ∈ [200; 206; 204; 404; 405; 416; 501; 502; 503] /\
  match rs_body r with BText m => m ∈ client_messages | _ => True end.

Lemma text_ok status message :
  status ∈ [200; 206; 204; 404; 405; 416; 501; 502; 503] -> message ∈ client_messages ->
  reply_ok (text status message).
Proof. by split. Qed.

Section Answering.
Context {S T : Type} `{Foyer S} `{Redb T}.
Context (config : ServerConfig) (blake3 : bytes -> bytes) (is_match : list str -> str -> bool).
Context (order : gmap ObjectId Readahead.Pattern -> list (ObjectId * Readahead.Pattern)).
Context (hostname_ok : header_value_ok (sc_hostname config) = true).
Context (services_ok : Forall (fun s => header_value_ok s = true) (mt_names (lv_matcher (sc_services config)))).
Implicit Types sh : Shared S T.

Definition served_ok (s : Served) : Prop :=
  match s with Responded r => reply_ok r | Failed _ => True | Panicked => False end.

Lemma service_for_value_ok host service :
  service_for (lv_matcher (sc_services config)) host = Some service -> header_value_ok service = true.
Proof using services_ok.
  rewrite Forall_forall in services_ok. intros Hs. apply services_ok. by eapply service_for_names.
Qed.

Lemma route_ok req :
  match route config is_match req with
  | inl s => served_ok s
  | inr (service, _, _, _) => header_value_ok service = true
  end.
Proof using hostname_ok services_ok.
  unfold route. destruct (is_heartbeat _).
  { unfold heartbeat_respond. split; [cbn [rs_status]; decide_true|done]. }
  destruct (rq_method req); [| |apply text_ok; decide_true];
    (destruct (service_for _ _) as [service|] eqn:Es;
     [destruct (negb _); [apply text_ok; decide_true|by eapply service_for_value_ok]
     |destruct (sc_passthrough_unknown_hosts _); apply text_ok; decide_true]).
Qed.

Lemma respond_plan_ok sh is_head service url fwd plan now raw :
  header_value_ok service = true -> plan_ok raw plan ->
  served_ok (respond_plan config order sh is_head service url fwd plan now).1.1.
Proof using hostname_ok.
  intros Hs [_ Hp]. assert (pl_status plan ∈ [200; 206; 204; 404; 405; 416; 501; 502; 503]) as Hst.
  { destruct (range_spec raw); destruct Hp as (_ & -> & _); decide_true. }
  unfold respond_plan, respond.
  destruct (response_head_total (sc_hostname config) service plan hostname_ok Hs) as [h ->].
  destruct (_ || _); [by split|]. destruct (maybe_prefetch _ _ _ _ _ _). by split.
Qed.

Lemma serve_ok env sh req : served_ok (serve config blake3 is_match order env sh req).1.1.
Proof using hostname_ok services_ok.
  unfold serve. pose proof (route_ok req) as Hr.
  destruct (route _ _ _) as [reply|[[[service key] u] f]]; [exact Hr|].
  destruct (plan_request _ _ _ _ _ _ _ _) as [[p|e] st] eqn:Ep.
  - apply plan_request_ok in Ep. unfold plan_if_range. destruct (header_str _ (lit "if-range")).
    + destruct (negb _); [|by eapply respond_plan_ok].
      destruct (plan_request _ _ _ _ _ _ None _) as [[p'|e] st'] eqn:Ep'; [|done].
      apply plan_request_ok in Ep'. by eapply respond_plan_ok.
    + by eapply respond_plan_ok.
  - destruct e; try done. cbn. unfold with_header. cbn.
    rewrite header_value_app, to_dec_value_ok, andb_true_r. cbn. rewrite hostname_ok. cbn.
    split; [cbn [rs_status]; decide_true|done].
Qed.

End Answering.

(** ** The host header *)

Definition steam_list : DomainList :=
  [mkService (lit "steam") [] [Domains.Suffix (lit "steamcontent.com")]].
Definition toy_server : ServerConfig :=
  mkServerConfig 2 (live_new steam_list) ∅ (lit "cache") false false.

Definition get_request (host target : str) : HttpRequest :=
  mkHttpRequest GET target (Some target) [(lit "host", host)].


(** ** Witnesses *)

Definition toy_env : Environment :=
  mkEnvironment 0 (Ok (toy_response v1.1 v1.2 0)) (Err UBuild).
Definition toy_shared : Shared (gmap SliceKey SliceValue) (gmap ObjectId bytes) :=
  mkShared (mkOrch ∅ ∅ ∅ []) (Readahead.readahead_new 4).
Definition toy_request : HttpRequest :=
  mkHttpRequest GET (lit "/x") (Some (lit "/x"))
    [(lit "host", lit "cdn.steamcontent.com"); (lit "range", lit "bytes=1-2")].
Definition toy_serve :=
  serve toy_server (fun b => b) (fun _ _ => false) map_to_list toy_env toy_shared toy_request.
Definition toy_reply : HttpResponse :=
  match toy_serve.1.1 with Responded r => r | _ => text 0 [] end.
Definition toy_plan : Plan :=
  match rs_body toy_reply with
  | BSlices p _ _ _ => p
  | _ => mkPlan [] 0 (mkByteRange 0 0) 0 Hit (mkObjectMeta [] 0 0 None None None false 0 0 false) [] false
  end.

Lemma response_head_matches_body_witness :
  header_str (rs_headers toy_reply) (lit "content-length") = Some (to_dec 2) /\ rs_status toy_reply = 206.
Proof.
  assert (toy_serve = (Responded toy_reply, toy_serve.1.2, toy_serve.2)) as Hs.
  { rewrite (surjective_pairing toy_serve) at 1. rewrite (surjective_pairing toy_serve.1) at 1.
    f_equal. }
  destruct (response_head_matches_body toy_server (fun b => b) (fun _ _ => false) map_to_list
    toy_env toy_shared toy_request toy_reply toy_serve.1.2 toy_serve.2 toy_plan
    (lit "http://cdn.steamcontent.com/x") [] [0; 1]) as (_ & Hl & Hp & _);
    [cbn; lia|vm_compute; split; congruence|vm_compute; congruence|exact Hs|vm_compute; reflexivity|].
  split; [exact Hl|]. assert (pl_partial toy_plan = true) as E by (vm_compute; reflexivity).
  rewrite E in Hp. apply Hp.
Defined.


(** A host name that is not a header value makes the response to a matched
    request panic, although the heartbeat copes with it. *)
Lemma bad_hostname_panics :
  response_head [x0a] (lit "steam") toy_plan = None /\ (heartbeat_respond [] [x0a]).1 = 204.
Proof. split; vm_compute; reflexivity. Qed.
