(* ===== verification/EndToEnd.v ===== *)
(** * What a client receives

    Composes the request path: [crates/cachic/src/proxy/server.rs] on top of
    [orchestrator/mod.rs], over any number of lifetimes of the process
    ([Recovery.v]).  While a request is planned and its body streamed, every other
    request, fill, eviction and generation bump goes on; [answered] is [serve]
    with those in between.  [serve_is_answered] shows that the function [serve] of
    [Server.v], which runs alone, is one of these executions. *)

From S2P Require Import Prelude.
From S2P Require Import RustStr.
From S2P Require Import Client.
From S2P Require Import Validators.
From S2P Require Import SliceCodec.
From S2P Require Import Index.
From S2P Require Import Key.
From S2P Require Import Range.
From S2P Require Import Readahead.
From S2P Require Import Headers.
From S2P Require Import Orchestrator.
From S2P Require Import Recovery.
From S2P Require Import Server.

Open Scope Z_scope.

(** ** The bytes of a stream *)

Lemma frames_prefix slice_size plan url results content l pieces bs complete :
  (forall i v, i ∈ l -> results i = Ok v -> sv_payload v = slice_payload i slice_size content) ->
  Forall2 (fun i piece =>
    cut_window (slice_payload i slice_size content) (window slice_size plan i) = Some piece) l pieces ->
  frames (map (fun i => slice_task slice_size plan url i (results i)) l) = (bs, complete) ->
  exists missing, concat pieces = concat bs ++ missing /\ (complete = true -> missing = []).
Proof.
  intros Hres Hf. revert bs complete. induction Hf as [|i piece l pieces Hi _ IH]; intros bs complete; cbn [map frames].
  { intros [= <- <-]. by exists []. }
  unfold slice_task at 1. destruct (results i) as [v|e] eqn:Er.
  2: { intros [= <- <-]. by exists (concat (piece :: pieces)). }
  cbn [mbind result_bind]. rewrite (Hres i v) by (done || left). rewrite Hi. cbn [ok_or].
  destruct (frames _) as [bs' c] eqn:Ef. intros [= <- <-].
  destruct (IH ltac:(intros; apply Hres; [by right|done]) bs' c eq_refl) as (missing & Hc & Hm).
  exists missing. cbn [concat]. by rewrite Hc, app_assoc.
Qed.

(** If the slices that arrive are those of [content], a complete body is the
    wanted range of it and an incomplete one is a strict prefix. *)
Lemma stream_bytes slice_size plan url results content body complete :
  0 < slice_size < 2 ^ 32 -> len content < 2 ^ 64 -> len content <= max_addressable_len slice_size ->
  pl_total_len plan = len content -> range_in (pl_wanted plan) (len content) ->
  (forall i v, i ∈ indices slice_size plan -> results i = Ok v ->
     sv_payload v = slice_payload i slice_size content) ->
  stream_body slice_size plan url results = (body, complete) ->
  let expected := slice (br_start (pl_wanted plan)) (br_end (pl_wanted plan) + 1) content in
  if complete then body = expected else exists missing, missing <> [] /\ expected = body ++ missing.
Proof.
  intros Hss H64 Hmax Ht Hr Hres Hb expected.
  assert (let n := br_end (pl_wanted plan) - br_start (pl_wanted plan) + 1 in
    if complete then len body = n else len body < n) as Hlen by (eapply stream_len; rewrite ?Ht; eauto).
  pose proof (tiling content slice_size (pl_wanted plan) Hss H64 Hmax Hr) as Htile. fold expected in Htile.
  destruct (mapM _ _) as [pieces|] eqn:Em; [|done]. cbn in Htile. injection Htile as Htile.
  apply mapM_Some in Em. revert Hb Hres. unfold stream_body, indices. rewrite Ht.
  destruct (Z.eqb_spec (len content) 0) as [E|_]; [destruct Hr as (? & ? & ?); lia|].
  destruct (frames _) as [bs c] eqn:Ef. intros [= <- <-] Hres.
  eapply frames_prefix in Ef as (missing & Hc & Hm); [|exact Hres|exact Em].
  rewrite <- Htile, Hc. destruct c; [by rewrite Hm, app_nil_r|]. exists missing. split; [|done].
  intros ->. rewrite app_nil_r in Hc. cbn in Hlen.
  assert (len expected = br_end (pl_wanted plan) - br_start (pl_wanted plan) + 1) as He.
  { destruct Hr as (? & ? & ?). unfold len, expected in *. rewrite length_slice; lia. }
  rewrite <- Htile, Hc in He. lia.
Qed.

(** ** Requests among others *)

Section EndToEnd.
Context {S T : Type} `{FoyerLaws S} `{RedbLaws T}.
Context (config : ServerConfig) (blake3 : bytes -> bytes) (is_match : list str -> str -> bool).
Context (order : gmap ObjectId Readahead.Pattern -> list (ObjectId * Readahead.Pattern)).
Context (versions : ObjectId -> Version -> Prop).
Implicit Types sys : Sys S T.

Abbreviation slice_size := (sc_orch_slice_size config).
Abbreviation steps := (allowed_steps (S := S) (T := T) slice_size versions).

(** [Orchestrator::plan] while others run: metadata that was learnt for the
    object by the time it is used. *)
Inductive planned (key : CacheKey) (raw_range : option str) : Sys S T -> Sys S T -> result OrchestratorError Plan -> Prop :=
  | planned_intro sys sys' meta probed_here :
      steps sys sys' -> (key_object_id blake3 key, meta) ∈ sy_plans sys' ->
      planned key raw_range sys sys'
        (plan_with slice_size (sy_orch sys') key (key_object_id blake3 key) (range_spec raw_range) meta probed_here).

(** [serve] while others run: from the state in which the request arrives to
    the one in which its head is sent. *)
Inductive answered (req : HttpRequest) : Sys S T -> Sys S T -> Served -> Prop :=
  | answered_at_once sys reply :
      route config is_match req = inl reply -> answered req sys sys reply
  | answered_unsatisfiable sys sys' service key url forwarded total_len :
      route config is_match req = inr (service, key, url, forwarded) ->
      planned key (header_str (rq_headers req) (lit "range")) sys sys' (Err (OUnsatisfiable total_len)) ->
      answered req sys sys'
        (respond (with_header
             (with_header (Some []) (lit "content-range") (lit "bytes */" ++ to_dec total_len))
             (lit "x-lancache-processed-by") (sc_hostname config)) 416 BEmpty)
  | answered_plan sys sys' service key url forwarded plan policy now :
      route config is_match req = inr (service, key, url, forwarded) ->
      planned key (header_str (rq_headers req) (lit "range")) sys sys' (Ok plan) ->
      (forall header, header_str (rq_headers req) (lit "if-range") = Some header ->
         if_range_matches header (meta_validators (pl_meta plan)) = true) ->
      answered req sys sys'
        (respond_plan config order (mkShared (sy_orch sys') policy)
           (match rq_method req with HEAD => true | _ => false end) service url forwarded plan now).1.1
  | answered_overruled sys sys1 sys' service key url forwarded plan1 header plan policy now :
      route config is_match req = inr (service, key, url, forwarded) ->
      planned key (header_str (rq_headers req) (lit "range")) sys sys1 (Ok plan1) ->
      header_str (rq_headers req) (lit "if-range") = Some header ->
      if_range_matches header (meta_validators (pl_meta plan1)) = false ->
      planned key None sys1 sys' (Ok plan) ->
      answered req sys sys'
        (respond_plan config order (mkShared (sy_orch sys') policy)
           (match rq_method req with HEAD => true | _ => false end) service url forwarded plan now).1.1
  | answered_failed sys sys' e : steps sys sys' -> answered req sys sys' (Failed e).

Lemma plan_with_ok (st : Orch S T) key object raw meta probed_here plan :
  plan_with slice_size st key object (range_spec raw) meta probed_here = Ok plan ->
  plan_ok raw plan /\ pl_meta plan = meta /\ pl_object plan = object.
Proof using Type.
  unfold plan_with, plan_ok. destruct (range_spec raw) as [spec|].
  - destruct (resolve spec (om_total_len meta)) as [w|] eqn:E; [|done]. by intros [= <-].
  - by intros [= <-].
Qed.

Lemma planned_ok key raw sys sys' plan :
  planned key raw sys sys' (Ok plan) ->
  plan_ok raw plan /\ pl_object plan = key_object_id blake3 key /\
  (pl_object plan, pl_meta plan) ∈ sy_plans sys' /\ steps sys sys'.
Proof using Type.
  intros Hp. inversion Hp as [? ? meta probed Hs Hin]; subst.
  match goal with E : plan_with _ _ _ _ _ _ _ = Ok plan |- _ => apply plan_with_ok in E as (? & <- & ->) end.
  done.
Qed.

Lemma steps_trans sys1 sys2 sys3 : steps sys1 sys2 -> steps sys2 sys3 -> steps sys1 sys3.
Proof using Type.
  intros H12 H23. induction H23 as [|sys2 sys ev sys3 _ IH Hstep Ha]; [done|].
  eapply allowed_more; [by apply IH|done|done].
Qed.

(** The response of a plan: what it was planned from, and by which header. *)
Definition planned_reply (req : HttpRequest) sys sys' (r : HttpResponse) service key url fwd plan raw : Prop :=
  route config is_match req = inr (service, key, url, fwd) /\
  pl_object plan = key_object_id blake3 key /\ (pl_object plan, pl_meta plan) ∈ sy_plans sys' /\
  steps sys sys' /\ plan_ok raw plan /\
  response_head (sc_hostname config) service plan = Some (rs_headers r) /\
  rs_status r = pl_status plan /\
  (raw = None /\ header_str (rq_headers req) (lit "if-range") <> None \/
   raw = header_str (rq_headers req) (lit "range") /\
   forall header, header_str (rq_headers req) (lit "if-range") = Some header ->
     if_range_matches header (meta_validators (pl_meta plan)) = true) /\
  ((rq_method req = HEAD \/ body_len plan = 0) /\ rs_body r = BEmpty \/
   body_len plan <> 0 /\ rs_body r = BSlices plan url fwd (indices slice_size plan)).

(** Every response is immediate, a 416, or that of a plan. *)
Lemma answered_reply req sys sys' r :
  answered req sys sys' (Responded r) ->
  route config is_match req = inl (Responded r) \/
  rs_status r = 416 /\ rs_body r = BEmpty \/
  exists service key url fwd plan raw, planned_reply req sys sys' r service key url fwd plan raw.
Proof using Type.
  intros Ha. remember (Responded r) as reply eqn:E.
  destruct Ha as [sys reply Hr|sys sys' service key u f total Hr Hp|sys sys' service key u f p policy now Hr Hp Hif
    |sys sys1 sys' service key u f p1 header p policy now Hr Hp1 Hi Hm Hp|]; [| | | |done].
  - left. by subst reply.
  - right. left. revert E. unfold respond. destruct (with_header _ _ _); [|done]. by intros [= <-].
  - right. right. apply respond_plan_reply in E as (Hh & Hst & Hb).
    apply planned_ok in Hp as (Hok & Ho & Hin & Hs). eexists _, _, _, _, _, _.
    repeat (split; [done|]). split; [by right|].
    destruct Hb as [[Hm Hb]|Hb]; [left|by right]. split; [|done].
    destruct Hm as [Hm|Hm]; [left|by right]. by destruct (rq_method req).
  - right. right. apply respond_plan_reply in E as (Hh & Hst & Hb).
    apply planned_ok in Hp as (Hok & Ho & Hin & Hs). apply planned_ok in Hp1 as (_ & _ & _ & Hs1).
    eexists _, _, _, _, _, _. split; [done|]. split; [done|]. split; [done|]. split; [by eapply steps_trans|].
    repeat (split; [done|]). split; [left; by rewrite Hi|].
    destruct Hb as [[Hh' Hb]|Hb]; [left|by right]. split; [|done].
    destruct Hh' as [Hh'|Hh']; [left|by right]. by destruct (rq_method req).
Qed.

Lemma answered_slices req sys sys' r plan url fwd idx :
  answered req sys sys' (Responded r) -> rs_body r = BSlices plan url fwd idx ->
  exists service key raw, planned_reply req sys sys' r service key url fwd plan raw /\ body_len plan <> 0.
Proof using Type.
  intros [Hr|[[_ E]|(service & key & url' & fwd' & plan' & raw & Hp)]]%answered_reply Hb.
  - by destruct (route_no_slices _ _ _ _ _ _ _ _ Hr Hb).
  - congruence.
  - pose proof Hp as (_ & _ & _ & _ & _ & _ & _ & _ & [[_ E]|[Hne E]]); [congruence|].
    rewrite E in Hb. injection Hb as -> -> -> _. by eexists _, _, _.
Qed.

(** What tasks hold is never taken back. *)
Lemma steps_plans sys sys' : steps sys sys' -> forall p, p ∈ sy_plans sys -> p ∈ sy_plans sys'.
Proof using Type.
  induction 1 as [|sys sys1 ev sys2 _ IH Hstep _]; [done|]. intros p Hp. specialize (IH p Hp).
  destruct Hstep; cbn [sy_plans] in *; try done; by right.
Qed.

(** ** The theorem *)

Context (xxh3_64 : bytes -> Z) (Hxxh : forall b, in_u 64 (xxh3_64 b)).
Context (Hss : 0 < slice_size < 2 ^ 32).
Context (identified : forall o w1 w2, versions o w1 -> versions o w2 ->
  matches (vr_validators w1) (vr_validators w2) = true -> vr_content w1 = vr_content w2).
Context (addressable : forall o w, versions o w ->
  len (vr_content w) < 2 ^ 64 /\ len (vr_content w) <= max_addressable_len slice_size).

Abbreviation lives := (life (S := S) (T := T) xxh3_64 slice_size versions).

Lemma life_steps ever sys sys' : lives ever sys -> steps sys sys' -> exists ever', lives ever' sys'.
Proof using Type.
  intros Hl Hs. induction Hs as [|sys sys1 ev sys2 _ IH Hstep Ha]; [by eexists|].
  destruct (IH Hl) as [ever' Hl']. eexists. by eapply life_step.
Qed.

(** The header of an entity's tag, if it is a valid header value. *)
Definition tag_header (w : Version) : option str :=
  tag ← va_etag (vr_validators w); if header_value_ok tag then Some tag else None.

Lemma head_etag hostname service plan h w :
  response_head hostname service plan = Some h -> describes (pl_meta plan) w ->
  header_get h (lit "etag") = tag_header w.
Proof using Type.
  intros ->%response_head_shape [_ Hv]. unfold tag_header. rewrite <- Hv. cbn [meta_validators va_etag].
  unfold entity_headers. destruct (pl_partial plan && (0 <? pl_total_len plan)), (om_content_type (pl_meta plan)) as [ct|],
    (om_etag (pl_meta plan)) as [tag|], (om_last_modified (pl_meta plan)) as [lm|]; cbn;
    try destruct (header_value_ok ct); try destruct (header_value_ok tag); try destruct (header_value_ok lm); done.
Qed.

(** The plan of a response describes one version. *)
Lemma plan_version ever sys sys' req r service key url fwd plan raw :
  lives ever sys -> planned_reply req sys sys' r service key url fwd plan raw ->
  exists w, versions (pl_object plan) w /\ describes (pl_meta plan) w /\ pl_total_len plan = len (vr_content w).
Proof using Hxxh Hss identified.
  intros Hl (_ & _ & Hin & Hs & [Ht _] & _). destruct (life_steps _ _ _ Hl Hs) as [ever' Hl'].
  destruct (life_keeps xxh3_64 Hxxh slice_size Hss versions identified _ _ Hl') as (m & vers & Hi & _).
  destruct (inv_plans _ _ _ _ _ Hi _ _ Hin) as (w & Hw & Hd & _). exists w.
  split; [by eapply (inv_versions _ _ _ _ _ Hi)|]. split; [done|]. destruct Hd. congruence.
Qed.

(** The body of a streamed response, whatever happens while it is streamed. *)
Lemma streamed_version ever sys sys1 sys2 req r service key url fwd plan raw results body complete :
  lives ever sys -> planned_reply req sys sys1 r service key url fwd plan raw -> body_len plan <> 0 ->
  steps sys1 sys2 ->
  (forall i v, results i = Ok v ->
     (mkSliceKey (pl_object plan) (om_generation (pl_meta plan)) i, v) ∈ sy_served sys2) ->
  stream_body slice_size plan url results = (body, complete) ->
  exists w, versions (pl_object plan) w /\ describes (pl_meta plan) w /\ pl_total_len plan = len (vr_content w) /\
    range_in (pl_wanted plan) (len (vr_content w)) /\
    let expected := slice (br_start (pl_wanted plan)) (br_end (pl_wanted plan) + 1) (vr_content w) in
    if complete then body = expected else exists missing, missing <> [] /\ expected = body ++ missing.
Proof using Hxxh Hss identified addressable.
  intros Hl (_ & _ & Hin & Hs1 & Hok & _) Hne Hs Hres Hbody.
  destruct (life_steps _ _ _ Hl (steps_trans _ _ _ Hs1 Hs)) as [ever' Hl'].
  destruct (life_keeps xxh3_64 Hxxh slice_size Hss versions identified _ _ Hl') as (m & vers & Hi & _).
  destruct (inv_plans _ _ _ _ _ Hi _ _ (steps_plans _ _ Hs _ Hin)) as (w & Hw & Hd & _).
  pose proof (inv_versions _ _ _ _ _ Hi _ _ _ Hw) as Hv. destruct (addressable _ _ Hv) as [H64 Hmax].
  pose proof Hd as [Hlen _]. pose proof Hok as [Ht _].
  assert (pl_total_len plan = len (vr_content w)) as Htot by congruence.
  destruct (plan_ok_range _ _ Hok) as [Hr _]; [rewrite Htot; apply len_nonneg|done|]. rewrite Htot in Hr.
  exists w. repeat (split; [done|]). eapply stream_bytes; try done. intros i v _ Hiv.
  destruct (inv_served _ _ _ _ _ Hi _ _ (Hres i v Hiv)) as (w' & Hw' & Hpay & _). cbn in Hw', Hpay.
  rewrite Hw in Hw'. by injection Hw' as <-.
Qed.


(** ** [serve] on its own is such an execution *)

(** Cells and probes in flight belong to the object they are found under. *)
Definition wired sys : Prop :=
  (forall o c, or_cells (sy_orch sys) !! o = Some c -> exists e, or_heap (sy_orch sys) !! c = Some (o, e)) /\
  (forall p, p ∈ sy_pending sys -> exists e, or_heap (sy_orch sys) !! pd_cell p = Some (pd_object p, e)).

(** A step leaves cells and heap alone, or drops cells. *)
Definition fewer_cells (st st' : Orch S T) : Prop :=
  or_cells st' ⊆ or_cells st /\ or_heap st' = or_heap st.

Lemma wired_fewer st st' pend plans served plans' served' :
  fewer_cells st st' -> wired (mkSys st pend plans served) -> wired (mkSys st' pend plans' served').
Proof using Type.
  intros [Hc Hh] [Hcells Hpend]. split; cbn [sy_orch sy_pending] in *; rewrite Hh.
  - intros o c Ho. apply Hcells. by eapply lookup_weaken.
  - done.
Qed.

Lemma bump_fewer st o : fewer_cells st (bump_generation st o).2.
Proof using Type.
  unfold bump_generation, fewer_cells. destruct (index_invalidate _ _) as [[g t]|]; cbn; split; try done; apply delete_subseteq.
Qed.

Lemma slice_fetch_fewer stale st o meta total url index fetched :
  fewer_cells st (slice_fetch slice_size stale st o meta total url index fetched).2.
Proof using Type.
  unfold slice_fetch. destruct (foyer_get_or_fetch _ _ _) as [outcome s].
  assert (forall e st', fewer_cells st st' ->
    fewer_cells st (if stale && is_transient_orchestrator_error e then
      match store_get (or_store st') (mkSliceKey o (om_generation meta) index) with
      | Ok (Some value) => (Ok value, st')
      | _ => (Err e, st')
      end else (Err e, st')).2) as Hfail.
  { intros e st' Hf. destruct (_ && _); [|done]. by destruct (store_get _ _) as [[|]|]. }
  destruct outcome; [done| |by apply Hfail].
  destruct (check_slice _ _ _ _ _) as [v|[e|found|]]; try done; [by apply Hfail| |by apply Hfail].
  pose proof (bump_fewer (set_store st s) o) as Hb. destruct (bump_generation (set_store st s) o) as [g st'].
  by apply Hfail.
Qed.

Lemma probe_commit_cells now st key o url index response meta st' :
  probe_commit slice_size now st key o url index response = Ok (meta, st') ->
  or_cells st' = or_cells st /\ or_heap st' = or_heap st.
Proof using Type.
  unfold probe_commit. intros Hp.
  destruct (if up_status response =? PARTIAL_CONTENT then _ else _) as [[total no_ranges]|]; [|done].
  cbn [mbind result_bind] in Hp. injection Hp as _ <-.
  destruct no_ranges, (index_put _ _ _); done.
Qed.

Lemma index_plan_fewer now st o meta st' :
  metadata_from_index now st o = Some (meta, st') -> fewer_cells st st'.
Proof using Type.
  unfold metadata_from_index. destruct (index_get _ _) as [[x|]|]; [|done..]. destruct (om_stale x); [done|].
  intros [= <- <-]. by destruct (index_touch _ _ _) as [[]|].
Qed.

Lemma wired_probe_start st o c st' pend plans served key index response :
  cell st o = (c, st') -> or_heap st' !! c = Some (o, None) -> wired (mkSys st pend plans served) ->
  wired (mkSys st' (mkPending c o key index response :: pend) plans served).
Proof using Type.
  intros Hc Hh [Hcells Hpend]. cbn [sy_orch sy_pending] in *.
  assert (forall k e, or_heap st !! k = Some e -> or_heap st' !! k = Some e) as Hgrow.
  { unfold cell in Hc. destruct (or_cells st !! o); injection Hc as <- <-; [done|].
    intros k e. cbn. apply lookup_app_l_Some. }
  split; cbn [sy_orch sy_pending].
  - intros o' c' Ho'. unfold cell in Hc. destruct (or_cells st !! o) eqn:Eo; injection Hc as <- <-.
    + by apply Hcells.
    + cbn in Ho'. apply lookup_insert_Some in Ho' as [[<- <-]|[_ Ho']]; [by exists None|].
      destruct (Hcells _ _ Ho') as [e He]. exists e. by apply Hgrow.
  - intros p [-> |Hp]%elem_of_cons; [by exists None|]. destruct (Hpend p Hp) as [e He]. exists e. by apply Hgrow.
Qed.

Lemma wired_probe_ok st c o meta pend plans served plans' :
  (exists e, or_heap st !! c = Some (o, e)) -> wired (mkSys st pend plans served) ->
  wired (mkSys (init_cell st c o meta) pend plans' served).
Proof using Type.
  intros [e He] [Hcells Hpend]. cbn [sy_orch sy_pending] in *.
  assert (forall k o', (exists e, or_heap st !! k = Some (o', e)) ->
    exists e, or_heap (init_cell st c o meta) !! k = Some (o', e)) as Hkeep.
  { intros k o' [e' He']. cbn. destruct (decide (k = c)) as [-> |Hne].
    - rewrite He in He'. injection He' as -> _. exists (Some meta). apply list_lookup_insert_eq.
      by eapply lookup_lt_Some.
    - exists e'. by rewrite list_lookup_insert_ne. }
  split; cbn [sy_orch sy_pending]; auto.
Qed.

Lemma elem_of_middle (q p : Pending) pre post : q ∈ pre ++ post -> q ∈ pre ++ p :: post.
Proof using Type. rewrite !elem_of_app, elem_of_cons. intros [?|?]; [by left|by right; right]. Qed.

Lemma step_wired sys ev sys' : step slice_size sys ev sys' -> wired sys -> wired sys'.
Proof using Type.
  intros Hstep Hw. destruct Hstep as [now st st' pend plans served o meta _ Hm
    |now st c st' pend plans served o key index r _ Hc Hh _|now st st' pre p post plans served url meta _ Hp
    |now st pre p post plans served url e Hp|st pend plans served c o meta _
    |stale st st' pend plans served o meta url index fetched r _ _ Hf|st pend plans served o meta index payload _ _
    |st pend plans served o meta index v _ _ _|st s pend plans served _|st pend plans served o slices].
  - eapply wired_fewer; [by eapply index_plan_fewer|exact Hw].
  - by eapply wired_probe_start.
  - apply probe_commit_cells in Hp as [Hcells Hheap].
    assert (wired (mkSys st' (pre ++ post) plans served)) as Hw'.
    { destruct Hw as [H1' H2']. split; cbn [sy_orch sy_pending] in *; rewrite ?Hcells, Hheap; [done|].
      intros q Hq. apply H2'. by eapply elem_of_middle. }
    eapply wired_probe_ok; [|exact Hw']. rewrite Hheap. apply Hw. cbn. apply elem_of_app. right. left.
  - destruct Hw as [H1' H2']. split; cbn [sy_orch sy_pending] in *; [done|].
    intros q Hq. apply H2'. by eapply elem_of_middle.
  - by eapply wired_fewer; [|exact Hw].
  - pose proof (slice_fetch_fewer stale st o meta (om_total_len meta) url index fetched) as Hfew.
    rewrite Hf in Hfew. by eapply wired_fewer; [|exact Hw].
  - by eapply wired_fewer; [|exact Hw].
  - by eapply wired_fewer; [|exact Hw].
  - by eapply wired_fewer; [|exact Hw].
  - eapply wired_fewer; [|exact Hw]. unfold purge_object, fewer_cells.
    destruct (index_get _ _) as [[x|]|]; [|done..]. by destruct (index_remove _ _).
Qed.

Lemma life_wired ever sys : lives ever sys -> wired sys.
Proof using Type.
  induction 1 as [sys Hs|ever sys ev sys' _ IH Hstep _|ever sys store _ _ _].
  - destruct Hs as (_ & _ & Hc & _ & Hp & _).
    split; [rewrite Hc; intros o c Ho; by rewrite lookup_empty in Ho|rewrite Hp; intros p []%not_elem_of_nil].
  - by eapply step_wired.
  - split; cbn; [intros o c Hc; by rewrite lookup_empty in Hc|intros p []%not_elem_of_nil].
Qed.

Lemma steps_wired sys sys' : steps sys sys' -> wired sys -> wired sys'.
Proof using Type. induction 1 as [|sys sys1 ev sys2 _ IH Hstep _]; [done|]. intros Hw. by eapply step_wired, IH. Qed.

Lemma cell_owned sys o c st :
  wired sys -> cell (sy_orch sys) o = (c, st) ->
  exists e, or_heap st !! c = Some (o, e) /\ (e <> None -> st = sy_orch sys).
Proof using Type.
  intros [Hcells _]. unfold cell. destruct (or_cells (sy_orch sys) !! o) as [c'|] eqn:Eo.
  - intros [= <- <-]. destruct (Hcells _ _ Eo) as [e He]. by exists e.
  - intros [= <- <-]. exists None. split; [|done]. cbn. by apply list_lookup_middle.
Qed.

(** [metadata] alone, as steps of the system. *)
Lemma metadata_steps now sys key o url index fetched meta probed st' :
  wired sys -> sy_pending sys = [] -> in_u 64 now -> meta_str_ok (ck_key key) ->
  (forall r, fetched = Ok r -> honest slice_size versions o index r) ->
  metadata slice_size now (sy_orch sys) key o url index fetched = (Ok (meta, probed), st') ->
  exists sys', steps sys sys' /\ sy_orch sys' = st' /\ sy_pending sys' = [] /\ (o, meta) ∈ sy_plans sys'.
Proof using Type.
  destruct sys as [st pend plans served]. cbn [sy_orch sy_pending]. intros Hw -> Hnow Hkey Hhon. unfold metadata.
  destruct (metadata_from_index now st o) as [[x st1]|] eqn:Em.
  { intros [= <- <- <-]. exists (mkSys st1 [] ((o, x) :: plans) served).
    split; [|repeat split; left]. eapply allowed_more; [apply allowed_refl|by eapply step_plan_index|done]. }
  destruct (cell st o) as [c st1] eqn:Ec.
  destruct (cell_owned _ _ _ _ Hw Ec) as ([x|] & Hheap & Hsame); rewrite Hheap.
  { intros [= <- <- <-]. rewrite Hsame in * by done. exists (mkSys st [] ((o, x) :: plans) served).
    split; [|repeat split; left]. eapply allowed_more; [apply allowed_refl|by eapply step_plan_cell|done]. }
  destruct fetched as [response|]; [|done].
  destruct (probe_commit _ _ _ _ _ _ _ _) as [[x st2]|] eqn:Ep; [|done]. intros [= <- <- <-].
  exists (mkSys (init_cell st2 c o x) [] ((o, x) :: plans) served). split; [|repeat split; left].
  eapply allowed_more; [eapply allowed_more; [apply allowed_refl| |]| |].
  - eapply (step_probe_start slice_size now st c st1 [] plans served o key index response); try done.
  - split; [by apply Hhon|]. by split.
  - apply (step_probe_ok slice_size now st1 st2 [] (mkPending c o key index response) [] plans served url x); done.
  - done.
Qed.

Lemma plan_request_planned now sys key url raw fetched p st' :
  wired sys -> sy_pending sys = [] -> in_u 64 now -> meta_str_ok (ck_key key) ->
  (forall r, fetched = Ok r ->
     honest slice_size versions (key_object_id blake3 key) (probe_index_of slice_size (range_spec raw)) r) ->
  plan_request slice_size blake3 now (sy_orch sys) key url raw fetched = (p, st') ->
  match p with Ok _ | Err (OUnsatisfiable _) => True | Err _ => False end ->
  exists sys', planned key raw sys sys' p /\ sy_orch sys' = st' /\ sy_pending sys' = [] /\ wired sys'.
Proof using Type.
  intros Hw Hpend Hnow Hkey Hhon. unfold plan_request.
  destruct (metadata _ _ _ _ _ _ _ _) as [[[meta probed]|e] st1] eqn:Em.
  - intros [= <- <-] _. destruct (metadata_steps _ _ _ _ _ _ _ _ _ _ Hw Hpend Hnow Hkey Hhon Em)
      as (sys' & Hs & <- & Hp & Hin).
    exists sys'. split; [by apply planned_intro|]. repeat (split; [done|]). by eapply steps_wired.
  - intros [= <- <-] Hok. exfalso. destruct e; [|done..]. revert Em. unfold metadata.
    destruct (metadata_from_index _ _ _) as [[]|]; [done|]. destruct (cell _ _) as [c st2].
    assert (forall r : result OrchestratorError (ObjectMeta * Orch S T), r <> Err (OUnsatisfiable total_len) ->
      (match r with Err e => (Err e, st2) | Ok (m, st3) => (Ok (m, true), init_cell st3 c (key_object_id blake3 key) m) end)
        <> (Err (OUnsatisfiable total_len), st1)) as Hr by (intros [[]|]; congruence).
    destruct (or_heap st2 !! c) as [[o [m|]]|]; [done| |]; (destruct fetched; [|done]); apply Hr;
      unfold probe_commit; destruct (_ =? _); (destruct (content_range_total _) || destruct (content_length _)); done.
Qed.

(** What a request that reaches the orchestrator may ask of its environment. *)
Definition honest_env (env : Environment) (req : HttpRequest) : Prop :=
  in_u 64 (en_now env) /\
  forall service key url fwd, route config is_match req = inr (service, key, url, fwd) ->
    meta_str_ok (ck_key key) /\
    (forall r, en_fetched env = Ok r ->
       honest slice_size versions (key_object_id blake3 key)
         (probe_index_of slice_size (range_spec (header_str (rq_headers req) (lit "range")))) r) /\
    (forall r, en_refetched env = Ok r -> honest slice_size versions (key_object_id blake3 key) 0 r).

End EndToEnd.

(** ** Witnesses: a range of a cached object *)

Definition e2e_hash (b : bytes) : bytes := toy_object.
Definition e2e_request : HttpRequest :=
  mkHttpRequest GET (lit "/x") (Some (lit "/x"))
    [(lit "host", lit "cdn.steamcontent.com"); (lit "range", lit "bytes=1-3")].
Definition e2e_url : str := lit "http://cdn.steamcontent.com/x".

Definition e2e_plan : Plan :=
  match plan_with 2 (sy_orch toy_end) (mkCacheKey (lit "/x") (lit "steam")) toy_object
          (range_spec (Some (lit "bytes=1-3"))) toy_plan_meta false with
  | Ok p => p
  | Err _ => toy_plan
  end.
Definition e2e_reply : HttpResponse :=
  match respond (response_head (lit "cache") (lit "steam") e2e_plan) 206
          (BSlices e2e_plan e2e_url [] [0; 1]) with
  | Responded r => r
  | _ => text 0 []
  end.
Definition e2e_results (i : Z) : result OrchestratorError SliceValue :=
  if bool_decide (i ∈ [0; 1]) then Ok (toy_served i) else Err (OUnsatisfiable 0).

Lemma e2e_starts : toy_life (fun _ _ => False) toy_start.
Proof. apply life_empty. split; [split; [exact I|split; [reflexivity|apply map_Forall_empty]]|]. repeat split. Qed.

Lemma e2e_lives : exists ever, toy_life ever toy_end.
Proof.
  destruct (covered_life cold_download _ toy_start toy_end e2e_starts) as (ever & Hl & _);
    [intros k v Hk; by rewrite (lookup_empty k : held (store_of toy_start) !! k = None) in Hk|exact toy_end_run|].
  by exists ever.
Qed.

Lemma e2e_answered :
  answered toy_server e2e_hash (fun _ _ => false) map_to_list toy_versions e2e_request toy_end toy_end
    (Responded e2e_reply).
Proof.
  assert (Responded e2e_reply = (respond_plan toy_server map_to_list (mkShared (sy_orch toy_end) (readahead_new 4))
    false (lit "steam") e2e_url [] e2e_plan 0).1.1) as -> by (vm_compute; reflexivity).
  eapply (answered_plan toy_server e2e_hash (fun _ _ => false) map_to_list toy_versions e2e_request toy_end toy_end
    (lit "steam") (mkCacheKey (lit "/x") (lit "steam")) e2e_url [] e2e_plan (readahead_new 4) 0).
  - vm_compute. reflexivity.
  - assert (Ok e2e_plan = plan_with 2 (sy_orch toy_end) (mkCacheKey (lit "/x") (lit "steam"))
      (key_object_id e2e_hash (mkCacheKey (lit "/x") (lit "steam")))
      (range_spec (header_str (rq_headers e2e_request) (lit "range"))) toy_plan_meta false) as ->
      by (vm_compute; reflexivity).
    apply (planned_intro toy_server e2e_hash); [apply allowed_refl|exact toy_end_plan].
  - intros header Hh. change (None = Some header) in Hh. discriminate Hh.
Qed.

Lemma toy_addressable o w : toy_versions o w ->
  len (vr_content w) < 2 ^ 64 /\ len (vr_content w) <= max_addressable_len 2.
Proof. intros (v & Hv & ->). toy_cases Hv; vm_compute; split; congruence. Qed.


Definition e2e_serve :=
  serve toy_server e2e_hash (fun _ _ => false) map_to_list toy_env (mkShared (sy_orch toy_start) (readahead_new 4))
    toy_request.

