(* ===== verification/Stream.v ===== *)
(** * The body of a response, while it is streamed

    Models the stream [serve] of [crates/cachic/src/proxy/server.rs] answers
    with: one detached task per slice, [futures]' [buffered] in front of them, the
    frames in order.  [Server.v]'s [stream_body] says what the client receives for
    given slice results; here the same body is produced one event at a time, with
    tasks that finish in any order, a client that may leave at any point and tasks
    that go on without it.

    [stream_act] is the machine: [Pull] spawns the task of the next slice, [Finish]
    is a task coming to its result, [Send] passes the oldest result to the
    connection and [Hangup] is the client leaving.  The theorem at the end shows
    the machine bounded, never stuck, finite, and a refinement of [stream_body]. *)

From S2P Require Import Prelude.
From S2P Require Import RustStr.
From S2P Require Import Range.
From S2P Require Import SliceCodec.
From S2P Require Import Index.
From S2P Require Import Client.
From S2P Require Import Config.
From S2P Require Import Headers.
From S2P Require Import Orchestrator.
From S2P Require Import Server.

Open Scope Z_scope.

(** ** The machine *)

(** [Orchestrator::new] keeps at least one slice in flight. *)
Definition readahead_of (readahead : Z) : Z := Z.max readahead 1.

(** A slice in the window: its task, and the result once there is one. *)
Record Slot := mkSlot { sl_index : Z; sl_result : option (result OrchestratorError bytes) }.

(** [Gone]: the client has left.  [Aborted]: an error frame ended the connection. *)
Inductive Phase := Streaming | Aborted | Gone.

Record Stream := mkStream {
  sm_todo : list Z;
  sm_slots : list Slot;
  sm_sent : list bytes;
  sm_phase : Phase }.

Inductive Event := Pull | Finish (index : Z) | Send | Hangup.

#[export] Instance Phase_eq_dec : EqDecision Phase.
Proof. solve_decision. Defined.

Section Machine.
Context (window : Z) (outcome : Z -> result OrchestratorError bytes).

Definition stream_init (indices : list Z) : Stream := mkStream indices [] [] Streaming.

(** The task of [index] ends. *)
Fixpoint finish_slot (index : Z) (slots : list Slot) : option (list Slot) :=
  match slots with
  | [] => None
  | s :: slots' =>
      if (sl_index s =? index) && (match sl_result s with None => true | Some _ => false end)
      then Some (mkSlot index (Some (outcome index)) :: slots')
      else rest ← finish_slot index slots'; Some (s :: rest)
  end.

(** One event; [None] where the machine cannot take it.  Results wait in the
    window until every earlier slice has been sent, and count against it.  A task
    is detached: it ends whether or not the client is still there. *)
Definition stream_act (e : Event) (s : Stream) : option Stream :=
  match e, sm_phase s with
  | Pull, Streaming =>
      match sm_todo s with
      | i :: todo =>
          if len (sm_slots s) <? window
          then Some (mkStream todo (sm_slots s ++ [mkSlot i None]) (sm_sent s) Streaming)
          else None
      | [] => None
      end
  | Finish i, phase =>
      slots ← finish_slot i (sm_slots s); Some (mkStream (sm_todo s) slots (sm_sent s) phase)
  | Send, Streaming =>
      match sm_slots s with
      | mkSlot _ (Some (Ok b)) :: slots => Some (mkStream (sm_todo s) slots (sm_sent s ++ [b]) Streaming)
      | mkSlot _ (Some (Err _)) :: slots => Some (mkStream (sm_todo s) slots (sm_sent s) Aborted)
      | _ => None
      end
  | Hangup, Streaming => Some (mkStream (sm_todo s) (sm_slots s) (sm_sent s) Gone)
  | _, _ => None
  end.

Fixpoint stream_run (es : list Event) (s : Stream) : option Stream :=
  match es with
  | [] => Some s
  | e :: es => s' ← stream_act e s; stream_run es s'
  end.

(** The stream has ended: [poll_next] answers [None]. *)
Definition stream_done (s : Stream) : bool :=
  match sm_todo s, sm_slots s with [], [] => true | _, _ => false end.

(** The bytes of the results that wait to be sent. *)
Definition slot_bytes (sl : Slot) : Z :=
  match sl_result sl with Some (Ok b) => len b | _ => 0 end.
Definition waiting (s : Stream) : Z :=
  foldr (fun sl n => slot_bytes sl + n) 0 (sm_slots s).

(** ** Termination *)

Definition slot_work (sl : Slot) : nat := match sl_result sl with None => 2 | Some _ => 1 end.
Definition work (s : Stream) : nat :=
  (3 * length (sm_todo s) + sum_list_with slot_work (sm_slots s) +
   match sm_phase s with Streaming => 1 | _ => 0 end)%nat.

Lemma finish_slot_spec i slots slots' :
  finish_slot i slots = Some slots' ->
  exists before after, slots = before ++ mkSlot i None :: after /\
    slots' = before ++ mkSlot i (Some (outcome i)) :: after.
Proof.
  revert slots'. induction slots as [|[j r] slots IH]; intros slots'; [done|]. cbn [finish_slot sl_index sl_result].
  destruct (Z.eqb_spec j i) as [->|Hne]; [destruct r as [r|]|]; cbn [andb].
  2: { intros [= <-]. by exists [], slots. }
  all: destruct (finish_slot i slots) as [rest|]; [|done]; intros [= <-];
    destruct (IH _ eq_refl) as (before & after & -> & ->); eexists (_ :: before), after; done.
Qed.

Lemma finish_slot_can i before after :
  exists slots', finish_slot i (before ++ mkSlot i None :: after) = Some slots'.
Proof.
  induction before as [|[j r] before IH]; cbn [app finish_slot sl_index sl_result].
  { rewrite Z.eqb_refl. by eexists. }
  destruct IH as [slots' ->]. destruct ((j =? i) && _); by eexists.
Qed.

(** Every event uses up work. *)
Lemma act_work e s s' : stream_act e s = Some s' -> (work s' < work s)%nat.
Proof.
  destruct s as [todo slots sent phase]. unfold work. destruct e; cbn.
  - destruct phase; [|done..]. destruct todo as [|i todo]; [done|].
    case_match; [|done]. intros [= <-]. cbn. rewrite sum_list_with_app. cbn. lia.
  - destruct (finish_slot index slots) as [slots'|] eqn:E; [|by destruct phase].
    apply finish_slot_spec in E as (before & after & -> & ->).
    destruct phase; intros [= <-]; cbn; rewrite !sum_list_with_app; cbn; lia.
  - destruct phase; [|done..]. destruct slots as [|[i [[b|err]|]] slots]; [done| | |done];
      intros [= <-]; cbn; lia.
  - destruct phase; [|done..]. intros [= <-]. cbn. lia.
Qed.

Lemma run_work es s s' : stream_run es s = Some s' -> (length es + work s' <= work s)%nat.
Proof.
  revert s. induction es as [|e es IH]; intros s; cbn [stream_run length].
  { intros [= ->]. lia. }
  destruct (stream_act e s) as [s1|] eqn:E; [|done]. cbn [mbind option_bind]. intros Hr.
  apply act_work in E. apply IH in Hr. lia.
Qed.

(** ** Order, and what has been sent *)

Lemma frames_app rs rs' bs c :
  frames rs = (bs, c) ->
  frames (rs ++ rs') = if c then let '(cs, c') := frames rs' in (bs ++ cs, c') else (bs, false).
Proof.
  revert bs c. induction rs as [|[b|e] rs IH]; intros bs c; cbn [frames app].
  - intros [= <- <-]. by destruct (frames rs').
  - destruct (frames rs) as [bs' c'] eqn:E. intros [= <- <-]. rewrite (IH _ _ eq_refl).
    destruct c'; [|done]. by destruct (frames rs').
  - by intros [= <- <-].
Qed.

(** The window holds a stretch of the slices, in order: those before it are
    sent, up to and including a failed one, and those after it not begun. *)
Record stream_ok (indices : list Z) (s : Stream) : Prop := mkOk {
  ok_window : len (sm_slots s) <= window;
  ok_results : Forall (fun sl => forall r, sl_result sl = Some r -> r = outcome (sl_index sl)) (sm_slots s);
  ok_split : exists taken, indices = taken ++ map sl_index (sm_slots s) ++ sm_todo s /\
    frames (map outcome taken) = (sm_sent s, negb (bool_decide (sm_phase s = Aborted))) }.

Lemma init_ok indices : 0 <= window -> stream_ok indices (stream_init indices).
Proof. intros Hw. split; [done|constructor|by exists []]. Qed.

Lemma pull_ok indices i todo slots sent :
  len slots < window ->
  stream_ok indices (mkStream (i :: todo) slots sent Streaming) ->
  stream_ok indices (mkStream todo (slots ++ [mkSlot i None]) sent Streaming).
Proof.
  intros Hlt [Hw Hr (taken & Hs & Hf)]. split; cbn in *.
  - rewrite len_app. unfold len in *. cbn. lia.
  - apply Forall_app. split; [done|]. by repeat constructor.
  - exists taken. split; [|done]. by rewrite Hs, map_app, <- app_assoc.
Qed.

Lemma finish_ok indices i todo slots slots' sent phase :
  finish_slot i slots = Some slots' ->
  stream_ok indices (mkStream todo slots sent phase) -> stream_ok indices (mkStream todo slots' sent phase).
Proof.
  intros (before & after & -> & ->)%finish_slot_spec [Hw Hr Hs]. split; cbn in *.
  - revert Hw. by rewrite !len_app.
  - apply Forall_app in Hr as [Hb Ha]. inversion_clear Ha. apply Forall_app. split; [done|].
    constructor; [|done]. cbn. by intros r [= <-].
  - by rewrite map_app in *.
Qed.

Lemma send_ok indices i r todo slots sent :
  stream_ok indices (mkStream todo (mkSlot i (Some r) :: slots) sent Streaming) ->
  stream_ok indices
    (match r with
     | Ok b => mkStream todo slots (sent ++ [b]) Streaming
     | Err _ => mkStream todo slots sent Aborted
     end).
Proof.
  intros [Hw Hr (taken & Hs & Hf)]. cbn in *. inversion_clear Hr as [|? ? Hi Hr'].
  pose proof (Hi _ eq_refl) as Ho. cbn in Ho.
  assert (len slots <= window) as Hw' by (unfold len in *; cbn in Hw; lia).
  assert (frames (map outcome (taken ++ [i])) = let '(cs, c) := frames [r] in (sent ++ cs, c)) as Hf'
    by (rewrite map_app, (frames_app _ _ _ _ Hf), Ho; done).
  assert (indices = (taken ++ [i]) ++ map sl_index slots ++ todo) as Hs' by (by rewrite Hs, <- app_assoc).
  destruct r as [b|e]; (split; [done|done|exists (taken ++ [i]); split; [done|]]); rewrite Hf'; cbn;
    by rewrite ?app_nil_r.
Qed.

Lemma act_ok indices e s s' : stream_act e s = Some s' -> stream_ok indices s -> stream_ok indices s'.
Proof.
  destruct s as [todo slots sent phase]. destruct e; cbn.
  - destruct phase; [|done..]. destruct todo as [|i todo]; [done|].
    destruct (Z.ltb_spec (len slots) window); [|done]. intros [= <-]. by apply pull_ok.
  - destruct (finish_slot index slots) as [slots'|] eqn:E; [|by destruct phase].
    destruct phase; intros [= <-]; by apply (finish_ok _ index).
  - destruct phase; [|done..]. destruct slots as [|[i [[b|err]|]] slots]; [done| | |done];
      intros [= <-] Hok; apply (send_ok _ _ _ _ _ _ Hok).
  - destruct phase; [|done..]. intros [= <-] [? ? ?]. by split.
Qed.

Lemma run_ok indices es s s' : stream_run es s = Some s' -> stream_ok indices s -> stream_ok indices s'.
Proof.
  revert s. induction es as [|e es IH]; intros s; cbn [stream_run].
  { by intros [= ->]. }
  destruct (stream_act e s) as [s1|] eqn:E; [|done]. cbn [mbind option_bind]. intros Hr Hok.
  by eapply IH, act_ok.
Qed.

(** What has been sent is the body so far. *)
Lemma ok_sent indices s :
  stream_ok indices s ->
  (exists rest c, frames (map outcome indices) = (sm_sent s ++ rest, c)) /\
  (sm_phase s = Streaming -> stream_done s = true -> frames (map outcome indices) = (sm_sent s, true)) /\
  (sm_phase s = Aborted -> frames (map outcome indices) = (sm_sent s, false)).
Proof.
  intros [_ _ (taken & -> & Hf)]. rewrite map_app, (frames_app _ _ _ _ Hf). clear Hf.
  destruct (frames (map outcome _)) as [cs c] eqn:E. repeat split.
  - case_bool_decide; cbn [negb]; [exists [], false; by rewrite app_nil_r|by exists cs, c].
  - intros Hp Hd. unfold stream_done in Hd. destruct (sm_todo s), (sm_slots s); try done.
    cbn in E. injection E as <- <-. rewrite Hp. cbn. by rewrite app_nil_r.
  - intros Hp. by rewrite Hp.
Qed.

(** ** Progress *)

Lemma stream_unstuck s :
  0 < window -> sm_phase s = Streaming -> stream_done s = false ->
  exists e s', e <> Hangup /\ stream_act e s = Some s'.
Proof.
  intros Hw. destruct s as [todo slots sent phase]. cbn. intros -> Hd.
  destruct slots as [|[i [[b|err]|]] slots].
  - destruct todo as [|i todo]; [done|]. exists Pull. cbn.
    destruct (Z.ltb_spec (len (@nil Slot)) window); [by eexists|unfold len in *; cbn in *; lia].
  - exists Send. by eexists.
  - exists Send. by eexists.
  - exists (Finish i). cbn. rewrite Z.eqb_refl. by eexists.
Qed.

(** Once the client is gone nothing is begun or sent; what was begun ends. *)
Lemma stream_detached s :
  (sm_phase s <> Streaming -> stream_act Pull s = None /\ stream_act Send s = None) /\
  (forall i, mkSlot i None ∈ sm_slots s -> is_Some (stream_act (Finish i) s)).
Proof.
  destruct s as [todo slots sent phase]. cbn. split; [by destruct phase|].
  intros i (before & after & ->)%list_elem_of_split. destruct (finish_slot_can i before after) as [slots' ->].
  by destruct phase; eexists.
Qed.

(** ** Memory *)

Lemma held_bound indices bound s :
  0 <= bound -> (forall i b, i ∈ indices -> outcome i = Ok b -> len b <= bound) ->
  stream_ok indices s -> waiting s <= len (sm_slots s) * bound.
Proof.
  intros Hb Hout [_ Hr (taken & -> & _)]. unfold waiting.
  assert (forall i b, i ∈ map sl_index (sm_slots s) -> outcome i = Ok b -> len b <= bound) as Hsl
    by (intros i b Hi; apply Hout, elem_of_app; right; apply elem_of_app; by left).
  clear Hout. induction Hr as [|sl slots Hsl' _ IH]; [done|]. cbn [foldr].
  assert (slot_bytes sl <= bound) as H1.
  { unfold slot_bytes. destruct (sl_result sl) as [[b|]|]; [|done..].
    apply (Hsl (sl_index sl)); [left|]. by rewrite <- (Hsl' _ eq_refl). }
  specialize (IH ltac:(intros; eapply Hsl; [by right|done])). unfold len in *. cbn [length]. lia.
Qed.
End Machine.

(** ** The stream of a plan *)

Definition plan_outcome (slice_size : Z) (plan : Plan) (url : str)
    (results : Z -> result OrchestratorError SliceValue) (index : Z) : result OrchestratorError bytes :=
  slice_task slice_size plan url index (results index).

Definition plan_stream (slice_size readahead : Z) (plan : Plan) (url : str)
    (results : Z -> result OrchestratorError SliceValue) (events : list Event) : option Stream :=
  stream_run (readahead_of readahead) (plan_outcome slice_size plan url results) events
    (stream_init (indices slice_size plan)).

Section PlanStream.
Context (slice_size : Z) (plan : Plan) (url : str) (results : Z -> result OrchestratorError SliceValue).
Context (Hs : 0 < slice_size < 2 ^ 32) (H64 : pl_total_len plan < 2 ^ 64)
        (Haddr : pl_total_len plan <= max_addressable_len slice_size)
        (Hw : range_in (pl_wanted plan) (pl_total_len plan)).

(** A frame is part of one slice. *)
Lemma frame_len i b :
  i ∈ indices slice_size plan -> plan_outcome slice_size plan url results i = Ok b -> len b <= slice_size.
Proof using All.
  unfold indices. destruct (Z.eqb_spec (pl_total_len plan) 0) as [|_]; [by intros ?%elem_of_nil|].
  intros Hi (v & Hc)%slice_task_ok.
  apply (cut_window_len slice_size _ _ Hs H64 Haddr Hw _ _ _ Hi) in Hc as [-> _].
  pose proof (blank_len (pl_total_len plan) (pl_wanted plan) Hw) as Hb.
  destruct (plan_index_bounds (blank (pl_total_len plan)) slice_size (pl_wanted plan)) with (i := i)
    as (Hi32 & Hle & Hlt); rewrite ?Hb; [done..|].
  destruct Hw as (H0 & H1 & H2). unfold win_len. rewrite payload_window_exact by lia. cbn [fst snd]. lia.
Qed.

Lemma plan_stream_ok readahead events s :
  plan_stream slice_size readahead plan url results events = Some s ->
  stream_ok (readahead_of readahead) (plan_outcome slice_size plan url results) (indices slice_size plan) s.
Proof using Type.
  intros Hr. eapply run_ok; [exact Hr|]. apply init_ok. unfold readahead_of. lia.
Qed.

Lemma plan_stream_held readahead events s :
  plan_stream slice_size readahead plan url results events = Some s ->
  waiting s <= readahead_of readahead * slice_size.
Proof using All.
  intros Hok%plan_stream_ok. pose proof (ok_window _ _ _ _ Hok).
  apply (held_bound _ _ _ slice_size) in Hok; [nia|lia|exact frame_len].
Qed.
End PlanStream.

(** The body as a list of frames. *)
Lemma body_of_frames slice_size plan url results bs c :
  frames (map (plan_outcome slice_size plan url results) (indices slice_size plan)) = (bs, c) ->
  stream_body slice_size plan url results = (concat bs, c).
Proof. unfold plan_outcome, stream_body. by intros ->. Qed.

(** C4: a response body is streamed in bounded memory, in order, and to an end.
    For a configuration the process starts with, any plan within the object, any
    results of the slice tasks and any interleaving of spawning tasks, tasks
    finishing, sending and the client leaving: at most READAHEAD_SLICES slices
    are in flight or waiting, and the bytes waiting to be sent are at most what
    the startup log announces per connection; there are at most three events per
    slice and one more, so every stream comes to rest; while the client is there
    and slices remain some event other than its leaving is possible; what has been sent is
    at every moment a prefix of [stream_body], at the end of the stream all of it,
    and after an error frame exactly the part before the failed slice; once the
    client has left no further task is begun, and every task begun can still end. *)
Theorem stream_refines_body c plan url results events s :
  validate c = Ok tt -> cf_cache_slice_size c * cf_readahead_slices c < 2 ^ 64 ->
  0 <= cf_readahead_slices c ->
  pl_total_len plan < 2 ^ 64 -> pl_total_len plan <= max_addressable_len (cf_cache_slice_size c) ->
  range_in (pl_wanted plan) (pl_total_len plan) ->
  let slice_size := cf_cache_slice_size c in
  let n := readahead_of (cf_readahead_slices c) in
  let act := stream_act n (plan_outcome slice_size plan url results) in
  let body := stream_body slice_size plan url results in
  plan_stream slice_size (cf_readahead_slices c) plan url results events = Some s ->
  (len (sm_slots s) <= cf_readahead_slices c /\ waiting s <= readahead_bytes_per_connection c) /\
  (length events <= 3 * length (indices slice_size plan) + 1)%nat /\
  (sm_phase s = Streaming -> stream_done s = false -> exists e s', e <> Hangup /\ act e s = Some s') /\
  (exists rest, body.1 = concat (sm_sent s) ++ rest) /\
  (sm_phase s = Streaming -> stream_done s = true -> body = (concat (sm_sent s), true)) /\
  (sm_phase s = Aborted -> body = (concat (sm_sent s), false)) /\
  (sm_phase s <> Streaming -> act Pull s = None /\ act Send s = None) /\
  (forall i, mkSlot i None ∈ sm_slots s -> is_Some (act (Finish i) s)).
Proof.
  intros Hv Hmul Hr0 H64 Haddr Hw slice_size n act body Hrun.
  apply validate_ok in Hv as (_ & _ & Hs & _ & _ & _ & Hr & _).
  assert (0 < slice_size < 2 ^ 32) as Hss by (unfold slice_size, MIN_SLICE_SIZE, umax in *; lia).
  assert (n = cf_readahead_slices c) as Hn by (unfold n, readahead_of; lia).
  pose proof (plan_stream_held _ _ _ _ Hss H64 Haddr Hw _ _ _ Hrun) as Hheld. fold n in Hheld.
  pose proof (plan_stream_ok _ _ _ _ _ _ _ Hrun) as Hok. fold n in Hok.
  destruct (ok_sent _ _ _ _ Hok) as ((rest & complete & Hpre) & Hdone & Habort).
  destruct (stream_detached n (plan_outcome slice_size plan url results) s) as [Hleft Hends].
  apply run_work in Hrun. cbn in Hrun. apply body_of_frames in Hpre.
  split; [split; [rewrite <- Hn; apply Hok|]|].
  { unfold readahead_bytes_per_connection. rewrite wrap_small by width. fold slice_size. lia. }
  split; [unfold slice_size in *; lia|].
  split; [intros Hp Hd; apply stream_unstuck; [lia|done|done]|].
  split; [exists (concat rest); unfold body; by rewrite Hpre, <- concat_app|].
  split; [intros Hp Hd; by apply body_of_frames, Hdone|].
  split; [intros Hp; by apply body_of_frames, Habort|]. by split.
Qed.

(** ** Runs *)

Definition stream_plan : Plan :=
  mkPlan (lit "steam") PARTIAL_CONTENT (mkByteRange 1 3) 5 Hit
    (mkObjectMeta (lit "steam/x") 5 3 (Some (lit "v1")) None None false 0 0 false) [x01] true.

Lemma stream_refines_body_witness :
  stream_body (2 ^ 20) stream_plan (lit "u") (fun _ => Ok toy_value) = (lit "ell", true) /\
  stream_body (2 ^ 20) stream_plan (lit "u") (fun _ => Err (OUnsatisfiable 0)) = ([], false).
Proof.
  assert (validate default_config = Ok tt) as Hv by reflexivity.
  assert (forall results events s,
    plan_stream (2 ^ 20) 4 stream_plan (lit "u") results events = Some s ->
    (sm_phase s = Streaming -> stream_done s = true ->
     stream_body (2 ^ 20) stream_plan (lit "u") results = (concat (sm_sent s), true)) /\
    (sm_phase s = Aborted -> stream_body (2 ^ 20) stream_plan (lit "u") results = (concat (sm_sent s), false)))
    as Hall.
  { intros results events s Hrun.
    destruct (stream_refines_body default_config stream_plan (lit "u") results events s) as (_ & _ & _ & _ & Hd & Ha & _);
      [exact Hv|by vm_compute|by vm_compute|by vm_compute|by vm_compute|by vm_compute|exact Hrun|].
    by split. }
  split.
  - destruct (Hall (fun _ => Ok toy_value) [Pull; Finish 0; Send]
      (mkStream [] [] [lit "ell"] Streaming)) as [Hd _]; [reflexivity|]. exact (Hd eq_refl eq_refl).
  - destruct (Hall (fun _ => Err (OUnsatisfiable 0)) [Pull; Finish 0; Send]
      (mkStream [] [] [] Aborted)) as [_ Ha]; [reflexivity|]. exact (Ha eq_refl).
Defined.

(** Three slices of two bytes, a window of two: the second task ends first and
    its result waits; the third is begun only when the first has been sent. *)
Definition stream_toy (i : Z) : result OrchestratorError bytes :=
  if i =? 2 then Err (OUnsatisfiable 0) else Ok (lit (if i =? 0 then "ab" else "cd")).

Example stream_in_order :
  stream_run 2 stream_toy [Pull; Pull; Finish 1; Finish 0; Send; Pull; Send] (stream_init [0; 1; 2])
  = Some (mkStream [] [mkSlot 2 None] [lit "ab"; lit "cd"] Streaming) /\
  stream_run 2 stream_toy [Pull; Pull; Pull] (stream_init [0; 1; 2]) = None /\
  stream_run 2 stream_toy [Pull; Pull; Finish 1; Send] (stream_init [0; 1; 2]) = None.
Proof. split; [|split]; reflexivity. Qed.

(** The client leaves; the task that runs still ends, and nothing else happens. *)
Example stream_hangup :
  stream_run 2 stream_toy [Pull; Hangup; Finish 0] (stream_init [0; 1; 2])
  = Some (mkStream [1; 2] [mkSlot 0 (Some (Ok (lit "ab")))] [] Gone).
Proof. reflexivity. Qed.

(** Why [Orchestrator::new] raises the window to one: with none the stream of a
    request that has slices to send would wait for ever. *)
Lemma no_window_no_stream outcome i indices e s :
  stream_act 0 outcome e (stream_init (i :: indices)) = Some s -> e = Hangup.
Proof. destruct e; [|done..|done]. cbn. by destruct (Z.ltb_spec (len (@nil Slot)) 0). Qed.
