(* ===== verification/Progress.v ===== *)
(** * What a client is sure to receive

    [EndToEnd.v] shows that a client receives nothing but one version of the
    object; this file shows that it receives it.  It composes the request path of
    [crates/cachic/src/proxy/server.rs] and [orchestrator/mod.rs] with the stream of
    [Stream.v]: while the origin keeps the version a response was planned from,
    every slice arrives and the stream comes to its end with all the bytes
    announced; when the origin has moved on, the response is cut short, once, and
    the next request is planned from the new version under a new generation. *)

From S2P Require Import Prelude.
From S2P Require Import RustStr.
From S2P Require Import Client.
From S2P Require Import Validators.
From S2P Require Import SliceCodec.
From S2P Require Import Index.
From S2P Require Import Key.
From S2P Require Import Range.
From S2P Require Import Readahead.
From S2P Require Import Filler.
From S2P Require Import Headers.
From S2P Require Import Orchestrator.
From S2P Require Import Recovery.
From S2P Require Import Server.
From S2P Require Import EndToEnd.
From S2P Require Import Stream.

Open Scope Z_scope.

(** ** Runs the client stays for *)

Lemma run_stays window outcome es s s' :
  stream_run window outcome es s = Some s' -> Hangup ∉ es -> sm_phase s <> Gone -> sm_phase s' <> Gone.
Proof.
  revert s. induction es as [|e es IH]; intros s; cbn [stream_run]; [by intros [= ->]|].
  destruct (stream_act window outcome e s) as [s1|] eqn:E; [|done]. cbn [mbind option_bind].
  intros Hr [Hne Hes]%not_elem_of_cons Hs. apply (IH _ Hr Hes). revert E.
  destruct s as [todo slots sent phase]. destruct e; cbn in *.
  - destruct phase; [|done..]. destruct todo; [done|]. destruct (_ <? _); [|done]. by intros [= <-].
  - destruct (finish_slot _ _ _); destruct phase; try done; by intros [= <-].
  - destruct phase; [|done..]. destruct slots as [|[? [[|]|]] ?]; try done; by intros [= <-].
  - done.
Qed.

Lemma frames_complete rs : (forall r, r ∈ rs -> exists b, r = Ok b) -> (frames rs).2 = true.
Proof.
  induction rs as [|r rs IH]; intros Hall; [done|]. destruct (Hall r) as [b ->]; [left|]. cbn [frames].
  specialize (IH ltac:(intros; apply Hall; by right)). by destruct (frames rs).
Qed.

Section Progress.
Context {S T : Type} `{FoyerLaws S} `{RedbLaws T}.
Context (config : ServerConfig) (blake3 : bytes -> bytes) (is_match : list str -> str -> bool).
Context (order : gmap ObjectId Readahead.Pattern -> list (ObjectId * Readahead.Pattern)).
Context (versions : ObjectId -> Version -> Prop).
Context (xxh3_64 : bytes -> Z) (Hxxh : forall b, in_u 64 (xxh3_64 b)).
Implicit Types sys : Sys S T.

Abbreviation slice_size := (sc_orch_slice_size config).
Abbreviation steps := (allowed_steps (S := S) (T := T) slice_size versions).
Abbreviation lives := (life (S := S) (T := T) xxh3_64 slice_size versions).

Context (Hss : 0 < slice_size < 2 ^ 32).
Context (identified : forall o w1 w2, versions o w1 -> versions o w2 ->
  matches (vr_validators w1) (vr_validators w2) = true -> vr_content w1 = vr_content w2).
Context (addressable : forall o w, versions o w ->
  len (vr_content w) < 2 ^ 64 /\ len (vr_content w) <= max_addressable_len slice_size).

(** ** A steady origin *)

(** The answer to a fetch of slice [index] of a plan: a 206 of the version the
    plan describes. *)
Definition steady (plan : Plan) (index : Z) (r : UpstreamResponse) : Prop :=
  honest slice_size versions (pl_object plan) index r /\ up_status r = PARTIAL_CONTENT /\
  matches (meta_validators (pl_meta plan)) (response_validators r) = true.

(** The engine answers a fetch of that slice: it has the slice or runs the
    closure, rather than failing or sharing a failed fetch. *)
Definition undisturbed sys (plan : Plan) (index : Z) : Prop :=
  forall v text, (foyer_get_or_fetch (or_store (sy_orch sys))
    (mkSliceKey (pl_object plan) (om_generation (pl_meta plan)) index) (Ok v)).1 <> GotError text.

Lemma slice_payload_len content i :
  0 <= i < 2 ^ 32 -> i * slice_size < len content -> len content < 2 ^ 64 ->
  len (slice_payload i slice_size content) = byte_range_len (slice_extent i slice_size (len content)).
Proof using Hss.
  intros Hi Hlt H64. unfold slice_payload. rewrite slice_extent_exact by lia. cbn [br_start br_end].
  unfold byte_range_len. cbn [br_start br_end].
  rewrite (wrap_small 64 (_ - _)) by width. rewrite wrap_small by width.
  unfold len in *. rewrite length_slice; lia.
Qed.

(** A fetch from a steady origin succeeds with the version's slice, whether the
    store had it or not. *)
Lemma slice_fetch_steady m vers sys stale plan w url i r :
  undisturbed sys plan i -> inv_with slice_size versions m vers sys ->
  vers !! (pl_object plan, om_generation (pl_meta plan)) = Some w -> describes (pl_meta plan) w ->
  steady plan i r -> 0 <= i < 2 ^ 32 -> i * slice_size < len (vr_content w) ->
  exists v, (slice_fetch slice_size stale (sy_orch sys) (pl_object plan) (pl_meta plan) (len (vr_content w)) url i
      (Ok r)).1 = Ok v /\ sv_payload v = slice_payload i slice_size (vr_content w).
Proof using Hss identified addressable.
  intros Heng Hi Hw [Htot Hval] ((_ & w' & Hw' & Hv' & Hb) & Hst & Hm) Hi32 Hlt.
  pose proof (inv_versions _ _ _ _ _ Hi _ _ _ Hw) as Hver. destruct (addressable _ _ Hver) as [H64 _].
  rewrite Hst, Z.eqb_refl in Hb. destruct Hb as [Hb _].
  assert (vr_content w = vr_content w') as Hc by (apply (identified (pl_object plan)); congruence).
  rewrite <- Hc in Hb.
  assert (check_slice slice_size (pl_meta plan) (len (vr_content w)) i (Ok r)
    = Ok (mkSliceValue (header_for (pl_meta plan) slice_size) (up_body r))) as Hck.
  { unfold check_slice. rewrite Hm, Hb, slice_payload_len by done. by rewrite Z.eqb_refl. }
  unfold slice_fetch. rewrite Hck.
  pose proof (held_get_or_fetch (or_store (sy_orch sys))
    (mkSliceKey (pl_object plan) (om_generation (pl_meta plan)) i)
    (Ok (mkSliceValue (header_for (pl_meta plan) slice_size) (up_body r)))) as Hlaw.
  specialize (Heng (mkSliceValue (header_for (pl_meta plan) slice_size) (up_body r))).
  destruct (foyer_get_or_fetch _ _ _) as [outcome s]. cbn [fst] in Heng.
  destruct outcome as [v'| |text]; [|by eexists|by destruct (Heng text)].
  destruct Hlaw as [Hh _]. exists v'. split; [done|].
  destruct (inv_store _ _ _ _ _ Hi _ _ Hh) as (w2 & Hw2 & Hp & _). cbn in Hw2, Hp.
  rewrite Hw in Hw2. by injection Hw2 as <-.
Qed.

(** The results of the slice tasks of a response: each runs [slice] at a moment
    of its own, and gets the answer of that moment.  The last four parameters are
    those of the path for origins that ignore ranges. *)
Definition fetched_at (stale : bool) (plan : Plan) (url : str) (at_fetch : Z -> Sys S T)
    (answer : Z -> UpstreamResponse) text reg stream seen (i : Z) : result OrchestratorError SliceValue :=
  (slice_of_plan slice_size text stale (sy_orch (at_fetch i)) reg plan url i (Ok (answer i)) stream seen).1.1.

Lemma steady_frames ever sys sys1 req r service key url fwd plan raw stale at_fetch answer text reg stream seen :
  lives ever sys -> planned_reply config blake3 is_match versions req sys sys1 r service key url fwd plan raw ->
  body_len plan <> 0 -> om_no_ranges (pl_meta plan) = false ->
  (forall i, i ∈ indices slice_size plan ->
     steps sys1 (at_fetch i) /\ undisturbed (at_fetch i) plan i /\ steady plan i (answer i)) ->
  exists w, versions (pl_object plan) w /\ describes (pl_meta plan) w /\ pl_total_len plan = len (vr_content w) /\
    range_in (pl_wanted plan) (len (vr_content w)) /\
    (forall i, i ∈ indices slice_size plan -> exists v,
       fetched_at stale plan url at_fetch answer text reg stream seen i = Ok v /\
       sv_payload v = slice_payload i slice_size (vr_content w)).
Proof using Hxxh Hss identified addressable.
  intros Hl Hreply Hne Hnr Hat.
  destruct (plan_version _ _ _ _ _ Hxxh Hss identified _ _ _ _ _ _ _ _ _ _ _ Hl Hreply) as (w & Hv & Hd & Htot).
  destruct Hreply as (_ & _ & Hin & Hs1 & Hok & _). destruct (addressable _ _ Hv) as [H64 Hmax].
  destruct (plan_ok_range _ _ Hok) as [Hr _]; [rewrite Htot; apply len_nonneg|done|]. rewrite Htot in Hr.
  exists w. repeat (split; [done|]). intros i Hi. destruct (Hat i Hi) as (Hs & Heng & Hst).
  destruct (life_steps _ _ _ _ _ _ Hl (steps_trans _ _ _ _ _ Hs1 Hs)) as [ever' Hl'].
  destruct (life_keeps xxh3_64 Hxxh slice_size Hss versions identified _ _ Hl') as (m & vers & Hinv & _).
  destruct (inv_plans _ _ _ _ _ Hinv _ _ (steps_plans _ _ _ _ Hs _ Hin)) as (w' & Hw' & Hd' & _).
  assert (vr_content w = vr_content w') as Hc.
  { apply (identified (pl_object plan)); [done|by eapply (inv_versions _ _ _ _ _ Hinv)|].
    destruct Hst as (_ & _ & Hm), Hd as [_ <-], Hd' as [_ <-].
    eapply matches_trans; [exact Hm|]. by rewrite matches_sym. }
  assert (fetched_at stale plan url at_fetch answer text reg stream seen i =
    (slice_fetch slice_size stale (sy_orch (at_fetch i)) (pl_object plan) (pl_meta plan) (len (vr_content w')) url i
       (Ok (answer i))).1) as ->.
  { unfold fetched_at, slice_of_plan. rewrite Hnr, Htot, Hc. by destruct (slice_fetch _ _ _ _ _ _ _ _ _). }
  rewrite Hc. eapply slice_fetch_steady; try done.
  - revert Hi. unfold indices. rewrite Htot. case_match; [by intros ?%elem_of_nil|]. intros Hi.
    by apply (plan_index_bounds (vr_content w) slice_size (pl_wanted plan)).
  - revert Hi. unfold indices. rewrite Htot. case_match; [by intros ?%elem_of_nil|]. intros Hi.
    apply (plan_index_bounds (vr_content w) slice_size (pl_wanted plan)) in Hi; [|done..].
    destruct Hr as (? & ? & ?). rewrite <- Hc. lia.
Qed.

(** The task of a slice of the version hands on its window. *)
Lemma steady_task plan url results i content :
  len content < 2 ^ 64 -> len content <= max_addressable_len slice_size ->
  pl_total_len plan = len content -> range_in (pl_wanted plan) (len content) ->
  i ∈ indices slice_size plan ->
  (exists v, results i = Ok v /\ sv_payload v = slice_payload i slice_size content) ->
  exists b, plan_outcome slice_size plan url results i = Ok b.
Proof using Hss.
  intros H64 Hmax Htot Hr Hi (v & Hv & Hp). unfold plan_outcome, slice_task. rewrite Hv. cbn [mbind result_bind].
  rewrite Hp. unfold indices in Hi. rewrite Htot in Hi. unfold window.
  destruct (_ =? _); [by apply elem_of_nil in Hi|].
  rewrite (window_of_slice content slice_size (pl_wanted plan) Hss H64 Hmax Hr i Hi). by eexists.
Qed.


(** ** An origin that has moved on *)

(** The answer is of another version than the metadata describes. *)
Definition moved_on (meta : ObjectMeta) (r : UpstreamResponse) : Prop :=
  matches (meta_validators meta) (response_validators r) = false.

(** A plan's generation is that of the index entry or an earlier one. *)
Lemma plan_generation m vers sys o meta :
  inv_with slice_size versions m vers sys -> (o, meta) ∈ sy_plans sys ->
  exists x, m !! o = Some x /\ om_generation meta <= om_generation x.
Proof using Type.
  intros Hi Hin. destruct (inv_plans _ _ _ _ _ Hi _ _ Hin) as (w & Hw & _).
  pose proof (inv_entries _ _ _ _ _ Hi o) as He. destruct (m !! o) as [x|]; [|by rewrite He in Hw].
  exists x. split; [done|]. destruct He as [Hgt _].
  destruct (Z.le_gt_cases (om_generation meta) (om_generation x)) as [|Hlt]; [done|].
  rewrite Hgt in Hw by done. done.
Qed.

(** A bump forgets the cell and leaves a stale entry of a later generation. *)
Lemma bump_leaves m (st : Orch S T) o x :
  index_rel (or_index st) m -> m !! o = Some x -> om_generation x < u32_max ->
  let st' := (bump_generation st o).2 in
  exists x', index_rel (or_index st') (<[o := x']> m) /\ om_stale x' = true /\
    om_generation x' = om_generation x + 1 /\ or_cells st' !! o = None.
Proof using Type.
  intros Hrel Hx Hlt. unfold bump_generation.
  destruct (rel_invalidate _ m o Hrel) as (g & t & -> & _ & Hrel'). cbn [spec_step] in Hrel'. rewrite Hx in Hrel'.
  assert (in_u 32 (om_generation x)) as Hg by (destruct Hrel as (_ & _ & Hok); apply Hok in Hx; apply Hx).
  exists (bump x). cbn [snd or_index or_cells]. split; [exact Hrel'|]. split; [done|].
  split; [cbn; apply wrap_small; width|]. apply lookup_delete_eq.
Qed.

(** A probe of such an object records what it finds. *)
Lemma metadata_reprobes m now (st : Orch S T) key o url index r total x :
  index_rel (or_index st) m -> m !! o = Some x -> om_stale x = true -> or_cells st !! o = None ->
  in_u 64 now -> meta_str_ok (ck_key key) -> headers_small r ->
  (if up_status r =? PARTIAL_CONTENT then content_range_total r else content_length r) = Some total ->
  exists meta st', metadata slice_size now st key o url index (Ok r) = (Ok (meta, true), st') /\
    om_generation meta = om_generation x /\ om_total_len meta = total /\
    meta_validators meta = response_validators r.
Proof using Type.
  intros Hrel Hx Hstale Hcell Hnow Hkey Hsm Htot. unfold metadata, metadata_from_index.
  rewrite (rel_get _ m) by done. rewrite Hx, Hstale. unfold cell. rewrite Hcell.
  cbn [or_heap]. rewrite list_lookup_middle by done.
  set (st1 := mkOrch _ _ _ _).
  destruct (probe_commit slice_size now st1 key o url index r) as [[meta st']|e] eqn:E.
  - apply (probe_commit_Ok slice_size m) in E as (Hg & _ & _ & _ & Hv & Ht & _); [|done..].
    rewrite Hx in Hg. rewrite Htot in Ht. injection Ht as Ht. by eexists _, _.
  - revert E. unfold probe_commit.
    destruct (up_status r =? PARTIAL_CONTENT); rewrite Htot; done.
Qed.

End Progress.

(** ** Witnesses *)

(** The store has lost everything before the second slice is fetched. *)
Definition toy_evicted : ToySys :=
  mkSys (set_store (sy_orch toy_end) ∅) (sy_pending toy_end) (sy_plans toy_end) (sy_served toy_end).
Definition toy_at (i : Z) : ToySys := if i =? 0 then toy_end else toy_evicted.

Lemma toy_at_steps i : allowed_steps 2 toy_versions toy_end (toy_at i).
Proof.
  unfold toy_at. destruct (i =? 0); [apply allowed_refl|].
  apply (allowed_more _ _ _ toy_end EvEvict); [apply allowed_refl| |exact I]. unfold toy_evicted.
  destruct toy_end as [st pend plans served]. apply step_evict.
  exact (map_empty_subseteq (M := gmap SliceKey) (or_store st)).
Qed.


Lemma toy_evicted_entry : index_get (or_index (sy_orch toy_evicted)) toy_object = Ok (Some toy_plan_meta).
Proof. vm_compute. reflexivity. Qed.

