(* ===== verification/Metrics.v ===== *)
(** * Metrics and the sampler

    Models [crates/cachic/src/telemetry/metrics.rs] and [telemetry/sampler.rs],
    together with every place that records a metric: the end of
    [proxy/server.rs::handle], the accept loop's connection gauge, the probe
    and slice paths of [orchestrator/mod.rs] and the resolver's refusals.

    The [prometheus] crate is a library: [Prometheus] is the part of its
    interface the code uses and [PrometheusLaws] its documented behaviour.  A
    vector's [with_label_values] panics when it is given another number of
    values than the vector has labels, and creates the series otherwise; so
    [None] is a panic, which ends the process in the release profile.  A
    histogram is represented by its number of observations. *)

From S2P Require Import Prelude.
From S2P Require Import RustStr.
From S2P Require Import Codec.
From S2P Require Import Guard.
From S2P Require Import Client.
From S2P Require Import Domains.
From S2P Require Import Units.
From S2P Require Import Validators.
From S2P Require Import SliceCodec.
From S2P Require Import Index.
From S2P Require Import Key.
From S2P Require Import Config.
From S2P Require Import Headers.
From S2P Require Import Logs.
From S2P Require Import Orchestrator.
From S2P Require Import Limits.
From S2P Require Import Server.

Open Scope Z_scope.

(** ** Descriptors *)

Inductive MetricKind := KCounter | KHistogram | KGauge.

Record Desc := mkDesc {
  md_name : str;
  md_kind : MetricKind;
  md_labels : list str;
  md_buckets : list Z }.

#[export] Instance MetricKind_eq_dec : EqDecision MetricKind.
Proof. solve_decision. Defined.
#[export] Instance Desc_eq_dec : EqDecision Desc.
Proof. solve_decision. Defined.

Definition counter (name : str) (labels : list str) : Desc := mkDesc name KCounter labels [].
Definition gauge_vec (name : str) (labels : list str) : Desc := mkDesc name KGauge labels [].
Definition int_gauge (name : str) : Desc := mkDesc name KGauge [] [].
Definition histogram (name : str) (labels : list str) (milliseconds : list Z) : Desc :=
  mkDesc name KHistogram labels milliseconds.

Definition CDN_SERVICE : str := lit "cdn_service".

Definition requests : Desc := counter (lit "cachic_requests_total") [CDN_SERVICE; lit "status"].
Definition bytes_served : Desc := counter (lit "cachic_bytes_served_total") [CDN_SERVICE; lit "status"].
Definition bytes_fetched : Desc := counter (lit "cachic_bytes_fetched_total") [CDN_SERVICE].
Definition upstream_seconds : Desc :=
  histogram (lit "cachic_upstream_seconds") [CDN_SERVICE]
    [5; 10; 25; 50; 100; 250; 500; 1000; 2500; 5000; 10000; 30000].
Definition inflight : Desc := int_gauge (lit "cachic_upstream_inflight").
Definition checksum_failures : Desc := counter (lit "cachic_checksum_failures_total") [CDN_SERVICE].
Definition generation_bumps : Desc := counter (lit "cachic_generation_bumps_total") [CDN_SERVICE].
Definition guard_refusals : Desc := counter (lit "cachic_upstream_guard_refusals_total") [lit "reason"].
Definition connections : Desc := int_gauge (lit "cachic_client_connections").
Definition request_seconds : Desc :=
  histogram (lit "cachic_request_seconds") [CDN_SERVICE; lit "status"]
    [1; 5; 10; 25; 50; 100; 250; 500; 1000; 2500; 5000; 10000; 30000; 60000].
Definition responses : Desc := counter (lit "cachic_responses_total") [CDN_SERVICE; lit "code"].
Definition upstream_errors : Desc := counter (lit "cachic_upstream_errors_total") [CDN_SERVICE; lit "kind"].
Definition stale_responses : Desc := counter (lit "cachic_stale_responses_total") [CDN_SERVICE].
Definition upstream_inflight_service : Desc :=
  gauge_vec (lit "cachic_upstream_inflight_service") [CDN_SERVICE].
Definition upstream_limit_service : Desc :=
  gauge_vec (lit "cachic_upstream_limit_service") [CDN_SERVICE].
Definition requests_in_flight : Desc := int_gauge (lit "cachic_requests_in_flight").
Definition draining : Desc := int_gauge (lit "cachic_draining").
Definition store_capacity_bytes : Desc := int_gauge (lit "cachic_store_capacity_bytes").
Definition disk_available_bytes : Desc := int_gauge (lit "cachic_disk_available_bytes").
Definition disk_total_bytes : Desc := int_gauge (lit "cachic_disk_total_bytes").
Definition disk_guard_engaged : Desc := int_gauge (lit "cachic_disk_guard_engaged").
Definition index_objects : Desc := int_gauge (lit "cachic_index_objects").
Definition index_bytes : Desc := int_gauge (lit "cachic_index_bytes").

(** In the order [Metrics::new] builds and registers them. *)
Definition descriptors : list Desc :=
  [requests; bytes_served; bytes_fetched; upstream_seconds; inflight; checksum_failures;
   generation_bumps; guard_refusals; connections; request_seconds; responses; upstream_errors;
   stale_responses; upstream_inflight_service; upstream_limit_service; requests_in_flight; draining;
   store_capacity_bytes; disk_available_bytes; disk_total_bytes; disk_guard_engaged; index_objects;
   index_bytes].

Definition CACHE_STATUSES : list str := [lit "HIT"; lit "MISS"; lit "PARTIAL"; lit "BYPASS"].

(** ** The library's interface *)

(** What a descriptor must satisfy: a metric name, label names that are
    identifiers, distinct and not the reserved [le] of a histogram, increasing
    buckets. *)
Definition name_start (b : byte) : bool :=
  is_ascii_upper b || (byte_le x61 b && byte_le b x7a) || bool_decide (b = x5f).
Definition name_char (b : byte) : bool := name_start b || is_ascii_digit b.
Definition name_valid (s : str) : bool :=
  match s with [] => false | b :: s' => name_start b && forallb name_char s' end.

Fixpoint increasing (l : list Z) : bool :=
  match l with
  | a :: (b :: _) as l' => (a <? b) && increasing l'
  | _ => true
  end.

Definition desc_valid (d : Desc) : bool :=
  name_valid (md_name d) && forallb name_valid (md_labels d) && bool_decide (NoDup (md_labels d)) &&
  (match md_kind d with KHistogram => bool_decide (lit "le" ∉ md_labels d) | _ => true end) &&
  increasing (md_buckets d).

Class Prometheus (R : Type) := {
  prom_new : R;
  prom_desc : Desc -> result str unit;
  prom_register : R -> Desc -> result str R;
  (** [with_label_values(values)] and an update of that series. *)
  prom_update : R -> Desc -> list str -> (Z -> Z) -> option R;
  (** [with_label_values(values).get()]. *)
  prom_get : R -> Desc -> list str -> option (Z * R) }.

Class PrometheusLaws (R : Type) `{Prometheus R} := {
  series : R -> gmap (str * list str) Z;
  registered : R -> list str;
  series_new : series prom_new = ∅;
  registered_new : registered prom_new = [];
  prom_desc_ok d : desc_valid d = true -> prom_desc d = Ok tt;
  prom_register_ok r d : md_name d ∉ registered r ->
    exists r', prom_register r d = Ok r' /\ registered r' = md_name d :: registered r /\
      series r' = series r;
  prom_update_ok r d values f : length values = length (md_labels d) ->
    exists r', prom_update r d values f = Some r' /\ registered r' = registered r /\
      series r' = <[(md_name d, values) := f (default 0 (series r !! (md_name d, values)))]> (series r);
  prom_update_arity r d values f : length values <> length (md_labels d) ->
    prom_update r d values f = None;
  prom_get_ok r d values : length values = length (md_labels d) ->
    exists r', prom_get r d values = Some (default 0 (series r !! (md_name d, values)), r') /\
      registered r' = registered r /\
      series r' = <[(md_name d, values) := default 0 (series r !! (md_name d, values))]> (series r) }.

(** ** Recording *)

(** A 64-bit value as [i64]. *)
Definition as_i64 (z : Z) : Z :=
  let x := wrap64 z in if x <? 2 ^ 63 then x else x - 2 ^ 64.

Definition bool_Z (b : bool) : Z := if b then 1 else 0.

(** What [slice] records, besides the service it is recorded for. *)
Inductive Recorded :=
  | RecFetch (bytes : Z)
  | RecBump
  | RecError (kind : str)
  | RecStale.

(** What the sampler reads. *)
Record Inputs (T : Type) := mkInputs {
  in_index : T;
  in_drain : DrainSys;
  in_statvfs : option StatVfs;
  in_configured_disk_bytes : Z;
  in_min_free_bytes : Z;
  in_per_service_limits : list (str * Z);
  in_service_permits : str -> option Z;
  in_upstream_capacity : Z;
  in_upstream_available : Z;
  in_checksum_failures : Z }.
Arguments mkInputs {T}.
Arguments in_index {T}.
Arguments in_drain {T}.
Arguments in_statvfs {T}.
Arguments in_configured_disk_bytes {T}.
Arguments in_min_free_bytes {T}.
Arguments in_per_service_limits {T}.
Arguments in_service_permits {T}.
Arguments in_upstream_capacity {T}.
Arguments in_upstream_available {T}.
Arguments in_checksum_failures {T}.

Section Recording.
Context {R T : Type} `{Prometheus R} `{Redb T}.
Implicit Types r : R.

Definition inc_by (d : Desc) (values : list str) (n : Z) r : option R :=
  prom_update r d values (fun x => wrap64 (x + n)).
Definition inc (d : Desc) (values : list str) r : option R := inc_by d values 1 r.
Definition reset (d : Desc) (values : list str) r : option R := prom_update r d values (fun _ => 0).
Definition observe (d : Desc) (values : list str) r : option R :=
  prom_update r d values (fun n => wrap64 (n + 1)).
Definition gauge_set (d : Desc) (values : list str) (n : Z) r : option R :=
  prom_update r d values (fun _ => as_i64 n).
Definition gauge_add (d : Desc) (n : Z) r : option R := prom_update r d [] (fun x => as_i64 (x + n)).

(** [for x in l { f(x) }]. *)
Fixpoint for_each {A} (f : A -> R -> option R) (l : list A) r : option R :=
  match l with [] => Some r | a :: l' => f a r ≫= for_each f l' end.

(** [Metrics::new]: every collector is built, then every one is registered. *)
Fixpoint build_all (l : list Desc) : result str unit :=
  match l with [] => Ok tt | d :: l' => _ ← prom_desc d; build_all l' end.
Fixpoint register_all (l : list Desc) r : result str R :=
  match l with [] => Ok r | d :: l' => r' ← prom_register r d; register_all l' r' end.
Definition metrics_new : result str R :=
  _ ← build_all descriptors; register_all descriptors prom_new.

Definition initialise_known_series (services : list str) r : option R :=
  r ← for_each (fun reason => reset guard_refusals [reason]) Refusal_ALL r;
  r ← reset checksum_failures [lit "-"] r;
  for_each (fun service =>
    for_each (fun status => reset requests [service; status]) CACHE_STATUSES) services r.

(** The end of [handle]. *)
Definition record_request (e : AccessEvent) r : option R :=
  r ← inc requests [ae_service e; ae_cache_status e] r;
  r ← inc_by bytes_served [ae_service e; ae_cache_status e] (ae_bytes e) r;
  r ← observe request_seconds [ae_service e; ae_cache_status e] r;
  inc responses [ae_service e; to_dec (ae_status e)] r.

Definition record_fetch (service : str) (bytes : Z) r : option R :=
  r ← observe upstream_seconds [service] r;
  inc_by bytes_fetched [service] bytes r.

Definition record_slice (service : str) (e : Recorded) r : option R :=
  match e with
  | RecFetch n => record_fetch service n r
  | RecBump => inc generation_bumps [service] r
  | RecError kind => inc upstream_errors [service; kind] r
  | RecStale => inc stale_responses [service] r
  end.

Definition record_refusal (refusal : Refusal) r : option R :=
  inc guard_refusals [refusal_reason refusal] r.

(** The accept loop around [serve_connection]. *)
Definition connection_opened r : option R := gauge_add connections 1 r.
Definition connection_closed r : option R := gauge_add connections (-1) r.

(** ** The sampler *)

Definition sample_checksums (failures : Z) r : option R :=
  '(already, r) ← prom_get r checksum_failures [lit "-"];
  if already <? failures
  then inc_by checksum_failures [lit "-"] (wrap64 (failures - already)) r
  else Some r.

Definition sample_disk (i : Inputs T) (indexed_bytes : Z) r : option R :=
  match space_read (in_statvfs i) with
  | Some disk =>
      let effective := effective_cap (in_configured_disk_bytes i) (in_min_free_bytes i) indexed_bytes disk in
      r ← gauge_set disk_total_bytes [] (ds_total disk) r;
      r ← gauge_set disk_available_bytes [] (ds_available disk) r;
      r ← gauge_set store_capacity_bytes [] effective r;
      gauge_set disk_guard_engaged [] (bool_Z (is_engaged (in_configured_disk_bytes i) effective)) r
  | None => Some r
  end.

Definition sample_service (i : Inputs T) (entry : str * Z) r : option R :=
  let '(service, limit) := entry in
  r ← gauge_set upstream_limit_service [service] limit r;
  match in_service_permits i service with
  | Some available => gauge_set upstream_inflight_service [service] (sat_sub limit available) r
  | None => Some r
  end.

Definition sample (i : Inputs T) r : option R :=
  r ← gauge_set requests_in_flight [] (dr_inflight (in_drain i)) r;
  r ← gauge_set inflight [] (sat_sub (in_upstream_capacity i) (in_upstream_available i)) r;
  r ← sample_checksums (in_checksum_failures i) r;
  r ← gauge_set draining [] (bool_Z (dr_draining (in_drain i))) r;
  let indexed_bytes := unwrap_or (index_total_bytes (in_index i)) 0 in
  r ← gauge_set index_objects [] (unwrap_or (index_len (in_index i)) 0) r;
  r ← gauge_set index_bytes [] indexed_bytes r;
  r ← sample_disk i indexed_bytes r;
  for_each (sample_service i) (in_per_service_limits i) r.
End Recording.

(** ** The slice path, with what it records *)

Section Slice.
Context {S T : Type} `{Foyer S} `{Redb T}.
Context (slice_size : Z).

(** [Orchestrator::slice] with the metrics it records, in order.  The closure
    runs, and its fetch is recorded, only for the caller whose fetch it was. *)
Definition slice_fetch_recording (stale_on_error : bool) (st : Orch S T) (object : ObjectId)
    (meta : ObjectMeta) (total_len : Z) (url : str) (index : Z)
    (fetched : result UpstreamError UpstreamResponse)
    : result OrchestratorError SliceValue * Orch S T * list Recorded :=
  let key := mkSliceKey object (om_generation meta) index in
  let checked := check_slice slice_size meta total_len index fetched in
  let '(outcome, s) := foyer_get_or_fetch (or_store st) key checked in
  let st := set_store st s in
  let fetch :=
    match outcome, fetched with
    | GotFetched, Ok response => [RecFetch (len (up_body response))]
    | _, _ => []
    end in
  let failed (e : OrchestratorError) (st : Orch S T) (recorded : list Recorded) :=
    let recorded := recorded ++ [RecError (error_kind e)] in
    if stale_on_error && is_transient_orchestrator_error e then
      match store_get (or_store st) key with
      | Ok (Some value) => (Ok value, st, recorded ++ [RecStale])
      | _ => (Err e, st, recorded)
      end
    else (Err e, st, recorded) in
  match outcome with
  | GotStored v => (Ok v, st, fetch)
  | GotError text => failed (OStore (StoreFetch text)) st fetch
  | GotFetched =>
      match checked with
      | Ok v => (Ok v, st, fetch)
      | Err (FMismatch found) =>
          let '(_, st) := bump_generation st object in
          failed (OValidatorChanged url (om_etag meta) (va_etag found)) st (fetch ++ [RecBump])
      | Err e => failed (OStore (StoreFetch (foyer_error_text e))) st fetch
      end
  end.

Lemma slice_fetch_recording_erases stale st object meta total_len url index fetched :
  (slice_fetch_recording stale st object meta total_len url index fetched).1 =
  slice_fetch slice_size stale st object meta total_len url index fetched.
Proof.
  unfold slice_fetch_recording, slice_fetch.
  destruct (foyer_get_or_fetch _ _ _) as [[v| |text] s]; [done| |].
  - destruct (check_slice _ _ _ _ _) as [v|[e|found|a b c]]; [done| | |];
      repeat (destruct (bump_generation _ _) || destruct (stale && _) || case_match); done.
  - destruct (stale && _); [|done]. by repeat case_match.
Qed.
End Slice.

(** ** Closed label sets *)

(** Where a recording comes from. *)
Inductive Recording (T : Type) :=
  | RRequest (e : AccessEvent)
  | RFetch (service : str) (bytes : Z)
  | RSlice (service : str) (recorded : list Recorded)
  | RRefusal (refusal : Refusal)
  | ROpened
  | RClosed
  | RSample (i : Inputs T).
Arguments RRequest {T}.
Arguments RFetch {T}.
Arguments RSlice {T}.
Arguments RRefusal {T}.
Arguments ROpened {T}.
Arguments RClosed {T}.
Arguments RSample {T}.

Definition record {R T} `{Prometheus R} `{Redb T} (x : Recording T) (r : R) : option R :=
  match x with
  | RRequest e => record_request e r
  | RFetch service n => record_fetch service n r
  | RSlice service recorded => for_each (record_slice service) recorded r
  | RRefusal refusal => record_refusal refusal r
  | ROpened => connection_opened r
  | RClosed => connection_closed r
  | RSample i => sample i r
  end.

Definition error_kinds : list str :=
  [lit "origin_5xx"; lit "origin_4xx"; lit "timeout"; lit "connect"; lit "request"; lit "resolve";
   lit "other"].

Definition statuses : list Z := [200; 206; 204; 404; 405; 416; 501; 502; 503].

Section Closed.
(** [services] are the services of the domain lists in use, [limited] those
    with a ceiling of their own. *)
Context (services limited : list str).

Definition label_domain (label : str) : list str :=
  if decide (label = CDN_SERVICE) then lit "-" :: services ++ limited
  else if decide (label = lit "status") then lit "-" :: CACHE_STATUSES
  else if decide (label = lit "code") then map to_dec statuses
  else if decide (label = lit "kind") then error_kinds
  else if decide (label = lit "reason") then Refusal_ALL else [].

Fixpoint combinations (labels : list str) : list (list str) :=
  match labels with
  | [] => [[]]
  | label :: labels' => v ← label_domain label; cons v <$> combinations labels'
  end.

(** Every series there can ever be. *)
Definition universe : list (str * list str) :=
  d ← descriptors; pair (md_name d) <$> combinations (md_labels d).

Definition closed {R} `{PrometheusLaws R} (r : R) : Prop :=
  forall name values, is_Some (series r !! (name, values)) -> (name, values) ∈ universe.

Definition typed (d : Desc) (values : list str) : Prop :=
  d ∈ descriptors /\ Forall2 (fun v label => v ∈ label_domain label) values (md_labels d).

Lemma combinations_spec labels values :
  Forall2 (fun v label => v ∈ label_domain label) values labels -> values ∈ combinations labels.
Proof.
  induction 1 as [|v label vs ls Hv Hf IH]; cbn [combinations]; [by apply list_elem_of_singleton|].
  apply list_elem_of_bind. exists v. split; [|done]. apply list_elem_of_fmap. by exists vs.
Qed.

Lemma typed_universe d values : typed d values -> (md_name d, values) ∈ universe.
Proof.
  intros [Hd Hv]. apply list_elem_of_bind. exists d. split; [|done].
  apply list_elem_of_fmap. exists values. split; [done|]. by apply combinations_spec.
Qed.

(** A step that succeeds and keeps the registry closed. *)
Definition good {R} `{PrometheusLaws R} (o : option R) : Prop := exists r, o = Some r /\ closed r.

Section Registry.
Context {R T : Type} `{PrometheusLaws R} `{Redb T}.
Implicit Types r : R.

Lemma update_good d values f r : typed d values -> closed r -> good (prom_update r d values f).
Proof.
  intros Ht Hc. destruct (prom_update_ok r d values f) as (r' & Hu & _ & Hs).
  { eapply Forall2_length, Ht. }
  exists r'. split; [exact Hu|]. intros name vs. rewrite Hs.
  destruct (decide ((md_name d, values) = (name, vs))) as [E|E].
  - injection E as <- <-. intros _. by apply typed_universe.
  - rewrite lookup_insert_ne by done. apply Hc.
Qed.

Lemma good_bind {A} (o : option R) (f : R -> option R) (P : A) :
  good o -> (forall r, closed r -> good (f r)) -> good (o ≫= f).
Proof. intros (r & -> & Hc) Hf. exact (Hf r Hc). Qed.

Lemma for_each_good {A} (f : A -> R -> option R) l r :
  closed r -> (forall a r, a ∈ l -> closed r -> good (f a r)) -> good (for_each f l r).
Proof.
  revert r. induction l as [|a l IH]; intros r Hc Hf; cbn [for_each]; [by exists r|].
  apply (good_bind _ _ I); [apply Hf; [by left|done]|]. intros r' Hc'. apply IH; [done|].
  intros b r'' Hb. apply Hf. by right.
Qed.
End Registry.
End Closed.


Section Cardinality.
Context (services limited : list str).

Lemma mbind_cons {A B} (f : A -> list B) a l : ((a :: l) ≫= f) = f a ++ (l ≫= f).
Proof. done. Qed.

Lemma combinations_length labels :
  length (combinations services limited labels) =
  foldr (fun l n => length (label_domain services limited l) * n)%nat 1%nat labels.
Proof.
  induction labels as [|l labels IH]; [done|]. cbn [combinations foldr]. rewrite <- IH.
  generalize (combinations services limited labels) as c. intros c.
  induction (label_domain services limited l) as [|v vs IHv]; [done|].
  rewrite mbind_cons, length_app, length_fmap, IHv. done.
Qed.

Lemma universe_length :
  length (universe services limited) = (38 * (1 + length services + length limited) + 16)%nat.
Proof.
  unfold universe. assert (forall l, length (mbind (fun d => pair (md_name d) <$> combinations services limited (md_labels d)) l)
    = foldr (fun d n => foldr (fun l n => length (label_domain services limited l) * n) 1 (md_labels d) + n)%nat
        0%nat l) as ->.
  { induction l as [|d l IH]; [done|]. cbn [foldr]. rewrite <- IH, <- combinations_length.
    by rewrite mbind_cons, length_app, length_fmap. }
  assert (length (label_domain services limited CDN_SERVICE) = 1 + length services + length limited)%nat as Hs.
  { unfold label_domain. rewrite decide_True by done. cbn. by rewrite length_app. }
  assert (length (label_domain services limited (lit "status")) = 5%nat) as Hst by by vm_compute.
  assert (length (label_domain services limited (lit "code")) = 9%nat) as Hc by by vm_compute.
  assert (length (label_domain services limited (lit "kind")) = 7%nat) as Hk by by vm_compute.
  assert (length (label_domain services limited (lit "reason")) = 6%nat) as Hr by by vm_compute.
  cbn [descriptors foldr md_labels requests bytes_served bytes_fetched upstream_seconds inflight
    checksum_failures generation_bumps guard_refusals connections request_seconds responses upstream_errors
    stale_responses upstream_inflight_service upstream_limit_service requests_in_flight draining
    store_capacity_bytes disk_available_bytes disk_total_bytes disk_guard_engaged index_objects index_bytes
    counter gauge_vec int_gauge histogram].
  rewrite Hs, Hst, Hc, Hk, Hr. lia.
Qed.

Lemma list_to_set_size {A} `{Countable A} (l : list A) : (size (list_to_set l : gset A) <= length l)%nat.
Proof.
  induction l as [|a l IH]; cbn [list_to_set length]; [by rewrite size_empty|].
  rewrite size_union_alt, size_singleton.
  assert (size ((list_to_set l : gset A) ∖ {[a]}) <= size (list_to_set l : gset A))%nat; [|lia].
  apply subseteq_size. set_solver.
Qed.

(** How many series a closed registry can have. *)
Lemma closed_size {R} `{PrometheusLaws R} (r : R) :
  closed services limited r ->
  (size (series r) <= 38 * (1 + length services + length limited) + 16)%nat.
Proof.
  intros Hc. rewrite <- universe_length, <- size_dom.
  etransitivity; [|apply list_to_set_size]. apply subseteq_size.
  intros [name values] Hd%elem_of_dom. apply elem_of_list_to_set. by apply Hc.
Qed.
End Cardinality.

(** ** The recording sites are typed *)

Lemma list_elem_of_here_eq {A} (x y : A) l : x = y -> x ∈ y :: l.
Proof. intros ->. left. Qed.

Section Sites.
Context {S T : Type} `{Foyer S} `{Redb T}.

Definition response_label (r : HttpResponse) (name : str) : str :=
  default (lit "-") (header_str (rs_headers r) name).

Definition response_typed (names : list str) (r : HttpResponse) : Prop :=
  rs_status r ∈ statuses /\ response_label r (lit "x-cachic-service") ∈ lit "-" :: names /\
  response_label r (lit "x-cache") ∈ lit "-" :: CACHE_STATUSES.

Lemma text_typed names status message : status ∈ statuses -> response_typed names (text status message).
Proof. intros Hs. split; [exact Hs|]. split; apply list_elem_of_here_eq; reflexivity. Qed.

Lemma head_typed names hostname service plan h status body :
  response_head hostname service plan = Some h -> service ∈ names -> status ∈ statuses ->
  response_typed names (mkHttpResponse status h body).
Proof.
  intros ->%response_head_shape Hn Hs. split; [exact Hs|].
  unfold response_label, header_str. cbn [rs_headers]. split.
  - change (header_get _ _) with (Some service). cbn. unfold to_str.
    destruct (forallb value_char service); [by apply list_elem_of_further|by apply list_elem_of_here_eq].
  - change (header_get _ _) with (Some (cache_status_str (pl_cache_status plan))).
    apply list_elem_of_further. destruct (pl_cache_status plan); decide_true.
Qed.

Lemma plan_status raw plan : plan_ok raw plan -> pl_status plan ∈ statuses.
Proof. intros [_ Hp]. destruct (range_spec raw); destruct Hp as (_ & -> & _); decide_true. Qed.

Context (config : ServerConfig) (blake3 : bytes -> bytes) (is_match : list str -> str -> bool).
Context (order : gmap ObjectId Readahead.Pattern -> list (ObjectId * Readahead.Pattern)).
Implicit Types sh : Shared S T.
Abbreviation names := (mt_names (lv_matcher (sc_services config))).

Lemma route_typed req :
  match route config is_match req with
  | inl (Responded r) => response_typed names r
  | inl _ => True
  | inr (service, key, _, _) => service ∈ names /\ ck_service key ∈ names
  end.
Proof.
  unfold route. destruct (is_heartbeat _).
  { unfold heartbeat_respond. split; [cbn [rs_status]; decide_true|].
    destruct (header_value_ok _); split; apply list_elem_of_here_eq; reflexivity. }
  destruct (rq_method req); [| |apply text_typed; decide_true];
    (destruct (service_for _ _) as [service|] eqn:Es;
     [apply service_for_names in Es; destruct (negb _); [apply text_typed; decide_true|]
     |destruct (sc_passthrough_unknown_hosts _); apply text_typed; decide_true]);
    (split; [exact Es|]); unfold Key.normalise; by destruct (split_target _).
Qed.

Lemma respond_plan_typed sh is_head service url fwd plan now raw r :
  service ∈ names -> plan_ok raw plan ->
  (respond_plan config order sh is_head service url fwd plan now).1.1 = Responded r ->
  response_typed names r.
Proof.
  intros Hs Hp%plan_status. unfold respond_plan, respond.
  destruct (_ || _); [|destruct (maybe_prefetch _ _ _ _ _ _)];
    (destruct (response_head _ _ _) eqn:Eh; [|done]); intros [= <-]; by eapply head_typed.
Qed.

Lemma serve_typed env sh req r :
  (serve config blake3 is_match order env sh req).1.1 = Responded r -> response_typed names r.
Proof.
  unfold serve. pose proof (route_typed req) as Hr.
  destruct (route _ _ _) as [reply|[[[service key] u] f]]; [cbn [fst]; by intros ->|].
  destruct Hr as [Hs _]. destruct (plan_request _ _ _ _ _ _ _ _) as [[p|e] st] eqn:Ep.
  - apply plan_request_ok in Ep. unfold plan_if_range. destruct (header_str _ (lit "if-range")).
    + destruct (negb _); [|by eapply respond_plan_typed].
      destruct (plan_request _ _ _ _ _ _ None _) as [[p'|e] st'] eqn:Ep'; [|done].
      apply plan_request_ok in Ep'. by eapply respond_plan_typed.
    + by eapply respond_plan_typed.
  - destruct e; try done. cbn [fst]. unfold respond.
    destruct (with_header _ _ _) as [h|] eqn:Eh; [|done]. intros [= <-].
    unfold with_header in Eh. cbn [mbind option_bind] in Eh.
    destruct (header_value_ok (_ ++ _)); [|done]. cbn in Eh.
    destruct (header_value_ok _); [|done]. injection Eh as <-.
    split; [cbn [rs_status]; decide_true|]. split; apply list_elem_of_here_eq; reflexivity.
Qed.

(** What [handle] records has labels from the closed sets. *)
Lemma handle_typed admitted env sh req client_ip r e sh' :
  handle config blake3 is_match order admitted env sh req client_ip = (Some (r, Some e), sh') ->
  ae_status e ∈ statuses /\ ae_service e ∈ lit "-" :: names /\
  ae_cache_status e ∈ lit "-" :: CACHE_STATUSES.
Proof.
  unfold handle. destruct admitted; [|done]. cbn [negb].
  pose proof (serve_typed env sh req) as Hs.
  destruct (serve _ _ _ _ _ _ _) as [[served sh''] pf]. cbn [fst] in Hs.
  assert (forall r', match served with
      | Responded r => Some r
      | Failed _ => Some (text 502 (lit "upstream error" ++ newline))
      | Panicked => None end = Some r' -> response_typed names r') as Hr.
  { destruct served as [r'|e'|]; [intros ? [= <-]; by apply Hs| |done].
    intros ? [= <-]. apply text_typed; decide_true. }
  destruct (match served with Responded _ => _ | _ => _ end) as [r'|]; [|done].
  specialize (Hr r' eq_refl). cbn [mbind option_bind].
  destruct (clf_timestamp (en_now env)); [|done]. cbn [mbind option_bind]. intros [= _ <- _].
  exact Hr.
Qed.
End Sites.

(** The errors [slice] counts, whatever happened upstream. *)
Lemma slice_error_kinds {S T} `{Foyer S} `{Redb T} slice_size stale (st : Orch S T) object meta total_len url
    index fetched kind :
  RecError kind ∈ (slice_fetch_recording slice_size stale st object meta total_len url index fetched).2 ->
  kind = lit "other".
Proof.
  unfold slice_fetch_recording. destruct (foyer_get_or_fetch _ _ _) as [outcome s].
  repeat (match goal with
  | |- context [bump_generation ?a ?b] => destruct (bump_generation a b)
  | |- context [stale && ?b] => destruct (stale && b)
  end || case_match); cbn [snd app error_kind]; set_solver.
Qed.

Section Main.
Context {R S T : Type} `{PrometheusLaws R} `{Foyer S} `{Redb T}.
Context (services limited : list str).
Implicit Types r : R.

(** What the program records: the access event of a handled request, the
    fetch of a probe, what a slice recorded, a refusal, a connection's two
    ends, a sample.  Each service is of a list in use, each ceiling configured. *)
Definition routed (service : str) : Prop :=
  exists config is_match req s key url forwarded,
    mt_names (lv_matcher (sc_services config)) ⊆ services /\
    route config is_match req = inr (s, key, url, forwarded) /\ service = ck_service key.

Definition from_program (x : Recording T) : Prop :=
  match x with
  | RRequest e =>
      exists config blake3 is_match order admitted env (sh sh' : Shared S T) req client_ip reply,
        mt_names (lv_matcher (sc_services config)) ⊆ services /\
        handle config blake3 is_match order admitted env sh req client_ip = (Some (reply, Some e), sh')
  | RFetch service _ => routed service
  | RSlice service recorded =>
      routed service /\
      exists slice_size stale (st : Orch S T) object meta total_len url index fetched,
        recorded = (slice_fetch_recording slice_size stale st object meta total_len url index fetched).2
  | RSample i => (in_per_service_limits i).*1 ⊆ limited
  | _ => True
  end.

Lemma domain_service service :
  service ∈ lit "-" :: services -> service ∈ label_domain services limited CDN_SERVICE.
Proof. unfold label_domain. rewrite decide_True by done. set_solver. Qed.

Lemma domain_routed service : service ∈ services -> service ∈ label_domain services limited CDN_SERVICE.
Proof. intros Hs. apply domain_service. by right. Qed.

Lemma domain_limited service : service ∈ limited -> service ∈ label_domain services limited CDN_SERVICE.
Proof. unfold label_domain. rewrite decide_True by done. set_solver. Qed.

Lemma domain_other label l v :
  label_domain services limited label = l -> v ∈ l -> v ∈ label_domain services limited label.
Proof. by intros ->. Qed.

Ltac typed_site :=
  split; [decide_true|];
  repeat (constructor;
    [first [by apply domain_service | by apply domain_routed | by apply domain_limited
           | eapply domain_other; [vm_compute; reflexivity|]]|]);
  try done.

(** Split a recording into its updates. *)
Ltac updates :=
  repeat match goal with
  | |- good _ _ (mbind _ _) => apply (good_bind services limited _ _ I); [|intros]
  | |- good _ _ (prom_update _ _ _ _) => apply update_good; [|done]
  end.

Lemma record_request_good e r :
  ae_status e ∈ statuses -> ae_service e ∈ lit "-" :: services ->
  ae_cache_status e ∈ lit "-" :: CACHE_STATUSES ->
  closed services limited r -> good services limited (record_request e r).
Proof.
  intros Hst Hs Hc Hr. unfold record_request, inc, inc_by, observe.
  updates; typed_site.
  change (to_dec (ae_status e) ∈ map to_dec statuses). by apply list_elem_of_fmap_2.
Qed.

Lemma record_fetch_good service n r :
  service ∈ services -> closed services limited r -> good services limited (record_fetch service n r).
Proof.
  intros Hs Hr. unfold record_fetch, inc_by, observe.
  updates; typed_site.
Qed.

Lemma record_slice_good service x r :
  service ∈ services -> (forall kind, x = RecError kind -> kind = lit "other") ->
  closed services limited r -> good services limited (record_slice service x r).
Proof.
  intros Hs Hk Hr. destruct x as [n| |kind|]; cbn [record_slice]; [by apply record_fetch_good|..];
    unfold inc, inc_by; updates; typed_site.
  rewrite (Hk kind eq_refl). decide_true.
Qed.

Lemma refusal_good refusal r :
  closed services limited r -> good services limited (record_refusal refusal r).
Proof.
  intros Hr. unfold record_refusal, inc, inc_by. updates. typed_site. destruct refusal; decide_true.
Qed.

Lemma initialise_good r :
  closed services limited r -> good services limited (initialise_known_series services r).
Proof.
  intros Hr. unfold initialise_known_series, reset. updates.
  - apply for_each_good; [done|]. intros reason r' Hin Hc. updates. by typed_site.
  - typed_site. decide_true.
  - apply for_each_good; [done|]. intros service r' Hs Hc. apply for_each_good; [done|].
    intros status r'' Hst Hc'. updates. typed_site. by right.
Qed.

Lemma checksums_good n r :
  closed services limited r -> good services limited (sample_checksums n r).
Proof.
  intros Hr. unfold sample_checksums.
  assert (typed services limited checksum_failures [lit "-"]) as Ht by (typed_site; decide_true).
  destruct (prom_get_ok r checksum_failures [lit "-"] eq_refl) as (r1 & -> & _ & Hs). cbn [mbind option_bind].
  assert (closed services limited r1) as Hc.
  { intros name values. rewrite Hs.
    destruct (decide ((md_name checksum_failures, [lit "-"]) = (name, values))) as [E|E].
    - injection E as <- <-. intros _. by apply (typed_universe _ _ checksum_failures).
    - rewrite lookup_insert_ne by done. apply Hr. }
  destruct (_ <? _); [by apply update_good|by exists r1].
Qed.

Lemma sample_good (i : Inputs T) r :
  (in_per_service_limits i).*1 ⊆ limited ->
  closed services limited r -> good services limited (sample i r).
Proof.
  intros Hl Hr. unfold sample, sample_disk, gauge_set. updates; try (by typed_site).
  - by apply checksums_good.
  - destruct (space_read _) as [disk|]; [|by eexists]. updates; typed_site.
  - apply for_each_good; [done|]. intros [service limit] r' Hin Hc.
    assert (service ∈ limited) as Hs.
    { apply Hl, list_elem_of_fmap. by exists (service, limit). }
    unfold sample_service, gauge_set. updates; [typed_site|].
    destruct (in_service_permits i service); [|by eexists]. updates. typed_site.
Qed.

Lemma routed_service service : routed service -> service ∈ services.
Proof.
  intros (config & is_match & req & s & key & url & fwd & Hsub & Hr & ->).
  pose proof (route_typed config is_match req) as Ht. rewrite Hr in Ht. by apply Hsub, Ht.
Qed.

Lemma record_good (x : Recording T) r :
  from_program x -> closed services limited r -> good services limited (record x r).
Proof.
  intros Hx Hr. destruct x as [e|service n|service recorded|refusal| | |i]; cbn [record].
  - destruct Hx as (config & blake3 & is_match & order & admitted & env & sh & sh' & req & ip & reply & Hsub & Hh).
    apply handle_typed in Hh as (Hst & Hs & Hc). apply record_request_good; try done.
    apply elem_of_cons in Hs as [->|Hs]; [left|right; by apply Hsub].
  - apply record_fetch_good; [by apply routed_service|done].
  - destruct Hx as (Hs%routed_service & slice_size & stale & st & object & meta & total & url & index & fetched & Hrec).
    apply for_each_good; [done|]. intros y r' Hy Hc. apply record_slice_good; [done| |done].
    intros kind ->. rewrite Hrec in Hy. by apply slice_error_kinds in Hy.
  - by apply refusal_good.
  - unfold connection_opened, gauge_add. updates. typed_site.
  - unfold connection_closed, gauge_add. updates. typed_site.
  - by apply sample_good.
Qed.

Lemma register_all_ok l r :
  NoDup (md_name <$> l) -> (forall d, d ∈ l -> md_name d ∉ registered r) ->
  exists r', register_all l r = Ok r' /\ registered r' = reverse (md_name <$> l) ++ registered r /\
    series r' = series r.
Proof.
  revert r. induction l as [|d l IH]; intros r Hn Hf; cbn [register_all]; [by exists r|].
  apply NoDup_cons in Hn as [Hd Hn].
  destruct (prom_register_ok r d) as (r1 & -> & Hr1 & Hs1); [apply Hf; by left|]. cbn [mbind result_bind].
  destruct (IH r1 Hn) as (r2 & -> & Hr2 & Hs2).
  { intros d' Hd'. rewrite Hr1. intros [E|Hin]%elem_of_cons; [|by eapply Hf; [right|]].
    apply Hd. rewrite <- E. by apply list_elem_of_fmap_2. }
  exists r2. split; [done|]. split; [|congruence].
  rewrite Hr2, Hr1, fmap_cons, reverse_cons, <- app_assoc. done.
Qed.

Lemma build_all_ok l : forallb desc_valid l = true -> build_all (R := R) l = Ok tt.
Proof.
  induction l as [|d l IH]; [done|]. cbn [forallb build_all]. intros [Hd Hl]%andb_prop.
  rewrite (prom_desc_ok d Hd). by apply IH.
Qed.

Lemma metrics_new_ok : exists r : R, metrics_new = Ok r /\
  registered r = reverse (md_name <$> descriptors) /\ series r = ∅.
Proof.
  unfold metrics_new. rewrite build_all_ok by by vm_compute. cbn [mbind result_bind].
  destruct (register_all_ok descriptors prom_new) as (r & -> & Hr & Hs).
  - decide_true.
  - intros d _. rewrite registered_new. apply not_elem_of_nil.
  - exists r. split; [done|]. by rewrite Hr, Hs, registered_new, series_new, app_nil_r.
Qed.

(** C14: metrics are well typed and their label sets are closed.  Building
    and registering the twenty-three metrics succeeds; publishing the known
    series and then recording, in any order, whatever requests, fetches, slice
    tasks, refusals, connections and samples the program produces never hits
    the library's panic for a wrong number of label values; and every series
    that ever exists carries labels from fixed finite sets - the services in
    use, the cache statuses, nine status codes, the error kinds, the refusal
    reasons - so their number is at most linear in the number of services,
    whatever clients request. *)
Theorem metrics_typed_and_closed (recordings : list (Recording T)) :
  Forall from_program recordings ->
  exists r0 r1 r2 : R,
    metrics_new = Ok r0 /\ initialise_known_series services r0 = Some r1 /\
    for_each record recordings r1 = Some r2 /\ closed services limited r2 /\
    (size (series r2) <= 38 * (1 + length services + length limited) + 16)%nat.
Proof.
  intros Hf. destruct metrics_new_ok as (r0 & Hn & _ & Hs).
  assert (closed services limited r0) as Hc0.
  { intros name values. rewrite Hs, lookup_empty. by intros [? ?]. }
  destruct (initialise_good r0 Hc0) as (r1 & Hi & Hc1).
  destruct (for_each_good services limited record recordings r1 Hc1) as (r2 & Hr & Hc2).
  { intros x r Hx. apply record_good. by eapply Forall_forall in Hx. }
  exists r0, r1, r2. by repeat split; try apply closed_size.
Qed.
End Main.

(** ** The sampled gauges *)

Definition reads {R} `{PrometheusLaws R} (r : R) (d : Desc) (values : list str) : option Z :=
  series r !! (md_name d, values).

Lemma as_i64_small n : 0 <= n < 2 ^ 63 -> as_i64 n = n.
Proof. intros Hn. unfold as_i64. rewrite wrap_small by width. destruct (Z.ltb_spec n (2 ^ 63)); lia. Qed.

Lemma as_i64_bool b : as_i64 (bool_Z b) = bool_Z b.
Proof. by destruct b. Qed.

Section Sampled.
Context {R T : Type} `{PrometheusLaws R} `{RedbLaws T}.
Implicit Types r : R.

(** An operation succeeds and leaves these series. *)
Definition writes (o : option R) (m : gmap (str * list str) Z) : Prop :=
  exists r, o = Some r /\ series r = m.

Lemma set_writes d values n r :
  length values = length (md_labels d) ->
  writes (gauge_set d values n r) (<[(md_name d, values) := as_i64 n]> (series r)).
Proof. intros Hl. destruct (prom_update_ok r d values (fun _ => as_i64 n) Hl) as (r' & ? & _ & ?). by exists r'. Qed.

Lemma checksums_write n r :
  in_u 64 n -> in_u 64 (default 0 (reads r checksum_failures [lit "-"])) ->
  writes (sample_checksums n r)
    (<[(md_name checksum_failures, [lit "-"]) := Z.max (default 0 (reads r checksum_failures [lit "-"])) n]>
       (series r)).
Proof.
  unfold sample_checksums, reads. intros Hn.
  destruct (prom_get_ok r checksum_failures [lit "-"] eq_refl) as (r1 & -> & _ & Hs). cbn [mbind option_bind].
  set (already := default 0 _) in *. intros Ha. destruct (Z.ltb_spec already n) as [Hlt|Hge].
  - destruct (prom_update_ok r1 checksum_failures [lit "-"]
      (fun x => wrap64 (x + wrap64 (n - already))) eq_refl) as (r2 & Hu & _ & Hs2).
    exists r2. split; [exact Hu|]. rewrite Hs2, Hs, lookup_insert_eq, insert_insert_eq.
    change (default 0 (Some already)) with already. f_equal. clear Hu Hs2 Hs. clearbody already. rewrite (wrap_small 64 (n - already)) by (unfold in_u in *; lia).
    rewrite wrap_small by (unfold in_u in *; lia). lia.
  - exists r1. split; [done|]. rewrite Hs. f_equal. lia.
Qed.

Definition service_series (name : str) : bool :=
  bool_decide (name = md_name upstream_limit_service) ||
  bool_decide (name = md_name upstream_inflight_service).

Lemma service_writes (i : Inputs T) service limit r :
  exists r', sample_service i (service, limit) r = Some r' /\
    reads r' upstream_limit_service [service] = Some (as_i64 limit) /\
    (forall available, in_service_permits i service = Some available ->
       reads r' upstream_inflight_service [service] = Some (as_i64 (sat_sub limit available))) /\
    (forall name values, service_series name = false \/ values <> [service] ->
       series r' !! (name, values) = series r !! (name, values)).
Proof.
  unfold sample_service. destruct (set_writes upstream_limit_service [service] limit r eq_refl) as (r1 & -> & Hs1).
  cbn [mbind option_bind].
  assert (forall name values, service_series name = false \/ values <> [service] ->
    (md_name upstream_limit_service, [service]) <> (name, values) /\
    (md_name upstream_inflight_service, [service]) <> (name, values)) as Hne.
  { intros name values [Hn|Hv]; split; intros [= <- <-]; done. }
  destruct (in_service_permits i service) as [available|].
  - destruct (set_writes upstream_inflight_service [service] (sat_sub limit available) r1 eq_refl)
      as (r2 & -> & Hs2).
    exists r2. split; [done|]. unfold reads. rewrite Hs2, Hs1.
    split; [by rewrite lookup_insert_ne, lookup_insert_eq by done|].
    split; [intros ? [= ->]; by rewrite lookup_insert_eq|].
    intros name values [Hn1 Hn2]%Hne. by rewrite !lookup_insert_ne by done.
  - exists r1. split; [done|]. unfold reads. rewrite Hs1. split; [by rewrite lookup_insert_eq|].
    split; [done|]. intros name values [Hn1 _]%Hne. by rewrite lookup_insert_ne by done.
Qed.

Lemma services_write (i : Inputs T) l r :
  NoDup l.*1 ->
  exists r', for_each (sample_service i) l r = Some r' /\
    (forall service limit, (service, limit) ∈ l ->
       reads r' upstream_limit_service [service] = Some (as_i64 limit) /\
       (forall available, in_service_permits i service = Some available ->
          reads r' upstream_inflight_service [service] = Some (as_i64 (sat_sub limit available)))) /\
    (forall name values, service_series name = false \/ values ∉ (fun s => [s]) <$> l.*1 ->
       series r' !! (name, values) = series r !! (name, values)).
Proof.
  revert r. induction l as [|[service limit] l IH]; intros r Hn; cbn [for_each].
  { exists r. split; [done|]. split; [set_solver|done]. }
  rewrite fmap_cons in Hn. apply NoDup_cons in Hn as [Hs Hn].
  destruct (service_writes i service limit r) as (r1 & -> & Hl & Hp & Hf). cbn [mbind option_bind].
  destruct (IH r1 Hn) as (r2 & -> & Hin & Hf2). exists r2. split; [done|].
  assert ([service] ∉ (fun s => [s]) <$> l.*1) as Hs'.
  { intros (s & [= ->] & Hs')%list_elem_of_fmap. done. }
  split.
  - intros s n [[= -> ->]|Hin']%elem_of_cons; [|by apply Hin]. unfold reads in *.
    split; [|intros a Ha]; rewrite Hf2 by (by right); [done|by apply Hp].
  - intros name values Hv. rewrite Hf2, Hf; [done| |].
    + destruct Hv as [Hv|Hv]; [by left|right]. intros ->. apply Hv. rewrite !fmap_cons. left.
    + destruct Hv as [Hv|Hv]; [by left|right]. intros Hv'. apply Hv. rewrite !fmap_cons. by right.
Qed.

(** The series of the metrics that have no labels or that the sampler alone
    writes, after everything but the per-service part. *)
Definition disk_series (i : Inputs T) (indexed : Z) (m : gmap (str * list str) Z) : gmap (str * list str) Z :=
  match space_read (in_statvfs i) with
  | Some disk =>
      let effective := effective_cap (in_configured_disk_bytes i) (in_min_free_bytes i) indexed disk in
      <[(md_name disk_guard_engaged, []) :=
          as_i64 (bool_Z (is_engaged (in_configured_disk_bytes i) effective))]>
      (<[(md_name store_capacity_bytes, []) := as_i64 effective]>
      (<[(md_name disk_available_bytes, []) := as_i64 (ds_available disk)]>
      (<[(md_name disk_total_bytes, []) := as_i64 (ds_total disk)]> m)))
  | None => m
  end.

Lemma disk_writes (i : Inputs T) indexed r :
  writes (sample_disk i indexed r) (disk_series i indexed (series r)).
Proof.
  unfold sample_disk, disk_series. destruct (space_read _) as [disk|]; [|by exists r].
  destruct (set_writes disk_total_bytes [] (ds_total disk) r eq_refl) as (r1 & -> & <-). cbn [mbind option_bind].
  destruct (set_writes disk_available_bytes [] (ds_available disk) r1 eq_refl) as (r2 & -> & <-).
  cbn [mbind option_bind]. set (e := effective_cap _ _ _ _).
  destruct (set_writes store_capacity_bytes [] e r2 eq_refl) as (r3 & -> & <-). cbn [mbind option_bind].
  apply set_writes. done.
Qed.

(** The wiring of [main.rs]: the sampler looks at this client's permits. *)
Definition wired (i : Inputs T) (cfg : ClientConfig) (p : Permits) : Prop :=
  in_per_service_limits i ≡ₚ map_to_list (cc_per_service_inflight cfg) /\
  in_upstream_capacity i = cc_max_inflight cfg /\ in_upstream_available i = available_permits p /\
  in_service_permits i = service_permits p.

(** Reduce a lookup in a chain of insertions at closed keys. *)
Ltac look :=
  repeat first [rewrite lookup_insert_eq | rewrite lookup_insert_ne by done].

(** The series the sampler writes before the per-service loop. *)
Definition level_series (i : Inputs T) (objects indexed : Z) (m : gmap (str * list str) Z)
    : gmap (str * list str) Z :=
  disk_series i indexed
  (<[(md_name index_bytes, []) := as_i64 indexed]>
  (<[(md_name index_objects, []) := as_i64 objects]>
  (<[(md_name draining, []) := as_i64 (bool_Z (dr_draining (in_drain i)))]>
  (<[(md_name checksum_failures, [lit "-"]) :=
       Z.max (default 0 (m !! (md_name checksum_failures, [lit "-"]))) (in_checksum_failures i)]>
  (<[(md_name inflight, []) := as_i64 (sat_sub (in_upstream_capacity i) (in_upstream_available i))]>
  (<[(md_name requests_in_flight, []) := as_i64 (dr_inflight (in_drain i))]> m)))))).

Lemma level_writes (i : Inputs T) r :
  in_u 64 (in_checksum_failures i) -> in_u 64 (default 0 (reads r checksum_failures [lit "-"])) ->
  exists r1, sample i r = for_each (sample_service i) (in_per_service_limits i) r1 /\
    series r1 = level_series i (unwrap_or (index_len (in_index i)) 0)
                  (unwrap_or (index_total_bytes (in_index i)) 0) (series r).
Proof.
  intros Hf Ha. unfold sample, level_series.
  destruct (set_writes requests_in_flight [] (dr_inflight (in_drain i)) r eq_refl) as (r1 & -> & Hs1).
  cbn [mbind option_bind].
  destruct (set_writes inflight [] (sat_sub (in_upstream_capacity i) (in_upstream_available i)) r1 eq_refl)
    as (r2 & -> & Hs2). cbn [mbind option_bind].
  assert (reads r2 checksum_failures [lit "-"] = reads r checksum_failures [lit "-"]) as Hc.
  { unfold reads. rewrite Hs2, Hs1. by look. }
  destruct (checksums_write (in_checksum_failures i) r2 Hf) as (r3 & -> & Hs3); [by rewrite Hc|].
  rewrite Hc, Hs2, Hs1 in Hs3. unfold reads in Hs3. rewrite <- Hs3. cbn [mbind option_bind].
  destruct (set_writes draining [] (bool_Z (dr_draining (in_drain i))) r3 eq_refl) as (r4 & -> & <-).
  cbn [mbind option_bind].
  destruct (set_writes index_objects [] (unwrap_or (index_len (in_index i)) 0) r4 eq_refl) as (r5 & -> & <-).
  cbn [mbind option_bind].
  destruct (set_writes index_bytes [] (unwrap_or (index_total_bytes (in_index i)) 0) r5 eq_refl)
    as (r6 & -> & <-). cbn [mbind option_bind].
  destruct (disk_writes i (unwrap_or (index_total_bytes (in_index i)) 0) r6) as (r7 & -> & <-).
  by exists r7.
Qed.

Lemma sum_len_nonneg (t : T) m : index_rel t m -> 0 <= Index.sum_len m.
Proof.
  intros Hrel. destruct (rel_iter t m Hrel) as (l & _ & Hp & Hok). unfold Index.sum_len.
  rewrite <- (sum_perm _ _ Hp). clear Hp. induction Hok as [|x l (Hx & _) _ IH]; cbn [foldr]; width.
Qed.

Lemma level_lookup (i : Inputs T) indexed m name values :
  name ∉ [md_name disk_guard_engaged; md_name store_capacity_bytes; md_name disk_available_bytes;
          md_name disk_total_bytes] ->
  disk_series i indexed m !! (name, values) = m !! (name, values).
Proof.
  intros Hn. unfold disk_series. destruct (space_read _); [|done].
  rewrite !lookup_insert_ne by (intros [= <- _]; apply Hn; decide_true). done.
Qed.

(** The sampled gauges report the state they stand for.  In any state the
    client's permits can reach and for any index, after a sample the in-flight
    gauges equal the number of fetches sending, and of each limited service's
    fetches in progress; the request, drain, object and byte gauges equal the
    drain's and the index's own values; the disk gauges are the free-space
    guard's; and the corruption counter equals the codec's process-wide count,
    never going backwards. *)
Theorem sample_publishes (i : Inputs T) r cfg p fs m :
  0 <= cc_max_inflight cfg < 2 ^ 63 -> rtc permit_step (permits_new cfg, []) (p, fs) ->
  map_Forall (fun _ limit => 1 <= limit < 2 ^ 63) (cc_per_service_inflight cfg) -> wired i cfg p ->
  index_rel (in_index i) m -> Index.sum_len m < 2 ^ 63 -> Z.of_nat (size m) < 2 ^ 63 ->
  0 <= dr_inflight (in_drain i) < 2 ^ 63 -> in_u 64 (in_checksum_failures i) ->
  in_u 64 (default 0 (reads r checksum_failures [lit "-"])) ->
  exists r', sample i r = Some r' /\
    reads r' requests_in_flight [] = Some (dr_inflight (in_drain i)) /\
    reads r' inflight [] = Some (count sending fs) /\
    reads r' checksum_failures [lit "-"] =
      Some (Z.max (default 0 (reads r checksum_failures [lit "-"])) (in_checksum_failures i)) /\
    reads r' draining [] = Some (bool_Z (dr_draining (in_drain i))) /\
    reads r' index_objects [] = Some (Z.of_nat (size m)) /\
    reads r' index_bytes [] = Some (Index.sum_len m) /\
    (forall disk, space_read (in_statvfs i) = Some disk ->
       let cap := effective_cap (in_configured_disk_bytes i) (in_min_free_bytes i) (Index.sum_len m) disk in
       reads r' disk_total_bytes [] = Some (as_i64 (ds_total disk)) /\
       reads r' disk_available_bytes [] = Some (as_i64 (ds_available disk)) /\
       reads r' store_capacity_bytes [] = Some (as_i64 cap) /\
       reads r' disk_guard_engaged [] = Some (bool_Z (is_engaged (in_configured_disk_bytes i) cap))) /\
    (forall service limit, cc_per_service_inflight cfg !! service = Some limit ->
       reads r' upstream_limit_service [service] = Some limit /\
       reads r' upstream_inflight_service [service] = Some (count (in_service service) fs)).
Proof.
  intros Hmax Hreach Hlim (Hperm & Hcap & Hav & Hsp) Hrel Hsum Hsize Hdr Hf Ha.
  apply permit_reachable in Hreach as (Hinv & Htot & Hper); [|lia]. cbn [fst] in *.
  pose proof Hinv as (Hg & Hg0 & _).
  pose proof (count_nonneg sending fs) as Hcs.
  destruct (level_writes i r Hf Ha) as (r1 & -> & Hs1).
  destruct (services_write i (in_per_service_limits i) r1) as (r2 & -> & Hsvc & Hframe).
  { rewrite Hperm. apply NoDup_fst_map_to_list. }
  exists r2. split; [done|].
  assert (index_total_bytes (in_index i) = Ok (Index.sum_len m)) as Htb.
  { rewrite (rel_total_bytes _ m Hrel). f_equal. width. }
  assert (index_len (in_index i) = Ok (Z.of_nat (size m))) as Hlen.
  { destruct Hrel as (Hav' & Hr & _). unfold index_len. by rewrite redb_len_ok, Hr, map_size_fmap by done. }
  rewrite Htb, Hlen in Hs1. cbn [unwrap_or] in Hs1.
  assert (0 <= Index.sum_len m) as Hsum0 by by eapply sum_len_nonneg.
  unfold reads. repeat (rewrite Hframe by (by left)). rewrite Hs1. unfold level_series.
  rewrite !level_lookup by (decide_true). look.
  rewrite (as_i64_small (sat_sub _ _)) by (rewrite Hcap, Hav; unfold available_permits; width).
  rewrite !as_i64_bool, (as_i64_small (dr_inflight _)), (as_i64_small (Z.of_nat _)),
    (as_i64_small (Index.sum_len m)) by lia.
  split; [done|]. split; [f_equal; rewrite Hcap, Hav; unfold available_permits; width|].
  do 4 (split; [done|]). split.
  - intros disk Hd. unfold disk_series. rewrite Hd. look. by rewrite as_i64_bool.
  - intros service limit Hl. specialize (Hlim service limit Hl). cbv beta in Hlim.
    destruct (service_permits_exact cfg p fs service limit Hinv Hper Hl) as [Hle Hp].
    pose proof (count_nonneg (in_service service) fs). rewrite <- Hsp in Hp.
    destruct (Hsvc service limit) as [H1' H2'].
    { rewrite Hperm. by apply elem_of_map_to_list. }
    unfold reads in *. rewrite H1', (H2' _ Hp), !as_i64_small by width. split; [done|]. f_equal. width.
Qed.
End Sampled.

(** The error counter cannot tell failures apart.  Its [kind] label is
    meant to say whether the origin timed out, refused, answered 4xx or 5xx or
    did not resolve, and [error_kind] does so for an upstream error; but an
    error that reaches it has crossed the store and is a store error, so
    whatever the origin did, every failure [slice] counts has kind [other]. *)
Theorem error_kind_is_always_other {S T} `{Foyer S} `{Redb T} slice_size stale (st : Orch S T) object meta
    total_len url index e :
  let '(result, _, recorded) :=
    slice_fetch_recording slice_size stale st object meta total_len url index (Err e) in
  (forall kind, RecError kind ∈ recorded -> kind = lit "other") /\
  (forall e', result = Err e' -> recorded = [RecError (lit "other")]).
Proof.
  pose proof (slice_error_kinds slice_size stale st object meta total_len url index (Err e)) as Hk.
  destruct (slice_fetch_recording _ _ _ _ _ _ _ _ _) as [[res st'] recorded] eqn:E.
  split; [exact Hk|]. intros e' ->. revert E. unfold slice_fetch_recording, check_slice.
  destruct (foyer_get_or_fetch _ _ _) as [[v| |text] s]; [done| |];
    (destruct (stale && _); [repeat case_match|]; by intros [= _ _ <-]).
Qed.

(** ** A registry, and witnesses *)

Record ToyRegistry := mkToyRegistry { tr_names : list str; tr_series : gmap (str * list str) Z }.

#[export] Instance toy_prometheus : Prometheus ToyRegistry := {
  prom_new := mkToyRegistry [] ∅;
  prom_desc d := if desc_valid d then Ok tt else Err (md_name d);
  prom_register r d :=
    if decide (md_name d ∈ tr_names r) then Err (md_name d)
    else Ok (mkToyRegistry (md_name d :: tr_names r) (tr_series r));
  prom_update r d values f :=
    if decide (length values = length (md_labels d)) then
      let key := (md_name d, values) in
      Some (mkToyRegistry (tr_names r) (<[key := f (default 0 (tr_series r !! key))]> (tr_series r)))
    else None;
  prom_get r d values :=
    if decide (length values = length (md_labels d)) then
      let key := (md_name d, values) in
      let v := default 0 (tr_series r !! key) in
      Some (v, mkToyRegistry (tr_names r) (<[key := v]> (tr_series r)))
    else None }.

#[export] Program Instance toy_prometheus_laws : PrometheusLaws ToyRegistry := {
  series := tr_series; registered := tr_names }.
Solve All Obligations with
  (intros; cbn; try match goal with H : desc_valid _ = true |- _ => rewrite H end;
   repeat case_decide; try done; by eexists).

Definition toy_handled :=
  handle toy_server (fun b => b) (fun _ _ => false) map_to_list true toy_env toy_shared toy_request
    (lit "10.0.0.9").
Definition toy_event : AccessEvent :=
  match toy_handled.1 with
  | Some (_, Some e) => e
  | _ => mkAccessEvent [] [] [] [] [] None 0 0 [] None []
  end.
Definition toy_answer : HttpResponse := match toy_handled.1 with Some (r, _) => r | None => text 0 [] end.

Definition toy_recordings : list (Recording (gmap ObjectId bytes)) :=
  [ROpened; RRequest toy_event; RRefusal Private; RClosed].

Lemma metrics_typed_and_closed_witness :
  exists r0 r1 r2 : ToyRegistry,
    metrics_new = Ok r0 /\ initialise_known_series [lit "steam"] r0 = Some r1 /\
    for_each record toy_recordings r1 = Some r2 /\ closed [lit "steam"] [] r2 /\
    (size (series r2) <= 38 * (1 + 1 + 0) + 16)%nat.
Proof.
  apply (metrics_typed_and_closed (R := ToyRegistry) (S := gmap SliceKey SliceValue) [lit "steam"] []
           toy_recordings).
  constructor; [exact I|]. constructor; [|by repeat constructor].
  exists toy_server, (fun b => b), (fun _ _ => false), map_to_list, true, toy_env, toy_shared,
    toy_handled.2, toy_request, (lit "10.0.0.9"), toy_answer.
  split; [by vm_compute|]. fold toy_handled. rewrite (surjective_pairing toy_handled) at 1.
  f_equal.
Defined.

(** One fetch of the limited service in flight. *)
Definition toy_permits : Permits :=
  mkPermits (mkSemaphore 2 1) {[ lit "steam" := mkSemaphore 1 0 ]}.

Lemma toy_permits_reached :
  rtc permit_step (permits_new toy_config, []) (toy_permits, [HoldsBoth (lit "steam")]).
Proof.
  eapply rtc_l.
  - apply (step_take_service _ [] (lit "steam") (mkPermits (mkSemaphore 2 2) {[ lit "steam" := mkSemaphore 1 0 ]})).
    vm_compute. reflexivity.
  - eapply rtc_l; [|apply rtc_refl]. by apply (step_take_global _ [] [] (lit "steam")).
Qed.

Definition toy_inputs : Inputs (gmap ObjectId bytes) :=
  mkInputs ∅ drain_new None 1000 100 [(lit "steam", 1)] (service_permits toy_permits) 2 1 7.

Lemma sample_publishes_witness :
  exists r' : ToyRegistry, sample toy_inputs (mkToyRegistry [] ∅) = Some r' /\
    reads r' inflight [] = Some 1 /\ reads r' checksum_failures [lit "-"] = Some 7 /\
    reads r' upstream_inflight_service [lit "steam"] = Some 1.
Proof.
  destruct (sample_publishes toy_inputs (mkToyRegistry [] ∅) toy_config toy_permits
    [HoldsBoth (lit "steam")] ∅) as (r' & Hs & _ & Hi & Hc & _ & _ & _ & _ & Hsvc).
  - cbn. lia.
  - exact toy_permits_reached.
  - intros s l Hl. cbn in Hl. apply lookup_singleton_Some in Hl as [_ <-]. lia.
  - repeat split. cbn. by rewrite map_to_list_singleton.
  - split; [exact I|]. split; [reflexivity|]. apply map_Forall_empty.
  - reflexivity.
  - reflexivity.
  - cbn. lia.
  - split; by vm_compute.
  - split; by vm_compute.
  - exists r'. split; [exact Hs|]. split; [exact Hi|]. split; [exact Hc|].
    apply (Hsvc (lit "steam") 1). reflexivity.
Defined.
