(* ===== verification/Accept.v ===== *)
(** * The two listening ports

    Models the accept loops of [crates/cachic/src/proxy/server.rs] ([Server::bind])
    and [sni/proxy.rs] ([SniProxy::bind]), the tasks they spawn and what the two
    share: one [ConnectionLimit], taken by both loops and released by every task,
    the connection gauge and the counters of the TLS side.

    An [Action] is one atomic action of a loop, of a task or of the world around
    them; [act] performs it, and any sequence of enabled actions is an execution.
    [try_acquire_for] is its separate critical sections, a permit's drop its two
    releases, a splice its opening and its copying.  The update of a statistics
    counter is done with the action that leads to it.  [nt_trace] records what
    happened, latest first; it is not state of the program. *)

From S2P Require Import Prelude.
From S2P Require Import RustStr.
From S2P Require Import Guard.
From S2P Require Import Resolver.
From S2P Require Import Domains.
From S2P Require Import Sni.
From S2P Require Import Limits.
From S2P Require Import Metrics.

Open Scope Z_scope.

Inductive Port := Http | Https.
#[export] Instance Port_eq : EqDecision Port.
Proof. solve_decision. Defined.

(** Where a loop is: at its [select!], between the peer's slot and the global
    one, about to give the peer's slot back, or returned. *)
Inductive LoopPc :=
  | Accepting
  | Claimed (peer : IpAddr)
  | Undoing (peer : IpAddr)
  | Stopped.

Record Loop := mkLoop {
  lp_pc : LoopPc;
  lp_shutdown : bool }.

(** Where a connection's task is.  An HTTP task is [Spawned], [Serving] while
    [serve_connection] runs, then [Finished]; a TLS task is [Spawned], [Copying]
    once the hello was replayed, then [Finished].  A finished task is about to
    drop its permit. *)
Inductive TaskPc := Spawned | Serving | Copying | Finished.
#[export] Instance TaskPc_eq : EqDecision TaskPc.
Proof. solve_decision. Defined.

Record Task := mkTask {
  tk_port : Port;
  tk_permit : Permit;
  tk_pc : TaskPc }.

Inductive NetEvent :=
  | EvAdmitted (port : Port) (peer : IpAddr)
  | EvRefused (port : Port) (peer : IpAddr)
  | EvSplice (services : LiveServices) (conn : option Connection) (established : bool)
  | EvCopied (copied : option (Z * Z))
  | EvEnded (port : Port).

Record Net (R : Type) := mkNet {
  nt_limit : ConnectionLimit;
  nt_http : Loop;
  nt_https : Loop;
  nt_tasks : list Task;
  nt_dropping : list IpAddr;
  nt_metrics : option R;
  nt_stats : SniStats;
  nt_resolver : UpstreamResolver;
  nt_services : LiveServices;
  nt_trace : list NetEvent }.
Arguments mkNet {R}.
Arguments nt_limit {R}.
Arguments nt_http {R}.
Arguments nt_https {R}.
Arguments nt_tasks {R}.
Arguments nt_dropping {R}.
Arguments nt_metrics {R}.
Arguments nt_stats {R}.
Arguments nt_resolver {R}.
Arguments nt_services {R}.
Arguments nt_trace {R}.

Inductive Action :=
  | Arrive (port : Port) (peer : IpAddr)
  | AcceptFails (port : Port)
  | Tick (port : Port)
  | TakeGlobal (port : Port)
  | Undo (port : Port)
  | OpenHttp (i : nat)
  | CloseHttp (i : nat)
  | OpenSplice (i : nat) (lookup_ip : list SocketAddr -> str -> option (list IpAddr))
      (connect : SocketAddr -> bool) (replay_ok : bool) (reads : list ReadResult)
  | CloseSplice (i : nat) (copied : option (Z * Z))
  | Release (i : nat)
  | GiveBack (i : nat)
  | Refresh (fetched : option DomainList)
  | Shutdown (port : Port).

Definition count_accepted (s : SniStats) : SniStats :=
  mkSniStats (wrap64 (ss_accepted s + 1)) (ss_spliced s) (ss_no_sni s) (ss_refused s)
    (ss_not_allow_listed s) (ss_refused_limit s) (ss_upstream_failed s)
    (ss_bytes_client_to_origin s) (ss_bytes_origin_to_client s).
Definition count_refused_limit (s : SniStats) : SniStats :=
  mkSniStats (ss_accepted s) (ss_spliced s) (ss_no_sni s) (ss_refused s)
    (ss_not_allow_listed s) (wrap64 (ss_refused_limit s + 1)) (ss_upstream_failed s)
    (ss_bytes_client_to_origin s) (ss_bytes_origin_to_client s).

Section Actions.
Context {R : Type} `{Prometheus R}.
(** The port the TLS side dials and whether it passes unknown names through. *)
Context (origin_port : Z) (passthrough_unknown_hosts : bool).
Implicit Types n : Net R.

Definition loop_of n (port : Port) : Loop :=
  match port with Http => nt_http n | Https => nt_https n end.
Definition set_loop (port : Port) (lp : Loop) n : Net R :=
  mkNet (nt_limit n) (match port with Http => lp | Https => nt_http n end)
    (match port with Http => nt_https n | Https => lp end) (nt_tasks n) (nt_dropping n) (nt_metrics n)
    (nt_stats n) (nt_resolver n) (nt_services n) (nt_trace n).
Definition goto (port : Port) (pc : LoopPc) n : Net R :=
  set_loop port (mkLoop pc (lp_shutdown (loop_of n port))) n.
Definition set_limit (l : ConnectionLimit) n : Net R :=
  mkNet l (nt_http n) (nt_https n) (nt_tasks n) (nt_dropping n) (nt_metrics n) (nt_stats n)
    (nt_resolver n) (nt_services n) (nt_trace n).
Definition set_tasks (tasks : list Task) n : Net R :=
  mkNet (nt_limit n) (nt_http n) (nt_https n) tasks (nt_dropping n) (nt_metrics n) (nt_stats n)
    (nt_resolver n) (nt_services n) (nt_trace n).
Definition set_dropping (dropping : list IpAddr) n : Net R :=
  mkNet (nt_limit n) (nt_http n) (nt_https n) (nt_tasks n) dropping (nt_metrics n) (nt_stats n)
    (nt_resolver n) (nt_services n) (nt_trace n).
Definition set_metrics (metrics : option R) n : Net R :=
  mkNet (nt_limit n) (nt_http n) (nt_https n) (nt_tasks n) (nt_dropping n) metrics (nt_stats n)
    (nt_resolver n) (nt_services n) (nt_trace n).
Definition set_stats (stats : SniStats) n : Net R :=
  mkNet (nt_limit n) (nt_http n) (nt_https n) (nt_tasks n) (nt_dropping n) (nt_metrics n) stats
    (nt_resolver n) (nt_services n) (nt_trace n).
Definition set_resolver (resolver : UpstreamResolver) n : Net R :=
  mkNet (nt_limit n) (nt_http n) (nt_https n) (nt_tasks n) (nt_dropping n) (nt_metrics n) (nt_stats n)
    resolver (nt_services n) (nt_trace n).
Definition set_services (services : LiveServices) n : Net R :=
  mkNet (nt_limit n) (nt_http n) (nt_https n) (nt_tasks n) (nt_dropping n) (nt_metrics n) (nt_stats n)
    (nt_resolver n) services (nt_trace n).
Definition log (e : NetEvent) n : Net R :=
  mkNet (nt_limit n) (nt_http n) (nt_https n) (nt_tasks n) (nt_dropping n) (nt_metrics n) (nt_stats n)
    (nt_resolver n) (nt_services n) (e :: nt_trace n).

(** *** The loops *)

(** [try_acquire_for] returned [None]: the stream is dropped. *)
Definition refuse (port : Port) (peer : IpAddr) n : Net R :=
  let n := match port with Http => n | Https => set_stats (count_refused_limit (nt_stats n)) n end in
  log (EvRefused port peer) (goto port Accepting n).

(** It returned a permit: the task is spawned with it. *)
Definition admit_conn (port : Port) (peer : IpAddr) (permit : Permit) n : Net R :=
  let n := match port with Http => n | Https => set_stats (count_accepted (nt_stats n)) n end in
  log (EvAdmitted port peer) (goto port Accepting (set_tasks (mkTask port permit Spawned :: nt_tasks n) n)).

(** A connection was accepted: the first action of [try_acquire_for]. *)
Definition arrive (port : Port) (peer : IpAddr) n : Net R :=
  match cl_per_peer (nt_limit n) with
  | Some per_peer =>
      let '(ok, l) := claim_peer (nt_limit n) per_peer peer in
      if ok then goto port (Claimed peer) (set_limit l n) else refuse port peer (set_limit l n)
  | None =>
      let '(ok, l) := acquire_global (nt_limit n) in
      if ok then admit_conn port peer None (set_limit l n) else refuse port peer (set_limit l n)
  end.

Definition take_slot (port : Port) (peer : IpAddr) n : Net R :=
  let '(ok, l) := acquire_global (nt_limit n) in
  if ok then admit_conn port peer (Some peer) (set_limit l n) else goto port (Undoing peer) (set_limit l n).

(** The timer of [select!] fired; only then the flag is looked at. *)
Definition tick (port : Port) n : Net R :=
  if lp_shutdown (loop_of n port) then goto port Stopped n else n.

(** *** The tasks *)

Definition set_pc (i : nat) (t : Task) (pc : TaskPc) n : Net R :=
  set_tasks (<[i := mkTask (tk_port t) (tk_permit t) pc]> (nt_tasks n)) n.

(** [if let Some(metrics) = ..] around an update of the gauge; [None] is a panic. *)
Definition on_metrics (f : R -> option R) n : option (Net R) :=
  match nt_metrics n with
  | None => Some n
  | Some r => r ← f r; Some (set_metrics (Some r) n)
  end.

Definition open_http (i : nat) (t : Task) n : option (Net R) :=
  on_metrics connection_opened (set_pc i t Serving n).
Definition close_http (i : nat) (t : Task) n : option (Net R) :=
  on_metrics connection_closed (set_pc i t Finished n).

(** [splice] up to the start of the copying. *)
Definition open_splice (i : nat) (t : Task) (lookup_ip : list SocketAddr -> str -> option (list IpAddr))
    (connect : SocketAddr -> bool) (replay_ok : bool) (reads : list ReadResult) n : Net R :=
  let '(_, conn, stats, resolver) :=
    splice lookup_ip connect replay_ok None reads (nt_resolver n) origin_port (nt_stats n)
      (nt_services n) passthrough_unknown_hosts in
  let established := match conn with Some _ => replay_ok | None => false end in
  log (EvSplice (nt_services n) conn established)
    (set_pc i t (if established then Copying else Finished) (set_resolver resolver (set_stats stats n))).

(** [copy_bidirectional] ended, with the bytes copied or an error. *)
Definition close_splice (i : nat) (t : Task) (copied : option (Z * Z)) n : Net R :=
  let n := match copied with
           | Some (to_origin, to_client) => set_stats (count_copied (nt_stats n) to_origin to_client) n
           | None => n
           end in
  log (EvCopied copied) (set_pc i t Finished n).

(** The first half of a permit's drop. *)
Definition release (i : nat) (t : Task) n : Net R :=
  log (EvEnded (tk_port t))
    (set_dropping (option_list (tk_permit t) ++ nt_dropping n)
      (set_tasks (delete i (nt_tasks n)) (set_limit (release_open (nt_limit n)) n))).

Definition give_back_at (i : nat) (peer : IpAddr) n : Net R :=
  set_dropping (delete i (nt_dropping n)) (set_limit (give_back (nt_limit n) peer) n).

(** *** Executions *)

Definition task_at (i : nat) (port : Port) (pc : TaskPc) n : option Task :=
  t ← nt_tasks n !! i;
  if bool_decide (tk_port t = port) && bool_decide (tk_pc t = pc) then Some t else None.

(** The action, where it is enabled. *)
Definition act (a : Action) n : option (Net R) :=
  match a with
  | Arrive port peer =>
      match lp_pc (loop_of n port) with Accepting => Some (arrive port peer n) | _ => None end
  | AcceptFails port =>
      match lp_pc (loop_of n port) with Accepting => Some n | _ => None end
  | Tick port =>
      match lp_pc (loop_of n port) with Accepting => Some (tick port n) | _ => None end
  | TakeGlobal port =>
      match lp_pc (loop_of n port) with Claimed peer => Some (take_slot port peer n) | _ => None end
  | Undo port =>
      match lp_pc (loop_of n port) with
      | Undoing peer => Some (refuse port peer (set_limit (give_back (nt_limit n) peer) n))
      | _ => None
      end
  | OpenHttp i => t ← task_at i Http Spawned n; open_http i t n
  | CloseHttp i => t ← task_at i Http Serving n; close_http i t n
  | OpenSplice i lookup_ip connect replay_ok reads =>
      t ← task_at i Https Spawned n; Some (open_splice i t lookup_ip connect replay_ok reads n)
  | CloseSplice i copied => t ← task_at i Https Copying n; Some (close_splice i t copied n)
  | Release i =>
      t ← nt_tasks n !! i;
      if bool_decide (tk_pc t = Finished) then Some (release i t n) else None
  | GiveBack i => peer ← nt_dropping n !! i; Some (give_back_at i peer n)
  | Refresh fetched => Some (set_services (refresh_once (nt_services n) fetched) n)
  | Shutdown port => Some (set_loop port (mkLoop (lp_pc (loop_of n port)) true) n)
  end.

Definition net_step n n' : Prop := exists a, act a n = Some n'.

Fixpoint act_all (actions : list Action) n : option (Net R) :=
  match actions with
  | [] => Some n
  | a :: actions => n ← act a n; act_all actions n
  end.

Definition net_new (limit : ConnectionLimit) (metrics : option R) (resolver : UpstreamResolver)
    (services : LiveServices) : Net R :=
  mkNet limit (mkLoop Accepting false) (mkLoop Accepting false) [] [] metrics
    (mkSniStats 0 0 0 0 0 0 0 0 0) resolver services [].

Lemma act_all_reaches actions n n' : act_all actions n = Some n' -> rtc net_step n n'.
Proof using Type.
  revert n. induction actions as [|a actions IH]; intros n; cbn [act_all]; [by intros [= ->]|].
  destruct (act a n) as [m|] eqn:E; [|done]. cbn. intros Hm. apply (rtc_l _ _ m); [by exists a|by apply IH].
Qed.
End Actions.

(** ** The limit, seen from both ports

    Forgetting everything but permits, claims and slots on their way back, an
    execution of the two ports is an execution of [Limits.limit_step]. *)

Definition pc_claims (pc : LoopPc) : list IpAddr :=
  match pc with Claimed peer => [peer] | _ => [] end.
Definition pc_undoes (pc : LoopPc) : list IpAddr :=
  match pc with Undoing peer => [peer] | _ => [] end.
Definition other (port : Port) : Port := match port with Http => Https | Https => Http end.

Lemma take_out {A} (x : A) l l' : l ≡ₚ x :: l' -> exists pre post, l = pre ++ x :: post /\ pre ++ post ≡ₚ l'.
Proof. intros (pre & post & -> & Hp)%Permutation_cons_inv_r. by exists pre, post. Qed.

(** One action of the loop of [port] moves the limit by the transition [st]. *)
Ltac loop_action port lemma Hv Hp Hc Hd st :=
  eapply (lemma port); [exact Hv|by st|..]; destruct port; cbn; first [done | by rewrite ?Hc, ?Hd, ?Hp].

Section Sound.
Context {R : Type} `{Laws : PrometheusLaws R}.
Context (origin_port : Z) (passthrough_unknown_hosts : bool).
Implicit Types n : Net R.
Local Abbreviation perform := (act origin_port passthrough_unknown_hosts).
Local Abbreviation steps := (net_step origin_port passthrough_unknown_hosts).

Definition pc_of n (port : Port) : LoopPc := lp_pc (loop_of n port).
Definition claiming n : list IpAddr := pc_claims (pc_of n Http) ++ pc_claims (pc_of n Https).
Definition undoing n : list IpAddr := pc_undoes (pc_of n Http) ++ pc_undoes (pc_of n Https).

Definition limit_view n (s : LimitSys) : Prop :=
  ls_limit s = nt_limit n /\ ls_permits s ≡ₚ tk_permit <$> nt_tasks n /\
  ls_claiming s ≡ₚ claiming n /\ ls_dropping s ≡ₚ undoing n ++ nt_dropping n.

Lemma view_at port n s :
  limit_view n s <->
  ls_limit s = nt_limit n /\ ls_permits s ≡ₚ tk_permit <$> nt_tasks n /\
  ls_claiming s ≡ₚ pc_claims (pc_of n port) ++ pc_claims (pc_of n (other port)) /\
  ls_dropping s ≡ₚ pc_undoes (pc_of n port) ++ pc_undoes (pc_of n (other port)) ++ nt_dropping n.
Proof using Type.
  unfold limit_view, claiming, undoing. rewrite <- (app_assoc (pc_undoes _)). destruct port; [done|]. cbn [other].
  rewrite (Permutation_app_comm (pc_claims (pc_of n Https))), !(app_assoc (pc_undoes _)),
    (Permutation_app_comm (pc_undoes (pc_of n Https))). done.
Qed.

(** What a loop's action may do to the limit, with the loop at [pc] and [pc']. *)
Lemma view_loop port n n' s l' ps cs ds :
  limit_view n s ->
  limit_step s (mkLimitSys l' ps cs ds) ->
  l' = nt_limit n' -> ps ≡ₚ tk_permit <$> nt_tasks n' ->
  cs ≡ₚ pc_claims (pc_of n' port) ++ pc_claims (pc_of n (other port)) ->
  ds ≡ₚ pc_undoes (pc_of n' port) ++ pc_undoes (pc_of n (other port)) ++ nt_dropping n ->
  pc_of n' (other port) = pc_of n (other port) -> nt_dropping n' = nt_dropping n ->
  exists s', rtc limit_step s s' /\ limit_view n' s'.
Proof using Type.
  intros Hv Hst -> Hps Hcs Hds Ho Hd. eexists. split; [by apply rtc_once|].
  apply (view_at port). by rewrite Ho, Hd.
Qed.

Lemma arrive_view port peer n s :
  limit_view n s -> pc_of n port = Accepting ->
  exists s', rtc limit_step s s' /\ limit_view (arrive port peer n) s'.
Proof using Type.
  intros Hv Hpc. pose proof Hv as (Hl & Hp & Hc & Hd)%(view_at port). rewrite Hpc in Hc, Hd. cbn in Hc, Hd.
  destruct s as [l ps cs ds]. cbn in Hl, Hp, Hc, Hd. subst l.
  unfold arrive. destruct (cl_per_peer (nt_limit n)) as [per_peer|] eqn:Epp.
  - destruct (claim_peer (nt_limit n) per_peer peer) as [[] l'] eqn:Ec.
    + loop_action port view_loop Hv Hp Hc Hd ltac:(eapply lim_claim_ok).
    + loop_action port view_loop Hv Hp Hc Hd ltac:(eapply lim_claim_refused).
  - destruct (acquire_global (nt_limit n)) as [[] l'] eqn:Ea.
    + loop_action port view_loop Hv Hp Hc Hd ltac:(apply (lim_unattributed _ _ true)).
    + loop_action port view_loop Hv Hp Hc Hd ltac:(apply (lim_unattributed _ _ false)).
Qed.

Lemma take_slot_view port peer n s :
  limit_view n s -> pc_of n port = Claimed peer ->
  exists s', rtc limit_step s s' /\ limit_view (take_slot port peer n) s'.
Proof using Type.
  intros Hv Hpc. pose proof Hv as (Hl & Hp & Hc & Hd)%(view_at port). rewrite Hpc in Hc, Hd. cbn in Hc, Hd.
  destruct s as [l ps cs ds]. cbn in Hl, Hp, Hc, Hd. subst l.
  apply take_out in Hc as (pre & post & -> & Hc). unfold take_slot.
  destruct (acquire_global (nt_limit n)) as [[] l'] eqn:Ea.
  - loop_action port view_loop Hv Hp Hc Hd ltac:(apply lim_global_ok).
  - loop_action port view_loop Hv Hp Hc Hd ltac:(apply lim_global_refused).
Qed.

Lemma undo_view port peer n s :
  limit_view n s -> pc_of n port = Undoing peer ->
  exists s', rtc limit_step s s' /\ limit_view (refuse port peer (set_limit (give_back (nt_limit n) peer) n)) s'.
Proof using Type.
  intros Hv Hpc. pose proof Hv as (Hl & Hp & Hc & Hd)%(view_at port). rewrite Hpc in Hc, Hd. cbn in Hc, Hd.
  destruct s as [l ps cs ds]. cbn in Hl, Hp, Hc, Hd. subst l.
  apply take_out in Hd as (pre & post & -> & Hd).
  loop_action port view_loop Hv Hp Hc Hd ltac:(apply lim_give_back).
Qed.

Lemma same_view n n' s :
  limit_view n s -> nt_limit n' = nt_limit n -> tk_permit <$> nt_tasks n' = tk_permit <$> nt_tasks n ->
  claiming n' = claiming n -> undoing n' = undoing n -> nt_dropping n' = nt_dropping n ->
  exists s', rtc limit_step s s' /\ limit_view n' s'.
Proof using Type.
  intros (Hl & Hp & Hc & Hd) E1 E2 E3 E4 E5. exists s. split; [done|].
  unfold limit_view. by rewrite E1, E2, E3, E4, E5.
Qed.

Lemma set_pc_permits i t pc n :
  nt_tasks n !! i = Some t -> tk_permit <$> nt_tasks (set_pc i t pc n) = tk_permit <$> nt_tasks n.
Proof using Type.
  intros Ht. unfold set_pc, set_tasks. cbn. rewrite list_fmap_insert. apply list_insert_id.
  by rewrite list_lookup_fmap, Ht.
Qed.

Lemma task_at_Some i port pc n t :
  task_at i port pc n = Some t -> nt_tasks n !! i = Some t /\ tk_port t = port /\ tk_pc t = pc.
Proof using Type.
  unfold task_at. destruct (nt_tasks n !! i) as [t'|]; [|done]. cbn.
  destruct (bool_decide_reflect (tk_port t' = port)), (bool_decide_reflect (tk_pc t' = pc)); cbn; try done.
  by intros [= ->].
Qed.

Lemma on_metrics_Some f n n' :
  on_metrics f n = Some n' -> exists m, n' = set_metrics m n /\
    match nt_metrics n with None => m = None | Some r => exists r', f r = Some r' /\ m = Some r' end.
Proof using Type.
  unfold on_metrics. destruct n as [? ? ? ? ? [r|] ? ? ? ?]; cbn.
  - destruct (f r) as [r'|] eqn:E; [|done]. cbn. intros [= <-]. by exists (Some r'); split; [|exists r'].
  - intros [= <-]. by exists None.
Qed.

Lemma release_view i t n s :
  limit_view n s -> nt_tasks n !! i = Some t ->
  exists s', rtc limit_step s s' /\ limit_view (release i t n) s'.
Proof using Type.
  intros (Hl & Hp & Hc & Hd) Ht. destruct s as [l ps cs ds]. cbn in Hl, Hp, Hc, Hd. subst l.
  rewrite (delete_Permutation _ _ _ Ht) in Hp. cbn in Hp. apply take_out in Hp as (pre & post & -> & Hp).
  eexists. split; [by apply rtc_once, lim_drop|]. split; [done|]. split; [done|]. split; [done|]. cbn.
  rewrite Hd. solve_Permutation.
Qed.

Lemma give_back_view i peer n s :
  limit_view n s -> nt_dropping n !! i = Some peer ->
  exists s', rtc limit_step s s' /\ limit_view (give_back_at i peer n) s'.
Proof using Type.
  intros (Hl & Hp & Hc & Hd) Hi. destruct s as [l ps cs ds]. cbn in Hl, Hp, Hc, Hd. subst l.
  rewrite (delete_Permutation _ _ _ Hi) in Hd.
  rewrite <- Permutation_middle in Hd. apply take_out in Hd as (pre & post & -> & Hd).
  eexists. split; [by apply rtc_once, lim_give_back|]. by split.
Qed.

(** The actions that are enabled in [n], by what they do. *)
Inductive net_rule n : Net R -> Prop :=
  | rule_arrive port peer : pc_of n port = Accepting -> net_rule n (arrive port peer n)
  | rule_idle : net_rule n n
  | rule_tick port : pc_of n port = Accepting -> net_rule n (tick port n)
  | rule_take_slot port peer : pc_of n port = Claimed peer -> net_rule n (take_slot port peer n)
  | rule_undo port peer : pc_of n port = Undoing peer ->
      net_rule n (refuse port peer (set_limit (give_back (nt_limit n) peer) n))
  | rule_open_http i t n' : nt_tasks n !! i = Some t -> tk_port t = Http -> tk_pc t = Spawned ->
      on_metrics connection_opened (set_pc i t Serving n) = Some n' -> net_rule n n'
  | rule_close_http i t n' : nt_tasks n !! i = Some t -> tk_port t = Http -> tk_pc t = Serving ->
      on_metrics connection_closed (set_pc i t Finished n) = Some n' -> net_rule n n'
  | rule_open_splice i t lookup_ip connect replay_ok reads :
      nt_tasks n !! i = Some t -> tk_port t = Https -> tk_pc t = Spawned ->
      net_rule n (open_splice origin_port passthrough_unknown_hosts i t lookup_ip connect replay_ok reads n)
  | rule_close_splice i t copied : nt_tasks n !! i = Some t -> tk_pc t = Copying ->
      net_rule n (close_splice i t copied n)
  | rule_release i t : nt_tasks n !! i = Some t -> tk_pc t = Finished -> net_rule n (release i t n)
  | rule_give_back i peer : nt_dropping n !! i = Some peer -> net_rule n (give_back_at i peer n)
  | rule_refresh fetched : net_rule n (set_services (refresh_once (nt_services n) fetched) n)
  | rule_shutdown port : net_rule n (set_loop port (mkLoop (lp_pc (loop_of n port)) true) n).

Lemma act_rule a n n' : perform a n = Some n' -> net_rule n n'.
Proof using Type.
  destruct a as [port peer|port|port|port|port|i|i|i lookup connect replay reads|i copied|i|i|fetched|port];
    cbn [act].
  1-5: destruct (lp_pc (loop_of n port)) as [|peer'|peer'|] eqn:Epc; try done; intros [= <-]; by constructor.
  1-4: destruct (task_at i _ _ n) as [t|] eqn:Et; [|done]; apply task_at_Some in Et as (Ht & Hp & Hpc).
  - by eapply rule_open_http.
  - by eapply rule_close_http.
  - intros [= <-]. by constructor.
  - intros [= <-]. by constructor.
  - destruct (nt_tasks n !! i) as [t|] eqn:Et; [|done]. cbn. case_bool_decide; [|done]. intros [= <-].
    by constructor.
  - destruct (nt_dropping n !! i) as [peer|] eqn:Ei; [|done]. cbn. intros [= <-]. by constructor.
  - intros [= <-]. constructor.
  - intros [= <-]. constructor.
Qed.

(** Any action, seen from the limit. *)
Lemma act_view n n' s :
  limit_view n s -> net_rule n n' -> exists s', rtc limit_step s s' /\ limit_view n' s'.
Proof using Type.
  intros Hv Hr. destruct Hr as [port peer Hpc| |port Hpc|port peer Hpc|port peer Hpc|i t n' Ht Hp Hpc Ho|i t n' Ht Hp Hpc Ho
    |i t lookup connect replay rds Ht Hp Hpc|i t copied Ht Hpc|i t Ht Hpc|i peer Hi|fetched|port].
  - by apply arrive_view.
  - by exists s.
  - unfold tick. destruct (lp_shutdown _); [|by exists s].
    apply (same_view n); try done; unfold claiming, undoing, pc_of in *; destruct port; cbn in *; by rewrite Hpc.
  - by apply take_slot_view.
  - by apply undo_view.
  - apply on_metrics_Some in Ho as (m & -> & _). apply (same_view n); try done. exact (set_pc_permits i t _ n Ht).
  - apply on_metrics_Some in Ho as (m & -> & _). apply (same_view n); try done. exact (set_pc_permits i t _ n Ht).
  - unfold open_splice. destruct (splice _ _ _ _ _ _ _ _ _ _) as [[[r conn] stats] resolver].
    apply (same_view n); try done. exact (set_pc_permits i t _ n Ht).
  - unfold close_splice. destruct copied as [[? ?]|]; apply (same_view n); try done;
      exact (set_pc_permits i t _ n Ht).
  - by apply release_view.
  - by apply give_back_view.
  - by apply (same_view n).
  - apply (same_view n); try done; unfold claiming, undoing, pc_of; by destruct port.
Qed.

(** ** What is counted *)

Definition admitted_on (port : Port) (e : NetEvent) : bool :=
  match e with EvAdmitted p _ => bool_decide (p = port) | _ => false end.
Definition refused_on (port : Port) (e : NetEvent) : bool :=
  match e with EvRefused p _ => bool_decide (p = port) | _ => false end.
Definition refusal (e : NetEvent) : bool := match e with EvRefused _ _ => true | _ => false end.
Definition ended_on (port : Port) (e : NetEvent) : bool :=
  match e with EvEnded p => bool_decide (p = port) | _ => false end.
Definition established (e : NetEvent) : bool := match e with EvSplice _ _ b => b | _ => false end.
Definition on_port (port : Port) (t : Task) : bool := bool_decide (tk_port t = port).
Definition serving (t : Task) : bool := bool_decide (tk_pc t = Serving).

(** HTTP connections are served, TLS connections are spliced. *)
Definition pc_ok (t : Task) : Prop :=
  match tk_port t, tk_pc t with Http, Copying | Https, Serving => False | _, _ => True end.

Definition gauge n : option Z := r ← nt_metrics n; Some (default 0 (reads r connections [])).

Record accounts n : Prop := {
  ac_tasks : Forall pc_ok (nt_tasks n);
  ac_gauge : forall g, gauge n = Some g -> g = as_i64 (count serving (nt_tasks n));
  ac_balance port : count (admitted_on port) (nt_trace n) =
    count (on_port port) (nt_tasks n) + count (ended_on port) (nt_trace n);
  ac_rejected : cl_rejected (nt_limit n) = wrap64 (count refusal (nt_trace n) + len (undoing n));
  ac_accepted : ss_accepted (nt_stats n) = wrap64 (count (admitted_on Https) (nt_trace n));
  ac_refused : ss_refused_limit (nt_stats n) = wrap64 (count (refused_on Https) (nt_trace n));
  ac_spliced : ss_spliced (nt_stats n) = wrap64 (count established (nt_trace n));
  ac_no_sni : ss_no_sni (nt_stats n) = 0 }.

Lemma undoing_at port n :
  len (undoing n) = len (pc_undoes (pc_of n port)) + len (pc_undoes (pc_of n (other port))).
Proof using Type. unfold undoing. rewrite len_app. destruct port; cbn [other]; lia. Qed.

Lemma wrap64_add z k : wrap64 (wrap64 z + k) = wrap64 (z + k).
Proof using Type. unfold wrap. by rewrite Z.add_mod_idemp_l. Qed.

Lemma as_i64_add z k : as_i64 (as_i64 z + k) = as_i64 (z + k).
Proof using Type.
  assert (wrap64 (as_i64 z + k) = wrap64 (z + k)) as E; [|unfold as_i64 at 1; rewrite E; done].
  unfold as_i64. destruct (_ <? _); [apply wrap64_add|].
  replace (wrap64 z - 2 ^ 64 + k) with (wrap64 z + k + (-1) * 2 ^ 64) by lia.
  unfold wrap at 1. rewrite Z.mod_add by done. apply wrap64_add.
Qed.

Lemma claim_rejected l per_peer peer b l' :
  claim_peer l per_peer peer = (b, l') -> cl_rejected l' = if b then cl_rejected l else wrap64 (cl_rejected l + 1).
Proof using Type. unfold claim_peer. destruct (_ <=? _); by intros [= <- <-]. Qed.

Lemma acquire_rejected l b l' :
  acquire_global l = (b, l') -> cl_rejected l' = if b then cl_rejected l else wrap64 (cl_rejected l + 1).
Proof using Type. unfold acquire_global. destruct (_ <=? _); by intros [= <- <-]. Qed.

Lemma rejected_range n : accounts n -> in_u 64 (cl_rejected (nt_limit n)).
Proof using Type. intros Ha. rewrite (ac_rejected _ Ha). by apply wrap_in_u. Qed.

(** The count of refusals after the loop of [port] went on to [pc] and [k] more
    refusals were logged. *)
Lemma rejected_at port n n' l k :
  accounts n -> pc_of n' (other port) = pc_of n (other port) ->
  cl_rejected l = wrap64 (cl_rejected (nt_limit n) + k + len (pc_undoes (pc_of n' port)) - len (pc_undoes (pc_of n port))) ->
  cl_rejected l = wrap64 (k + count refusal (nt_trace n) + len (undoing n')).
Proof using Type.
  intros Ha Ho ->. rewrite (ac_rejected _ Ha), <- Z.add_assoc, <- Z.add_sub_assoc, wrap64_add.
  f_equal. rewrite !(undoing_at port), Ho. lia.
Qed.

(** The accounts after an action, from the accounts before it. *)
Ltac books Ht Hg Hb Hr Hac Hf Hs Hn :=
  constructor; cbn -[count as_i64 gauge undoing]; rewrite ?count_cons; cbn -[count as_i64 gauge undoing];
  first [done | by rewrite Hr | by rewrite Hac, wrap64_add, Z.add_comm | by rewrite Hf, wrap64_add, Z.add_comm
    | by rewrite Hs, wrap64_add, Z.add_comm
    | intros p; rewrite ?count_cons; specialize (Hb p); cbn -[count]; unfold on_port in *; cbn -[count]; lia
    | constructor; done].

Lemma refuse_accounts port peer l n :
  accounts n -> cl_rejected l = wrap64 (cl_rejected (nt_limit n) + 1 - len (pc_undoes (pc_of n port))) ->
  accounts (refuse port peer (set_limit l n)).
Proof using Type.
  intros Ha Hl. pose proof Ha as [Ht Hg Hb Hr Hac Hf Hs Hn].
  assert (cl_rejected l = wrap64 (1 + count refusal (nt_trace n) + len (undoing (refuse port peer (set_limit l n))))) as Hrej.
  { apply (rejected_at port); [done|by destruct port|]. rewrite Hl. f_equal. destruct port; cbn; unfold len; cbn; lia. }
  destruct port; books Ht Hg Hb Hrej Hac Hf Hs Hn.
Qed.

Lemma goto_accounts port pc l n :
  accounts n ->
  cl_rejected l = wrap64 (cl_rejected (nt_limit n) + len (pc_undoes pc) - len (pc_undoes (pc_of n port))) ->
  accounts (goto port pc (set_limit l n)).
Proof using Type.
  intros Ha Hl. pose proof Ha as [Ht Hg Hb Hr Hac Hf Hs Hn].
  assert (cl_rejected l = wrap64 (0 + count refusal (nt_trace n) + len (undoing (goto port pc (set_limit l n))))) as Hrej.
  { apply (rejected_at port); [done|by destruct port|]. rewrite Hl. f_equal. destruct port; cbn; unfold len; cbn; lia. }
  destruct port; books Ht Hg Hb Hrej Hac Hf Hs Hn.
Qed.

Lemma admit_accounts port peer permit l n :
  accounts n -> cl_rejected l = cl_rejected (nt_limit n) -> pc_undoes (pc_of n port) = [] ->
  accounts (admit_conn port peer permit (set_limit l n)).
Proof using Type.
  intros Ha Hl Hpc. pose proof Ha as [Ht Hg Hb Hr Hac Hf Hs Hn].
  assert (cl_rejected l = wrap64 (0 + count refusal (nt_trace n) +
    len (undoing (admit_conn port peer permit (set_limit l n))))) as Hrej.
  { apply (rejected_at port); [done|by destruct port|]. rewrite Hl, Hpc.
    destruct port; (rewrite wrap_small; [cbn; unfold len; cbn; lia|]);
      (replace (_ - _) with (cl_rejected (nt_limit n)) by (cbn; unfold len; cbn; lia)); by apply rejected_range. }
  destruct port; books Ht Hg Hb Hrej Hac Hf Hs Hn.
Qed.

Lemma tick_accounts port n : accounts n -> pc_of n port = Accepting -> accounts (tick port n).
Proof using Type.
  intros Ha Hpc. unfold tick. destruct (lp_shutdown _); [|done].
  assert (accounts (goto port Stopped (set_limit (nt_limit n) n))) as Hg; [|by destruct n].
  apply goto_accounts; [done|]. rewrite Hpc, wrap_small by (rewrite Z.add_0_r, Z.sub_0_r; by apply rejected_range).
  cbn. unfold len. cbn. lia.
Qed.

(** The gauge after an update by [k]. *)
Lemma gauge_moves f k n n' :
  (forall r, f r = gauge_add connections k r) -> on_metrics f n = Some n' ->
  exists m, n' = set_metrics m n /\ forall g', gauge n' = Some g' -> exists g, gauge n = Some g /\ g' = as_i64 (g + k).
Proof using Type.
  intros Hf Ho. apply on_metrics_Some in Ho as (m & -> & Hm). exists m. split; [done|]. unfold gauge.
  destruct (nt_metrics n) as [r|]; [|by subst m]. destruct Hm as (r' & Hr & ->). cbn [set_metrics nt_metrics].
  rewrite Hf in Hr. unfold gauge_add in Hr.
  destruct (prom_update_ok r connections [] (fun x => as_i64 (x + k)) eq_refl) as (r'' & Hu & _ & Hs).
  rewrite Hr in Hu. injection Hu as <-. unfold reads. cbn. rewrite Hs, lookup_insert_eq. cbn.
  intros g' [= <-]. by eexists.
Qed.

Lemma no_panic f k n : (forall r, f r = gauge_add connections k r) -> is_Some (on_metrics f n).
Proof using Laws.
  intros Hf. unfold on_metrics. destruct (nt_metrics n) as [r|]; [|by eexists]. rewrite Hf. unfold gauge_add.
  destruct (prom_update_ok r connections [] (fun x => as_i64 (x + k)) eq_refl) as (r' & -> & _). by eexists.
Qed.

(** The tasks after one of them went on to [pc]. *)
Lemma set_pc_tasks i t pc n :
  nt_tasks n !! i = Some t -> Forall pc_ok (nt_tasks n) -> pc_ok (mkTask (tk_port t) (tk_permit t) pc) ->
  Forall pc_ok (nt_tasks (set_pc i t pc n)) /\
  (forall port, count (on_port port) (nt_tasks (set_pc i t pc n)) = count (on_port port) (nt_tasks n)) /\
  count serving (nt_tasks (set_pc i t pc n)) =
    count serving (nt_tasks n) - bool_Z (serving t) + bool_Z (bool_decide (pc = Serving)).
Proof using Type.
  intros Ht Hok Hpc. unfold set_pc. cbn [set_tasks nt_tasks]. split; [by apply Forall_insert|]. split.
  - intros port. rewrite (count_insert _ _ _ _ _ Ht). unfold on_port. cbn. lia.
  - by rewrite (count_insert _ _ _ _ _ Ht).
Qed.

Lemma http_accounts i t pc f k n n' :
  accounts n -> nt_tasks n !! i = Some t -> pc_ok (mkTask (tk_port t) (tk_permit t) pc) ->
  (forall r, f r = gauge_add connections k r) -> k = bool_Z (bool_decide (pc = Serving)) - bool_Z (serving t) ->
  on_metrics f (set_pc i t pc n) = Some n' -> accounts n'.
Proof using Type.
  intros [Ht Hg Hb Hr Hac Hf Hs Hn] Hi Hpc Hfk Hk Ho.
  destruct (set_pc_tasks i t pc n Hi Ht Hpc) as (Ht' & Hp' & Hc').
  destruct (gauge_moves _ _ _ _ Hfk Ho) as (m & -> & Hm). constructor; try done.
  - intros g' Hg'. destruct (Hm _ Hg') as (g & Eg & ->). rewrite (Hg g Eg), as_i64_add.
    f_equal. cbn [set_metrics nt_tasks]. lia.
  - intros port. cbn [set_metrics nt_tasks nt_trace]. rewrite Hp'. apply Hb.
Qed.

Lemma splice_counts lookup_ip connect replay_ok reads resolver stats services r conn stats' resolver' :
  splice lookup_ip connect replay_ok None reads resolver origin_port stats services
    passthrough_unknown_hosts = (r, conn, stats', resolver') ->
  ss_accepted stats' = ss_accepted stats /\ ss_refused_limit stats' = ss_refused_limit stats /\
  ss_no_sni stats' = ss_no_sni stats /\
  ss_spliced stats' = if match conn with Some _ => replay_ok | None => false end
                      then wrap64 (ss_spliced stats + 1) else ss_spliced stats.
Proof using Type.
  unfold splice. destruct (read_hello [] reads) as [[host|e] buffer]; [|by intros [= <- <- <- <-]].
  destruct (negb _ && _); [by intros [= <- <- <- <-]|].
  destruct (resolve lookup_ip resolver host origin_port) as [[addrs|src] res]; [|by intros [= <- <- <- <-]].
  destruct (connect_first connect addrs); [|by intros [= <- <- <- <-]].
  destruct replay_ok; by intros [= <- <- <- <-].
Qed.

Lemma open_splice_accounts i t lookup_ip connect replay_ok reads n :
  accounts n -> nt_tasks n !! i = Some t -> tk_port t = Https -> tk_pc t = Spawned ->
  accounts (open_splice origin_port passthrough_unknown_hosts i t lookup_ip connect replay_ok reads n).
Proof using Type.
  intros [Ht Hg Hb Hr Hac Hf Hs Hn] Hi Hport Hpc. unfold open_splice.
  destruct (splice _ _ _ _ _ _ _ _ _ _) as [[[r conn] stats] resolver] eqn:E.
  apply splice_counts in E as (E1 & E2 & E3 & E4). set (est := match conn with Some _ => _ | None => _ end) in *.
  set (pc := if est then Copying else Finished).
  assert (pc_ok (mkTask (tk_port t) (tk_permit t) pc)) as Hok by (unfold pc_ok; cbn; rewrite Hport; by destruct est).
  destruct (set_pc_tasks i t pc n Hi Ht Hok) as (Ht' & Hp' & Hc').
  assert (bool_Z (serving t) = 0) as Hser by (unfold serving; by rewrite Hpc).
  assert (bool_decide (pc = Serving) = false) as Hpc' by (unfold pc; by destruct est).
  rewrite Hser, Hpc' in Hc'. constructor; try done.
  - intros g Hg'. rewrite (Hg g Hg'). f_equal. symmetry. etransitivity; [exact Hc'|]. cbn. lia.
  - intros p. cbn [log nt_trace nt_tasks]. rewrite !count_cons. etransitivity; [apply Hb|].
    rewrite <- (Hp' p). cbn -[count]. done.
  - cbn -[count]. rewrite count_cons, E1. apply Hac.
  - cbn -[count]. rewrite count_cons, E2. apply Hf.
  - cbn -[count]. rewrite count_cons, E4. cbn -[count]. destruct est; [|apply Hs]. by rewrite Hs, wrap64_add, Z.add_comm.
  - cbn. by rewrite E3.
Qed.

Lemma close_splice_accounts i t copied n :
  accounts n -> nt_tasks n !! i = Some t -> tk_pc t = Copying -> accounts (close_splice i t copied n).
Proof using Type.
  intros [Ht Hg Hb Hr Hac Hf Hs Hn] Hi Hpc.
  assert (pc_ok (mkTask (tk_port t) (tk_permit t) Finished)) as Hok by (unfold pc_ok; by destruct (tk_port t)).
  destruct (set_pc_tasks i t Finished n Hi Ht Hok) as (Ht' & Hp' & Hc').
  assert (bool_Z (serving t) = 0) as Hser by (unfold serving; by rewrite Hpc).
  rewrite Hser in Hc'. change (bool_Z (bool_decide (Finished = Serving))) with 0 in Hc'. unfold close_splice. destruct copied as [[a b]|]; constructor; try done.
  all: try (intros g Hg'; rewrite (Hg g Hg'); f_equal; symmetry; etransitivity; [exact Hc'|]; cbn -[count]; lia).
  all: try (intros p; cbn [log nt_trace nt_tasks]; rewrite !count_cons; etransitivity; [apply Hb|];
    rewrite <- (Hp' p); cbn -[count]; done).
Qed.

Lemma release_accounts i t n :
  accounts n -> nt_tasks n !! i = Some t -> tk_pc t = Finished -> accounts (release i t n).
Proof using Type.
  intros [Ht Hg Hb Hr Hac Hf Hs Hn] Hi Hpc. constructor; try done.
  - by apply Forall_delete.
  - intros g Hg'. rewrite (Hg g Hg'). f_equal. cbn -[count]. rewrite (count_delete _ _ _ _ Hi).
    assert (serving t = false) as -> by (unfold serving; by rewrite Hpc). lia.
  - intros p. cbn -[count]. rewrite (count_delete _ _ _ _ Hi), !count_cons, Hb.
    change (on_port p t) with (ended_on p (EvEnded (tk_port t))). cbn [admitted_on]. lia.
Qed.

Lemma loop_accounts port n l peer :
  accounts n -> pc_of n port = Accepting ->
  (cl_rejected l = cl_rejected (nt_limit n) -> accounts (goto port (Claimed peer) (set_limit l n))) /\
  (cl_rejected l = wrap64 (cl_rejected (nt_limit n) + 1) -> accounts (refuse port peer (set_limit l n))).
Proof using Type.
  intros Ha Hpc. pose proof (rejected_range n Ha) as Hu. split; intros Hl.
  - apply goto_accounts; [done|]. rewrite Hpc, Hl. cbn. unfold len. cbn.
    rewrite Z.add_0_r, Z.sub_0_r. by rewrite wrap_small.
  - apply refuse_accounts; [done|]. rewrite Hpc, Hl. cbn. unfold len. cbn. f_equal. lia.
Qed.

Lemma arrive_accounts port peer n : accounts n -> pc_of n port = Accepting -> accounts (arrive port peer n).
Proof using Type.
  intros Ha Hpc. unfold arrive. destruct (cl_per_peer (nt_limit n)) as [per_peer|].
  - destruct (claim_peer _ _ _) as [[] l] eqn:E; apply claim_rejected in E; by eapply loop_accounts.
  - destruct (acquire_global _) as [[] l] eqn:E; apply acquire_rejected in E; [|by eapply loop_accounts].
    apply admit_accounts; [done..|by rewrite Hpc].
Qed.

Lemma take_slot_accounts port peer n : accounts n -> pc_of n port = Claimed peer -> accounts (take_slot port peer n).
Proof using Type.
  intros Ha Hpc. unfold take_slot. destruct (acquire_global _) as [[] l] eqn:E; apply acquire_rejected in E.
  - apply admit_accounts; [done..|by rewrite Hpc].
  - apply goto_accounts; [done|]. rewrite Hpc, E. cbn. unfold len. cbn. f_equal. lia.
Qed.

Lemma undo_accounts port peer n :
  accounts n -> pc_of n port = Undoing peer ->
  accounts (refuse port peer (set_limit (give_back (nt_limit n) peer) n)).
Proof using Type.
  intros Ha Hpc. apply refuse_accounts; [done|]. rewrite Hpc. cbn. unfold len. cbn.
  rewrite wrap_small, Z.add_simpl_r; [|rewrite Z.add_simpl_r; by apply rejected_range].
  unfold give_back. by destruct (cl_peers (nt_limit n) !! peer).
Qed.

(** Any action keeps the accounts right. *)
Lemma act_accounts n n' : accounts n -> net_rule n n' -> accounts n'.
Proof using Type.
  intros Ha Hr. destruct Hr as [port peer Hpc| |port Hpc|port peer Hpc|port peer Hpc|i t n' Ht Hp Hpc Ho|i t n' Ht Hp Hpc Ho
    |i t lookup connect replay rds Ht Hp Hpc|i t copied Ht Hpc|i t Ht Hpc|i peer Hi|fetched|port].
  - by apply arrive_accounts.
  - done.
  - by apply tick_accounts.
  - by apply take_slot_accounts.
  - by apply undo_accounts.
  - eapply (http_accounts i t Serving _ 1); try done; unfold pc_ok, serving; cbn; by rewrite ?Hp, ?Hpc.
  - eapply (http_accounts i t Finished _ (-1)); try done; unfold pc_ok, serving; cbn; by rewrite ?Hp, ?Hpc.
  - by apply open_splice_accounts.
  - by apply close_splice_accounts.
  - by apply release_accounts.
  - destruct Ha. constructor; try done. cbn. unfold give_back. by destruct (cl_peers (nt_limit n) !! peer).
  - by destruct Ha.
  - destruct Ha. constructor; try done. by destruct port.
Qed.

(** ** Where the TLS side connects *)

Definition confined (allow_private : bool) (e : NetEvent) : Prop :=
  match e with
  | EvSplice services (Some (origin, replayed)) _ =>
      sa_port origin = origin_port /\ check (sa_ip origin) allow_private = Ok tt /\
      (passthrough_unknown_hosts = false ->
       exists host, names_part_of replayed host /\ is_Some (service_for (lv_matcher services) host))
  | _ => True
  end.

Definition guarded (allow_private : bool) n : Prop :=
  ur_allow_private (nt_resolver n) = allow_private /\ Forall (confined allow_private) (nt_trace n).

Lemma open_splice_guarded allow i t lookup_ip connect replay_ok reads n :
  guarded allow n ->
  guarded allow (open_splice origin_port passthrough_unknown_hosts i t lookup_ip connect replay_ok reads n).
Proof using Type.
  intros [Ha Hf]. unfold open_splice.
  destruct (splice _ _ _ _ _ _ _ _ _ _) as [[[r conn] stats] resolver] eqn:E.
  split; [cbn; rewrite <- Ha; by eapply splice_guards_alike|]. constructor; [|done].
  apply splice_spec in E. destruct conn as [[origin replayed]|]; [|done].
  destruct E as (host & chunks & rest & _ & _ & Hn & _ & _ & Hs & _ & Hc & Hp). rewrite <- Ha.
  split; [done|]. split; [done|]. intros Hpt. exists host. split; [done|]. by apply Hs.
Qed.

Lemma loop_guarded allow port l n :
  guarded allow n ->
  (forall peer, guarded allow (refuse port peer (set_limit l n))) /\
  (forall peer permit, guarded allow (admit_conn port peer permit (set_limit l n))) /\
  (forall pc, guarded allow (goto port pc (set_limit l n))).
Proof using Type. intros [Ha Hf]. destruct port; repeat split; try done; by constructor. Qed.

Lemma act_guarded allow n n' : guarded allow n -> net_rule n n' -> guarded allow n'.
Proof using Type.
  intros Hg Hr. destruct Hr as [port peer Hpc| |port Hpc|port peer Hpc|port peer Hpc|i t n' Ht Hp Hpc Ho|i t n' Ht Hp Hpc Ho
    |i t lookup connect replay rds Ht Hp Hpc|i t copied Ht Hpc|i t Ht Hpc|i peer Hi|fetched|port].
  - unfold arrive. destruct (cl_per_peer _); [destruct (claim_peer _ _ _) as [[] l]|destruct (acquire_global _) as [[] l]];
      by apply loop_guarded.
  - done.
  - unfold tick. by destruct (lp_shutdown _), port.
  - unfold take_slot. destruct (acquire_global _) as [[] l]; by apply loop_guarded.
  - by apply loop_guarded.
  - apply on_metrics_Some in Ho as (m & -> & _). by destruct Hg.
  - apply on_metrics_Some in Ho as (m & -> & _). by destruct Hg.
  - by apply open_splice_guarded.
  - destruct Hg. unfold close_splice. destruct copied as [[? ?]|]; (split; [done|by constructor]).
  - destruct Hg. split; [done|by constructor].
  - done.
  - by destruct Hg.
  - by destruct Hg, port.
Qed.

(** ** Reachable states *)

Definition net_inv (max : Z) (per_peer : option Z) (allow_private : bool) n : Prop :=
  (exists s, rtc limit_step (limit_init max per_peer) s /\ limit_view n s) /\
  accounts n /\ guarded allow_private n.

Lemma net_reachable max per_peer metrics resolver services n :
  (forall r, metrics = Some r -> default 0 (reads r connections []) = 0) ->
  rtc steps (net_new (ls_limit (limit_init max per_peer)) metrics resolver services) n ->
  net_inv max per_peer (ur_allow_private resolver) n.
Proof using Type.
  intros Hm Hr. set (n0 := net_new _ _ _ _) in *.
  assert (net_inv max per_peer (ur_allow_private resolver) n0) as Hi.
  { split; [by exists (limit_init max per_peer); split; [|by destruct per_peer]|]. split; [|by split].
    constructor; try done; [|by destruct per_peer]. unfold gauge. cbn. destruct metrics as [r|]; [|done].
    cbn. intros g [= <-]. by rewrite (Hm r). }
  clearbody n0. induction Hr as [|a b c [x Hx] _ IH]; [done|]. apply IH.
  destruct Hi as ((s & Hs & Hv) & Ha & Hg). apply act_rule in Hx. destruct (act_view a b s Hv Hx) as (s' & Hs' & Hv').
  split; [exists s'; split; [by etransitivity|done]|].
  split; [by eapply act_accounts|by eapply act_guarded].
Qed.

(** The action a task waits for. *)
Definition next_action (i : nat) (t : Task) (a : Action) : Prop :=
  match tk_port t, tk_pc t with
  | Http, Spawned => a = OpenHttp i
  | Http, Serving => a = CloseHttp i
  | Https, Spawned => exists lookup_ip connect replay_ok reads, a = OpenSplice i lookup_ip connect replay_ok reads
  | Https, Copying => exists copied, a = CloseSplice i copied
  | _, Finished => a = Release i
  | _, _ => False
  end.

Lemma task_enabled i t a n :
  nt_tasks n !! i = Some t -> next_action i t a -> is_Some (perform a n).
Proof using Laws.
  intros Hi. unfold next_action.
  assert (task_at i (tk_port t) (tk_pc t) n = Some t) as Ht.
  { unfold task_at. rewrite Hi. cbn. by rewrite !bool_decide_eq_true_2. }
  destruct (tk_port t), (tk_pc t) eqn:Epc; try done.
  - intros ->. cbn [act]. rewrite Ht. by apply (no_panic _ 1).
  - intros ->. cbn [act]. rewrite Ht. by apply (no_panic _ (-1)).
  - intros ->. cbn [act]. rewrite Hi. cbn. rewrite Epc. by eexists.
  - intros (? & ? & ? & ? & ->). cbn [act]. rewrite Ht. by eexists.
  - intros (? & ->). cbn [act]. rewrite Ht. by eexists.
  - intros ->. cbn [act]. rewrite Hi. cbn. rewrite Epc. by eexists.
Qed.

Lemma net_limits max per_peer allow n :
  in_u 64 max -> net_inv max per_peer allow n ->
  cl_open (nt_limit n) = len (nt_tasks n) /\ len (nt_tasks n) <= max /\
  (forall k peer, per_peer = Some k -> 0 <= k -> permits_of peer (tk_permit <$> nt_tasks n) <= k) /\
  (nt_tasks n = [] -> nt_dropping n = [] -> claiming n = [] -> undoing n = [] -> cl_peers (nt_limit n) = ∅).
Proof using Type.
  intros Hm ((s & Hs & Hl & Hp & Hc & Hd) & _ & _).
  destruct (limit_reachable_inv _ _ _ Hm Hs) as (_ & _ & Ho & Hle & Hcnt & Hu). rewrite Hl in *.
  assert (len (ls_permits s) = len (nt_tasks n)) as Hlen by (unfold len; by rewrite Hp, length_fmap).
  split; [lia|]. split; [lia|]. split.
  - intros k peer Hk H0. specialize (Hu k peer Hk). unfold used in Hu.
    pose proof (claims_of_nonneg peer (ls_claiming s)). pose proof (claims_of_nonneg peer (ls_dropping s)).
    assert (permits_of peer (tk_permit <$> nt_tasks n) = permits_of peer (ls_permits s)) as ->
      by (unfold permits_of, len; by rewrite Hp). lia.
  - intros E1 E2 E3 E4. rewrite E1 in Hp. rewrite E3 in Hc. rewrite E2, E4 in Hd.
    apply Permutation_nil_r in Hp, Hc, Hd. apply map_eq. intros peer. rewrite lookup_empty.
    destruct (Hcnt peer) as [Hz Hpos]. unfold used in Hz. rewrite Hp, Hc, Hd in Hz.
    destruct (cl_peers (nt_limit n) !! peer) as [c|]; [|done]. change (c = 0) in Hz. specialize (Hpos c eq_refl). lia.
Qed.

(** C30: the two ports share one limit and lose nothing.  Whatever the loops,
    the connections, the shutdown flags and the list refreshes do, in any order:
    there is one open slot per live connection task, never more than the
    ceiling for both ports together, and no peer holds more than its share over
    both; a connection that was admitted is being served or has ended; the gauge
    shows the HTTP connections being served; the limit's count of refusals and the
    TLS counters are the numbers of refusals, admissions and splices that
    happened, except [no_sni], which stays 0; every address the TLS side ever
    dialled passed the guard, on the configured port and (unless unknown hosts
    are passed through) for a name of the list live at that time; no task is
    stuck or panics; and when the last connection has gone, the limit and the
    gauge are back at nothing. *)
Theorem ports_sound max per_peer metrics resolver services n :
  in_u 64 max ->
  (forall r, metrics = Some r -> default 0 (reads r connections []) = 0) ->
  rtc steps (net_new (ls_limit (limit_init max per_peer)) metrics resolver services) n ->
  let tasks := nt_tasks n in
  let trace := nt_trace n in
  (cl_open (nt_limit n) = len tasks /\ len tasks <= max /\
   forall k peer, per_peer = Some k -> 0 <= k -> permits_of peer (tk_permit <$> tasks) <= k) /\
  (forall port, count (admitted_on port) trace = count (on_port port) tasks + count (ended_on port) trace) /\
  (forall g, gauge n = Some g -> max < 2 ^ 63 -> g = count serving tasks) /\
  (cl_rejected (nt_limit n) = wrap64 (count refusal trace + len (undoing n)) /\
   ss_accepted (nt_stats n) = wrap64 (count (admitted_on Https) trace) /\
   ss_refused_limit (nt_stats n) = wrap64 (count (refused_on Https) trace) /\
   ss_spliced (nt_stats n) = wrap64 (count established trace) /\ ss_no_sni (nt_stats n) = 0) /\
  Forall (confined (ur_allow_private resolver)) trace /\
  (forall i t, tasks !! i = Some t ->
     (exists a, next_action i t a) /\ forall a, next_action i t a -> is_Some (perform a n)) /\
  (tasks = [] -> nt_dropping n = [] -> claiming n = [] -> undoing n = [] ->
   cl_open (nt_limit n) = 0 /\ cl_peers (nt_limit n) = ∅ /\ forall g, gauge n = Some g -> g = 0).
Proof using Laws.
  intros Hm Hg0 Hr tasks trace. pose proof (net_reachable _ _ _ _ _ _ Hg0 Hr) as Hi.
  destruct (net_limits _ _ _ _ Hm Hi) as (Ho & Hle & Hpp & Hempty). destruct Hi as (_ & Ha & _ & Hconf).
  pose proof (count_nonneg serving tasks). pose proof (count_le serving tasks).
  split; [done|]. split; [apply (ac_balance _ Ha)|].
  split; [intros g Hg Hmax; rewrite (ac_gauge _ Ha g Hg); apply as_i64_small; subst tasks; lia|].
  split; [by destruct Ha|]. split; [done|]. split.
  - intros i t Ht. split; [|intros a; by apply task_enabled].
    pose proof (Forall_lookup_1 _ _ _ _ (ac_tasks _ Ha) Ht) as Hok. unfold pc_ok in Hok. unfold next_action.
    destruct (tk_port t), (tk_pc t); try done; try by eexists.
    + by exists (OpenSplice i (fun _ _ => None) (fun _ => false) false []), (fun _ _ => None), (fun _ => false), false, [].
    + by exists (CloseSplice i None), None.
  - subst tasks. intros E1 E2 E3 E4. split; [by rewrite Ho, E1|]. split; [by apply Hempty|].
    intros g Hg. by rewrite (ac_gauge _ Ha g Hg), E1.
Qed.

(** A port whose loop has returned stays closed and admits nothing more. *)
Lemma stopped_stays port n n' :
  pc_of n port = Stopped -> net_rule n n' ->
  pc_of n' port = Stopped /\ count (admitted_on port) (nt_trace n') = count (admitted_on port) (nt_trace n).
Proof using Type.
  intros Hs Hr. assert (forall q, pc_of n q <> Stopped -> q = other port) as Hq.
  { intros q Hq. destruct q, port; done. }
  destruct Hr as [q peer Hpc| |q Hpc|q peer Hpc|q peer Hpc|i t n' Ht Hp Hpc Ho|i t n' Ht Hp Hpc Ho
    |i t lookup connect replay rds Ht Hp Hpc|i t copied Ht Hpc|i t Ht Hpc|i peer Hi|fetched|q];
    try (assert (q = other port) as -> by (apply Hq; by rewrite Hpc)).
  - unfold arrive. destruct (cl_per_peer _); [destruct (claim_peer _ _ _) as [[] l]|destruct (acquire_global _) as [[] l]];
      by destruct port.
  - done.
  - unfold tick. by destruct (lp_shutdown _), port.
  - unfold take_slot. destruct (acquire_global _) as [[] l]; by destruct port.
  - by destruct port.
  - by apply on_metrics_Some in Ho as (m & -> & _).
  - by apply on_metrics_Some in Ho as (m & -> & _).
  - unfold open_splice. by destruct (splice _ _ _ _ _ _ _ _ _ _) as [[[r conn] stats] resolver].
  - unfold close_splice. by destruct copied as [[? ?]|].
  - done.
  - done.
  - done.
  - by destruct q, port.
Qed.

(** A port that has stopped accepting never admits a connection again, whatever
    happens afterwards. *)
Theorem stopped_port_admits_nothing port n n' :
  pc_of n port = Stopped -> rtc steps n n' ->
  pc_of n' port = Stopped /\ count (admitted_on port) (nt_trace n') = count (admitted_on port) (nt_trace n).
Proof using Type.
  intros Hs Hr. revert Hs. induction Hr as [|x y z [a Ha] _ IH]; [done|]. intros Hs.
  destruct (stopped_stays port x y Hs (act_rule _ _ _ Ha)) as [Hs' <-]. by apply IH.
Qed.
End Sound.

(** The two phases of a splice are the whole. *)
Lemma splice_phases lookup_ip connect to_origin to_client reads resolver port stats services passthrough :
  splice lookup_ip connect true (Some (to_origin, to_client)) reads resolver port stats services passthrough =
  let '(r, conn, stats, resolver) :=
    splice lookup_ip connect true None reads resolver port stats services passthrough in
  match conn with
  | Some c => (Ok tt, Some c, count_copied stats to_origin to_client, resolver)
  | None => (r, None, stats, resolver)
  end.
Proof.
  unfold splice. destruct (read_hello [] reads) as [[host|e] buffer]; [|done].
  destruct (negb passthrough && _); [done|].
  destruct (resolve lookup_ip resolver host port) as [[addrs|src] res]; [|done].
  by destruct (connect_first connect addrs).
Qed.

(** ** A port under load

    The shutdown flag is read only when the timer wins the [select!], so a loop to
    which connections keep coming goes on admitting them. *)

(** A connection that comes, says nothing and goes. *)
Definition come_and_go : list Action :=
  [Arrive Https peer1; TakeGlobal Https; OpenSplice 0 (fun _ _ => None) (fun _ => false) false [];
   Release 0; GiveBack 0].

Lemma come_and_go_run {R} `{Prometheus R} port passthrough http m stats resolver services trace :
  act_all port passthrough come_and_go
    (mkNet (limit_with_per_peer 2 1) http (mkLoop Accepting true) [] [] m stats resolver services trace) =
  Some (mkNet (R := R) (limit_with_per_peer 2 1) http (mkLoop Accepting true) [] [] m (count_accepted stats)
    resolver services (EvEnded Https :: EvSplice services None false :: EvAdmitted Https peer1 :: trace)).
Proof. reflexivity. Qed.

(** However long the flag has been set, the TLS port may still admit any number
    of connections. *)
Theorem busy_port_ignores_shutdown {R} `{Prometheus R} port passthrough http (m : option R) stats resolver
    services (k : nat) :
  exists n, rtc (net_step port passthrough)
      (mkNet (limit_with_per_peer 2 1) http (mkLoop Accepting true) [] [] m stats resolver services []) n /\
    lp_shutdown (nt_https n) = true /\ count (admitted_on Https) (nt_trace n) = Z.of_nat k.
Proof.
  enough (exists stats' trace, rtc (net_step port passthrough)
      (mkNet (limit_with_per_peer 2 1) http (mkLoop Accepting true) [] [] m stats resolver services [])
      (mkNet (limit_with_per_peer 2 1) http (mkLoop Accepting true) [] [] m stats' resolver services trace) /\
    count (admitted_on Https) trace = Z.of_nat k) as (stats' & trace & Hr & Hc) by (by eexists; split_and!).
  induction k as [|k (stats' & trace & Hr & Hc)]; [by exists stats, []|].
  eexists _, _. split.
  - etransitivity; [exact Hr|]. eapply act_all_reaches, come_and_go_run.
  - rewrite !count_cons, Hc. cbn [admitted_on]. rewrite bool_decide_eq_true_2 by done. lia.
Qed.

(** ** Witness: both ports, one peer *)

(** One connection of the peer is served on the HTTP port; its second, on the
    TLS port, is over the peer's limit; another peer's TLS connection is spliced
    while the HTTP connection ends. *)
Definition toy_actions : list Action :=
  [Arrive Http peer1; TakeGlobal Http; OpenHttp 0; Arrive Https peer1; Arrive Https (V4 (mkV4 10 0 0 2));
   TakeGlobal Https;
   OpenSplice 0 (fun _ _ => Some [V4 (mkV4 10 0 0 1); V4 (mkV4 8 8 8 8)]) (fun _ => true) true
     [RData (encode_hello toy_hello)];
   Shutdown Https; Tick Https].

Definition toy_net0 : Net ToyRegistry :=
  net_new (ls_limit (limit_init 2 (Some 1))) (Some prom_new) (mkResolver [] false None) (live_new toy_list).
Definition toy_net : Net ToyRegistry := default toy_net0 (act_all 443 false toy_actions toy_net0).

Lemma toy_net_reached : rtc (net_step 443 false) toy_net0 toy_net.
Proof.
  apply (act_all_reaches 443 false toy_actions). unfold toy_net.
  assert (match act_all 443 false toy_actions toy_net0 with Some _ => true | None => false end = true) as Hs
    by (vm_compute; reflexivity).
  by destruct (act_all 443 false toy_actions toy_net0).
Qed.

Lemma ports_sound_witness :
  cl_open (nt_limit toy_net) = 2 /\ ss_refused_limit (nt_stats toy_net) = 1 /\ gauge toy_net = Some 1.
Proof.
  destruct (ports_sound 443 false 2 (Some 1) (Some prom_new) (mkResolver [] false None) (live_new toy_list) toy_net)
    as ((Ho & _) & _ & Hg & (_ & _ & Hr & _) & _).
  - by split.
  - by intros r [= <-].
  - exact toy_net_reached.
  - split; [rewrite Ho; vm_compute; reflexivity|]. split; [rewrite Hr; vm_compute; reflexivity|].
    destruct (gauge toy_net) as [g|] eqn:E; [|exfalso; revert E; by vm_compute].
    rewrite (Hg g eq_refl eq_refl). vm_compute. reflexivity.
Defined.

Lemma stopped_port_admits_nothing_witness :
  count (admitted_on Https) (nt_trace toy_net) = 1 /\ pc_of toy_net Https = Stopped.
Proof.
  assert (pc_of toy_net Https = Stopped) as Hs by (vm_compute; reflexivity).
  destruct (stopped_port_admits_nothing 443 false Https toy_net toy_net Hs (rtc_refl _ _)) as [? _].
  split; [vm_compute; reflexivity|done].
Defined.
