(* ===== verification/Process.v ===== *)
(** * The process: start-up, wiring, the admin router and shutdown

    Models [crates/cachic/src/main.rs] - [run] with every step that can fail, in
    order, the values it builds for the components and the exit status of [main]
    - and the router of [crates/cachic/src/admin/mod.rs] with the late-published
    state of [admin/api.rs].

    [run] is a program in a small monad: it threads the readiness flags, the
    published API state and a trace of what became visible outside, and stops at
    the first fatal error.  What the operating system and the libraries answer
    (files, sockets, the store engine, the clients) is the record [Outside].
    Error texts are represented by the step that failed. *)

From S2P Require Import Prelude.
From S2P Require Import RustStr.
From S2P Require Import Guard.
From S2P Require Import Resolver.
From S2P Require Import Client.
From S2P Require Import Domains.
From S2P Require Import Refresh.
From S2P Require Import Units.
From S2P Require Import SliceCodec.
From S2P Require Import Index.
From S2P Require Import Key.
From S2P Require Import Config.
From S2P Require Import Orchestrator.
From S2P Require Import Admin.
From S2P Require Import Limits.
From S2P Require Import Server.
From S2P Require Import Metrics.

Open Scope Z_scope.

Definition EXIT_CONFIG : Z := 78.
Definition EXIT_UNAVAILABLE : Z := 69.
Definition MAX_CLIENT_CONNECTIONS : Z := 10000.

(** The step that failed. *)
Inductive Step :=
  | SPrepare (e : ConfigError)
  | SMetrics
  | SAdminPort
  | SStore
  | SIndex
  | SDomainDir (e : LoadError)
  | SBundled (e : DomainsError)
  | SResolver (e : ResolveError)
  | SClient
  | SCompile (e : CompileError)
  | SHttpPort
  | SRefreshClient
  | SHttpsPort.

(** How [run] can stop early.  A panic aborts the process. *)
Inductive Fatal :=
  | FConfig (s : Step)
  | FUnavailable (s : Step)
  | FPanic.

(** What others can observe, in order. *)
Inductive Event :=
  | EvAdminListening (addr : SocketAddr)
  | EvStoreOpen
  | EvIndexOpen
  | EvReadiness (r : Readiness)
  | EvHttpListening (addr : SocketAddr)
  | EvRefreshSpawned
  | EvHttpsListening (addr : SocketAddr)
  | EvApiPublished (api : ApiState)
  | EvSignal
  | EvDrained (finished : bool).

Record World := mkWorld {
  wd_readiness : Readiness;
  wd_late : option ApiState;
  wd_trace : list Event }.

Definition world_new : World := mkWorld readiness_new None [].

(** ** The monad *)

Definition M (A : Type) : Type := World -> result Fatal A * World.

#[export] Instance M_ret : MRet M := fun A a w => (Ok a, w).
#[export] Instance M_bind : MBind M := fun A B f m w =>
  match m w with
  | (Ok a, w') => f a w'
  | (Err e, w') => (Err e, w')
  end.

Definition try {A} (r : result Fatal A) : M A := fun w => (r, w).
Definition emit (e : Event) : M unit := fun w =>
  (Ok tt, mkWorld (wd_readiness w) (wd_late w) (wd_trace w ++ [e])).
Definition set_readiness (f : Readiness -> Readiness) : M unit := fun w =>
  let r := f (wd_readiness w) in (Ok tt, mkWorld r (wd_late w) (wd_trace w ++ [EvReadiness r])).
(** [LateApiState::set]: the first value stays. *)
Definition late_set (api : ApiState) : M bool := fun w =>
  match wd_late w with
  | Some _ => (Ok false, w)
  | None => (Ok true, mkWorld (wd_readiness w) (Some api) (wd_trace w ++ [EvApiPublished api]))
  end.

(** ** The world outside *)

Record Outside := mkOutside {
  ou_guard_fs : GuardFs;
  ou_toml : str -> result RulesError Rules;
  ou_bind : SocketAddr -> bool;
  ou_open_store : StoreConfig -> bool;
  ou_open_index : bool;
  ou_domain_dir : str -> option str * option (list DirEntry);
  ou_bundled_index : str;
  ou_bundled_files : list (str * str);
  ou_client_builds : bool;
  ou_refresh_client_builds : bool;
  ou_hostname_var : option str;
  ou_etc_hostname : option str;
  ou_drain_finishes : bool }.

(** What [run] hands to the components. *)
Record Running := mkRunning {
  rg_rules : Rules;
  rg_server : ServerConfig;
  rg_store : StoreConfig;
  rg_client : ClientConfig;
  rg_http_resolver : UpstreamResolver;
  rg_sni_resolver : UpstreamResolver;
  rg_sni_port : Z;
  rg_connections : ConnectionLimit;
  rg_readahead_slices : Z;
  rg_stale_on_error : bool;
  rg_refresh : str * Z;
  rg_api : ApiState }.

Definition is_loopback (ip : IpAddr) : bool :=
  match ip with V4 a => v4_is_loopback a | V6 a => v6_is_loopback a end.

Definition any_v4 (port : Z) : SocketAddr := mkSocketAddr (V4 (mkV4 0 0 0 0)) port.

(** [hostname]. *)
Definition non_empty (s : str) : option str := if is_empty s then None else Some s.
Definition hostname (o : Outside) : str :=
  match ou_hostname_var o ≫= non_empty with
  | Some h => h
  | None => default (lit "cachic") (ou_etc_hostname o ≫= (fun s => non_empty (trim s)))
  end.

Section Run.
Context {R : Type} `{Prometheus R}.
Context (order : gmap str ServiceRule -> list (str * ServiceRule)).
Context (parse_index : str -> option (list RawService)).
Context (regex_valid : str -> bool) (regex_set_valid : list str -> bool).
Context (o : Outside).

(** [per_service_inflight]. *)
Definition per_service_inflight (rules : Rules) : gmap str Z := omap sr_max_inflight (ru_services rules).

(** The loop that compiles the rule of every service of the list. *)
Fixpoint compile_all (rules : Rules) (names : list str) (compiled : gmap str CompiledRule)
    : result CompileError (gmap str CompiledRule) :=
  match names with
  | [] => Ok compiled
  | name :: names' =>
      rule ← compile regex_valid regex_set_valid name (for_service rules name);
      compile_all rules names' (<[name := rule]> compiled)
  end.

Definition bind (addr : SocketAddr) (listening : Event) (step : Step) : M unit :=
  if ou_bind o addr then emit listening else try (Err (FUnavailable step)).

Definition load_domains (config : Config) : result Fatal DomainList :=
  match cf_cache_domains_dir config with
  | Some dir =>
      let '(index, entries) := ou_domain_dir o dir in
      map_err (fun e => FConfig (SDomainDir e)) (load_dir parse_index index entries)
  | None =>
      map_err (fun e => FUnavailable (SBundled e))
        (bundled parse_index (ou_bundled_index o) (ou_bundled_files o))
  end.

Definition api_state (config : Config) (list : DomainList) : ApiState :=
  mkApiState (auth_new (cf_admin_token config))
    (map (fun s => (sv_name s, len (sv_patterns s))) list)
    (cf_cache_disk_size config) (cf_min_free_disk config) (wrap32 (cf_cache_slice_size config))
    (negb (is_loopback (cf_admin_bind config))).

(** What the first half of [run] hands to the second. *)
Record Booted := mkBooted {
  bo_rules : Rules;
  bo_list : DomainList;
  bo_resolver : UpstreamResolver;
  bo_client : ClientConfig;
  bo_compiled : gmap str CompiledRule }.

(** The first half: configuration, admin port, store, list, client and rules. *)
Definition boot (config : Config) : M Booted :=
  '(operator_rules, _) ← try (map_err (fun e => FConfig (SPrepare e))
    (prepare order config (ou_guard_fs o) (ou_toml o)));
  let rules := merge operator_rules in
  registry ← try (map_err (fun _ => FUnavailable SMetrics) (metrics_new (R := R)));
  let admin_addr := mkSocketAddr (cf_admin_bind config) (cf_admin_port config) in
  _ ← bind admin_addr (EvAdminListening admin_addr) SAdminPort;
  _ ← (if ou_open_store o (from_config config) then emit EvStoreOpen else try (Err (FUnavailable SStore)));
  _ ← (if ou_open_index o then emit EvIndexOpen else try (Err (FUnavailable SIndex)));
  _ ← set_readiness (fun r => set_store_open r true);
  list ← try (load_domains config);
  resolver ← try (map_err (fun e => FConfig (SResolver e))
    (resolver_new (cf_upstream_dns config) (cf_allow_private_upstreams config)));
  let client := mkClientConfig (cc_connect_timeout client_config_default)
    (cc_request_timeout client_config_default) (cc_retries client_config_default)
    (cf_upstream_max_inflight config) (per_service_inflight rules)
    (cc_max_body_bytes client_config_default) in
  _ ← (if ou_client_builds o then mret tt else try (Err (FUnavailable SClient)));
  compiled ← try (map_err (fun e => FConfig (SCompile e)) (compile_all rules (map sv_name list) ∅));
  _ ← try (ok_or (initialise_known_series (map sv_name list) registry) FPanic);
  mret (mkBooted rules list resolver client compiled).

(** The second half: the data ports, readiness and the operator API. *)
Definition listen (config : Config) (b : Booted) : M Running :=
  let connections := limit_with_per_peer MAX_CLIENT_CONNECTIONS (cf_max_connections_per_peer config) in
  let server := mkServerConfig (wrap32 (cf_cache_slice_size config)) (live_new (bo_list b)) (bo_compiled b)
    (hostname o) (cf_passthrough_unknown_hosts config) (cf_allow_private_upstreams config) in
  _ ← bind (any_v4 (cf_http_port config)) (EvHttpListening (any_v4 (cf_http_port config))) SHttpPort;
  _ ← (if ou_refresh_client_builds o then emit EvRefreshSpawned else try (Err (FUnavailable SRefreshClient)));
  _ ← bind (any_v4 (cf_https_port config)) (EvHttpsListening (any_v4 (cf_https_port config))) SHttpsPort;
  _ ← set_readiness (fun r => set_listeners_bound r true);
  let api := api_state config (bo_list b) in
  _ ← late_set api;
  mret (mkRunning (bo_rules b) server (from_config config) (bo_client b)
    (resolver_with_metrics (bo_resolver b) ∅) (bo_resolver b)
    (cf_https_port config) connections (cf_readahead_slices config) (cf_stale_on_error config)
    (cf_cache_domains_repo config, cf_cache_domains_refresh config) api).

(** [run], up to the point where it waits for a signal. *)
Definition start (config : Config) : M Running := b ← boot config; listen config b.

(** [run]: the signal, then readiness fails, then the drain. *)
Definition run (config : Config) : M unit :=
  _ ← start config;
  _ ← emit EvSignal;
  _ ← set_readiness begin_drain;
  emit (EvDrained (ou_drain_finishes o)).

(** [main]: the exit status; [None] is an abort. *)
Definition exit_status (r : result Fatal unit) : option Z :=
  match r with
  | Ok _ => Some 0
  | Err (FConfig _) => Some EXIT_CONFIG
  | Err (FUnavailable _) => Some EXIT_UNAVAILABLE
  | Err FPanic => None
  end.

Definition main (config : Config) : option Z * list Event :=
  let '(r, w) := run config world_new in (exit_status r, wd_trace w).
End Run.

(** ** The order of start-up and shutdown *)

(** Run the monad on a concrete world, casing on every outcome. *)
Ltac run_case :=
  repeat (cbv beta iota zeta delta [mbind M_bind M_ret mret try emit set_readiness late_set map_err ok_or
            wd_readiness wd_late wd_trace world_new app bo_rules bo_list bo_resolver bo_client bo_compiled];
    match goal with
    | |- context [match prepare ?a ?b ?c ?d with _ => _ end] => destruct (prepare a b c d) as [[? ?]|?] eqn:?
    | |- context [match @metrics_new ?R ?H with _ => _ end] => destruct (@metrics_new R H) eqn:?
    | |- context [if ou_bind ?o ?a then _ else _] => destruct (ou_bind o a) eqn:?
    | |- context [if ou_open_store ?o ?a then _ else _] => destruct (ou_open_store o a) eqn:?
    | |- context [if ou_open_index ?o then _ else _] => destruct (ou_open_index o) eqn:?
    | |- context [match load_domains ?a ?b ?c with _ => _ end] => destruct (load_domains a b c) eqn:?
    | |- context [match resolver_new ?a ?b with _ => _ end] => destruct (resolver_new a b) eqn:?
    | |- context [if ou_client_builds ?o then _ else _] => destruct (ou_client_builds o) eqn:?
    | |- context [match compile_all ?a ?b ?c ?d ?e with _ => _ end] => destruct (compile_all a b c d e) eqn:?
    | |- context [match initialise_known_series ?a ?b with _ => _ end] =>
        destruct (initialise_known_series a b) eqn:?
    | |- context [if ou_refresh_client_builds ?o then _ else _] => destruct (ou_refresh_client_builds o) eqn:?
    end).

(** The trace so far is a prefix of the boot trace. *)
Ltac boot_prefix :=
  cbn [wd_trace];
  first [ exists 0%nat; split; [lia|reflexivity] | exists 1%nat; split; [lia|reflexivity]
        | exists 2%nat; split; [lia|reflexivity] | exists 4%nat; split; [lia|reflexivity]
        | exists 5%nat; split; [lia|reflexivity] | exists 6%nat; split; [lia|reflexivity] ].

Section RunFacts.
Context {R : Type} `{PrometheusLaws R}.
Context (order : gmap str ServiceRule -> list (str * ServiceRule)).
Context (parse_index : str -> option (list RawService)).
Context (regex_valid : str -> bool) (regex_set_valid : list str -> bool).
Context (o : Outside).

Abbreviation the_start := (start (R := R) order parse_index regex_valid regex_set_valid o).
Abbreviation the_run := (run (R := R) order parse_index regex_valid regex_set_valid o).

Context (order_perm : forall m, order m ≡ₚ map_to_list m).

(** What a start that succeeds makes visible, in this order. *)
Definition boot_trace (config : Config) (list : DomainList) : Datatypes.list Event :=
  let admin_addr := mkSocketAddr (cf_admin_bind config) (cf_admin_port config) in
  [EvAdminListening admin_addr; EvStoreOpen; EvIndexOpen; EvReadiness (mkReadiness true false false);
   EvHttpListening (any_v4 (cf_http_port config)); EvRefreshSpawned;
   EvHttpsListening (any_v4 (cf_https_port config)); EvReadiness (mkReadiness true true false);
   EvApiPublished (api_state config list)].

(** Why a start can fail. *)
Definition can_fail (e : Fatal) : Prop :=
  match e with
  | FConfig (SPrepare _ | SDomainDir _ | SCompile _) => True
  | FUnavailable (SAdminPort | SStore | SIndex | SBundled _ | SClient | SHttpPort | SRefreshClient
                 | SHttpsPort) => True
  | _ => False
  end.

Lemma load_domains_fails config e : load_domains parse_index o config = Err e -> can_fail e.
Proof.
  unfold load_domains. destruct (cf_cache_domains_dir config) as [dir|].
  - destruct (ou_domain_dir o dir). destruct (load_dir _ _ _); [done|]. by intros [= <-].
  - destruct (bundled _ _ _); [done|]. by intros [= <-].
Qed.

Lemma load_domains_safe config l : load_domains parse_index o config = Ok l -> list_safe l.
Proof.
  unfold load_domains. destruct (cf_cache_domains_dir config) as [dir|].
  - destruct (ou_domain_dir o dir). destruct (load_dir _ _ _) eqn:E; [|done]. intros [= <-].
    by eapply load_dir_safe.
  - destruct (bundled _ _ _) eqn:E; [|done]. intros [= <-]. by eapply bundled_safe.
Qed.

Lemma resolver_builds config rules fs :
  prepare order config (ou_guard_fs o) (ou_toml o) = Ok (rules, fs) ->
  exists r, resolver_new (cf_upstream_dns config) (cf_allow_private_upstreams config) = Ok r.
Proof using order_perm.
  intros (Hv & _ & _)%prepare_Ok; [|done]. apply validate_ok in Hv as (_ & _ & _ & _ & _ & _ & _ & _ & Hd & _).
  unfold resolver_new, with_servers. destruct (cf_upstream_dns config); [done|]. by eexists.
Qed.

Lemma metrics_start names :
  exists r : R, metrics_new = Ok r /\ is_Some (initialise_known_series names r).
Proof.
  destruct (metrics_new_ok (R := R)) as (r & Hr & _ & Hs). exists r. split; [done|].
  destruct (initialise_good names [] r) as (r' & -> & _); [|by eexists].
  intros name values. rewrite Hs, lookup_empty. by intros [? ?].
Qed.

(** Everything [start] can do, from a fresh process. *)
Lemma start_spec config :
  match the_start config world_new with
  | (Ok rn, w) =>
      exists rules fs list compiled resolver,
        prepare order config (ou_guard_fs o) (ou_toml o) = Ok (rules, fs) /\
        load_domains parse_index o config = Ok list /\
        resolver_new (cf_upstream_dns config) (cf_allow_private_upstreams config) = Ok resolver /\
        compile_all regex_valid regex_set_valid (merge rules) (map sv_name list) ∅ = Ok compiled /\
        w = mkWorld (mkReadiness true true false) (Some (api_state config list)) (boot_trace config list) /\
        rn = mkRunning (merge rules)
          (mkServerConfig (wrap32 (cf_cache_slice_size config)) (live_new list) compiled (hostname o)
             (cf_passthrough_unknown_hosts config) (cf_allow_private_upstreams config))
          (from_config config)
          (mkClientConfig (cc_connect_timeout client_config_default)
             (cc_request_timeout client_config_default) (cc_retries client_config_default)
             (cf_upstream_max_inflight config) (per_service_inflight (merge rules))
             (cc_max_body_bytes client_config_default))
          (resolver_with_metrics resolver ∅) resolver (cf_https_port config)
          (limit_with_per_peer MAX_CLIENT_CONNECTIONS (cf_max_connections_per_peer config))
          (cf_readahead_slices config) (cf_stale_on_error config)
          (cf_cache_domains_repo config, cf_cache_domains_refresh config) (api_state config list)
  | (Err e, w) =>
      can_fail e /\ exists k, (k <= 7)%nat /\ wd_trace w = take k (boot_trace config [])
  end.
Proof using order_perm H0.
  unfold start, boot, listen, bind. run_case.
  1: { by eexists _, _, _, _, _. }
  all: split; [|by boot_prefix].
  all: first
    [ exact I
    | by eapply load_domains_fails
    | match goal with
      | E : initialise_known_series ?l _ = None |- _ =>
          destruct (metrics_start l) as (? & ? & [? ?]); congruence
      | E : metrics_new = Err _ |- _ => destruct (metrics_start []) as (? & ? & _); congruence
      | E : resolver_new _ _ = Err _, Ep : prepare _ _ _ _ = _ |- _ =>
          destruct (resolver_builds _ _ _ Ep) as [? ?]; congruence
      end ].
Qed.

(** The states in which a start that fails can leave the process. *)
Lemma boot_prefix_not_ready config k r :
  (k <= 7)%nat -> EvReadiness r ∈ take k (boot_trace config []) -> is_ready r = false.
Proof.
  intros Hk Hin. assert (EvReadiness r ∈ take 7 (boot_trace config [])) as Hin7.
  { apply elem_of_take in Hin as (i & Hi & Hlt). apply elem_of_take. exists i. split; [done|lia]. }
  cbn in Hin7. set_unfold in Hin7. destruct_or! Hin7; try done. by injection Hin7 as ->.
Qed.


Lemma compile_all_spec rules names acc compiled :
  compile_all regex_valid regex_set_valid rules names acc = Ok compiled ->
  forall name,
    if decide (name ∈ names)
    then exists c, compile regex_valid regex_set_valid name (for_service rules name) = Ok c /\
           compiled !! name = Some c
    else compiled !! name = acc !! name.
Proof.
  revert acc. induction names as [|n names IH]; intros acc; cbn [compile_all].
  - intros [= <-] name. rewrite decide_False; [done|]. apply not_elem_of_nil.
  - destruct (compile _ _ n _) as [c|] eqn:Ec; [|done]. cbn [mbind result_bind]. intros Hc name.
    specialize (IH _ Hc name). destruct (decide (name ∈ names)) as [Hin|Hin].
    + rewrite decide_True by (by right). exact IH.
    + destruct (decide (n = name)) as [->|Hne].
      * rewrite decide_True by left. exists c. split; [done|]. by rewrite IH, lookup_insert_eq.
      * rewrite decide_False by (rewrite elem_of_cons; intuition congruence).
        by rewrite IH, lookup_insert_ne.
Qed.

Lemma shipped_unlimited : map_Forall (fun _ rule => sr_max_inflight rule = None) (ru_services shipped).
Proof. cbn [ru_services shipped]. repeat (apply map_Forall_insert_2; [done|]). apply map_Forall_empty. Qed.

Lemma matcher_names (l : DomainList) : mt_names (matcher_build l) = map sv_name l.
Proof. unfold matcher_build. by destruct (add_services_spec l 0 (mkMatcher ∅ ∅ []) []) as (_ & _ & ->). Qed.

(** A limit that a validated rule sets is not zero; the shipped rules set none. *)
Lemma limit_not_zero rules service limit :
  (forall service rule, ru_services rules !! service = Some rule -> validate_rule service rule = Ok tt) ->
  per_service_inflight (merge rules) !! service = Some limit -> limit <> 0.
Proof.
  intros Hv. unfold per_service_inflight, merge. cbn [ru_services].
  rewrite lookup_omap_Some. intros (rule & Hl & Hr).
  apply lookup_union_Some_raw in Hr as [Hr|[_ Hr]].
  - apply Hv in Hr. unfold validate_rule in Hr. destruct (match sr_slice_size rule with Some _ => _ | None => _ end);
      [|done]. cbn [mbind result_bind] in Hr. rewrite Hl in Hr. intros ->. by case_bool_decide.
  - apply shipped_unlimited in Hr. cbn in Hr. congruence.
Qed.

(** The widths of the numbers a configuration and a rules file hold. *)
Definition config_typed (config : Config) : Prop :=
  0 <= cf_upstream_max_inflight config < 2 ^ 63 /\
  (forall path rules service rule limit, ou_toml o path = Ok rules ->
     ru_services rules !! service = Some rule -> sr_max_inflight rule = Some limit -> 0 <= limit < 2 ^ 63).

Lemma prepare_limits config rules fs service rule limit :
  config_typed config -> prepare order config (ou_guard_fs o) (ou_toml o) = Ok (rules, fs) ->
  ru_services rules !! service = Some rule -> sr_max_inflight rule = Some limit -> 0 <= limit < 2 ^ 63.
Proof.
  intros [_ Ht] Hp. unfold prepare in Hp. destruct (validate config); [|done]. cbn [mbind result_bind] in Hp.
  destruct (guard_check _ _ _); [|done]. cbn [map_err mbind result_bind] in Hp.
  destruct (cf_rules_file config) as [path|].
  - unfold rules_load in Hp. destruct (ou_toml o path) as [r|] eqn:Et; [|done]. cbn [mbind result_bind] in Hp.
    destruct (rules_validate order r); [|done]. cbn in Hp. injection Hp as <- <-. by eapply Ht.
  - cbn in Hp. injection Hp as <- <-. cbn. by rewrite lookup_empty.
Qed.

(** C12: a process that starts has wired its components the way their
    guarantees assume.  The slice size loses nothing in the cast to 32 bits and
    is the same one for the server, the store and the admin API; the upstream
    limits are positive, so no fetch waits forever; the list in use is safe and
    the matcher is built from it; every service of that list has its own rule
    compiled; no client may choose an upstream port unless private upstreams are
    allowed; the admin port is not a data port; and from the moment the API is
    published only the bearer of the configured token may purge or drain, or
    anybody if no token is set and the API is bound to loopback. *)
Theorem startup_establishes config rn w :
  config_typed config -> the_start config world_new = (Ok rn, w) ->
  let server := rg_server rn in
  (sc_orch_slice_size server = cf_cache_slice_size config /\ 4096 <= sc_orch_slice_size server < 2 ^ 32 /\
   ap_slice_size (rg_api rn) = sc_orch_slice_size server /\
   4 * sc_orch_slice_size server <= so_block_bytes (rg_store rn)) /\
  (0 < cc_max_inflight (rg_client rn) < 2 ^ 63 /\
   map_Forall (fun _ limit => 1 <= limit < 2 ^ 63) (cc_per_service_inflight (rg_client rn))) /\
  (live_ok (sc_services server) /\ list_safe (lv_list (sc_services server)) /\
   forall service, service ∈ mt_names (lv_matcher (sc_services server)) ->
     compile regex_valid regex_set_valid service (for_service (rg_rules rn) service) =
       Ok (rule_for server service)) /\
  (sc_allow_host_port server = cf_allow_private_upstreams config /\
   cf_admin_port config <> cf_http_port config /\ cf_admin_port config <> cf_https_port config) /\
  (is_ready (wd_readiness w) = true /\ wd_late w = Some (rg_api rn) /\
   forall headers, may_mutate (wd_late w) headers ->
     authorised (auth_new (cf_admin_token config)) headers \/
     (cf_admin_token config = [] /\ is_loopback (cf_admin_bind config) = true)).
Proof using order_perm H0.
  intros Ht Hstart. pose proof (start_spec config) as Hs. rewrite Hstart in Hs.
  destruct Hs as (rules & fs & list & compiled & resolver & Hp & Hl & _ & Hc & -> & ->).
  cbn [rg_server rg_api rg_store rg_client rg_rules sc_orch_slice_size sc_services sc_allow_host_port ap_slice_size
    api_state cc_max_inflight cc_per_service_inflight wd_readiness wd_late].
  pose proof Hp as (Hv & _ & Hrules)%prepare_Ok; [|done].
  pose proof Hv as (_ & _ & Hss & _ & _ & _ & _ & Hmax & _ & Ha & Hb & _)%validate_ok.
  unfold MIN_SLICE_SIZE in Hss.
  assert (wrap32 (cf_cache_slice_size config) = cf_cache_slice_size config) as Hw by (apply wrap_small; width).
  rewrite Hw. destruct Ht as [Hmi Hlim]. apply load_domains_safe in Hl.
  split; [|split; [|split; [|split]]].
  - split; [done|]. split; [width|]. split; [done|]. by apply store_holds_slices in Hv as (Hbl & _).
  - split; [lia|]. intros service limit Hsv. cbv beta.
    pose proof (limit_not_zero _ _ _ Hrules Hsv) as Hz.
    unfold per_service_inflight in Hsv. apply lookup_omap_Some in Hsv as (rule & Hr & Hm).
    cbn [merge ru_services] in Hm. apply lookup_union_Some_raw in Hm as [Hm|[_ Hm]].
    + assert (0 <= limit < 2 ^ 63) by (eapply prepare_limits; [by split|exact Hp|exact Hm|exact Hr]). lia.
    + apply shipped_unlimited in Hm. cbn in Hm. congruence.
  - split; [split; [done|apply Hl]|]. split; [done|]. intros service Hin.
    pose proof (compile_all_spec _ _ _ _ Hc service) as Hcs. rewrite decide_True in Hcs.
    + destruct Hcs as (c & Hco & Hlk). unfold rule_for. cbn [sc_compiled]. by rewrite Hlk.
    + revert Hin. cbn [live_new lv_matcher]. by rewrite matcher_names.
  - done.
  - split; [done|]. split; [done|]. intros headers (a & [= <-] & [Hau|[Hn Hm]]); [by left|right].
    unfold api_state in Hn, Hm. cbn [ap_token ap_mutations_need_token] in Hn, Hm. split.
    + unfold auth_new in Hn. by destruct (cf_admin_token config).
    + by destruct (is_loopback _).
Qed.

(** The server after the live list was replaced; the compiled rules stay. *)
Definition refreshed (server : ServerConfig) (live : LiveServices) : ServerConfig :=
  mkServerConfig (sc_orch_slice_size server) live (sc_compiled server) (sc_hostname server)
    (sc_passthrough_unknown_hosts server) (sc_allow_host_port server).

(** A service that a refresh brings in loses its rule.  Rules are compiled
    once, for the services of the list the process started with; whatever the
    rules file or the shipped defaults say about a service that appears later,
    its requests are handled by the empty rule, so every path is cacheable and
    its upstream scheme and key options are the defaults.  The SNI proxy dials
    origins on the port it listens on itself, and its resolver counts nothing. *)
Theorem refreshed_service_loses_rule config rn w live service path is_match :
  the_start config world_new = (Ok rn, w) ->
  service ∉ mt_names (lv_matcher (sc_services (rg_server rn))) ->
  rule_for (refreshed (rg_server rn) live) service = compiled_rule_default /\
  is_cacheable is_match (rule_for (refreshed (rg_server rn) live) service) path = true /\
  rg_sni_port rn = cf_https_port config /\ ur_metrics (rg_sni_resolver rn) = None.
Proof using order_perm H0.
  intros Hstart Hn. pose proof (start_spec config) as Hs. rewrite Hstart in Hs.
  destruct Hs as (rules & fs & list & compiled & resolver & _ & _ & Hr & Hc & _ & ->).
  cbn [rg_server sc_services live_new lv_matcher rg_sni_port rg_sni_resolver] in *. rewrite matcher_names in Hn.
  pose proof (compile_all_spec _ _ _ _ Hc service) as Hcs. rewrite decide_False in Hcs by done.
  assert (rule_for (refreshed (mkServerConfig (wrap32 (cf_cache_slice_size config)) (live_new list) compiled
    (hostname o) (cf_passthrough_unknown_hosts config) (cf_allow_private_upstreams config)) live) service
    = compiled_rule_default) as ->.
  { unfold rule_for, refreshed. cbn [sc_compiled]. by rewrite Hcs, lookup_empty. }
  split; [done|]. split; [done|]. split; [done|].
  unfold resolver_new, with_servers in Hr. destruct (cf_upstream_dns config); [done|]. cbn in Hr. by injection Hr as <-.
Qed.
End RunFacts.

(** ** The admin router *)

Inductive Endpoint := EMetrics | EHealthz | EReadyz | EStats | EServices | EPurge | EDrain.

#[export] Instance Endpoint_eq_dec : EqDecision Endpoint.
Proof. solve_decision. Defined.

(** [router] and the routes [router_with_api] merges into it; whether the
    method is POST. *)
Definition router : list (str * bool * Endpoint) :=
  [(lit "/metrics", false, EMetrics); (lit "/healthz", false, EHealthz); (lit "/readyz", false, EReadyz)].
Definition router_with_api : list (str * bool * Endpoint) :=
  router ++ [(lit "/stats", false, EStats); (lit "/services", false, EServices);
             (lit "/purge", true, EPurge); (lit "/drain", true, EDrain)].

(** A path that is not routed is 404, another method than the route's 405; a
    GET route also answers HEAD. *)
Definition dispatch (routes : list (str * bool * Endpoint)) (method : Method) (path : str) : Z + Endpoint :=
  match find (fun r => bool_decide (r.1.1 = path)) routes with
  | None => inl 404
  | Some (_, post, e) =>
      match method with
      | GET | HEAD => if post then inl 405 else inr e
      | OtherMethod name => if post && bool_decide (name = lit "POST") then inr e else inl 405
      end
  end.

Section AdminServer.
Context {S T : Type} `{FoyerLaws S} `{RedbLaws T}.

(** What the admin server reads besides the cache: the published state, the
    readiness, whether the registry renders, the disk and the drain. *)
Record AdminView := mkAdminView {
  av_late : option ApiState;
  av_readiness : Readiness;
  av_renders : bool;
  av_disk : option DiskSpace;
  av_draining : bool;
  av_inflight : Z }.

Definition admin_handle (v : AdminView) (method : Method) (path : str) (headers : HeaderMap)
    (params : PurgeParams) (st : Orch S T) : Z * Orch S T * Readiness :=
  let late := av_late v in
  let r := av_readiness v in
  match dispatch router_with_api method path with
  | inl status => (status, st, r)
  | inr EMetrics => (if av_renders v then 200 else 500, st, r)
  | inr EHealthz => (healthz.1, st, r)
  | inr EReadyz => ((readyz r).1, st, r)
  | inr EStats => (reply_status (stats late headers st (av_disk v) (av_draining v) (av_inflight v)), st, r)
  | inr EServices => (reply_status (services late headers), st, r)
  | inr EPurge => let '(reply, st') := purge late headers params st in (reply_status reply, st', r)
  | inr EDrain => let '(reply, r') := drain late headers r in (reply_status reply, st, r')
  end.

Lemma purge_gate late headers params (st : Orch S T) :
  (purge late headers params st).2 = st \/ may_mutate late headers.
Proof using Type.
  unfold purge. destruct late as [a|]; [|by left].
  destruct (permits (ap_token a) headers) eqn:Ep; cbn [negb]; [|by left].
  destruct (refuse_mutation a) eqn:Er; [by left|]. right. by apply gate_spec.
Qed.

Lemma drain_gate late headers r : (drain late headers r).2 = r \/ may_mutate late headers.
Proof using Type.
  unfold drain. destruct late as [a|]; [|by left].
  destruct (permits (ap_token a) headers) eqn:Ep; cbn [negb]; [|by left].
  destruct (refuse_mutation a) eqn:Er; [by left|]. right. by apply gate_spec.
Qed.

Lemma dispatch_post method path e :
  dispatch router_with_api method path = inr e -> e = EPurge \/ e = EDrain ->
  method = OtherMethod (lit "POST") /\ path ∈ [lit "/purge"; lit "/drain"].
Proof using Type.
  unfold dispatch. destruct (find _ router_with_api) as [[[p post] e']|] eqn:Ef; [|done].
  apply find_some in Ef as [Hin Hp]. apply bool_decide_eq_true_1 in Hp. cbn in Hp. subst p.
  unfold router_with_api, router in Hin. cbn [app In] in Hin.
  intros Hd He. repeat destruct Hin as [Hin|Hin]; try done; injection Hin as <- <- <-;
    (destruct method as [| |name]; cbn in Hd; try done; try (injection Hd as <-; naive_solver));
    (case_bool_decide; [subst name|done]); (split; [done|decide_true]).
Qed.

(** The probes are routed, and not to the API. *)
Lemma dispatch_probe :
  dispatch router_with_api GET (lit "/healthz") = inr EHealthz /\
  dispatch router_with_api GET (lit "/readyz") = inr EReadyz.
Proof using Type. by split. Qed.

(** The admin port as a whole.  A request changes the cache or the
    readiness only if it is a POST to /purge or to /drain that may mutate; the
    liveness probe answers 200 whatever the state; the readiness probe answers
    200 exactly when the process is ready; and until the API is published each of
    its endpoints answers 503 while the probes already work. *)
Theorem admin_surface v method path headers params st :
  let '(status, st', r') := admin_handle v method path headers params st in
  ((st' <> st \/ r' <> av_readiness v) ->
     method = OtherMethod (lit "POST") /\ path ∈ [lit "/purge"; lit "/drain"] /\
     may_mutate (av_late v) headers) /\
  (method = GET -> path = lit "/healthz" -> status = 200) /\
  (method = GET -> path = lit "/readyz" -> (status = 200 <-> is_ready (av_readiness v) = true)) /\
  (forall e, av_late v = None -> dispatch router_with_api method path = inr e ->
     e ∈ [EStats; EServices; EPurge; EDrain] -> status = 503).
Proof.
  pose proof (dispatch_post method path) as Hpost. pose proof dispatch_probe as [Hh Hr].
  pose proof (purge_gate (av_late v) headers params st) as Hp.
  pose proof (drain_gate (av_late v) headers (av_readiness v)) as Hd.
  assert (av_late v = None -> reply_status (purge (av_late v) headers params st).1 = 503 /\
    reply_status (drain (av_late v) headers (av_readiness v)).1 = 503 /\
    reply_status (stats (av_late v) headers st (av_disk v) (av_draining v) (av_inflight v)) = 503 /\
    reply_status (services (av_late v) headers) = 503) as Hn by by intros ->.
  unfold admin_handle. destruct (dispatch router_with_api method path) as [status|e] eqn:Ed.
  - cbv beta iota zeta. split; [by intros [?|?]|]. split; [intros -> ->; congruence|]. split; [intros -> ->; congruence|done].
  - assert (method = GET -> path = lit "/healthz" -> e = EHealthz) as Hh' by (intros -> ->; congruence).
    assert (method = GET -> path = lit "/readyz" -> e = EReadyz) as Hr' by (intros -> ->; congruence).
    specialize (Hpost e eq_refl). clear Ed Hh Hr.
    assert (forall e' : Endpoint, @inr Z Endpoint e = inr e' -> e = e') as Hinj by (intros ? [= ->]; done).
    destruct e; cbv beta iota zeta.
    6: destruct (purge (av_late v) headers params st) as [reply st'].
    7: destruct (drain (av_late v) headers (av_readiness v)) as [reply r'].
    all: cbn [fst snd] in *; split; [intros Hc|split; [intros Hm Hpa|split; [intros Hm Hpa|intros e' Hl <-%Hinj He']]].
    all: try (specialize (Hh' Hm Hpa)); try (specialize (Hr' Hm Hpa)); try specialize (Hn Hl); try done.
    all: try (by destruct Hc). all: try (exfalso; clear -He'; set_solver). all: try (by destruct_and! Hn).
    + unfold readyz. destruct (is_ready _); [done|]. by destruct (rn_draining _).
    + destruct (Hpost (or_introl eq_refl)). split; [done|]. split; [done|]. by destruct Hc, Hp.
    + destruct (Hpost (or_intror eq_refl)). split; [done|]. split; [done|]. by destruct Hc, Hd.
Qed.
End AdminServer.

(** ** Witnesses *)

Definition toy_outside : Outside :=
  mkOutside (mkGuardFs None false false) (fun _ => Err RRead) (fun _ => true) (fun _ => true) true
    (fun _ => (None, None)) [] [(lit "steam.txt", lit "*.steamcontent.com")] true true
    (Some (lit "cache")) None true.

Definition toy_start :=
  start (R := ToyRegistry) map_to_list toy_index (fun _ => true) (fun _ => true) toy_outside default_config
    world_new.

Definition toy_running : Running :=
  match toy_start.1 with
  | Ok rn => rn
  | Err _ => mkRunning shipped toy_server store_config_default client_config_default
      (mkResolver [] false None) (mkResolver [] false None) 0 (limit_new 0) 0 false ([], 0)
      (mkApiState None [] 0 0 0 false)
  end.

Lemma toy_started : toy_start = (Ok toy_running, toy_start.2).
Proof. by rewrite (surjective_pairing toy_start) at 1. Qed.

Lemma toy_order (m : gmap str ServiceRule) : map_to_list m ≡ₚ map_to_list m.
Proof. done. Qed.


Lemma startup_establishes_witness :
  sc_orch_slice_size (rg_server toy_running) = 2 ^ 20 /\ is_ready (wd_readiness toy_start.2) = true.
Proof.
  destruct (startup_establishes (R := ToyRegistry) map_to_list toy_index (fun _ => true) (fun _ => true)
    toy_outside toy_order default_config toy_running toy_start.2) as ((Hs & _) & _ & _ & _ & Hr & _).
  - split; [cbn; lia|]. done.
  - exact toy_started.
  - split; [exact Hs|exact Hr].
Defined.

Lemma refreshed_service_loses_rule_witness :
  ru_services (rg_rules toy_running) !! lit "wsus" <> None /\
  rule_for (refreshed (rg_server toy_running) (live_new [mkService (lit "wsus") [] [Exact (lit "wsus.com")]]))
    (lit "wsus") = compiled_rule_default.
Proof.
  split; [vm_compute; discriminate|].
  refine (proj1 (refreshed_service_loses_rule (R := ToyRegistry) map_to_list toy_index (fun _ => true)
    (fun _ => true) toy_outside toy_order default_config toy_running toy_start.2 _ _ [] (fun _ _ => false)
    toy_started _)).
  apply (bool_decide_eq_true_1 _). vm_compute. reflexivity.
Defined.
