(* ===== verification/Spike.v ===== *)
(** * The spike

    Models [crates/cachic/src/spike/proxy.rs], the prototype the orchestrator
    grew out of: probe, plan, fetch or load a slice, fill an object whose origin
    ignores ranges, and the response.  [spike/range.rs] and [spike/slice.rs] are
    the text of [proxy/range.rs] and [store/slice.rs] but for [plan], whose casts
    truncate ([Range.spike_plan]), and for the failure counter, so their
    definitions are shared; [spike/store.rs] is the same engine.

    Metadata lives only in memory and every generation is 0: an object's cell is
    set once and never again.  That makes one lifetime of the process sound and
    a restart unsound; both are shown. *)

From S2P Require Import Prelude.
From S2P Require Import RustStr.
From S2P Require Import Codec.
From S2P Require Import Guard.
From S2P Require Import Resolver.
From S2P Require Import Client.
From S2P Require Import Filler.
From S2P Require Import Domains.
From S2P Require Import Units.
From S2P Require Import Validators.
From S2P Require Import SliceCodec.
From S2P Require Import Index.
From S2P Require Import Key.
From S2P Require Import Headers.
From S2P Require Import Logs.
From S2P Require Import Range.
From S2P Require Import Orchestrator.
From S2P Require Import Limits.
From S2P Require Import Server.

Open Scope Z_scope.

(** ** Data *)

Record SpikeMeta := mkSpikeMeta {
  xm_total_len : Z;
  xm_generation : Z;
  xm_etag : option str;
  xm_last_modified : option str;
  xm_content_type : option str;
  xm_no_ranges : bool }.

Record ProxyStats := mkProxyStats {
  xs_requests : Z;
  xs_probes : Z;
  xs_upstream_slice_fetches : Z;
  xs_full_object_fills : Z }.

(** A response as [reqwest] hands it over; the body may fail to arrive. *)
Record SpikeReply := mkSpikeReply {
  xr_status : StatusCode;
  xr_headers : HeaderMap;
  xr_content_length : option Z;
  xr_body : result ReqwestError bytes }.

Inductive SpikeError :=
  | XSend
  | XNoContentRange (status : StatusCode)
  | XNoLength
  | XStatus (status : StatusCode)
  | XBody
  | XStore
  | XWindow (index : Z).

Record Spike (S : Type) := mkSpike {
  xp_store : S;
  xp_objects : gmap ObjectId SpikeMeta;
  xp_stats : ProxyStats }.
Arguments mkSpike {S}.
Arguments xp_store {S}.
Arguments xp_objects {S}.
Arguments xp_stats {S}.

Definition count_probe (x : ProxyStats) : ProxyStats :=
  mkProxyStats (xs_requests x) (wrap64 (xs_probes x + 1)) (xs_upstream_slice_fetches x) (xs_full_object_fills x).
Definition count_fetch (x : ProxyStats) : ProxyStats :=
  mkProxyStats (xs_requests x) (xs_probes x) (wrap64 (xs_upstream_slice_fetches x + 1)) (xs_full_object_fills x).
Definition count_fill (x : ProxyStats) : ProxyStats :=
  mkProxyStats (xs_requests x) (xs_probes x) (xs_upstream_slice_fetches x) (wrap64 (xs_full_object_fills x + 1)).
Definition count_request (x : ProxyStats) : ProxyStats :=
  mkProxyStats (wrap64 (xs_requests x + 1)) (xs_probes x) (xs_upstream_slice_fetches x) (xs_full_object_fills x).

Definition parse_content_range_total (value : str) : option Z :=
  '(_, total) ← rsplit_once x2f value; parse_u64 (trim total).

Section Spike.
Context {S : Type} `{Foyer S}.
Context (slice_size : Z) (hostname : str) (blake3 : bytes -> bytes).
Implicit Types st : Spike S.

Definition spike_header_for (meta : SpikeMeta) : SliceHeader :=
  mkSliceHeader slice_size (xm_total_len meta) (xm_generation meta) (xm_etag meta)
    (xm_last_modified meta) (xm_content_type meta).

Definition spike_meta (r : SpikeReply) (total : Z) (no_ranges : bool) : SpikeMeta :=
  mkSpikeMeta total 0 (header_str (xr_headers r) (lit "etag"))
    (header_str (xr_headers r) (lit "last-modified")) (header_str (xr_headers r) (lit "content-type")) no_ranges.

Definition content_range_length (r : SpikeReply) : option Z :=
  header_str (xr_headers r) (lit "content-range") ≫= parse_content_range_total.

(** [store.get_or_fetch] with a value at hand. *)
Definition keep (s : S) (key : SliceKey) (value : SliceValue) : result SpikeError SliceValue * S :=
  match foyer_get_or_fetch s key (Ok value) with
  | (GotStored v, s) => (Ok v, s)
  | (GotFetched, s) => (Ok value, s)
  | (GotError _, s) => (Err XStore, s)
  end.

(** [probe], given what the origin answered. *)
Definition spike_probe (s : S) (x : ProxyStats) (object : ObjectId) (index : Z) (reply : result ReqwestError SpikeReply)
    : result SpikeError SpikeMeta * S * ProxyStats :=
  let x := count_probe x in
  match reply with
  | Err _ => (Err XSend, s, x)
  | Ok r =>
      if xr_status r =? PARTIAL_CONTENT then
        match content_range_length r with
        | None => (Err (XNoContentRange 206), s, x)
        | Some total =>
            let meta := spike_meta r total false in
            match xr_body r with
            | Err _ => (Err XBody, s, x)
            | Ok body =>
                match keep s (mkSliceKey object (xm_generation meta) index)
                        (mkSliceValue (spike_header_for meta) body) with
                | (Err e, s) => (Err e, s, x)
                | (Ok _, s) => (Ok meta, s, count_fetch x)
                end
            end
        end
      else if xr_status r =? 416 then
        match content_range_length r with
        | None => (Err (XNoContentRange 416), s, x)
        | Some total => (Ok (spike_meta r total false), s, x)
        end
      else if is_success (xr_status r) then
        match xr_content_length r with
        | None => (Err XNoLength, s, x)
        | Some total => (Ok (spike_meta r total true), s, x)
        end
      else (Err (XStatus (xr_status r)), s, x)
  end.

(** [get_or_try_init]: the cell keeps the first success. *)
Definition spike_metadata st (object : ObjectId) (index : Z) (reply : result ReqwestError SpikeReply)
    : result SpikeError SpikeMeta * Spike S :=
  match xp_objects st !! object with
  | Some meta => (Ok meta, st)
  | None =>
      match spike_probe (xp_store st) (xp_stats st) object index reply with
      | (Ok meta, s, x) => (Ok meta, mkSpike s (<[object := meta]> (xp_objects st)) x)
      | (Err e, s, x) => (Err e, mkSpike s (xp_objects st) x)
      end
  end.

(** What the closure of [fetch_or_load_slice] makes of a response. *)
Definition spike_check (meta : SpikeMeta) (url : str) (index : Z) (reply : result ReqwestError SpikeReply)
    : result FetchError SliceValue :=
  let extent := slice_extent index slice_size (xm_total_len meta) in
  match reply with
  | Err e => Err (FUpstream (Request url e))
  | Ok r =>
      if negb (xr_status r =? PARTIAL_CONTENT) then Err (FUpstream (Status url (xr_status r))) else
      let etag := header_str (xr_headers r) (lit "etag") in
      if negb (bool_decide (etag = xm_etag meta)) then Err (FMismatch (mkValidators etag None)) else
      match xr_body r with
      | Err e => Err (FUpstream (Request url e))
      | Ok body =>
          if negb (len body =? byte_range_len extent)
          then Err (FShort index (byte_range_len extent) (len body))
          else Ok (mkSliceValue (spike_header_for meta) body)
      end
  end.

Definition fetch_or_load_slice st (url : str) (object : ObjectId) (meta : SpikeMeta) (index : Z)
    (reply : result ReqwestError SpikeReply) : result SpikeError SliceValue * Spike S :=
  let checked := spike_check meta url index reply in
  let key := mkSliceKey object (xm_generation meta) index in
  match foyer_get_or_fetch (xp_store st) key checked with
  | (GotStored v, s) => (Ok v, mkSpike s (xp_objects st) (xp_stats st))
  | (GotError _, s) => (Err XStore, mkSpike s (xp_objects st) (xp_stats st))
  | (GotFetched, s) =>
      (match checked with Ok v => Ok v | Err _ => Err XStore end,
       mkSpike s (xp_objects st) (count_fetch (xp_stats st)))
  end.

(** [store_slice] for each slice cut, stopping at an error of the engine; the
    counter is a [u32]. *)
Fixpoint store_slices (s : S) (object : ObjectId) (meta : SpikeMeta) (index : Z) (slices : list bytes)
    : result SpikeError unit * S :=
  match slices with
  | [] => (Ok tt, s)
  | payload :: rest =>
      match keep s (mkSliceKey object (xm_generation meta) index) (mkSliceValue (spike_header_for meta) payload) with
      | (Err e, s) => (Err e, s)
      | (Ok _, s) => store_slices s object meta (wrap32 (index + 1)) rest
      end
  end.

Definition last_index (meta : SpikeMeta) : Z :=
  if xm_total_len meta =? 0 then 0 else wrap32 ((xm_total_len meta - 1) / slice_size).

(** [fill_whole_object]: [stream] is the status and the chunks, if the request
    was answered. *)
Definition fill_whole_object st (object : ObjectId) (meta : SpikeMeta)
    (stream : option (StatusCode * list (result unit bytes))) : result SpikeError unit * Spike S :=
  if forallb (fun i => foyer_contains (xp_store st) (mkSliceKey object (xm_generation meta) i))
       (seqZ 0 (last_index meta + 1))
  then (Ok tt, st)
  else
    let x := count_fill (xp_stats st) in
    match stream with
    | None => (Err XSend, mkSpike (xp_store st) (xp_objects st) x)
    | Some (status, chunks) =>
        if negb (is_success status) then (Err (XStatus status), mkSpike (xp_store st) (xp_objects st) x) else
        let '(slices, ended) := cut_stream slice_size [] chunks in
        let '(r, s) := store_slices (xp_store st) object meta 0 slices in
        (_ ← r; map_err (fun _ => XBody) ended, mkSpike s (xp_objects st) x)
    end.

(** The [X-Cache] value. *)
Definition spike_status (s : S) (object : ObjectId) (meta : SpikeMeta) (p : SlicePlan) (probed_here : bool)
    (probe_index : Z) : str :=
  let resident := wrap32 (len (filter (fun i =>
    foyer_contains s (mkSliceKey object (xm_generation meta) i) = true) (plan_indices p))) in
  let resident :=
    if probed_here && ((sp_first p <=? probe_index) && (probe_index <=? sp_last p))
    then sat_sub resident 1 else resident in
  if resident =? plan_count p then lit "HIT" else if resident =? 0 then lit "MISS" else lit "PARTIAL".

(** The response head for a range of a non-empty object. *)
Definition spike_head (meta : SpikeMeta) (wanted : ByteRange) (partial : bool) (cache_status : str)
    : option HeaderMap :=
  let b := with_header (Some []) (lit "content-length") (to_dec (byte_range_len wanted)) in
  let b := with_header b (lit "accept-ranges") (lit "bytes") in
  let b := with_header b (lit "x-cache") cache_status in
  let b := with_header b (lit "x-lancache-processed-by") hostname in
  let b := if partial then with_header b (lit "content-range") (content_range wanted (xm_total_len meta)) else b in
  let optional b name v := match v with Some v => with_header b name v | None => b end in
  let b := optional b (lit "content-type") (xm_content_type meta) in
  let b := optional b (lit "etag") (xm_etag meta) in
  optional b (lit "last-modified") (xm_last_modified meta).

(** How [serve] ends: a text, a response without a body, a stream of slices,
    an error, or the panic of [unwrap]. *)
Inductive SpikeServed :=
  | XText (status : StatusCode) (message : str)
  | XEmpty (status : StatusCode) (headers : HeaderMap)
  | XStream (status : StatusCode) (headers : HeaderMap) (object : ObjectId) (meta : SpikeMeta)
      (wanted : ByteRange) (indices : list Z)
  | XFailed (e : SpikeError)
  | XPanic.

Definition spike_built (status : StatusCode) (h : option HeaderMap) : SpikeServed :=
  match h with Some h => XEmpty status h | None => XPanic end.

(** [serve] from the metadata on. *)
Definition spike_respond st (is_head : bool) (object : ObjectId) (spec : option RangeSpec) (meta : SpikeMeta)
    (probed_here : bool) (probe_index : Z) (stream : option (StatusCode * list (result unit bytes)))
    : SpikeServed * Spike S :=
  let processed h := with_header h (lit "x-lancache-processed-by") hostname in
  match (match spec with
         | None => match whole (xm_total_len meta) with
                   | Some r => inr r
                   | None => inl (spike_built 200 (processed (Some
                       [(lit "content-length", lit "0"); (lit "x-cache", lit "HIT")])))
                   end
         | Some spec => match Range.resolve spec (xm_total_len meta) with
                   | Ok r => inr r
                   | Err _ => inl (spike_built 416 (processed (with_header (Some []) (lit "content-range")
                       (lit "bytes */" ++ to_dec (xm_total_len meta)))))
                   end
         end) with
  | inl reply => (reply, st)
  | inr wanted =>
      let partial := match spec with Some _ => true | None => false end in
      match (if xm_no_ranges meta then fill_whole_object st object meta stream else (Ok tt, st)) with
      | (Err e, st) => (XFailed e, st)
      | (Ok _, st) =>
          let p := spike_plan wanted slice_size in
          let status := if partial then PARTIAL_CONTENT else OK_200 in
          match spike_head meta wanted partial
                  (spike_status (xp_store st) object meta p probed_here probe_index) with
          | None => (XPanic, st)
          | Some h =>
              (if is_head then XEmpty status h else XStream status h object meta wanted (plan_indices p), st)
          end
      end
  end.

Definition spike_serve st (req : HttpRequest) (reply : result ReqwestError SpikeReply)
    (stream : option (StatusCode * list (result unit bytes))) : SpikeServed * Spike S :=
  let st := mkSpike (xp_store st) (xp_objects st) (count_request (xp_stats st)) in
  if bool_decide (rq_path req = HEARTBEAT_PATH) then
    (spike_built 204 (with_header (with_header (Some []) (lit "x-lancache-processed-by") hostname)
       (lit "access-control-allow-origin") (lit "*")), st)
  else
  match rq_method req with
  | OtherMethod _ => (XText 405 (lit "spike proxy serves GET and HEAD only" ++ newline), st)
  | method =>
      let object := object_id blake3 (default (lit "/") (rq_target req)) in
      let spec := range_spec (header_str (rq_headers req) (lit "range")) in
      let probe_index := probe_index_of slice_size spec in
      let probed_here := negb (bool_decide (is_Some (xp_objects st !! object))) in
      match spike_metadata st object probe_index reply with
      | (Err e, st) => (XFailed e, st)
      | (Ok meta, st) =>
          spike_respond st (match method with HEAD => true | _ => false end) object spec meta probed_here
            probe_index stream
      end
  end.
End Spike.

(** ** One lifetime of the process *)

Lemma spike_plan_agrees (r : ByteRange) (s : Z) :
  0 < s < 2 ^ 32 -> range_in r (max_addressable_len s) -> Range.plan r s = spike_plan r s.
Proof. exact (proj1 plan_repairs_spike_plan r s). Qed.

Section Lifetime.
Context {S : Type} `{FoyerLaws S}.
Context (slice_size : Z) (slice_size_ok : 0 < slice_size < 2 ^ 32).
(** What an origin ever holds under a path, by entity tag; a tag names one
    content. *)
Context (versions : ObjectId -> option str -> bytes -> Prop).
Context (identified : forall o etag c1 c2, versions o etag c1 -> versions o etag c2 -> c1 = c2).
Implicit Types st : Spike S.

(** The answer to a request for slice [index] is that of some version. *)
Definition spike_honest (o : ObjectId) (index : Z) (reply : result ReqwestError SpikeReply) : Prop :=
  forall r, reply = Ok r ->
  exists c, versions o (header_str (xr_headers r) (lit "etag")) c /\
    (xr_status r = PARTIAL_CONTENT -> forall b, xr_body r = Ok b -> b = slice_payload index slice_size c) /\
    (forall total, content_range_length r = Some total -> total = len c) /\
    (forall total, xr_content_length r = Some total -> is_success (xr_status r) = true ->
       xr_status r <> PARTIAL_CONTENT -> total = len c).

Abbreviation Session := (Spike S * list (ObjectId * Z * SliceValue))%type.

(** What happens between two awaits, and what was served to whom. *)
Inductive lifetime_step : Session -> Session -> Prop :=
  | life_metadata st served o index reply r st' :
      spike_honest o index reply -> spike_metadata slice_size st o index reply = (r, st') ->
      lifetime_step (st, served) (st', served)
  | life_slice st served o meta index url reply r st' :
      spike_honest o index reply -> xp_objects st !! o = Some meta ->
      fetch_or_load_slice slice_size st url o meta index reply = (r, st') ->
      lifetime_step (st, served)
        (st', match r with Ok v => (o, index, v) :: served | Err _ => served end)
  | life_evict st served s' :
      held s' ⊆ held (xp_store st) ->
      lifetime_step (st, served) (mkSpike s' (xp_objects st) (xp_stats st), served).

Definition describes (o : ObjectId) (meta : SpikeMeta) (c : bytes) : Prop :=
  xm_generation meta = 0 /\ versions o (xm_etag meta) c /\ xm_total_len meta = len c.

Definition genuine (objects : gmap ObjectId SpikeMeta) (o : ObjectId) (index : Z) (v : SliceValue) : Prop :=
  exists meta c, objects !! o = Some meta /\ versions o (xm_etag meta) c /\
    sv_payload v = slice_payload index slice_size c.

Record lifetime_inv (x : Session) : Prop := mkLifetimeInv {
  li_objects o meta : xp_objects x.1 !! o = Some meta -> exists c, describes o meta c;
  li_store k v : held (xp_store x.1) !! k = Some v ->
    genuine (xp_objects x.1) (sk_object k) (sk_index k) v;
  li_served o index v : (o, index, v) ∈ x.2 -> genuine (xp_objects x.1) o index v }.

Lemma genuine_insert objects o meta o' index v :
  objects !! o = None -> genuine objects o' index v -> genuine (<[o := meta]> objects) o' index v.
Proof.
  intros Hn (m & c & Hm & Hv & Hp). exists m, c. split; [|done].
  rewrite lookup_insert_ne; [done|]. intros ->. congruence.
Qed.

(** A failed probe leaves the store as it was; a successful one adds at most
    its own slice. *)
Lemma spike_probe_spec s x o index reply r s' x' :
  spike_honest o index reply -> spike_probe slice_size s x o index reply = (r, s', x') ->
  match r with
  | Err _ => held s' ⊆ held s
  | Ok meta => exists c, describes o meta c /\
      forall k v, held s' !! k = Some v -> held s !! k = Some v \/
        (sk_object k = o /\ sv_payload v = slice_payload (sk_index k) slice_size c)
  end.
Proof using Type.
  intros Hh. unfold spike_probe. destruct reply as [rp|e]; [|by intros [= <- <- <-]].
  destruct (Hh rp eq_refl) as (c & Hv & Hbody & Hcr & Hcl).
  assert (forall total no, total = len c -> describes o (spike_meta rp total no) c) as Hd by by intros ? ? ->.
  destruct (Z.eqb_spec (xr_status rp) PARTIAL_CONTENT) as [E|E].
  - destruct (content_range_length rp) as [total|] eqn:Ec; [|by intros [= <- <- <-]].
    destruct (xr_body rp) as [body|] eqn:Eb; [|by intros [= <- <- <-]]. unfold keep.
    pose proof (held_get_or_fetch s (mkSliceKey o (xm_generation (spike_meta rp total false)) index)
      (Ok (mkSliceValue (spike_header_for slice_size (spike_meta rp total false)) body))) as Hf.
    destruct (foyer_get_or_fetch _ _ _) as [[v| |t] s1]; intros [= <- <- <-].
    + exists c. split; [by apply Hd, Hcr|]. destruct Hf as [_ Hs]. intros k w Hk. left. by eapply lookup_weaken.
    + exists c. split; [by apply Hd, Hcr|]. intros k w Hk. apply (lookup_weaken _ _ _ _ Hk) in Hf.
      apply lookup_insert_Some in Hf as [[<- <-]|[_ Hf]]; [right|by left].
      split; [done|]. by apply Hbody.
    + done.
  - destruct (Z.eqb_spec (xr_status rp) 416) as [E'|E'].
    + destruct (content_range_length rp) as [total|] eqn:Ec; intros [= <- <- <-]; [|done].
      exists c. split; [by apply Hd, Hcr|]. by left.
    + destruct (is_success _) eqn:Es; [|by intros [= <- <- <-]].
      destruct (xr_content_length rp) as [total|] eqn:Ec; intros [= <- <- <-]; [|done].
      exists c. split; [by apply Hd, Hcl|]. by left.
Qed.

Lemma metadata_keeps st served o index reply r st' :
  spike_honest o index reply -> spike_metadata slice_size st o index reply = (r, st') ->
  lifetime_inv (st, served) -> lifetime_inv (st', served).
Proof using Type.
  intros Hh. unfold spike_metadata. destruct (xp_objects st !! o) as [meta|] eqn:Eo; [by intros [= <- <-]|].
  destruct (spike_probe _ _ _ _ _ _) as [[[meta|e] s] x] eqn:Ep; intros [= <- <-] [Ho Hs Hv];
    apply spike_probe_spec in Ep; [|done| |done]; cbn [fst snd] in *.
  - destruct Ep as (c & Hd & Hk). split; cbn [fst snd xp_objects xp_store].
    + intros o' m [[<- <-]|[_ Hm]]%lookup_insert_Some; [by exists c|by apply Ho].
    + intros k v Hkv. destruct (Hk k v Hkv) as [Hold|[<- Hp]]; [by apply genuine_insert, Hs|].
      exists meta, c. split; [by rewrite lookup_insert_eq|]. split; [apply Hd|done].
    + intros o' i v Hin. by apply genuine_insert, Hv.
  - split; cbn [fst snd xp_objects xp_store]; [done| |done].
    intros k v Hk. apply Hs. by eapply lookup_weaken.
Qed.

Lemma slice_keeps st served o meta index url reply r st' :
  spike_honest o index reply -> xp_objects st !! o = Some meta ->
  fetch_or_load_slice slice_size st url o meta index reply = (r, st') ->
  lifetime_inv (st, served) ->
  lifetime_inv (st', match r with Ok v => (o, index, v) :: served | Err _ => served end).
Proof using identified.
  intros Hh Hm. unfold fetch_or_load_slice.
  assert (forall v, spike_check slice_size meta url index reply = Ok v -> genuine (xp_objects st) o index v) as Hc.
  { intros v. unfold spike_check. destruct reply as [rp|]; [|done].
    destruct (Hh rp eq_refl) as (c & Hv & Hbody & _).
    destruct (Z.eqb_spec (xr_status rp) PARTIAL_CONTENT) as [E|]; cbn [negb]; [|done].
    case_bool_decide as Et; cbn [negb]; [|done]. destruct (xr_body rp) as [body|]; [|done].
    destruct (_ =? _); cbn [negb]; [|done]. intros <-%Ok_inj. exists meta, c. rewrite <- Et.
    split; [done|]. split; [done|]. by apply Hbody. }
  pose proof (held_get_or_fetch (xp_store st) (mkSliceKey o (xm_generation meta) index)
    (spike_check slice_size meta url index reply)) as Hf.
  destruct (foyer_get_or_fetch _ _ _) as [[v| |t] s1]; intros [= <- <-] [Ho Hs Hv]; cbn [fst snd] in *.
  - destruct Hf as [Hk Hsub]. split; cbn [fst snd xp_objects xp_store]; [done| |].
    + intros k w Hkw. apply Hs. by eapply lookup_weaken.
    + intros o' i w [[= -> -> ->]|Hin]%elem_of_cons; [|by apply Hv]. exact (Hs _ _ Hk).
  - destruct (spike_check _ _ _ _ _) as [v|e] eqn:Ec.
    + split; cbn [fst snd xp_objects xp_store]; [done| |].
      * intros k w Hkw. apply (lookup_weaken _ _ _ _ Hkw) in Hf.
        apply lookup_insert_Some in Hf as [[<- <-]|[_ Hf]]; [by apply Hc|by apply Hs].
      * intros o' i w [[= -> -> ->]|Hin]%elem_of_cons; [by apply Hc|by apply Hv].
    + split; cbn [fst snd xp_objects xp_store]; [done| |done].
      intros k w Hkw. apply Hs. by eapply lookup_weaken.
  - split; cbn [fst snd xp_objects xp_store]; [done| |done].
    intros k w Hkw. apply Hs. by eapply lookup_weaken.
Qed.

Lemma lifetime_keeps x x' : rtc lifetime_step x x' -> lifetime_inv x -> lifetime_inv x'.
Proof using identified.
  induction 1 as [|x y z Hs _ IH]; [done|]. intros Hi. apply IH.
  destruct Hs; [by eapply metadata_keeps|by eapply slice_keeps|].
  destruct Hi as [Ho Hst Hv]. split; cbn [fst snd xp_objects xp_store] in *; [done| |done].
  intros k v Hk. apply Hst. by eapply lookup_weaken.
Qed.

Definition fresh (s : S) : Spike S := mkSpike s ∅ (mkProxyStats 0 0 0 0).

Lemma fresh_inv s : held s = ∅ -> lifetime_inv (fresh s, []).
Proof.
  intros He. split; cbn [fst snd fresh xp_objects xp_store].
  - intros o meta. by rewrite lookup_empty.
  - intros k v. by rewrite He, lookup_empty.
  - intros o index v Hin. by apply not_elem_of_nil in Hin.
Qed.

(** The body of a response: the window of each planned slice, in order. *)
Definition spike_assemble (wanted : ByteRange) (value : Z -> SliceValue) : option bytes :=
  mapM (fun i => cut_window (sv_payload (value i)) (Range.payload_window i slice_size wanted))
    (plan_indices (spike_plan wanted slice_size)) ≫= (fun pieces => Some (concat pieces)).

(** Within one lifetime of the process the spike serves one version of
    each object.  Start with an empty store, let probes, slice fetches and
    evictions interleave in any way against an origin whose entity tags name
    contents, and assemble a response for any range of an object from whatever
    values were served for its slices: the body is exactly the wanted bytes of
    the one version the object's cell describes. *)
Theorem spike_lifetime_sound s st served o meta wanted value :
  held s = ∅ -> rtc lifetime_step (fresh s, []) (st, served) ->
  xp_objects st !! o = Some meta ->
  range_in wanted (xm_total_len meta) -> xm_total_len meta < 2 ^ 64 ->
  xm_total_len meta <= max_addressable_len slice_size ->
  (forall i, i ∈ plan_indices (spike_plan wanted slice_size) -> (o, i, value i) ∈ served) ->
  exists c, describes o meta c /\
    spike_assemble wanted value = Some (slice (br_start wanted) (br_end wanted + 1) c).
Proof using identified slice_size_ok.
  intros He Hr Hm Hw H64 Hmax Hserved.
  pose proof (lifetime_keeps _ _ Hr (fresh_inv s He)) as [Ho _ Hv]. cbn [fst snd] in *.
  destruct (Ho o meta Hm) as (c & Hd). exists c. split; [done|]. pose proof Hd as (_ & Hver & Hlen).
  unfold spike_assemble. rewrite <- (spike_plan_agrees wanted slice_size) in * by
    (try done; destruct Hw as (? & ? & ?); repeat split; lia).
  rewrite Hlen in *. rewrite <- (tiling c slice_size wanted) by done. f_equal.
  apply Forall_mapM_ext, Forall_forall. intros i Hi.
  destruct (Hv o i (value i) (Hserved i Hi)) as (meta' & c' & Hm' & Hv' & ->).
  rewrite Hm in Hm'. injection Hm' as <-. by rewrite (identified _ _ _ _ Hver Hv').
Qed.
End Lifetime.

(** ** After a restart *)

(** A new process on the same cache directory. *)
Definition restart {S} (st : Spike S) : Spike S := fresh (xp_store st).

Definition reply_of (tag content : str) (index : Z) : SpikeReply :=
  mkSpikeReply 206 [(lit "etag", tag);
      (lit "content-range", lit "bytes 0-1/" ++ to_dec (len content))] None
    (Ok (slice_payload index 2 content)).

Abbreviation ToyStore := (gmap SliceKey SliceValue).

Definition before_restart : Spike ToyStore :=
  let st := (spike_metadata 2 (fresh (∅ : ToyStore)) [x01] 0 (Ok (reply_of (lit "1") (lit "aaaa") 0))).2 in
  match xp_objects st !! [x01] with
  | Some meta => (fetch_or_load_slice 2 st [] [x01] meta 1 (Ok (reply_of (lit "1") (lit "aaaa") 1))).2
  | None => st
  end.

(** The first slice is evicted, the process restarts, and the origin has
    changed. *)
Definition after_restart : Spike ToyStore :=
  let st := restart before_restart in
  let st := mkSpike (delete (mkSliceKey [x01] 0 0) (xp_store st)) (xp_objects st) (xp_stats st) in
  (spike_metadata 2 st [x01] 0 (Ok (reply_of (lit "2") (lit "bbbb") 0))).2.

(** The slices of a response after the restart, whatever the origin would say. *)
Definition served_after (index : Z) : option SliceValue :=
  match xp_objects after_restart !! [x01] with
  | Some meta => result_ok (fetch_or_load_slice 2 after_restart [] [x01] meta index
      (Ok (reply_of (lit "2") (lit "bbbb") index))).1
  | None => None
  end.

(** A restart breaks the spike's guarantee.  Its metadata is forgotten
    with the process while its slices stay on disk under generation 0, so after
    a restart the slices of an older version are served under the newer version's
    entity tag, next to slices of the newer version. *)
Theorem spike_restart_mixes_versions :
  exists meta v0 v1, xp_objects after_restart !! [x01] = Some meta /\ xm_etag meta = Some (lit "2") /\
    served_after 0 = Some v0 /\ served_after 1 = Some v1 /\
    spike_assemble 2 (mkByteRange 0 3) (fun i => if i =? 0 then v0 else v1) = Some (lit "bbaa").
Proof. eexists _, _, _. split; [vm_compute; reflexivity|]. by vm_compute. Qed.

(** ** The response head *)

(** The metadata the orchestrator keeps for the same object. *)
Definition promoted (key : str) (now : Z) (meta : SpikeMeta) : ObjectMeta :=
  mkObjectMeta key (xm_total_len meta) (xm_generation meta) (xm_etag meta) (xm_last_modified meta)
    (xm_content_type meta) (xm_no_ranges meta) now now false.

Lemma with_header_Some b n v h :
  with_header b n v = Some h -> exists h0, b = Some h0 /\ header_value_ok v = true /\ h = h0 ++ [(n, v)].
Proof.
  destruct b as [h0|]; [|done]. unfold with_header. cbn. destruct (header_value_ok v) eqn:E; [|done].
  intros [= <-]. by exists h0.
Qed.

Lemma with_header_ok h n v : header_value_ok v = true -> with_header (Some h) n v = Some (h ++ [(n, v)]).
Proof. intros Hv. unfold with_header. cbn. by rewrite Hv. Qed.

(** An optional header, of a value that is valid. *)
Definition optional_entry (name : str) (v : option str) : HeaderMap :=
  match v with Some v => [(name, v)] | None => [] end.

Lemma optional_Some b name v h :
  match v with Some v => with_header b name v | None => b end = Some h ->
  exists h0, b = Some h0 /\ h = h0 ++ optional_entry name v /\
    (forall h1, match v with
                | Some v => if header_value_ok v then with_header (Some h1) name v else Some h1
                | None => Some h1
                end = Some (h1 ++ optional_entry name v)).
Proof.
  destruct v as [v|]; cbn [optional_entry].
  - intros (h0 & -> & Hv & ->)%with_header_Some. exists h0. split; [done|]. split; [done|].
    intros h1. by rewrite Hv, with_header_ok.
  - intros ->. exists h. rewrite app_nil_r. split; [done|]. split; [done|]. intros h1. by rewrite app_nil_r.
Qed.

(** The orchestrator answers as the spike did.  For any range of a
    non-empty object with the same metadata and cache status, the head the
    orchestrator's server builds carries exactly the headers of the spike's, in
    the same order, and in addition the internal service header, which is
    stripped before the response leaves. *)
Theorem spike_head_agrees hostname service meta wanted partial cs key now object h :
  0 < xm_total_len meta -> header_value_ok service = true ->
  spike_head hostname meta wanted partial (cache_status_str cs) = Some h ->
  let plan := mkPlan service (if partial then PARTIAL_CONTENT else OK_200) wanted (xm_total_len meta) cs
    (promoted key now meta) object partial in
  exists h', response_head hostname service plan = Some h' /\
    filter (fun p => p.1 <> lit "x-cachic-service") h' = h.
Proof.
  intros Ht Hs Hh. cbn zeta. unfold spike_head in Hh. unfold response_head, body_len.
  cbn [pl_total_len pl_cache_status pl_partial pl_wanted pl_meta promoted om_content_type om_etag om_last_modified].
  destruct (Z.eqb_spec (xm_total_len meta) 0); [lia|]. destruct (Z.ltb_spec 0 (xm_total_len meta)); [|lia].
  rewrite andb_true_r. cbn [foldl].
  apply optional_Some in Hh as (h3 & Hh & -> & Hlm). apply optional_Some in Hh as (h2 & Hh & -> & Het).
  apply optional_Some in Hh as (h1 & Hh & -> & Hct).
  assert (header_value_ok (cache_status_str cs) = true) as Hcs by by destruct cs.
  pose proof (to_dec_value_ok (byte_range_len wanted)) as Hl.
  rewrite !with_header_ok in Hh |- * by done. cbn [app] in Hh |- *.
  assert (exists extra, (if partial then [(lit "content-range", content_range wanted (xm_total_len meta))] else []) = extra
    /\ header_value_ok hostname = true /\
    h1 = [(lit "content-length", to_dec (byte_range_len wanted)); (lit "accept-ranges", lit "bytes");
          (lit "x-cache", cache_status_str cs); (lit "x-lancache-processed-by", hostname)] ++ extra /\
    (partial = true -> header_value_ok (content_range wanted (xm_total_len meta)) = true)) as (extra & Hex & Hho & -> & Hcr).
  { eexists. split; [done|]. destruct partial.
    - apply with_header_Some in Hh as (h0 & Hh & Hcr & ->). by apply with_header_Some in Hh as (? & [= <-] & Hho & ->).
    - by apply with_header_Some in Hh as (? & [= <-] & Hho & ->). }
  rewrite !with_header_ok by done. cbn [app].
  set (base := [_; _; _; _; (lit "x-cachic-service", service)]).
  assert ((if partial then with_header (Some base) (lit "content-range") (content_range wanted (xm_total_len meta))
           else Some base) = Some (base ++ extra)) as ->.
  { rewrite <- Hex. destruct partial; [by rewrite with_header_ok by auto|by rewrite app_nil_r]. }
  rewrite Hct, Het, Hlm. eexists. split; [done|]. subst base. rewrite !filter_app.
  assert (forall name v, name <> lit "x-cachic-service" ->
    filter (fun p : str * bytes => p.1 <> lit "x-cachic-service") (optional_entry name v) = optional_entry name v) as Ho.
  { intros name v Hn. destruct v as [v|]; [|done]. cbn [optional_entry]. by rewrite filter_cons_True. }
  rewrite !Ho by done. f_equal. f_equal. f_equal.
  rewrite <- Hex. by destruct partial.
Qed.

(** ** Witnesses *)

Definition toy_versions (o : ObjectId) (etag : option str) (c : bytes) : Prop :=
  etag = Some (lit "1") /\ c = lit "abcd".

Lemma spike_toy_identified o etag c1 c2 : toy_versions o etag c1 -> toy_versions o etag c2 -> c1 = c2.
Proof. by intros [_ ->] [_ ->]. Qed.

Lemma spike_toy_honest index : spike_honest 2 toy_versions [x01] index (Ok (reply_of (lit "1") (lit "abcd") index)).
Proof.
  intros r [= <-]. exists (lit "abcd"). split; [by split; vm_compute|]. split; [by intros _ b [= <-]|].
  split; [|done]. intros total Ht. vm_compute in Ht. by injection Ht as <-.
Qed.

Definition life0 : Spike ToyStore := fresh ∅.
Definition life1 := (spike_metadata 2 life0 [x01] 0 (Ok (reply_of (lit "1") (lit "abcd") 0))).2.
Definition toy_spike_meta : SpikeMeta := spike_meta (reply_of (lit "1") (lit "abcd") 0) 4 false.
Definition toy_fetch (st : Spike ToyStore) (index : Z) :=
  fetch_or_load_slice 2 st [] [x01] toy_spike_meta index (Ok (reply_of (lit "1") (lit "abcd") index)).
Definition life2 := (toy_fetch life1 0).2.
Definition life3 := (toy_fetch life2 1).2.
Definition toy_slice (index : Z) : SliceValue :=
  mkSliceValue (spike_header_for 2 toy_spike_meta) (slice_payload index 2 (lit "abcd")).

Lemma split_pair {A B} (p : A * B) a : p.1 = a -> p = (a, p.2).
Proof. intros <-. apply surjective_pairing. Qed.

Lemma toy_probed : xp_objects life1 !! [x01] = Some toy_spike_meta.
Proof. vm_compute. reflexivity. Qed.

Lemma toy_fetch_keeps st index :
  xp_objects st !! [x01] = Some toy_spike_meta -> xp_objects (toy_fetch st index).2 !! [x01] = Some toy_spike_meta.
Proof. unfold toy_fetch, fetch_or_load_slice. by destruct (foyer_get_or_fetch _ _ _) as [[| |] ?]. Qed.

Lemma toy_life :
  rtc (lifetime_step 2 toy_versions) (life0, []) (life3, [([x01], 1, toy_slice 1); ([x01], 0, toy_slice 0)]).
Proof.
  apply rtc_l with (y := (life1, [])).
  { apply (life_metadata 2 toy_versions life0 [] [x01] 0 _ (Ok toy_spike_meta) life1 (spike_toy_honest 0)).
    apply split_pair. vm_compute. reflexivity. }
  apply rtc_l with (y := (life2, [([x01], 0, toy_slice 0)])).
  { apply (life_slice 2 toy_versions life1 [] [x01] toy_spike_meta 0 [] _ (Ok (toy_slice 0)) life2
      (spike_toy_honest 0) toy_probed). apply split_pair. vm_compute. reflexivity. }
  apply rtc_once.
  apply (life_slice 2 toy_versions life2 [([x01], 0, toy_slice 0)] [x01] toy_spike_meta 1 [] _
    (Ok (toy_slice 1)) life3 (spike_toy_honest 1)); [by apply toy_fetch_keeps, toy_probed|].
  apply split_pair. vm_compute. reflexivity.
Qed.

Lemma spike_lifetime_sound_witness :
  spike_assemble 2 (mkByteRange 1 2) toy_slice = Some (lit "bc").
Proof.
  destruct (spike_lifetime_sound 2 ltac:(lia) toy_versions spike_toy_identified (∅ : ToyStore) life3
    [([x01], 1, toy_slice 1); ([x01], 0, toy_slice 0)] [x01] toy_spike_meta (mkByteRange 1 2) toy_slice)
    as (c & (_ & [_ ->] & _) & Ha).
  - reflexivity.
  - exact toy_life.
  - apply toy_fetch_keeps, toy_fetch_keeps, toy_probed.
  - repeat split; vm_compute; congruence.
  - vm_compute. reflexivity.
  - vm_compute. congruence.
  - intros i Hi. change (plan_indices (spike_plan (mkByteRange 1 2) 2)) with [0; 1] in Hi.
    apply elem_of_cons in Hi as [Hi|Hi]; [rewrite Hi; first [left | right; left]|].
    apply list_elem_of_singleton in Hi. rewrite Hi. first [left | right; left].
  - exact Ha.
Defined.

Lemma spike_head_agrees_witness :
  exists h h', spike_head (lit "cache") toy_spike_meta (mkByteRange 1 2) true (lit "HIT") = Some h /\
    response_head (lit "cache") (lit "steam")
      (mkPlan (lit "steam") 206 (mkByteRange 1 2) 4 Hit (promoted [] 0 toy_spike_meta) [x01] true) = Some h' /\
    filter (fun p => p.1 <> lit "x-cachic-service") h' = h.
Proof.
  destruct (spike_head (lit "cache") toy_spike_meta (mkByteRange 1 2) true (lit "HIT")) as [h|] eqn:Eh;
    [|vm_compute in Eh; discriminate Eh].
  destruct (spike_head_agrees (lit "cache") (lit "steam") toy_spike_meta (mkByteRange 1 2) true Hit [] 0 [x01] h)
    as (h' & H1 & H2); [vm_compute; reflexivity|reflexivity|exact Eh|].
  exists h, h'. done.
Defined.

(** ** The codec before it was promoted *)

Section SpikeCodec.
Context (xxh3_64 : bytes -> Z).

(** [SliceValue::decode] of the spike, which counts nothing. *)
Definition spike_slice_value_decode : reader ErrorKind SliceValue :=
  magic ← read_le Io 4;
  if negb (magic =? MAGIC) then rfail MagicMismatch else
  header ← slice_header_decode;
  expected ← read_le Io 8;
  n ← read_le Io 4;
  payload ← read_exact Io n;
  if negb (xxh3_64 payload =? expected) then rfail ChecksumMismatch
  else mret (mkSliceValue header payload).

(** What a reader can fail with: readers compose, so does the set. *)
Definition fails_in {A} (P : ErrorKind -> Prop) (r : reader ErrorKind A) : Prop :=
  forall b e, r b = Err e -> P e.

Lemma fails_in_bind {A B} P (m : reader ErrorKind A) (f : A -> reader ErrorKind B) :
  fails_in P m -> (forall a, fails_in P (f a)) -> fails_in P (m ≫= f).
Proof using Type.
  intros Hm Hf b e. unfold mbind, reader_bind.
  destruct (m b) as [[a b']|e'] eqn:E; [apply Hf|]. intros [= <-]. by apply (Hm b).
Qed.

Lemma fails_in_ret {A} P (a : A) : fails_in P (mret a : reader ErrorKind A).
Proof using Type. by intros b e. Qed.

Lemma fails_in_read_exact P n : P Io -> fails_in P (read_exact Io n).
Proof using Type. intros HP b e. unfold read_exact. case_match; [|done]. by intros [= <-]. Qed.

Lemma fails_in_read_le P n : P Io -> fails_in P (read_le Io n).
Proof using Type.
  intros HP. apply fails_in_bind; [by apply fails_in_read_exact|]. intros. apply fails_in_ret.
Qed.

(** Reading the fields never reports a checksum mismatch: only the comparison does. *)
Lemma slice_value_read_no_mismatch :
  fails_in (fun e => e <> ChecksumMismatch) slice_value_read.
Proof using Type.
  unfold slice_value_read, slice_header_decode, read_opt_str.
  repeat first
    [ apply fails_in_bind; [|intros ?] | apply fails_in_ret | by apply fails_in_read_le
    | by apply fails_in_read_exact | case_match; try (by intros ? ? [= <-]) ].
Qed.

Lemma spike_slice_value_decode_read b :
  spike_slice_value_decode b =
  match slice_value_read b with
  | Err e => Err e
  | Ok (header, expected, payload, rest) =>
      if negb (xxh3_64 payload =? expected) then Err ChecksumMismatch
      else Ok (mkSliceValue header payload, rest)
  end.
Proof using Type.
  unfold spike_slice_value_decode, slice_value_read, mbind, reader_bind.
  repeat (case_match; simplify_eq/=; try done).
Qed.

(** Promotion added the counter and nothing else: the current decoder returns
    what the spike's returned on every input, and counts exactly the checksum
    mismatches.  So each reads what the other wrote, and refuses what it refused. *)
Theorem promoted_codec_agrees failures b :
  slice_value_decode xxh3_64 failures b =
  (spike_slice_value_decode b,
   match spike_slice_value_decode b with Err ChecksumMismatch => wrap64 (failures + 1) | _ => failures end).
Proof using Type.
  rewrite spike_slice_value_decode_read. unfold slice_value_decode.
  destruct (slice_value_read b) as [[[[h x] p] rest]|e] eqn:E.
  - by destruct (xxh3_64 p =? x).
  - apply slice_value_read_no_mismatch in E. by destruct e.
Qed.
End SpikeCodec.
