(* ===== verification/Content.v ===== *)
(** * Deterministic object content

    Models [crates/cachic-testkit/src/content.rs]: the bytes of a mock object
    as a function of a seed and an offset, the loop that fills a buffer with
    them eight at a time, and the seed of a name.  The theorems show that the
    loop always ends and that reading a range directly equals reading it out of
    a larger buffer, on which every differential test relies. *)

From S2P Require Import Prelude.
From S2P Require Import RustStr.
From S2P Require Import Codec.

Open Scope Z_scope.

Definition BLOCK : Z := 8.
Definition MIX : Z := 0x9E3779B97F4A7C15.

Definition splitmix64 (z : Z) : Z :=
  let z := wrap64 (z + MIX) in
  let z := wrap64 (Z.lxor z (Z.shiftr z 30) * 0xBF58476D1CE4E5B9) in
  let z := wrap64 (Z.lxor z (Z.shiftr z 27) * 0x94D049BB133111EB) in
  Z.lxor z (Z.shiftr z 31).

Definition block_at (seed block_index : Z) : bytes :=
  le_bytes 8 (splitmix64 (Z.lxor seed (wrap64 (block_index * MIX)))).

(** [buf[at..at + len b].copy_from_slice(b)]. *)
Definition copy_at (at_ : nat) (b buf : bytes) : bytes :=
  take at_ buf ++ b ++ drop (at_ + length b) buf.

(** The loop of [fill].  [None] is a loop that has not ended after [fuel]
    rounds. *)
Fixpoint fill_loop (fuel : nat) (seed pos : Z) (written : nat) (buf : bytes) : option bytes :=
  if (length buf <=? written)%nat then Some buf else
  match fuel with
  | O => None
  | S fuel' =>
      let block_index := pos / BLOCK in
      let within := Z.to_nat (pos mod BLOCK) in
      let block := block_at seed block_index in
      let n := Nat.min (Z.to_nat BLOCK - within) (length buf - written) in
      fill_loop fuel' seed (wrap64 (pos + Z.of_nat n)) (written + n)
        (copy_at written (take n (drop within block)) buf)
  end.

Definition fill (seed offset : Z) (buf : bytes) : bytes :=
  default buf (fill_loop (length buf) seed offset 0 buf).

Definition content_range (seed offset : Z) (n : nat) : bytes :=
  fill seed offset (replicate n x00).

Definition seed_step (h : Z) (b : byte) : Z :=
  wrap64 (Z.lxor h (Z_of_byte b) * 0x00000100000001B3).

Definition seed_for (name : str) : Z := foldl seed_step 0xcbf29ce484222325 name.

(** ** Specification: byte [p] of the object *)

Definition byte_at (seed p : Z) : byte :=
  nth (Z.to_nat (p mod BLOCK)) (block_at seed (p / BLOCK)) x00.

Definition content_at (seed offset : Z) (n : nat) : bytes :=
  byte_at seed <$> seqZ offset (Z.of_nat n).

Lemma length_content_at seed offset n : length (content_at seed offset n) = n.
Proof. unfold content_at. rewrite length_fmap, length_seqZ. lia. Qed.

Lemma lookup_content_at seed offset n i :
  (i < n)%nat -> content_at seed offset n !! i = Some (byte_at seed (offset + Z.of_nat i)).
Proof.
  intros Hi. unfold content_at. rewrite list_lookup_fmap, lookup_seqZ_lt by lia. done.
Qed.

Lemma content_at_app seed offset n m :
  content_at seed offset (n + m) =
  content_at seed offset n ++ content_at seed (offset + Z.of_nat n) m.
Proof. unfold content_at. by rewrite Nat2Z.inj_add, seqZ_app, fmap_app by lia. Qed.

(** A part of the content is the content of the part. *)
Lemma slice_content_at seed offset n a b :
  0 <= a <= b -> b <= Z.of_nat n ->
  slice a b (content_at seed offset n) = content_at seed (offset + a) (Z.to_nat (b - a)).
Proof.
  intros Hab Hb. unfold slice. apply list_eq. intros i.
  destruct (decide (i < Z.to_nat (b - a))%nat) as [Hi|Hi].
  - rewrite lookup_take_lt, lookup_drop by done. rewrite !lookup_content_at by lia.
    do 2 f_equal. lia.
  - rewrite !lookup_ge_None_2; [done|rewrite length_content_at; lia|].
    rewrite length_take, length_drop, length_content_at. lia.
Qed.

(** ** The loop *)

Lemma length_block_at seed i : length (block_at seed i) = 8%nat.
Proof. apply length_le_bytes. Qed.

(** What one round copies. *)
Lemma block_content seed pos n :
  0 <= pos -> Z.of_nat n <= BLOCK - pos mod BLOCK ->
  take n (drop (Z.to_nat (pos mod BLOCK)) (block_at seed (pos / BLOCK))) = content_at seed pos n.
Proof.
  unfold BLOCK. intros Hp Hn. pose proof (Z.mod_pos_bound pos 8 ltac:(lia)).
  apply list_eq. intros i. destruct (decide (i < n)%nat) as [Hi|Hi].
  - rewrite lookup_take_lt, lookup_drop, lookup_content_at by done.
    assert ((pos + Z.of_nat i) / 8 = pos / 8 /\ (pos + Z.of_nat i) mod 8 = pos mod 8 + Z.of_nat i)
      as [Hd Hm].
    { pose proof (Z.div_mod pos 8 ltac:(lia)).
      split; [symmetry; apply Z.div_unique with (pos mod 8 + Z.of_nat i); lia|].
      symmetry. apply Z.mod_unique with (pos / 8); lia. }
    unfold byte_at, BLOCK. rewrite Hd, Hm, Z2Nat.inj_add, Nat2Z.id by lia.
    destruct (block_at seed (pos / 8) !! (Z.to_nat (pos mod 8) + i)%nat) as [b|] eqn:E.
    + f_equal. symmetry. by apply nth_lookup_Some.
    + apply lookup_ge_None in E. rewrite length_block_at in E. lia.
  - rewrite !lookup_ge_None_2; [done|rewrite length_content_at; lia|].
    rewrite length_take, length_drop, length_block_at. lia.
Qed.

Lemma length_copy_at at_ b buf :
  (at_ + length b <= length buf)%nat -> length (copy_at at_ b buf) = length buf.
Proof. intros H. unfold copy_at. rewrite !length_app, length_take, length_drop. lia. Qed.

(** The loop ends within a round per byte left, having written the content. *)
Lemma fill_loop_spec fuel seed pos written buf :
  (written <= length buf)%nat -> (length buf - written <= fuel)%nat ->
  0 <= pos -> pos + Z.of_nat (length buf - written) <= 2 ^ 64 ->
  fill_loop fuel seed pos written buf =
    Some (take written buf ++ content_at seed pos (length buf - written)).
Proof.
  revert pos written buf. induction fuel as [|fuel IH]; intros pos written buf Hw Hf Hp H64;
    cbn [fill_loop]; destruct (Nat.leb_spec (length buf) written) as [Hle|Hlt].
  1, 3: replace (length buf - written)%nat with 0%nat by lia; rewrite take_ge by lia;
    by rewrite app_nil_r.
  { lia. }
  set (n := Nat.min _ _). pose proof (Z.mod_pos_bound pos 8 ltac:(lia)) as Hm.
  assert ((1 <= n <= length buf - written)%nat /\ Z.of_nat n <= BLOCK - pos mod BLOCK) as [Hn Hn8].
  { subst n. unfold BLOCK in *. lia. }
  clearbody n. rewrite block_content by done.
  assert (length (copy_at written (content_at seed pos n) buf) = length buf) as Hlen
    by (apply length_copy_at; rewrite length_content_at; lia).
  assert (wrap64 (pos + Z.of_nat n) = pos + Z.of_nat n \/ (length buf - (written + n) = 0)%nat) as Hpos.
  { destruct (decide (pos + Z.of_nat n < 2 ^ 64)); [left; apply wrap_small; width|right; lia]. }
  rewrite IH; rewrite ?Hlen; [|lia|lia|apply wrap_in_u; lia|].
  2: { destruct Hpos as [Hq | Hq]; rewrite Hq; [lia|]. pose proof (wrap_in_u 64 (pos + Z.of_nat n) ltac:(lia)). width. }
  f_equal. replace (length buf - written)%nat with (n + (length buf - (written + n)))%nat by lia.
  rewrite content_at_app, app_assoc. f_equal.
  - unfold copy_at. rewrite app_assoc, take_app_le, take_ge; [done|..];
      rewrite length_app, length_take, length_content_at; lia.
  - destruct Hpos as [Hq | Hq]; rewrite Hq; done.
Qed.

Lemma content_range_at seed offset n :
  0 <= offset -> offset + Z.of_nat n <= 2 ^ 64 ->
  content_range seed offset n = content_at seed offset n.
Proof.
  intros Ho H64. unfold content_range, fill.
  rewrite fill_loop_spec; rewrite ?length_replicate, ?Nat.sub_0_r; try done; lia.
Qed.

(** The content loop ends and is position independent.  For every buffer
    and offset the loop ends after at most one round per byte; the buffer then
    holds, at every place, the byte of the object at that absolute offset; and
    so a range read directly is the same span of any larger read around it. *)
Theorem content_position_independent seed offset buf a b :
  0 <= offset -> offset + len buf <= 2 ^ 64 -> 0 <= a <= b -> b <= len buf ->
  (exists out, fill_loop (length buf) seed offset 0 buf = Some out /\
     length out = length buf /\
     forall i, (i < length buf)%nat -> out !! i = Some (byte_at seed (offset + Z.of_nat i))) /\
  content_range seed (offset + a) (Z.to_nat (b - a)) =
    slice a b (content_range seed offset (length buf)).
Proof.
  unfold len. intros Ho H64 Hab Hb. split.
  - rewrite fill_loop_spec by lia. eexists. split; [done|]. rewrite Nat.sub_0_r.
    split; [apply length_content_at|]. intros i Hi. by apply lookup_content_at.
  - rewrite !content_range_at, slice_content_at by lia. done.
Qed.

Lemma content_position_independent_witness :
  content_range (seed_for (lit "obj-a")) 7 9 =
  slice 7 16 (content_range (seed_for (lit "obj-a")) 0 20).
Proof.
  apply (content_position_independent (seed_for (lit "obj-a")) 0 (replicate 20 x00) 7 16);
    vm_compute; intuition discriminate.
Defined.
