(* ===== verification/MockCdn.v ===== *)
(** * The mock origin

    Models [crates/cachic-testkit/src/mockcdn.rs]: the origin the proxy is
    tested against, with its counters, its ways to fail and its two ways to
    treat [Range].  Delays are recorded, not waited for.

    The theorems show that what the mock sends is what the orchestrator's
    correctness theorem asks of an origin: its answers to slice requests are
    [honest], whether it honours ranges or ignores them. *)

From S2P Require Import Prelude.
From S2P Require Import RustStr.
From S2P Require Import Codec.
From S2P Require Import Client.
From S2P Require Import Validators.
From S2P Require Import SliceCodec.
From S2P Require Import Index.
From S2P Require Import Range.
From S2P Require Import Orchestrator.
From S2P Require Import Server.
From S2P Require Import Content.

Open Scope Z_scope.

(** ** Configuration and counters *)

Inductive Failure := NoFailure | ServerError | Stall | Truncate | Reset.

(** [failure as u8]. *)
Definition failure_code (f : Failure) : Z :=
  match f with NoFailure => 0 | ServerError => 1 | Stall => 2 | Truncate => 3 | Reset => 4 end.

Inductive RangeBehaviour := Honour | Ignore.

#[export] Instance RangeBehaviour_eq_dec : EqDecision RangeBehaviour.
Proof. solve_decision. Defined.

Record Stats := mkStats {
  ms_requests : Z;
  ms_range_requests : Z;
  ms_bytes_served : Z }.

Definition stats_reset (s : Stats) : Stats := mkStats 0 0 0.

(** Delays in milliseconds. *)
Record Config := mkConfig {
  mc_range_behaviour : RangeBehaviour;
  mc_failure : Z;
  mc_etag_suffix : Z;
  mc_first_byte_delay : option Z;
  mc_chunk_delay : option Z }.

Definition mock_config_default : Config := mkConfig Honour 0 0 None None.

Definition set_failure (c : Config) (f : Failure) : Config :=
  mkConfig (mc_range_behaviour c) (failure_code f) (mc_etag_suffix c) (mc_first_byte_delay c)
    (mc_chunk_delay c).

Definition change_validators (c : Config) : Config :=
  mkConfig (mc_range_behaviour c) (mc_failure c) (wrap64 (mc_etag_suffix c + 1))
    (mc_first_byte_delay c) (mc_chunk_delay c).

Definition STREAM_CHUNK : Z := 256 * 1024.

(** ** Parsing *)

Definition object_path (name : str) (size : Z) : str :=
  lit "/o/" ++ name ++ lit "/" ++ to_dec size.

Definition parse_path (path : str) : option (Z * Z) :=
  rest ← strip_prefix (lit "/o/") path;
  '(name, size) ← rsplit_once x2f rest;
  size ← parse_u64 size;
  Some (seed_for name, size).

Definition parse_single_range (value : str) (total : Z) : option (Z * Z) :=
  spec ← strip_prefix (lit "bytes=") (trim value);
  if contains_byte x2c spec then None else
  '(start, end_) ← split_once x2d spec;
  match trim start, trim end_ with
  | [], suffix =>
      n ← parse_u64 suffix;
      if (n =? 0) || (total =? 0) then None else
      let n := Z.min n total in
      Some (total - n, total - 1)
  | s, [] =>
      start ← parse_u64 s;
      if total <=? start then None else Some (start, total - 1)
  | s, e =>
      start ← parse_u64 s;
      end_ ← parse_u64 e;
      if (end_ <? start) || (total <=? start) then None else Some (start, Z.min end_ (total - 1))
  end.

(** [{n:x}], and [{n:0width x}]. *)
Fixpoint hex_digits (fuel : nat) (n : Z) (acc : str) : str :=
  match fuel with
  | O => acc
  | S k =>
    let acc' := hex_digit (n mod 16) :: acc in
    if n <? 16 then acc' else hex_digits k (n / 16) acc'
  end.
Definition to_hex (n : Z) : str := hex_digits (S (Z.to_nat (Z.log2 n))) n [].
Definition to_hex_padded (width : nat) (n : Z) : str :=
  let h := to_hex n in replicate (width - length h) x30 ++ h.

Definition etag_for (seed size suffix : Z) : str :=
  quote ++ to_hex_padded 16 seed ++ lit "-" ++ to_hex size ++ lit "-" ++ to_hex suffix ++ quote.

(** ** Answers *)

(** What the origin hands to its HTTP library, and how long it waited first. *)
Record OriginResponse := mkOriginResponse {
  or_status : StatusCode;
  or_headers : HeaderMap;
  or_frames : list bytes;
  or_delay : Z }.

(** The body stream: [None] if it has not ended after [fuel] chunks. *)
Fixpoint stream_chunks (fuel : nat) (seed start len sent : Z) : option (list bytes) :=
  if len <=? sent then Some [] else
  match fuel with
  | O => None
  | S fuel' =>
      let n := Z.min STREAM_CHUNK (len - sent) in
      let chunk := content_range seed (wrap64 (start + sent)) (Z.to_nat n) in
      rest ← stream_chunks fuel' seed start len (sent + n);
      Some (chunk :: rest)
  end.

Definition chunk_count (len : Z) : nat := Z.to_nat ((len + STREAM_CHUNK - 1) / STREAM_CHUNK).

Definition bare (status : StatusCode) : OriginResponse := mkOriginResponse status [] [] 0.

(** The second half of [handle], once the range to send is known. *)
Definition body_length (size start end_ : Z) : Z :=
  if size =? 0 then 0 else wrap64 (wrap64 (end_ - start) + 1).

Definition serve_headers (config : Config) (seed size start end_ : Z) (partial : bool) : HeaderMap :=
  [(lit "content-type", lit "application/octet-stream");
   (lit "content-length", to_dec (body_length size start end_));
   (lit "etag", etag_for seed size (mc_etag_suffix config));
   (lit "accept-ranges",
      if bool_decide (mc_range_behaviour config = Honour) then lit "bytes" else lit "none")] ++
  (if partial
   then [(lit "content-range",
          lit "bytes " ++ to_dec start ++ lit "-" ++ to_dec end_ ++ lit "/" ++ to_dec size)]
   else []).

Definition serve_range (config : Config) (stats : Stats) (is_head : bool) (stalled : Z)
    (seed size start end_ : Z) (partial : bool) : OriginResponse * Stats :=
  let len := body_length size start end_ in
  let headers := serve_headers config seed size start end_ partial in
  let status := if partial then PARTIAL_CONTENT else OK_200 in
  let delay := stalled + default 0 (mc_first_byte_delay config) in
  if is_head || (len =? 0) then (mkOriginResponse status headers [] delay, stats) else
  (mkOriginResponse status headers
     (default [] (stream_chunks (chunk_count len) seed start len 0)) delay,
   mkStats (ms_requests stats) (ms_range_requests stats) (wrap64 (ms_bytes_served stats + len))).

(** [handle]: the answer and the counters.  [failure_later] is the failure mode
    when the body of a truncated response is polled. *)
Definition handle (config : Config) (failure_later : Z) (stats : Stats) (req : HttpRequest)
    : OriginResponse * Stats :=
  let stats := mkStats (wrap64 (ms_requests stats + 1)) (ms_range_requests stats) (ms_bytes_served stats) in
  let failure := mc_failure config in
  if failure =? 1 then (bare 503, stats) else
  if (failure =? 3) || (failure =? 4) then
    (mkOriginResponse OK_200 [(lit "content-length", lit "1000000")]
       (if failure_later =? 3 then [lit "partial"] else []) 0, stats) else
  let stalled := if failure =? 2 then 3600 * 1000 else 0 in
  match parse_path (rq_path req) with
  | None => (mkOriginResponse 404 [] [] stalled, stats)
  | Some (seed, size) =>
      match rq_method req with
      | OtherMethod _ => (mkOriginResponse 405 [] [] stalled, stats)
      | method =>
          let is_head := match method with HEAD => true | _ => false end in
          let raw_range := header_str (rq_headers req) (lit "range") in
          let stats :=
            match raw_range with
            | Some _ => mkStats (ms_requests stats) (wrap64 (ms_range_requests stats + 1)) (ms_bytes_served stats)
            | None => stats
            end in
          let requested :=
            r ← raw_range;
            if bool_decide (mc_range_behaviour config = Honour)
            then Some (r, parse_single_range r size) else None in
          match requested with
          | Some (raw, None) =>
              if starts_with (lit "bytes=") raw && negb (contains_byte x2c raw) then
                (mkOriginResponse 416 [(lit "content-range", lit "bytes */" ++ to_dec size)] [] stalled, stats)
              else serve_range config stats is_head stalled seed size 0 (sat_sub size 1) false
          | Some (_, Some (s, e)) => serve_range config stats is_head stalled seed size s e true
          | None => serve_range config stats is_head stalled seed size 0 (sat_sub size 1) false
          end
      end
  end.

(** ** The body stream *)

Lemma chunk_count_step len sent :
  0 <= sent < len ->
  let n := Z.min STREAM_CHUNK (len - sent) in
  (S (chunk_count (len - (sent + n))) <= chunk_count (len - sent))%nat.
Proof.
  intros Hs n. unfold chunk_count. subst n. unfold STREAM_CHUNK.
  set (c := 256 * 1024). assert (0 < c) by done. clearbody c.
  assert (1 <= (len - sent + c - 1) / c) by (apply Z.div_le_lower_bound; lia).
  destruct (Z.min_spec c (len - sent)) as [[Hlt ->]|[Hle ->]].
  - assert ((len - sent + c - 1) / c = (len - (sent + c) + c - 1) / c + 1).
    { replace (len - sent + c - 1) with (len - (sent + c) + c - 1 + 1 * c) by lia.
      by rewrite Z.div_add by lia. }
    assert (0 <= (len - (sent + c) + c - 1) / c) by (apply Z.div_pos; lia). lia.
  - replace (len - (sent + (len - sent)) + c - 1) with (c - 1) by lia.
    rewrite Z.div_small by lia. lia.
Qed.

(** The stream ends, and its chunks are the content asked for. *)
Lemma stream_chunks_spec fuel seed start len sent :
  0 <= start -> start + len <= 2 ^ 64 -> 0 <= sent <= len ->
  (chunk_count (len - sent) <= fuel)%nat ->
  exists frames, stream_chunks fuel seed start len sent = Some frames /\
    concat frames = content_at seed (start + sent) (Z.to_nat (len - sent)).
Proof.
  revert sent. induction fuel as [|fuel IH]; intros sent Hs H64 Hsent Hf;
    cbn [stream_chunks]; destruct (Z.leb_spec len sent) as [Hle|Hlt].
  1, 3: exists []; split; [done|]; by replace (len - sent) with 0 by lia.
  { pose proof (chunk_count_step len sent ltac:(lia)) as Hstep. cbn zeta in Hstep. lia. }
  pose proof (chunk_count_step len sent ltac:(lia)) as Hstep. cbn zeta in Hstep.
  set (n := Z.min STREAM_CHUNK (len - sent)) in *.
  assert (0 < n <= len - sent) as Hn by (subst n; unfold STREAM_CHUNK in *; lia). clearbody n.
  destruct (IH (sent + n)) as (frames & -> & Hc); [lia..|].
  rewrite (wrap_small 64 (start + sent)) by width.
  eexists. split; [reflexivity|]. cbn [concat]. rewrite Hc, content_range_at by lia.
  replace (Z.to_nat (len - sent)) with (Z.to_nat n + Z.to_nat (len - (sent + n)))%nat by lia.
  rewrite content_at_app. do 2 f_equal. lia.
Qed.

(** ** Ranges *)

(** The mock and the proxy read a [Range] header alike.  On every header
    and every length the mock's own parser returns exactly the range the
    proxy's parser and resolver return, and nothing when either of them
    fails. *)
Lemma parse_single_range_agrees value total :
  0 <= total ->
  parse_single_range value total =
    match parse_range value with
    | Ok spec =>
        match Range.resolve spec total with
        | Ok r => Some (br_start r, br_end r)
        | Err _ => None
        end
    | Err _ => None
    end.
Proof.
  intros Ht. unfold parse_single_range, parse_range.
  destruct (strip_prefix _ _) as [spec|]; [|done]. cbn.
  destruct (contains_byte _ _); [done|]. destruct (split_once _ _) as [[a b]|]; [|done]. cbn.
  destruct (trim a) as [|a0 a'], (trim b) as [|b0 b']; [done|..].
  - destruct (parse_u64 (b0 :: b')) as [n|] eqn:E; [|done]. cbn. unfold Range.resolve.
    apply parse_u64_range in E. case_bool; cbn; try done; lia.
  - destruct (parse_u64 (a0 :: a')) as [n|] eqn:E; [|done]. cbn. unfold Range.resolve.
    apply parse_u64_range in E. unfold in_u in E. case_bool; cbn; try done; lia.
  - destruct (parse_u64 (a0 :: a')) as [n|] eqn:E; [|done]. cbn.
    destruct (parse_u64 (b0 :: b')) as [m|] eqn:F; [|done]. cbn. unfold Range.resolve.
    apply parse_u64_range in E, F. unfold in_u in E, F. case_bool; cbn; try done; try lia.
Qed.

(** ** Header values *)

Lemma value_char_digit b : is_ascii_digit b = true -> value_char b = true.
Proof. rewrite is_ascii_digit_range. unfold value_char. lia. Qed.

Lemma to_dec_value n : 0 <= n -> forallb value_char (to_dec n) = true.
Proof.
  intros Hn. destruct (to_dec_spec n Hn) as (_ & Hd & _). apply forallb_forall. intros b Hb.
  apply value_char_digit. unfold all_digits in Hd. rewrite Forall_forall in Hd.
  by apply Hd, list_elem_of_In.
Qed.

Lemma hex_digit_value n : value_char (hex_digit (n mod 16)) = true.
Proof.
  pose proof (Z.mod_pos_bound n 16 ltac:(lia)). unfold hex_digit, value_char.
  rewrite Z_of_byte_of_Z. destruct (Z.ltb_spec (n mod 16) 10); rewrite Z.mod_small; lia.
Qed.

Lemma hex_digits_spec fuel n acc :
  forallb value_char acc = true ->
  forallb value_char (hex_digits fuel n acc) = true /\
  (length (hex_digits fuel n acc) <= fuel + length acc)%nat.
Proof.
  revert n acc. induction fuel as [|fuel IH]; intros n acc Ha; cbn [hex_digits]; [done|].
  assert (forallb value_char (hex_digit (n mod 16) :: acc) = true) as Ha'.
  { cbn [forallb]. by rewrite hex_digit_value. }
  destruct (n <? 16); [split; [done|cbn [length]; lia]|].
  destruct (IH (n / 16) _ Ha') as [H1 H2]. cbn [length] in H2. split; [done|lia].
Qed.

Lemma log2_u64 n : in_u 64 n -> (Z.to_nat (Z.log2 n) <= 63)%nat.
Proof.
  unfold in_u. intros Hn. destruct (decide (n = 0)) as [->|]; [cbn; lia|].
  assert (Z.log2 n < 64) by (apply Z.log2_lt_pow2; lia). lia.
Qed.

Lemma length_dec_digits fuel n acc : (length (dec_digits fuel n acc) <= fuel + length acc)%nat.
Proof.
  revert n acc. induction fuel as [|fuel IH]; intros n acc; cbn [dec_digits]; [done|].
  destruct (n <? 10); [cbn [length]; lia|]. etrans; [apply IH|]. cbn [length]. lia.
Qed.

(** A header value the mock sends: readable as a string and short. *)
Definition short_value (v : bytes) : Prop := forallb value_char v = true /\ (length v <= 256)%nat.

Lemma to_str_value v : forallb value_char v = true -> to_str v = Some v.
Proof. unfold to_str. by intros ->. Qed.

Lemma to_dec_short n : in_u 64 n -> short_value (to_dec n) /\ (length (to_dec n) <= 64)%nat.
Proof.
  intros Hn. assert (length (to_dec n) <= 64)%nat.
  { unfold to_dec. etrans; [apply length_dec_digits|]. pose proof (log2_u64 n Hn). cbn [length]. lia. }
  split; [|done]. split; [apply to_dec_value, Hn|lia].
Qed.

Lemma etag_for_short seed size suffix :
  in_u 64 seed -> in_u 64 size -> in_u 64 suffix -> short_value (etag_for seed size suffix).
Proof.
  intros H1 H2 H3.
  assert (forall n, in_u 64 n ->
    forallb value_char (to_hex n) = true /\ (length (to_hex n) <= 64)%nat) as Hh.
  { intros n Hn. unfold to_hex. destruct (hex_digits_spec (S (Z.to_nat (Z.log2 n))) n [] eq_refl) as [A B].
    pose proof (log2_u64 n Hn). cbn [length] in B. split; [done|lia]. }
  destruct (Hh _ H1) as [A1 B1], (Hh _ H2) as [A2 B2], (Hh _ H3) as [A3 B3].
  unfold etag_for, to_hex_padded. split.
  - rewrite !forallb_app, A1, A2, A3. cbn [quote forallb lit]. rewrite andb_true_r.
    assert (forall k, forallb value_char (replicate k x30) = true) as -> by (induction k; done).
    done.
  - rewrite !length_app, length_replicate. cbn [quote length].
    change (length (lit "-")) with 1%nat. lia.
Qed.

(** ** Honest answers *)

Lemma parse_path_object name size :
  in_u 64 size -> parse_path (object_path name size) = Some (seed_for name, size).
Proof.
  intros Hs. unfold parse_path, object_path. rewrite strip_prefix_app. cbn -[rsplit_once].
  destruct (to_dec_spec size (proj1 Hs)) as (_ & Hd & _).
  rewrite (proj2 (rsplit_once_Some x2f (name ++ lit "/" ++ to_dec size) name (to_dec size))).
  - cbn. by rewrite parse_u64_to_dec.
  - split; [done|]. by apply digits_no_byte.
Qed.

(** The range header of a slice request reads back as its range, cut at the
    end of the object. *)
Lemma parse_single_range_header start end_ total :
  0 <= start <= end_ -> in_u 64 end_ -> start < total ->
  parse_single_range (range_header start end_) total = Some (start, Z.min end_ (total - 1)).
Proof.
  unfold in_u. intros Hs He Ht.
  rewrite parse_single_range_agrees, parse_range_header_roundtrip by (unfold in_u; lia).
  unfold Range.resolve. case_bool; try lia. done.
Qed.

Definition object_bytes (name : str) (size : Z) : bytes :=
  content_at (seed_for name) 0 (Z.to_nat size).

Lemma seed_for_u64 name : in_u 64 (seed_for name).
Proof.
  unfold seed_for. generalize 0xcbf29ce484222325 (conj eq_refl eq_refl :
    (0 <=? 0xcbf29ce484222325) = true /\ (0xcbf29ce484222325 <? 2 ^ 64) = true).
  induction name as [|b name IH]; intros h Hh; cbn [foldl].
  - unfold in_u. lia.
  - apply IH. pose proof (wrap_in_u 64 (Z.lxor h (Z_of_byte b) * 0x00000100000001B3) ltac:(lia)).
    unfold seed_step. unfold in_u in *. split; lia.
Qed.

(** [GET] of a byte range of an object, and of a whole object. *)
Definition slice_request (name : str) (size : Z) (hdrs : HeaderMap) (start end_ : Z) : HttpRequest :=
  mkHttpRequest GET (object_path name size) (Some (object_path name size))
    (range_request_headers hdrs start end_).
Definition object_request (name : str) (size : Z) (hdrs : HeaderMap) : HttpRequest :=
  mkHttpRequest GET (object_path name size) (Some (object_path name size)) hdrs.

Lemma range_value_str hdrs start end_ :
  0 <= start -> 0 <= end_ ->
  header_str (range_request_headers hdrs start end_) (lit "range") = Some (range_header start end_).
Proof.
  intros Hs He. unfold header_str, header_get, range_request_headers. cbn [find fst].
  rewrite bool_decide_true by done. apply to_str_value.
  unfold range_header. rewrite !forallb_app, !to_dec_value by done. done.
Qed.

Lemma handle_slice config fl stats name size hdrs start end_ :
  mc_failure config = 0 -> in_u 64 size -> 0 <= start <= end_ -> in_u 64 end_ -> start < size ->
  exists stats',
    (handle config fl stats (slice_request name size hdrs start end_)).1 =
    match mc_range_behaviour config with
    | Honour => (serve_range config stats' false 0 (seed_for name) size start (Z.min end_ (size - 1)) true).1
    | Ignore => (serve_range config stats' false 0 (seed_for name) size 0 (size - 1) false).1
    end.
Proof.
  intros Hf Hs Hse He Hlt. unfold handle. rewrite Hf. cbn [Z.eqb orb].
  cbn [slice_request rq_path rq_method rq_headers]. rewrite parse_path_object, range_value_str by (done || lia).
  cbn [mbind option_bind]. eexists. destruct (mc_range_behaviour config).
  - rewrite bool_decide_true by done. rewrite parse_single_range_header by (done || lia). reflexivity.
  - rewrite bool_decide_false by done. unfold sat_sub. rewrite Z.max_r by lia. reflexivity.
Qed.

Lemma serve_range_spec config stats seed size start end_ partial :
  in_u 64 size -> 0 <= start <= end_ -> end_ < size ->
  body_length size start end_ = end_ - start + 1 /\
  exists frames delay,
    (serve_range config stats false 0 seed size start end_ partial).1 =
      mkOriginResponse (if partial then PARTIAL_CONTENT else OK_200)
        (serve_headers config seed size start end_ partial) frames delay /\
    concat frames = content_at seed start (Z.to_nat (end_ - start + 1)).
Proof.
  intros Hs Hse Hlt. unfold in_u in Hs.
  assert (body_length size start end_ = end_ - start + 1) as Hl.
  { unfold body_length. destruct (Z.eqb_spec size 0); [lia|].
    rewrite (wrap_small 64 (end_ - start)) by width. apply wrap_small. width. }
  split; [done|]. unfold serve_range. rewrite Hl. destruct (Z.eqb_spec (end_ - start + 1) 0); [lia|].
  cbn [orb fst].
  destruct (stream_chunks_spec (chunk_count (end_ - start + 1)) seed start (end_ - start + 1) 0)
    as (frames & -> & Hc); [lia|lia|lia|by rewrite Z.sub_0_r|].
  rewrite Z.sub_0_r, Z.add_0_r in Hc. eexists _, _. split; [reflexivity|done].
Qed.

(** What the HTTP libraries promise in between: status, headers and body arrive
    as sent.  The body may be cut into other chunks, and the server adds a
    [date]. *)
Record delivers (o : OriginResponse) (raw : RawResponse) : Prop := {
  dl_status : raw_status raw = or_status o;
  dl_headers : exists extra, raw_headers raw = or_headers o ++ extra /\
    Forall (fun p => p.1 = lit "date" /\ len p.2 < u32_max) extra;
  dl_length : raw_content_length raw = header_str (or_headers o) (lit "content-length") ≫= parse_u64;
  dl_body : exists cs, raw_chunks raw = map Ok cs /\ concat cs = concat (or_frames o) }.

Lemma buffer_body_fits url limit body cs :
  len body + len (concat cs) <= limit ->
  buffer_body url limit body (map Ok cs) = Ok (body ++ concat cs).
Proof.
  revert body. induction cs as [|c cs IH]; intros body Hl; cbn [map buffer_body concat].
  - by rewrite app_nil_r.
  - cbn [concat] in Hl. rewrite len_app in Hl. pose proof (len_nonneg (concat cs)).
    destruct (Z.ltb_spec limit (len body + len c)); [lia|].
    rewrite IH by (rewrite len_app; lia). by rewrite app_assoc.
Qed.

Lemma accept_partial cfg url start end_ raw n cs :
  raw_status raw = PARTIAL_CONTENT -> raw_content_length raw = Some n -> raw_chunks raw = map Ok cs ->
  len (concat cs) = n -> n <= body_limit cfg start end_ ->
  accept_range cfg url start end_ raw =
    Ok (mkUpstreamResponse PARTIAL_CONTENT (raw_headers raw) (concat cs)).
Proof.
  intros Hs Hl Hc Hn Hlim. unfold accept_range. rewrite Hs, Hl, Hc. cbn -[body_limit buffer_body].
  destruct (Z.ltb_spec (body_limit cfg start end_) n); [lia|].
  by rewrite buffer_body_fits by (rewrite Hn; unfold len; cbn [length]; lia).
Qed.

Lemma accept_whole cfg url start end_ raw :
  raw_status raw = OK_200 ->
  accept_range cfg url start end_ raw = Ok (mkUpstreamResponse OK_200 (raw_headers raw) []).
Proof. intros Hs. unfold accept_range. by rewrite Hs. Qed.

Lemma header_get_app_date h extra name :
  Forall (fun p : str * bytes => p.1 = lit "date" /\ len p.2 < u32_max) extra -> name <> lit "date" ->
  header_get (h ++ extra) name = header_get h name.
Proof.
  intros He Hn. unfold header_get. induction h as [|p h IH]; cbn [app find].
  - induction He as [|p extra [Hp _] _ IHe]; [done|]. cbn [find].
    rewrite bool_decide_false by congruence. done.
  - destruct (bool_decide _); [done|exact IH].
Qed.

Lemma header_get_elem h name v : header_get h name = Some v -> (name, v) ∈ h.
Proof.
  unfold header_get. intros H. apply fmap_Some in H as ([n w] & Hf & ->).
  apply find_some in Hf as [Hin Heq]. apply bool_decide_eq_true in Heq. cbn in Heq. subst n.
  by apply list_elem_of_In.
Qed.

(** The versions the mock ever has of an object: its bytes never change, its
    entity tag does. *)
Definition mock_versions (origin : ObjectId -> option (str * Z)) (o : ObjectId) (w : Version) : Prop :=
  exists name size suffix, origin o = Some (name, size) /\
    vr_content w = object_bytes name size /\
    vr_validators w = mkValidators (Some (etag_for (seed_for name) size suffix)) None.

Lemma mock_identified origin o w1 w2 :
  mock_versions origin o w1 -> mock_versions origin o w2 ->
  matches (vr_validators w1) (vr_validators w2) = true -> vr_content w1 = vr_content w2.
Proof. intros (n & s & k & E & -> & _) (n' & s' & k' & E' & -> & _) _. congruence. Qed.

Lemma slice_payload_object name size i ss :
  0 <= i < 2 ^ 32 -> 0 < ss < 2 ^ 32 -> i * ss < size ->
  slice_payload i ss (object_bytes name size) =
    content_at (seed_for name) (i * ss) (Z.to_nat (Z.min (i * ss + ss) size - i * ss)).
Proof.
  intros Hi Hss Hlt. assert (len (object_bytes name size) = size) as Hl.
  { unfold len, object_bytes. rewrite length_content_at. lia. }
  unfold slice_payload. rewrite Hl, slice_extent_exact by lia. cbn [br_start br_end].
  unfold object_bytes. rewrite slice_content_at by lia. do 2 f_equal; lia.
Qed.

Lemma serve_headers_short config seed size start end_ partial :
  in_u 64 seed -> in_u 64 size -> in_u 64 (mc_etag_suffix config) -> 0 <= start <= end_ -> end_ < size ->
  in_u 64 (body_length size start end_) ->
  Forall (fun p => short_value p.2) (serve_headers config seed size start end_ partial).
Proof.
  intros Hseed Hsize Hk Hse He Hl.
  assert (forall v, bool_decide (forallb value_char v = true /\ (length v <= 256)%nat) = true ->
    short_value v) as Hlit by (intros v Hv; by apply bool_decide_eq_true in Hv).
  unfold in_u in Hsize.
  destruct (to_dec_short start) as [[Hs1 _] Hs2]; [unfold in_u; lia|].
  destruct (to_dec_short end_) as [[He1 _] He2]; [unfold in_u; lia|].
  destruct (to_dec_short size) as [[Ht1 _] Ht2]; [unfold in_u; lia|].
  unfold serve_headers. apply Forall_app. split.
  - repeat (apply Forall_cons; split); cbn [snd]; [by apply Hlit|by apply to_dec_short|
      by apply etag_for_short|destruct (bool_decide _); by apply Hlit|constructor].
  - destruct partial; [|constructor]. apply Forall_cons. split; [|constructor]. split; cbn [snd].
    + rewrite !forallb_app, Hs1, He1, Ht1. done.
    + rewrite !length_app. change (length (lit "bytes ")) with 6%nat.
      change (length (lit "-")) with 1%nat. change (length (lit "/")) with 1%nat. lia.
Qed.

Lemma serve_headers_length config seed size start end_ partial n :
  body_length size start end_ = n -> 0 <= n ->
  header_str (serve_headers config seed size start end_ partial) (lit "content-length") = Some (to_dec n).
Proof. intros <- Hn. by apply to_str_value, to_dec_value. Qed.

Lemma delivered_small h extra :
  Forall (fun p => short_value p.2) h ->
  Forall (fun p : str * bytes => p.1 = lit "date" /\ len p.2 < u32_max) extra ->
  forall status body, headers_small (mkUpstreamResponse status (h ++ extra) body).
Proof.
  intros Hh He status body name v Hv. unfold response_header, header_str in Hv. cbn [up_headers] in Hv.
  apply bind_Some in Hv as (v' & Hg & Hs). unfold to_str in Hs.
  destruct (forallb value_char v'); [|done]. injection Hs as <-.
  apply header_get_elem, elem_of_app in Hg as [Hin|Hin].
  - rewrite Forall_forall in Hh. destruct (Hh _ Hin) as [_ Hl]. cbn [snd] in Hl. unfold len.
    assert (256 < u32_max) by done. lia.
  - rewrite Forall_forall in He. by destruct (He _ Hin).
Qed.

(** Where the orchestrator asks for slice [index]: with the end of the slice
    ([probe]) or of the object ([slice]), whichever it knows. *)
Definition asks_slice (ss index size end_ : Z) : Prop :=
  index * ss <= end_ /\ Z.min end_ (size - 1) = Z.min (index * ss + ss) size - 1.

Section Honest.
Context (origin : ObjectId -> option (str * Z)) (ss : Z) (cfg : ClientConfig).
Context (Hss : 0 < ss < 2 ^ 32) (Hmax : ss <= cc_max_body_bytes cfg).

(** The headers the orchestrator reads, as they arrive. *)
Lemma delivered_headers config seed size start end_ partial extra status body :
  in_u 64 seed -> in_u 64 size -> in_u 64 (mc_etag_suffix config) -> 0 <= start <= end_ -> end_ < size ->
  body_length size start end_ = end_ - start + 1 ->
  Forall (fun p : str * bytes => p.1 = lit "date" /\ len p.2 < u32_max) extra ->
  let r := mkUpstreamResponse status (serve_headers config seed size start end_ partial ++ extra) body in
  headers_small r /\
  response_validators r = mkValidators (Some (etag_for seed size (mc_etag_suffix config))) None /\
  content_length r = Some (end_ - start + 1) /\
  (partial = true -> content_range_total r = Some size).
Proof using Type.
  intros Hseed Hsize Hk Hse He Hl Hx r.
  assert (in_u 64 (end_ - start + 1)) as Hn by width.
  pose proof (serve_headers_short config seed size start end_ partial Hseed Hsize Hk Hse He
    ltac:(by rewrite Hl)) as Hshort.
  split; [by apply delivered_small|].
  assert (forall name, name <> lit "date" -> response_header r name =
    header_str (serve_headers config seed size start end_ partial) name) as Hget.
  { intros name Hne. unfold response_header, header_str, r. cbn [up_headers].
    by rewrite header_get_app_date. }
  split; [|split].
  - unfold response_validators. rewrite !Hget by done. f_equal; [|by destruct partial].
    apply to_str_value. by apply etag_for_short.
  - unfold content_length. rewrite Hget, (serve_headers_length _ _ _ _ _ _ _ Hl) by (done || lia). cbn [mbind option_bind].
    destruct (to_dec_spec (end_ - start + 1)) as (_ & Hd & _); [lia|].
    rewrite trim_visible by eauto with cachic. by apply parse_u64_to_dec.
  - intros ->. unfold content_range_total. rewrite Hget by done.
    set (v := lit "bytes " ++ to_dec start ++ lit "-" ++ to_dec end_ ++ lit "/" ++ to_dec size).
    assert (header_str (serve_headers config seed size start end_ true) (lit "content-range") = Some v) as ->.
    { apply to_str_value. subst v. unfold in_u in Hsize. rewrite !forallb_app, !to_dec_value by lia. done. }
    destruct (to_dec_spec size (proj1 Hsize)) as (_ & Hd & _).
    cbn [mbind option_bind]. rewrite (proj2 (rsplit_once_Some x2f v
      (lit "bytes " ++ to_dec start ++ lit "-" ++ to_dec end_) (to_dec size))).
    + cbn [mbind option_bind]. rewrite trim_visible by eauto with cachic. by apply parse_u64_to_dec.
    + split; [subst v; by rewrite <- !app_assoc|]. by apply digits_no_byte.
Qed.

(** The mock's answer to a slice request is accepted, and honest. *)
Lemma mock_honest config fl stats o name size hdrs index end_ url raw :
  origin o = Some (name, size) -> in_u 64 size -> in_u 64 (mc_etag_suffix config) ->
  mc_failure config = 0 ->
  0 <= index < 2 ^ 32 -> index * ss < size -> in_u 64 end_ -> asks_slice ss index size end_ ->
  delivers (handle config fl stats (slice_request name size hdrs (index * ss) end_)).1 raw ->
  exists r, accept_range cfg url (index * ss) end_ raw = Ok r /\
    honest ss (mock_versions origin) o index r.
Proof using Hss Hmax.
  intros Ho Hsize Hk Hf Hi Hlt He [Hse Hend] [Dst (extra & Dh & Dx) Dl (cs & Dc & Db)].
  pose proof (seed_for_u64 name) as Hseed.
  set (w := mkVersion (object_bytes name size)
    (mkValidators (Some (etag_for (seed_for name) size (mc_etag_suffix config))) None)).
  assert (mock_versions origin o w) as Hw by (exists name, size, (mc_etag_suffix config); done).
  assert (len (vr_content w) = size) as Hlen.
  { unfold len. cbn [w vr_content]. unfold object_bytes. rewrite length_content_at. width. }
  destruct (handle_slice config fl stats name size hdrs (index * ss) end_) as [stats' Hr]; [done..|nia|done|done|].
  rewrite Hr in Dst, Dh, Dl, Db. clear Hr.
  destruct (mc_range_behaviour config).
  - rewrite Hend in *. set (e := Z.min (index * ss + ss) size - 1) in *.
    assert (index * ss <= e < size /\ e - index * ss + 1 <= ss /\ e <= end_) as (He1 & He2 & He3) by lia.
    destruct (serve_range_spec config stats' (seed_for name) size (index * ss) e true)
      as (Hbl & frames & delay & Hr & Hc); [done|nia|lia|].
    rewrite Hr in Dst, Dh, Dl, Db. cbn [or_status or_headers or_frames] in *.
    destruct (delivered_headers config (seed_for name) size (index * ss) e true extra PARTIAL_CONTENT
      (concat cs)) as (Hsmall & Hval & _ & Htot); [done..|nia|lia|done|done|].
    assert (len (concat cs) = e - index * ss + 1) as Hbody.
    { unfold len. rewrite Db, Hc, length_content_at. lia. }
    assert (e - index * ss + 1 <= body_limit cfg (index * ss) end_) as Hlim.
    { unfold body_limit, RANGE_SLACK. width. }
    rewrite (serve_headers_length _ _ _ _ _ _ _ Hbl) in Dl by lia.
    cbn [mbind option_bind] in Dl. rewrite parse_u64_to_dec in Dl by width.
    rewrite (accept_partial cfg url (index * ss) end_ raw _ cs Dst Dl Dc Hbody Hlim), Dh.
    eexists. split; [reflexivity|]. split; [done|]. exists w. split; [done|]. split; [exact Hval|].
    change (PARTIAL_CONTENT =? PARTIAL_CONTENT) with true. cbn [up_status up_body app]. split.
    + rewrite Db, Hc. cbn [w vr_content].
      rewrite slice_payload_object by done. f_equal. lia.
    + intros t Ht. rewrite Hlen. specialize (Htot eq_refl). cbn [app] in Ht. congruence.
  - destruct (serve_range_spec config stats' (seed_for name) size 0 (size - 1) false)
      as (Hbl & frames & delay & Hr & Hc); [done|nia|lia|].
    rewrite Hr in Dst, Dh, Dl, Db. cbn [or_status or_headers or_frames] in *.
    destruct (delivered_headers config (seed_for name) size 0 (size - 1) false extra OK_200 [])
      as (Hsmall & Hval & Hcl & _); [done..|nia|lia|done|done|].
    rewrite (accept_whole cfg url (index * ss) end_ raw Dst), Dh. eexists. split; [reflexivity|]. split; [done|]. exists w. split; [done|]. split; [exact Hval|].
    cbn [up_status]. change (OK_200 =? PARTIAL_CONTENT) with false. cbv iota. split; [done|].
    intros t Ht. rewrite Hlen, Hcl in *. injection Ht as <-. lia.
Qed.

(** What a fill streams from the mock is the object. *)
Lemma mock_stream config fl stats name size hdrs raw :
  in_u 64 size -> 0 < size -> mc_failure config = 0 -> header_str hdrs (lit "range") = None ->
  delivers (handle config fl stats (object_request name size hdrs)).1 raw ->
  exists cs, raw_chunks raw = map Ok cs /\ concat cs = object_bytes name size.
Proof using Type.
  intros Hsize Hpos Hf Hno [_ _ _ (cs & Dc & Db)]. exists cs. split; [done|]. rewrite Db.
  unfold handle. rewrite Hf. cbn [Z.eqb orb].
  cbn [object_request rq_path rq_method rq_headers]. rewrite parse_path_object, Hno by done.
  cbn [mbind option_bind]. unfold sat_sub. rewrite Z.max_r by lia.
  match goal with |- context [serve_range config ?s _ _ _ _ _ _ _] =>
    destruct (serve_range_spec config s (seed_for name) size 0 (size - 1) false)
      as (_ & frames & delay & -> & Hc); [done|lia|lia|] end.
  cbn [or_frames]. rewrite Hc. unfold object_bytes. f_equal. lia.
Qed.
End Honest.
