(* ===== verification/Differ.v ===== *)
(** * The differential tester

    Models [crates/cachic-testkit/src/differ.rs]: the random generator, the
    cases it draws and the comparison of a response with what the origin would
    have sent.  The theorems show that every case drawn is a range of the
    object, and that the comparison accepts exactly the right bytes and
    otherwise points at the first wrong one. *)

From S2P Require Import Prelude.
From S2P Require Import RustStr.
From S2P Require Import Range.
From S2P Require Import Content.

Open Scope Z_scope.

(** ** The generator of random numbers *)

Definition Rng := Z.

(** [next_u64]: the value drawn and the new state. *)
Definition next_u64 (r : Rng) : Z * Rng :=
  let r := wrap64 (r + 0x9E3779B97F4A7C15) in
  let z := r in
  let z := wrap64 (Z.lxor z (Z.shiftr z 30) * 0xBF58476D1CE4E5B9) in
  let z := wrap64 (Z.lxor z (Z.shiftr z 27) * 0x94D049BB133111EB) in
  (Z.lxor z (Z.shiftr z 31), r).

Definition below (r : Rng) (n : Z) : Z * Rng :=
  if n =? 0 then (0, r) else let '(v, r) := next_u64 r in (v mod n, r).

(** ** Cases *)

Record Case := mkCase {
  ca_object : str;
  ca_size : Z;
  ca_start : Z;
  ca_end : Z }.

Definition case_len (c : Case) : Z := wrap64 (wrap64 (ca_end c - ca_start c) + 1).

Definition case_range_header (c : Case) : str :=
  lit "bytes=" ++ to_dec (ca_start c) ++ lit "-" ++ to_dec (ca_end c).

Record Generator := mkGenerator {
  ge_rng : Rng;
  ge_objects : Z;
  ge_size : Z;
  ge_slice_size : Z }.

Definition generator_new (seed objects size slice_size : Z) : Generator :=
  mkGenerator seed (Z.max objects 1) size slice_size.

Definition set_rng (g : Generator) (r : Rng) : Generator :=
  mkGenerator r (ge_objects g) (ge_size g) (ge_slice_size g).

Definition div_ceil (a b : Z) : Z := if a mod b =? 0 then a / b else a / b + 1.

Definition boundary_range (r : Rng) (s size : Z) : (Z * Z) * Rng :=
  let last := wrap64 (size - 1) in
  let '(which, r) := below r 6 in
  if which =? 0 then ((0, 0), r)
  else if which =? 1 then ((last, last), r)
  else if which =? 2 then ((0, last), r)
  else if which =? 3 then
    let '(index, r) := below r (div_ceil size s) in
    let start := wrap64 (index * s) in
    ((Z.min start last, Z.min (wrap64 (wrap64 (start + s) - 1)) last), r)
  else if which =? 4 then
    let '(k, r) := below r (wrap64 (Z.max (div_ceil size s) 2 - 1)) in
    let index := wrap64 (1 + k) in
    let edge := Z.min (wrap64 (index * s)) last in
    ((sat_sub edge 1, Z.min edge last), r)
  else ((wrap64 (last / s * s), last), r).

(** The range of [next_case]: a boundary one time in three. *)
Definition pick_range (r : Rng) (s size : Z) : (Z * Z) * Rng :=
  let '(which, r) := below r 3 in
  if which =? 0 then boundary_range r s size
  else
    let '(start, r) := below r size in
    let '(l, r) := below r (wrap64 (size - start)) in
    let l := wrap64 (1 + l) in
    ((start, wrap64 (wrap64 (start + l) - 1)), r).

Definition next_case (g : Generator) : Case * Generator :=
  let '(k, r) := below (ge_rng g) (ge_objects g) in
  let object := lit "obj-" ++ to_dec k in
  let size := ge_size g in
  let '((start, end_), r) := pick_range r (ge_slice_size g) size in
  (mkCase object size start (Z.min end_ (wrap64 (size - 1))), set_rng g r).

(** ** Comparison *)

Record Mismatch := mkMismatch {
  mm_seed : Z;
  mm_case : Case;
  mm_offset : Z;
  mm_expected : byte;
  mm_actual : byte;
  mm_actual_len : Z }.

(** [a.iter().zip(b).position(|(a, b)| a != b)]. *)
Fixpoint first_difference (a b : bytes) : option nat :=
  match a, b with
  | x :: a', y :: b' =>
      if bool_decide (x = y) then S <$> first_difference a' b' else Some 0%nat
  | _, _ => None
  end.

Definition compare (seed : Z) (case : Case) (actual : bytes) : result Mismatch unit :=
  let expected :=
    content_range (seed_for (ca_object case)) (ca_start case) (Z.to_nat (case_len case)) in
  let at_ (l : bytes) (i : nat) := default x00 (l !! i) in
  match first_difference expected actual with
  | Some i =>
      Err (mkMismatch seed case (Z.of_nat i) (at_ expected i) (at_ actual i) (len actual))
  | None =>
      if negb (len actual =? len expected) then
        let i := Nat.min (length actual) (length expected) in
        Err (mkMismatch seed case (Z.of_nat i) (at_ expected i) (at_ actual i) (len actual))
      else Ok tt
  end.

(** ** Every case is a range of the object *)

Definition generator_ok (g : Generator) : Prop :=
  1 <= ge_objects g /\ 0 < ge_size g /\ 0 < ge_slice_size g /\ ge_size g + ge_slice_size g <= 2 ^ 64.

Definition case_ok (g : Generator) (c : Case) : Prop :=
  ca_size c = ge_size g /\ 0 <= ca_start c <= ca_end c /\ ca_end c < ge_size g /\
  exists k, 0 <= k < ge_objects g /\ ca_object c = lit "obj-" ++ to_dec k.

Lemma below_spec r n : 0 < n -> 0 <= (below r n).1 < n.
Proof.
  intros Hn. unfold below. destruct (Z.eqb_spec n 0); [lia|]. cbn. by apply Z.mod_pos_bound.
Qed.

Lemma div_ceil_spec a b : 0 < a -> 0 < b -> 1 <= div_ceil a b /\ (div_ceil a b - 1) * b < a.
Proof.
  intros Ha Hb. unfold div_ceil. pose proof (Z.div_mod a b ltac:(lia)).
  pose proof (Z.mod_pos_bound a b Hb). pose proof (Z.div_pos a b ltac:(lia) Hb).
  destruct (Z.eqb_spec (a mod b) 0); nia.
Qed.

Lemma boundary_range_spec r s size :
  0 < size -> 0 < s -> size + s <= 2 ^ 64 ->
  let '((start, end_), _) := boundary_range r s size in 0 <= start <= end_ /\ end_ < size.
Proof.
  intros Hsize Hs H64. unfold boundary_range.
  rewrite (wrap_small 64 (size - 1)) by width.
  destruct (below r 6) as [which r1]. destruct (div_ceil_spec size s) as [Hc1 Hc2]; [done..|].
  destruct (which =? 0); [lia|]. destruct (which =? 1); [lia|]. destruct (which =? 2); [lia|].
  destruct (which =? 3).
  { pose proof (below_spec r1 (div_ceil size s) ltac:(lia)) as Hi.
    destruct (below r1 (div_ceil size s)) as [index r2]. cbn [fst] in Hi.
    assert (0 <= index * s < size) by nia.
    rewrite (wrap_small 64 (index * s)) by width.
    rewrite (wrap_small 64 (index * s + s)) by width. rewrite wrap_small by width. lia. }
  destruct (which =? 4).
  { assert (div_ceil size s <= size) by nia.
    rewrite (wrap_small 64 (Z.max (div_ceil size s) 2 - 1)) by width.
    pose proof (below_spec r1 (Z.max (div_ceil size s) 2 - 1) ltac:(lia)) as Hk.
    destruct (below r1 _) as [k r2]. cbn [fst] in Hk.
    rewrite (wrap_small 64 (1 + k)) by width.
    assert (0 < (1 + k) * s < 2 ^ 64) by nia.
    rewrite wrap_small by width. unfold sat_sub. lia. }
  pose proof (Z.div_mod (size - 1) s ltac:(lia)). pose proof (Z.mod_pos_bound (size - 1) s Hs).
  pose proof (Z.div_pos (size - 1) s ltac:(lia) Hs).
  rewrite wrap_small by (unfold in_u; nia). nia.
Qed.

Lemma pick_range_spec r s size :
  0 < size -> 0 < s -> size + s <= 2 ^ 64 ->
  let '((start, end_), _) := pick_range r s size in 0 <= start <= end_ /\ end_ < size.
Proof.
  intros Hsize Hs H64. unfold pick_range. destruct (below r 3) as [which r1].
  destruct (which =? 0); [by apply boundary_range_spec|].
  pose proof (below_spec r1 size Hsize) as Hst.
  destruct (below r1 size) as [start r2]. cbn [fst] in Hst.
  rewrite (wrap_small 64 (size - start)) by width.
  pose proof (below_spec r2 (size - start) ltac:(lia)) as Hl.
  destruct (below r2 _) as [l r3]. cbn [fst] in Hl.
  rewrite (wrap_small 64 (1 + l)) by width. rewrite (wrap_small 64 (start + (1 + l))) by width.
  rewrite wrap_small by width. lia.
Qed.

Lemma next_case_spec g :
  generator_ok g -> case_ok g (next_case g).1 /\ exists r, (next_case g).2 = set_rng g r.
Proof.
  intros (Ho & Hsize & Hs & H64). unfold next_case.
  pose proof (below_spec (ge_rng g) (ge_objects g) ltac:(lia)) as Hk.
  destruct (below (ge_rng g) (ge_objects g)) as [k r1]. cbn [fst] in Hk.
  pose proof (pick_range_spec r1 _ _ Hsize Hs H64) as Hp.
  destruct (pick_range _ _ _) as [[start end_] r3]. rewrite (wrap_small 64 (ge_size g - 1)) by width.
  cbn [fst snd]. split; [|by eexists]. split; [done|]. cbn [ca_start ca_end ca_object].
  split; [lia|]. split; [lia|]. by exists k.
Qed.

(** The cases of a run, in order. *)
Fixpoint cases (n : nat) (g : Generator) : list Case :=
  match n with
  | O => []
  | S n' => let '(c, g) := next_case g in c :: cases n' g
  end.

(** The tester only asks for what exists.  For every seed, number of
    objects, size and slice size, every case of a run of any length names one
    of the objects and a non-empty range inside it, boundary cases included,
    without the arithmetic wrapping around. *)
Theorem cases_in_bounds n seed objects size slice_size c :
  0 < size -> 0 < slice_size -> size + slice_size <= 2 ^ 64 ->
  c ∈ cases n (generator_new seed objects size slice_size) ->
  ca_size c = size /\ 0 <= ca_start c <= ca_end c /\ ca_end c < size /\
  case_len c = ca_end c - ca_start c + 1 /\
  exists k, 0 <= k < Z.max objects 1 /\ ca_object c = lit "obj-" ++ to_dec k.
Proof.
  intros Hsize Hs H64 Hin. set (g := generator_new seed objects size slice_size) in *.
  assert (forall n r, c ∈ cases n (set_rng g r) -> case_ok g c) as Hall.
  { clear Hin n. induction n as [|n IH]; intros r; cbn [cases]; [by intros ?%elem_of_nil|].
    destruct (next_case_spec (set_rng g r)) as [Hc (r' & Hg)].
    { split; cbn; [lia|]. lia. }
    destruct (next_case (set_rng g r)) as [c0 g']. cbn [fst snd] in *. subst g'.
    intros [->|Hin]%elem_of_cons; [exact Hc|]. by eapply IH. }
  destruct (Hall n seed Hin) as (E & H1 & H2 & H3). cbn in E, H2, H3.
  split; [done|]. split; [done|]. split; [done|]. split; [|done].
  unfold case_len. rewrite (wrap_small 64 (ca_end c - ca_start c)) by width. apply wrap_small. width.
Qed.

(** ** The comparison is exact *)

Lemma first_difference_spec a b :
  match first_difference a b with
  | Some i => take i a = take i b /\ exists x y, a !! i = Some x /\ b !! i = Some y /\ x <> y
  | None => let n := Nat.min (length a) (length b) in take n a = take n b
  end.
Proof.
  revert b. induction a as [|x a IH]; intros [|y b]; cbn [first_difference]; try done.
  case_bool_decide as E.
  - subst y. specialize (IH b). destruct (first_difference a b) as [i|]; cbn [fmap option_fmap option_map].
    + destruct IH as [Ht Hx]. split; [cbn [take]; by rewrite Ht|done].
    + cbn zeta in *. cbn [length Nat.min take]. by rewrite IH.
  - split; [done|]. by exists x, y.
Qed.

(** The bytes a case asks for. *)
Definition expected_bytes (c : Case) : bytes :=
  content_at (seed_for (ca_object c)) (ca_start c) (Z.to_nat (case_len c)).

Lemma content_range_case c :
  0 <= ca_start c <= ca_end c -> ca_end c < ca_size c -> ca_size c <= 2 ^ 64 ->
  content_range (seed_for (ca_object c)) (ca_start c) (Z.to_nat (case_len c)) = expected_bytes c.
Proof.
  intros Hse He H64. apply content_range_at; [lia|]. unfold case_len.
  rewrite (wrap_small 64 (ca_end c - ca_start c)) by width.
  destruct (decide (ca_end c - ca_start c + 1 < 2 ^ 64)); [rewrite wrap_small by width; lia|].
  assert (ca_end c - ca_start c + 1 = 2 ^ 64) as -> by lia. unfold wrap. rewrite Z.mod_same by lia. lia.
Qed.

Lemma compare_expected seed c :
  0 <= ca_start c <= ca_end c -> ca_end c < ca_size c -> ca_size c <= 2 ^ 64 ->
  compare seed c (expected_bytes c) = Ok tt.
Proof.
  intros Hse He H64. unfold compare. rewrite content_range_case by done.
  assert (forall a, first_difference a a = None) as ->.
  { induction a as [|x a IH]; cbn [first_difference]; [done|]. by rewrite bool_decide_true, IH. }
  by rewrite Z.eqb_refl.
Qed.

(** The comparison accepts exactly the right bytes, and a reported
    mismatch is minimal.  On every case inside its object the comparison
    succeeds if and only if the response is exactly the content of the range;
    otherwise the offset it reports is the first at which the two differ:
    everything before agrees, and there the bytes differ or one of them has
    ended. *)
Theorem compare_exact seed c actual :
  0 <= ca_start c <= ca_end c -> ca_end c < ca_size c -> ca_size c <= 2 ^ 64 ->
  (compare seed c actual = Ok tt <-> actual = expected_bytes c) /\
  forall m, compare seed c actual = Err m ->
    let i := Z.to_nat (mm_offset m) in
    mm_seed m = seed /\ mm_case m = c /\ mm_actual_len m = len actual /\
    take i actual = take i (expected_bytes c) /\ actual !! i <> expected_bytes c !! i /\
    mm_actual m = default x00 (actual !! i) /\ mm_expected m = default x00 (expected_bytes c !! i).
Proof.
  intros Hse He H64. pose proof (content_range_case c Hse He H64) as Hexp.
  unfold compare. rewrite Hexp. set (e := expected_bytes c).
  pose proof (first_difference_spec e actual) as Hd. destruct (first_difference e actual) as [i|].
  - destruct Hd as (Ht & x & y & Hx & Hy & Hne). split.
    + split; [done|]. intros ->. congruence.
    + intros m [= <-]. cbn. rewrite Nat2Z.id. repeat (split; [done|]). split; [congruence|done].
  - cbn zeta in Hd. unfold len in *. destruct (Z.eqb_spec (Z.of_nat (length actual)) (Z.of_nat (length e))) as [El|El].
    + cbn [negb]. split; [|done]. split; [|done]. intros _.
      rewrite !take_ge in Hd by lia. by rewrite Hd.
    + cbn [negb]. split; [split; [done|]; intros ->; lia|]. intros m [= <-]. cbn. rewrite Nat2Z.id.
      repeat (split; [done|]). rewrite (Nat.min_comm (length actual)). split; [done|]. split; [|done].
      destruct (Nat.min_spec (length e) (length actual)) as [[Hlt ->]|[Hle ->]].
      * rewrite (lookup_ge_None_2 e) by lia. intros Hn. apply lookup_ge_None in Hn. lia.
      * rewrite (lookup_ge_None_2 actual) by lia. intros Hn. symmetry in Hn. apply lookup_ge_None in Hn. lia.
Qed.

Definition toy_case : Case := mkCase (lit "obj-0") 20 7 11.

Lemma compare_exact_witness :
  compare 1 toy_case (expected_bytes toy_case) = Ok tt /\
  exists m, compare 1 toy_case (lit "no") = Err m /\ mm_case m = toy_case.
Proof.
  destruct (compare_exact 1 toy_case (expected_bytes toy_case)) as [H1 _]; [cbn; lia..|].
  destruct (compare_exact 1 toy_case (lit "no")) as [_ H2]; [cbn; lia..|].
  split; [by apply H1|]. eexists. split; [vm_compute; reflexivity|]. eapply H2. vm_compute. reflexivity.
Defined.

Lemma cases_in_bounds_witness :
  exists c, c ∈ cases 1 (generator_new 7 3 100 16) /\ ca_size c = 100 /\ ca_end c < 100.
Proof.
  exists (next_case (generator_new 7 3 100 16)).1.
  assert ((next_case (generator_new 7 3 100 16)).1 ∈ cases 1 (generator_new 7 3 100 16)) as Hin
    by (cbn [cases]; destruct (next_case _); left).
  destruct (cases_in_bounds 1 7 3 100 16 _ ltac:(lia) ltac:(lia) ltac:(lia) Hin) as (H1 & _ & H2 & _).
  split; [exact Hin|]. split; [exact H1|exact H2].
Defined.
