(* ===== verification/Differential.v ===== *)
(** * The differential test, proved

    [crates/cachic-testkit] states the correctness of the cache as a test: what
    a client receives through the cache is what the origin would have sent.
    This file proves it of the models: the mock origin ([MockCdn]) answers the
    orchestrator's requests ([Orchestrator]) through the upstream client
    ([Client]) and the fill ([Filler], [ObjectFill]), requests interleave in
    any way, the origin's validators change at any time, and every response
    assembled passes the comparison of the tester ([Differ]). *)

From S2P Require Import Prelude.
From S2P Require Import RustStr.
From S2P Require Import Codec.
From S2P Require Import Client.
From S2P Require Import Validators.
From S2P Require Import SliceCodec.
From S2P Require Import Index.
From S2P Require Import Key.
From S2P Require Import Range.
From S2P Require Import Filler.
From S2P Require Import Orchestrator.
From S2P Require Import ObjectFill.
From S2P Require Import Server.
From S2P Require Import Content.
From S2P Require Import MockCdn.
From S2P Require Import Differ.

Open Scope Z_scope.

Section Differential.
Context {S T : Type} `{FoyerLaws S} `{RedbLaws T}.
(** The objects under test, by identifier, and the client's configuration. *)
Context (origin : ObjectId -> option (str * Z)) (ss : Z) (cfg : ClientConfig).
Context (Hss : 0 < ss < 2 ^ 32) (Hmax : ss <= cc_max_body_bytes cfg).
Context (Hsizes : forall o name size, origin o = Some (name, size) -> 0 < size <= u32_max * ss).

(** [r] is what the client made of a mock's answer to a request for slice
    [index] of [o], with whatever entity tag the mock had at that moment. *)
Definition slice_answer (o : ObjectId) (index : Z) (r : UpstreamResponse) : Prop :=
  exists name size config fl stats hdrs end_ url raw,
    origin o = Some (name, size) /\ in_u 64 (mc_etag_suffix config) /\ mc_failure config = 0 /\
    0 <= index < 2 ^ 32 /\ index * ss < size /\ in_u 64 end_ /\ asks_slice ss index size end_ /\
    delivers (MockCdn.handle config fl stats (slice_request name size hdrs (index * ss) end_)).1 raw /\
    accept_range cfg url (index * ss) end_ raw = Ok r.

(** [payload] is slice [index] of what a fill cut out of the mock's stream. *)
Definition fill_answer (o : ObjectId) (index : Z) (payload : bytes) : Prop :=
  exists name size config fl stats hdrs raw slices ended,
    origin o = Some (name, size) /\ mc_failure config = 0 /\ header_str hdrs (lit "range") = None /\
    delivers (MockCdn.handle config fl stats (object_request name size hdrs)).1 raw /\
    cut_stream ss [] (raw_chunks raw) = (slices, ended) /\
    0 <= index /\ slices !! Z.to_nat index = Some payload.

(** The events of a run against the mock. *)
Definition mock_event (sys : Sys S T) (ev : Event) : Prop :=
  match ev with
  | EvProbeStart key o index r =>
      slice_answer o index r /\ meta_str_ok (ck_key key) /\
      Forall (fun p => pd_object p <> o) (sy_pending sys)
  | EvSlice o meta index fetched =>
      (forall r, fetched = Ok r -> slice_answer o index r) /\
      in_u 32 index /\ index * ss < om_total_len meta /\
      (forall m x, index_rel (or_index (sy_orch sys)) m -> m !! o = Some x ->
         om_generation x < u32_max)
  | EvFill o _ index payload => fill_answer o index payload
  | EvPurge _ => False
  | EvPlan | EvProbeEnd | EvEvict => True
  end.

Inductive mock_steps : Sys S T -> Sys S T -> Prop :=
  | mock_refl sys : mock_steps sys sys
  | mock_more sys sys' ev sys'' :
      mock_steps sys sys' -> step ss sys' ev sys'' -> mock_event sys' ev -> mock_steps sys sys''.

Lemma size_u64 o name size : origin o = Some (name, size) -> in_u 64 size.
Proof using Hss Hsizes. intros Ho. pose proof (Hsizes _ _ _ Ho). width. Qed.

Lemma slice_answer_honest o index r :
  slice_answer o index r -> honest ss (mock_versions origin) o index r.
Proof using Hss Hmax Hsizes.
  intros (name & size & config & fl & stats & hdrs & end_ & url & raw & Ho & Hk & Hf & Hi & Hlt & He & Ha & Hd & Hr).
  destruct (mock_honest origin ss cfg Hss Hmax config fl stats o name size hdrs index end_ url raw)
    as (r' & Hr' & Hh); eauto using size_u64. congruence.
Qed.

Lemma fill_answer_payload o index payload w :
  fill_answer o index payload -> mock_versions origin o w ->
  payload = slice_payload index ss (vr_content w).
Proof using Hss Hsizes.
  intros (name & size & config & fl & stats & hdrs & raw & slices & ended & Ho & Hf & Hh & Hd & Hc & Hi & Hl)
    (name' & size' & k & Ho' & -> & _).
  assert (name' = name /\ size' = size) as [-> ->] by (split; congruence).
  pose proof (Hsizes _ _ _ Ho) as Hsz.
  destruct (mock_stream config fl stats name size hdrs raw) as (cs & Hcs & Hcat); eauto using size_u64; [lia|].
  pose proof (cut_stream_delivered ss [] (raw_chunks raw) (proj1 Hss) (proj1 Hss)) as Hcut.
  rewrite Hc in Hcut. rewrite Hcs in Hcut.
  assert (@delivered ReqwestError (map Ok cs) = (concat cs, None)) as Hdel.
  { clear. induction cs as [|c cs IH]; cbn [map delivered concat]; [done|]. by rewrite IH. }
  rewrite Hdel in Hcut. destruct Hcut as (tail & Hof & _). cbn [app] in Hof. rewrite Hcat in Hof.
  destruct (slices_of_payloads ss Hss _ _ _ Hof) as [_ Hpay].
  { unfold len, object_bytes. rewrite length_content_at. lia. }
  rewrite (Hpay _ _ Hl). by rewrite Z2Nat.id.
Qed.

Lemma mock_steps_allowed sys sys' :
  mock_steps sys sys' -> allowed_steps ss (mock_versions origin) sys sys'.
Proof using Hss Hmax Hsizes.
  induction 1 as [sys|sys sys1 ev sys2 _ IH Hstep Hev]; [constructor|].
  econstructor; [exact IH|exact Hstep|]. destruct ev; try done.
  - destruct Hev as (Ha & ?). split; [by apply slice_answer_honest|done].
  - destruct Hev as (Ha & ?). split; [|done]. intros r Hr. by apply slice_answer_honest, Ha.
  - intros w Hw _. by eapply fill_answer_payload.
Qed.

Lemma mock_addressable o w :
  mock_versions origin o w ->
  len (vr_content w) < 2 ^ 64 /\ len (vr_content w) <= max_addressable_len ss.
Proof using Hss Hsizes.
  intros (name & size & k & Ho & -> & _). pose proof (Hsizes _ _ _ Ho) as Hsz.
  pose proof (size_u64 _ _ _ Ho) as H64. unfold in_u in H64.
  unfold len, object_bytes. rewrite length_content_at, Z2Nat.id by lia.
  rewrite max_addressable_len_exact by width. lia.
Qed.

(** The bytes of a case, cut out of a version of its object, pass the comparison. *)
Lemma version_compares seed c o w :
  origin o = Some (ca_object c, ca_size c) -> mock_versions origin o w ->
  0 <= ca_start c <= ca_end c -> ca_end c < ca_size c ->
  len (vr_content w) = ca_size c /\
  compare seed c (slice (ca_start c) (ca_end c + 1) (vr_content w)) = Ok tt.
Proof using Hss Hsizes.
  intros Ho (name & size & k & Ho' & -> & _) Hse Hlt.
  assert (name = ca_object c /\ size = ca_size c) as [-> ->] by (split; congruence).
  pose proof (size_u64 _ _ _ Ho) as H64. unfold in_u in H64.
  split; [unfold len, object_bytes; rewrite length_content_at; lia|].
  unfold object_bytes. rewrite slice_content_at by lia.
  rewrite <- (compare_expected seed c) by lia. f_equal. unfold expected_bytes.
  f_equal. unfold case_len. rewrite (wrap_small 64 (ca_end c - ca_start c)) by width.
  rewrite wrap_small by width. lia.
Qed.

End Differential.

(** ** Witness: a cold object of one slice, probed, then read from the store *)

Definition test_origin (o : ObjectId) : option (str * Z) :=
  if bool_decide (o = toy_object) then Some (lit "obj-0", 3) else None.
Definition test_case : Case := mkCase (lit "obj-0") 3 0 2.
Definition test_answer : OriginResponse := Eval vm_compute in
  (MockCdn.handle mock_config_default 0 (mkStats 0 0 0) (slice_request (lit "obj-0") 3 [] (0 * 4) 3)).1.
Definition test_raw : RawResponse := Eval vm_compute in
  mkRawResponse (or_status test_answer) (or_headers test_answer) (Some 3) (map Ok (or_frames test_answer)).
Definition test_response : UpstreamResponse := Eval vm_compute in
  unwrap_or (accept_range client_config_default [] (0 * 4) 3 test_raw) (mkUpstreamResponse 0 [] []).

(** Probe, plan, read slice 0: the system reached, the plan and the value. *)
Definition cold_read (o : ObjectId) (key : CacheKey) (r : UpstreamResponse)
    (st : Orch (gmap SliceKey SliceValue) (gmap ObjectId bytes)) : option (ToySys * ObjectMeta * SliceValue) :=
  match metadata_from_index 0 st o, cell st o with
  | None, (c, st1) =>
      if bool_decide (or_heap st1 !! c = Some (o, None)) then
        match probe_commit 4 0 st1 key o [] 0 r with
        | Ok (meta, st2) =>
            let st3 := init_cell st2 c o meta in
            if negb (om_no_ranges meta) && (0 <? om_total_len meta) &&
               match index_get (or_index st3) o with
               | Ok (Some x) => om_generation x <? u32_max
               | _ => true
               end
            then
              match slice_fetch 4 true st3 o meta (om_total_len meta) [] 0 (Err (Status [] 503)) with
              | (Ok v, st4) =>
                  Some (mkSys st4 [] [(o, meta)] [(mkSliceKey o (om_generation meta) 0, v)], meta, v)
              | _ => None
              end
            else None
        | Err _ => None
        end
      else None
  | _, _ => None
  end.

Lemma cold_read_sound origin cfg o key r st sys meta v :
  slice_answer origin 4 cfg o 0 r -> meta_str_ok (ck_key key) ->
  cold_read o key r st = Some (sys, meta, v) ->
  mock_steps origin 4 cfg (mkSys st [] [] []) sys /\
  sy_plans sys = [(o, meta)] /\ sy_served sys = [(mkSliceKey o (om_generation meta) 0, v)].
Proof.
  intros Ha Hk. unfold cold_read.
  destruct (metadata_from_index 0 st o) eqn:Em; [done|]. destruct (cell st o) as [c st1] eqn:Ec.
  case_bool_decide as Hh; [|done].
  destruct (probe_commit _ _ _ _ _ _ _ _) as [[meta' st2]|] eqn:Ep; [|done].
  destruct (om_no_ranges meta') eqn:Enr; [done|]. cbn [negb andb].
  destruct (Z.ltb_spec 0 (om_total_len meta')) as [Hpos|]; [|done]. cbn [andb].
  destruct (match index_get _ _ with Ok (Some x) => _ | _ => _ end) eqn:Eg; [|done].
  destruct (slice_fetch _ _ _ _ _ _ _ _ _) as [[v'|] st4] eqn:Es; [|done]. intros [= <- <- <-].
  split; [|done].
  eapply (mock_more _ _ _ _ _ (EvSlice o meta' 0 (Err (Status [] 503)))).
  - eapply (mock_more _ _ _ _ _ EvProbeEnd); [|eapply (step_probe_ok 4 0 st1 st2 [] (mkPending c o key 0 r) []); [done|exact Ep]|exact I].
    eapply (mock_more _ _ _ _ _ (EvProbeStart key o 0 r)); [apply mock_refl|..].
    + by eapply (step_probe_start 4 0 st c st1 []).
    + split; [done|]. split; [done|constructor].
  - eapply (step_slice 4 true _ _ _ _ [] _ _ _ _ _ (Ok v')); [left|done|exact Es].
  - split; [done|]. split; [done|]. split; [lia|]. cbn [sy_orch]. intros m x Hrel Hx.
    rewrite (rel_get _ m) in Eg by done. rewrite Hx in Eg. lia.
Qed.

Lemma test_answered : slice_answer test_origin 4 client_config_default toy_object 0 test_response.
Proof.
  exists (lit "obj-0"), 3, mock_config_default, 0, (mkStats 0 0 0), [], 3, [], test_raw.
  split; [reflexivity|]. split; [vm_compute; intuition discriminate|]. split; [reflexivity|].
  split; [lia|]. split; [lia|]. split; [vm_compute; intuition discriminate|].
  split; [split; vm_compute; intuition discriminate|].
  split; [|vm_compute; reflexivity].
  split; [reflexivity| |vm_compute; reflexivity|].
  - exists []. split; [by rewrite app_nil_r|constructor].
  - exists (or_frames test_answer). done.
Qed.

