(* ===== verification/Soak.v ===== *)
(** * The soak test, proved

    Models [crates/cachic/examples/soak.rs]: clients that draw cases from the
    tester's generator, send them over HTTP to a cache in front of the mock
    origin, verify every body, and count.  The run passes if nothing was corrupt.
    The cache is [EndToEnd.v], the origin [MockCdn.v], generator and comparison
    [Differ.v]; a client's reply is any reply the composed model can give, or an
    error of the network. *)

From S2P Require Import Prelude.
From S2P Require Import RustStr.
From S2P Require Import Codec.
From S2P Require Import Client.
From S2P Require Import Validators.
From S2P Require Import SliceCodec.
From S2P Require Import Index.
From S2P Require Import Key.
From S2P Require Import Range.
From S2P Require Import Readahead.
From S2P Require Import Headers.
From S2P Require Import Orchestrator.
From S2P Require Import Recovery.
From S2P Require Import Server.
From S2P Require Import EndToEnd.
From S2P Require Import Content.
From S2P Require Import MockCdn.
From S2P Require Import Differ.
From S2P Require Import Differential.

Open Scope Z_scope.

(** ** The harness *)

(** What a worker gets: no response, or a status and a body, which is [None]
    if it broke off before the announced length. *)
Inductive Reply :=
  | SendFailed
  | Replied (status : StatusCode) (body : option bytes).

Record Tally := mkTally {
  tl_requests : Z;
  tl_bytes : Z;
  tl_corrupt : Z;
  tl_errors : Z }.

Definition tally_zero : Tally := mkTally 0 0 0 0.

Definition count_error (t : Tally) : Tally :=
  mkTally (tl_requests t) (tl_bytes t) (tl_corrupt t) (wrap64 (tl_errors t + 1)).

Definition is_success (status : StatusCode) : bool := (200 <=? status) && (status <? 300).

(** The loop body of a worker, once the reply is there. *)
Definition soak_turn (seed : Z) (case : Case) (reply : Reply) (t : Tally) : Tally :=
  match reply with
  | SendFailed => count_error t
  | Replied status body =>
      if negb (is_success status) then count_error t else
      match body with
      | None => count_error t
      | Some body =>
          let t := mkTally (wrap64 (tl_requests t + 1)) (wrap64 (tl_bytes t + len body)) (tl_corrupt t) (tl_errors t) in
          match compare seed case body with
          | Ok _ => t
          | Err _ => mkTally (tl_requests t) (tl_bytes t) (wrap64 (tl_corrupt t + 1)) (tl_errors t)
          end
      end
  end.

Definition soak_seed (worker : nat) : Z := wrap64 (0x50AC0000 + Z.of_nat worker).

Definition soak_workers (clients : nat) (objects size : Z) : list Generator :=
  map (fun worker => generator_new (soak_seed worker) objects size (2 ^ 20)) (seq 0 clients).

(** A run: which worker takes the next turn, and the reply it gets.  Workers
    share the counters, whose additions commute. *)
Fixpoint soak_run (workers : list Generator) (turns : list (nat * Reply)) (t : Tally) : Tally :=
  match turns with
  | [] => t
  | (worker, reply) :: turns =>
      match workers !! worker with
      | None => soak_run workers turns t
      | Some g =>
          let '(case, g) := next_case g in
          soak_run (<[worker := g]> workers) turns (soak_turn (soak_seed worker) case reply t)
      end
  end.

(** The cases of a run, with their replies. *)
Fixpoint soak_cases (workers : list Generator) (turns : list (nat * Reply)) : list (Case * Reply) :=
  match turns with
  | [] => []
  | (worker, reply) :: turns =>
      match workers !! worker with
      | None => soak_cases workers turns
      | Some g => let '(case, g) := next_case g in (case, reply) :: soak_cases (<[worker := g]> workers) turns
      end
  end.

(** The exit status. *)
Definition soak_exit (t : Tally) : Z := if 0 <? tl_corrupt t then 1 else 0.

(** [rss_bytes], from the contents of [/proc/self/status]. *)
Definition rss_bytes (status : option str) : Z :=
  default 0
    (s ← status;
     l ← head (filter (fun l => starts_with (lit "VmRSS:") l = true) (lines s));
     v ← split_whitespace l !! 1%nat;
     kb ← parse_u64 v;
     Some (wrap64 (kb * 1024))).

Example rss_bytes_reads :
  rss_bytes (Some (lit "Name:	soak" ++ [x0a] ++ lit "VmRSS:	    2048 kB" ++ [x0a] ++ lit "Threads:	4" ++ [x0a])) = 2097152 /\
  rss_bytes (Some (lit "Name:	soak")) = 0 /\ rss_bytes None = 0.
Proof. repeat split; vm_compute; reflexivity. Qed.

(** [client.get(url).header("host", ..).header("range", ..)]; the client adds
    the header of what it accepts. *)
Definition soak_request (host : str) (c : Case) : HttpRequest :=
  let path := object_path (ca_object c) (ca_size c) in
  mkHttpRequest GET path (Some path)
    [(lit "accept", lit "*/*"); (lit "host", host); (lit "range", case_range_header c)].

(** ** The verdict *)

Section Soak.
Context {S T : Type} `{FoyerLaws S} `{RedbLaws T}.
Context (config : ServerConfig) (blake3 : bytes -> bytes) (is_match : list str -> str -> bool).
Context (order : gmap ObjectId Readahead.Pattern -> list (ObjectId * Readahead.Pattern)).
Context (xxh3_64 : bytes -> Z) (Hxxh : forall b, in_u 64 (xxh3_64 b)).
Context (origin : ObjectId -> option (str * Z)) (host : str).
Abbreviation slice_size := (sc_orch_slice_size config).
Context (Hss : 0 < slice_size < 2 ^ 32).
Context (Hsizes : forall o name size, origin o = Some (name, size) -> 0 < size <= u32_max * slice_size).

(** What arrives of a response, if it arrives whole. *)
Definition received (sys : Sys S T) (r : HttpResponse) (body : bytes) : Prop :=
  match rs_body r with
  | BEmpty => body = []
  | BText s => body = s
  | BSlices plan url _ _ =>
      exists sys' results, allowed_steps slice_size (mock_versions origin) sys sys' /\
        (forall i v, results i = Ok v ->
           (mkSliceKey (pl_object plan) (om_generation (pl_meta plan)) i, v) ∈ sy_served sys') /\
        stream_body slice_size plan url results = (body, true)
  end.

(** A reply of a cache that has lived through anything in front of the mock. *)
Definition cached_reply (c : Case) (reply : Reply) : Prop :=
  match reply with
  | Replied status (Some body) =>
      exists ever (sys sys' : Sys S T) r,
        life xxh3_64 slice_size (mock_versions origin) ever sys /\
        answered config blake3 is_match order (mock_versions origin) (soak_request host c) sys sys' (Responded r) /\
        rs_status r = status /\ received sys' r body
  | _ => True
  end.

(** The request is routed to the origin's object. *)
Definition routed (c : Case) : Prop :=
  exists service key url fwd,
    route config is_match (soak_request host c) = inr (service, key, url, fwd) /\
    origin (key_object_id blake3 key) = Some (ca_object c, ca_size c).

Lemma soak_range c :
  0 <= ca_start c <= ca_end c -> ca_end c < ca_size c -> in_u 64 (ca_size c) ->
  range_spec (header_str (rq_headers (soak_request host c)) (lit "range")) = Some (FromTo (ca_start c) (ca_end c)) /\
  resolve (FromTo (ca_start c) (ca_end c)) (ca_size c) = Ok (mkByteRange (ca_start c) (ca_end c)).
Proof using Type.
  intros Hse He Hs. unfold in_u in Hs. split.
  - unfold range_spec, soak_request, header_str, header_get. cbn [rq_headers find fst mbind option_bind].
    rewrite !bool_decide_false, bool_decide_true by done.
    assert (to_str (case_range_header c) = Some (case_range_header c)) as Hv
      by (apply to_str_value; unfold case_range_header; by rewrite !forallb_app, !to_dec_value by lia).
    cbn. rewrite Hv. cbn. change (case_range_header c) with (range_header (ca_start c) (ca_end c)).
    rewrite parse_range_header_roundtrip by width. done.
  - unfold resolve. destruct (Z.eqb_spec (ca_size c) 0); [lia|].
    destruct (Z.ltb_spec (ca_size c - 1) (ca_start c)); [lia|]. do 2 f_equal. lia.
Qed.

(** A body a worker verifies is right. *)
Lemma reply_verified seed c status body :
  routed c -> 0 <= ca_start c <= ca_end c -> ca_end c < ca_size c ->
  cached_reply c (Replied status (Some body)) -> is_success status = true -> compare seed c body = Ok tt.
Proof using Hxxh Hss Hsizes.
  intros (service & key & url & fwd & Hroute & Ho) Hse He (ever & sys & sys' & r & Hl & Ha & <- & Hb) Hok.
  pose proof (size_u64 origin slice_size Hss Hsizes _ _ _ Ho) as H64.
  destruct (soak_range c Hse He H64) as [Hspec Hres]. unfold in_u in H64.
  apply answered_reply in Ha as [Hr|[[Hs _]|(service' & key' & url' & fwd' & plan & raw & Hp)]].
  { congruence. } { by rewrite Hs in Hok. }
  pose proof Hp as (Hr & Hobj & _ & _ & Hplan & _ & _ & Hraw & Hbody).
  rewrite Hroute in Hr. injection Hr as <- <- <- <-. rewrite <- Hobj in Ho.
  destruct Hraw as [[_ Hno]|[-> _]]; [by destruct Hno|].
  assert (forall w, mock_versions origin (pl_object plan) w -> pl_total_len plan = len (vr_content w) ->
    pl_wanted plan = mkByteRange (ca_start c) (ca_end c) /\ pl_total_len plan = ca_size c) as Hwant.
  { intros w Hw Ht. destruct (version_compares origin slice_size Hss Hsizes seed c _ w Ho Hw Hse He) as [Hlen _].
    split; [|congruence]. destruct Hplan as [_ Hplan]. rewrite Hspec in Hplan. destruct Hplan as (_ & _ & Hrs).
    rewrite Ht, Hlen, Hres in Hrs. by injection Hrs. }
  destruct Hbody as [[[Hm|Hz] _]|[Hne E]]; [done| |].
  - destruct (plan_version config blake3 is_match (mock_versions origin) xxh3_64 Hxxh Hss (mock_identified origin)
      _ _ _ _ _ _ _ _ _ _ _ Hl Hp) as (w & Hw & _ & Ht).
    destruct (Hwant w Hw Ht) as [_ Hsize]. destruct (body_len_pos _ _ Hplan); [lia|done].
  - unfold received in Hb. rewrite E in Hb. destruct Hb as (sys2 & results & Hs & Hserved & Hstream).
    destruct (streamed_version config blake3 is_match (mock_versions origin) xxh3_64 Hxxh Hss (mock_identified origin)
      (mock_addressable origin slice_size Hss Hsizes) _ _ _ _ _ _ _ _ _ _ _ _ _ _ _ Hl Hp Hne Hs Hserved Hstream)
      as (w & Hw & _ & Ht & _ & ->).
    destruct (Hwant w Hw Ht) as [-> _].
    by apply (version_compares origin slice_size Hss Hsizes seed c _ w Ho Hw Hse He).
Qed.

Lemma turn_counts seed c reply t :
  routed c -> 0 <= ca_start c <= ca_end c -> ca_end c < ca_size c -> cached_reply c reply ->
  let t' := soak_turn seed c reply t in
  tl_corrupt t' = tl_corrupt t /\
  wrap64 (tl_requests t' + tl_errors t') = wrap64 (tl_requests t + tl_errors t + 1).
Proof using Hxxh Hss Hsizes.
  intros Hr Hse He Hc. unfold soak_turn.
  assert (tl_corrupt (count_error t) = tl_corrupt t /\
    wrap64 (tl_requests (count_error t) + tl_errors (count_error t)) = wrap64 (tl_requests t + tl_errors t + 1)) as Herr.
  { split; [done|]. cbn. unfold wrap. rewrite Z.add_mod_idemp_r by done. f_equal. lia. }
  destruct reply as [|status [body|]]; [done| |by destruct (is_success status)].
  destruct (is_success status) eqn:Es; cbn [negb]; [|done].
  rewrite (reply_verified seed c status body) by done. cbn. split; [done|].
  unfold wrap. rewrite Z.add_mod_idemp_l by done. f_equal. lia.
Qed.

Lemma run_counts workers turns t :
  Forall generator_ok workers ->
  (forall c reply, (c, reply) ∈ soak_cases workers turns -> routed c /\ cached_reply c reply) ->
  let t' := soak_run workers turns t in
  tl_corrupt t' = tl_corrupt t /\
  wrap64 (tl_requests t' + tl_errors t') = wrap64 (tl_requests t + tl_errors t + len (soak_cases workers turns)).
Proof using Hxxh Hss Hsizes.
  revert workers t. induction turns as [|[worker reply] turns IH]; intros workers t Hg Hc; cbn [soak_run soak_cases] in *.
  { split; [done|]. f_equal. unfold len. cbn. lia. }
  destruct (workers !! worker) as [g|] eqn:Ew; [|by apply IH].
  pose proof Hg as Hg'. rewrite Forall_lookup in Hg'. specialize (Hg' _ _ Ew). pose proof (next_case_spec g Hg') as Hn.
  destruct (next_case g) as [c g']. cbn [fst snd] in Hn. destruct Hn as [(Hs & Hse & He & _) [rng ->]].
  destruct (Hc c reply (list_elem_of_here _ _)) as [Hr Hreply].
  destruct (turn_counts (soak_seed worker) c reply t) as [Ht1 Ht2]; [done|done|lia|done|].
  destruct (IH (<[worker := set_rng g rng]> workers) (soak_turn (soak_seed worker) c reply t)) as [-> Hsum].
  - by apply Forall_insert.
  - intros c' reply' Hin. apply Hc. by right.
  - split; [done|]. rewrite Hsum, len_cons. unfold wrap in *.
    rewrite <- Z.add_mod_idemp_l, Ht2, Z.add_mod_idemp_l by done. f_equal. lia.
Qed.

End Soak.

(** ** Witness: one client reads one byte of an object the cache has just
    fetched, and a second request is lost *)

Definition soak_server : ServerConfig := mkServerConfig 4 (Domains.live_new steam_list) ∅ (lit "cache") false false.
Definition soak_host : str := lit "cdn.steamcontent.com".
Definition soak_case : Case := Eval vm_compute in (next_case (generator_new (soak_seed 0) 1 3 (2 ^ 20))).1.
Definition soak_url : str := lit "http://cdn.steamcontent.com/o/obj-0/3".
Definition soak_key : CacheKey := mkCacheKey (lit "/o/obj-0/3") (lit "steam").

Definition soak_read : ToySys * ObjectMeta * SliceValue :=
  default (toy_start, toy_plan_meta, toy_value) (cold_read toy_object toy_key test_response (sy_orch toy_start)).
Definition soak_sys : ToySys := soak_read.1.1.
Definition soak_meta : ObjectMeta := soak_read.1.2.

Definition soak_plan : Plan :=
  match plan_with 4 (sy_orch soak_sys) soak_key toy_object (Some (FromTo 1 1)) soak_meta false with
  | Ok p => p
  | Err _ => toy_plan
  end.
Definition soak_response : HttpResponse :=
  match respond (response_head (lit "cache") (lit "steam") soak_plan) 206
          (BSlices soak_plan soak_url [(lit "accept", lit "*/*")] [0]) with
  | Responded r => r
  | _ => text 0 []
  end.
Definition soak_results (i : Z) : result OrchestratorError SliceValue :=
  if i =? 0 then Ok soak_read.2 else Err (OUnsatisfiable 0).
Definition soak_body : bytes := (stream_body 4 soak_plan soak_url soak_results).1.

Lemma soak_sys_reached :
  mock_steps test_origin 4 client_config_default toy_start soak_sys /\
  sy_plans soak_sys = [(toy_object, soak_meta)] /\
  sy_served soak_sys = [(mkSliceKey toy_object (om_generation soak_meta) 0, soak_read.2)].
Proof.
  assert (match cold_read toy_object toy_key test_response (sy_orch toy_start) with Some _ => true | None => false end = true)
    as Hs by (vm_compute; reflexivity).
  unfold soak_sys, soak_meta, soak_read.
  destruct (cold_read toy_object toy_key test_response (sy_orch toy_start)) as [[[sys meta] v]|] eqn:E; [|discriminate Hs].
  apply (cold_read_sound test_origin client_config_default toy_object toy_key test_response
    (sy_orch toy_start) sys meta v test_answered ltac:(by vm_compute) E).
Qed.

Lemma test_sizes o name size : test_origin o = Some (name, size) -> 0 < size <= u32_max * 4.
Proof. unfold test_origin. case_bool_decide; [|done]. intros [= <- <-]. by vm_compute. Qed.

Lemma soak_lives : exists ever, life toy_checksum 4 (mock_versions test_origin) ever soak_sys.
Proof.
  apply (life_steps soak_server (mock_versions test_origin) toy_checksum (fun _ _ => False) toy_start).
  - apply life_empty. split; [split; [exact I|split; [reflexivity|apply map_Forall_empty]]|]. repeat split.
  - apply (mock_steps_allowed test_origin 4 client_config_default ltac:(lia) ltac:(vm_compute; discriminate) test_sizes).
    apply soak_sys_reached.
Qed.

Lemma soak_answered :
  answered soak_server e2e_hash (fun _ _ => false) map_to_list (mock_versions test_origin)
    (soak_request soak_host soak_case) soak_sys soak_sys (Responded soak_response).
Proof.
  assert (Responded soak_response = (respond_plan soak_server map_to_list (mkShared (sy_orch soak_sys) (readahead_new 4))
    false (lit "steam") soak_url [(lit "accept", lit "*/*")] soak_plan 0).1.1) as -> by (vm_compute; reflexivity).
  eapply (answered_plan soak_server e2e_hash (fun _ _ => false) map_to_list (mock_versions test_origin)
    (soak_request soak_host soak_case) soak_sys soak_sys (lit "steam") soak_key soak_url
    [(lit "accept", lit "*/*")] soak_plan (readahead_new 4) 0).
  - vm_compute. reflexivity.
  - assert (Ok soak_plan = plan_with 4 (sy_orch soak_sys) soak_key (key_object_id e2e_hash soak_key)
      (range_spec (header_str (rq_headers (soak_request soak_host soak_case)) (lit "range"))) soak_meta false) as ->
      by (vm_compute; reflexivity).
    apply (planned_intro soak_server e2e_hash); [apply allowed_refl|].
    destruct soak_sys_reached as (_ & -> & _). left.
  - intros header Hh. change (None = Some header) in Hh. discriminate Hh.
Qed.

