(* ===== verification/MockDns.v ===== *)
(** * The mock DNS responder

    Models [crates/cachic-testkit/src/mockdns.rs]: the response to one datagram
    and the counting loop around it.  A Rust slice out of range panics; it is
    the outcome [Panic]. *)

From S2P Require Import Prelude.
From S2P Require Import RustStr.
From S2P Require Import Codec.
From S2P Require Import Guard.

Open Scope Z_scope.

(** What a call of [respond] does. *)
Inductive Outcome :=
  | Answered (response : bytes)
  | Dropped
  | Panic.

Definition byte_at (b : bytes) (i : Z) : option Z := Z_of_byte <$> b !! Z.to_nat i.

(** The walk over the question's labels: the position after the root label.
    [None] covers the early returns, and more labels than [fuel]. *)
Fixpoint skip_labels (fuel : nat) (query : bytes) (at_ : Z) : option Z :=
  match fuel with
  | O => None
  | S fuel' =>
      n ← byte_at query at_;
      let at_ := at_ + 1 in
      if n =? 0 then Some at_
      else if negb (Z.land n 0xc0 =? 0) then None
      else skip_labels fuel' query (at_ + n)
  end.

Definition octets (a : Ipv4Addr) : bytes :=
  [byte_of_Z (o0 a); byte_of_Z (o1 a); byte_of_Z (o2 a); byte_of_Z (o3 a)].

(** The response, once the question is known to be [query[12..at]]. *)
Definition dns_response (id question : bytes) (qtype : Z) (answer : Ipv4Addr) : bytes :=
  let answer_count := if qtype =? 1 then 1 else 0 in
  id ++ [x81; x80] ++ be_bytes 2 1 ++ be_bytes 2 answer_count ++ be_bytes 2 0 ++ be_bytes 2 0 ++
  question ++
  (if answer_count =? 1
   then [xc0; x0c] ++ be_bytes 2 1 ++ be_bytes 2 1 ++ be_bytes 4 30 ++ be_bytes 2 4 ++ octets answer
   else []).

Definition dns_respond (query : bytes) (answer : Ipv4Addr) : Outcome :=
  if len query <? 12 then Dropped else
  let id := slice 0 2 query in
  let qdcount := from_be (slice 4 6 query) in
  if negb (qdcount =? 1) then Dropped else
  match skip_labels (length query) query 12 with
  | None => Dropped
  | Some at_ =>
      match byte_at query at_, byte_at query (at_ + 1) with
      | Some hi, Some lo =>
          let qtype := hi * 256 + lo in
          let at_ := at_ + 4 in
          if len query <? at_ then Panic
          else Answered (dns_response id (slice 12 at_ query) qtype answer)
      | _, _ => Dropped
      end
  end.

(** The server's loop over the datagrams received: what it sent, and the count
    of queries.  A panic ends the task. *)
Fixpoint dns_serve (answer : Ipv4Addr) (queries : Z) (datagrams : list bytes) : list bytes * Z :=
  match datagrams with
  | [] => ([], queries)
  | d :: rest =>
      let queries := wrap64 (queries + 1) in
      match dns_respond d answer with
      | Answered r => let '(sent, n) := dns_serve answer queries rest in (r :: sent, n)
      | Dropped => dns_serve answer queries rest
      | Panic => ([], queries)
      end
  end.

(** ** Well-formed queries *)

(** A question: labels of 1 to 63 bytes, a type and a class. *)
Record Question := mkQuestion {
  qu_labels : list bytes;
  qu_type : Z;
  qu_class : Z }.

Definition encode_labels (labels : list bytes) : bytes :=
  concat (map (fun l => byte_of_Z (len l) :: l) labels) ++ [x00].

Definition encode_question (q : Question) : bytes :=
  encode_labels (qu_labels q) ++ be_bytes 2 (qu_type q) ++ be_bytes 2 (qu_class q).

Definition question_ok (q : Question) : Prop :=
  Forall (fun l => 0 < len l < 64) (qu_labels q) /\ in_u 16 (qu_type q) /\ in_u 16 (qu_class q).

Lemma length_be_bytes n z : length (be_bytes n z) = n.
Proof. unfold be_bytes. by rewrite length_reverse, length_le_bytes. Qed.

Lemma byte_at_app pre b rest : byte_at (pre ++ b :: rest) (len pre) = Some (Z_of_byte b).
Proof.
  unfold byte_at, len. rewrite Nat2Z.id, lookup_app_r, Nat.sub_diag by lia. done.
Qed.

Lemma label_byte n : 0 <= n < 64 -> Z_of_byte (byte_of_Z n) = n /\ Z.land n 0xc0 = 0.
Proof.
  intros Hn. rewrite Z_of_byte_of_Z, Z.mod_small by lia. split; [done|].
  change 0xc0 with (Z.shiftl 3 6). apply Z.bits_inj'. intros k Hk.
  rewrite Z.land_spec, Z.bits_0. destruct (Z.ltb_spec k 6).
  - rewrite (Z.shiftl_spec_low 3) by lia. apply andb_false_r.
  - destruct (decide (n = 0)) as [->|]; [by rewrite Z.bits_0|].
    rewrite (Z.bits_above_log2 n k); [done|lia|]. apply Z.log2_lt_pow2; [lia|].
    assert (2 ^ 6 <= 2 ^ k) by (apply Z.pow_le_mono_r; lia). lia.
Qed.

Lemma skip_labels_spec labels fuel pre rest :
  Forall (fun l => 0 < len l < 64) labels -> (length labels < fuel)%nat ->
  skip_labels fuel (pre ++ encode_labels labels ++ rest) (len pre) =
    Some (len pre + len (encode_labels labels)).
Proof.
  intros Hl. revert fuel pre. induction Hl as [|l labels Hlen _ IH]; intros [|fuel] pre Hf; try (cbn in Hf; lia).
  - cbn [skip_labels]. unfold encode_labels. cbn [map concat app].
    rewrite byte_at_app. cbn. unfold len. cbn. done.
  - cbn [skip_labels]. unfold encode_labels. cbn [map concat]. rewrite <- !app_assoc. cbn [app].
    rewrite byte_at_app. cbn [mbind option_bind].
    destruct (label_byte (len l)) as [-> ->]; [lia|].
    destruct (Z.eqb_spec (len l) 0); [lia|]. cbn [negb Z.eqb].
    specialize (IH fuel (pre ++ byte_of_Z (len l) :: l) ltac:(cbn in Hf; lia)).
    unfold encode_labels in IH. rewrite <- !app_assoc in IH. cbn [app] in IH.
    replace (len pre + 1 + len l) with (len (pre ++ byte_of_Z (len l) :: l))
      by (rewrite len_app, len_cons; lia).
    rewrite IH. f_equal. unfold len. repeat (rewrite length_app || cbn [length app]). lia.
Qed.

Lemma length_encode_labels labels : (length labels < length (encode_labels labels))%nat.
Proof.
  unfold encode_labels. rewrite length_app. induction labels as [|l labels IH]; [cbn; lia|].
  cbn [map concat app length]. rewrite length_app. cbn [length] in *. lia.
Qed.

(** The mock answers every well-formed query.  For a header announcing one
    question, the question encoded as the protocol prescribes, and anything
    after it, the response repeats the identifier and the question and carries
    the configured address exactly if an IPv4 address was asked for. *)
Theorem dns_answers_queries answer id flags counts q rest :
  length id = 2%nat -> length flags = 2%nat -> length counts = 6%nat -> question_ok q ->
  dns_respond (id ++ flags ++ be_bytes 2 1 ++ counts ++ encode_question q ++ rest) answer =
    Answered (dns_response id (encode_question q) (qu_type q) answer).
Proof.
  intros Hid Hfl Hc (Hl & Ht & Hcl). set (head := id ++ flags ++ be_bytes 2 1 ++ counts).
  assert (length head = 12%nat) as Hh.
  { subst head. rewrite !length_app, Hid, Hfl, Hc. done. }
  assert (id ++ flags ++ be_bytes 2 1 ++ counts ++ encode_question q ++ rest =
    head ++ encode_question q ++ rest) as -> by (subst head; by rewrite <- !app_assoc).
  set (query := head ++ encode_question q ++ rest).
  assert (len query = 12 + len (encode_labels (qu_labels q)) + 4 + len rest) as Hlen.
  { subst query. unfold encode_question, len. rewrite !length_app, Hh, !length_be_bytes. lia. }
  unfold dns_respond. pose proof (len_nonneg rest). pose proof (len_nonneg (encode_labels (qu_labels q))).
  destruct (Z.ltb_spec (len query) 12); [lia|].
  assert (slice 0 2 query = id) as ->.
  { subst query head. unfold slice. cbn [Z.to_nat drop]. rewrite <- !app_assoc.
    change (Z.to_nat (2 - 0)) with 2%nat. rewrite <- Hid. apply take_app_length. }
  assert (slice 4 6 query = be_bytes 2 1) as ->.
  { subst query head. unfold slice. change (Z.to_nat (6 - 4)) with 2%nat. change (Z.to_nat 4) with 4%nat.
    rewrite (app_assoc id), <- !(app_assoc (id ++ flags)).
    rewrite drop_app_length' by (rewrite length_app; lia). by rewrite <- !app_assoc. }
  change (negb (from_be (be_bytes 2 1) =? 1)) with false. cbv iota.
  assert (exists hi lo, be_bytes 2 (qu_type q) = [hi; lo] /\
    Z_of_byte hi * 256 + Z_of_byte lo = qu_type q) as (hi & lo & Hb & Hty).
  { eexists _, _. split; [reflexivity|]. rewrite !Z_of_byte_of_Z. unfold in_u in Ht.
    pose proof (Z.div_mod (qu_type q) 256 ltac:(lia)).
    rewrite (Z.mod_small (qu_type q / 256)); [lia|].
    split; [apply Z.div_pos; lia|]. apply Z.div_lt_upper_bound; lia. }
  set (ls := encode_labels (qu_labels q)) in *.
  assert (query = (head ++ ls) ++ hi :: lo :: be_bytes 2 (qu_class q) ++ rest) as Hq.
  { subst query ls. unfold encode_question. rewrite Hb, <- !app_assoc. done. }
  assert (len (head ++ ls) = 12 + len ls) as Hhl by (rewrite len_app; unfold len at 1; lia).
  assert (skip_labels (length query) query 12 = Some (12 + len ls)) as ->.
  { assert (query = head ++ ls ++ (hi :: lo :: be_bytes 2 (qu_class q) ++ rest)) as ->
      by (rewrite Hq, <- !app_assoc; done).
    replace 12 with (len head) by (unfold len; lia). apply skip_labels_spec; [done|].
    pose proof (length_encode_labels (qu_labels q)). rewrite !length_app. subst ls. lia. }
  rewrite <- Hhl. rewrite Hq at 1. rewrite byte_at_app.
  assert (byte_at query (len (head ++ ls) + 1) = Some (Z_of_byte lo)) as ->.
  { rewrite Hq. replace (len (head ++ ls) + 1) with (len ((head ++ ls) ++ [hi])) by (rewrite len_app; done).
    change (hi :: lo :: ?x) with ([hi] ++ lo :: x). rewrite app_assoc. apply byte_at_app. }
  rewrite Hty. destruct (Z.ltb_spec (len query) (len (head ++ ls) + 4)); [lia|].
  do 2 f_equal. subst query. unfold slice. change (Z.to_nat 12) with 12%nat.
  rewrite drop_app_length' by done. rewrite take_app_length'; [done|].
  unfold encode_question. fold ls. rewrite !length_app, !length_be_bytes. rewrite Hhl. unfold len. lia.
Qed.

(** A query that ends between its type and its class, which is malformed, is
    not dropped: the slice of the question runs past the end. *)
Lemma dns_short_query_panics :
  dns_respond (lit "id" ++ [x01; x00; x00; x01; x00; x00; x00; x00; x00; x00] ++ [x00; x00; x01])
    (mkV4 127 0 0 1) = Panic.
Proof. reflexivity. Qed.

Lemma dns_answers_queries_witness :
  dns_respond ([x12; x34] ++ [x01; x00] ++ be_bytes 2 1 ++ [x00; x00; x00; x00; x00; x00] ++
      encode_question (mkQuestion [lit "cdn"; lit "test"] 1 1) ++ []) (mkV4 10 0 0 7) =
    Answered (dns_response [x12; x34] (encode_question (mkQuestion [lit "cdn"; lit "test"] 1 1)) 1
      (mkV4 10 0 0 7)).
Proof.
  apply (dns_answers_queries (mkV4 10 0 0 7) [x12; x34] [x01; x00] [x00; x00; x00; x00; x00; x00]
    (mkQuestion [lit "cdn"; lit "test"] 1 1) []); [reflexivity..|].
  split; [repeat constructor; vm_compute; reflexivity|]. split; vm_compute; intuition discriminate.
Defined.
