(* ===== verification/LoadGen.v ===== *)
(** * The load generator's report

    Models [crates/cachic-testkit/src/loadgen.rs]: samples collected from
    concurrent workers and the percentiles read from them; and the generator of
    requests and the merging of workers of [examples/loadtest.rs].  [f64] is the
    Standard Library's specification of IEEE 754 binary64, so rounding is part of
    the model; [as usize] saturates and sends NaN to 0, as in Rust.  A [Duration]
    is its nanoseconds. *)

From Stdlib Require Import Floats.SpecFloat.
From stdpp Require Import sorting.
From S2P Require Import Prelude.
From S2P Require Import RustStr.

Open Scope Z_scope.

(** ** Binary64 *)

Definition f64 := spec_float.
Definition f64_mul : f64 -> f64 -> f64 := SFmul 53 1024.
Definition f64_div : f64 -> f64 -> f64 := SFdiv 53 1024.
(** [n as f64] of an integer, and the nearest value to a decimal fraction. *)
Definition f64_of (n : Z) : f64 := binary_normalize 53 1024 n 0 false.
Definition f64_lit (num den : Z) : f64 := f64_div (f64_of num) (f64_of den).

Definition f64_clamp (min max x : f64) : f64 :=
  let x := if SFltb x min then min else x in if SFltb max x then max else x.

Definition f64_ceil (x : f64) : f64 :=
  match x with
  | S754_finite s m e =>
      if 0 <=? e then x
      else binary_normalize 53 1024
             (if s then - (Z.pos m / 2 ^ (- e)) else - (- Z.pos m / 2 ^ (- e))) 0 s
  | _ => x
  end.

Definition as_usize (x : f64) : Z :=
  match x with
  | S754_nan | S754_infinity true | S754_zero _ | S754_finite true _ _ => 0
  | S754_infinity false => umax 64
  | S754_finite false m e =>
      Z.min (umax 64) (if 0 <=? e then Z.pos m * 2 ^ e else Z.pos m / 2 ^ (- e))
  end.

(** ** Collecting and reporting *)

Definition Duration := Z.

Record Report := mkReport {
  rp_requests : Z;
  rp_bytes : Z;
  rp_elapsed : Duration;
  rp_ttfb : list Duration }.

Record Collector := mkCollector {
  co_bytes : Z;
  co_requests : Z;
  co_ttfb : list Duration }.

Definition collector_new : Collector := mkCollector 0 0 [].

Definition record_sample (c : Collector) (bytes : Z) (ttfb : Duration) : Collector :=
  mkCollector (wrap64 (co_bytes c + bytes)) (wrap64 (co_requests c + 1)) (co_ttfb c ++ [ttfb]).

(** [self.ttfb.sort()]. *)
Definition finish (c : Collector) (elapsed : Duration) : Report :=
  mkReport (co_requests c) (co_bytes c) elapsed (merge_sort Z.le (co_ttfb c)).

Definition rank (p : f64) (n : Z) : Z :=
  as_usize (f64_ceil (f64_mul (f64_clamp (f64_of 0) (f64_of 1) p) (f64_of n))).

(** The sample at a percentile; [None] would be an index out of bounds. *)
Definition ttfb_percentile (r : Report) (p : f64) : option Duration :=
  match rp_ttfb r with
  | [] => Some 0
  | ttfb =>
      let n := len ttfb in
      let index := Z.min (sat_sub (rank p n) 1) (n - 1) in
      ttfb !! Z.to_nat index
  end.

(** [Duration::as_secs_f64]: whole seconds, and the nanoseconds over 10^9. *)
Definition as_secs_f64 (d : Duration) : f64 :=
  SFadd 53 1024 (f64_of (d / 1000000000)) (f64_div (f64_of (d mod 1000000000)) (f64_of 1000000000)).

Definition gbps (r : Report) : f64 :=
  if rp_elapsed r =? 0 then f64_of 0
  else f64_div (f64_div (f64_mul (f64_of (rp_bytes r)) (f64_of 8)) (as_secs_f64 (rp_elapsed r))) (f64_of 1000000000).

Definition mib_per_second (r : Report) : f64 :=
  if rp_elapsed r =? 0 then f64_of 0
  else f64_div (f64_div (f64_of (rp_bytes r)) (f64_mul (f64_of 1024) (f64_of 1024))) (as_secs_f64 (rp_elapsed r)).

Definition p50 : f64 := f64_lit 1 2.
Definition p99 : f64 := f64_lit 99 100.

Definition collect (samples : list (Z * Duration)) : Collector :=
  fold_left (fun c s => record_sample c s.1 s.2) samples collector_new.

(** ** What a percentile is *)

Lemma collect_from samples c :
  fold_left (fun c s => record_sample c s.1 s.2) samples c =
  mkCollector (co_bytes (fold_left (fun c s => record_sample c s.1 s.2) samples c))
    (match samples with [] => co_requests c | _ => wrap64 (co_requests c + len samples) end)
    (co_ttfb c ++ map snd samples).
Proof.
  revert c. induction samples as [|s samples IH]; intros c.
  - cbn. rewrite app_nil_r. by destruct c.
  - cbn [fold_left]. rewrite IH at 1. f_equal.
    + rewrite len_cons. destruct samples; cbn [record_sample co_requests].
      * done.
      * rewrite len_cons. unfold wrap. rewrite Z.add_mod_idemp_l by done. f_equal. lia.
    + cbn [record_sample co_ttfb map]. by rewrite <- app_assoc.
Qed.

Lemma report_ttfb samples elapsed :
  rp_ttfb (finish (collect samples) elapsed) = merge_sort Z.le (map snd samples).
Proof. unfold collect. by rewrite collect_from. Qed.

Lemma sorted_same (l l' : list Duration) : l ≡ₚ l' -> merge_sort Z.le l = merge_sort Z.le l'.
Proof.
  intros Hp. apply (Sorted_unique Z.le); [apply Sorted_merge_sort, _|apply Sorted_merge_sort, _|].
  by rewrite !merge_sort_Permutation.
Qed.

Lemma percentile_in r p : rp_ttfb r <> [] -> exists d, ttfb_percentile r p = Some d /\ d ∈ rp_ttfb r.
Proof.
  intros Hne. unfold ttfb_percentile. destruct (rp_ttfb r) as [|x l]; [done|].
  set (index := Z.min _ _). assert (0 <= index < len (x :: l)) as Hi.
  { unfold index, sat_sub. pose proof (len_nonneg l). rewrite len_cons. lia. }
  destruct (lookup_lt_is_Some_2 (x :: l) (Z.to_nat index)) as [d Hd]; [unfold len in Hi; lia|].
  exists d. split; [done|]. by eapply list_elem_of_lookup_2.
Qed.

(** The position of the nearest rank of the fraction [num]/[den], from 1. *)
Definition nearest_rank (num den n : Z) : Z := (num * n + den - 1) / den.

Definition SAMPLES : Z := 256.

Lemma reported_ranks n :
  1 <= n <= SAMPLES -> rank p50 n = nearest_rank 1 2 n /\ rank p99 n = nearest_rank 99 100 n.
Proof.
  intros Hn. assert (forallb (fun n => (rank p50 n =? nearest_rank 1 2 n) && (rank p99 n =? nearest_rank 99 100 n))
    (seqZ 1 SAMPLES) = true) as Hall by (vm_compute; reflexivity).
  rewrite forallb_forall in Hall. specialize (Hall n). rewrite andb_true_iff, !Z.eqb_eq in Hall.
  apply Hall, list_elem_of_In, elem_of_seqZ. lia.
Qed.

Lemma percentile_at r p num den :
  1 <= len (rp_ttfb r) -> rank p (len (rp_ttfb r)) = nearest_rank num den (len (rp_ttfb r)) ->
  0 < num <= den ->
  ttfb_percentile r p = rp_ttfb r !! Z.to_nat (nearest_rank num den (len (rp_ttfb r)) - 1).
Proof.
  intros Hl Hr Hd. unfold ttfb_percentile. destruct (rp_ttfb r) as [|x l] eqn:E; [done|]. rewrite Hr.
  assert (1 <= nearest_rank num den (len (x :: l)) <= len (x :: l)).
  { unfold nearest_rank. split; [apply Z.div_le_lower_bound; nia|].
    apply Z.lt_succ_r, Z.div_lt_upper_bound; [lia|]. nia. }
  f_equal. f_equal. unfold sat_sub. lia.
Qed.

(** The reported percentiles are exact order statistics.  Whatever samples
    the workers record and in whatever order, the report holds them sorted and
    counted; any percentile, for any [p] whatsoever (NaN and infinities included),
    is one of the samples or 0 when there is none, never an index out of bounds;
    and up to 256 samples the two percentiles the summary prints, p50 and p99,
    are the samples of nearest rank, binary64 rounding included. *)
Theorem percentiles_exact samples elapsed :
  let r := finish (collect samples) elapsed in
  (Sorted Z.le (rp_ttfb r) /\ rp_ttfb r ≡ₚ map snd samples) /\
  rp_requests r = wrap64 (len samples) /\
  (forall samples', samples' ≡ₚ samples ->
     forall p, ttfb_percentile (finish (collect samples') elapsed) p = ttfb_percentile r p) /\
  (forall p, exists d, ttfb_percentile r p = Some d /\ if decide (samples = []) then d = 0 else d ∈ map snd samples) /\
  (1 <= len samples <= SAMPLES ->
   ttfb_percentile r p50 = rp_ttfb r !! Z.to_nat (nearest_rank 1 2 (len samples) - 1) /\
   ttfb_percentile r p99 = rp_ttfb r !! Z.to_nat (nearest_rank 99 100 (len samples) - 1)).
Proof.
  intros r. pose proof (report_ttfb samples elapsed : rp_ttfb r = _) as Hr.
  assert (rp_ttfb r ≡ₚ map snd samples) as Hp by (rewrite Hr; apply merge_sort_Permutation).
  assert (len (rp_ttfb r) = len samples) as Hlen by (unfold len; by rewrite Hp, length_map).
  split; [split; [rewrite Hr; apply Sorted_merge_sort, _|done]|]. split.
  { unfold r, finish, collect. rewrite collect_from. cbn. by destruct samples. }
  split.
  { intros samples' Hs p. unfold ttfb_percentile. rewrite Hr, report_ttfb.
    rewrite (sorted_same (map snd samples') (map snd samples)); [done|]. by apply Permutation_map. }
  split.
  - intros p. destruct (decide (samples = [])) as [->|Hne]; [by exists 0|].
    destruct (percentile_in r p) as (d & Hd & Hin).
    + intros E. rewrite E in Hlen. by destruct samples.
    + exists d. split; [done|]. by rewrite <- Hp.
  - intros Hn. rewrite <- Hlen in *. destruct (reported_ranks (len (rp_ttfb r)) Hn) as [H50 H99].
    split; apply percentile_at; lia || done.
Qed.

(** The nearest rank of 7 in 100 is 7; the product rounds up past it. *)
Theorem percentile_rounds_up :
  rank (f64_lit 7 100) 100 = 8 /\ nearest_rank 7 100 100 = 7.
Proof. split; vm_compute; reflexivity. Qed.

(** The figures are exact where they can be: a gigabyte in a second is 8 Gbps,
    and a run of no time has throughput 0 instead of a division by zero. *)
Example throughput_figures :
  gbps (mkReport 4 1000000000 1000000000 []) = f64_of 8 /\
  gbps (mkReport 1 1000000000 500000000 []) = f64_of 16 /\
  mib_per_second (mkReport 1 (2 ^ 30) 2000000000 []) = f64_of 512 /\
  gbps (mkReport 1 1 0 []) = f64_of 0 /\ mib_per_second (mkReport 1 1 0 []) = f64_of 0.
Proof. repeat split; vm_compute; reflexivity. Qed.

(** ** The load test *)

(** Its own random numbers, and the requests drawn from them: the object, and a
    range of [span] bytes that starts on a multiple of 4096. *)
Definition xorshift (x : Z) : Z :=
  let x := Z.lxor x (wrap64 (Z.shiftl x 13)) in
  let x := Z.lxor x (Z.shiftr x 7) in
  Z.lxor x (wrap64 (Z.shiftl x 17)).

Definition loadtest_seed (id : Z) : Z :=
  Z.lxor 0x9e3779b97f4a7c15 (wrap64 (wrap64 (id + 1) * 0x100000001b3)).

(** [None] is a panic: a remainder by zero, or an index into no ranges. *)
Definition loadtest_draw (rng objects object_size : Z) (ranges : list Z) : option (Z * Z * Z * Z) :=
  let r1 := xorshift rng in
  if objects =? 0 then None else
  let object := r1 mod objects in
  let r2 := xorshift r1 in
  if len ranges =? 0 then None else
  mib ← ranges !! Z.to_nat (r2 mod len ranges);
  let span := wrap64 (wrap64 (mib * 1024) * 1024) in
  let r3 := xorshift r2 in
  let room := wrap64 (object_size - span) in
  if room =? 0 then None else
  let start := (r3 mod room) / 4096 * 4096 in
  Some (object, start, wrap64 (wrap64 (start + span) - 1), r3).

(** Merging a worker: its samples, each with its share of the bytes, the last
    with what is left. *)
Fixpoint share (per_request remaining : Z) (ttfb : list Duration) (total : Collector) : Collector :=
  match ttfb with
  | [] => total
  | [d] => record_sample total remaining d
  | d :: ttfb => share per_request (sat_sub remaining per_request) ttfb (record_sample total per_request d)
  end.

Definition merge_worker (total : Collector) (worker : Collector) : Collector :=
  let report := finish worker 0 in
  let per_request := if 0 <? rp_requests report then rp_bytes report / rp_requests report else 0 in
  share per_request (rp_bytes report) (rp_ttfb report) total.

(** What recording guarantees. *)
Definition collector_ok (c : Collector) : Prop :=
  in_u 64 (co_bytes c) /\ co_requests c = len (co_ttfb c) /\ (co_ttfb c = [] -> co_bytes c = 0).

Lemma collect_ok samples : len samples < 2 ^ 64 -> collector_ok (collect samples).
Proof.
  intros Hl. pose proof (len_nonneg samples). unfold collector_ok, collect. rewrite collect_from. cbn [co_ttfb co_requests co_bytes].
  split; [|split].
  - destruct samples as [|s samples] using rev_ind; [done|]. rewrite fold_left_app. apply wrap_in_u. lia.
  - cbn [collector_new co_requests co_ttfb app]. destruct samples as [|s samples]; [done|].
    rewrite Z.add_0_l, wrap_small by (unfold in_u; lia). unfold len. by rewrite length_map.
  - destruct samples; [done|]. cbn. by intros ?.
Qed.

Lemma share_spec per remaining ttfb total :
  0 <= per -> ttfb <> [] -> per * len ttfb <= remaining ->
  let c := share per remaining ttfb total in
  wrap64 (co_bytes c) = wrap64 (co_bytes total + remaining) /\
  wrap64 (co_requests c) = wrap64 (co_requests total + len ttfb) /\ co_ttfb c = co_ttfb total ++ ttfb.
Proof.
  intros Hp. revert remaining total. induction ttfb as [|d [|d' ttfb] IH]; intros remaining total Hne Hle; [done| |].
  - cbn. unfold wrap. by rewrite !Z.mod_mod.
  - rewrite len_cons in Hle. pose proof (len_nonneg (d' :: ttfb)).
    change (share per remaining (d :: d' :: ttfb) total) with
      (share per (sat_sub remaining per) (d' :: ttfb) (record_sample total per d)).
    assert (sat_sub remaining per = remaining - per) as -> by (unfold sat_sub; nia).
    destruct (IH (remaining - per) (record_sample total per d)) as (Hb & Hr & Ht); [done|lia|].
    cbn zeta. rewrite Hb, Hr, Ht. cbn [record_sample co_bytes co_requests co_ttfb]. rewrite (len_cons d). unfold wrap.
    rewrite !Z.add_mod_idemp_l by done. split; [f_equal; lia|]. split; [f_equal; lia|]. by rewrite <- app_assoc.
Qed.

Lemma merge_worker_spec total worker :
  collector_ok worker ->
  wrap64 (co_bytes (merge_worker total worker)) = wrap64 (co_bytes total + co_bytes worker) /\
  wrap64 (co_requests (merge_worker total worker)) = wrap64 (co_requests total + co_requests worker) /\
  co_ttfb (merge_worker total worker) ≡ₚ co_ttfb total ++ co_ttfb worker.
Proof.
  intros (Hb & Hr & Hz). unfold merge_worker, finish. cbn [rp_requests rp_bytes rp_ttfb].
  assert (len (merge_sort Z.le (co_ttfb worker) : list Duration) = co_requests worker) as Hlen
    by (rewrite Hr; unfold len; by rewrite merge_sort_Permutation).
  destruct (decide (co_ttfb worker = [])) as [E|Hne].
  { rewrite E in *. rewrite Hz by done. rewrite Hr. cbn. by rewrite !Z.add_0_r, app_nil_r. }
  assert (0 < co_requests worker) as Hpos by (rewrite Hr; unfold len; destruct (co_ttfb worker); [done|cbn; lia]).
  destruct (Z.ltb_spec 0 (co_requests worker)); [|lia]. unfold in_u in Hb.
  destruct (share_spec (co_bytes worker / co_requests worker) (co_bytes worker) (merge_sort Z.le (co_ttfb worker)) total)
    as (H1 & H2 & ->).
  - apply Z.div_pos; lia.
  - intros E. rewrite E in Hlen. unfold len in Hlen. cbn [length] in Hlen. lia.
  - rewrite Hlen, Z.mul_comm. apply Z.mul_div_le. lia.
  - split; [done|]. split; [by rewrite H2, Hlen|]. by rewrite merge_sort_Permutation.
Qed.

(** Merging the workers loses nothing: the total has every sample of every
    worker, and its bytes and requests are the sums, although each sample's share
    of the bytes is an average. *)
Theorem merge_exact (runs : list (list (Z * Duration))) :
  Forall (fun samples => len samples < 2 ^ 64) runs ->
  let total := foldl merge_worker collector_new (map collect runs) in
  wrap64 (co_bytes total) = wrap64 (foldr Z.add 0 (map (fun r => co_bytes (collect r)) runs)) /\
  wrap64 (co_requests total) = wrap64 (foldr Z.add 0 (map len runs)) /\
  co_ttfb total ≡ₚ concat (map (map snd) runs).
Proof.
  assert (forall start, Forall (fun samples => len samples < 2 ^ 64) runs ->
    let total := foldl merge_worker start (map collect runs) in
    wrap64 (co_bytes total) = wrap64 (co_bytes start + foldr Z.add 0 (map (fun r => co_bytes (collect r)) runs)) /\
    wrap64 (co_requests total) = wrap64 (co_requests start + foldr Z.add 0 (map len runs)) /\
    co_ttfb total ≡ₚ co_ttfb start ++ concat (map (map snd) runs)) as Hgen.
  { induction runs as [|run runs IH]; intros start Hruns; cbn [map foldl foldr concat].
    { by rewrite !Z.add_0_r, app_nil_r. }
    apply Forall_cons_1 in Hruns as [Hrun Hruns].
    destruct (merge_worker_spec start (collect run) (collect_ok _ Hrun)) as (Hb & Hr & Ht).
    assert (co_requests (collect run) = len run /\ co_ttfb (collect run) = map snd run) as [Hreq Httfb].
    { pose proof (collect_ok _ Hrun) as (_ & Hq & _). assert (co_ttfb (collect run) = map snd run) as E
        by (unfold collect; by rewrite collect_from). split; [|done]. rewrite Hq, E. unfold len. by rewrite length_map. }
    rewrite Hreq in Hr. rewrite Httfb in Ht.
    destruct (IH (merge_worker start (collect run)) Hruns) as (-> & -> & ->). unfold wrap in *.
    rewrite <- Z.add_mod_idemp_l, Hb, Z.add_mod_idemp_l by done.
    rewrite <- (Z.add_mod_idemp_l (co_requests (merge_worker start (collect run)))), Hr, Z.add_mod_idemp_l by done.
    rewrite Ht, <- app_assoc. split; [f_equal; lia|]. split; [f_equal; lia|done]. }
  intros Hruns. apply (Hgen collector_new Hruns).
Qed.

Lemma merge_exact_witness :
  co_bytes (foldl merge_worker collector_new (map collect [[(5, 30); (6, 10)]; []; [(7, 20)]])) = 18.
Proof.
  destruct (merge_exact [[(5, 30); (6, 10)]; []; [(7, 20)]]) as (Hb & _ & _); [repeat constructor|].
  exact Hb.
Defined.

(** The range drawn lies in the object when the object is longer than every
    range; a range as long as the object is a remainder by zero. *)
Lemma loadtest_draw_in_bounds rng objects object_size ranges object start end_ rng' :
  in_u 64 object_size -> Forall (fun mib => 0 < mib * 2 ^ 20 < object_size) ranges ->
  loadtest_draw rng objects object_size ranges = Some (object, start, end_, rng') ->
  0 <= start <= end_ /\ end_ < object_size /\ start mod 4096 = 0.
Proof.
  intros H64 Hr. unfold loadtest_draw, in_u in *. destruct (objects =? 0); [done|]. destruct (len ranges =? 0); [done|].
  destruct (ranges !! _) as [mib|] eqn:E; [|done]. cbn [mbind option_bind]. rewrite Forall_lookup in Hr. apply Hr in E.
  rewrite (wrap_small 64 (mib * 1024)) by (unfold in_u; lia).
  assert (wrap64 (mib * 1024 * 1024) = mib * 2 ^ 20) as -> by (rewrite wrap_small by (unfold in_u; lia); lia).
  rewrite (wrap_small 64 (object_size - _)) by (unfold in_u; lia).
  destruct (Z.eqb_spec (object_size - mib * 2 ^ 20) 0); [lia|].
  set (x := xorshift (xorshift (xorshift rng)) mod (object_size - mib * 2 ^ 20)).
  assert (0 <= x < object_size - mib * 2 ^ 20) as Hx by (apply Z.mod_pos_bound; lia).
  assert (0 <= x / 4096 * 4096 <= x) as Hs by (pose proof (Z.mul_div_le x 4096); pose proof (Z.div_pos x 4096); lia).
  rewrite (wrap_small 64 (x / 4096 * 4096 + _)) by (unfold in_u; lia).
  rewrite (wrap_small 64 (_ - 1)) by (unfold in_u; lia).
  intros [= _ <- <- _]. split; [lia|]. split; [lia|]. apply Z.mod_mul. lia.
Qed.

Example loadtest_whole_object_panics : loadtest_draw 1 24 (2 ^ 20) [1] = None.
Proof. vm_compute. reflexivity. Qed.
