(* ===== verification/Measure.v ===== *)
(** * The measurement programs

    Models [crates/cachic/examples/bench.rs] and [examples/measure.rs]: what they
    ask of the system under test, the figures they compute from what they
    measured, and the lines they print.  Clocks, sockets and the engine are
    outside; what they return - durations, counts, the text of [/proc] files - is
    an argument.  Figures are IEEE 754 binary64 as in [LoadGen.v].

    [Module Bench] is the harness of the scenarios S1 to S6; [Module M0] the
    earlier one, over the spike's store and proxy.  Both print lines of five
    columns; the theorems say which of them do. *)

From Stdlib Require Import Floats.SpecFloat.
From stdpp Require Import sorting.
From S2P Require Import Prelude.
From S2P Require Import RustStr.
From S2P Require Import Codec.
From S2P Require Import SliceCodec.
From S2P Require Import Orchestrator.
From S2P Require Import Config.
From S2P Require Import Store.
From S2P Require Import MockCdn.
From S2P Require Import LoadGen.

Open Scope Z_scope.

(** ** Printing *)

(** [format!("{:.k}")] of an [f64]: the exact value rounded to [k] decimals,
    halves to even. *)
Definition round_half_even (num den : Z) : Z :=
  let q := num / den in
  let twice := 2 * (num mod den) in
  if twice <? den then q else if den <? twice then q + 1 else if Z.even q then q else q + 1.

Definition pad (k : nat) (s : str) : str := replicate (k - length s) x30 ++ s.

Definition fixed_digits (k : nat) (n : Z) : str :=
  let unit := 10 ^ Z.of_nat k in
  to_dec (n / unit) ++ match k with O => [] | _ => x2e :: pad k (to_dec (n mod unit)) end.

Definition fixed (k : nat) (x : f64) : str :=
  let sign (s : bool) := if s then [x2d] else [] in
  match x with
  | S754_nan => lit "NaN"
  | S754_infinity s => sign s ++ lit "inf"
  | S754_zero s => sign s ++ fixed_digits k 0
  | S754_finite s m e =>
      let scaled := Z.pos m * 10 ^ Z.of_nat k in
      sign s ++ fixed_digits k (if 0 <=? e then scaled * 2 ^ e else round_half_even scaled (2 ^ (- e)))
  end.

Example fixed_prints :
  fixed 2 (f64_lit 1 2) = lit "0.50" /\ fixed 0 (f64_lit 5 2) = lit "2" /\ fixed 0 (f64_lit 7 2) = lit "4" /\
  fixed 1 (f64_lit 1 4) = lit "0.2" /\ fixed 3 (f64_of 12) = lit "12.000" /\
  fixed 2 (f64_div (f64_of 0) (f64_of 0)) = lit "NaN" /\ fixed 2 (f64_lit 1 3) = lit "0.33".
Proof. repeat split; vm_compute; reflexivity. Qed.

Definition comma : byte := x2c.

(** A field that neither ends a column nor a line. *)
Definition plain_byte (b : byte) : bool := negb (bool_decide (b = comma) || bool_decide (b = x0a)).
Definition plain (s : str) : bool := forallb plain_byte s.

(** The columns of a line. *)
Definition columns (line : str) : list str := split_on comma line.

(** ** What is plain *)

Lemma field_app s t : plain (s ++ t) = plain s && plain t.
Proof. apply forallb_app. Qed.

Lemma plain_no_comma s : plain s = true -> comma ∉ s.
Proof.
  unfold plain. rewrite forallb_forall. intros H Hin%list_elem_of_In.
  by specialize (H _ Hin).
Qed.

Lemma dec_digits_plain fuel n acc : plain acc = true -> plain (dec_digits fuel n acc) = true.
Proof.
  revert n acc. induction fuel as [|fuel IH]; intros n acc Ha; [exact Ha|]. cbn [dec_digits].
  assert (plain (byte_of_Z (48 + n mod 10) :: acc) = true) as Hd.
  { change (plain_byte (byte_of_Z (48 + n mod 10)) && plain acc = true). rewrite Ha, andb_true_r. pose proof (digit_byte_ok n) as Hb.
    unfold plain_byte, comma. rewrite !bool_decide_eq_false_2; [done|intros E; by rewrite E in Hb..]. }
  case_match; [done|by apply IH].
Qed.

Lemma to_dec_field n : plain (to_dec n) = true.
Proof. by apply dec_digits_plain. Qed.

Lemma pad_plain k s : plain s = true -> plain (pad k s) = true.
Proof.
  intros Hs. unfold pad. rewrite field_app, Hs, andb_true_r. by induction (k - length s)%nat.
Qed.

Lemma fixed_digits_plain k n : plain (fixed_digits k n) = true.
Proof.
  unfold fixed_digits. rewrite field_app, to_dec_field. destruct k; [done|].
  change (plain ([x2e] ++ pad (Datatypes.S k) (to_dec (n mod 10 ^ Z.of_nat (Datatypes.S k)))) = true).
  by rewrite field_app, pad_plain by apply to_dec_field.
Qed.

Lemma fixed_plain k x : plain (fixed k x) = true.
Proof. destruct x as [[]|[]| |[] m e]; cbn -[fixed_digits]; rewrite ?fixed_digits_plain; reflexivity. Qed.
Create Rewrite HintDb plain.
#[export] Hint Rewrite field_app to_dec_field fixed_plain : plain.

(** A line of five plain fields and a note. *)
Lemma columns_of a b c d notes :
  plain a = true -> plain b = true -> plain c = true -> plain d = true ->
  columns (a ++ comma :: b ++ comma :: c ++ comma :: d ++ comma :: notes) = a :: b :: c :: d :: columns notes.
Proof.
  intros Ha Hb Hc Hd. unfold columns.
  by rewrite !split_on_cut by (by apply plain_no_comma).
Qed.

(** ** The benchmark harness *)

Module Bench.

(** [row]: a note loses its commas. *)
Definition replace_comma (s : str) : str := map (fun b => if bool_decide (b = comma) then x3b else b) s.

Definition bench_row (scenario metric value unit notes : str) : str :=
  scenario ++ comma :: metric ++ comma :: value ++ comma :: unit ++ comma :: replace_comma notes.

Definition bench_header : str := lit "scenario,metric,value,unit,notes".

Inductive Scenario := S1 | S2 | S3 | S4 | S5 | S6 | All.

#[export] Instance Scenario_eq_dec : EqDecision Scenario.
Proof. solve_decision. Defined.

Record Args := mkArgs {
  ar_scenario : Scenario;
  ar_clients : Z;
  ar_object_mib : Z;
  ar_slice_mib : Z;
  ar_mem_mib : Z }.

Definition object_size (a : Args) : Z := wrap64 (wrap64 (ar_object_mib a * 1024) * 1024).

(** [let run = |s| args.scenario == s || args.scenario == Scenario::All]. *)
Definition runs (a : Args) (s : Scenario) : bool :=
  bool_decide (ar_scenario a = s) || bool_decide (ar_scenario a = All).

(** *** The load of a scenario *)

(** [drive]: client [i] reads [urls[i % urls.len()]]; all send the same range.
    [None] is a remainder by zero. *)
Definition bench_drive (urls : list str) (clients : Z) (range : option str) : option (list (str * option str)) :=
  mapM (fun i => url ← urls !! Z.to_nat (i mod len urls); Some (url, range)) (seqZ 0 clients).

(** What a client records of its response, given the length of each chunk and
    when it came: the bytes, and the time of the first chunk. *)
Definition client_sample (chunks : list (Z * Duration)) : Z * Duration :=
  (foldl (fun n c => wrap64 (n + c.1)) 0 chunks, match chunks with (_, t) :: _ => t | [] => 0 end).

(** The report of a drive: the clients' samples, in the order they ended. *)
Definition drive_report (clients : list (list (Z * Duration))) (elapsed : Duration) : Report :=
  finish (collect (map client_sample clients)) elapsed.

Definition s3_names (a : Args) : list str := map (fun i => lit "s3-" ++ to_dec i) (seqZ 0 (ar_clients a)).

Definition s5_range (a : Args) : str :=
  let start := object_size a / 4 in
  let last := wrap64 (wrap64 (start + 8 * 1024 * 1024) - 1) in
  lit "bytes=" ++ to_dec start ++ x2d :: to_dec last.

(** The objects of a scenario, its clients and their range, as [main] passes
    them to [drive]. *)
Definition bench_load (base_url : str) (a : Args) (s : Scenario) : option (list (str * option str)) :=
  let url name := base_url ++ object_path name (object_size a) in
  match s with
  | S1 => bench_drive [url (lit "s1")] 1 None
  | S2 => bench_drive [url (lit "s2")] (ar_clients a) None
  | S3 => bench_drive (map url (s3_names a)) (ar_clients a) None
  | S4 => bench_drive [url (lit "s4")] (ar_clients a) None
  | S5 => bench_drive [url (lit "s5")] (ar_clients a) (Some (s5_range a))
  | S6 => bench_drive [url (lit "s6")] 1 (Some (lit "bytes=0-1048575"))
  | All => Some []
  end.

(** [Rig::start]: the store, the slice size and the readahead of the system under
    test.  The slice size is cast to 32 bits. *)
Definition rig_store (mem_mib disk_mib : Z) : StoreConfig :=
  let d := store_config_default in
  mkStoreConfig (wrap64 (wrap64 (mem_mib * 1024) * 1024)) (wrap64 (wrap64 (disk_mib * 1024) * 1024))
    (so_block_bytes d) (so_flushers d) (so_buffer_pool_bytes d) (so_direct_io d).
Definition rig_slice_size (a : Args) : Z := wrap32 (wrap64 (wrap64 (ar_slice_mib a * 1024) * 1024)).
Definition rig_readahead : Z := 8.

(** *** The report *)

Definition millis (d : Duration) : f64 := f64_mul (as_secs_f64 d) (f64_of 1000).

(** [report]; [None] is an index out of bounds. *)
Definition bench_report (scenario : str) (r : Report) (notes : str) : option (list str) :=
  median ← ttfb_percentile r p50;
  slow ← ttfb_percentile r p99;
  Some [bench_row scenario (lit "throughput") (fixed 2 (gbps r)) (lit "Gbps") notes;
        bench_row scenario (lit "throughput") (fixed 0 (mib_per_second r)) (lit "MiB/s") [];
        bench_row scenario (lit "ttfb_p50") (fixed 2 (millis median)) (lit "ms") [];
        bench_row scenario (lit "ttfb_p99") (fixed 2 (millis slow)) (lit "ms") [];
        bench_row scenario (lit "requests") (to_dec (rp_requests r)) (lit "count") []].

(** The processor, from [/proc/cpuinfo]. *)
Definition hardware (cpuinfo : option str) : str :=
  default (lit "unknown")
    (s ← cpuinfo;
     l ← head (filter (fun l => starts_with (lit "model name") l = true) (lines s));
     v ← split_on x3a l !! 1%nat;
     Some (replace_comma (trim v))).

Definition environment (a : Args) (cpuinfo : option str) : list str :=
  let env := lit "environment" in
  [bench_row env (lit "hardware") (hardware cpuinfo) [] (lit "every number below is only valid for this hardware");
   bench_row env (lit "object_size") (to_dec (ar_object_mib a)) (lit "MiB") [];
   bench_row env (lit "slice_size") (to_dec (ar_slice_mib a)) (lit "MiB") [];
   bench_row env (lit "clients") (to_dec (ar_clients a)) (lit "count") [];
   bench_row env (lit "memory_tier") (to_dec (ar_mem_mib a)) (lit "MiB") []].

(** What a run measured. *)
Record Measured := mkMeasured {
  me_report : Scenario -> Report;
  me_upstream_bytes : Z;
  me_open : Duration;
  me_first_hit : Duration }.

Definition amplification (upstream_bytes size : Z) : f64 := f64_div (f64_of upstream_bytes) (f64_of size).

(** The lines a scenario prints. *)
Definition scenario_lines (a : Args) (m : Measured) (s : Scenario) : option (list str) :=
  match s with
  | S1 => bench_report (lit "S1") (me_report m S1) (lit "warm, single client, whole object")
  | S2 => bench_report (lit "S2") (me_report m S2) (lit "warm, N clients, same object")
  | S3 => bench_report (lit "S3") (me_report m S3) (lit "warm, N clients, N distinct objects")
  | S4 =>
      lines ← bench_report (lit "S4") (me_report m S4) (lit "cold fill, N clients, same object");
      Some (lines ++
        [bench_row (lit "S4") (lit "upstream_bytes") (to_dec (me_upstream_bytes m)) (lit "bytes") [];
         bench_row (lit "S4") (lit "upstream_amplification")
           (fixed 2 (amplification (me_upstream_bytes m) (object_size a))) (lit "ratio")
           (lit "1.0 is perfect coalescing; N would be none at all")])
  | S5 => bench_report (lit "S5") (me_report m S5) (lit "warm, N clients, 8 MiB ranges")
  | S6 =>
      lines ← bench_report (lit "S6") (me_report m S6) (lit "after restart");
      Some (bench_row (lit "S6") (lit "store_open") (fixed 3 (as_secs_f64 (me_open m))) (lit "s")
              (lit "reopen a populated cache") ::
            bench_row (lit "S6") (lit "time_to_first_hit") (fixed 3 (millis (me_first_hit m))) (lit "ms") [] :: lines)
  | All => Some []
  end.

(** [main]: the lines of standard output. *)
Definition bench_main (a : Args) (cpuinfo : option str) (m : Measured) : option (list str) :=
  scenarios ← mapM (scenario_lines a m) (filter (fun s => runs a s = true) [S1; S2; S3; S4; S5; S6]);
  Some (bench_header :: environment a cpuinfo ++ concat scenarios).

(** *** Every line parses *)

Lemma replace_comma_plain s : x0a ∉ s -> plain (replace_comma s) = true.
Proof.
  induction s as [|b s IH]; [done|]. intros [Hb Hs]%not_elem_of_cons.
  change (plain_byte (if bool_decide (b = comma) then x3b else b) && plain (replace_comma s) = true).
  rewrite IH by done. case_bool_decide; [done|]. unfold plain_byte.
  by rewrite !bool_decide_eq_false_2 by congruence.
Qed.

(** A line that is one line of five columns. *)
Definition parses (line : str) : Prop :=
  exists scenario metric value unit notes,
    columns line = [scenario; metric; value; unit; notes] /\ x0a ∉ line.

Lemma plain_no_newline s : plain s = true -> x0a ∉ s.
Proof.
  unfold plain. rewrite forallb_forall. intros H Hin%list_elem_of_In. by specialize (H _ Hin).
Qed.

Lemma row_parses scenario metric value unit notes :
  plain scenario = true -> plain metric = true -> plain value = true -> plain unit = true -> x0a ∉ notes ->
  parses (bench_row scenario metric value unit notes).
Proof.
  intros Ha Hb Hc Hd Hn. apply replace_comma_plain in Hn. exists scenario, metric, value, unit, (replace_comma notes).
  unfold bench_row. split.
  - rewrite columns_of by done. unfold columns. by rewrite split_on_none by (by apply plain_no_comma).
  - repeat (rewrite not_elem_of_app || rewrite not_elem_of_cons).
    repeat (split; [done || by apply plain_no_newline|]). by apply plain_no_newline.
Qed.

(** Lines, fields and what [trim] leaves have no line feed. *)
Lemma strip_all_suffix fuel ps s : exists p, s = p ++ strip_all fuel ps s.
Proof.
  revert s. induction fuel as [|fuel IH]; intros s; [by exists []|]. cbn [strip_all].
  destruct (strip_any ps s) as [r|] eqn:E; [|by exists []].
  assert (exists p, s = p ++ r) as [p ->].
  { revert E. clear IH. induction ps as [|q ps IHp]; [done|]. cbn [strip_any].
    destruct (strip_prefix q s) as [r'|] eqn:Eq; [|exact IHp]. intros [= <-]. apply strip_prefix_Some in Eq. by exists q. }
  destruct (IH r) as [p' Hp']. exists (p ++ p'). rewrite <- app_assoc. by rewrite <- Hp'.
Qed.

Lemma trim_subset b s : b ∈ trim s -> b ∈ s.
Proof.
  unfold trim, trim_end. rewrite elem_of_reverse. intros Hb.
  destruct (strip_all_suffix (length (trim_start s)) (map (@reverse byte) white_space) (reverse (trim_start s))) as [p Hp].
  assert (b ∈ reverse (trim_start s)) as H1 by (rewrite Hp; apply elem_of_app; by right).
  rewrite elem_of_reverse in H1. unfold trim_start in H1.
  destruct (strip_all_suffix (length s) white_space s) as [q Hq]. rewrite Hq. apply elem_of_app. by right.
Qed.

Lemma split_on_subset c s p b : p ∈ split_on c s -> b ∈ p -> b ∈ s /\ b <> c.
Proof.
  revert p. induction s as [|x s IH]; intros p; cbn [split_on].
  { intros ->%list_elem_of_singleton. by intros ?%elem_of_nil. }
  case_bool_decide as Hx.
  - intros [-> |Hp]%elem_of_cons; [by intros ?%elem_of_nil|]. intros Hb. destruct (IH p Hp Hb). split; [by right|done].
  - destruct (split_on c s) as [|q ps] eqn:E.
    + intros ->%list_elem_of_singleton. intros ->%list_elem_of_singleton. split; [left|done].
    + intros [-> |Hp]%elem_of_cons.
      * intros [-> |Hb]%elem_of_cons; [split; [left|done]|]. destruct (IH q ltac:(left) Hb). split; [by right|done].
      * intros Hb. destruct (IH p ltac:(by right) Hb). split; [by right|done].
Qed.

Lemma lines_no_newline s l : l ∈ lines s -> x0a ∉ l.
Proof.
  unfold lines. assert (Forall (fun p => x0a ∉ p) (split_on x0a s)) as Hall.
  { apply Forall_forall. intros p Hp Hb. by destruct (split_on_subset _ _ _ _ Hp Hb). }
  intros Hl. revert l Hl. induction Hall as [|p ps Hp Hall IH]; intros l Hl; [by apply elem_of_nil in Hl|].
  destruct ps as [|q ps]; cbn [chomp_lines] in Hl.
  - destruct p; [by apply elem_of_nil in Hl|]. by apply list_elem_of_singleton in Hl as ->.
  - apply elem_of_cons in Hl as [-> |Hl]; [|by apply IH]. unfold chomp, strip_suffix.
    destruct (strip_prefix (reverse [x0d]) (reverse p)) as [r|] eqn:E; [|done]. cbn.
    apply strip_prefix_Some in E. intros Hb. apply Hp. apply elem_of_reverse. rewrite E. apply elem_of_app. right.
    by rewrite <- elem_of_reverse.
Qed.

Lemma hardware_plain cpuinfo : plain (hardware cpuinfo) = true.
Proof.
  unfold hardware. destruct cpuinfo as [s|]; [|done]. cbn [mbind option_bind].
  destruct (head _) as [l|] eqn:El; [|done]. cbn [mbind option_bind].
  destruct (split_on x3a l !! 1%nat) as [v|] eqn:Ev; [|done]. cbn.
  apply replace_comma_plain. intros Hb%trim_subset. apply list_elem_of_lookup_2 in Ev.
  destruct (split_on_subset _ _ _ _ Ev Hb) as [Hin _]. apply head_Some_elem_of in El.
  apply list_elem_of_filter in El as [_ El]. by apply lines_no_newline in El.
Qed.

Lemma report_parses scenario r notes :
  plain scenario = true -> x0a ∉ notes -> exists lines, bench_report scenario r notes = Some lines /\ Forall parses lines.
Proof.
  intros Hs Hn. unfold bench_report.
  assert (forall p, exists d, ttfb_percentile r p = Some d) as Hp.
  { intros p. destruct (rp_ttfb r) as [|x l] eqn:E; [exists 0; unfold ttfb_percentile; by rewrite E|].
    destruct (percentile_in r p) as (d & Hd & _); [by rewrite E|by exists d]. }
  destruct (Hp p50) as [median ->], (Hp p99) as [slow ->]. cbn [mbind option_bind]. eexists. split; [done|].
  repeat constructor; apply row_parses; autorewrite with plain; try done; apply not_elem_of_nil.
Qed.

Lemma scenario_parses a m s : exists lines, scenario_lines a m s = Some lines /\ Forall parses lines.
Proof.
  assert (forall scenario r text, plain scenario = true -> forallb (fun b => negb (bool_decide (b = x0a))) text = true ->
    exists lines, bench_report scenario r text = Some lines /\ Forall parses lines) as Hlit.
  { intros scenario r text Hs Ht. apply report_parses; [done|]. rewrite forallb_forall in Ht.
    intros Hin%list_elem_of_In. by specialize (Ht _ Hin). }
  destruct s; cbn [scenario_lines].
  - by apply Hlit.
  - by apply Hlit.
  - by apply Hlit.
  - destruct (Hlit (lit "S4") (me_report m S4) (lit "cold fill, N clients, same object")) as (lines & -> & Hl); [done..|].
    cbn [mbind option_bind]. eexists. split; [done|]. apply Forall_app. split; [done|].
    repeat constructor; apply row_parses; autorewrite with plain; try done;
      first [apply not_elem_of_nil|apply plain_no_newline; reflexivity].
  - by apply Hlit.
  - destruct (Hlit (lit "S6") (me_report m S6) (lit "after restart")) as (lines & -> & Hl); [done..|].
    cbn [mbind option_bind]. eexists. split; [done|].
    repeat (apply Forall_cons_2; [apply row_parses; autorewrite with plain; try done;
      first [apply not_elem_of_nil|apply plain_no_newline; reflexivity]|]). done.
  - by exists [].
Qed.

(** C39: whatever the benchmark measures, its output parses.  For any arguments,
    any text of [/proc/cpuinfo], any reports, counts and durations - no samples,
    no time, an object of no bytes, NaN and infinities included - the program
    prints its header and then lines of exactly the five columns the header names,
    none of which spans two lines; the notes with commas and the processor's name
    are what makes this more than the format string. *)
Theorem bench_output_parses a cpuinfo m :
  columns bench_header = [lit "scenario"; lit "metric"; lit "value"; lit "unit"; lit "notes"] /\
  exists lines, bench_main a cpuinfo m = Some (bench_header :: lines) /\ Forall parses lines.
Proof.
  split; [reflexivity|]. unfold bench_main.
  assert (forall l, exists scenarios, mapM (scenario_lines a m) l = Some scenarios /\ Forall parses (concat scenarios))
    as Hall.
  { induction l as [|s l (scenarios & Hs & Hp)]; [by exists []|].
    destruct (scenario_parses a m s) as (lines & Hl & Hlp). exists (lines :: scenarios). cbn [mapM].
    rewrite Hl, Hs. split; [done|]. by apply Forall_app. }
  destruct (Hall (filter (fun s => runs a s = true) [S1; S2; S3; S4; S5; S6])) as (scenarios & -> & Hp).
  cbn [mbind option_bind]. eexists. split; [done|]. apply Forall_app. split; [|done].
  repeat (apply Forall_cons_2; [apply row_parses; autorewrite with plain; rewrite ?hardware_plain; try done;
    first [apply not_elem_of_nil|apply plain_no_newline; reflexivity]|]). done.
Qed.

(** *** The loads are the scenarios *)

Lemma to_dec_inj n n' : 0 <= n -> 0 <= n' -> to_dec n = to_dec n' -> n = n'.
Proof.
  intros Hn Hn' E. destruct (to_dec_spec n Hn) as (_ & _ & <-), (to_dec_spec n' Hn') as (_ & _ & <-). by rewrite E.
Qed.

Lemma s3_names_distinct a : NoDup (s3_names a).
Proof.
  unfold s3_names. apply NoDup_fmap_2_strong; [|apply NoDup_seqZ].
  intros x y Hx%elem_of_seqZ Hy%elem_of_seqZ E. apply app_inv_head in E. by apply to_dec_inj; [lia|lia|].
Qed.

Lemma drive_one url clients range :
  bench_drive [url] clients range = Some (replicate (Z.to_nat clients) (url, range)).
Proof.
  unfold bench_drive. assert (forall l : list Z, mapM (fun i => u ← [url] !! Z.to_nat (i mod len [url]); Some (u, range)) l
    = Some (replicate (length l) (url, range))) as Hl.
  { induction l as [|i l IH]; [done|]. cbn [mapM length replicate]. rewrite IH.
    replace (i mod len [url]) with 0; [done|]. change (len [url]) with 1. by rewrite Z.mod_1_r. }
  by rewrite Hl, length_seqZ.
Qed.

Lemma drive_each urls range :
  bench_drive urls (len urls) range = Some (map (fun url => (url, range)) urls).
Proof.
  unfold bench_drive. apply mapM_Some_2. apply Forall2_same_length_lookup_2.
  - rewrite length_map, length_seqZ. unfold len. lia.
  - intros k i p Hk Hp. apply lookup_seqZ in Hk as [-> Hk]. rewrite list_lookup_fmap in Hp.
    destruct (urls !! k) as [url|] eqn:E; [|done]. injection Hp as <-.
    rewrite Z.add_0_l, Z.mod_small by lia. by rewrite Nat2Z.id, E.
Qed.

(** The scenarios are what their names say: in S2, S4 and S5 every client reads
    the one object, in S3 each its own.  In S5 every client asks for the very same
    range, where its description says random ones. *)
Theorem bench_loads base a :
  0 <= ar_clients a ->
  let n := Z.to_nat (ar_clients a) in
  let url name := base ++ object_path name (object_size a) in
  bench_load base a S2 = Some (replicate n (url (lit "s2"), None)) /\
  bench_load base a S3 = Some (map (fun name => (url name, None)) (s3_names a)) /\ NoDup (s3_names a) /\
  bench_load base a S4 = Some (replicate n (url (lit "s4"), None)) /\
  bench_load base a S5 = Some (replicate n (url (lit "s5"), Some (s5_range a))).
Proof.
  intros Hc n url. cbn [bench_load]. rewrite !drive_one. split; [done|]. split; [|by split; [apply s3_names_distinct|]].
  assert (ar_clients a = len (map url (s3_names a))) as E.
  { unfold len, s3_names. rewrite !length_map, length_seqZ. lia. }
  rewrite E at 1. rewrite drive_each. by rewrite map_map.
Qed.
End Bench.

(** ** The first harness *)

Module M0.

Definition MIB : Z := 1024 * 1024.
Definition mib (n : Z) : Z := wrap64 (n * MIB).

(** [row]: notes as they are. *)
Definition measure_row (scenario metric value unit notes : str) : str :=
  scenario ++ comma :: metric ++ comma :: value ++ comma :: unit ++ comma :: notes.

Definition measure_header : str := lit "scenario,metric,value,unit,notes".

(** [rss_bytes]: the first [VmRSS:] line decides. *)
Definition measure_rss_bytes (status : option str) : Z :=
  match status with
  | None => 0
  | Some s =>
      match omap (strip_prefix (lit "VmRSS:")) (lines s) with
      | rest :: _ =>
          let kb := default 0 (v ← head (split_whitespace rest); parse_u64 v) in wrap64 (kb * 1024)
      | [] => 0
      end
  end.

Definition measure_header_for (total_len slice_size : Z) : SliceHeader :=
  mkSliceHeader slice_size total_len 0 (Some (x22 :: lit "measure" ++ [x22])) None
    (Some (lit "application/octet-stream")).

Definition measure_gbps (bytes : Z) (elapsed : Duration) : f64 :=
  f64_div (f64_div (f64_mul (f64_of bytes) (f64_of 8)) (as_secs_f64 elapsed)) (f64_of 1000000000).

Definition measure_mibs (bytes : Z) (elapsed : Duration) : f64 :=
  f64_div (f64_div (f64_of bytes) (f64_of MIB)) (as_secs_f64 elapsed).

(** [f64::round]: halves away from zero; the percentile's index is not negative. *)
Definition f64_round (x : f64) : f64 :=
  match x with
  | S754_finite s m e =>
      if 0 <=? e then x
      else
        let n := (2 * Z.pos m + 2 ^ (- e)) / (2 * 2 ^ (- e)) in
        binary_normalize 53 1024 (if s then - n else n) 0 s
  | _ => x
  end.

Definition percentile_index (n : Z) (p : f64) : Z := as_usize (f64_round (f64_mul (f64_of (n - 1)) p)).

(** [None] is an index out of bounds. *)
Definition percentile (sorted : list Duration) (p : f64) : option Duration :=
  match sorted with
  | [] => Some 0
  | _ => sorted !! Z.to_nat (percentile_index (len sorted) p)
  end.

(** [distinct_payload]: byte [i] is a byte of the index, with [i] mixed in. *)
Definition payload_byte (tag : bytes) (i : Z) : byte :=
  byte_of_Z (Z.lxor (Z_of_byte (default x00 (tag !! Z.to_nat (i mod 8)))) (i mod 256)).
Definition distinct_payload (index length : Z) : bytes :=
  map (payload_byte (le_bytes 8 index)) (seqZ 0 length).

(** *** The codec *)

Definition codec_lines (slice_mib iterations : Z) (encode decode : Duration) : list str :=
  let bytes := wrap64 (mib slice_mib * iterations) in
  [measure_row (lit "codec") (lit "encode_throughput") (fixed 2 (measure_mibs bytes encode)) (lit "MiB/s") (lit "includes xxh3 checksum");
   measure_row (lit "codec") (lit "encode_throughput") (fixed 2 (measure_gbps bytes encode)) (lit "Gbps") [];
   measure_row (lit "codec") (lit "decode_throughput") (fixed 2 (measure_mibs bytes decode)) (lit "MiB/s")
     (lit "includes checksum verification and a copy");
   measure_row (lit "codec") (lit "decode_throughput") (fixed 2 (measure_gbps bytes decode)) (lit "Gbps") []].

(** *** The store *)

Section StoreRun.
Context {S : Type} `{Foyer S} (xxh3_64 : bytes -> Z) (miss : FetchError) (object : ObjectId).

(** The store that is written to, and the one that is read from. *)
Definition written_config (direct : bool) (mem_mib slice_mib entries : Z) (disk_mib : option Z) (block_mib : Z)
    : SpikeStoreConfig :=
  let data := wrap64 (entries * mib slice_mib) in
  mkSpikeStoreConfig (mib mem_mib)
    (match disk_mib with Some m => mib m | None => Z.max (wrap64 (data * 2)) (256 * MIB) end)
    (mib block_mib) direct.

Definition reopened_config (direct : bool) (mem_mib slice_mib entries : Z) : SpikeStoreConfig :=
  let data := wrap64 (entries * mib slice_mib) in
  mkSpikeStoreConfig (mib mem_mib) (Z.max (wrap64 (data * 2)) (256 * MIB)) (64 * MIB) direct.

Definition measured_key (i : Z) : SliceKey := mkSliceKey object 0 (wrap32 i).

Definition insert_one (total slice_size length : Z) (s : S) (i : Z) : S :=
  (foyer_get_or_fetch s (measured_key i)
     (Ok (mkSliceValue (measure_header_for total slice_size) (distinct_payload i length)))).2.

(** One pass over the entries: the store it leaves, the checksum of what was
    read, and the misses. *)
Definition read_one (acc : S * Z * Z) (i : Z) : S * Z * Z :=
  let '(s, checksum, misses) := acc in
  match foyer_get_or_fetch s (measured_key i) (Err miss) with
  | (GotStored v, s) => (s, Z.lxor checksum (xxh3_64 (sv_payload v)), misses)
  | (_, s) => (s, checksum, misses + 1)
  end.
Definition read_pass (s : S) (entries : Z) : S * Z * Z := foldl read_one (s, 0, 0) (seqZ 0 entries).
End StoreRun.

(** The label of a pass. *)
Definition pass_label (pass : Z) (fits_in_memory : bool) : str :=
  if pass =? 0 then lit "cold process: disk tier plus memory-tier population"
  else if fits_in_memory then lit "warm: memory tier"
  else lit "warm: disk tier, memory tier too small to retain".

Definition pass_lines (slice_mib entries mem_mib pass misses : Z) (elapsed : Duration) : list str :=
  let length := mib slice_mib in
  let fits := wrap64 (entries * length) <=? mib mem_mib in
  let read_bytes := wrap64 (wrap64 (entries - misses) * length) in
  let throughput := lit "read_throughput_pass" ++ to_dec pass in
  [measure_row (lit "store") throughput (fixed 2 (measure_mibs read_bytes elapsed)) (lit "MiB/s")
     (pass_label pass fits ++ lit "; " ++ to_dec misses ++ lit " misses; includes xxh3 over every byte");
   measure_row (lit "store") throughput (fixed 2 (measure_gbps read_bytes elapsed)) (lit "Gbps") [];
   measure_row (lit "store") (lit "read_misses_pass" ++ to_dec pass) (to_dec misses) (lit "count")
     (lit "of " ++ to_dec entries)].

(** What [measure_store] prints until the store is reopened. *)
Definition store_lines (direct : bool) (slice_mib entries mem_mib : Z) (disk_mib : option Z) (block_mib : Z)
    (generation write flush : Duration) (rss_before rss_after rss_again : Z) : list str :=
  let data := wrap64 (entries * mib slice_mib) in
  let write_net := sat_sub write generation in
  [measure_row (lit "store") (lit "config")
     (lit "mem=" ++ to_dec mem_mib ++ lit "MiB disk=" ++
      to_dec (match disk_mib with Some m => m | None => Z.max (wrap64 (data * 2)) (256 * MIB) / MIB end) ++
      lit "MiB block=" ++ to_dec block_mib ++ lit "MiB data=" ++ to_dec (data / MIB) ++
      lit "MiB direct=" ++ lit (if direct then "true" else "false")) [] [];
   measure_row (lit "store") (lit "payload_generation") (fixed 2 (measure_mibs data generation)) (lit "MiB/s")
     (lit "allocation and fill only, no store involved");
   measure_row (lit "store") (lit "insert_rate") (fixed 2 (measure_mibs data write)) (lit "MiB/s")
     (to_dec entries ++ lit " distinct entries of " ++ to_dec slice_mib ++ lit " MiB, mem tier " ++ to_dec mem_mib ++
      lit " MiB; includes payload generation");
   measure_row (lit "store") (lit "insert_rate_net") (fixed 2 (measure_mibs data write_net)) (lit "MiB/s")
     (lit "payload generation subtracted");
   measure_row (lit "store") (lit "insert_rate_net") (fixed 2 (measure_gbps data write_net)) (lit "Gbps") [];
   measure_row (lit "store") (lit "rss_after_insert") (to_dec rss_after) (lit "bytes")
     (lit "delta " ++ to_dec (sat_sub rss_again rss_before) ++ lit " over " ++ to_dec data ++ lit " bytes inserted");
   measure_row (lit "store") (lit "flush_time") (fixed 3 (as_secs_f64 flush)) (lit "s") (lit "close() after the inserts above");
   measure_row (lit "store") (lit "insert_plus_flush") (fixed 2 (measure_mibs data (write_net + flush))) (lit "MiB/s")
     (lit "durable write throughput");
   measure_row (lit "store") (lit "insert_plus_flush") (fixed 2 (measure_gbps data (write_net + flush))) (lit "Gbps") []].

(** The second close, which may be given up after 20 seconds. *)
Inductive Closed := ClosedIn (elapsed : Duration) | CloseFailed (text : str) | CloseTimedOut.

Definition close_line (closed : Closed) : str :=
  let close_time value := measure_row (lit "store") (lit "close_time") value (lit "s") in
  match closed with
  | ClosedIn elapsed => close_time (fixed 3 (as_secs_f64 elapsed)) (lit "second close, after reads")
  | CloseFailed text => close_time (lit "error") (Bench.replace_comma text)
  | CloseTimedOut =>
      close_time (lit "timeout") (lit "close() did not return within 20s after reads that included failed fetches")
  end.

(** *** The index *)

(** The sizes to measure: what does not parse is skipped. *)
Definition index_sizes (spec : str) : list Z := omap (fun s => parse_u64 (trim s)) (split_on comma spec).

Definition index_config (direct : bool) (entries : Z) : SpikeStoreConfig :=
  mkSpikeStoreConfig (Z.max (wrap64 (entries * 256)) (64 * MIB)) (1024 * MIB) (16 * MIB) direct.

Definition index_lines (entries baseline after : Z) (elapsed : Duration) : list str :=
  [measure_row (lit "index_memory") (lit "rss_per_entry")
     (fixed 1 (f64_div (f64_of (sat_sub after baseline)) (f64_of entries))) (lit "bytes")
     (to_dec entries ++ lit " entries, RSS " ++ to_dec baseline ++ lit " -> " ++ to_dec after ++ lit ", insert took " ++
      fixed 2 (as_secs_f64 elapsed) ++ lit "s");
   measure_row (lit "index_memory") (lit "insert_rate") (fixed 0 (f64_div (f64_of entries) (as_secs_f64 elapsed)))
     (lit "entries/s") []].

(** *** The proxy *)

(** The cold fill against the same object straight from the origin. *)
Definition cold_lines (size : Z) (cold direct_elapsed : Duration) : list str :=
  [measure_row (lit "proxy") (lit "cold_fill_throughput") (fixed 2 (measure_gbps size cold)) (lit "Gbps")
     (lit "single client, mock origin on loopback");
   measure_row (lit "proxy") (lit "origin_direct_throughput") (fixed 2 (measure_gbps size direct_elapsed)) (lit "Gbps")
     (lit "same object straight from the origin");
   measure_row (lit "proxy") (lit "cold_fill_overhead")
     (fixed 1 (f64_mul (SFsub 53 1024 (f64_div (as_secs_f64 cold) (as_secs_f64 direct_elapsed)) (f64_of 1)) (f64_of 100)))
     (lit "percent") (lit "proxy cold fill versus direct; NFR-3 wants fill >= 95% of direct")].

Definition origin_lines (requests bytes_served size : Z) : list str :=
  [measure_row (lit "proxy") (lit "upstream_requests_total") (to_dec requests) (lit "count")
     (lit "cold fill plus one direct read");
   measure_row (lit "proxy") (lit "upstream_bytes_total") (to_dec bytes_served) (lit "bytes")
     (lit "object is " ++ to_dec size ++ lit " bytes")].

Definition tier (mem_mib object_mib : Z) : str :=
  if mib object_mib <=? mib mem_mib then lit "memory tier" else lit "disk tier".

(** A round of warm reads; [None] is an index out of bounds. *)
Definition round_lines (clients mem_mib object_mib round total rss : Z) (elapsed : Duration) (ttfb : list Duration)
    : option (list str) :=
  let samples := merge_sort Z.le ttfb in
  let note := lit "round " ++ to_dec round ++ lit ", " in
  median ← percentile samples p50;
  slow ← percentile samples p99;
  Some [measure_row (lit "proxy") (lit "hit_throughput") (fixed 2 (measure_gbps total elapsed)) (lit "Gbps")
          (note ++ to_dec clients ++ lit " clients, " ++ tier mem_mib object_mib);
        measure_row (lit "proxy") (lit "ttfb_p50") (fixed 2 (f64_mul (as_secs_f64 median) (f64_of 1000))) (lit "ms")
          (note ++ tier mem_mib object_mib);
        measure_row (lit "proxy") (lit "ttfb_p99") (fixed 2 (f64_mul (as_secs_f64 slow) (f64_of 1000))) (lit "ms")
          (note ++ tier mem_mib object_mib);
        measure_row (lit "proxy") (lit "rss") (to_dec rss) (lit "bytes")
          (lit "round " ++ to_dec round ++ lit "; mem tier " ++ to_dec mem_mib ++ lit " MiB")].

(** *** Recovery *)

Definition recovery_config (direct : bool) (slice_mib entries : Z) : SpikeStoreConfig :=
  mkSpikeStoreConfig (128 * MIB) (Z.max (wrap64 (wrap64 (entries * mib slice_mib) * 2)) (512 * MIB)) (64 * MIB) direct.

(** The first read after the reopen: [None] is a slice of another length, which
    fails an assertion. *)
Definition first_read_lines (slice_mib entries : Z) (opened first_hit : Duration) (read : result str SliceValue)
    : option (list str) :=
  let open_line := measure_row (lit "recovery") (lit "store_open_time") (fixed 3 (as_secs_f64 opened)) (lit "s")
    (to_dec (wrap64 (entries * mib slice_mib)) ++ lit " bytes cached across " ++ to_dec entries ++ lit " slices") in
  match read with
  | Ok v =>
      if negb (len (sv_payload v) =? mib slice_mib) then None else
      Some [open_line;
            measure_row (lit "recovery") (lit "time_to_first_hit")
              (fixed 3 (f64_mul (as_secs_f64 first_hit) (f64_of 1000))) (lit "ms") (lit "slice 0 read after reopen");
            measure_row (lit "recovery") (lit "survived_restart") (lit "true") (lit "bool") []]
  | Err text =>
      Some [open_line;
            measure_row (lit "recovery") (lit "survived_restart") (lit "false") (lit "bool") (Bench.replace_comma text)]
  end.

(** How many of the slices written are still there. *)
Definition slices_recovered {S} `{Foyer S} (object : ObjectId) (s : S) (entries : Z) : Z :=
  count (fun i => foyer_contains s (measured_key object i)) (seqZ 0 entries).

Definition recovery_lines (recovered entries : Z) : list str :=
  [measure_row (lit "recovery") (lit "slices_recovered") (to_dec recovered) (lit "count")
     (lit "of " ++ to_dec entries ++ lit " written");
   measure_row (lit "recovery") (lit "recovery_ratio") (fixed 3 (f64_div (f64_of recovered) (f64_of entries))) (lit "ratio") []].

(** *** What the figures rest on *)

Lemma lxor_byte_small a b : 0 <= a < 256 -> 0 <= b < 256 -> 0 <= Z.lxor a b < 256.
Proof.
  intros Ha Hb. split; [apply Z.lxor_nonneg; lia|].
  destruct (Z.eq_dec (Z.lxor a b) 0) as [->|Hne]; [lia|].
  assert (0 <= Z.lxor a b) by (apply Z.lxor_nonneg; lia).
  change 256 with (2 ^ 8). apply Z.log2_lt_pow2; [lia|].
  pose proof (Z.log2_lxor a b ltac:(lia) ltac:(lia)) as Hl.
  assert (forall x, 0 <= x < 256 -> Z.log2 x < 8) as Hx.
  { intros x Hx. destruct (Z.eq_dec x 0) as [->|]; [done|]. apply Z.log2_lt_pow2; lia. }
  pose proof (Hx a Ha). pose proof (Hx b Hb). lia.
Qed.

Lemma payload_byte_inj tag tag' i :
  payload_byte tag i = payload_byte tag' i ->
  default x00 (tag !! Z.to_nat (i mod 8)) = default x00 (tag' !! Z.to_nat (i mod 8)).
Proof.
  unfold payload_byte. intros E. apply (f_equal Z_of_byte) in E. rewrite !Z_of_byte_of_Z in E.
  pose proof (Z.mod_pos_bound i 256 ltac:(lia)).
  assert (forall t, Z.lxor (Z_of_byte t) (i mod 256) mod 256 = Z.lxor (Z_of_byte t) (i mod 256)) as Hs
    by (intros t; apply Z.mod_small, lxor_byte_small; [apply Z_of_byte_range|done]).
  rewrite !Hs in E.
  apply Z_of_byte_inj. apply (f_equal (fun z => Z.lxor z (i mod 256))) in E. cbv beta in E.
  rewrite !Z.lxor_assoc, !Z.lxor_nilpotent, !Z.lxor_0_r in E. exact E.
Qed.

(** Distinct entries have distinct payloads, so that the store cannot hold one
    allocation for all of them: the measurement error the comment on
    [distinct_payload] tells of. *)
Theorem payloads_distinct a b length :
  in_u 64 a -> in_u 64 b -> 8 <= length ->
  distinct_payload a length = distinct_payload b length -> a = b.
Proof.
  intros Ha Hb Hl E.
  assert (le_bytes 8 a = le_bytes 8 b) as Et.
  { apply list_eq_same_length with 8%nat; [by rewrite length_le_bytes..|].
    intros k x y Hk Hx Hy.
    assert (payload_byte (le_bytes 8 a) (Z.of_nat k) = payload_byte (le_bytes 8 b) (Z.of_nat k)) as Ek.
    { assert (forall c, distinct_payload c length !! k = Some (payload_byte (le_bytes 8 c) (Z.of_nat k))) as Hd.
      { intros c. unfold distinct_payload. rewrite list_lookup_fmap, lookup_seqZ_lt by lia. done. }
      pose proof (Hd a) as H1. rewrite E, Hd in H1. by injection H1. }
    apply payload_byte_inj in Ek. rewrite Z.mod_small, Nat2Z.id, Hx, Hy in Ek by lia. exact Ek. }
  apply (f_equal from_le) in Et. by rewrite !from_le_bytes in Et by done.
Qed.

(** *** What does not parse *)

Lemma columns_count s : len (columns s) = 1 + count (fun b => bool_decide (b = comma)) s.
Proof.
  induction s as [|b s IH]; [done|]. unfold columns in *. cbn [split_on]. rewrite count_cons.
  case_bool_decide; [rewrite len_cons; lia|].
  destruct (split_on comma s) as [|p ps] eqn:E; [|rewrite len_cons in *; lia].
  pose proof (count_nonneg (fun b => bool_decide (b = comma)) s). change (len (@nil str)) with 0 in IH. lia.
Qed.

(** A line has one column more than five for each comma of its note. *)
Lemma row_columns scenario metric value unit notes :
  plain scenario = true -> plain metric = true -> plain value = true -> plain unit = true ->
  len (columns (measure_row scenario metric value unit notes)) = 5 + count (fun b => bool_decide (b = comma)) notes.
Proof. intros. unfold measure_row. rewrite columns_of by done. rewrite !len_cons, columns_count. lia. Qed.

(** Lines with a comma in the note shift their columns, whatever is measured:
    the line of the payload generation has six columns, that of a round's
    throughput seven, where the header names five. *)
Theorem notes_shift_columns direct slice_mib entries mem_mib disk_mib block_mib generation write flush rss0 rss1 rss2
    clients object_mib round total rss elapsed ttfb line lines :
  store_lines direct slice_mib entries mem_mib disk_mib block_mib generation write flush rss0 rss1 rss2 !! 1%nat
    = Some line ->
  round_lines clients mem_mib object_mib round total rss elapsed ttfb = Some lines ->
  len (columns measure_header) = 5 /\ len (columns line) = 6 /\
  exists hit, head lines = Some hit /\ len (columns hit) = 7.
Proof.
  intros [= <-]. unfold round_lines. destruct (percentile _ p50) as [median|]; [|done].
  destruct (percentile _ p99) as [slow|]; [|done]. cbn [mbind option_bind].
  intros Hl. apply (inj Some) in Hl as <-.
  assert (forall s, plain s = true -> count (fun b => bool_decide (b = comma)) s = 0) as Hplain.
  { intros s Hs. pose proof (columns_count s) as Hc. unfold columns in Hc.
    rewrite split_on_none in Hc by (by apply plain_no_comma). change (len [s]) with 1 in Hc. lia. }
  split; [reflexivity|]. split; [by rewrite row_columns by (done || apply fixed_plain)|]. eexists. split; [reflexivity|].
  rewrite row_columns by (done || apply fixed_plain). rewrite !count_app, !(Hplain (to_dec _)) by apply to_dec_field.
  unfold tier. by destruct (mib object_mib <=? mib mem_mib).
Qed.

(** The store that is read from is opened with the block and disk sizes of the
    command line only if these are the defaults. *)
Theorem reopened_ignores_arguments direct mem_mib slice_mib entries disk_mib block_mib :
  written_config direct mem_mib slice_mib entries disk_mib block_mib
    = reopened_config direct mem_mib slice_mib entries <->
  mib block_mib = 64 * MIB /\
  match disk_mib with
  | None => True
  | Some m => mib m = Z.max (wrap64 (wrap64 (entries * mib slice_mib) * 2)) (256 * MIB)
  end.
Proof.
  unfold written_config, reopened_config. split.
  - intros [= Hd Hb]. destruct disk_mib; by split.
  - intros [-> Hd]. destruct disk_mib; [by rewrite Hd|done].
Qed.

(** The two harnesses disagree about the median of an even number of samples:
    this one takes the upper of the two in the middle, [LoadGen]'s the lower. *)
Theorem medians_differ n :
  1 <= n <= 128 -> percentile_index (2 * n) p50 = n /\ rank p50 (2 * n) - 1 = n - 1.
Proof.
  intros Hn. assert (forallb (fun n => (percentile_index (2 * n) p50 =? n) && (rank p50 (2 * n) =? n)) (seqZ 1 128) = true)
    as Hall by (vm_compute; reflexivity).
  rewrite forallb_forall in Hall. specialize (Hall n). rewrite andb_true_iff, !Z.eqb_eq in Hall.
  destruct Hall as [H1 H2]; [apply list_elem_of_In, elem_of_seqZ; lia|]. by rewrite H2.
Qed.

(** *** The passes *)

Section Passes.
Context {S : Type} `{FoyerLaws S} (xxh3_64 : bytes -> Z) (miss : FetchError) (object : ObjectId).

(** A pass only reads: the store loses entries or keeps them, and the misses are
    no more than the entries, so that [entries - misses] does not wrap. *)
Theorem read_pass_sound (s s' : S) entries checksum misses :
  0 <= entries -> read_pass xxh3_64 miss object s entries = (s', checksum, misses) ->
  held s' ⊆ held s /\ 0 <= misses <= entries.
Proof using Type.
  intros He. unfold read_pass.
  assert (forall l s0 c0 m0, foldl (read_one xxh3_64 miss object) (s0, c0, m0) l = (s', checksum, misses) ->
    held s' ⊆ held s0 /\ m0 <= misses <= m0 + len l) as Hgen.
  { induction l as [|i l IH]; intros s0 c0 m0; cbn [foldl].
    { intros [= <- <- <-]. split; [done|]. change (len (@nil Z)) with 0. lia. }
    rewrite len_cons. unfold read_one at 2.
    pose proof (held_get_or_fetch s0 (measured_key object i) (Err miss)) as Hlaw.
    destruct (foyer_get_or_fetch s0 (measured_key object i) (Err miss)) as [[v| |text] s1];
      intros [Hs Hm]%IH; (split; [etrans; [exact Hs|first [exact Hlaw|apply Hlaw]]|lia]). }
  intros [Hs Hm]%Hgen. split; [done|]. unfold len in Hm. rewrite length_seqZ in Hm. lia.
Qed.
End Passes.

Example rss_reads :
  measure_rss_bytes (Some (lit "Name:	measure" ++ [x0a] ++ lit "VmRSS:	    2048 kB" ++ [x0a])) = 2097152 /\
  measure_rss_bytes (Some (lit "VmRSS: many")) = 0 /\ measure_rss_bytes None = 0.
Proof. repeat split; vm_compute; reflexivity. Qed.
End M0.
